(* ===== verification/_CoqProject ===== *)
-Q . S2P
Prelude.v
Format.v
Double.v
ProcessInfo.v
Thread.v
Endian.v
Buffer.v
BufferStream.v
HttpRequest.v
HttpContext.v
Timestamp.v
TimestampSeconds.v
TimerQueue.v
Channel.v
Poller.v
EPollPoller.v
PollPoller.v
TcpConnection.v
Connection.v
ConnectionEnd.v
StringMap.v
StringPiece.v
Glue.v
HttpResponse.v
HttpServer.v
ProtobufCodec.v
RpcChannel.v
RpcStack.v
EventLoop.v
Reactor.v
LoopTimers.v
EventLoopThread.v
EventLoopThreadPool.v
TcpServer.v
ServerEnd.v
Connector.v
TcpClient.v
ClientEnd.v
Calendar.v
Date.v
TimeZone.v
TimestampFormat.v
ProcessInspector.v
Inspector.v
InspectorServer.v
SocketsOps.v
InetAddress.v
Acceptor.v
ServerStack.v
GzipFile.v
ZlibStream.v
LogStream.v
PerformanceInspector.v
FormatSI.v
Logging.v
LogFront.v
FileUtil.v
LogFile.v
AsyncLogging.v
LogStack.v
BlockingQueue.v
ThreadPool.v
ThreadPoolStop.v
