(* ===== verification/Prelude.v ===== *)
(** * muduo-cpp-20: a verification library

    muduo is a C++ network library: reactors ([EventLoop]) that multiplex
    sockets with epoll or poll, TCP connections, servers and clients on top of
    them, the protocols above (HTTP, protobuf frames, RPC), and a base library
    (time, logging, queues, a thread pool). This library models the program's
    own logic from the sources under [src/muduo] and proves what makes each
    part correct. A comment above a definition names the file, the lines and
    the function it translates.

    ** How the program is modelled

    An object is a [Record] with the class's fields under their names; an
    operation is a function from the state to an [outcome]: the new state, or
    the [fault] at which the program stops (an assert, a fatal log, an access
    outside an object, an exception nobody catches). [ensures] is total
    correctness of an outcome; [safely] allows only the length error of a
    vector that would exceed 2^63 bytes. Machine integers are [Z] with the
    wrap-around written out ([size_t], [swrap]); bytes are [Byte.byte]; a
    [std::map] is a [gmap], or a sorted association list where its order shows.
    Threads are step relations whose steps are the critical sections, the
    atomic accesses and the system calls; the invariants are proved by
    induction over the reachable states. What is not muduo's own code (the
    kernel, the clock, zlib, protobuf, the IANA database, the user's callbacks)
    is a parameter; where something is relied on, it is a hypothesis that
    states the documented behaviour, and a concrete instance shows that it can
    hold. Some states carry histories (what was written, what became of a
    socket): the operations only append to them, the theorems speak of them.

    ** The files, and what they show

    - [Prelude] (this file): outcomes, machine integers, lists, tactics.
      [Format]: decimal printing of integers as [std::format] does it, and
      reading it back. [Double]: the doubles that the code computes with, as
      scaled integers with their rounding.
    - [Endian], [Buffer], [BufferStream] (net/Endian.h, Buffer.h, Buffer.cc,
      protobuf/BufferStream.h): byte order; the buffer, every operation of
      which implements a byte queue and stays inside its vector; integers read
      back as they were appended; the protobuf stream over a buffer.
    - [Channel], [Poller], [EPollPoller], [PollPoller] (net/Channel, Poller,
      poller/): the dispatch of one descriptor's events; the abstract poller as
      a class [PollerOps] with laws [PollerLaws]; both pollers are instances,
      over a parametric epoll(4) and poll(2).
    - [EventLoop] (net/EventLoop): the loop thread and all others on the
      functor queue, the eventfd and the quit flag: no functor is lost, they
      run in order, no wake-up is lost, and the loop makes progress.
    - [Reactor] (net/EventLoop, Channel, Poller): the loop, any poller and the
      channels as one program: no dispatch meets a dangling channel and no
      assert fails while callbacks construct, change, remove and destroy
      channels; the callbacks called are those the kernel's reports ask for.
    - [Timestamp], [TimestampSeconds], [TimerQueue] (base/Timestamp, net/Timer, TimerId,
      TimerQueue): the timer queue refines a map of scheduled timers, for any
      callbacks and a clock that may jump.
    - [LoopTimers] (net/EventLoop, TimerQueue): the timers through the loop's
      queue, with threads that ask for and cancel them at any time, also
      between the callbacks of a dispatch: none is lost, none runs early or
      too often, and each is called when its time has come.
    - [TcpConnection], [Connection], [ConnectionEnd] (net/TcpConnection): the
      life cycle, the integrity of the byte stream, absence of failing asserts,
      the draining of the output. [Connection] is the class the protocols are
      verified against; [ConnectionEnd] has the destructors of a connection, its
      channel and its socket.
    - [Thread], [EventLoopThread] (base/Thread, net/EventLoopThread): the life
      of a thread, its names, the text of a stack trace; the two threads that
      hand over a loop on a stack: what is returned exists, and who waits is
      served.
    - [EventLoopThreadPool], [Acceptor], [TcpServer], [ServerEnd],
      [ServerStack], [Connector], [TcpClient], [ClientEnd] (net/): whose loop
      gets a connection; accepting, with the descriptor kept in reserve; the
      server's map of connections over many loops, and its end; every
      descriptor from accept(2) to its one close(2); connecting with back-off,
      and what becomes of every socket; the client's one connection at a time,
      and its end, with what the loop still holds of it.
    - [SocketsOps], [InetAddress] (net/SocketsOps, Socket, InetAddress): the
      bytes of socket addresses, their text, and the decisions around the
      system calls.
    - [HttpRequest], [HttpContext], [StringMap], [HttpResponse], [HttpServer]
      (net/http/): sorted association lists for [std::map] of strings;
      the incremental parser is insensitive to how the stream is cut and
      inverts printing; responses read back; what the server answers.
    - [ProtobufCodec], [RpcChannel], [RpcStack] (net/protobuf/, net/protorpc/): frames are
      decoded as they were sent, whatever arrives is answered by an error or a
      message; responses meet their calls and every call can complete, also
      over the bytes of a connection.
    - [GzipFile], [ZlibStream] (base/GzipFile.h, net/ZlibStream): who owns a
      gzFile as objects are moved, swapped and destroyed; both streams over the
      class [ZlibOps] with [ZlibLaws]: what is compressed comes back.
    - [StringPiece], [Glue] (base/StringPiece.h, Types.h, WeakCallback.h,
      Singleton.h, ThreadLocalSingleton.h, Exception, Print.h): strings that
      belong to others, what is in view of them and what C sees of them; weak
      callbacks, singletons, casts, exceptions, printing.
    - [Calendar], [Date], [TimeZone], [TimestampFormat] (base/Date, TimeZone,
      Timestamp): days, broken-down times and zones, forth and back.
    - [ProcessInfo], [ProcessInspector], [Inspector], [InspectorServer],
      [PerformanceInspector] (base/ProcessInfo, net/inspect/): what is read out
      of /proc is what the kernel wrote there; the inspector refines a finite
      map of commands, served as HTTP pages; the pages about tcmalloc.
    - [LogStream], [FormatSI], [Logging], [LogFront], [FileUtil],
      [LogFile], [AsyncLogging], [LogStack] (base/): a log line stays in its
      buffer and says what it should, whatever the thread's caches hold; which
      of the ways into the log come to the same line; bytes reach a file through short and interrupted
      writes; rolled files keep every line; the asynchronous log of many
      threads loses nothing but what it says it drops, and [stop()] ends.
    - [BlockingQueue], [ThreadPool], [ThreadPoolStop] (base/BlockingQueue.h,
      BoundedBlockingQueue.h, ThreadPool): first in first out, no lost wake-up,
      no deadlock; every task of the work-stealing pool is accounted for, and
      [stop()] comes to its end.

    The parts meet where the program's do: the loop's functors and timers are
    the queues inside [TcpConnection], [Connector] and [TcpServer]; [TcpServer]
    and [TcpClient] run [TcpConnection.exec]; the protocols use a connection
    through [Connection.ConnectionLaws]; [LogFile] writes through [FileUtil]
    and [AsyncLogging] collects [LogStream]'s buffers. [RpcStack] puts the RPC
    channel on the codec and a connection; [LogStack] puts the logging thread
    on the rolled files, [InspectorServer] the inspector behind the HTTP server,
    [ServerStack] the acceptor in front of the server's connections.

    At the end of several files, lemmas show uses outside the conditions of the
    theorems that end at an assert or lose something: these are places where
    the code could be improved.

    ** Bounds and fuel

    Loops that a structural recursion cannot express take fuel, and the
    theorems give an amount that is enough: [FileUtil]'s write loop needs one
    unit for every answer the kernel still has in its script, its read loop one
    for every byte up to the limit; [Format]'s printing one for every binary
    digit; the parsers one for every byte. A theorem about such a function says
    that it returns. Liveness is counted: a connection drains in as many write
    events as it has bytes, the logging thread ends within six steps and two
    more for every shard, a pool of n workers within 3 + n * (6 + n) steps.

    ** Not modelled

    Empty classes, feature macros and type aliases (noncopyable, copyable,
    CxxFeatures, boilerplate, the aliases of Callbacks): nothing happens in
    them. Overloads that only convert an argument are represented by the one
    they call; of tcmalloc only its answers appear.
    The text of a floating-point operand of a stream is a parameter. The memory model: atomics are
    sequentially consistent here. Object lifetime is modelled where the code
    decides it (ties, removal, destruction), not the reference counts. The log
    output of the modelled functions is left out. *)
From Stdlib Require Export ZArith Lia.
From Stdlib Require Import Strings.Byte Strings.String.
From stdpp Require Export base list gmap strings.
From stdpp Require Import options.

#[global] Open Scope Z_scope.
#[global] Open Scope list_scope.

(** ** Outcomes: what a C++ operation does besides returning *)

(** The ways in which an operation stops instead of returning. *)
Inductive fault : Set :=
| AssertFailed          (* assert(...) evaluated to false *)
| LengthError           (* std::vector refused a size above max_size() *)
| OutOfBounds           (* memory access outside the object: undefined behaviour *)
| FatalLog              (* logFatal / logSysFatal: Logger calls std::abort *)
| Terminated            (* an uncaught exception reached std::terminate *)
| NullDeref             (* a null or dangling pointer was dereferenced *)
| SemaphoreOverflow.    (* std::counting_semaphore::release above max() *)

#[global] Instance fault_eq_dec : EqDecision fault.
Proof. solve_decision. Defined.

Inductive outcome (A : Type) : Type :=
| Ok (a : A)
| Fault (f : fault).
Arguments Ok {A} a.
Arguments Fault {A} f.

Definition obind {A B} (m : outcome A) (k : A → outcome B) : outcome B :=
  match m with Ok a => k a | Fault f => Fault f end.

(** [assert(b)] in a debug build. *)
Definition cassert (b : bool) : outcome unit :=
  if b then Ok tt else Fault AssertFailed.
#[global] Arguments cassert : simpl never.

(** A pointer dereference that must find an object. *)
Definition deref {A} (o : option A) : outcome A :=
  match o with Some a => Ok a | None => Fault NullDeref end.

Declare Scope cpp_scope.
Delimit Scope cpp_scope with cpp.
#[global] Open Scope cpp_scope.

Notation "'let!' x ':=' e 'in' k" := (obind e (fun x => k))
  (at level 10, x pattern, e at level 100, k at level 200) : cpp_scope.
Notation "'assert!' b ';;' k" := (obind (cassert b) (fun _ => k))
  (at level 10, b at level 99, k at level 200) : cpp_scope.

(** Total correctness of an outcome: it returns, and the value satisfies [P]. *)
Definition ensures {A} (m : outcome A) (P : A → Prop) : Prop :=
  match m with Ok a => P a | Fault _ => False end.

Lemma ensures_bind {A B} (m : outcome A) (k : A → outcome B) (Q : A → Prop) P :
  ensures m Q → (∀ a, Q a → ensures (k a) P) → ensures (obind m k) P.
Proof. destruct m; simpl; [intros HQ Hk; by apply Hk | done]. Qed.

Lemma ensures_mono {A} (m : outcome A) (Q P : A → Prop) :
  ensures m Q → (∀ a, Q a → P a) → ensures m P.
Proof. destruct m; simpl; auto. Qed.

Lemma ensures_assert {B} b (k : outcome B) P :
  b = true → ensures k P → ensures (obind (cassert b) (fun _ => k)) P.
Proof. by intros ->. Qed.

Lemma ensures_ok {A} (m : outcome A) P :
  ensures m P → ∃ a, m = Ok a ∧ P a.
Proof. destruct m; simpl; [eauto | done]. Qed.

Lemma ensures_self {A} (m : outcome A) P : ensures m P → ensures m (λ a, P a ∧ m = Ok a).
Proof. by destruct m. Qed.

Lemma ensures_and {A} (m : outcome A) P Q :
  ensures m P → ensures m Q → ensures m (λ a, P a ∧ Q a).
Proof. destruct m; simpl; auto. Qed.
Lemma ok_bind_inv {A B} (m : outcome A) (k : A → outcome B) b :
  obind m k = Ok b → ∃ a, m = Ok a ∧ k a = Ok b.
Proof. destruct m; simpl; [eauto | done]. Qed.

Lemma cassert_ok b u : cassert b = Ok u → b = true.
Proof. by destruct b. Qed.

(** Pass the asserts that have become [assert true]. *)
Ltac pass_asserts :=
  rewrite ?Z.eqb_refl; change (cassert true) with (@Ok unit tt); cbn [obind].

(** Iterate a fallible step over a list (a range-for loop). *)
Fixpoint foldM {A S} (f : A → S → outcome S) (l : list A) (s : S) : outcome S :=
  match l with
  | [] => Ok s
  | x :: l' => let! s' := f x s in foldM f l' s'
  end.

Lemma foldM_cons_ok {A S} (f : A → S → outcome S) a l s s' : f a s = Ok s' → foldM f (a :: l) s = foldM f l s'.
Proof. cbn. by intros ->. Qed.

Lemma foldM_app {A S} (f : A → S → outcome S) l1 l2 s :
  foldM f (l1 ++ l2) s = let! s' := foldM f l1 s in foldM f l2 s'.
Proof.
  revert s. induction l1 as [|x l1 IH]; intros s; simpl; [done|].
  destruct (f x s); simpl; auto.
Qed.

Lemma foldM_invariant {A S} (f : A → S → outcome S) (I : S → Prop) l s :
  I s → (∀ x s, x ∈ l → I s → ensures (f x s) I) → ensures (foldM f l s) I.
Proof.
  revert s. induction l as [|x l IH]; intros s Hs Hf; simpl; [done|].
  eapply ensures_bind; [apply Hf; [left|done]|].
  intros a Ha. apply IH; [done|]. intros y s' Hy. apply Hf. by right.
Qed.

(** The same for code whose only failure is that a vector cannot grow
    ([std::length_error], beyond 2^63 bytes). *)
Definition safely {A} (m : outcome A) (P : A → Prop) : Prop :=
  match m with Ok a => P a | Fault LengthError => True | Fault _ => False end.

Lemma safely_bind {A B} (m : outcome A) (k : A → outcome B) (Q : A → Prop) P :
  safely m Q → (∀ a, Q a → safely (k a) P) → safely (obind m k) P.
Proof. destruct m as [a|[]]; simpl; auto. Qed.

Lemma safely_bind_inv {A B} (m : outcome A) (k : A → outcome B) P :
  safely (obind m k) P → safely m (λ a, safely (k a) P).
Proof. by destruct m as [a|[]]. Qed.

Lemma safely_and {A} (m : outcome A) P Q :
  safely m P → (∀ a, m = Ok a → Q a) → safely m (λ a, P a ∧ Q a).
Proof. destruct m as [a|[]]; cbn; auto. Qed.

Lemma safely_mono {A} (m : outcome A) (Q P : A → Prop) :
  safely m Q → (∀ a, Q a → P a) → safely m P.
Proof. destruct m as [a|[]]; simpl; auto. Qed.

Lemma safely_ensures {A} (m : outcome A) P : ensures m P → safely m P.
Proof. by destruct m as [a|[]]. Qed.

Lemma safely_ok {A} (m : outcome A) P a : safely m P → m = Ok a → P a.
Proof. by intros H ->. Qed.

Lemma safely_cases {A} (m : outcome A) P :
  safely m P → (∃ a, m = Ok a ∧ P a) ∨ m = Fault LengthError.
Proof. destruct m as [a|[]]; simpl; eauto; done. Qed.

Lemma safely_foldM {A S} (f : A → S → outcome S) (I : S → Prop) l s :
  I s → (∀ x s, x ∈ l → I s → safely (f x s) I) → safely (foldM f l s) I.
Proof.
  revert s. induction l as [|x l IH]; intros s Hs Hf; simpl; [done|].
  eapply safely_bind; [apply Hf; [left|done]|].
  intros a Ha. apply IH; [done|]. intros y s' Hy. apply Hf. by right.
Qed.

(** ** Machine integers *)

(** Conversion to an unsigned type of [w] bits. *)
Definition wrap (w z : Z) : Z := z mod 2 ^ w.

(** Conversion to a signed two's-complement type of [w] bits. *)
Definition swrap (w z : Z) : Z :=
  let u := z mod 2 ^ w in if u <? 2 ^ (w - 1) then u else u - 2 ^ w.

Abbreviation size_t := (wrap 64).
Definition in_signed (w z : Z) : Prop := - 2 ^ (w - 1) ≤ z < 2 ^ (w - 1).

Lemma wrap_small w z : 0 ≤ z < 2 ^ w → wrap w z = z.
Proof. intros. by apply Z.mod_small. Qed.

Lemma wrap_range w z : 0 ≤ w → 0 ≤ wrap w z < 2 ^ w.
Proof. intros. apply Z.mod_pos_bound. lia. Qed.

Lemma swrap_range w z : 0 < w → in_signed w (swrap w z).
Proof.
  intros Hw. unfold in_signed, swrap.
  assert (2 ^ w = 2 * 2 ^ (w - 1)) as E
    by (rewrite <- Z.pow_succ_r by lia; f_equal; lia).
  pose proof (Z.mod_pos_bound z (2 ^ w)). 
  destruct (Z.ltb_spec (z mod 2 ^ w) (2 ^ (w - 1))); lia.
Qed.

Lemma swrap_id w z : 0 < w → in_signed w z → swrap w z = z.
Proof.
  intros Hw [Hl Hu]. unfold swrap.
  assert (2 ^ w = 2 * 2 ^ (w - 1)) as E
    by (rewrite <- Z.pow_succ_r by lia; f_equal; lia).
  destruct (Z.le_gt_cases 0 z).
  - rewrite Z.mod_small by lia. destruct (Z.ltb_spec z (2 ^ (w - 1))); lia.
  - replace (z mod 2 ^ w) with (z + 2 ^ w).
    2:{ apply Z.mod_unique with (-1); lia. }
    destruct (Z.ltb_spec (z + 2 ^ w) (2 ^ (w - 1))); lia.
Qed.

Lemma swrap_wrap w z : 0 ≤ w → swrap w (wrap w z) = swrap w z.
Proof. intros. unfold swrap, wrap. by rewrite Z.mod_mod by lia. Qed.

Lemma wrap_swrap w z : 0 < w → wrap w (swrap w z) = wrap w z.
Proof.
  intros. unfold swrap, wrap. destruct (_ <? _).
  - by rewrite Z.mod_mod by lia.
  - rewrite <- (Z.mod_add (z mod 2 ^ w - 2 ^ w) 1) by lia.
    rewrite Z.mul_1_l, Z.sub_add. by rewrite Z.mod_mod by lia.
Qed.

(** ** Bytes and byte strings *)

Abbreviation byte := Byte.byte.
Abbreviation bytes := (list Byte.byte).

#[global] Instance byte_eq_dec : EqDecision byte := Byte.byte_eq_dec.
#[global] Program Instance byte_countable : Countable byte :=
  inj_countable' Byte.to_N (λ n, default Byte.x00 (Byte.of_N n)) _.
Next Obligation. intros b. simpl. by rewrite Byte.of_to_N. Qed.

(** A C++ string literal. *)
Definition str (s : string) : bytes := String.list_byte_of_string s.

Definition byte_val (b : byte) : Z := Z.of_N (Byte.to_N b).
Definition byte_of (z : Z) : byte := default Byte.x00 (Byte.of_N (Z.to_N (z mod 256))).

Lemma byte_val_range b : 0 ≤ byte_val b < 256.
Proof. unfold byte_val. pose proof (Byte.to_N_bounded b). lia. Qed.

Lemma byte_val_of z : byte_val (byte_of z) = z mod 256.
Proof.
  unfold byte_val, byte_of. pose proof (Z.mod_pos_bound z 256).
  destruct (Byte.of_N (Z.to_N (z mod 256))) as [b|] eqn:E; simpl.
  - apply Byte.to_of_N in E. rewrite E. lia.
  - apply Byte.of_N_None_iff in E. lia.
Qed.

Lemma byte_of_val b : byte_of (byte_val b) = b.
Proof.
  unfold byte_of. rewrite Z.mod_small by apply byte_val_range.
  unfold byte_val. by rewrite N2Z.id, Byte.of_to_N.
Qed.

Lemma byte_val_inj a b : byte_val a = byte_val b → a = b.
Proof. intros H. by rewrite <- (byte_of_val a), H, byte_of_val. Qed.

Lemma byte_of_mod z : byte_of (z mod 256) = byte_of z.
Proof. unfold byte_of. by rewrite Z.mod_mod. Qed.

(** Big-endian and little-endian object representations of an integer. *)
Fixpoint le_bytes (n : nat) (z : Z) : bytes :=
  match n with
  | O => []
  | S n' => byte_of z :: le_bytes n' (z / 256)
  end.
Definition be_bytes (n : nat) (z : Z) : bytes := rev (le_bytes n z).

Fixpoint le_val (l : bytes) : Z :=
  match l with [] => 0 | b :: l' => byte_val b + 256 * le_val l' end.
Definition be_val (l : bytes) : Z := le_val (rev l).

Lemma length_le_bytes n z : length (le_bytes n z) = n.
Proof. revert z. induction n; intros; simpl; auto. Qed.
Lemma length_be_bytes n z : length (be_bytes n z) = n.
Proof. unfold be_bytes. by rewrite length_rev, length_le_bytes. Qed.

Lemma pow256_succ n : 256 ^ Z.of_nat (S n) = 256 * 256 ^ Z.of_nat n.
Proof. rewrite Nat2Z.inj_succ. by rewrite Z.pow_succ_r by lia. Qed.

Lemma le_val_bytes n z : le_val (le_bytes n z) = z mod 256 ^ Z.of_nat n.
Proof.
  revert z. induction n as [|n IH]; intros z; simpl le_bytes; simpl le_val.
  - by rewrite Z.mod_1_r.
  - rewrite IH, byte_val_of, pow256_succ.
    assert (0 < 256 ^ Z.of_nat n) by (apply Z.pow_pos_nonneg; lia).
    rewrite Z.rem_mul_r by lia. done.
Qed.

Lemma be_val_bytes n z : be_val (be_bytes n z) = z mod 256 ^ Z.of_nat n.
Proof. unfold be_val, be_bytes. by rewrite rev_involutive, le_val_bytes. Qed.

Lemma le_val_range l : 0 ≤ le_val l < 256 ^ Z.of_nat (length l).
Proof.
  induction l as [|b l IH]; simpl length; simpl le_val.
  - lia.
  - rewrite pow256_succ. pose proof (byte_val_range b). lia.
Qed.

Lemma le_bytes_val l : le_bytes (length l) (le_val l) = l.
Proof.
  induction l as [|b l IH]; simpl; [done|]. f_equal.
  - rewrite <- byte_of_mod, (Z.mul_comm 256), Z_mod_plus_full.
    by rewrite byte_of_mod, byte_of_val.
  - rewrite (Z.mul_comm 256), Z.div_add by lia.
    by rewrite (Z.div_small (byte_val b)) by apply byte_val_range.
Qed.

Lemma be_bytes_val l : be_bytes (length l) (be_val l) = l.
Proof.
  unfold be_bytes, be_val. rewrite <- (length_rev l), le_bytes_val.
  by rewrite rev_involutive.
Qed.

Lemma be_val_range l : 0 ≤ be_val l < 256 ^ Z.of_nat (length l).
Proof. unfold be_val. rewrite <- (length_rev l). apply le_val_range. Qed.

Lemma le_bytes_mod n z : le_bytes n (z mod 256 ^ Z.of_nat n) = le_bytes n z.
Proof.
  rewrite <- le_val_bytes. rewrite <- (length_le_bytes n z) at 1.
  apply le_bytes_val.
Qed.

(** ** Lists indexed by size_t *)

Definition len {A} (l : list A) : Z := Z.of_nat (length l).

Lemma len_nonneg {A} (l : list A) : 0 ≤ len l.
Proof. unfold len. lia. Qed.
Lemma len_app {A} (l k : list A) : len (l ++ k) = len l + len k.
Proof. unfold len. rewrite length_app. lia. Qed.

(** [std::span{begin + off, n}]. *)
Definition slice {A} (off n : Z) (l : list A) : list A :=
  take (Z.to_nat n) (drop (Z.to_nat off) l).

(** Overwrite the elements from [off] on; out of range is undefined behaviour. *)
Definition write_at {A} (off : Z) (d l : list A) : outcome (list A) :=
  if (0 <=? off) && (off + len d <=? len l) then
    Ok (take (Z.to_nat off) l ++ d ++ drop (Z.to_nat (off + len d)) l)
  else Fault OutOfBounds.

Lemma len_slice {A} off n (l : list A) :
  0 ≤ off → 0 ≤ n → off + n ≤ len l → len (slice off n l) = n.
Proof. unfold len, slice. intros. rewrite length_take, length_drop. lia. Qed.

Lemma slice_split {A} off n m (l : list A) :
  0 ≤ off → 0 ≤ n → 0 ≤ m → slice off (n + m) l = slice off n l ++ slice (off + n) m l.
Proof.
  intros. unfold slice. rewrite Z2Nat.inj_add by lia.
  rewrite <- (take_take_drop (drop _ l)). f_equal.
  rewrite drop_drop. do 2 f_equal. lia.
Qed.

Lemma drop_slice {A} k off n (l : list A) :
  0 ≤ k ≤ n → 0 ≤ off → drop (Z.to_nat k) (slice off n l) = slice (off + k) (n - k) l.
Proof.
  intros. unfold slice. rewrite skipn_firstn_comm, drop_drop. f_equal; [lia|f_equal; lia].
Qed.

Lemma take_slice {A} k off n (l : list A) :
  0 ≤ k ≤ n → take (Z.to_nat k) (slice off n l) = slice off k l.
Proof. intros. unfold slice. rewrite take_take. f_equal. lia. Qed.

Lemma slice_nil {A} off (l : list A) : slice off 0 l = [].
Proof. done. Qed.

Lemma slice_app_l {A} off n (l k : list A) :
  0 ≤ off → 0 ≤ n → off + n ≤ len l → slice off n (l ++ k) = slice off n l.
Proof.
  unfold len, slice. intros. rewrite drop_app_le by lia.
  rewrite take_app_le; [done|]. rewrite length_drop. lia.
Qed.

Lemma slice_app_r {A} off n (l k : list A) :
  len l ≤ off → slice off n (l ++ k) = slice (off - len l) n k.
Proof.
  unfold len, slice. intros. rewrite drop_app_ge by lia. do 2 f_equal. lia.
Qed.

Lemma slice_full {A} (l : list A) : slice 0 (len l) l = l.
Proof. unfold slice, len. rewrite Nat2Z.id. simpl. apply take_ge. done. Qed.

Lemma write_at_ok {A} off (d l : list A) :
  0 ≤ off → off + len d ≤ len l →
  ensures (write_at off d l) (λ l',
    len l' = len l ∧ slice off (len d) l' = d ∧
    (∀ o n, 0 ≤ o → 0 ≤ n → o + n ≤ off → slice o n l' = slice o n l) ∧
    (∀ o n, off + len d ≤ o → slice o n l' = slice o n l)).
Proof.
  intros H1 H2. unfold write_at.
  rewrite (proj2 (Z.leb_le _ _) H1), (proj2 (Z.leb_le _ _) H2). simpl.
  pose proof (len_nonneg d).
  assert (len (take (Z.to_nat off) l) = off) as Ht.
  { unfold len in *. rewrite length_take. lia. }
  split_and!.
  - rewrite !len_app, Ht. unfold len in *. rewrite length_drop. lia.
  - rewrite slice_app_r by lia. rewrite Ht, Z.sub_diag.
    rewrite slice_app_l by lia. apply slice_full.
  - intros o n ???. rewrite slice_app_l by lia.
    rewrite <- (take_drop (Z.to_nat off) l) at 2. by rewrite slice_app_l by lia.
  - intros o n ?. rewrite slice_app_r by lia. rewrite slice_app_r by lia.
    rewrite Ht. unfold slice. rewrite drop_drop. do 2 f_equal. lia.
Qed.

(** First occurrence of a needle: [std::ranges::search] and [find]. *)
Fixpoint find_sub (needle l : bytes) : option nat :=
  if bool_decide (needle `prefix_of` l) then Some 0%nat
  else match l with
       | [] => None
       | _ :: l' => S <$> find_sub needle l'
       end.

Fixpoint find_byte (c : byte) (l : bytes) : option nat :=
  match l with
  | [] => None
  | b :: l' => if bool_decide (b = c) then Some 0%nat else S <$> find_byte c l'
  end.

Lemma find_sub_some needle l i :
  find_sub needle l = Some i →
  ∃ rest, drop i l = needle ++ rest ∧ (i + length needle ≤ length l)%nat.
Proof.
  revert i. induction l as [|b l IH]; intros i; simpl.
  - case_bool_decide as Hp; [|done]. intros [= <-]. destruct Hp as [k Hk].
    exists k. simpl. split; [done|].
    apply (f_equal length) in Hk. rewrite length_app in Hk. simpl in *. lia.
  - case_bool_decide as Hp.
    + intros [= <-]. destruct Hp as [k Hk]. exists k. split; [done|].
      apply (f_equal length) in Hk. rewrite length_app in Hk. simpl in *. lia.
    + destruct (find_sub needle l) as [j|] eqn:E; [|done]. intros [= <-].
      destruct (IH j eq_refl) as (rest & Hr & Hl). exists rest. simpl. split; [done|lia].
Qed.

(** A match stays the first match when bytes arrive behind it. *)
Lemma find_sub_app needle l k i :
  find_sub needle l = Some i → find_sub needle (l ++ k) = Some i.
Proof.
  revert i. induction l as [|b l IH]; intros i; simpl find_sub at 1.
  - case_bool_decide as Hp; [|done]. intros [= <-].
    destruct needle; [by destruct k|]. by destruct Hp.
  - case_bool_decide as Hp.
    + intros [= <-]. simpl. rewrite bool_decide_true; [done|].
      destruct Hp as [r Hr]. exists (r ++ k). simpl.
      by rewrite app_assoc, <- Hr.
    + destruct (find_sub needle l) as [j|] eqn:E; [|done]. intros [= <-]. simpl.
      rewrite (IH j eq_refl).
      rewrite bool_decide_false; [done|]. intros [r Hr].
      apply find_sub_some in E as (rest & Hd & Hl).
      apply Hp. change ((b :: l) ++ k = needle ++ r) in Hr.
      apply app_eq_inv in Hr as [(x & H1 & H2)|(x & H1 & H2)]; [by exists x|].
      exfalso. apply (f_equal length) in H1. rewrite length_app in H1. simpl in H1.
      lia.
Qed.

Lemma find_byte_some c l i :
  find_byte c l = Some i → l !! i = Some c ∧ (∀ j, (j < i)%nat → l !! j ≠ Some c).
Proof.
  revert i. induction l as [|b l IH]; intros i; simpl; [done|].
  case_bool_decide as Hb.
  - intros [= <-]. subst. split; [done|]. intros j Hj. lia.
  - destruct (find_byte c l) as [k|]; [|done]. intros [= <-].
    destruct (IH k eq_refl) as [H1 H2]. split; [done|].
    intros [|j] Hj; simpl; [congruence|]. apply H2. lia.
Qed.

Lemma find_byte_none c l : find_byte c l = None ↔ c ∉ l.
Proof.
  induction l as [|b l IH]; simpl.
  - split; [intros _; apply not_elem_of_nil|done].
  - rewrite not_elem_of_cons. case_bool_decide as Hb; [naive_solver|].
    rewrite <- IH. destruct (find_byte c l); naive_solver.
Qed.

(** The first [c] in [p ++ c :: s] when [p] has none. *)
Lemma find_byte_app c p s : c ∉ p → find_byte c (p ++ c :: s) = Some (length p).
Proof.
  induction p as [|b p IH]; simpl; intros Hn.
  - by rewrite bool_decide_true.
  - apply not_elem_of_cons in Hn as [H1 H2]. rewrite bool_decide_false by congruence.
    by rewrite IH.
Qed.
