(* ===== verification/Format.v ===== *)
(** * Format: the part of [std::format] and [std::to_chars] the sources use
    for integers, with the reading that inverts it. *)
From S2P Require Import Prelude.
From stdpp Require Import options.

(** A decimal digit. *)
Definition digit (d : Z) : byte := byte_of (48 + d).

Fixpoint dec_fuel (fuel : nat) (n : Z) (acc : bytes) : bytes :=
  match fuel with
  | O => acc
  | S k => if n <? 10 then digit n :: acc
           else dec_fuel k (n / 10) (digit (n mod 10) :: acc)
  end.

(** [{}] of an unsigned integer; [log2] gives more steps than digits. *)
Definition format_nat (n : Z) : bytes := dec_fuel (S (Z.to_nat (Z.log2 n))) n [].

(** [{}] of a signed integer. *)
Definition format_int (z : Z) : bytes :=
  if z <? 0 then Byte.x2d :: format_nat (- z) else format_nat z.

(** [{:0w}]: the zeros go between the sign and the digits. *)
Definition zero_pad (w : nat) (s : bytes) : bytes := replicate (w - length s) Byte.x30 ++ s.
Definition format_pad (w : nat) (z : Z) : bytes :=
  if z <? 0 then Byte.x2d :: zero_pad (w - 1) (format_nat (- z)) else zero_pad w (format_nat z).

(** Reading digits back. *)
Definition digit_val (b : byte) : Z := byte_val b - 48.
Definition is_digit (b : byte) : bool := (0 <=? digit_val b) && (digit_val b <=? 9).
Definition dec_value_from (a : Z) (s : bytes) : Z := foldl (λ a b, a * 10 + digit_val b) a s.
Definition dec_value (s : bytes) : Z := dec_value_from 0 s.

Lemma digit_val_digit d : 0 ≤ d < 10 → digit_val (digit d) = d.
Proof. intros. unfold digit_val, digit. rewrite byte_val_of, Z.mod_small; lia. Qed.

Lemma is_digit_digit d : 0 ≤ d < 10 → is_digit (digit d) = true.
Proof.
  intros. unfold is_digit. rewrite digit_val_digit by done.
  apply andb_true_intro. split; apply Z.leb_le; lia.
Qed.

Lemma dec_fuel_acc fuel n acc : dec_fuel fuel n acc = dec_fuel fuel n [] ++ acc.
Proof.
  revert n acc. induction fuel as [|k IH]; intros n acc; cbn; [done|].
  destruct (n <? 10); [done|]. rewrite IH, (IH _ [_]), <- app_assoc. done.
Qed.

Lemma dec_fuel_step k n :
  10 ≤ n → dec_fuel (S k) n [] = dec_fuel k (n / 10) [] ++ [digit (n mod 10)].
Proof. intros. cbn. destruct (Z.ltb_spec n 10); [lia|]. apply dec_fuel_acc. Qed.

Lemma dec_fuel_digits fuel n : 0 ≤ n → Forall (λ b, is_digit b = true) (dec_fuel fuel n []).
Proof.
  revert n. induction fuel as [|k IH]; intros n Hn; [constructor|].
  destruct (Z.le_gt_cases 10 n).
  - rewrite dec_fuel_step by done. apply Forall_app. split.
    + apply IH. apply Z.div_pos; lia.
    + constructor; [|done]. apply is_digit_digit. apply Z.mod_pos_bound. lia.
  - cbn. destruct (Z.ltb_spec n 10); [|lia]. constructor; [|done]. apply is_digit_digit. lia.
Qed.

Lemma dec_value_from_app a s t :
  dec_value_from a (s ++ t) = dec_value_from (dec_value_from a s) t.
Proof. unfold dec_value_from. apply foldl_app. Qed.

Lemma dec_fuel_value fuel n :
  0 ≤ n → n < 2 ^ Z.of_nat fuel → dec_value (dec_fuel fuel n []) = n.
Proof.
  unfold dec_value. revert n. induction fuel as [|k IH]; intros n Hn Hf.
  - cbn in *. lia.
  - rewrite Nat2Z.inj_succ, Z.pow_succ_r in Hf by lia. destruct (Z.le_gt_cases 10 n).
    + rewrite dec_fuel_step, dec_value_from_app, IH.
      * cbn. rewrite digit_val_digit by (apply Z.mod_pos_bound; lia).
        pose proof (Z.div_mod n 10). lia.
      * apply Z.div_pos; lia.
      * pose proof (Z.div_mod n 10). pose proof (Z.mod_pos_bound n 10). lia.
      * done.
    + cbn. destruct (Z.ltb_spec n 10); [|lia]. cbn. rewrite digit_val_digit; lia.
Qed.

Lemma log2_enough n : 0 ≤ n → n < 2 ^ Z.of_nat (S (Z.to_nat (Z.log2 n))).
Proof.
  intros. rewrite Nat2Z.inj_succ, Z2Nat.id by apply Z.log2_nonneg.
  destruct (Z.eq_dec n 0) as [->|]; [done|]. apply Z.log2_spec. lia.
Qed.

Lemma format_nat_value n : 0 ≤ n → dec_value (format_nat n) = n.
Proof. intros. apply dec_fuel_value; [done|]. by apply log2_enough. Qed.

Lemma format_nat_digits n : 0 ≤ n → Forall (λ b, is_digit b = true) (format_nat n).
Proof. apply dec_fuel_digits. Qed.

Lemma format_nat_nonempty n : format_nat n ≠ [].
Proof.
  unfold format_nat. generalize (Z.to_nat (Z.log2 n)). intros k. cbn.
  destruct (n <? 10); [done|]. rewrite dec_fuel_acc. by destruct (dec_fuel _ _ []).
Qed.

Lemma dec_fuel_length fuel n w :
  (0 < w)%nat → 0 ≤ n < 10 ^ Z.of_nat w → (length (dec_fuel fuel n []) ≤ w)%nat.
Proof.
  revert n w. induction fuel as [|k IH]; intros n w Hw Hn; [cbn; lia|].
  destruct (Z.le_gt_cases 10 n).
  - rewrite dec_fuel_step, length_app by done. cbn [length].
    destruct w as [|[|w]]; [lia|cbn in Hn; lia|].
    rewrite (Nat2Z.inj_succ (S w)), Z.pow_succ_r in Hn by lia.
    assert (length (dec_fuel k (n / 10) []) ≤ S w)%nat; [|lia].
    apply IH; [lia|]. split; [apply Z.div_pos; lia|]. apply Z.div_lt_upper_bound; lia.
  - cbn. destruct (Z.ltb_spec n 10); [cbn; lia|lia].
Qed.

Lemma format_nat_length n w :
  (0 < w)%nat → 0 ≤ n < 10 ^ Z.of_nat w → (length (format_nat n) ≤ w)%nat.
Proof. apply dec_fuel_length. Qed.

Lemma zero_pad_value w s : dec_value (zero_pad w s) = dec_value s.
Proof.
  unfold zero_pad, dec_value. generalize (w - length s)%nat. intros k.
  rewrite dec_value_from_app. f_equal. induction k as [|k IH]; [done|]. exact IH.
Qed.

Lemma zero_pad_length w s : (length s ≤ w)%nat → length (zero_pad w s) = w.
Proof. intros. unfold zero_pad. rewrite length_app, length_replicate. lia. Qed.

Lemma zero_pad_digits w s :
  Forall (λ b, is_digit b = true) s → Forall (λ b, is_digit b = true) (zero_pad w s).
Proof. intros. apply Forall_app. split; [|done]. by apply Forall_replicate. Qed.

(** [{:0w}] of an integer that fits in [w] digits. *)
Lemma format_pad_spec w n :
  (0 < w)%nat → 0 ≤ n < 10 ^ Z.of_nat w →
  length (format_pad w n) = w ∧ dec_value (format_pad w n) = n ∧
  Forall (λ b, is_digit b = true) (format_pad w n).
Proof.
  intros Hw Hn. unfold format_pad. destruct (Z.ltb_spec n 0); [lia|]. split_and!.
  - apply zero_pad_length. by apply format_nat_length.
  - rewrite zero_pad_value, format_nat_value; lia.
  - apply zero_pad_digits, format_nat_digits. lia.
Qed.

(** [std::from_chars] on a whole signed number. *)
Definition int_value (s : bytes) : Z :=
  match s with
  | Byte.x2d :: s' => - dec_value s'
  | _ => dec_value s
  end.

Lemma digits_not_minus s :
  Forall (λ b, is_digit b = true) s → int_value s = dec_value s.
Proof. intros Hs. destruct s as [|b s]; [done|]. apply Forall_cons in Hs as [Hb _]. by destruct b. Qed.

Lemma format_int_value z : int_value (format_int z) = z.
Proof.
  unfold format_int. destruct (Z.ltb_spec z 0).
  - change (- dec_value (format_nat (- z)) = z). rewrite format_nat_value; lia.
  - rewrite digits_not_minus by (apply format_nat_digits; lia). by apply format_nat_value.
Qed.

Lemma format_int_inj a b : format_int a = format_int b → a = b.
Proof. intros H. by rewrite <- (format_int_value a), H, format_int_value. Qed.

(** No byte of a printed number is a separator. *)
Lemma is_digit_not b c : is_digit b = true → is_digit c = false → b ≠ c.
Proof. congruence. Qed.
