(* ===== verification/Double.v ===== *)
(** * Double: the arithmetic of [double]

    The doubles the program works with are zero or between 2^-75 and 2^64 in
    magnitude, multiples of 2^-128. Such a double is modelled by the integer
    that is its value times 2^128: comparing doubles is comparing integers, and
    an operation is the exact rational result rounded to 53 significant bits,
    to the nearest and with ties to even. [spec_float_samples] compares the
    operations with those of the standard library's [SpecFloat]. *)
From S2P Require Import Prelude.
From Stdlib Require Import Floats.SpecFloat.
From stdpp Require Import options.
#[local] Open Scope Z_scope.

(** The integer nearest to [a / b], the even one of two. *)
Definition rne (a b : Z) : Z :=
  let q := a / b in
  let r := 2 * (a mod b) in
  if r <? b then q else if b <? r then q + 1 else if Z.even q then q else q + 1.

Definition scale : Z := 2 ^ 128.

(** The exponent of the last place of the double nearest to [A / b]. *)
Definition last_place (A b : Z) : Z := Z.max 0 (Z.log2 (Z.abs A / b) - 52).

(** The double nearest to [a / b]. *)
Definition dbl (a b : Z) : Z :=
  let A := a * scale in
  let t := last_place A b in
  rne A (b * 2 ^ t) * 2 ^ t.

(** [static_cast<double>(n)], [x / y], [x * y], and [static_cast<int64_t>(x)],
    which drops the fraction. *)
Definition of_int (n : Z) : Z := dbl n 1.
Definition fdiv (x y : Z) : Z := if 0 <? y then dbl x y else dbl (- x) (- y).
Definition fmul (x y : Z) : Z := dbl (x * y) (scale * scale).
Definition to_int (x : Z) : Z := Z.quot x scale.

(** ** Rounding to an integer *)

Lemma rne_spec a b : 0 < b → 2 * Z.abs (a - rne a b * b) ≤ b ∧ (2 * Z.abs (a - rne a b * b) = b → Z.even (rne a b) = true).
Proof.
  intros Hb. unfold rne. pose proof (Z.div_mod a b ltac:(lia)) as Hd. pose proof (Z.mod_pos_bound a b Hb) as Hr.
  set (q := a / b) in *. set (r := a mod b) in *.
  destruct (Z.ltb_spec (2 * r) b).
  { assert (a - q * b = r) as -> by lia. lia. }
  destruct (Z.ltb_spec b (2 * r)).
  { assert (a - (q + 1) * b = r - b) as -> by lia. lia. }
  destruct (Z.even q) eqn:E.
  - assert (a - q * b = r) as -> by lia. split; [lia|done].
  - assert (a - (q + 1) * b = r - b) as -> by lia. split; [lia|]. intros _. rewrite Z.even_add, E. done.
Qed.

Lemma rne_mono a b a' b' : 0 < b → 0 < b' → a * b' ≤ a' * b → rne a b ≤ rne a' b'.
Proof.
  intros Hb Hb' H. destruct (rne_spec a b Hb) as [H1 E1], (rne_spec a' b' Hb') as [H2 E2].
  set (k := rne a b) in *. set (k' := rne a' b') in *. destruct (Z.le_gt_cases k k') as [|Hlt]; [done|]. exfalso.
  assert ((2 * k - 1) * b ≤ 2 * a) as L1 by lia. assert (2 * a' ≤ (2 * k' + 1) * b') as L2 by lia.
  assert ((2 * k - 1) * b * b' ≤ 2 * a * b') as M1 by (apply Z.mul_le_mono_nonneg_r; lia).
  assert (2 * a' * b ≤ (2 * k' + 1) * b' * b) as M2 by (apply Z.mul_le_mono_nonneg_r; lia).
  assert ((2 * k - 1) * (b * b') ≤ (2 * k' + 1) * (b * b')) as M by lia.
  assert (0 < b * b') as P by lia. apply Z.mul_le_mono_pos_r in M; [|done].
  assert (k = k' + 1) as Ek by lia.
  assert (2 * a = (2 * k - 1) * b) as T1.
  { apply Z.le_antisymm; [|lia]. apply Z.mul_le_mono_pos_r with b'; [done|]. rewrite Ek in *. lia. }
  assert (2 * a' = (2 * k' + 1) * b') as T2.
  { apply Z.le_antisymm; [lia|]. apply Z.mul_le_mono_pos_r with b; [done|]. rewrite Ek in *. lia. }
  assert (Z.even k = true) as Ev by (apply E1; lia). assert (Z.even k' = true) as Ev' by (apply E2; lia).
  rewrite Ek, Z.even_add, Ev' in Ev. done.
Qed.

Lemma rne_exact k b : 0 < b → rne (k * b) b = k.
Proof.
  intros Hb. unfold rne. rewrite Z.div_mul, Z.mod_mul by lia. destruct (Z.ltb_spec (2 * 0) b); [done|lia].
Qed.

(** ** Rounding to a double *)

Lemma scale_pos : 0 < scale.
Proof. done. Qed.

Lemma last_place_bounds A b :
  0 ≤ A → 0 < b → A < b * 2 ^ (last_place A b + 53) ∧ (0 < last_place A b → b * 2 ^ (last_place A b + 52) ≤ A).
Proof.
  intros HA Hb. unfold last_place. rewrite Z.abs_eq by done. set (x := A / b).
  assert (0 ≤ x) as Hx by (apply Z.div_pos; lia).
  assert (b * x ≤ A < b * (x + 1)) as Hdiv.
  { pose proof (Z.div_mod A b ltac:(lia)). pose proof (Z.mod_pos_bound A b Hb). unfold x. lia. }
  split.
  - assert (x + 1 ≤ 2 ^ (Z.max 0 (Z.log2 x - 52) + 53)) as Hle.
    { destruct (Z.eq_dec x 0) as [->|Hn]; [done|]. pose proof (Z.log2_spec x ltac:(lia)) as [_ Hl].
      apply Z.le_succ_l. eapply Z.lt_le_trans; [exact Hl|]. apply Z.pow_le_mono_r; lia. }
    eapply Z.lt_le_trans; [apply Hdiv|]. apply Z.mul_le_mono_nonneg_l; lia.
  - intros Ht. rewrite Z.max_r by lia. replace (Z.log2 x - 52 + 52) with (Z.log2 x) by lia.
    destruct (Z.eq_dec x 0) as [E|Hn]; [rewrite E in Ht; cbn in Ht; lia|].
    pose proof (Z.log2_spec x ltac:(lia)) as [Hl _]. eapply Z.le_trans; [|apply Hdiv]. apply Z.mul_le_mono_nonneg_l; lia.
Qed.

Lemma dbl_upper a b : 0 ≤ a → 0 < b → dbl a b ≤ 2 ^ (last_place (a * scale) b + 53).
Proof.
  intros Ha Hb. unfold dbl. pose proof scale_pos. set (A := a * scale). set (t := last_place A b).
  assert (0 ≤ t) as Ht by (unfold t, last_place; lia). assert (0 < 2 ^ t) by lia.
  destruct (last_place_bounds A b) as [Hu _]; [unfold A; lia|done|]. fold t in Hu.
  replace (t + 53) with (53 + t) by lia. rewrite Z.pow_add_r by lia. apply Z.mul_le_mono_nonneg_r; [lia|].
  rewrite <- (rne_exact (2 ^ 53) (b * 2 ^ t)) by lia. apply rne_mono; [lia|lia|]. apply Z.mul_le_mono_nonneg_r; [lia|].
  rewrite Z.pow_add_r in Hu by lia. lia.
Qed.

Lemma dbl_lower a b : 0 ≤ a → 0 < b → 0 < last_place (a * scale) b →
  2 ^ (last_place (a * scale) b + 52) ≤ dbl a b.
Proof.
  intros Ha Hb Ht. unfold dbl. pose proof scale_pos. set (A := a * scale) in *. set (t := last_place A b) in *.
  assert (0 < 2 ^ t) by lia. destruct (last_place_bounds A b) as [_ Hl]; [unfold A; lia|done|]. fold t in Hl. specialize (Hl Ht).
  replace (t + 52) with (52 + t) by lia. rewrite Z.pow_add_r by lia. apply Z.mul_le_mono_nonneg_r; [lia|].
  rewrite <- (rne_exact (2 ^ 52) (b * 2 ^ t)) by lia. apply rne_mono; [lia|lia|]. apply Z.mul_le_mono_nonneg_r; [lia|].
  rewrite Z.pow_add_r in Hl by lia. lia.
Qed.

(** Rounding keeps the order. *)
Lemma dbl_mono a b a' b' : 0 ≤ a → 0 < b → 0 < b' → a * b' ≤ a' * b → dbl a b ≤ dbl a' b'.
Proof.
  intros Ha Hb Hb' H. assert (0 ≤ a') as Ha' by (apply Z.mul_nonneg_cancel_r with b; [done|]; lia).
  pose proof scale_pos as Hu. set (A := a * scale). set (A' := a' * scale).
  assert (A * b' ≤ A' * b) as HA.
  { unfold A, A'. replace (a * scale * b') with (a * b' * scale) by lia.
    replace (a' * scale * b) with (a' * b * scale) by lia. apply Z.mul_le_mono_nonneg_r; lia. }
  assert (last_place A b ≤ last_place A' b') as Ht.
  { unfold last_place. assert (Z.log2 (Z.abs A / b) ≤ Z.log2 (Z.abs A' / b')); [|lia]. apply Z.log2_le_mono.
    rewrite !Z.abs_eq by (unfold A, A'; lia). rewrite <- (Z.div_mul_cancel_r A b b'), <- (Z.div_mul_cancel_r A' b' b) by lia.
    rewrite (Z.mul_comm b' b). apply Z.div_le_mono; lia. }
  apply Z.le_lteq in Ht as [Ht|Ht].
  - eapply Z.le_trans; [by apply dbl_upper|]. eapply Z.le_trans; [|apply dbl_lower; try done; fold A'; unfold last_place in *; lia].
    apply Z.pow_le_mono_r; [lia|]. fold A A'. lia.
  - unfold dbl. fold A A'. rewrite <- Ht. set (t := last_place A b). assert (0 < 2 ^ t) by (apply Z.pow_pos_nonneg; unfold t, last_place; lia).
    apply Z.mul_le_mono_nonneg_r; [lia|]. apply rne_mono; [lia|lia|].
    replace (A * (b' * 2 ^ t)) with (A * b' * 2 ^ t) by lia. replace (A' * (b * 2 ^ t)) with (A' * b * 2 ^ t) by lia.
    apply Z.mul_le_mono_nonneg_r; lia.
Qed.

(** ... and is off by at most one part in 2^53. *)
Lemma dbl_error a b :
  0 ≤ a → 0 < b → b * 2 ^ 53 ≤ a * scale →
  Z.abs (dbl a b * b - a * scale) * 2 ^ 53 ≤ a * scale.
Proof.
  intros Ha Hb Hbig. unfold dbl. set (A := a * scale) in *. set (t := last_place A b).
  assert (2 ^ 53 ≤ A / b) as Hq by (apply Z.div_le_lower_bound; lia).
  assert (53 ≤ Z.log2 (A / b)) as Hl by (rewrite <- (Z.log2_pow2 53) by lia; by apply Z.log2_le_mono).
  assert (0 < t) as Ht by (unfold t, last_place; rewrite Z.abs_eq by (unfold A; pose proof scale_pos; lia); lia).
  destruct (last_place_bounds A b) as [_ Hlow]; [unfold A; pose proof scale_pos; lia|done|]. specialize (Hlow Ht). fold t in Hlow.
  assert (0 < 2 ^ t) as Hp by lia. destruct (rne_spec A (b * 2 ^ t) ltac:(lia)) as [He _].
  replace (rne A (b * 2 ^ t) * 2 ^ t * b - A) with (- (A - rne A (b * 2 ^ t) * (b * 2 ^ t))) by lia. rewrite Z.abs_opp.
  rewrite Z.pow_add_r in Hlow by lia. change (2 ^ 53) with (2 * 2 ^ 52).
  set (err := Z.abs _) in *. assert (2 * err * 2 ^ 52 ≤ b * 2 ^ t * 2 ^ 52); [apply Z.mul_le_mono_nonneg_r; lia|]. lia.
Qed.

(** ** Against the standard library's floats *)

Definition spec_value (x : spec_float) : Z :=
  match x with S754_finite s m e => (if s then -1 else 1) * Zpos m * 2 ^ (e + 128) | _ => 0 end.
Definition spec_int (n : Z) : spec_float := binary_normalize 53 1024 n 0 false.

Definition agrees (n u : Z) : bool :=
  (of_int n =? spec_value (spec_int n)) &&
  (fdiv (of_int n) (of_int u) =? spec_value (SFdiv 53 1024 (spec_int n) (spec_int u))) &&
  (fmul (of_int n) (of_int u) =? spec_value (SFmul 53 1024 (spec_int n) (spec_int u))).

Lemma spec_float_samples :
  forallb (λ '(n, u), agrees n u)
    (list_prod [0; 1; 9994; 2 ^ 53 - 1; 2 ^ 53 + 1; 2 ^ 53 + 3; 9994999999999999; 99949999999999993; 2 ^ 63 - 1; -7; - 2 ^ 63]
      [1; 3; 1000; 10 ^ 15; 10 ^ 18; 2 ^ 60; 9007199254740993; -1000]) = true.
Proof. vm_compute. reflexivity. Qed.

(** Small integers are exact. *)
Lemma of_int_exact n : 0 ≤ n < 2 ^ 53 → of_int n = n * scale.
Proof.
  intros Hn. unfold of_int, dbl, last_place. rewrite Z.div_1_r, Z.mul_1_l. set (t := Z.max 0 _).
  assert (0 ≤ t ≤ 128) as Ht.
  { unfold t. destruct (Z.eq_dec n 0) as [->|Hn0]; [done|]. rewrite Z.abs_eq by (pose proof scale_pos; lia).
    unfold scale. rewrite <- Z.shiftl_mul_pow2, Z.log2_shiftl by lia. pose proof (Z.log2_lt_pow2 n 53). lia. }
  assert (scale = 2 ^ (128 - t) * 2 ^ t) as E by (unfold scale; rewrite <- Z.pow_add_r by lia; f_equal; lia).
  rewrite E at 1. rewrite Z.mul_assoc, rne_exact by lia. rewrite E. lia.
Qed.
