(* ===== verification/ProcessInfo.v ===== *)
(** * ProcessInfo: what the system says about the process
    ([muduo/base/ProcessInfo.h], [ProcessInfo.cc])

    The functions read text of /proc and pick it apart. The system is a set of
    arguments: [readFile] (error and contents, see [FileUtil.readFile]), the
    names in a directory, and the system calls' answers. *)
From S2P Require Import Prelude Format.
From stdpp Require Import sorting.
#[local] Open Scope Z_scope.
From stdpp Require Import options.

(** ** Text *)

(** The digits a text begins with. *)
Fixpoint split_digits (s : bytes) : bytes * bytes :=
  match s with
  | b :: s' => if is_digit b then let '(d, r) := split_digits s' in (b :: d, r) else ([], s)
  | [] => ([], [])
  end.

(** [std::from_chars] into a signed integer of [w] bits: the value and the rest
    of the text; nothing when there are no digits or too many. *)
Definition from_chars (w : Z) (s : bytes) : option (Z * bytes) :=
  let '(neg, s) := match s with Byte.x2d :: s => (true, s) | _ => (false, s) end in
  let '(ds, rest) := split_digits s in
  match ds with
  | [] => None
  | _ =>
    let v := if neg : bool then - dec_value ds else dec_value ds in
    if (- 2 ^ (w - 1) <=? v) && (v <? 2 ^ (w - 1)) then Some (v, rest) else None
  end.

(** [std::isspace] in the C locale. *)
Definition isspace (b : byte) : bool :=
  bool_decide (b ∈ [Byte.x20; Byte.x09; Byte.x0a; Byte.x0b; Byte.x0c; Byte.x0d]).

(* src/muduo/base/ProcessInfo.cc:30-34 isNumericName *)
Definition isNumericName (name : bytes) : bool :=
  match name with [] => false | _ => forallb is_digit name end.

(* src/muduo/base/ProcessInfo.cc:36-48 parseInt *)
Definition parseInt (sv : bytes) : option Z :=
  match sv with
  | [] => None
  | _ => match from_chars 32 sv with Some (v, []) => Some v | _ => None end
  end.

(* src/muduo/base/ProcessInfo.cc:50-56 skipSpace *)
Fixpoint skipSpace (sv : bytes) : bytes :=
  match sv with
  | b :: sv' => if isspace b then skipSpace sv' else sv
  | [] => []
  end.

(** [std::views::split] at a byte. *)
Fixpoint split_at (c : byte) (s : bytes) : list bytes :=
  match s with
  | [] => [[]]
  | b :: s =>
    if bool_decide (b = c) then [] :: split_at c s
    else match split_at c s with p :: l => (b :: p) :: l | [] => [[b]] end
  end.

(** The offset of the last occurrence ([rfind]). *)
Definition rfind_byte (c : byte) (s : bytes) : option nat :=
  match find_byte c (reverse s) with Some i => Some (length s - S i)%nat | None => None end.

(* src/muduo/base/ProcessInfo.cc:109-116 ProcessInfo::procname(string_view) *)
Definition procname (stat : bytes) : bytes :=
  match find_byte Byte.x28 stat, rfind_byte Byte.x29 stat with
  | Some lp, Some rp => if (lp <? rp)%nat then take (rp - lp - 1) (drop (lp + 1) stat) else []
  | _, _ => []
  end.

Definition starts_with (p s : bytes) : bool := bool_decide (take (length p) s = p).

(** The loop over the lines of the status: the first one that says
    ["Threads:"] decides. *)
Fixpoint threads_line (lines : list bytes) : Z :=
  match lines with
  | [] => 0
  | line :: lines =>
    if match line with [] => true | _ => negb (starts_with (str "Threads:") line) end then threads_line lines
    else default 0 (parseInt (skipSpace (drop (length (str "Threads:")) line)))
  end.

(** ** The system *)

(** The answers of the system calls the functions make. *)
Record system := mkSystem {
  getpid : Z; getuid : Z; geteuid : Z; gettid : Z;
  getpwuid : option bytes;                       (* pw_name *)
  gethostname : option bytes;                    (* the 256 bytes of the buffer, None for an error *)
  readlink_exe : option bytes;                   (* at most 1024 bytes *)
  getrlimit : option Z;                          (* rlim_cur *)
  times : option (Z * Z);                        (* tms_utime, tms_stime *)
  list_dir : bytes → list bytes;                 (* file names, none after an error *)
  readFile : bytes → Z → Z * bytes;              (* error and contents *)
  start_time : Z
}.

Section ProcessInfo.
Context (s : system).

(* src/muduo/base/ProcessInfo.cc:60-60 ProcessInfo::pid *)
Definition pid : Z := getpid s.
(* src/muduo/base/ProcessInfo.cc:62-62 ProcessInfo::pidString *)
Definition pidString : bytes := format_int pid.
(* src/muduo/base/ProcessInfo.cc:64-64 ProcessInfo::uid *)
Definition uid : Z := getuid s.
(* src/muduo/base/ProcessInfo.cc:66-77 ProcessInfo::username *)
Definition username : bytes := default (str "unknownuser") (getpwuid s).
(* src/muduo/base/ProcessInfo.cc:79-79 ProcessInfo::euid *)
Definition euid : Z := geteuid s.
(* src/muduo/base/ProcessInfo.cc:81-81 ProcessInfo::startTime *)
Definition startTime : Z := start_time s.

(** A C string: the bytes before the first zero. *)
Definition c_string (b : bytes) : bytes := match find_byte Byte.x00 b with Some i => take i b | None => b end.

(** The last byte of the buffer is made a zero. *)
(* src/muduo/base/ProcessInfo.cc:95-102 ProcessInfo::hostname *)
Definition hostname : bytes :=
  match gethostname s with
  | Some buf => c_string (take 255 buf ++ [Byte.x00])
  | None => str "unknownhost"
  end.

(* src/muduo/base/ProcessInfo.cc:122-126 ProcessInfo::procStatus *)
Definition procStatus : bytes := (readFile s (str "/proc/self/status") 65536).2.
(* src/muduo/base/ProcessInfo.cc:128-132 ProcessInfo::procStat *)
Definition procStat : bytes := (readFile s (str "/proc/self/stat") 65536).2.
(* src/muduo/base/ProcessInfo.cc:104-107 ProcessInfo::procname *)
Definition procname_self : bytes := procname procStat.
(* src/muduo/base/ProcessInfo.cc:134-140 ProcessInfo::threadStat *)
Definition threadStat : bytes :=
  (readFile s (str "/proc/self/task/" ++ format_int (gettid s) ++ str "/stat") 65536).2.

(* src/muduo/base/ProcessInfo.cc:142-149 ProcessInfo::exePath *)
Definition exePath : bytes := default [] (readlink_exe s).

(* src/muduo/base/ProcessInfo.cc:151-164 ProcessInfo::openedFiles *)
Definition openedFiles : Z :=
  foldl (λ count name, if isNumericName name then count + 1 else count) 0 (list_dir s (str "/proc/self/fd")).

(* src/muduo/base/ProcessInfo.cc:166-172 ProcessInfo::maxOpenFiles *)
Definition maxOpenFiles : Z :=
  match getrlimit s with Some cur => swrap 32 cur | None => openedFiles end.

(** In ticks of the clock; the division by their rate is floating point. *)
(* src/muduo/base/ProcessInfo.cc:174-183 ProcessInfo::cpuTime *)
Definition cpuTime : Z * Z := default (0, 0) (times s).

(* src/muduo/base/ProcessInfo.cc:185-205 ProcessInfo::numThreads *)
Definition numThreads : Z := threads_line (split_at Byte.x0a procStatus).

(** The id a directory entry stands for. *)
Definition entry_tid (name : bytes) : option Z :=
  if isNumericName name
  then match parseInt name with Some tid => if 0 <? tid then Some tid else None | None => None end
  else None.

(* src/muduo/base/ProcessInfo.cc:207-224 ProcessInfo::threads *)
Definition threads : list Z := merge_sort Z.le (omap entry_tid (list_dir s (str "/proc/self/task"))).
End ProcessInfo.

(** ** Reading back *)

Lemma split_digits_app ds rest :
  Forall (λ b, is_digit b = true) ds → (∀ b, head rest = Some b → is_digit b = false) →
  split_digits (ds ++ rest) = (ds, rest).
Proof.
  intros Hd Hr. induction Hd as [|b ds Hb _ IH]; cbn.
  - destruct rest as [|b rest]; [done|]. cbn. by rewrite (Hr b eq_refl).
  - by rewrite Hb, IH.
Qed.

(** A printed integer is read back, whatever follows it. *)
Lemma from_chars_int w z rest :
  in_signed w z → (∀ b, head rest = Some b → is_digit b = false) → from_chars w (format_int z ++ rest) = Some (z, rest).
Proof.
  intros [Hl Hu] Hr. unfold from_chars, format_int. destruct (Z.ltb_spec z 0) as [Hz|Hz].
  - cbn [app]. rewrite split_digits_app by (try apply format_nat_digits; done || lia).
    pose proof (format_nat_nonempty (- z)) as Hn. destruct (format_nat (- z)) as [|b ds] eqn:E; [done|].
    rewrite <- E, format_nat_value, Z.opp_involutive by lia. by rewrite (proj2 (Z.leb_le _ _)), (proj2 (Z.ltb_lt _ _)) by lia.
  - pose proof (format_nat_digits z Hz) as Hd. pose proof (format_nat_nonempty z) as Hn.
    pose proof (split_digits_app _ rest Hd Hr) as Hs. pose proof (format_nat_value z Hz) as Hv.
    destruct (format_nat z) as [|b ds] eqn:E; [done|]. apply Forall_cons in Hd as [Hb _].
    replace (match (b :: ds) ++ rest with Byte.x2d :: s => (true, s) | _ => (false, (b :: ds) ++ rest) end)
      with (false, (b :: ds) ++ rest) by (by destruct b).
    rewrite Hs, Hv. by rewrite (proj2 (Z.leb_le _ _)), (proj2 (Z.ltb_lt _ _)) by lia.
Qed.

Lemma from_chars_all w z : in_signed w z → from_chars w (format_int z) = Some (z, []).
Proof. intros Hz. rewrite <- (app_nil_r (format_int z)). by apply from_chars_int. Qed.

Lemma format_int_nonempty z : format_int z ≠ [].
Proof. unfold format_int. destruct (z <? 0); [done|apply format_nat_nonempty]. Qed.

Lemma parseInt_int z : in_signed 32 z → parseInt (format_int z) = Some z.
Proof.
  intros Hz. unfold parseInt. rewrite from_chars_all by done. by destruct (format_int z) eqn:E; [destruct (format_int_nonempty z)|].
Qed.

Lemma not_space_digit b : is_digit b = true → isspace b = false.
Proof. intros. destruct b; vm_compute in *; done. Qed.

Lemma skipSpace_app blanks s :
  Forall (λ b, isspace b = true) blanks → (∀ b, head s = Some b → isspace b = false) → skipSpace (blanks ++ s) = s.
Proof.
  intros Hb Hs. induction Hb as [|b blanks Hb _ IH]; cbn; [|by rewrite Hb].
  destruct s as [|b s]; [done|]. cbn. by rewrite (Hs b eq_refl).
Qed.

Lemma int_head_not_space z b : head (format_int z) = Some b → isspace b = false.
Proof.
  unfold format_int. destruct (Z.ltb_spec z 0) as [|Hz]; [by intros [= <-]|]. intros Hh.
  pose proof (format_nat_digits z Hz) as Hd. destruct (format_nat z); [done|]. injection Hh as ->.
  apply Forall_cons in Hd as [Hd _]. by apply not_space_digit.
Qed.

Lemma split_at_app c p s : c ∉ p → split_at c (p ++ c :: s) = p :: split_at c s.
Proof.
  induction p as [|b p IH]; cbn; intros Hn; [by rewrite bool_decide_true|].
  apply not_elem_of_cons in Hn as [H1 H2]. rewrite bool_decide_false by congruence. by rewrite IH.
Qed.

Lemma threads_line_skip lines l : Forall (λ p, starts_with (str "Threads:") p = false) lines → threads_line (lines ++ l) = threads_line l.
Proof. induction 1 as [|p lines Hp _ IH]; [done|]. cbn [threads_line app]. rewrite Hp. by destruct p. Qed.

Lemma split_lines lines s :
  Forall (λ p, Byte.x0a ∉ p) lines → split_at Byte.x0a (mjoin ((λ p, p ++ [Byte.x0a]) <$> lines) ++ s) = lines ++ split_at Byte.x0a s.
Proof.
  induction 1 as [|p lines Hp _ IH]; [done|].
  assert (mjoin ((λ p, p ++ [Byte.x0a]) <$> p :: lines) ++ s = p ++ Byte.x0a :: (mjoin ((λ p, p ++ [Byte.x0a]) <$> lines) ++ s)) as ->
    by (cbn; by rewrite <- !app_assoc).
  by rewrite split_at_app, IH.
Qed.

Lemma int_no_newline z : Byte.x0a ∉ format_int z.
Proof.
  unfold format_int. assert (∀ n, 0 ≤ n → Byte.x0a ∉ format_nat n) as Hn.
  { intros n Hn Hin. pose proof (format_nat_digits n Hn) as Hd. rewrite Forall_forall in Hd. by specialize (Hd _ Hin). }
  destruct (Z.ltb_spec z 0); [|by apply Hn]. rewrite not_elem_of_cons. split; [done|]. apply Hn. lia.
Qed.

Lemma rfind_byte_app c p s : c ∉ s → rfind_byte c (p ++ c :: s) = Some (length p).
Proof.
  intros Hs. unfold rfind_byte. rewrite reverse_app, reverse_cons, <- app_assoc. cbn [app].
  rewrite find_byte_app by (by rewrite elem_of_reverse). rewrite length_reverse, length_app. cbn. f_equal. lia.
Qed.

Lemma procname_between p name rest :
  Byte.x28 ∉ p → Byte.x29 ∉ rest → procname (p ++ Byte.x28 :: name ++ Byte.x29 :: rest) = name.
Proof.
  intros Hp Hr. unfold procname. rewrite find_byte_app by done.
  change (p ++ Byte.x28 :: name ++ Byte.x29 :: rest) with (p ++ (Byte.x28 :: name) ++ Byte.x29 :: rest).
  rewrite app_assoc, rfind_byte_app by done. rewrite length_app. cbn [length].
  rewrite (proj2 (Nat.ltb_lt _ _)) by lia. rewrite <- app_assoc. rewrite drop_app_ge by lia.
  replace (length p + 1 - length p)%nat with 1%nat by lia. cbn [app drop].
  rewrite drop_0. replace (length p + S (length name) - length p - 1)%nat with (length name) by lia. apply take_app_length.
Qed.

Lemma entry_tid_int t : 0 < t < 2 ^ 31 → entry_tid (format_int t) = Some t.
Proof.
  intros Ht. unfold entry_tid. assert (isNumericName (format_int t) = true) as ->.
  { unfold format_int. destruct (Z.ltb_spec t 0); [lia|]. pose proof (format_nat_digits t ltac:(lia)) as Hd.
    pose proof (format_nat_nonempty t). unfold isNumericName. destruct (format_nat t) eqn:E; [done|]. rewrite <- E in *.
    apply forallb_forall. intros c Hc. rewrite Forall_forall in Hd. apply Hd. by apply list_elem_of_In. }
  rewrite parseInt_int by (unfold in_signed; change (2 ^ (32 - 1)) with (2 ^ 31); lia).
  by rewrite (proj2 (Z.ltb_lt 0 t)) by lia.
Qed.

Lemma threads_listed s tids others :
  list_dir s (str "/proc/self/task") ≡ₚ (format_int <$> tids) ++ others →
  Forall (λ t, 0 < t < 2 ^ 31) tids → Forall (λ name, isNumericName name = false) others →
  Sorted Z.le (threads s) ∧ threads s ≡ₚ tids.
Proof.
  intros Hd Ht Ho. unfold threads. split; [apply Sorted_merge_sort; intros a b; lia|].
  rewrite merge_sort_Permutation, Hd, omap_app.
  assert (omap entry_tid (format_int <$> tids) = tids) as ->.
  { clear Hd. induction Ht as [|t tids Ht _ IH]; [done|]. cbn. rewrite entry_tid_int by done. f_equal. exact IH. }
  assert (omap entry_tid others = []) as ->; [|by rewrite app_nil_r].
  clear Hd. induction Ho as [|o others Ho _ IH]; [done|]. cbn. unfold entry_tid at 1. by rewrite Ho.
Qed.

(** The functions read what the kernel writes. When /proc/self/status is
    any lines, then ["Threads:"], blanks and a number, [numThreads] is that
    number; when /proc/self/stat is the process id, a name in parentheses and
    the rest of the fields, [procname] is the name, whatever it is (spaces and
    parentheses in it included); and when a directory of /proc lists threads
    by number, in any order and among any other names, [threads] is their
    numbers in ascending order, each once. *)
Theorem process_info_reads s :
  (∀ lines blanks n rest,
     procStatus s = mjoin ((λ p, p ++ [Byte.x0a]) <$> lines) ++ str "Threads:" ++ blanks ++ format_int n ++ Byte.x0a :: rest →
     Forall (λ p, Byte.x0a ∉ p ∧ starts_with (str "Threads:") p = false) lines →
     Forall (λ b, isspace b = true ∧ b ≠ Byte.x0a) blanks → in_signed 32 n → numThreads s = n) ∧
  (∀ id name rest,
     procStat s = format_int id ++ str " (" ++ name ++ str ") " ++ rest → Byte.x29 ∉ rest → procname_self s = name) ∧
  (∀ tids others,
     list_dir s (str "/proc/self/task") ≡ₚ (format_int <$> tids) ++ others →
     Forall (λ t, 0 < t < 2 ^ 31) tids → Forall (λ name, isNumericName name = false) others →
     Sorted Z.le (threads s) ∧ threads s ≡ₚ tids).
Proof.
  split_and!.
  - intros lines blanks n rest Hs Hl Hb Hn. unfold numThreads. rewrite Hs, split_lines by (eapply Forall_impl; [exact Hl|naive_solver]).
    rewrite threads_line_skip by (eapply Forall_impl; [exact Hl|naive_solver]).
    rewrite !app_assoc, split_at_app.
    + rewrite <- !app_assoc. cbn [threads_line]. change (str "Threads:") with (str "Threads:" ++ []) at 1.
      assert (starts_with (str "Threads:") (str "Threads:" ++ blanks ++ format_int n) = true) as Hst
        by (unfold starts_with; rewrite take_app_length; by rewrite bool_decide_true).
      rewrite app_nil_r, Hst, drop_app_length. change (str "Threads:" ++ blanks ++ format_int n) with
        (Byte.x54 :: (drop 1 (str "Threads:") ++ blanks ++ format_int n)). cbv iota. cbn [negb].
      rewrite skipSpace_app; [|eapply Forall_impl; [exact Hb|naive_solver]|apply int_head_not_space].
      by rewrite parseInt_int.
    + rewrite !not_elem_of_app. split_and!; [by vm_compute; intros H; repeat (apply elem_of_cons in H as [H|H]; [done|]); apply elem_of_nil in H| |apply int_no_newline].
      intros Hin. rewrite Forall_forall in Hb. by apply Hb in Hin as [_ ?].
  - intros id name rest Hs Hr. unfold procname_self. rewrite Hs.
    change (format_int id ++ str " (" ++ name ++ str ") " ++ rest) with (format_int id ++ [Byte.x20] ++ Byte.x28 :: name ++ Byte.x29 :: Byte.x20 :: rest).
    rewrite app_assoc. apply procname_between.
    + rewrite not_elem_of_app, list_elem_of_singleton. split; [|done]. unfold format_int.
      assert (∀ n, 0 ≤ n → Byte.x28 ∉ format_nat n) as Hn.
      { intros n Hn Hin. pose proof (format_nat_digits n Hn) as Hd. rewrite Forall_forall in Hd. by specialize (Hd _ Hin). }
      destruct (Z.ltb_spec id 0); [|by apply Hn]. rewrite not_elem_of_cons. split; [done|]. apply Hn. lia.
    + rewrite not_elem_of_cons. done.
  - intros tids others. apply threads_listed.
Qed.

(** A process of two threads with an awkward name. *)
Definition sample_status : bytes := str "Name:	a) (b" ++ [Byte.x0a] ++ str "Threads:	2" ++ [Byte.x0a] ++ str "rest".
Definition sample_stat : bytes := str "42 (a) (b) S 1 42".
Definition sample_system : system :=
  mkSystem 42 0 0 42 (Some (str "root")) (Some (str "host" ++ [Byte.x00])) (Some (str "/bin/a")) (Some (2 ^ 64 - 1)) None
    (λ p, if bool_decide (p = str "/proc/self/task") then [str "43"; str ".."; str "42"] else [])
    (λ p _, if bool_decide (p = str "/proc/self/status") then (0, sample_status)
            else if bool_decide (p = str "/proc/self/stat") then (0, sample_stat) else (2, [])) 0.

Lemma process_info_reads_witness :
  numThreads sample_system = 2 ∧ procname_self sample_system = str "a) (b" ∧
  threads sample_system ≡ₚ [43; 42] ∧ Sorted Z.le (threads sample_system).
Proof.
  destruct (process_info_reads sample_system) as (H1 & H2 & H3). split_and!.
  - apply (H1 [str "Name:	a) (b"] (str "	") 2 (str "rest")); [by vm_compute| | |split; lia].
    + repeat constructor; try done. apply find_byte_none. by vm_compute.
    + repeat constructor; done.
  - apply (H2 42 (str "a) (b") (str "S 1 42")); [by vm_compute|]. apply find_byte_none. by vm_compute.
  - apply (H3 [43; 42] [str ".."]); [|repeat constructor; lia|repeat constructor; done].
    change (list_dir sample_system (str "/proc/self/task")) with [str "43"; str ".."; str "42"].
    change ((format_int <$> [43; 42]) ++ [str ".."]) with [str "43"; str "42"; str ".."]. solve_Permutation.
  - apply (H3 [43; 42] [str ".."]); [|repeat constructor; lia|repeat constructor; done].
    change (list_dir sample_system (str "/proc/self/task")) with [str "43"; str ".."; str "42"].
    change ((format_int <$> [43; 42]) ++ [str ".."]) with [str "43"; str "42"; str ".."]. solve_Permutation.
Defined.

(** An unlimited number of files ([RLIM_INFINITY]) becomes minus one. *)
Lemma unlimited_files s : getrlimit s = Some (2 ^ 64 - 1) → maxOpenFiles s = -1.
Proof. intros E. unfold maxOpenFiles. by rewrite E. Qed.
