(* ===== verification/Thread.v ===== *)
(** * Thread: threads, their names and their stack traces
    ([muduo/base/Thread.h], [Thread.cc], [CurrentThread.h], [CurrentThread.cc])

    A [Thread] and its owner are two programs; a step is one of their atomic
    actions. The cached id and its text are in [Logging], where they are used;
    a [Thread] that runs an [EventLoop] is in [EventLoopThread]. *)
From S2P Require Import Prelude Format ProcessInfo.
From stdpp Require Import options.

(** ** Stack traces *)

Section StackTrace.
(** [backtrace_symbols] for the frames it is given, and [__cxa_demangle]. *)
Context (backtrace_symbols : list Z → option (list (option bytes))) (cxa_demangle : bytes → option bytes).

(* src/muduo/base/CurrentThread.cc:123-155 CurrentThread::stackTrace, one line *)
Definition trace_line (demangle : bool) (line : bytes) : bytes :=
  if negb demangle then line
  else
    match find_byte Byte.x28 line with
    | None => line
    | Some lp =>
        match find_byte Byte.x2b (drop lp line) with
        | None => line
        | Some k =>
            let plus := (lp + k)%nat in
            if (plus <=? lp)%nat then line
            else
              let mangled := take (plus - lp - 1) (drop (lp + 1) line) in
              match cxa_demangle mangled with
              | Some name => take (lp + 1) line ++ name ++ drop plus line
              | None => line
              end
        end
    end.

(** Built with C++23's stack traces: the descriptions of the entries. *)
(* src/muduo/base/CurrentThread.cc:97-106 CurrentThread::stackTrace, std::stacktrace *)
Definition stackTrace23 (descriptions : list bytes) : bytes :=
  foldl (λ trace desc, trace ++ (match desc with [] => str "<unknown>" | _ => desc end) ++ [Byte.x0a]) [] descriptions.

(** Built without C++23's stack traces. [frames] is the stack; [backtrace]
    gives its first [kMaxFrames]. *)
(* src/muduo/base/CurrentThread.cc:108-157 CurrentThread::stackTrace *)
Definition stackTrace (demangle : bool) (frames : list Z) : bytes :=
  let frames := take 200 frames in
  if bool_decide (frames = []) then []
  else
    match backtrace_symbols frames with
    | None => []
    | Some symbols =>
        foldl (λ trace symbol,
          match symbol with
          | None => trace
          | Some line => trace ++ trace_line demangle line ++ [Byte.x0a]
          end) [] symbols
    end.

(** *** What a trace says *)

Lemma find_byte_split c l i :
  find_byte c l = Some i → ∃ p r, l = p ++ c :: r ∧ length p = i ∧ c ∉ p.
Proof using Type.
  revert i. induction l as [|b l IH]; intros i; cbn; [done|]. case_bool_decide as Hb.
  - intros [= <-]. subst b. exists [], l. split_and!; [done|done|apply not_elem_of_nil].
  - destruct (find_byte c l) as [k|]; [|done]. intros [= <-].
    destruct (IH k eq_refl) as (p & r & -> & <- & Hp). exists (b :: p), r.
    split_and!; [done|done|]. apply not_elem_of_cons. split; [congruence|done].
Qed.

Definition present (symbols : list (option bytes)) : list bytes := omap id symbols.

Lemma trace_lines demangle frames symbols :
  frames ≠ [] → backtrace_symbols (take 200 frames) = Some symbols →
  stackTrace demangle frames = mjoin ((λ p, p ++ [Byte.x0a]) <$> (trace_line demangle <$> present symbols)).
Proof using Type.
  intros Hf Hs. unfold stackTrace. rewrite bool_decide_false by (by destruct frames). rewrite Hs.
  assert (∀ trace, foldl (λ trace symbol, match symbol with None => trace | Some line => trace ++ trace_line demangle line ++ [Byte.x0a] end)
    trace symbols = trace ++ mjoin ((λ p, p ++ [Byte.x0a]) <$> (trace_line demangle <$> present symbols))) as ->; [|done].
  clear Hs. induction symbols as [|[line|] symbols IH]; intros trace.
  - by rewrite app_nil_r.
  - cbn [foldl]. rewrite IH. cbn. by rewrite <- !app_assoc.
  - cbn [foldl]. apply IH.
Qed.

Lemma trace_line_demangles obj mangled name rest :
  Byte.x28 ∉ obj → Byte.x2b ∉ mangled → cxa_demangle mangled = Some name →
  trace_line true (obj ++ [Byte.x28] ++ mangled ++ [Byte.x2b] ++ rest) = obj ++ [Byte.x28] ++ name ++ [Byte.x2b] ++ rest.
Proof using Type.
  intros Ho Hm Hd. unfold trace_line. cbn [negb app].
  rewrite find_byte_app, drop_app_length by done.
  change (Byte.x28 :: mangled ++ Byte.x2b :: rest) with ((Byte.x28 :: mangled) ++ Byte.x2b :: rest).
  rewrite find_byte_app by (intros [?|?]%elem_of_cons; done). cbn [length].
  rewrite (proj2 (Nat.leb_gt _ _)) by lia.
  replace (length obj + S (length mangled) - length obj - 1)%nat with (length mangled) by lia.
  change (obj ++ (Byte.x28 :: mangled) ++ Byte.x2b :: rest) with (obj ++ [Byte.x28] ++ mangled ++ Byte.x2b :: rest).
  rewrite !app_assoc.
  replace (length obj + 1)%nat with (length (obj ++ [Byte.x28])) by (rewrite length_app; cbn; lia).
  rewrite <- (app_assoc _ mangled), drop_app_length, take_app_length, Hd, take_app_length.
  rewrite (app_assoc _ mangled).
  replace (length obj + S (length mangled))%nat with (length ((obj ++ [Byte.x28]) ++ mangled)) by (rewrite !length_app; cbn; lia).
  rewrite drop_app_length. by rewrite <- !app_assoc.
Qed.

(** Otherwise the line is as the system gives it. *)
Lemma trace_line_plain line :
  (∀ obj mangled rest, line = obj ++ [Byte.x28] ++ mangled ++ [Byte.x2b] ++ rest → Byte.x28 ∉ obj → Byte.x2b ∉ mangled →
     cxa_demangle mangled = None) →
  trace_line true line = line.
Proof using Type.
  intros H. unfold trace_line. cbn [negb].
  destruct (find_byte Byte.x28 line) as [lp|] eqn:Hl; [|done].
  destruct (find_byte_split _ _ _ Hl) as (obj & r & -> & <- & Ho).
  rewrite drop_app_length. destruct (find_byte Byte.x2b (Byte.x28 :: r)) as [k|] eqn:Hk; [|done].
  destruct (find_byte_split _ _ _ Hk) as ([|b mangled] & rest & E & <- & Hm); [done|].
  injection E as <- ->. apply not_elem_of_cons in Hm as [_ Hm]. cbn [length].
  destruct (Nat.leb_spec (length obj + S (length mangled)) (length obj)) as [|_]; [done|].
  replace (length obj + S (length mangled) - length obj - 1)%nat with (length mangled) by lia.
  assert (take (length mangled) (drop (length obj + 1) (obj ++ Byte.x28 :: mangled ++ Byte.x2b :: rest)) = mangled) as ->.
  - rewrite (cons_middle Byte.x28 obj), app_assoc.
    replace (length obj + 1)%nat with (length (obj ++ [Byte.x28])) by (rewrite length_app; cbn; lia).
    by rewrite drop_app_length, take_app_length.
  - by rewrite (H obj mangled rest eq_refl Ho Hm).
Qed.

(** A stack trace names the functions. It has one line for each of the
    first 200 frames the system can name, in order; in a line of the form
    [object(mangled+offset)...] whose mangled name can be demangled, exactly
    that name is replaced; every other line is as the system gives it. *)
Theorem stack_trace_text frames symbols :
  frames ≠ [] → backtrace_symbols (take 200 frames) = Some symbols →
  Forall (λ l, Byte.x0a ∉ l) (trace_line true <$> present symbols) →
  split_at Byte.x0a (stackTrace true frames) = (trace_line true <$> present symbols) ++ [[]] ∧
  (∀ obj mangled name rest, Byte.x28 ∉ obj → Byte.x2b ∉ mangled → cxa_demangle mangled = Some name →
     trace_line true (obj ++ [Byte.x28] ++ mangled ++ [Byte.x2b] ++ rest) =
       obj ++ [Byte.x28] ++ name ++ [Byte.x2b] ++ rest) ∧
  (∀ line,
     (∀ obj mangled rest, line = obj ++ [Byte.x28] ++ mangled ++ [Byte.x2b] ++ rest → Byte.x28 ∉ obj →
        Byte.x2b ∉ mangled → cxa_demangle mangled = None) →
     trace_line true line = line).
Proof using Type.
  intros Hf Hs Hn. split; [|split; [exact trace_line_demangles|exact trace_line_plain]].
  rewrite (trace_lines true frames symbols Hf Hs).
  pose proof (split_lines (trace_line true <$> present symbols) [] Hn) as H. rewrite app_nil_r in H. exact H.
Qed.
End StackTrace.

(** ** Names by default *)

(** [numCreated_] is an atomic [int]: an increment wraps. *)
(* src/muduo/base/Thread.cc:18-23 Thread::setDefaultName *)
Definition setDefaultName (numCreated : Z) (name : bytes) : Z * bytes :=
  let num := swrap 32 (numCreated + 1) in
  (num, if bool_decide (name = []) then str "Thread" ++ format_int num else name).

(** Constructors, in the order of their increments. *)
Fixpoint construct (numCreated : Z) (names : list bytes) : list bytes :=
  match names with
  | [] => []
  | name :: names => let '(n, given) := setDefaultName numCreated name in given :: construct n names
  end.

Lemma swrap_step n k : swrap 32 (swrap 32 n + k) = swrap 32 (n + k).
Proof.
  unfold swrap. cbv zeta. destruct (n mod 2 ^ 32 <? 2 ^ (32 - 1)).
  - by rewrite Zplus_mod_idemp_l.
  - replace (n mod 2 ^ 32 - 2 ^ 32 + k) with (n mod 2 ^ 32 + k + (-1) * 2 ^ 32) by lia.
    by rewrite Z_mod_plus_full, Zplus_mod_idemp_l.
Qed.

Lemma construct_lookup names n i :
  construct (swrap 32 n) names !! i =
  (λ name, if bool_decide (name = []) then str "Thread" ++ format_int (swrap 32 (n + 1 + Z.of_nat i)) else name) <$> names !! i.
Proof.
  revert n i. induction names as [|name names IH]; intros n i; [done|]. cbn [construct setDefaultName].
  rewrite swrap_step. destruct i as [|i]; cbn [lookup list_lookup].
  - cbn. by rewrite Z.add_0_r.
  - etrans; [apply IH|]. cbn [lookup list_lookup].
    by replace (n + 1 + 1 + Z.of_nat i) with (n + 1 + Z.of_nat (S i)) by lia.
Qed.

Lemma swrap32_mod a b : swrap 32 a = swrap 32 b → a mod 2 ^ 32 = b mod 2 ^ 32.
Proof.
  unfold swrap. cbv zeta. pose proof (Z.mod_pos_bound a (2 ^ 32) ltac:(lia)). pose proof (Z.mod_pos_bound b (2 ^ 32) ltac:(lia)).
  change (2 ^ (32 - 1)) with 2147483648. change (2 ^ 32) with 4294967296 in *.
  destruct (Z.ltb_spec (a mod 4294967296) 2147483648), (Z.ltb_spec (b mod 4294967296) 2147483648); lia.
Qed.

(** Threads without a name get different ones, until 2^32 threads have been
    made; the others keep theirs. *)
Lemma default_names names i j :
  len names ≤ 2 ^ 32 →
  (∀ name, names !! i = Some name → name ≠ [] → construct 0 names !! i = Some name) ∧
  (names !! i = Some [] → names !! j = Some [] → i ≠ j → construct 0 names !! i ≠ construct 0 names !! j).
Proof.
  intros Hl. change 0 with (swrap 32 0). rewrite !construct_lookup. split.
  - intros name -> Hn. cbn. by rewrite bool_decide_false.
  - intros Hi Hj Hne. apply lookup_lt_Some in Hi as Hi', Hj as Hj'. rewrite Hi, Hj. cbn.
    intros E. injection E as E. apply format_int_inj, swrap32_mod in E. unfold len in Hl.
    change (2 ^ 32) with 4294967296 in *. Z.to_euclidean_division_equations. lia.
Qed.

(** ** The life of a thread *)

(** Where the new thread and the owner are. *)
Inductive thread_at := TNone | TSpawned | TRunning | TNamed | TDone.
Inductive owner_at := OFresh | OStarting | OStarted | OJoined | OGone.

#[global] Instance thread_at_eq_dec : EqDecision thread_at.
Proof. solve_decision. Defined.
#[global] Instance owner_at_eq_dec : EqDecision owner_at.
Proof. solve_decision. Defined.

(** How the thread's function ends. *)
Inductive ending := Returns | ThrowsException | ThrowsStd | ThrowsOther.

(** [t_names] are the values of the thread's [t_threadName], in order;
    [stopped] is how the process ended, if it did. *)
(* src/muduo/base/Thread.h:50-53 Thread *)
Record Thread := mkThread {
  tid_ : Z;
  name_ : bytes;
  thread_ : thread_at;
  owner : owner_at;
  t_names : list bytes;
  calls : nat;
  stopped : bool
}.

Definition set_owner (o : owner_at) (t : Thread) : Thread :=
  mkThread (tid_ t) (name_ t) (thread_ t) o (t_names t) (calls t) (stopped t).
Definition set_thread (w : thread_at) (t : Thread) : Thread :=
  mkThread (tid_ t) (name_ t) w (owner t) (t_names t) (calls t) (stopped t).
(* src/muduo/base/CurrentThread.cc:89-89 CurrentThread::setName *)
Definition setName (name : bytes) (t : Thread) : Thread :=
  mkThread (tid_ t) (name_ t) (thread_ t) (owner t) (t_names t ++ [name]) (calls t) (stopped t).
(* src/muduo/base/CurrentThread.h:33-33 CurrentThread::name *)
Definition current_name (t : Thread) : bytes := default (str "unknown") (last (t_names t)).

(* src/muduo/base/CurrentThread.cc:91-91 CurrentThread::isMainThread *)
Definition isMainThread (tid pid : Z) : bool := tid =? pid.

(* src/muduo/base/Thread.h:27-30 Thread::Thread *)
Definition newThread (numCreated : Z) (name : bytes) : Thread :=
  mkThread 0 (snd (setDefaultName numCreated name)) TNone OFresh [] 0 false.

(* src/muduo/base/Thread.h:35-37 Thread::started *)
Definition started (t : Thread) : bool := 0 <? tid_ t.
(** [std::jthread::joinable]: it has been spawned and not joined. *)
Definition joinable (t : Thread) : bool := negb (bool_decide (thread_ t = TNone)) && negb (bool_decide (owner t = OJoined)).
(* src/muduo/base/Thread.h:38-38 Thread::joined *)
Definition joined (t : Thread) : bool := started t && negb (joinable t).

(* src/muduo/base/Thread.cc:55-58 Thread::start *)
Definition start (t : Thread) : outcome Thread :=
  assert! negb (started t) ;;
  Ok (set_owner OStarting (set_thread TSpawned t)).

(** The wait for [tid_], and the assert after it. *)
(* src/muduo/base/Thread.cc:59-63 Thread::start, the wait *)
Definition start_waited (t : Thread) : option (outcome Thread) :=
  if tid_ t =? 0 then None else Some (assert! 0 <? tid_ t ;; Ok (set_owner OStarted t)).

(** It waits for the thread to end. *)
(* src/muduo/base/Thread.cc:65-71 Thread::join *)
Definition join (t : Thread) : option (outcome Thread) :=
  if joinable t then (if bool_decide (thread_ t = TDone) then Some (Ok (set_owner OJoined t)) else None)
  else Some (Fault AssertFailed).

(** The destructor of [std::jthread] joins. *)
Definition destroy (t : Thread) : option Thread :=
  if joinable t && negb (bool_decide (thread_ t = TDone)) then None else Some (set_owner OGone t).

(* src/muduo/base/Thread.cc:25-28 Thread::runInThread, the id *)
Definition run_tid (tid : Z) (t : Thread) : Thread :=
  mkThread tid (name_ t) TRunning (owner t) (t_names t) (calls t) (stopped t).

(* src/muduo/base/Thread.cc:30-32 Thread::runInThread, the name *)
Definition run_name (t : Thread) : Thread :=
  setName (if bool_decide (name_ t = []) then str "muduoThread" else name_ t) (set_thread TNamed t).

(** What is thrown ends the process: by [abort()], or as an exception that
    leaves the thread. *)
(* src/muduo/base/Thread.cc:34-53 Thread::runInThread, the function *)
Definition run_func (e : ending) (t : Thread) : Thread :=
  let t := mkThread (tid_ t) (name_ t) TDone (owner t) (t_names t) (S (calls t)) (stopped t) in
  match e with
  | Returns => setName (str "finished") t
  | _ =>
      let t := setName (str "crashed") t in
      mkThread (tid_ t) (name_ t) (thread_ t) (owner t) (t_names t) (calls t) true
  end.

(** [bad]: the function may throw. *)
Inductive thread_step (bad : bool) (t : Thread) : Thread → Prop :=
| ts_start t' : owner t = OFresh → start t = Ok t' → thread_step bad t t'
| ts_started t' : owner t = OStarting → start_waited t = Some (Ok t') → thread_step bad t t'
| ts_join t' : owner t = OStarted → join t = Some (Ok t') → thread_step bad t t'
| ts_destroy t' : owner t ∈ [OFresh; OStarted; OJoined] → destroy t = Some t' → thread_step bad t t'
| ts_tid tid : thread_ t = TSpawned → 0 < tid → thread_step bad t (run_tid tid t)
| ts_name : thread_ t = TRunning → thread_step bad t (run_name t)
| ts_func e : thread_ t = TNamed → (e ≠ Returns → bad = true) → thread_step bad t (run_func e t).

(** The process stops with the first exception. *)
Inductive thread_reachable (bad : bool) (t0 : Thread) : Thread → Prop :=
| tr_new : thread_reachable bad t0 t0
| tr_step t t' : thread_reachable bad t0 t → stopped t = false → thread_step bad t t' → thread_reachable bad t0 t'.

Definition shown_name (t : Thread) : bytes := if bool_decide (name_ t = []) then str "muduoThread" else name_ t.

(** What each place means. *)
Definition thread_ok (t : Thread) : Prop :=
  match thread_ t with
  | TNone => owner t ∈ [OFresh; OGone] ∧ tid_ t = 0 ∧ t_names t = [] ∧ calls t = 0%nat
  | TSpawned => owner t = OStarting ∧ tid_ t = 0 ∧ t_names t = [] ∧ calls t = 0%nat
  | TRunning => owner t ∈ [OStarting; OStarted] ∧ 0 < tid_ t ∧ t_names t = [] ∧ calls t = 0%nat
  | TNamed => owner t ∈ [OStarting; OStarted] ∧ 0 < tid_ t ∧ t_names t = [shown_name t] ∧ calls t = 0%nat
  | TDone => owner t ∈ [OStarting; OStarted; OJoined; OGone] ∧ 0 < tid_ t ∧
             t_names t = [shown_name t; if stopped t then str "crashed" else str "finished"] ∧ calls t = 1%nat
  end ∧ (stopped t = true → thread_ t = TDone ∧ owner t ∈ [OStarting; OStarted]).

Lemma thread_ok_new n name : thread_ok (newThread n name).
Proof. split; [|done]. split; [by left|done]. Qed.

(** Whether a given place is one of a list of places. *)
Ltac at_place :=
  first [done | by apply (bool_decide_unpack _) |
         match goal with H : ?o ∈ ?l |- _ =>
           exfalso; refine (bool_decide_unpack (¬ (o ∈ l)) _ H); vm_compute; exact I end].

Lemma thread_ok_step bad t t' : thread_ok t → stopped t = false → thread_step bad t t' → thread_ok t'.
Proof.
  intros [Hok _] Hst Hs. destruct t as [tid name th o names n st]. cbn in Hst. subst st.
  destruct Hs as [t' Ho He|t' Ho He|t' Ho He|t' Ho He|tid' Ht Htid|Ht|e Ht He]; cbn in *; subst.
  - unfold start, started in He. cbn in He. destruct (0 <? tid) eqn:Et; [done|]. injection He as <-.
    destruct th; cbn in *; (split; [|done]); destruct Hok as (Ho & Htid & ?); first [done | exfalso; at_place].
  - unfold start_waited in He. cbn in He. destruct (Z.eqb_spec tid 0) as [|Hne]; [done|].
    destruct (0 <? tid); [|done]. injection He as <-.
    destruct th; cbn in *; split; try done; destruct Hok as (Ho & Htid & Hn & Hc); try done; split_and!; try done; at_place.
  - destruct th; cbv in He; try done. injection He as <-.
    cbn in *. split; [|done]. destruct Hok as (_ & ? & ? & ?). split_and!; try done. at_place.
  - destruct th, o; cbv in He; try done; injection He as <-; cbn in *; split; try done;
      destruct Hok as (? & ? & ? & ?); split_and!; at_place.
  - split; [|done]. destruct Hok as (-> & _ & -> & ->). split_and!; [at_place|done..].
  - split; [|done]. destruct Hok as (? & ? & -> & ->). done.
  - destruct Hok as (Ho & ? & -> & ->).
    assert (o ∈ [OStarting; OStarted; OJoined; OGone]) as Ho' by (destruct o; at_place).
    destruct e; cbn; (split; [split_and!; done|done]).
Qed.

Lemma thread_reachable_ok bad n name t :
  thread_reachable bad (newThread n name) t → thread_ok t ∧ name_ t = snd (setDefaultName n name).
Proof.
  induction 1 as [|t t' _ [IH1 IH2] Hst Hs]; [split; [apply thread_ok_new|done]|].
  split; [by eapply thread_ok_step|]. rewrite <- IH2. clear IH1 IH2.
  destruct Hs as [t' Ho He|t' Ho He|t' Ho He|t' Ho He|tid' Ht Htid|Ht|e Ht He]; try done.
  - unfold start in He. by destruct (started t); [|injection He as <-].
  - unfold start_waited in He. destruct (tid_ t =? 0); [done|]. by destruct (0 <? tid_ t); [injection He as <-|].
  - unfold join in He. destruct (joinable t); [|done]. case_bool_decide; [|done]. by injection He as <-.
  - unfold destroy in He. destruct (_ && _); [done|]. by injection He as <-.
  - by destruct e.
Qed.

(** The steps that are left. *)
Definition thread_rest (w : thread_at) : nat :=
  match w with TNone => 4 | TSpawned => 3 | TRunning => 2 | TNamed => 1 | TDone => 0 end.
Definition owner_rest (o : owner_at) : nat :=
  match o with OFresh => 4 | OStarting => 3 | OStarted => 2 | OJoined => 1 | OGone => 0 end.
Definition steps_rest (t : Thread) : nat := (thread_rest (thread_ t) + owner_rest (owner t))%nat.

Lemma steps_rest_less bad t t' : thread_ok t → thread_step bad t t' → (steps_rest t' < steps_rest t)%nat.
Proof.
  intros [Hok _] Hs. destruct t as [tid name th o names n st]. unfold steps_rest.
  destruct Hs as [t' Ho He|t' Ho He|t' Ho He|t' Ho He|tid' Ht Htid|Ht|e Ht He].
  - unfold start in He. destruct (started _); [done|]. injection He as <-. cbn in *. subst o.
    destruct th; cbn; try lia; destruct Hok as [Ho _]; at_place.
  - unfold start_waited in He. cbn in *. destruct (tid =? 0); [done|]. destruct (0 <? tid); [|done].
    injection He as <-. subst o. cbn. lia.
  - unfold join in He. cbn in Ho. subst o. destruct (joinable _); [|done]. case_bool_decide; [|done].
    injection He as <-. cbn. lia.
  - unfold destroy in He. destruct (_ && _); [done|]. injection He as <-. cbn in *.
    destruct o; cbn; try lia; at_place.
  - cbn in *. subst th. cbn. lia.
  - cbn in *. subst th. cbn. lia.
  - cbn in Ht. subst th. destruct e; cbn; lia.
Qed.

(** Unless the process stopped or the object is gone, somebody can go on. *)
Lemma next_step_enabled bad t :
  thread_ok t → stopped t = false → owner t = OGone ∨ ∃ t', thread_step bad t t'.
Proof.
  intros [Hok _] Hst. destruct t as [tid name th o names n st]. cbn in Hst. subst st.
  destruct th; cbn in Hok.
  - destruct Hok as (Ho & -> & _). destruct o; try (exfalso; at_place); [right|by left].
    eexists. by apply ts_start.
  - right. eexists. by apply (ts_tid _ _ 1).
  - right. eexists. by apply ts_name.
  - right. eexists. by apply (ts_func _ _ Returns).
  - destruct Hok as (Ho & Ht & _). destruct o; try (exfalso; at_place); [right..|by left].
    + eexists. apply ts_started; [done|]. unfold start_waited. cbn.
      by rewrite (proj2 (Z.eqb_neq _ _)), (proj2 (Z.ltb_lt 0 _)) by lia.
    + eexists. by apply ts_join.
    + eexists. apply ts_destroy; [at_place|done].
Qed.

(** The life of a thread. However the owner and the new thread interleave:
    the asserts of [start()] and [join()] pass; when [start()] has returned the
    thread has a positive id; its function is called at most once, under the
    name the thread was given (or its default name), and when it returns the
    thread is called "finished"; when [join()] or the destructor of a started
    thread has returned, it has returned, and when it throws the process stops
    with the thread called "crashed". Every step leaves fewer of the eight
    steps, and unless the process stopped somebody can go on until the object
    is gone. *)
Theorem thread_lifecycle bad n name t :
  let t0 := newThread n name in
  thread_reachable bad t0 t →
  (owner t = OFresh → ∃ t', start t = Ok t') ∧
  (owner t = OStarting → start_waited t = None ∨ ∃ t', start_waited t = Some (Ok t')) ∧
  (owner t = OStarted → join t = None ∨ ∃ t', join t = Some (Ok t')) ∧
  (owner t = OStarted ∨ owner t = OJoined → started t = true) ∧
  ((calls t ≤ 1)%nat ∧ t_names t `prefix_of` [name_ t0; if stopped t then str "crashed" else str "finished"]) ∧
  (owner t = OJoined ∨ owner t = OGone ∧ started t = true →
     calls t = 1%nat ∧ stopped t = false ∧ current_name t = str "finished") ∧
  (stopped t = true → calls t = 1%nat ∧ current_name t = str "crashed") ∧
  (∀ t', thread_step bad t t' → (steps_rest t' < steps_rest t ≤ 8)%nat) ∧
  (stopped t = false → owner t = OGone ∨ ∃ t', thread_step bad t t').
Proof.
  intros t0 Hr. destruct (thread_reachable_ok _ _ _ _ Hr) as [Hok Hname].
  assert (shown_name t = name_ t0) as Hshown.
  { unfold shown_name. rewrite bool_decide_false; [done|]. rewrite Hname. unfold setDefaultName. cbn.
    by case_bool_decide. }
  assert (∀ t', thread_step bad t t' → (steps_rest t' < steps_rest t ≤ 8)%nat) as Hless.
  { intros t' Hs. split; [by eapply steps_rest_less|]. unfold steps_rest. destruct (thread_ t), (owner t); cbn; lia. }
  pose proof (next_step_enabled bad t Hok) as Hen. destruct Hok as [Hat Hstop]. rewrite Hshown in Hat.
  clear Hr Hname Hshown. generalize dependent (name_ t0). clear t0. intros shown Hat.
  unfold start, start_waited, join, joinable, started, current_name.
  destruct t as [tid nm th o names k st]; cbn in *.
  assert (st = true → th = TDone ∧ (o = OStarting ∨ o = OStarted)) as Hst.
  { intros H. destruct (Hstop H) as [-> Ho]. split; [done|]. by apply elem_of_cons in Ho as [?|?%list_elem_of_singleton]; [left|right]. }
  assert (tid =? 0 = negb (0 <? tid)) as Hz.
  { destruct th; destruct Hat as (_ & Ht & _); (destruct (Z.eqb_spec tid 0), (Z.ltb_spec 0 tid); done || lia). }
  rewrite Hz. clear Hstop Hz.
  assert ((0 <? tid) = match th with TNone | TSpawned => false | _ => true end) as Hb.
  { destruct th; destruct Hat as (_ & Ht & _); (by rewrite Ht) || by apply Z.ltb_lt. }
  rewrite Hb. clear Hb.
  destruct th; destruct Hat as (Ho & Ht & -> & ->); cbn [negb];
    (destruct o; try (exfalso; at_place)); (destruct st; [by destruct (Hst eq_refl) as [? [?|?]]|]) || idtac.
  all: split_and!; try done; try (by intros [?|?]); try (by intros [?|[? ?]]); try (by intros; eauto).
  all: first [by intros; left | by intros; right; eexists | by destruct st | by eexists].
Qed.

(** A function that returns; the owner joins it and destroys the object. *)
Definition sample_joined : Thread := set_owner OJoined (run_func Returns (run_name (run_tid 4711
  (set_owner OStarting (set_thread TSpawned (newThread 6 [])))))).

Lemma thread_lifecycle_witness :
  calls sample_joined = 1%nat ∧ stopped sample_joined = false ∧ current_name sample_joined = str "finished" ∧
  t_names sample_joined = [str "Thread7"; str "finished"].
Proof.
  assert (thread_reachable false (newThread 6 []) sample_joined) as Hr.
  - set (t1 := set_owner OStarting (set_thread TSpawned (newThread 6 []))).
    set (t2 := run_tid 4711 t1). set (t3 := set_owner OStarted t2). set (t4 := run_name t3). set (t5 := run_func Returns t4).
    apply (tr_step _ _ t5); [|done|by apply ts_join].
    apply (tr_step _ _ t4); [|done|by apply ts_func].
    apply (tr_step _ _ t3); [|done|by apply ts_name].
    apply (tr_step _ _ t2); [|done|by apply ts_started].
    apply (tr_step _ _ t1); [|done|by apply ts_tid].
    apply (tr_step _ _ (newThread 6 [])); [apply tr_new|done|by apply ts_start].
  - pose proof (thread_lifecycle false 6 [] sample_joined Hr) as (_ & _ & _ & _ & _ & H & _).
    destruct (H (or_introl eq_refl)) as (H1 & H2 & H3). by split_and!.
Defined.

(** [__cxa_demangle] for one name; a frame with a name, one without, and one
    the system does not know. *)
Definition sample_demangle (s : bytes) : option bytes := if bool_decide (s = str "_Z1fv") then Some (str "f()") else None.
Definition sample_symbols (_ : list Z) : option (list (option bytes)) :=
  Some [Some (str "./a(_Z1fv+0x12) [0x55]"); None; Some (str "./a(main+0x3) [0x66]"); Some (str "/lib/x [0x77]")].

Lemma stack_trace_text_witness :
  split_at Byte.x0a (stackTrace sample_symbols sample_demangle true [85; 102; 119; 136]) =
  [str "./a(f()+0x12) [0x55]"; str "./a(main+0x3) [0x66]"; str "/lib/x [0x77]"; []].
Proof.
  destruct (stack_trace_text sample_symbols sample_demangle [85; 102; 119; 136]
    [Some (str "./a(_Z1fv+0x12) [0x55]"); None; Some (str "./a(main+0x3) [0x66]"); Some (str "/lib/x [0x77]")])
    as (H & _); [done|done| |].
  - apply (bool_decide_unpack _). vm_compute. exact I.
  - etrans; [exact H|]. vm_compute. reflexivity.
Defined.
