(* ===== verification/Endian.v ===== *)
(** * Endian: byte order conversions ([muduo/net/Endian.h])

    The swaps are the portable bodies (the branch without [std::byteswap]);
    [std::endian::native] is the argument [e].  [object_bytes] is what
    [std::memcpy] reads from an integer object on such a machine. *)
From S2P Require Import Prelude.
From stdpp Require Import options.

Inductive endian : Set := little | big.

(* src/muduo/net/Endian.h:14-20 byteSwap16 *)
Definition byteSwap16 (value : Z) : Z :=
  wrap 16 (Z.lor (Z.shiftl value 8) (Z.shiftr value 8)).

(* src/muduo/net/Endian.h:22-29 byteSwap32 *)
Definition byteSwap32 (value : Z) : Z :=
  Z.lor (Z.lor (Z.lor
    (wrap 32 (Z.shiftl (Z.land value 0x000000FF) 24))
    (wrap 32 (Z.shiftl (Z.land value 0x0000FF00) 8)))
    (Z.shiftr (Z.land value 0x00FF0000) 8))
    (Z.shiftr (Z.land value 0xFF000000) 24).

(* src/muduo/net/Endian.h:31-44 byteSwap64 *)
Definition byteSwap64 (value : Z) : Z :=
  Z.lor (Z.lor (Z.lor (Z.lor (Z.lor (Z.lor (Z.lor
    (wrap 64 (Z.shiftl (Z.land value 0x00000000000000FF) 56))
    (wrap 64 (Z.shiftl (Z.land value 0x000000000000FF00) 40)))
    (wrap 64 (Z.shiftl (Z.land value 0x0000000000FF0000) 24)))
    (wrap 64 (Z.shiftl (Z.land value 0x00000000FF000000) 8)))
    (Z.shiftr (Z.land value 0x000000FF00000000) 8))
    (Z.shiftr (Z.land value 0x0000FF0000000000) 24))
    (Z.shiftr (Z.land value 0x00FF000000000000) 40))
    (Z.shiftr (Z.land value 0xFF00000000000000) 56).

(* src/muduo/net/Endian.h:46-51 hostToNetwork64 *)
Definition hostToNetwork64 (e : endian) (host64 : Z) : Z :=
  match e with little => byteSwap64 host64 | big => host64 end.

(* src/muduo/net/Endian.h:53-58 hostToNetwork32 *)
Definition hostToNetwork32 (e : endian) (host32 : Z) : Z :=
  match e with little => byteSwap32 host32 | big => host32 end.

(* src/muduo/net/Endian.h:60-65 hostToNetwork16 *)
Definition hostToNetwork16 (e : endian) (host16 : Z) : Z :=
  match e with little => byteSwap16 host16 | big => host16 end.

(* src/muduo/net/Endian.h:67-69 networkToHost64 *)
Definition networkToHost64 (e : endian) (net64 : Z) : Z := hostToNetwork64 e net64.

(* src/muduo/net/Endian.h:71-73 networkToHost32 *)
Definition networkToHost32 (e : endian) (net32 : Z) : Z := hostToNetwork32 e net32.

(* src/muduo/net/Endian.h:75-77 networkToHost16 *)
Definition networkToHost16 (e : endian) (net16 : Z) : Z := hostToNetwork16 e net16.

(** The bytes of an [n]-byte integer object, and the integer read back. *)
Definition object_bytes (e : endian) (n : nat) (z : Z) : bytes :=
  match e with little => le_bytes n z | big => be_bytes n z end.
Definition object_val (e : endian) (l : bytes) : Z :=
  match e with little => le_val l | big => be_val l end.

Lemma length_object_bytes e n z : length (object_bytes e n z) = n.
Proof. destruct e; [apply length_le_bytes|apply length_be_bytes]. Qed.

(** ** The swaps reverse the bytes *)

(** A masked and shifted byte, as a quotient: the shape of every term of the swaps. *)
Lemma land_byte value k :
  0 ≤ k → Z.land value (255 * 2 ^ (8 * k)) = ((value / 2 ^ (8 * k)) mod 256) * 2 ^ (8 * k).
Proof.
  intros Hk. rewrite <- !Z.shiftl_mul_pow2, <- Z.shiftr_div_pow2 by lia.
  change 256 with (2 ^ 8). rewrite <- Z.land_ones by lia. change (Z.ones 8) with 255.
  rewrite Z.shiftl_land, <- Z.ldiff_ones_r by lia.
  apply Z.bits_inj'. intros n Hn.
  rewrite !Z.land_spec, Z.ldiff_spec, Z.shiftl_spec by lia.
  destruct (Z.ltb_spec n (8 * k)).
  - rewrite (Z.testbit_neg_r 255) by lia. by rewrite !andb_false_r.
  - rewrite Z.ones_spec_high by lia. by rewrite andb_true_r.
Qed.

(** Disjoint bits: [|] is [+]. *)
Lemma lor_add_bytes a b k :
  0 ≤ k → 0 ≤ b < 2 ^ k → Z.lor (a * 2 ^ k) b = a * 2 ^ k + b.
Proof.
  intros Hk Hb. rewrite <- Z.shiftl_mul_pow2 by lia.
  assert (Z.land (Z.shiftl a k) b = 0) as H0.
  { apply Z.bits_inj'. intros n Hn. rewrite Z.land_spec, Z.bits_0.
    destruct (Z.ltb_spec n k); [by rewrite Z.shiftl_spec_low by lia|].
    rewrite <- (Z.mod_small b (2 ^ k)) by lia.
    rewrite Z.mod_pow2_bits_high by lia. apply andb_false_r. }
  by rewrite Z.add_nocarry_lxor, Z.lxor_lor.
Qed.

(** The [i]-th byte of a value. *)
Abbreviation byte_at v i := ((v / 2 ^ (8 * i)) mod 256).

Lemma byte_at_range v i : 0 ≤ byte_at v i < 256.
Proof. apply Z.mod_pos_bound. lia. Qed.

(** A term of a swap: the byte at [i] moved to [j]. *)
Lemma swap_up v i j w :
  0 ≤ i ≤ j → 8 * j + 8 ≤ w →
  wrap w (Z.shiftl (Z.land v (255 * 2 ^ (8 * i))) (8 * (j - i))) = byte_at v i * 2 ^ (8 * j).
Proof.
  intros Hi Hj. rewrite land_byte by lia. pose proof (byte_at_range v i).
  rewrite Z.shiftl_mul_pow2, <- Z.mul_assoc, <- Z.pow_add_r by lia.
  replace (8 * i + 8 * (j - i)) with (8 * j) by lia.
  apply wrap_small. split; [lia|].
  apply Z.lt_le_trans with (2 ^ 8 * 2 ^ (8 * j)); [nia|].
  rewrite <- Z.pow_add_r by lia. apply Z.pow_le_mono_r; lia.
Qed.

Lemma swap_down v i j :
  0 ≤ j ≤ i →
  Z.shiftr (Z.land v (255 * 2 ^ (8 * i))) (8 * (i - j)) = byte_at v i * 2 ^ (8 * j).
Proof.
  intros Hi. rewrite land_byte by lia. rewrite Z.shiftr_div_pow2 by lia.
  replace (2 ^ (8 * i)) with (2 ^ (8 * j) * 2 ^ (8 * (i - j))) at 2
    by (rewrite <- Z.pow_add_r by lia; f_equal; lia).
  by rewrite Z.mul_assoc, Z.div_mul by lia.
Qed.

(** One [|] of a swap: the next byte under the ones collected so far. *)
Lemma lor_horner a b k k' :
  k' = k + 8 → 0 ≤ k → 0 ≤ b < 256 → Z.lor (a * 2 ^ k') (b * 2 ^ k) = (a * 256 + b) * 2 ^ k.
Proof.
  intros -> Hk Hb. rewrite lor_add_bytes by (rewrite ?Z.pow_add_r by lia; nia).
  rewrite Z.pow_add_r by lia. change (2 ^ 8) with 256. ring.
Qed.

(** Collect the bytes of a list in the order of the list. *)
Fixpoint horner (acc : Z) (l : list Z) : Z :=
  match l with [] => acc | b :: l' => horner (acc * 256 + b) l' end.

Ltac swap_terms :=
  match goal with
  | |- context [wrap ?w (Z.shiftl (Z.land ?v ?m) ?s)] =>
      let i := eval vm_compute in (Z.log2 m / 8) in
      change (wrap w (Z.shiftl (Z.land v m) s)) with
        (wrap w (Z.shiftl (Z.land v (255 * 2 ^ (8 * i))) (8 * ((i + s / 8) - i))));
      rewrite (swap_up v i (i + s / 8) w) by (vm_compute; intuition discriminate)
  | |- context [Z.shiftr (Z.land ?v ?m) ?s] =>
      let i := eval vm_compute in (Z.log2 m / 8) in
      change (Z.shiftr (Z.land v m) s) with
        (Z.shiftr (Z.land v (255 * 2 ^ (8 * i))) (8 * (i - (i - s / 8))));
      rewrite (swap_down v i (i - s / 8)) by (vm_compute; intuition discriminate)
  end.
Ltac swap_sum :=
  repeat swap_terms;
  repeat match goal with |- context [2 ^ (8 * (?a + ?b / ?c))] =>
    let r := eval vm_compute in (8 * (a + b / c)) in
    change (2 ^ (8 * (a + b / c))) with (2 ^ r) end;
  repeat match goal with |- context [2 ^ (8 * (?a - ?b / ?c))] =>
    let r := eval vm_compute in (8 * (a - b / c)) in
    change (2 ^ (8 * (a - b / c))) with (2 ^ r) end;
  repeat match goal with |- context [Z.lor (?a * 2 ^ ?k') (?b * 2 ^ ?k)] =>
    rewrite (lor_horner a b k k') by first [reflexivity | apply byte_at_range | lia] end;
  rewrite Z.mul_1_r.

Lemma byteSwap32_sum v :
  byteSwap32 v = horner (byte_at v 0) [byte_at v 1; byte_at v 2; byte_at v 3].
Proof. unfold byteSwap32. swap_sum. done. Qed.

Lemma byteSwap64_sum v :
  byteSwap64 v = horner (byte_at v 0)
    [byte_at v 1; byte_at v 2; byte_at v 3; byte_at v 4; byte_at v 5; byte_at v 6; byte_at v 7].
Proof. unfold byteSwap64. swap_sum. done. Qed.

Lemma byteSwap16_sum v :
  0 ≤ v < 2 ^ 16 → byteSwap16 v = horner (byte_at v 0) [byte_at v 1].
Proof.
  intros Hv. unfold byteSwap16. cbn [horner].
  rewrite Z.shiftl_mul_pow2, Z.shiftr_div_pow2 by lia.
  change (8 * 0) with 0. change (8 * 1) with 8. rewrite Z.div_1_r.
  assert (0 ≤ v / 2 ^ 8 < 2 ^ 8) by
    (split; [apply Z.div_pos|apply Z.div_lt_upper_bound]; lia).
  rewrite lor_add_bytes by lia. rewrite (Z.mod_small (v / 2 ^ 8)) by lia.
  unfold wrap. change (2 ^ 16) with (2 ^ 8 * 256).
  symmetry. apply Z.mod_unique with (v / 256).
  - left. pose proof (Z.mod_pos_bound v 256). lia.
  - pose proof (Z.div_mod v 256). lia.
Qed.

Lemma byte_at_div v k : byte_val (byte_of (v / 2 ^ (8 * k))) = byte_at v k.
Proof. apply byte_val_of. Qed.

Lemma le_bytes_eq n x l :
  length l = n → x = le_val l → le_bytes n x = l.
Proof. intros <- ->. apply le_bytes_val. Qed.

Ltac swap_bytes :=
  apply le_bytes_eq; [done|]; cbn [be_bytes le_bytes rev app le_val];
  rewrite ?Z.div_div by lia; rewrite !byte_val_of;
  cbn [horner]; change (8 * 0) with 0; rewrite Z.div_1_r;
  repeat match goal with |- context [2 ^ (8 * ?k)] =>
    let r := eval vm_compute in (2 ^ (8 * k)) in change (2 ^ (8 * k)) with r end;
  repeat match goal with |- context [256 * Zpos ?k] =>
    let r := eval vm_compute in (256 * Zpos k) in change (256 * Zpos k) with r end;
  lia.

Lemma swap16_bytes x : 0 ≤ x < 2 ^ 16 → le_bytes 2 (byteSwap16 x) = be_bytes 2 x.
Proof. intros Hx. rewrite byteSwap16_sum by done. unfold be_bytes. swap_bytes. Qed.
Lemma swap32_bytes x : le_bytes 4 (byteSwap32 x) = be_bytes 4 x.
Proof. rewrite byteSwap32_sum. unfold be_bytes. swap_bytes. Qed.
Lemma swap64_bytes x : le_bytes 8 (byteSwap64 x) = be_bytes 8 x.
Proof. rewrite byteSwap64_sum. unfold be_bytes. swap_bytes. Qed.

Lemma byteSwap16_range v : 0 ≤ byteSwap16 v < 2 ^ 16.
Proof. apply wrap_range. lia. Qed.
Lemma byteSwap32_range v : 0 ≤ byteSwap32 v < 2 ^ 32.
Proof.
  rewrite byteSwap32_sum. cbn [horner].
  pose proof (byte_at_range v 0). pose proof (byte_at_range v 1).
  pose proof (byte_at_range v 2). pose proof (byte_at_range v 3). lia.
Qed.
Lemma byteSwap64_range v : 0 ≤ byteSwap64 v < 2 ^ 64.
Proof.
  rewrite byteSwap64_sum. cbn [horner].
  pose proof (byte_at_range v 0). pose proof (byte_at_range v 1).
  pose proof (byte_at_range v 2). pose proof (byte_at_range v 3).
  pose proof (byte_at_range v 4). pose proof (byte_at_range v 5).
  pose proof (byte_at_range v 6). pose proof (byte_at_range v 7). lia.
Qed.

(** Reading a swapped object is reading the bytes in the other order. *)
Lemma swapped_val n (y x : Z) :
  0 ≤ y < 256 ^ Z.of_nat n → le_bytes n y = be_bytes n x → y = be_val (le_bytes n x).
Proof.
  intros Hy E. rewrite <- (Z.mod_small y (256 ^ Z.of_nat n)) by done.
  by rewrite <- le_val_bytes, E.
Qed.

(** [std::memcpy] into an integer followed by the conversion to host order
    reads the bytes in network order, on both kinds of machines. *)
Lemma network16_val e l : length l = 2%nat → networkToHost16 e (object_val e l) = be_val l.
Proof.
  intros Hl. destruct e; [|done]. simpl.
  pose proof (le_val_range l) as Hr. rewrite Hl in Hr.
  rewrite (swapped_val 2 _ _ (byteSwap16_range _) (swap16_bytes _ Hr)).
  by rewrite <- Hl, le_bytes_val.
Qed.
Lemma network32_val e l : length l = 4%nat → networkToHost32 e (object_val e l) = be_val l.
Proof.
  intros Hl. destruct e; [|done]. simpl.
  rewrite (swapped_val 4 _ _ (byteSwap32_range _) (swap32_bytes _)).
  by rewrite <- Hl, le_bytes_val.
Qed.
Lemma network64_val e l : length l = 8%nat → networkToHost64 e (object_val e l) = be_val l.
Proof.
  intros Hl. destruct e; [|done]. simpl.
  rewrite (swapped_val 8 _ _ (byteSwap64_range _) (swap64_bytes _)).
  by rewrite <- Hl, le_bytes_val.
Qed.

Lemma network16_bytes e x :
  0 ≤ x < 2 ^ 16 → object_bytes e 2 (hostToNetwork16 e x) = be_bytes 2 x.
Proof. intros. destruct e; [by apply swap16_bytes|done]. Qed.
Lemma network32_bytes e x : object_bytes e 4 (hostToNetwork32 e x) = be_bytes 4 x.
Proof. destruct e; [apply swap32_bytes|done]. Qed.
Lemma network64_bytes e x : object_bytes e 8 (hostToNetwork64 e x) = be_bytes 8 x.
Proof. destruct e; [apply swap64_bytes|done]. Qed.

Lemma object_val_bytes e n x : 0 ≤ x < 256 ^ Z.of_nat n → object_val e (object_bytes e n x) = x.
Proof.
  intros. destruct e; simpl; rewrite ?le_val_bytes, ?be_val_bytes; by apply Z.mod_small.
Qed.

(** On a little- and on a big-endian machine alike, an unsigned integer
    converted with [hostToNetwork16/32/64] has the big-endian representation in
    memory, and [networkToHost16/32/64] converts it back to the same value. *)
Theorem network_order_roundtrip e x :
  (0 ≤ x < 2 ^ 16 →
     object_bytes e 2 (hostToNetwork16 e x) = be_bytes 2 x ∧
     networkToHost16 e (hostToNetwork16 e x) = x) ∧
  (0 ≤ x < 2 ^ 32 →
     object_bytes e 4 (hostToNetwork32 e x) = be_bytes 4 x ∧
     networkToHost32 e (hostToNetwork32 e x) = x) ∧
  (0 ≤ x < 2 ^ 64 →
     object_bytes e 8 (hostToNetwork64 e x) = be_bytes 8 x ∧
     networkToHost64 e (hostToNetwork64 e x) = x).
Proof.
  split_and!; intros Hx.
  - split; [by apply network16_bytes|].
    rewrite <- (object_val_bytes e 2 (hostToNetwork16 e x))
      by (destruct e; [apply byteSwap16_range|done]).
    rewrite network16_bytes, network16_val by (done || apply length_be_bytes).
    rewrite be_val_bytes. by apply Z.mod_small.
  - split; [by apply network32_bytes|].
    rewrite <- (object_val_bytes e 4 (hostToNetwork32 e x))
      by (destruct e; [apply byteSwap32_range|done]).
    rewrite network32_bytes, network32_val by (done || apply length_be_bytes).
    rewrite be_val_bytes. by apply Z.mod_small.
  - split; [by apply network64_bytes|].
    rewrite <- (object_val_bytes e 8 (hostToNetwork64 e x))
      by (destruct e; [apply byteSwap64_range|done]).
    rewrite network64_bytes, network64_val by (done || apply length_be_bytes).
    rewrite be_val_bytes. by apply Z.mod_small.
Qed.

Lemma network_order_roundtrip_witness :
  object_bytes little 4 (hostToNetwork32 little 0x01020304) = be_bytes 4 0x01020304 ∧
  networkToHost32 little (hostToNetwork32 little 0x01020304) = 0x01020304.
Proof. apply (network_order_roundtrip little 0x01020304). lia. Defined.
