(* ===== verification/Buffer.v ===== *)
(** * Buffer: the network byte buffer ([muduo/net/Buffer.h], [Buffer.cc])

    State and operations of [muduo::net::Buffer], with the indices in size_t
    arithmetic (64-bit wrap-around), the asserts, the length error of
    [std::vector::resize] and the bounds of every copy.  Pointers into the
    buffer are offsets from [begin()].  The second half gives the abstract
    contract, a byte queue, and the proof that every operation implements it. *)
From S2P Require Import Prelude Endian.
From stdpp Require Import options.

(* src/muduo/net/Buffer.h:328-330 Buffer *)
Record Buffer := mkBuffer {
  buffer_ : bytes;
  readerIndex_ : Z;
  writerIndex_ : Z
}.

(* src/muduo/net/Buffer.h:25-25 kCheapPrepend *)
Definition kCheapPrepend : Z := 8.
(* src/muduo/net/Buffer.h:26-26 kInitialSize *)
Definition kInitialSize : Z := 1024.
(* src/muduo/net/Buffer.h:332-333 kCRLF *)
Definition kCRLF : bytes := [Byte.x0d; Byte.x0a].

(** [std::vector<std::byte>::max_size()] and [resize]. *)
Definition vector_max_size : Z := 2 ^ 63 - 1.
Definition vector_resize (n : Z) (v : bytes) : outcome bytes :=
  if vector_max_size <? n then Fault LengthError
  else Ok (take (Z.to_nat n) v ++ replicate (Z.to_nat (n - len v)) Byte.x00).

Section Accessors.
Context (b : Buffer).
(* src/muduo/net/Buffer.h:42-44 Buffer::readableBytes *)
Definition readableBytes : Z := size_t (writerIndex_ b - readerIndex_ b).
(* src/muduo/net/Buffer.h:45-47 Buffer::writableBytes *)
Definition writableBytes : Z := size_t (len (buffer_ b) - writerIndex_ b).
(* src/muduo/net/Buffer.h:48-48 Buffer::prependableBytes *)
Definition prependableBytes : Z := readerIndex_ b.
(* src/muduo/net/Buffer.h:50-52 Buffer::readableSpan *)
Definition readableSpan : bytes := slice (readerIndex_ b) readableBytes (buffer_ b).
(* src/muduo/net/Buffer.h:54-56 Buffer::writableSpan *)
Definition writableSpan : bytes := slice (writerIndex_ b) writableBytes (buffer_ b).
(* src/muduo/net/Buffer.h:58-58 Buffer::peek *)
Definition peek : Z := readerIndex_ b.
(* src/muduo/net/Buffer.h:59-62 Buffer::readableChars *)
Definition readableChars : bytes := readableSpan.
(* src/muduo/net/Buffer.h:176-179 Buffer::beginWrite *)
Definition beginWrite : Z := writerIndex_ b.
End Accessors.
#[global] Arguments readableBytes : simpl never.
#[global] Arguments writableBytes : simpl never.
#[global] Arguments prependableBytes : simpl never.

(* src/muduo/net/Buffer.h:28-34 Buffer::Buffer *)
Definition newBuffer (initialSize : Z) : outcome Buffer :=
  let! v := vector_resize (size_t (kCheapPrepend + initialSize)) [] in
  let b := mkBuffer v kCheapPrepend kCheapPrepend in
  assert! readableBytes b =? 0 ;;
  assert! writableBytes b =? initialSize ;;
  assert! prependableBytes b =? kCheapPrepend ;;
  Ok b.

(* src/muduo/net/Buffer.h:36-40 Buffer::swap *)
Definition swap (b rhs : Buffer) : Buffer * Buffer := (rhs, b).

(* src/muduo/net/Buffer.h:69-79 Buffer::findCRLF(start) *)
Definition findCRLF_from (start : Z) (b : Buffer) : outcome (option Z) :=
  assert! peek b <=? start ;;
  assert! start <=? beginWrite b ;;
  let haystack := slice start (beginWrite b - start) (buffer_ b) in
  Ok ((λ i, start + Z.of_nat i) <$> find_sub kCRLF haystack).

(* src/muduo/net/Buffer.h:64-67 Buffer::findCRLF *)
Definition findCRLF (b : Buffer) : outcome (option Z) := findCRLF_from (peek b) b.
(* src/muduo/net/Buffer.h:80-83 Buffer::findCRLFChars *)
Definition findCRLFChars (b : Buffer) : outcome (option Z) := findCRLF_from (peek b) b.

(* src/muduo/net/Buffer.h:87-96 Buffer::findEOL(start) *)
Definition findEOL_from (start : Z) (b : Buffer) : outcome (option Z) :=
  assert! peek b <=? start ;;
  assert! start <=? beginWrite b ;;
  let haystack := slice start (beginWrite b - start) (buffer_ b) in
  Ok ((λ i, start + Z.of_nat i) <$> find_byte Byte.x0a haystack).
(* src/muduo/net/Buffer.h:85-85 Buffer::findEOL *)
Definition findEOL (b : Buffer) : outcome (option Z) := findEOL_from (peek b) b.

(* src/muduo/net/Buffer.h:119-122 Buffer::retrieveAll *)
Definition retrieveAll (b : Buffer) : Buffer :=
  mkBuffer (buffer_ b) kCheapPrepend kCheapPrepend.

(* src/muduo/net/Buffer.h:98-105 Buffer::retrieve *)
Definition retrieve (n : Z) (b : Buffer) : outcome Buffer :=
  assert! n <=? readableBytes b ;;
  if n <? readableBytes b
  then Ok (mkBuffer (buffer_ b) (size_t (readerIndex_ b + n)) (writerIndex_ b))
  else Ok (retrieveAll b).

(* src/muduo/net/Buffer.h:107-112 Buffer::retrieveUntil *)
Definition retrieveUntil (end_ : Z) (b : Buffer) : outcome Buffer :=
  assert! peek b <=? end_ ;;
  assert! end_ <=? beginWrite b ;;
  retrieve (size_t (end_ - peek b)) b.

(* src/muduo/net/Buffer.h:114-117 Buffer::retrieveInt64/32/16/8 *)
Definition retrieveInt (n : nat) (b : Buffer) : outcome Buffer := retrieve (Z.of_nat n) b.

(* src/muduo/net/Buffer.h:128-133 Buffer::retrieveAsString *)
Definition retrieveAsString (n : Z) (b : Buffer) : outcome (bytes * Buffer) :=
  assert! n <=? readableBytes b ;;
  let result := slice (peek b) n (buffer_ b) in
  let! b' := retrieve n b in
  Ok (result, b').

(* src/muduo/net/Buffer.h:124-126 Buffer::retrieveAllAsString *)
Definition retrieveAllAsString (b : Buffer) : outcome (bytes * Buffer) :=
  retrieveAsString (readableBytes b) b.

(* src/muduo/net/Buffer.h:313-326 Buffer::makeSpace *)
Definition makeSpace (n : Z) (b : Buffer) : outcome Buffer :=
  if size_t (writableBytes b + prependableBytes b) <? size_t (n + kCheapPrepend) then
    let! v := vector_resize (size_t (writerIndex_ b + n)) (buffer_ b) in
    Ok (mkBuffer v (readerIndex_ b) (writerIndex_ b))
  else
    assert! kCheapPrepend <? readerIndex_ b ;;
    let readable := readableBytes b in
    let! v := write_at kCheapPrepend (slice (readerIndex_ b) readable (buffer_ b)) (buffer_ b) in
    let b' := mkBuffer v kCheapPrepend (size_t (kCheapPrepend + readable)) in
    assert! readable =? readableBytes b' ;;
    Ok b'.

(* src/muduo/net/Buffer.h:169-174 Buffer::ensureWritableBytes *)
Definition ensureWritableBytes (n : Z) (b : Buffer) : outcome Buffer :=
  let! b' := (if writableBytes b <? n then makeSpace n b else Ok b) in
  assert! n <=? writableBytes b' ;;
  Ok b'.

(* src/muduo/net/Buffer.h:181-184 Buffer::hasWritten *)
Definition hasWritten (n : Z) (b : Buffer) : outcome Buffer :=
  assert! n <=? writableBytes b ;;
  Ok (mkBuffer (buffer_ b) (readerIndex_ b) (size_t (writerIndex_ b + n))).

(* src/muduo/net/Buffer.h:186-189 Buffer::unwrite *)
Definition unwrite (n : Z) (b : Buffer) : outcome Buffer :=
  assert! n <=? readableBytes b ;;
  Ok (mkBuffer (buffer_ b) (readerIndex_ b) (size_t (writerIndex_ b - n))).

(** [std::ranges::copy(data, beginWrite())]. *)
Definition copy_to_write (data : bytes) (b : Buffer) : outcome Buffer :=
  let! v := write_at (beginWrite b) data (buffer_ b) in
  Ok (mkBuffer v (readerIndex_ b) (writerIndex_ b)).

(* src/muduo/net/Buffer.h:145-167 Buffer::append *)
Definition append (data : bytes) (b : Buffer) : outcome Buffer :=
  let! b1 := ensureWritableBytes (len data) b in
  let! b2 := copy_to_write data b1 in
  hasWritten (len data) b2.

(* src/muduo/net/Buffer.h:281-289 Buffer::prepend *)
Definition prepend (data : bytes) (b : Buffer) : outcome Buffer :=
  assert! len data <=? prependableBytes b ;;
  let r := size_t (readerIndex_ b - len data) in
  let! v := write_at r data (buffer_ b) in
  Ok (mkBuffer v r (writerIndex_ b)).

(* src/muduo/net/Buffer.h:291-296 Buffer::shrink *)
Definition shrink (reserve : Z) (b : Buffer) : outcome Buffer :=
  let! other := newBuffer kInitialSize in
  let! other1 := ensureWritableBytes (size_t (readableBytes b + reserve)) other in
  let! other2 := append (readableSpan b) other1 in
  Ok (fst (swap b other2)).

(** ** Integers in network byte order *)
Section Integers.
Context (native : endian).

(* src/muduo/net/Buffer.h:191-195 Buffer::appendInt64 *)
Definition appendInt64 (x : Z) (b : Buffer) : outcome Buffer :=
  let be64 := swrap 64 (hostToNetwork64 native (wrap 64 x)) in
  append (object_bytes native 8 (wrap 64 be64)) b.
(* src/muduo/net/Buffer.h:197-201 Buffer::appendInt32 *)
Definition appendInt32 (x : Z) (b : Buffer) : outcome Buffer :=
  let be32 := swrap 32 (hostToNetwork32 native (wrap 32 x)) in
  append (object_bytes native 4 (wrap 32 be32)) b.
(* src/muduo/net/Buffer.h:203-207 Buffer::appendInt16 *)
Definition appendInt16 (x : Z) (b : Buffer) : outcome Buffer :=
  let be16 := swrap 16 (hostToNetwork16 native (wrap 16 x)) in
  append (object_bytes native 2 (wrap 16 be16)) b.
(* src/muduo/net/Buffer.h:209-209 Buffer::appendInt8 *)
Definition appendInt8 (x : Z) (b : Buffer) : outcome Buffer :=
  append (object_bytes native 1 (wrap 8 x)) b.

(* src/muduo/net/Buffer.h:235-240 Buffer::peekInt64 *)
Definition peekInt64 (b : Buffer) : outcome Z :=
  assert! 8 <=? readableBytes b ;;
  let be64 := object_val native (slice (peek b) 8 (buffer_ b)) in
  Ok (swrap 64 (networkToHost64 native be64)).
(* src/muduo/net/Buffer.h:242-247 Buffer::peekInt32 *)
Definition peekInt32 (b : Buffer) : outcome Z :=
  assert! 4 <=? readableBytes b ;;
  let be32 := object_val native (slice (peek b) 4 (buffer_ b)) in
  Ok (swrap 32 (networkToHost32 native be32)).
(* src/muduo/net/Buffer.h:249-254 Buffer::peekInt16 *)
Definition peekInt16 (b : Buffer) : outcome Z :=
  assert! 2 <=? readableBytes b ;;
  let be16 := object_val native (slice (peek b) 2 (buffer_ b)) in
  Ok (swrap 16 (networkToHost16 native be16)).
(* src/muduo/net/Buffer.h:256-259 Buffer::peekInt8 *)
Definition peekInt8 (b : Buffer) : outcome Z :=
  assert! 1 <=? readableBytes b ;;
  Ok (swrap 8 (object_val native (slice (peek b) 1 (buffer_ b)))).

(* src/muduo/net/Buffer.h:211-215 Buffer::readInt64 *)
Definition readInt64 (b : Buffer) : outcome (Z * Buffer) :=
  let! result := peekInt64 b in
  let! b' := retrieveInt 8 b in
  Ok (result, b').
(* src/muduo/net/Buffer.h:217-221 Buffer::readInt32 *)
Definition readInt32 (b : Buffer) : outcome (Z * Buffer) :=
  let! result := peekInt32 b in
  let! b' := retrieveInt 4 b in
  Ok (result, b').
(* src/muduo/net/Buffer.h:223-227 Buffer::readInt16 *)
Definition readInt16 (b : Buffer) : outcome (Z * Buffer) :=
  let! result := peekInt16 b in
  let! b' := retrieveInt 2 b in
  Ok (result, b').
(* src/muduo/net/Buffer.h:229-233 Buffer::readInt8 *)
Definition readInt8 (b : Buffer) : outcome (Z * Buffer) :=
  let! result := peekInt8 b in
  let! b' := retrieveInt 1 b in
  Ok (result, b').

(* src/muduo/net/Buffer.h:261-265 Buffer::prependInt64 *)
Definition prependInt64 (x : Z) (b : Buffer) : outcome Buffer :=
  let be64 := swrap 64 (hostToNetwork64 native (wrap 64 x)) in
  prepend (object_bytes native 8 (wrap 64 be64)) b.
(* src/muduo/net/Buffer.h:267-271 Buffer::prependInt32 *)
Definition prependInt32 (x : Z) (b : Buffer) : outcome Buffer :=
  let be32 := swrap 32 (hostToNetwork32 native (wrap 32 x)) in
  prepend (object_bytes native 4 (wrap 32 be32)) b.
(* src/muduo/net/Buffer.h:273-277 Buffer::prependInt16 *)
Definition prependInt16 (x : Z) (b : Buffer) : outcome Buffer :=
  let be16 := swrap 16 (hostToNetwork16 native (wrap 16 x)) in
  prepend (object_bytes native 2 (wrap 16 be16)) b.
(* src/muduo/net/Buffer.h:279-279 Buffer::prependInt8 *)
Definition prependInt8 (x : Z) (b : Buffer) : outcome Buffer :=
  prepend (object_bytes native 1 (wrap 8 x)) b.
End Integers.

(** ** Scatter read ([Buffer.cc]) *)

Definition extraBufferSize : Z := 65536.

(** What [::readv] returns: -1 with errno, or the bytes it stored. *)
Inductive read_result := ReadErr (errno : Z) | ReadOk (data : bytes).

(** The number of bytes the iovecs passed by [readFd] can take. *)
Definition readFd_capacity (b : Buffer) : Z :=
  if writableBytes b <? extraBufferSize then writableBytes b + extraBufferSize
  else writableBytes b.

(* src/muduo/net/Buffer.cc:10-38 Buffer::readFd *)
Definition readFd (res : read_result) (b : Buffer) : outcome (Z * option Z * Buffer) :=
  let writable := writableBytes b in
  match res with
  | ReadErr e => Ok (-1, Some e, b)
  | ReadOk data =>
      let n := len data in
      (* the kernel fills the writable part first, then extraBuffer *)
      let! v := write_at (writerIndex_ b) (take (Z.to_nat writable) data) (buffer_ b) in
      let extraBuffer := drop (Z.to_nat writable) data in
      if n <=? writable then
        Ok (n, None, mkBuffer v (readerIndex_ b) (size_t (writerIndex_ b + n)))
      else
        let b1 := mkBuffer v (readerIndex_ b) (len v) in
        let! b2 := append (take (Z.to_nat (n - writable)) extraBuffer) b1 in
        Ok (n, None, b2)
  end.

(** ** The abstract contract: a byte queue *)

(** The representation invariant. *)
Record wf (b : Buffer) : Prop := mkWf {
  wf_reader : 0 ≤ readerIndex_ b ≤ writerIndex_ b;
  wf_writer : writerIndex_ b ≤ len (buffer_ b);
  wf_min : kCheapPrepend ≤ len (buffer_ b);
  wf_size : len (buffer_ b) ≤ vector_max_size
}.

(** The abstract value: the readable bytes. *)
Definition content (b : Buffer) : bytes :=
  slice (readerIndex_ b) (writerIndex_ b - readerIndex_ b) (buffer_ b).

Ltac wf_facts b :=
  let H1 := fresh in let H2 := fresh in let H3 := fresh in let H4 := fresh in
  match goal with H : wf b |- _ =>
    pose proof (wf_reader b H) as H1; pose proof (wf_writer b H) as H2;
    pose proof (wf_size b H) as H3; pose proof (wf_min b H) as H4;
    unfold vector_max_size in H3; unfold kCheapPrepend in H4 end.

Ltac wf_split :=
  split; simpl; unfold vector_max_size, kCheapPrepend in *; lia.

Section Facts.
Context (b : Buffer) (Hwf : wf b).

Lemma readable_eq : readableBytes b = writerIndex_ b - readerIndex_ b.
Proof using Hwf. wf_facts b. unfold readableBytes. apply wrap_small. lia. Qed.
Lemma writable_eq : writableBytes b = len (buffer_ b) - writerIndex_ b.
Proof using Hwf. wf_facts b. unfold writableBytes. apply wrap_small. lia. Qed.
Lemma readableSpan_eq : readableSpan b = content b.
Proof using Hwf. unfold readableSpan, content. by rewrite readable_eq. Qed.
Lemma len_content : len (content b) = readableBytes b.
Proof using Hwf. wf_facts b. rewrite readable_eq. apply len_slice; lia. Qed.
Lemma readable_len : readableBytes b = len (content b).
Proof using Hwf. by rewrite len_content. Qed.
Lemma readable_nonneg : 0 ≤ readableBytes b.
Proof using Hwf. wf_facts b. rewrite readable_eq. lia. Qed.
Lemma writer_eq : writerIndex_ b = readerIndex_ b + len (content b).
Proof using Hwf. rewrite len_content, readable_eq. lia. Qed.
End Facts.

Create Rewrite HintDb buffer.
#[export] Hint Rewrite readable_eq writable_eq using done : buffer.

Lemma vector_resize_ok n v :
  len v ≤ n ≤ vector_max_size →
  ensures (vector_resize n v) (λ v', len v' = n ∧ ∀ o k, 0 ≤ o → 0 ≤ k → o + k ≤ len v →
    slice o k v' = slice o k v).
Proof.
  intros [H1 H2]. unfold vector_resize.
  destruct (Z.ltb_spec vector_max_size n); [lia|]. simpl. unfold len in *.
  rewrite take_ge by lia. split.
  - rewrite length_app, length_replicate. lia.
  - intros. apply slice_app_l; unfold len; lia.
Qed.

Lemma newBuffer_ok n :
  0 ≤ n ≤ vector_max_size - 8 →
  ensures (newBuffer n) (λ b, wf b ∧ content b = [] ∧ prependableBytes b = kCheapPrepend ∧
                             writableBytes b = n).
Proof.
  intros Hn. unfold newBuffer, kCheapPrepend, vector_max_size in *.
  rewrite wrap_small by lia.
  eapply ensures_bind; [apply vector_resize_ok; unfold vector_max_size, len; simpl length; lia|].
  intros v [Hv _]. cbv beta zeta.
  assert (wf (mkBuffer v 8 8)) as Hwf by
    (wf_split).
  apply ensures_assert; [rewrite readable_eq by done; done|].
  apply ensures_assert; [rewrite writable_eq by done; simpl; lia|].
  simpl. split_and!; auto. rewrite writable_eq by done. simpl. lia.
Qed.

(** Buffers that extend another one without moving it. *)
Lemma grown_ok b v :
  wf b → len (buffer_ b) ≤ len v ≤ vector_max_size →
  (∀ o k, 0 ≤ o → 0 ≤ k → o + k ≤ len (buffer_ b) → slice o k v = slice o k (buffer_ b)) →
  let b' := mkBuffer v (readerIndex_ b) (writerIndex_ b) in
  wf b' ∧ content b' = content b.
Proof.
  intros Hwf Hv Hs b'. wf_facts b. split.
  - wf_split.
  - apply Hs; simpl; lia.
Qed.

Lemma makeSpace_ok n b :
  wf b → writableBytes b < n → writerIndex_ b + n ≤ vector_max_size →
  ensures (makeSpace n b) (λ b', wf b' ∧ content b' = content b ∧ n ≤ writableBytes b' ∧
    (readerIndex_ b' = readerIndex_ b ∨ readerIndex_ b' = kCheapPrepend) ∧
    writerIndex_ b' ≤ writerIndex_ b).
Proof.
  intros Hwf Hlt Hmax. wf_facts b. rewrite writable_eq in Hlt by done.
  unfold makeSpace, prependableBytes, kCheapPrepend.
  rewrite writable_eq, !wrap_small by (done || (unfold vector_max_size in *; lia)).
  destruct (Z.ltb_spec (len (buffer_ b) - writerIndex_ b + readerIndex_ b) (n + 8)).
  - eapply ensures_bind; [apply vector_resize_ok; lia|].
    intros v [Hv Hs]. simpl.
    destruct (grown_ok b v) as [Hw Hc]; [done|lia|done|].
    split_and!; auto; [|lia]. rewrite writable_eq by done. simpl. lia.
  - apply ensures_assert; [apply Z.ltb_lt; lia|].
    cbv zeta. rewrite (readable_eq b) by done. fold (content b).
    pose proof (len_content b Hwf) as Hlen. rewrite readable_eq in Hlen by done.
    eapply ensures_bind; [apply write_at_ok; rewrite ?Hlen; lia|].
    intros v (Hv & Hd & _ & _). rewrite wrap_small by lia.
    set (b' := mkBuffer v 8 _).
    assert (wf b') as Hw by (wf_split).
    apply ensures_assert; [rewrite (readable_eq b') by done; subst b'; simpl; lia|].
    simpl. split_and!; auto.
    + rewrite Hlen in Hd. rewrite <- Hd. unfold content at 1. subst b'. simpl. f_equal. lia.
    + rewrite (writable_eq b') by done. subst b'. simpl. lia.
    + simpl. lia.
Qed.

(** What an operation that may move the content leaves alone. *)
Definition moved (b b' : Buffer) : Prop :=
  (readerIndex_ b' = readerIndex_ b ∨ readerIndex_ b' = kCheapPrepend) ∧
  writerIndex_ b' ≤ writerIndex_ b.

Lemma ensureWritableBytes_ok n b :
  wf b → 0 ≤ n → writerIndex_ b + n ≤ vector_max_size →
  ensures (ensureWritableBytes n b) (λ b', wf b' ∧ content b' = content b ∧
    n ≤ writableBytes b' ∧ moved b b').
Proof.
  intros Hwf Hn Hmax. unfold ensureWritableBytes, moved.
  eapply (ensures_bind _ _ (λ b', wf b' ∧ content b' = content b ∧ n ≤ writableBytes b' ∧
    moved b b')).
  - destruct (Z.ltb_spec (writableBytes b) n).
    + eapply ensures_mono; [by apply makeSpace_ok|]. unfold moved. naive_solver.
    + simpl. unfold moved. split_and!; auto. lia.
  - intros b' (Hw & Hc & Hle & Hm).
    apply ensures_assert; [by apply Z.leb_le|]. simpl. done.
Qed.

Lemma hasWritten_ok n b :
  wf b → 0 ≤ n ≤ writableBytes b →
  ensures (hasWritten n b) (λ b', wf b' ∧ readerIndex_ b' = readerIndex_ b ∧
    buffer_ b' = buffer_ b ∧ writerIndex_ b' = writerIndex_ b + n).
Proof.
  intros Hwf Hn. unfold hasWritten.
  apply ensures_assert; [apply Z.leb_le; lia|].
  rewrite writable_eq in Hn by done. wf_facts b.
  rewrite wrap_small by lia. simpl. split_and!; [|done..].
  wf_split.
Qed.

(** Filling space that is there. *)
Lemma append_room_ok data b :
  wf b → len data ≤ writableBytes b →
  ensures (let! b2 := copy_to_write data b in hasWritten (len data) b2)
    (λ b', wf b' ∧ content b' = content b ++ data ∧
      readerIndex_ b' = readerIndex_ b ∧ writerIndex_ b' = writerIndex_ b + len data).
Proof.
  intros Hwf1 Hroom. pose proof (len_nonneg data). rewrite writable_eq in Hroom by done. wf_facts b.
  eapply (ensures_bind _ _ (λ b2, wf b2 ∧ content b2 = content b ∧
    readerIndex_ b2 = readerIndex_ b ∧ writerIndex_ b2 = writerIndex_ b ∧
    len data ≤ writableBytes b2 ∧ slice (writerIndex_ b2) (len data) (buffer_ b2) = data)).
  - unfold copy_to_write, beginWrite.
    eapply ensures_bind; [apply write_at_ok; lia|].
    intros v (Hv & Hd & Hlo & _). simpl.
    assert (wf (mkBuffer v (readerIndex_ b) (writerIndex_ b))) as Hw2 by (wf_split).
    split_and!; auto.
    + apply Hlo; simpl; lia.
    + rewrite writable_eq by done. simpl. lia.
  - intros b2 (Hw2 & Hc2 & Hr2 & Hwr2 & Hroom2 & Hs2).
    eapply ensures_mono; [apply hasWritten_ok; [done|lia]|].
    intros b' (Hw' & Hr' & Hb' & Hwr'). wf_facts b2.
    split_and!; auto; [|congruence|lia].
    rewrite <- Hc2. unfold content at 1. rewrite Hb', Hr', Hwr'.
    replace (writerIndex_ b2 + len data - readerIndex_ b2)
      with ((writerIndex_ b2 - readerIndex_ b2) + len data) by lia.
    rewrite slice_split by lia. fold (content b2).
    replace (readerIndex_ b2 + (writerIndex_ b2 - readerIndex_ b2))
      with (writerIndex_ b2) by lia.
    by rewrite Hs2.
Qed.

Lemma append_ok data b :
  wf b → writerIndex_ b + len data ≤ vector_max_size →
  ensures (append data b) (λ b', wf b' ∧ content b' = content b ++ data ∧
    (readerIndex_ b' = readerIndex_ b ∨ readerIndex_ b' = kCheapPrepend) ∧
    writerIndex_ b' ≤ writerIndex_ b + len data).
Proof.
  intros Hwf Hmax. unfold append. pose proof (len_nonneg data).
  eapply ensures_bind; [by apply ensureWritableBytes_ok|].
  intros b1 (Hw1 & Hc1 & Hroom & Hm).
  eapply ensures_mono; [by apply append_room_ok|].
  intros b' (Hw' & Hc' & Hr' & Hwr'). destruct Hm as [Hm1 Hm2].
  split_and!; [done|congruence|by rewrite Hr'|lia].
Qed.

(** Appending anything a program can hold: the content grows, or the vector
    would exceed its maximal size and refuses. *)
Lemma append_safe data b :
  wf b → len data ≤ vector_max_size →
  safely (append data b) (λ b', wf b' ∧ content b' = content b ++ data).
Proof.
  intros Hwf Hmax. unfold append. pose proof (len_nonneg data).
  eapply (safely_bind _ _ (λ b1, wf b1 ∧ content b1 = content b ∧ len data ≤ writableBytes b1)).
  2:{ intros b1 (Hw1 & Hc1 & Hroom). apply safely_ensures.
      eapply ensures_mono; [by apply append_room_ok|]. intros b' (? & ? & _). split; congruence. }
  destruct (Z.le_gt_cases (writerIndex_ b + len data) vector_max_size) as [Hle|Hgt].
  { apply safely_ensures. eapply ensures_mono; [by apply ensureWritableBytes_ok|]. naive_solver. }
  unfold ensureWritableBytes. wf_facts b. unfold vector_max_size in *.
  destruct (Z.ltb_spec (writableBytes b) (len data)) as [Hlt|Hge];
    [|rewrite writable_eq in Hge by done; lia].
  eapply (safely_bind _ _ (λ b1, wf b1 ∧ content b1 = content b ∧ len data ≤ writableBytes b1)).
  2:{ intros b1 Hb1. rewrite (proj2 (Z.leb_le _ _)) by apply Hb1. done. }
  rewrite writable_eq in Hlt by done. unfold makeSpace, prependableBytes, kCheapPrepend.
  rewrite writable_eq, !wrap_small by (done || lia).
  destruct (Z.ltb_spec (len (buffer_ b) - writerIndex_ b + readerIndex_ b) (len data + 8)) as [Hs|Hs].
  { unfold vector_resize, vector_max_size. destruct (Z.ltb_spec (2 ^ 63 - 1) (writerIndex_ b + len data)); [done|lia]. }
  apply safely_ensures. apply ensures_assert; [apply Z.ltb_lt; lia|].
  cbv zeta. rewrite (readable_eq b) by done. fold (content b).
  pose proof (len_content b Hwf) as Hlen. rewrite readable_eq in Hlen by done.
  eapply ensures_bind; [apply write_at_ok; rewrite ?Hlen; lia|].
  intros v (Hv & Hd & _ & _). rewrite wrap_small by lia.
  set (b' := mkBuffer v 8 _).
  assert (wf b') as Hw by (wf_split).
  apply ensures_assert; [rewrite (readable_eq b') by done; subst b'; simpl; lia|].
  simpl. split_and!; auto.
  - rewrite Hlen in Hd. rewrite <- Hd. unfold content at 1. subst b'. simpl. f_equal. lia.
  - rewrite (writable_eq b') by done. subst b'. simpl. lia.
Qed.

Lemma retrieve_ok n b :
  wf b → 0 ≤ n ≤ len (content b) →
  ensures (retrieve n b) (λ b', wf b' ∧ content b' = drop (Z.to_nat n) (content b) ∧
    writerIndex_ b' ≤ Z.max kCheapPrepend (writerIndex_ b)).
Proof.
  intros Hwf Hn. wf_facts b. unfold retrieve.
  rewrite readable_len by done.
  apply ensures_assert; [apply Z.leb_le; lia|].
  destruct (Z.ltb_spec n (len (content b))); simpl.
  - pose proof (len_content b Hwf) as Hl. rewrite readable_eq in Hl by done.
    rewrite wrap_small by lia. split_and!.
    + wf_split.
    + unfold content. simpl. rewrite drop_slice by lia. f_equal. lia.
    + lia.
  - split_and!.
    + wf_split.
    + unfold content at 1. simpl. rewrite Z.sub_diag, slice_nil.
      rewrite drop_ge; [done|]. unfold len in *. lia.
    + lia.
Qed.

Lemma prepend_ok data b :
  wf b → len data ≤ prependableBytes b →
  ensures (prepend data b) (λ b', wf b' ∧ content b' = data ++ content b ∧
    writerIndex_ b' = writerIndex_ b ∧ len (buffer_ b') = len (buffer_ b)).
Proof.
  intros Hwf Hp. wf_facts b. unfold prepend.
  apply ensures_assert; [by apply Z.leb_le|]. unfold prependableBytes in Hp.
  pose proof (len_nonneg data). rewrite wrap_small by lia. cbv zeta.
  eapply ensures_bind; [apply write_at_ok; lia|].
  intros v (Hv & Hd & _ & Hhi). simpl. split_and!; auto.
  - wf_split.
  - unfold content. simpl.
    replace (writerIndex_ b - (readerIndex_ b - len data))
      with (len data + (writerIndex_ b - readerIndex_ b)) by lia.
    rewrite slice_split by lia. rewrite Hd. f_equal.
    rewrite Hhi by lia. f_equal. lia.
Qed.

Lemma unwrite_ok n b :
  wf b → 0 ≤ n ≤ len (content b) →
  ensures (unwrite n b) (λ b', wf b' ∧
    content b' = take (Z.to_nat (len (content b) - n)) (content b)).
Proof.
  intros Hwf Hn. wf_facts b. unfold unwrite. rewrite readable_len by done.
  apply ensures_assert; [apply Z.leb_le; lia|].
  pose proof (len_content b Hwf) as Hl. rewrite readable_eq in Hl by done.
  rewrite wrap_small by lia. simpl. split.
  - wf_split.
  - unfold content at 1. simpl. unfold content at 2.
    rewrite take_slice by lia. f_equal. lia.
Qed.

Lemma shrink_ok reserve b :
  wf b → 0 ≤ reserve → len (content b) + reserve + 2048 ≤ vector_max_size →
  ensures (shrink reserve b) (λ b', wf b' ∧ content b' = content b).
Proof.
  intros Hwf Hr Hmax. unfold vector_max_size in Hmax. unfold shrink, kInitialSize.
  pose proof (len_nonneg (content b)).
  eapply ensures_bind; [apply newBuffer_ok; unfold vector_max_size; lia|].
  intros o (Hwo & Hco & Hp & _).
  assert (writerIndex_ o = 8) as Ho.
  { rewrite (writer_eq o), Hco by done. unfold prependableBytes, kCheapPrepend in Hp.
    rewrite Hp. done. }
  rewrite (readable_len b), wrap_small by (done || lia).
  eapply ensures_bind;
    [apply ensureWritableBytes_ok; [done|lia|rewrite Ho; unfold vector_max_size; lia]|].
  intros o1 (Hw1 & Hc1 & _ & _ & Hm1). rewrite readableSpan_eq by done.
  eapply ensures_bind;
    [apply append_ok; [done|unfold vector_max_size; lia]|].
  intros o2 (Hw2 & Hc2 & _). simpl. split; [done|]. by rewrite Hc2, Hc1, Hco.
Qed.

Lemma readFd_ok data b :
  wf b → len data ≤ readFd_capacity b → writerIndex_ b + len data ≤ vector_max_size →
  ensures (readFd (ReadOk data) b) (λ '(n, err, b'), n = len data ∧ err = None ∧
    wf b' ∧ content b' = content b ++ data).
Proof.
  intros Hwf Hcap Hmax. pose proof Hwf as Hwf0. wf_facts b. unfold readFd. cbv zeta.
  pose proof (len_nonneg data). rewrite (writable_eq b) by done.
  set (w := len (buffer_ b) - writerIndex_ b).
  assert (len (take (Z.to_nat w) data) = Z.min w (len data)) as Ht.
  { unfold len in *. rewrite length_take. unfold w in *. lia. }
  eapply ensures_bind; [apply write_at_ok; rewrite ?Ht; unfold w; lia|].
  intros v (Hv & Hd & Hlo & _). rewrite Ht in Hd.
  assert (content (mkBuffer v (readerIndex_ b) (writerIndex_ b)) = content b) as Hc0.
  { apply Hlo; simpl; lia. }
  assert (∀ k, k = Z.min w (len data) →
    content (mkBuffer v (readerIndex_ b) (writerIndex_ b + k)) =
    content b ++ take (Z.to_nat w) data) as Hcont.
  { intros k ->. rewrite <- Hc0, <- Hd. unfold content. simpl.
    replace (writerIndex_ b + Z.min w (len data) - readerIndex_ b) with
      ((writerIndex_ b - readerIndex_ b) + Z.min w (len data)) by lia.
    rewrite slice_split by (unfold w; lia).
    by replace (readerIndex_ b + (writerIndex_ b - readerIndex_ b)) with (writerIndex_ b) by lia. }
  destruct (Z.leb_spec (len data) w) as [Hle|Hgt]; simpl.
  - rewrite wrap_small by (unfold w in *; lia). split_and!; auto.
    + unfold w in *. wf_split.
    + rewrite Hcont by lia. f_equal. apply take_ge. unfold len in *. lia.
  - assert (wf (mkBuffer v (readerIndex_ b) (len v))) as Hw1 by wf_split.
    assert (len (drop (Z.to_nat w) data) = len data - w) as Hdr.
    { unfold len in *. rewrite length_drop. unfold w in *. lia. }
    rewrite (take_ge (drop _ _)) by (unfold len in *; lia).
    eapply ensures_bind; [apply append_ok; [done|simpl; rewrite Hdr; unfold w in *; lia]|].
    intros b2 (Hw2 & Hc2 & _). simpl. split_and!; auto.
    rewrite Hc2. rewrite <- (take_drop (Z.to_nat w) data) at 2. rewrite app_assoc. f_equal.
    rewrite <- (Hcont w) by lia. do 2 f_equal. unfold w. lia.
Qed.

(** ** Searching *)

Lemma haystack_eq b : wf b → slice (peek b) (beginWrite b - peek b) (buffer_ b) = content b.
Proof. done. Qed.

Lemma findCRLF_eq b :
  wf b → findCRLF b = Ok ((λ i, readerIndex_ b + Z.of_nat i) <$> find_sub kCRLF (content b)).
Proof.
  intros Hwf. wf_facts b. unfold findCRLF, findCRLF_from, peek, beginWrite.
  rewrite Z.leb_refl, (proj2 (Z.leb_le _ _)) by lia. done.
Qed.

Lemma findEOL_eq b :
  wf b → findEOL b = Ok ((λ i, readerIndex_ b + Z.of_nat i) <$> find_byte Byte.x0a (content b)).
Proof.
  intros Hwf. wf_facts b. unfold findEOL, findEOL_from, peek, beginWrite.
  rewrite Z.leb_refl, (proj2 (Z.leb_le _ _)) by lia. done.
Qed.

Lemma retrieveUntil_ok b k :
  wf b → 0 ≤ k ≤ len (content b) →
  ensures (retrieveUntil (readerIndex_ b + k) b)
    (λ b', wf b' ∧ content b' = drop (Z.to_nat k) (content b) ∧
      writerIndex_ b' ≤ Z.max kCheapPrepend (writerIndex_ b)).
Proof.
  intros Hwf Hk. wf_facts b. pose proof (writer_eq b Hwf).
  unfold retrieveUntil, peek, beginWrite.
  apply ensures_assert; [apply Z.leb_le; lia|].
  apply ensures_assert; [apply Z.leb_le; lia|].
  rewrite wrap_small by lia.
  replace (readerIndex_ b + k - readerIndex_ b) with k by lia.
  by apply retrieve_ok.
Qed.

(** ** Integers *)

Section IntegerFacts.
Context (native : endian).

Lemma appendInt_bytes x (b : Buffer) :
  appendInt64 native x b = append (be_bytes 8 (wrap 64 x)) b ∧
  appendInt32 native x b = append (be_bytes 4 (wrap 32 x)) b ∧
  appendInt16 native x b = append (be_bytes 2 (wrap 16 x)) b ∧
  appendInt8 native x b = append (be_bytes 1 (wrap 8 x)) b.
Proof.
  unfold appendInt64, appendInt32, appendInt16, appendInt8. cbv zeta.
  rewrite !wrap_swrap by lia.
  rewrite (wrap_small 64 (hostToNetwork64 native _)).
  2:{ destruct native; [apply byteSwap64_range|by apply wrap_range]. }
  rewrite (wrap_small 32 (hostToNetwork32 native _)).
  2:{ destruct native; [apply byteSwap32_range|by apply wrap_range]. }
  rewrite (wrap_small 16 (hostToNetwork16 native _)).
  2:{ destruct native; [apply byteSwap16_range|by apply wrap_range]. }
  rewrite network64_bytes, network32_bytes, network16_bytes by (apply wrap_range; lia).
  split_and!; auto. by destruct native.
Qed.

Lemma prependInt_bytes x (b : Buffer) :
  prependInt64 native x b = prepend (be_bytes 8 (wrap 64 x)) b ∧
  prependInt32 native x b = prepend (be_bytes 4 (wrap 32 x)) b ∧
  prependInt16 native x b = prepend (be_bytes 2 (wrap 16 x)) b ∧
  prependInt8 native x b = prepend (be_bytes 1 (wrap 8 x)) b.
Proof.
  unfold prependInt64, prependInt32, prependInt16, prependInt8. cbv zeta.
  rewrite !wrap_swrap by lia.
  rewrite (wrap_small 64 (hostToNetwork64 native _)).
  2:{ destruct native; [apply byteSwap64_range|by apply wrap_range]. }
  rewrite (wrap_small 32 (hostToNetwork32 native _)).
  2:{ destruct native; [apply byteSwap32_range|by apply wrap_range]. }
  rewrite (wrap_small 16 (hostToNetwork16 native _)).
  2:{ destruct native; [apply byteSwap16_range|by apply wrap_range]. }
  rewrite network64_bytes, network32_bytes, network16_bytes by (apply wrap_range; lia).
  split_and!; auto. by destruct native.
Qed.

Lemma head_slice b p rest k :
  wf b → content b = p ++ rest → k = len p → slice (peek b) k (buffer_ b) = p.
Proof.
  intros Hwf Hc ->. unfold peek. pose proof (len_content b Hwf) as Hl.
  rewrite Hc, len_app, readable_eq in Hl by done. pose proof (len_nonneg rest).
  pose proof (len_nonneg p).
  rewrite <- (take_slice (len p) (readerIndex_ b) (writerIndex_ b - readerIndex_ b)) by lia.
  fold (content b). rewrite Hc. unfold len. rewrite Nat2Z.id. by rewrite take_app_length.
Qed.

(** A reader of [n] bytes sees the integer at the front of the queue. *)
Lemma peekInt_ok b x rest :
  wf b →
  (content b = be_bytes 8 (wrap 64 x) ++ rest → peekInt64 native b = Ok (swrap 64 x)) ∧
  (content b = be_bytes 4 (wrap 32 x) ++ rest → peekInt32 native b = Ok (swrap 32 x)) ∧
  (content b = be_bytes 2 (wrap 16 x) ++ rest → peekInt16 native b = Ok (swrap 16 x)) ∧
  (content b = be_bytes 1 (wrap 8 x) ++ rest → peekInt8 native b = Ok (swrap 8 x)).
Proof.
  intros Hwf. unfold peekInt64, peekInt32, peekInt16, peekInt8.
  split_and!; intros Hc;
    rewrite (head_slice b _ _ _ Hwf Hc) by (unfold len; by rewrite length_be_bytes);
    rewrite readable_len, Hc, len_app by done; pose proof (len_nonneg rest);
    unfold len at 1; rewrite length_be_bytes;
    (rewrite (proj2 (Z.leb_le _ _)) by lia); simpl obind; f_equal.
  - rewrite network64_val, be_val_bytes by apply length_be_bytes.
    rewrite Z.mod_small by (apply (wrap_range 64); lia). apply swrap_wrap; lia.
  - rewrite network32_val, be_val_bytes by apply length_be_bytes.
    rewrite Z.mod_small by (apply (wrap_range 32); lia). apply swrap_wrap; lia.
  - rewrite network16_val, be_val_bytes by apply length_be_bytes.
    rewrite Z.mod_small by (apply (wrap_range 16); lia). apply swrap_wrap; lia.
  - transitivity (swrap 8 (be_val (be_bytes 1 (wrap 8 x)))); [by destruct native|].
    rewrite be_val_bytes, Z.mod_small by (apply (wrap_range 8); lia).
    apply swrap_wrap; lia.
Qed.
End IntegerFacts.

(** ** Refinement: every operation implements the byte queue *)

Inductive buffer_op : Type :=
| OpAppend (data : bytes)
| OpPrepend (data : bytes)
| OpRetrieve (n : Z)
| OpRetrieveAll
| OpUnwrite (n : Z)
| OpEnsureWritable (n : Z)
| OpShrink (reserve : Z)
| OpReadFd (data : bytes).

Definition exec_op (o : buffer_op) (b : Buffer) : outcome Buffer :=
  match o with
  | OpAppend data => append data b
  | OpPrepend data => prepend data b
  | OpRetrieve n => retrieve n b
  | OpRetrieveAll => Ok (retrieveAll b)
  | OpUnwrite n => unwrite n b
  | OpEnsureWritable n => ensureWritableBytes n b
  | OpShrink reserve => shrink reserve b
  | OpReadFd data => let! (_, _, b') := readFd (ReadOk data) b in Ok b'
  end.

(** The queue operation, [None] where the caller breaks the contract;
    [room] is the space in front of the queue. *)
Definition spec_op (room : Z) (o : buffer_op) (q : bytes) : option bytes :=
  match o with
  | OpAppend data | OpReadFd data => Some (q ++ data)
  | OpPrepend data => if len data <=? room then Some (data ++ q) else None
  | OpRetrieve n => if n <=? len q then Some (drop (Z.to_nat n) q) else None
  | OpRetrieveAll => Some []
  | OpUnwrite n => if n <=? len q then Some (take (Z.to_nat (len q - n)) q) else None
  | OpEnsureWritable _ | OpShrink _ => Some q
  end.

(** Arguments within the address space: sizes are unsigned, and the vector
    stays below [max_size()]. *)
Definition op_fits (o : buffer_op) (b : Buffer) : Prop :=
  match o with
  | OpAppend data => writerIndex_ b + len data ≤ vector_max_size
  | OpReadFd data => len data ≤ readFd_capacity b ∧ writerIndex_ b + len data ≤ vector_max_size
  | OpRetrieve n | OpUnwrite n => 0 ≤ n
  | OpEnsureWritable n => 0 ≤ n ∧ writerIndex_ b + n ≤ vector_max_size
  | OpShrink n => 0 ≤ n ∧ len (content b) + n + 2048 ≤ vector_max_size
  | OpPrepend _ | OpRetrieveAll => True
  end.

Lemma retrieveAll_ok b : wf b → wf (retrieveAll b) ∧ content (retrieveAll b) = [].
Proof. intros Hwf. wf_facts b. split; [|done]. wf_split. Qed.

(** C14. Refinement: on a well-formed buffer every operation of [Buffer]
    (append, prepend, retrieve, retrieveAll, unwrite, ensureWritableBytes,
    shrink, readFd) keeps the buffer well formed and does to the readable bytes
    exactly what the byte queue does; when the caller breaks the operation's
    contract an assert stops it. *)
Theorem buffer_refines_queue o b :
  wf b → op_fits o b →
  match spec_op (prependableBytes b) o (content b) with
  | Some q => ensures (exec_op o b) (λ b', wf b' ∧ content b' = q)
  | None => exec_op o b = Fault AssertFailed
  end.
Proof.
  intros Hwf Hfit. destruct o as [d|d|n| |n|n|n|d]; cbn [spec_op exec_op op_fits] in *.
  - eapply ensures_mono; [by apply append_ok|]. naive_solver.
  - destruct (Z.leb_spec (len d) (prependableBytes b)).
    + eapply ensures_mono; [by apply prepend_ok|]. naive_solver.
    + unfold prepend. by rewrite (proj2 (Z.leb_gt _ _)) by done.
  - destruct (Z.leb_spec n (len (content b))).
    + eapply ensures_mono; [by apply retrieve_ok|]. naive_solver.
    + unfold retrieve. rewrite readable_len by done. by rewrite (proj2 (Z.leb_gt _ _)) by done.
  - by apply retrieveAll_ok.
  - destruct (Z.leb_spec n (len (content b))).
    + eapply ensures_mono; [by apply unwrite_ok|]. naive_solver.
    + unfold unwrite. rewrite readable_len by done. by rewrite (proj2 (Z.leb_gt _ _)) by done.
  - eapply ensures_mono; [apply ensureWritableBytes_ok; naive_solver|]. naive_solver.
  - eapply ensures_mono; [apply shrink_ok; naive_solver|]. done.
  - eapply ensures_bind; [apply readFd_ok; naive_solver|].
    intros [[n e] b'] (_ & _ & Hw & Hc). done.
Qed.

(** A buffer of four bytes with two readable ones, for the examples. *)
Definition sample : Buffer :=
  mkBuffer (replicate 8 Byte.x00 ++ [Byte.x01; Byte.x02; Byte.x03; Byte.x04]) 9 11.
Lemma sample_wf : wf sample.
Proof. split; vm_compute; intuition discriminate. Qed.

Lemma buffer_refines_queue_witness :
  wf sample ∧ op_fits (OpAppend (str "abc")) sample ∧
  ensures (exec_op (OpAppend (str "abc")) sample)
    (λ b', wf b' ∧ content b' = [Byte.x02; Byte.x03] ++ str "abc").
Proof.
  split; [apply sample_wf|]. split; [vm_compute; intuition discriminate|].
  apply (buffer_refines_queue (OpAppend (str "abc")) sample);
    [apply sample_wf|vm_compute; intuition discriminate].
Defined.

(** Round trip of the integer accessors, for every width and on both byte
    orders: after [appendIntN x] behind any content, retrieving that content
    leaves a buffer whose [readIntN] returns [x] and empties it; and
    [prependIntN x] followed by [readIntN] returns [x] and restores the content. *)
Theorem int_roundtrip native n x b :
  wf b → n ∈ [1; 2; 4; 8]%nat → in_signed (8 * Z.of_nat n) x →
  let appendInt := match n with 8%nat => appendInt64 | 4%nat => appendInt32
    | 2%nat => appendInt16 | _ => appendInt8 end native in
  let prependInt := match n with 8%nat => prependInt64 | 4%nat => prependInt32
    | 2%nat => prependInt16 | _ => prependInt8 end native in
  let readInt := match n with 8%nat => readInt64 | 4%nat => readInt32
    | 2%nat => readInt16 | _ => readInt8 end native in
  (writerIndex_ b + Z.of_nat n ≤ vector_max_size →
   ensures (let! b1 := appendInt x b in
            let! b2 := retrieve (len (content b)) b1 in readInt b2)
           (λ '(y, b'), y = x ∧ wf b' ∧ content b' = [])) ∧
  (Z.of_nat n ≤ prependableBytes b →
   ensures (let! b1 := prependInt x b in readInt b1)
           (λ '(y, b'), y = x ∧ wf b' ∧ content b' = content b)).
Proof.
  intros Hwf Hn Hx appendInt prependInt readInt.
  set (e := be_bytes n (wrap (8 * Z.of_nat n) x)).
  assert (len e = Z.of_nat n) as He by (unfold e, len; by rewrite length_be_bytes).
  assert (appendInt x b = append e b ∧ prependInt x b = prepend e b) as [Ea Ep].
  { destruct (appendInt_bytes native x b) as (?&?&?&?).
    destruct (prependInt_bytes native x b) as (?&?&?&?).
    unfold appendInt, prependInt, e.
    repeat (apply elem_of_cons in Hn as [->|Hn]; [done|]). by apply elem_of_nil in Hn. }
  assert (∀ b1 rest, wf b1 → content b1 = e ++ rest →
    ensures (readInt b1) (λ '(y, b'), y = x ∧ wf b' ∧ content b' = rest)) as Hread.
  { intros b1 rest Hw1 Hc1. pose proof (peekInt_ok native b1 x rest Hw1) as (P8&P4&P2&P1).
    assert (readInt b1 = let! b' := retrieve (Z.of_nat n) b1 in Ok (x, b')) as ->.
    { unfold readInt, readInt64, readInt32, readInt16, readInt8, retrieveInt.
      unfold e in Hc1. repeat (apply elem_of_cons in Hn as [->|Hn];
        [rewrite ?P1, ?P2, ?P4, ?P8 by done; rewrite swrap_id by (done || lia); done|]).
      by apply elem_of_nil in Hn. }
    eapply ensures_bind; [apply retrieve_ok; [done|]|].
    - rewrite Hc1, len_app, He. pose proof (len_nonneg rest). lia.
    - intros b' (Hw' & Hc' & _). simpl. split_and!; [done|done|].
      rewrite Hc', Hc1, <- He. unfold len. rewrite Nat2Z.id. by rewrite drop_app_length. }
  split; intros Hb.
  - rewrite Ea. eapply ensures_bind; [apply append_ok; [done|lia]|].
    intros b1 (Hw1 & Hc1 & _). pose proof (len_nonneg (content b)).
    eapply ensures_bind; [apply retrieve_ok; [done|rewrite Hc1, len_app; lia]|].
    intros b2 (Hw2 & Hc2 & _). apply Hread; [done|].
    rewrite Hc2, Hc1. unfold len. rewrite Nat2Z.id, drop_app_length.
    by rewrite app_nil_r.
  - rewrite Ep. eapply ensures_bind; [apply prepend_ok; [done|lia]|].
    intros b1 (Hw1 & Hc1 & _). by apply Hread.
Qed.

Lemma int_roundtrip_witness :
  ensures (let! b1 := appendInt32 little (-2) sample in
           let! b2 := retrieve (len (content sample)) b1 in readInt32 little b2)
          (λ '(y, b'), y = -2 ∧ wf b' ∧ content b' = []).
Proof.
  apply (int_roundtrip little 4 (-2) sample);
    [apply sample_wf|do 2 right; left|unfold in_signed; lia|vm_compute; discriminate].
Defined.
