(* ===== verification/BufferStream.v ===== *)
(** * BufferStream: a [Buffer] as protobuf's zero-copy output stream
    ([muduo/net/protobuf/BufferStream.h])

    [Next] hands the writable part of the buffer to the serializer, which fills
    a prefix of it and gives the rest back with [BackUp]. *)
From S2P Require Import Prelude Buffer.
From stdpp Require Import options.

(* src/muduo/net/protobuf/BufferStream.h:30-33 BufferOutputStream *)
Record BufferOutputStream := mkStream { buffer_of : Buffer; originalSize_ : Z }.

(* src/muduo/net/protobuf/BufferStream.h:12-14 BufferOutputStream::BufferOutputStream *)
Definition newStream (buf : Buffer) : BufferOutputStream := mkStream buf (readableBytes buf).

(** Returns the offset and the size of the area. *)
(* src/muduo/net/protobuf/BufferStream.h:16-22 BufferOutputStream::Next *)
Definition Next (s : BufferOutputStream) : outcome (Z * Z * BufferOutputStream) :=
  let! b := ensureWritableBytes 4096 (buffer_of s) in
  let data := beginWrite b in
  let size := swrap 32 (writableBytes b) in
  let! b := hasWritten (size_t size) b in
  Ok (data, size, mkStream b (originalSize_ s)).

(* src/muduo/net/protobuf/BufferStream.h:24-24 BufferOutputStream::BackUp *)
Definition BackUp (count : Z) (s : BufferOutputStream) : outcome BufferOutputStream :=
  let! b := unwrite (size_t count) (buffer_of s) in Ok (mkStream b (originalSize_ s)).

(* src/muduo/net/protobuf/BufferStream.h:26-28 BufferOutputStream::ByteCount *)
Definition ByteCount (s : BufferOutputStream) : Z :=
  swrap 64 (size_t (readableBytes (buffer_of s) - originalSize_ s)).

(** The serializer fills the area it was handed from its start. *)
Definition fill (data : Z) (d : bytes) (s : BufferOutputStream) : outcome BufferOutputStream :=
  let! v := write_at data d (buffer_ (buffer_of s)) in
  Ok (mkStream (mkBuffer v (readerIndex_ (buffer_of s)) (writerIndex_ (buffer_of s))) (originalSize_ s)).

(** Write [d]: take the area, fill it, give the rest back. *)
Definition stream_write (d : bytes) (s : BufferOutputStream) : outcome BufferOutputStream :=
  let! (data, size, s) := Next s in
  let! s := fill data d s in
  BackUp (size - len d) s.

Lemma ensureWritable_size n b b' :
  wf b → 0 ≤ n → writerIndex_ b + n ≤ vector_max_size → ensureWritableBytes n b = Ok b' →
  len (buffer_ b') ≤ Z.max (len (buffer_ b)) (writerIndex_ b + n).
Proof.
  intros Hb Hn Hmax H. wf_facts b. unfold ensureWritableBytes in H.
  apply ok_bind_inv in H as (b1 & H & H'). apply ok_bind_inv in H' as (u & _ & [= <-]).
  rewrite writable_eq in H by done.
  destruct (Z.ltb_spec (len (buffer_ b) - writerIndex_ b) n); [|injection H as <-; lia].
  unfold makeSpace, vector_max_size in *. rewrite (wrap_small 64 (writerIndex_ b + n)) in H by lia.
  destruct (_ <? _).
  - apply ok_bind_inv in H as (v & Hv & [= <-]). cbn.
    assert (ensures (vector_resize (writerIndex_ b + n) (buffer_ b)) (λ v, len v = writerIndex_ b + n)) as Hok.
    { eapply ensures_mono; [apply vector_resize_ok; unfold vector_max_size; lia|]. by intros ? [? _]. }
    rewrite Hv in Hok. cbn in Hok. lia.
  - apply ok_bind_inv in H as (u1 & _ & H). apply ok_bind_inv in H as (v & Hv & H).
    apply ok_bind_inv in H as (u2 & _ & [= <-]). cbn. unfold write_at in Hv.
    destruct (_ && _) eqn:Hin; [|done]. injection Hv as <-. apply andb_true_iff in Hin as [Hlo Hhi].
    apply Z.leb_le in Hlo, Hhi. rewrite !len_app. unfold len in *. rewrite length_take, length_drop. lia.
Qed.

(** The area [Next] hands out is behind the content. *)
Lemma next_ok s :
  wf (buffer_of s) → writerIndex_ (buffer_of s) + 4096 ≤ vector_max_size →
  len (buffer_ (buffer_of s)) + 4096 < 2 ^ 31 →
  ensures (Next s) (λ '(data, size, s'), wf (buffer_of s') ∧ 4096 ≤ size < 2 ^ 31 ∧
    readerIndex_ (buffer_of s') ≤ data ∧ writerIndex_ (buffer_of s') = data + size ∧
    slice (readerIndex_ (buffer_of s')) (data - readerIndex_ (buffer_of s')) (buffer_ (buffer_of s')) =
      content (buffer_of s) ∧ originalSize_ s' = originalSize_ s).
Proof.
  intros Hb Hmax H31. unfold Next. pose proof (wf_writer _ Hb).
  eapply ensures_bind.
  { apply ensures_and with (Q := λ b', len (buffer_ b') < 2 ^ 31); [by apply ensureWritableBytes_ok|].
    destruct (ensureWritableBytes 4096 (buffer_of s)) as [b1|] eqn:E.
    - cbn. apply ensureWritable_size in E; [lia|done|lia|done].
    - pose proof (ensureWritableBytes_ok 4096 _ Hb ltac:(lia) Hmax) as Hx. by rewrite E in Hx. }
  intros b1 ((Hb1 & Hc1 & Hroom & _) & Hlen). unfold beginWrite. wf_facts b1.
  rewrite (swrap_id 32) by (rewrite writable_eq in * by done; unfold in_signed; lia).
  rewrite writable_eq in * by done. rewrite wrap_small by lia.
  eapply ensures_bind; [apply hasWritten_ok; [done|rewrite writable_eq by done; lia]|].
  intros b2 (Hb2 & Hr2 & Hv2 & Hw2). cbn. rewrite Hr2, Hv2. split_and!; [done|lia|lia|lia|lia|exact Hc1|done].
Qed.

(** The stream appends. Taking the area [Next] offers (at least 4096
    bytes), filling it with bytes that fit and backing up over the rest is
    appending these bytes to the buffer, and [ByteCount] counts them. *)
Theorem stream_write_appends d s :
  wf (buffer_of s) → len d ≤ 4096 → writerIndex_ (buffer_of s) + 4096 ≤ vector_max_size →
  len (buffer_ (buffer_of s)) + 4096 < 2 ^ 31 → 0 ≤ originalSize_ s ≤ len (content (buffer_of s)) →
  ensures (stream_write d s) (λ s', wf (buffer_of s') ∧ content (buffer_of s') = content (buffer_of s) ++ d ∧
    ByteCount s' = ByteCount s + len d).
Proof.
  intros Hb Hd Hmax H31 Ho. unfold stream_write. pose proof (len_nonneg d) as Hd0.
  eapply ensures_bind; [by apply next_ok|].
  intros [[data size] s1] (Hb1 & Hsize & Hdata & Hw1 & Hc1 & Ho1). unfold fill. wf_facts (buffer_of s1).
  pose proof (len_content _ Hb) as Hlc. rewrite readable_eq in Hlc by done. wf_facts (buffer_of s).
  assert (len (content (buffer_of s)) = data - readerIndex_ (buffer_of s1)) as Hlen.
  { rewrite <- Hc1. apply len_slice; lia. }
  set (P := λ s2, wf (buffer_of s2) ∧ originalSize_ s2 = originalSize_ s ∧ ∃ rest, len rest = size - len d ∧
    content (buffer_of s2) = (content (buffer_of s) ++ d) ++ rest).
  eapply (ensures_bind _ _ P).
  { eapply ensures_bind; [apply write_at_ok; lia|].
    intros v (Hv & Hdv & Hlo & _). unfold P. cbn. split_and!; [wf_split|done|].
    exists (slice (data + len d) (size - len d) v). split; [apply len_slice; lia|].
    unfold content at 1. cbn.
    replace (writerIndex_ (buffer_of s1) - readerIndex_ (buffer_of s1)) with
      ((data - readerIndex_ (buffer_of s1)) + len d + (size - len d)) by lia.
    rewrite !slice_split by lia. f_equal; [f_equal|].
    - rewrite Hlo by lia. exact Hc1.
    - rewrite <- Hdv at 2. f_equal. lia.
    - f_equal. lia. }
  intros s2 (Hb2 & Ho2 & rest & Hrest & Hc2). unfold BackUp. rewrite wrap_small by lia.
  eapply ensures_bind; [apply unwrite_ok; [done|rewrite Hc2, !len_app; pose proof (len_nonneg rest); pose proof (len_nonneg (content (buffer_of s))); lia]|].
  intros b3 (Hb3 & Hc3). cbn [ensures buffer_of].
  assert (content b3 = content (buffer_of s) ++ d) as Hc.
  { rewrite Hc3, Hc2, (len_app _ rest), <- Hrest. replace (len _ + len rest - len rest) with (len (content (buffer_of s) ++ d)) by lia.
    unfold len. by rewrite Nat2Z.id, take_app_length. }
  split_and!; [done|done|]. unfold ByteCount. cbn [buffer_of originalSize_].
  rewrite !readable_len, Hc, Ho2, len_app by done. rewrite !wrap_small by (unfold vector_max_size in *; lia).
  rewrite !swrap_id by (unfold in_signed; lia). lia.
Qed.

Definition sample_stream : BufferOutputStream := newStream sample.
Lemma stream_write_appends_witness :
  ensures (stream_write (str "abc") sample_stream) (λ s', wf (buffer_of s') ∧
    content (buffer_of s') = content sample ++ str "abc" ∧ ByteCount s' = ByteCount sample_stream + 3).
Proof.
  apply (stream_write_appends (str "abc") sample_stream); [apply sample_wf|by vm_compute..|].
  split; by vm_compute.
Defined.
