(* ===== verification/HttpRequest.v ===== *)
(** * HttpRequest: the parsed HTTP request ([muduo/net/http/HttpRequest.h]) *)
From S2P Require Import Prelude.
From stdpp Require Import options.

(* src/muduo/net/http/HttpRequest.h:18-26 HttpRequest::Method *)
Inductive Method : Set := kInvalid | kGet | kPost | kHead | kPut | kDelete.
(* src/muduo/net/http/HttpRequest.h:19-30 HttpRequest::Version *)
Inductive Version : Set := kUnknown | kHttp10 | kHttp11.

#[global] Instance Method_eq_dec : EqDecision Method.
Proof. solve_decision. Defined.
#[global] Instance Version_eq_dec : EqDecision Version.
Proof. solve_decision. Defined.

(* src/muduo/net/http/HttpRequest.h:129-135 HttpRequest *)
Record HttpRequest := mkHttpRequest {
  method_ : Method;
  version_ : Version;
  path_ : bytes;
  query_ : bytes;
  receiveTime_ : Z;
  headers_ : gmap bytes bytes
}.

(* src/muduo/net/http/HttpRequest.h:32-32 HttpRequest::HttpRequest *)
Definition emptyRequest : HttpRequest := mkHttpRequest kInvalid kUnknown [] [] 0 ∅.

(* src/muduo/net/http/HttpRequest.h:34-35 HttpRequest::setVersion *)
Definition setVersion (v : Version) (r : HttpRequest) : HttpRequest :=
  mkHttpRequest (method_ r) v (path_ r) (query_ r) (receiveTime_ r) (headers_ r).

(* src/muduo/net/http/HttpRequest.h:42-57 HttpRequest::setMethod *)
Definition setMethod (m : bytes) (r : HttpRequest) : bool * HttpRequest :=
  let method' :=
    if bool_decide (m = str "GET") then kGet
    else if bool_decide (m = str "POST") then kPost
    else if bool_decide (m = str "HEAD") then kHead
    else if bool_decide (m = str "PUT") then kPut
    else if bool_decide (m = str "DELETE") then kDelete
    else kInvalid in
  (bool_decide (method' ≠ kInvalid),
   mkHttpRequest method' (version_ r) (path_ r) (query_ r) (receiveTime_ r) (headers_ r)).

(* src/muduo/net/http/HttpRequest.h:61-76 HttpRequest::methodString *)
Definition methodString (r : HttpRequest) : bytes :=
  match method_ r with
  | kGet => str "GET"
  | kPost => str "POST"
  | kHead => str "HEAD"
  | kPut => str "PUT"
  | kDelete => str "DELETE"
  | _ => str "UNKNOWN"
  end.

(* src/muduo/net/http/HttpRequest.h:78-83 HttpRequest::setPath *)
Definition setPath (p : bytes) (r : HttpRequest) : HttpRequest :=
  mkHttpRequest (method_ r) (version_ r) p (query_ r) (receiveTime_ r) (headers_ r).
(* src/muduo/net/http/HttpRequest.h:85-90 HttpRequest::setQuery *)
Definition setQuery (q : bytes) (r : HttpRequest) : HttpRequest :=
  mkHttpRequest (method_ r) (version_ r) (path_ r) q (receiveTime_ r) (headers_ r).
(* src/muduo/net/http/HttpRequest.h:92-93 HttpRequest::setReceiveTime *)
Definition setReceiveTime (t : Z) (r : HttpRequest) : HttpRequest :=
  mkHttpRequest (method_ r) (version_ r) (path_ r) (query_ r) t (headers_ r).

(** [std::isspace] in the C locale. *)
Definition isspace (b : byte) : bool :=
  let v := byte_val b in (v =? 32) || ((9 <=? v) && (v <=? 13)).

(** [while (!value.empty() && isspace(value.front())) value.remove_prefix(1)]. *)
Fixpoint skip_space (v : bytes) : bytes :=
  match v with
  | [] => []
  | b :: v' => if isspace b then skip_space v' else v
  end.
(** The same from the back, with [remove_suffix]. *)
Definition skip_space_back (v : bytes) : bytes := rev (skip_space (rev v)).

(* src/muduo/net/http/HttpRequest.h:95-109 HttpRequest::addHeader *)
Definition addHeader (key value : bytes) (r : HttpRequest) : HttpRequest :=
  mkHttpRequest (method_ r) (version_ r) (path_ r) (query_ r) (receiveTime_ r)
    (<[key := skip_space_back (skip_space value)]> (headers_ r)).

(* src/muduo/net/http/HttpRequest.h:111-114 HttpRequest::getHeader *)
Definition getHeader (field : bytes) (r : HttpRequest) : bytes :=
  default [] (headers_ r !! field).

(** Text that trimming leaves alone. *)
Definition trimmed (v : bytes) : Prop :=
  (∀ b v', v = b :: v' → isspace b = false) ∧ (∀ b v', v = v' ++ [b] → isspace b = false).

Lemma skip_space_id v : (∀ b v', v = b :: v' → isspace b = false) → skip_space v = v.
Proof. destruct v as [|b v]; simpl; [done|]. intros H. by rewrite (H b v). Qed.

Lemma trim_id v : trimmed v → skip_space_back (skip_space v) = v.
Proof.
  intros [H1 H2]. rewrite (skip_space_id v) by done. unfold skip_space_back.
  rewrite skip_space_id; [apply rev_involutive|].
  intros b v' E. apply (H2 b (rev v')).
  by rewrite <- (rev_involutive v), E.
Qed.

Lemma trim_space v : trimmed v → skip_space_back (skip_space (Byte.x20 :: v)) = v.
Proof. intros. simpl. by apply trim_id. Qed.

Lemma skip_space_suffix v : ∃ p, v = p ++ skip_space v ∧ Forall (λ b, isspace b = true) p.
Proof.
  induction v as [|b v (p & Hp & Hs)]; simpl; [by exists []|].
  destruct (isspace b) eqn:E.
  - exists (b :: p). simpl. split; [by f_equal|by constructor].
  - exists []. by split.
Qed.

Lemma skip_space_head v b v' : skip_space v = b :: v' → isspace b = false.
Proof.
  induction v as [|c v IH]; simpl; [done|]. destruct (isspace c) eqn:E; [done|].
  by intros [= -> ->].
Qed.
