(* ===== verification/HttpContext.v ===== *)
(** * HttpContext: the incremental HTTP request parser
    ([muduo/net/http/HttpContext.h], [HttpContext.cc])

    [parseRequest] works on the model of [Buffer]; [parse_q] is the same loop
    on the readable bytes, and the proofs show that the two agree. *)
From S2P Require Import Prelude Buffer HttpRequest.
From stdpp Require Import options.

(* src/muduo/net/http/HttpContext.h:11-25 HttpContext::HttpRequestParseState *)
Inductive HttpRequestParseState : Set :=
| kExpectRequestLine | kExpectHeaders | kExpectBody | kGotAll.

#[global] Instance HttpRequestParseState_eq_dec : EqDecision HttpRequestParseState.
Proof. solve_decision. Defined.

(* src/muduo/net/http/HttpContext.h:44-48 HttpContext *)
Record HttpContext := mkHttpContext {
  state_ : HttpRequestParseState;
  request_ : HttpRequest
}.

(* src/muduo/net/http/HttpContext.h:27-27 HttpContext::HttpContext *)
Definition newContext : HttpContext := mkHttpContext kExpectRequestLine emptyRequest.
(* src/muduo/net/http/HttpContext.h:31-33 HttpContext::gotAll *)
Definition gotAll (c : HttpContext) : bool := bool_decide (state_ c = kGotAll).
(* src/muduo/net/http/HttpContext.h:35-39 HttpContext::reset *)
Definition reset (c : HttpContext) : HttpContext := mkHttpContext kExpectRequestLine emptyRequest.

(** [string_view::find(c, pos)] and [string_view::substr(pos)]. *)
Definition find_from (c : byte) (pos : nat) (s : bytes) : option nat :=
  (λ i, (pos + i)%nat) <$> find_byte c (drop pos s).

(* src/muduo/net/http/HttpContext.cc:9-41 HttpContext::processRequestLine *)
Definition processRequestLine (line : bytes) (r : HttpRequest) : bool * HttpRequest :=
  match find_byte Byte.x20 line with
  | None => (false, r)
  | Some methodEnd =>
    let '(known, r1) := setMethod (take methodEnd line) r in
    if negb known then (false, r1) else
    let uriBegin := S methodEnd in
    match find_from Byte.x20 uriBegin line with
    | None => (false, r1)
    | Some versionBegin =>
      let uri := take (versionBegin - uriBegin) (drop uriBegin line) in
      let r2 :=
        match find_byte Byte.x3f uri with
        | Some questionPos =>
            setQuery (drop (S questionPos) uri) (setPath (take questionPos uri) r1)
        | None => setPath uri r1
        end in
      let version := drop (S versionBegin) line in
      if bool_decide (version = str "HTTP/1.1") then (true, setVersion kHttp11 r2)
      else if bool_decide (version = str "HTTP/1.0") then (true, setVersion kHttp10 r2)
      else (false, r2)
    end
  end.

(** The local variables of [parseRequest]. *)
Record parse_vars := mkVars {
  v_ok : bool; v_hasMore : bool; v_buf : Buffer; v_ctx : HttpContext
}.

(* src/muduo/net/http/HttpContext.cc:48-87 HttpContext::parseRequest, one loop iteration *)
Definition parse_iteration (receiveTime : Z) (s : parse_vars) : outcome parse_vars :=
  let buf := v_buf s in
  let c := v_ctx s in
  match state_ c with
  | kExpectRequestLine =>
      let! crlf := findCRLFChars buf in
      match crlf with
      | None => Ok (mkVars (v_ok s) false buf c)
      | Some p =>
          let line := take (Z.to_nat (p - peek buf)) (readableChars buf) in
          let '(ok, r) := processRequestLine line (request_ c) in
          if ok then
            let r' := setReceiveTime receiveTime r in
            let! buf' := retrieveUntil (p + 2) buf in
            Ok (mkVars true true buf' (mkHttpContext kExpectHeaders r'))
          else Ok (mkVars false false buf (mkHttpContext (state_ c) r))
      end
  | kExpectHeaders =>
      let! crlf := findCRLFChars buf in
      match crlf with
      | None => Ok (mkVars (v_ok s) false buf c)
      | Some p =>
          let line := take (Z.to_nat (p - peek buf)) (readableChars buf) in
          let '(more, c') :=
            match find_byte Byte.x3a line with
            | Some colon =>
                (true, mkHttpContext kExpectHeaders
                         (addHeader (take colon line) (drop (S colon) line) (request_ c)))
            | None => (false, mkHttpContext kGotAll (request_ c))
            end in
          let! buf' := retrieveUntil (p + 2) buf in
          Ok (mkVars (v_ok s) more buf' c')
      end
  | kExpectBody => Ok (mkVars (v_ok s) false buf c)
  | kGotAll => Ok (mkVars (v_ok s) false buf c)
  end.

Fixpoint parse_while (fuel : nat) (receiveTime : Z) (s : parse_vars) : outcome parse_vars :=
  match fuel with
  | O => Ok s
  | S n => if v_hasMore s then let! s' := parse_iteration receiveTime s in
                               parse_while n receiveTime s'
           else Ok s
  end.

(** Every iteration that goes on consumes a CRLF, so the readable bytes bound
    the iterations; [parse_terminates] below shows the loop is over. *)
Definition parse_fuel (buf : Buffer) : nat := S (Z.to_nat (readableBytes buf)).

(* src/muduo/net/http/HttpContext.cc:43-91 HttpContext::parseRequest *)
Definition parseRequest (buf : Buffer) (receiveTime : Z) (c : HttpContext)
    : outcome (bool * Buffer * HttpContext) :=
  let! s := parse_while (parse_fuel buf) receiveTime (mkVars true true buf c) in
  Ok (v_ok s, v_buf s, v_ctx s).

(** ** The parser on a byte string *)

(** One iteration on the readable bytes: go on, or stop with a verdict. *)
Inductive parse_move := Go (c : HttpContext) (q : bytes) | Stop (ok : bool) (c : HttpContext) (q : bytes).

Definition parse_step (t : Z) (c : HttpContext) (q : bytes) : parse_move :=
  match state_ c with
  | kExpectRequestLine =>
      match find_sub kCRLF q with
      | None => Stop true c q
      | Some i =>
          let '(ok, r) := processRequestLine (take i q) (request_ c) in
          if ok then Go (mkHttpContext kExpectHeaders (setReceiveTime t r)) (drop (i + 2) q)
          else Stop false (mkHttpContext kExpectRequestLine r) q
      end
  | kExpectHeaders =>
      match find_sub kCRLF q with
      | None => Stop true c q
      | Some i =>
          match find_byte Byte.x3a (take i q) with
          | Some k => Go (mkHttpContext kExpectHeaders (addHeader (take k (take i q))
                            (drop (S k) (take i q)) (request_ c))) (drop (i + 2) q)
          | None => Stop true (mkHttpContext kGotAll (request_ c)) (drop (i + 2) q)
          end
      end
  | _ => Stop true c q
  end.

Fixpoint parse_q (fuel : nat) (t : Z) (c : HttpContext) (q : bytes)
    : option (bool * HttpContext * bytes) :=
  match fuel with
  | O => None
  | S n => match parse_step t c q with
           | Go c' q' => parse_q n t c' q'
           | Stop ok c' q' => Some (ok, c', q')
           end
  end.

Lemma parse_step_go t c q c' q' :
  parse_step t c q = Go c' q' → (length q' < length q)%nat.
Proof.
  unfold parse_step. destruct (state_ c); try done;
    destruct (find_sub kCRLF q) as [i|] eqn:E; try done;
    apply find_sub_some in E as (rest & _ & Hl); simpl in Hl.
  - destruct (processRequestLine _ _) as [[] ?]; [|done]. intros [= _ <-].
    rewrite length_drop. lia.
  - destruct (find_byte _ _); [|done]. intros [= _ <-]. rewrite length_drop. lia.
Qed.

(** Enough fuel is enough, and more changes nothing. *)
Lemma parse_q_total n t c q : (length q < n)%nat → is_Some (parse_q n t c q).
Proof.
  revert c q. induction n as [|n IH]; intros c q Hn; [lia|]. simpl.
  destruct (parse_step t c q) as [c' q'|] eqn:E; [|by eexists].
  apply parse_step_go in E. apply IH. lia.
Qed.

Lemma parse_q_fuel n m t c q :
  (length q < n)%nat → (length q < m)%nat → parse_q n t c q = parse_q m t c q.
Proof.
  revert m c q. induction n as [|n IH]; intros [|m] c q Hn Hm; [lia..|]. simpl.
  destruct (parse_step t c q) as [c' q'|] eqn:E; [|done].
  apply parse_step_go in E. apply IH; lia.
Qed.

(** ** The parser on a [Buffer] is the parser on its readable bytes *)

Lemma findCRLFChars_eq b :
  wf b → findCRLFChars b = Ok ((λ i, readerIndex_ b + Z.of_nat i) <$> find_sub kCRLF (content b)).
Proof. apply findCRLF_eq. Qed.

Lemma crlf_line b i :
  wf b → take (Z.to_nat (readerIndex_ b + Z.of_nat i - peek b)) (readableChars b) = take i (content b).
Proof.
  intros Hwf. unfold readableChars, peek. rewrite readableSpan_eq by done. f_equal. lia.
Qed.

Lemma skip_line b i :
  wf b → find_sub kCRLF (content b) = Some i →
  ensures (retrieveUntil (readerIndex_ b + Z.of_nat i + 2) b)
    (λ b', wf b' ∧ content b' = drop (i + 2) (content b) ∧
      writerIndex_ b' ≤ Z.max kCheapPrepend (writerIndex_ b)).
Proof.
  intros Hwf Hi. apply find_sub_some in Hi as (rest & _ & Hl). simpl in Hl.
  replace (readerIndex_ b + Z.of_nat i + 2) with (readerIndex_ b + (Z.of_nat i + 2)) by lia.
  eapply ensures_mono; [apply retrieveUntil_ok; [done|unfold len; lia]|].
  intros b' (H1 & H2 & H3). split_and!; [done| |done]. rewrite H2. f_equal. lia.
Qed.

(** What one iteration of the loop leaves in the locals. *)
Definition iter_result (b : Buffer) (m : parse_move) (s : parse_vars) : Prop :=
  wf (v_buf s) ∧ writerIndex_ (v_buf s) ≤ Z.max kCheapPrepend (writerIndex_ b) ∧
  match m with
  | Go c q => v_ok s = true ∧ v_hasMore s = true ∧ v_ctx s = c ∧ content (v_buf s) = q
  | Stop ok c q => v_ok s = ok ∧ v_hasMore s = false ∧ v_ctx s = c ∧ content (v_buf s) = q
  end.

Lemma parse_iteration_ok t b c :
  wf b →
  ensures (parse_iteration t (mkVars true true b c)) (iter_result b (parse_step t c (content b))).
Proof.
  intros Hwf. unfold parse_iteration, parse_step, iter_result. cbv beta zeta. cbn [v_buf v_ctx v_ok].
  destruct (state_ c) eqn:Hst; cbn; try by (split_and!; try done; lia).
  - rewrite findCRLFChars_eq by done. destruct (find_sub kCRLF (content b)) as [i|] eqn:E; cbn.
    + rewrite crlf_line by done. destruct (processRequestLine _ _) as [[] r]; cbn.
      * eapply ensures_bind; [by apply skip_line|]. intros b' (H1 & H2 & H3). cbn. by split_and!.
      * split_and!; try done. lia.
    + split_and!; try done. lia.
  - rewrite findCRLFChars_eq by done. destruct (find_sub kCRLF (content b)) as [i|] eqn:E; cbn.
    + rewrite crlf_line by done. destruct (find_byte _ _) as [k|]; cbn;
        (eapply ensures_bind; [by apply skip_line|]; intros b' (H1 & H2 & H3); cbn; by split_and!).
    + split_and!; try done. lia.
Qed.

Lemma parse_while_ok fuel t b c :
  wf b → (length (content b) < fuel)%nat →
  ensures (parse_while fuel t (mkVars true true b c)) (λ s,
    wf (v_buf s) ∧ v_hasMore s = false ∧
    writerIndex_ (v_buf s) ≤ Z.max kCheapPrepend (writerIndex_ b) ∧
    parse_q fuel t c (content b) = Some (v_ok s, v_ctx s, content (v_buf s))).
Proof.
  revert b c. induction fuel as [|n IH]; intros b c Hwf Hn; [lia|].
  cbn [parse_while v_hasMore parse_q].
  eapply ensures_bind; [by apply parse_iteration_ok|].
  intros [ok more b' c'] (Hwf' & Hw & H). cbn in Hwf', Hw.
  destruct (parse_step t c (content b)) as [c1 q1|ok1 c1 q1] eqn:E;
    cbn in H; destruct H as (-> & -> & -> & <-).
  - apply parse_step_go in E.
    eapply ensures_mono; [apply IH; [done|lia]|].
    intros s (?&?&?&?). split_and!; try done. lia.
  - by destruct n.
Qed.

Lemma parseRequest_ok t b c :
  wf b →
  ensures (parseRequest b t c) (λ '(ok, b', c'), wf b' ∧
    writerIndex_ b' ≤ Z.max kCheapPrepend (writerIndex_ b) ∧
    parse_q (S (length (content b))) t c (content b) = Some (ok, c', content b')).
Proof.
  intros Hwf. unfold parseRequest, parse_fuel.
  replace (Z.to_nat (readableBytes b)) with (length (content b))
    by (rewrite readable_len by done; unfold len; lia).
  eapply ensures_bind; [apply parse_while_ok; [done|lia]|].
  intros s (H1 & _ & H3 & H4). done.
Qed.

(** ** Segmentation: how the bytes are cut into reads does not matter *)

(** Everything but the time of receipt. *)
Definition forget (c : HttpContext) : HttpContext :=
  mkHttpContext (state_ c) (setReceiveTime 0 (request_ c)).

Definition map_move (f : HttpContext → HttpContext) (m : parse_move) : parse_move :=
  match m with Go c q => Go (f c) q | Stop ok c q => Stop ok (f c) q end.

(** A verdict has been reached: a bad request, or a whole one. *)
Definition decided (ok : bool) (c : HttpContext) : bool := negb ok || gotAll c.

Lemma processRequestLine_forget line r :
  processRequestLine line (setReceiveTime 0 r) =
  let '(ok, r') := processRequestLine line r in (ok, setReceiveTime 0 r').
Proof.
  unfold processRequestLine. destruct (find_byte _ line) as [i|]; [|done].
  unfold setMethod. cbv beta zeta iota.
  destruct (negb _); [done|].
  destruct (find_from _ _ _); [|done].
  repeat (destruct (find_byte _ _); [|]); repeat (case_bool_decide; [done|]); done.
Qed.

Lemma parse_step_forget t c q :
  map_move forget (parse_step t c q) = map_move forget (parse_step 0 (forget c) q).
Proof.
  unfold parse_step, forget. destruct c as [[] r]; cbn [state_ request_]; try done;
    (destruct (find_sub kCRLF q) as [i|]; [|done]).
  - rewrite processRequestLine_forget. by destruct (processRequestLine _ r) as [[] r'].
  - by destruct (find_byte _ _).
Qed.

Lemma forget_idemp c : forget (forget c) = forget c.
Proof. done. Qed.

Definition map_result (f : HttpContext → HttpContext)
    (r : option (bool * HttpContext * bytes)) : option (bool * HttpContext * bytes) :=
  (λ '(ok, c, q), (ok, f c, q)) <$> r.

Lemma parse_q_forget n t t' c c' q :
  forget c = forget c' →
  map_result forget (parse_q n t c q) = map_result forget (parse_q n t' c' q).
Proof.
  revert c c' q. induction n as [|n IH]; intros c c' q Hc; [done|]. cbn [parse_q].
  pose proof (parse_step_forget t c q) as H1. pose proof (parse_step_forget t' c' q) as H2.
  rewrite Hc in H1. rewrite <- H1 in H2.
  destruct (parse_step t c q) as [c1 q1|o1 c1 q1], (parse_step t' c' q) as [c2 q2|o2 c2 q2];
    cbn [map_move] in H2; try done.
  - replace q2 with q1 by congruence. apply IH. congruence.
  - cbn. congruence.
Qed.

(** Bytes arriving behind a complete line do not disturb the step. *)
Lemma parse_step_app t c q k :
  match parse_step t c q with
  | Go c' q' => parse_step t c (q ++ k) = Go c' (q' ++ k)
  | Stop ok c' q' =>
      (ok = true ∧ c' = c ∧ q' = q) ∨
      (decided ok c' = true ∧ parse_step t c (q ++ k) = Stop ok c' (q' ++ k))
  end.
Proof.
  unfold parse_step. destruct (state_ c) eqn:Hst.
  3,4: by left.
  - destruct (find_sub kCRLF q) as [i|] eqn:E; [|by left].
    rewrite (find_sub_app _ _ _ _ E). apply find_sub_some in E as (rest & _ & Hl). simpl in Hl.
    rewrite take_app_le by lia. rewrite drop_app_le by lia.
    destruct (processRequestLine _ _) as [[] r]; [done|]. by right.
  - destruct (find_sub kCRLF q) as [i|] eqn:E; [|by left].
    rewrite (find_sub_app _ _ _ _ E). apply find_sub_some in E as (rest & _ & Hl). simpl in Hl.
    rewrite take_app_le by lia. rewrite drop_app_le by lia.
    destruct (find_byte _ _); [done|]. by right.
Qed.

(** Parsing a prefix first, then going on with what arrived behind it. *)
Lemma parse_q_app n t c q k ok c1 q1 :
  gotAll c = false →
  parse_q n t c q = Some (ok, c1, q1) →
  if decided ok c1 then ∃ m, parse_q m t c (q ++ k) = Some (ok, c1, q1 ++ k)
  else ∀ r m, parse_q m t c1 (q1 ++ k) = Some r → ∃ m', parse_q m' t c (q ++ k) = Some r.
Proof.
  revert c q. induction n as [|n IH]; intros c q Hc Hp; [done|]. cbn [parse_q] in Hp.
  pose proof (parse_step_app t c q k) as Happ.
  destruct (parse_step t c q) as [c' q'|ok' c' q'] eqn:E.
  - assert (gotAll c' = false) as Hc'.
    { revert E. unfold parse_step. destruct (state_ c); try done; destruct (find_sub _ _); try done.
      - destruct (processRequestLine _ _) as [[] ?]; [|done]. by intros [= <- _].
      - destruct (find_byte _ _); [|done]. by intros [= <- _]. }
    specialize (IH c' q' Hc' Hp). destruct (decided ok c1).
    + destruct IH as [m Hm]. exists (S m). cbn [parse_q]. by rewrite Happ.
    + intros r m Hr. destruct (IH r m Hr) as [m' Hm']. exists (S m'). cbn [parse_q]. by rewrite Happ.
  - simplify_eq. destruct Happ as [(-> & -> & ->)|[Hd Happ]].
    + unfold decided. rewrite Hc. cbn. intros r m Hr. by exists m.
    + rewrite Hd. exists 1%nat. cbn [parse_q]. by rewrite Happ.
Qed.

Lemma parse_q_det n m t c q r r' :
  parse_q n t c q = Some r → parse_q m t c q = Some r' → r = r'.
Proof.
  revert m c q. induction n as [|n IH]; intros [|m] c q H1 H2; try done. cbn in *.
  destruct (parse_step t c q); [by eapply IH|congruence].
Qed.

(** The input buffer fed read by read, [parseRequest] after each, until a
    verdict: the verdict, the context, and the bytes that are left. *)
Fixpoint feed (reads : list (Z * bytes)) (b : Buffer) (c : HttpContext)
    : outcome (bool * HttpContext * bytes) :=
  match reads with
  | [] => Ok (true, c, content b)
  | (t, d) :: reads' =>
      let! b1 := append d b in
      let! (ok, b2, c2) := parseRequest b1 t c in
      if decided ok c2 then Ok (ok, c2, content b2 ++ concat (snd <$> reads'))
      else feed reads' b2 c2
  end.

Lemma parse_step_settled t t' c q ok c1 q1 :
  parse_step t c q = Stop ok c1 q1 → decided ok c1 = false →
  parse_step t' c1 q1 = Stop true c1 q1.
Proof.
  intros Hs Hd. pose proof (parse_step_app t c q []) as H. rewrite Hs in H.
  destruct H as [(-> & -> & ->)|[H _]]; [|congruence].
  revert Hs. unfold parse_step. destruct (state_ c); try done; destruct (find_sub _ _); try done.
  - by destruct (processRequestLine _ _) as [[] ?].
Qed.

Lemma parse_q_settled n t t' c q ok c1 q1 :
  parse_q n t c q = Some (ok, c1, q1) → decided ok c1 = false →
  parse_step t' c1 q1 = Stop true c1 q1.
Proof.
  revert c q. induction n as [|n IH]; intros c q H Hd; [done|]. cbn in H.
  destruct (parse_step t c q) eqn:E; [by eapply IH|].
  injection H as -> -> ->. by eapply parse_step_settled.
Qed.

Lemma undecided_gotAll ok c : decided ok c = false → gotAll c = false.
Proof. unfold decided. by destruct ok, (gotAll c). Qed.

Lemma gotAll_forget c c' : forget c = forget c' → gotAll c = gotAll c'.
Proof. intros H. apply (f_equal state_) in H. cbn in H. unfold gotAll. by rewrite H. Qed.

Lemma feed_ok reads b c c0 :
  wf b → gotAll c = false → forget c = forget c0 →
  Z.max kCheapPrepend (writerIndex_ b) + len (concat (snd <$> reads)) ≤ vector_max_size →
  parse_step 0 c (content b) = Stop true c (content b) →
  ensures (feed reads b c) (λ '(ok, c', rest), ∃ m c'',
    parse_q m 0 c0 (content b ++ concat (snd <$> reads)) = Some (ok, c'', rest) ∧
    forget c' = forget c'').
Proof.
  revert b c c0. induction reads as [|[t d] reads IH]; intros b c c0 Hwf Hg Hf Hsz Hst.
  - cbn. rewrite app_nil_r.
    pose proof (parse_q_forget 1 0 0 c c0 (content b) Hf) as H. cbn [parse_q] in H.
    rewrite Hst in H. cbn in H.
    destruct (parse_step 0 c0 (content b)) as [|ok2 c2 q2] eqn:E; [done|].
    exists 1%nat, c2. cbn [parse_q]. rewrite E. cbn in H. split; congruence.
  - cbn [feed fmap list_fmap concat snd] in *. rewrite len_app in Hsz.
    pose proof (len_nonneg (concat (snd <$> reads))).
    pose proof (wf_reader b Hwf).
    eapply ensures_bind; [apply append_ok; [done|lia]|].
    intros b1 (Hwf1 & Hc1 & _ & Hw1).
    eapply ensures_bind; [by apply parseRequest_ok|].
    intros [[ok b2] c2] (Hwf2 & Hw2 & Hp). rewrite Hc1 in Hp.
    revert Hp. generalize (S (length (content b ++ d))). intros n Hp.
    pose proof (parse_q_forget n t 0 c c0 (content b ++ d) Hf) as Hq. rewrite Hp in Hq. cbn in Hq.
    destruct (parse_q n 0 c0 (content b ++ d)) as [[[ok' c2'] q2]|] eqn:Hp'; cbn in Hq; [|done].
    assert (ok' = ok ∧ q2 = content b2 ∧ forget c2 = forget c2') as (-> & -> & Hf2)
      by (split_and!; congruence). clear Hq.
    rewrite (gotAll_forget c c0) in Hg by done.
    pose proof (parse_q_app _ _ _ _ (concat (snd <$> reads)) _ _ _ Hg Hp') as Happ.
    rewrite app_assoc.
    assert (decided ok c2' = decided ok c2) as Hd by (unfold decided; by rewrite (gotAll_forget c2 c2')).
    rewrite Hd in Happ. destruct (decided ok c2) eqn:Hdc.
    + destruct Happ as [m Hm]. exists m, c2'. done.
    + eapply ensures_mono; [apply (IH b2 c2 c2')|]; try done.
      * by eapply undecided_gotAll.
      * pose proof (len_nonneg d). lia.
      * by eapply parse_q_settled.
      * intros [[ok'' c''] rest] (m & c3 & Hm & Hc3).
        destruct (Happ _ _ Hm) as [m' Hm']. by exists m', c3.
Qed.

(** The bytes a connection's fresh input buffer can hold. *)
Definition acceptable (reads : list (Z * bytes)) (b : Buffer) : Prop :=
  wf b ∧ content b = [] ∧
  Z.max kCheapPrepend (writerIndex_ b) + len (concat (snd <$> reads)) ≤ vector_max_size.

Lemma feed_fresh reads b :
  acceptable reads b →
  ensures (feed reads b newContext) (λ '(ok, c', rest), ∃ m c'',
    parse_q m 0 newContext (concat (snd <$> reads)) = Some (ok, c'', rest) ∧
    forget c' = forget c'').
Proof.
  intros (Hwf & Hc & Hsz).
  pose proof (feed_ok reads b newContext newContext Hwf eq_refl eq_refl Hsz) as H.
  rewrite Hc in H. by apply H.
Qed.

(** C15. The HTTP parser does not depend on how TCP cut the byte stream into
    reads: two ways of feeding the same bytes to a new connection's buffer,
    parsing after every read, give the same verdict, the same request (up to
    its time of receipt) and leave the same bytes unconsumed, and no assert of
    [Buffer] or [HttpContext] is violated. *)
Theorem http_segmentation_irrelevant reads1 reads2 b :
  acceptable reads1 b → acceptable reads2 b →
  concat (snd <$> reads1) = concat (snd <$> reads2) →
  ∃ ok c1 c2 rest,
    feed reads1 b newContext = Ok (ok, c1, rest) ∧
    feed reads2 b newContext = Ok (ok, c2, rest) ∧
    forget c1 = forget c2.
Proof.
  intros H1 H2 Hc.
  apply feed_fresh, ensures_ok in H1 as ([[ok1 c1] r1] & E1 & m1 & c1' & P1 & F1).
  apply feed_fresh, ensures_ok in H2 as ([[ok2 c2] r2] & E2 & m2 & c2' & P2 & F2).
  rewrite <- Hc in P2. pose proof (parse_q_det _ _ _ _ _ _ _ P1 P2) as [= <- <- <-].
  exists ok1, c1, c2, r1. split_and!; congruence.
Qed.

(** ** Printing and parsing *)

Definition method_name (m : Method) : bytes := methodString (mkHttpRequest m kUnknown [] [] 0 ∅).
Definition version_name (v : Version) : bytes :=
  match v with kHttp10 => str "HTTP/1.0" | _ => str "HTTP/1.1" end.

(** A request as a client writes it. *)
Record wire_request := mkWire {
  w_method : Method; w_path : bytes; w_query : option bytes; w_version : Version;
  w_headers : list (bytes * bytes)
}.

Definition print_line (w : wire_request) : bytes :=
  method_name (w_method w) ++ Byte.x20 :: w_path w ++
  match w_query w with Some q => Byte.x3f :: q | None => [] end ++
  Byte.x20 :: version_name (w_version w).

Definition print_header (h : bytes * bytes) : bytes := fst h ++ Byte.x3a :: Byte.x20 :: snd h.

Definition print_request (w : wire_request) : bytes :=
  print_line w ++ kCRLF ++ concat ((λ h, print_header h ++ kCRLF) <$> w_headers w) ++ kCRLF.

Definition clean (bad : list byte) (s : bytes) : Prop := Forall (λ b, b ∉ bad) s.

Record wire_ok (w : wire_request) : Prop := {
  wo_method : w_method w ≠ kInvalid;
  wo_version : w_version w ≠ kUnknown;
  wo_path : clean [Byte.x20; Byte.x3f; Byte.x0d] (w_path w);
  wo_query : ∀ q, w_query w = Some q → clean [Byte.x20; Byte.x0d] q;
  wo_headers : Forall (λ h, clean [Byte.x3a; Byte.x0d] (fst h) ∧
                            clean [Byte.x0d] (snd h) ∧ trimmed (snd h)) (w_headers w)
}.

(** The request object it denotes; a repeated field keeps its last value. *)
Definition wire_value (w : wire_request) : HttpRequest :=
  mkHttpRequest (w_method w) (w_version w) (w_path w) (default [] (w_query w)) 0
    (foldl (λ m h, <[fst h := snd h]> m) ∅ (w_headers w)).

(** A line without CR ends at the first CRLF. *)
Lemma find_crlf line rest :
  Byte.x0d ∉ line → find_sub kCRLF (line ++ kCRLF ++ rest) = Some (length line).
Proof.
  induction line as [|b line IH]; intros Hn.
  - cbn [app find_sub]. unfold kCRLF. cbn [app find_sub]. rewrite bool_decide_true; [done|].
    by exists rest.
  - apply not_elem_of_cons in Hn as [Hb Hn]. cbn [app find_sub]. rewrite bool_decide_false.
    + by rewrite IH.
    + intros [k Hk]. unfold kCRLF in Hk. cbn in Hk. congruence.
Qed.

Lemma clean_not_in bad s c : clean bad s → c ∈ bad → c ∉ s.
Proof.
  intros Hs Hc Hin. unfold clean in Hs. rewrite Forall_forall in Hs. by apply (Hs c).
Qed.

Lemma setMethod_name m r :
  m ≠ kInvalid → setMethod (method_name m) r =
    (true, mkHttpRequest m (version_ r) (path_ r) (query_ r) (receiveTime_ r) (headers_ r)).
Proof. by destruct m. Qed.

Lemma method_name_clean m : m ≠ kInvalid → clean [Byte.x20; Byte.x0d] (method_name m).
Proof. intros Hm. unfold clean. destruct m; [done|by apply (bool_decide_unpack _)..]. Qed.

Lemma version_name_clean v : clean [Byte.x0d] (version_name v).
Proof. unfold clean. destruct v; by apply (bool_decide_unpack _). Qed.

Lemma find_from_app c p s pos :
  pos = length p → find_from c pos (p ++ s) = (λ i, (pos + i)%nat) <$> find_byte c s.
Proof. intros ->. unfold find_from. by rewrite drop_app_length. Qed.

Lemma find_byte_clean bad c s : clean bad s → c ∈ bad → find_byte c s = None.
Proof. intros H1 H2. apply find_byte_none. by eapply clean_not_in. Qed.

Definition print_uri (w : wire_request) : bytes :=
  w_path w ++ match w_query w with Some q => Byte.x3f :: q | None => [] end.

Lemma print_uri_no c w :
  wire_ok w → c ∈ [Byte.x20; Byte.x0d] → c ∉ print_uri w.
Proof.
  intros [_ _ Hp Hq _] Hc. unfold print_uri. rewrite not_elem_of_app. split.
  - eapply clean_not_in; [done|]. set_solver.
  - destruct (w_query w) as [q|]; [|apply not_elem_of_nil].
    rewrite not_elem_of_cons. split; [|by eapply clean_not_in; [apply Hq|]].
    rewrite !elem_of_cons in Hc. destruct Hc as [->|[->|Hc]]; [done|done|].
    by apply elem_of_nil in Hc.
Qed.

Lemma processRequestLine_print w r :
  wire_ok w →
  processRequestLine (print_line w) r =
    (true, mkHttpRequest (w_method w) (w_version w) (w_path w)
             (default (query_ r) (w_query w)) (receiveTime_ r) (headers_ r)).
Proof.
  intros Hw. pose proof Hw as [Hm Hv Hp Hq _].
  unfold processRequestLine, print_line.
  rewrite find_byte_app by (eapply clean_not_in; [by apply method_name_clean|set_solver]).
  rewrite take_app_length, setMethod_name by done. cbn [negb].
  replace (method_name (w_method w) ++ Byte.x20 :: w_path w ++ _) with
    ((method_name (w_method w) ++ [Byte.x20]) ++ print_uri w ++ Byte.x20 :: version_name (w_version w))
    by (unfold print_uri; by rewrite <- !app_assoc).
  assert (S (length (method_name (w_method w))) = length (method_name (w_method w) ++ [Byte.x20])) as Hlen
    by (rewrite length_app; simpl; lia).
  rewrite Hlen, find_from_app by done.
  rewrite find_byte_app by (apply print_uri_no; [done|set_solver]). cbn [fmap option_fmap option_map].
  rewrite drop_app_length.
  replace (length (method_name (w_method w) ++ [Byte.x20]) + length (print_uri w) -
    length (method_name (w_method w) ++ [Byte.x20]))%nat with (length (print_uri w)) by lia.
  rewrite take_app_length.
  replace (drop (S _) _) with (version_name (w_version w)).
  2:{ replace ((method_name (w_method w) ++ [Byte.x20]) ++ print_uri w ++ Byte.x20 :: version_name (w_version w))
        with (((method_name (w_method w) ++ [Byte.x20]) ++ print_uri w ++ [Byte.x20]) ++ version_name (w_version w))
        by (by rewrite <- !app_assoc).
      rewrite drop_app_length'; [done|]. rewrite !length_app. simpl. lia. }
  assert (∀ r0, (if bool_decide (version_name (w_version w) = str "HTTP/1.1") then (true, setVersion kHttp11 r0)
     else if bool_decide (version_name (w_version w) = str "HTTP/1.0") then (true, setVersion kHttp10 r0)
     else (false, r0)) = (true, setVersion (w_version w) r0)) as Hver
    by (intros; by destruct (w_version w)).
  rewrite Hver. unfold print_uri.
  destruct (w_query w) as [q|].
  - rewrite find_byte_app by (eapply clean_not_in; [done|set_solver]).
    rewrite take_app_length. cbn [default].
    replace (drop _ (w_path w ++ Byte.x3f :: q)) with q; [done|].
    rewrite (cons_middle Byte.x3f), app_assoc. rewrite drop_app_length'; [done|].
    rewrite length_app. simpl. lia.
  - rewrite app_nil_r. by erewrite find_byte_clean by (done || set_solver).
Qed.

Definition add_headers (hs : list (bytes * bytes)) (r : HttpRequest) : HttpRequest :=
  mkHttpRequest (method_ r) (version_ r) (path_ r) (query_ r) (receiveTime_ r)
    (foldl (λ m h, <[fst h := snd h]> m) (headers_ r) hs).

Lemma parse_step_header t r h rest :
  clean [Byte.x3a; Byte.x0d] (fst h) → clean [Byte.x0d] (snd h) → trimmed (snd h) →
  parse_step t (mkHttpContext kExpectHeaders r) (print_header h ++ kCRLF ++ rest) =
  Go (mkHttpContext kExpectHeaders (add_headers [h] r)) rest.
Proof.
  intros Hk Hv Ht. unfold parse_step. cbn [state_ request_].
  rewrite find_crlf.
  2:{ unfold print_header. rewrite not_elem_of_app. split; [eapply clean_not_in; [done|set_solver]|].
      rewrite !not_elem_of_cons. split_and!; [done|done|]. eapply clean_not_in; [done|set_solver]. }
  rewrite take_app_length. unfold print_header at 1.
  rewrite find_byte_app by (eapply clean_not_in; [done|set_solver]).
  f_equal.
  - f_equal. unfold print_header. rewrite take_app_length.
    replace (drop (S _) _) with (Byte.x20 :: snd h).
    + unfold addHeader. by rewrite trim_space by done.
    + rewrite (cons_middle Byte.x3a), app_assoc, drop_app_length'; [done|].
      rewrite length_app. simpl. lia.
  - rewrite app_assoc, drop_app_length'; [done|]. by rewrite length_app.
Qed.

Lemma parse_headers t hs r rest :
  Forall (λ h, clean [Byte.x3a; Byte.x0d] (fst h) ∧ clean [Byte.x0d] (snd h) ∧ trimmed (snd h)) hs →
  parse_q (S (length hs)) t (mkHttpContext kExpectHeaders r)
    (concat ((λ h, print_header h ++ kCRLF) <$> hs) ++ kCRLF ++ rest) =
  Some (true, mkHttpContext kGotAll (add_headers hs r), rest).
Proof.
  intros Hhs. revert r. induction Hhs as [|h hs (Hk & Hv & Ht) _ IH]; intros r.
  - by destruct r.
  - cbn [length]. remember (S (length hs)) as n. cbn [parse_q fmap list_fmap concat].
    rewrite <- !app_assoc, parse_step_header by done.
    etransitivity; [|apply (IH (add_headers [h] r))]. done.
Qed.

Lemma parse_printed w rest :
  wire_ok w →
  ∃ m, parse_q m 0 newContext (print_request w ++ rest) =
       Some (true, mkHttpContext kGotAll (wire_value w), rest).
Proof.
  intros Hw. exists (S (S (length (w_headers w)))).
  remember (S (length (w_headers w))) as n eqn:Hn. cbn [parse_q].
  unfold parse_step. cbn [state_ newContext]. unfold print_request.
  rewrite <- !app_assoc, find_crlf.
  2:{ unfold print_line.
      replace (method_name (w_method w) ++ Byte.x20 :: w_path w ++ _) with
        (method_name (w_method w) ++ [Byte.x20] ++ print_uri w ++ [Byte.x20] ++ version_name (w_version w))
        by (unfold print_uri; by rewrite <- !app_assoc).
      rewrite !not_elem_of_app. pose proof Hw as [Hm _ _ _ _]. split_and!.
      - eapply clean_not_in; [by apply method_name_clean|set_solver].
      - by rewrite list_elem_of_singleton.
      - apply print_uri_no; [done|set_solver].
      - by rewrite list_elem_of_singleton.
      - eapply clean_not_in; [apply version_name_clean|set_solver]. }
  rewrite take_app_length, processRequestLine_print by done.
  rewrite app_assoc, drop_app_length'; [|by rewrite length_app].
  rewrite Hn, parse_headers by apply Hw. done.
Qed.

(** Whatever a client writes is what the server reads: a request printed
    on the wire in any legal way (path without '?', fields without ':' or CR,
    trimmed values) and cut into reads in any way is accepted, parses to the
    request it denotes, and what follows it stays in the buffer. *)
Theorem http_request_roundtrip w rest reads b :
  wire_ok w → acceptable reads b →
  concat (snd <$> reads) = print_request w ++ rest →
  ∃ c, feed reads b newContext = Ok (true, c, rest) ∧
       gotAll c = true ∧ setReceiveTime 0 (request_ c) = wire_value w.
Proof.
  intros Hw Ha Hc. destruct (parse_printed w rest Hw) as [m1 P1].
  apply feed_fresh, ensures_ok in Ha as ([[ok c] r] & E & m2 & c' & P2 & F).
  rewrite Hc in P2. pose proof (parse_q_det _ _ _ _ _ _ _ P1 P2) as [= <- <- <-].
  exists c. split_and!; [done|by rewrite (gotAll_forget _ _ F)|].
  by apply (f_equal request_) in F.
Qed.

(** ** The theorems at concrete inputs *)

Definition fresh_input : Buffer := mkBuffer (replicate 64 Byte.x00) 8 8.

Definition sample_wire : wire_request :=
  mkWire kGet (str "/a") (Some (str "x=1")) kHttp10 [(str "Host", str "b"); (str "Connection", str "close")].
Definition sample_reads : list (Z * bytes) :=
  [(5, str "GET /a?x=1 HTT"); (6, str "P/1.0" ++ [Byte.x0d]);
   (7, [Byte.x0a] ++ str "Host: b" ++ kCRLF ++ str "Conn"); (9, str "ection: close" ++ kCRLF ++ kCRLF ++ str "GET")].
Definition sample_one_read : list (Z * bytes) := [(5, print_request sample_wire ++ str "GET")].

Lemma fresh_input_acceptable reads :
  len (concat (snd <$> reads)) <= 1000 → acceptable reads fresh_input.
Proof.
  intros Hl. repeat split; try done. cbn [fresh_input writerIndex_].
  unfold kCheapPrepend, vector_max_size. lia.
Qed.

Lemma sample_wire_ok : wire_ok sample_wire.
Proof.
  split; try done.
  - by apply (bool_decide_unpack _).
  - intros q [= <-]. by apply (bool_decide_unpack _).
  - repeat constructor; try (by apply (bool_decide_unpack _));
      cbn [snd]; intros b v E;
      first [by injection E as <- |
        apply (f_equal last) in E; rewrite last_snoc in E; by injection E as <-].
Qed.

Lemma http_segmentation_irrelevant_witness :
  ∃ ok c1 c2 rest,
    feed sample_reads fresh_input newContext = Ok (ok, c1, rest) ∧
    feed sample_one_read fresh_input newContext = Ok (ok, c2, rest) ∧
    forget c1 = forget c2.
Proof.
  apply http_segmentation_irrelevant.
  - apply fresh_input_acceptable. by vm_compute.
  - apply fresh_input_acceptable. by vm_compute.
  - by vm_compute.
Defined.

Lemma http_request_roundtrip_witness :
  ∃ c, feed sample_reads fresh_input newContext = Ok (true, c, str "GET") ∧
       gotAll c = true ∧ setReceiveTime 0 (request_ c) = wire_value sample_wire.
Proof.
  apply http_request_roundtrip; [apply sample_wire_ok| |by vm_compute].
  apply fresh_input_acceptable. by vm_compute.
Defined.
