(* ===== verification/Timestamp.v ===== *)
(** * Timestamp: microseconds since the epoch ([muduo/base/Timestamp.h])

    A [Timestamp] is its count of microseconds. The C++ count is a signed
    64-bit integer (292,000 years around the epoch); it is a [Z] here, and the
    sums below are sums of times near the present. *)
From S2P Require Import Prelude Format.
From stdpp Require Import options.

(* src/muduo/base/Timestamp.h:12-21 Timestamp *)
Definition Timestamp : Type := Z.

(* src/muduo/base/Timestamp.h:63-63 Timestamp::kMicroSecondsPerSecond *)
Definition kMicroSecondsPerSecond : Z := 1000 * 1000.

(* src/muduo/base/Timestamp.h:35-37 Timestamp::microSecondsSinceEpoch *)
Definition microSecondsSinceEpoch (t : Timestamp) : Z := t.
(* src/muduo/base/Timestamp.h:31-33 Timestamp::valid *)
Definition valid (t : Timestamp) : bool := 0 <? microSecondsSinceEpoch t.
(* src/muduo/base/Timestamp.h:39-43 Timestamp::secondsSinceEpoch *)
Definition secondsSinceEpoch (t : Timestamp) : Z := Z.quot t kMicroSecondsPerSecond.
(* src/muduo/base/Timestamp.h:49-49 Timestamp::invalid *)
Definition invalid : Timestamp := 0.
(* src/muduo/base/Timestamp.h:51-59 Timestamp::fromUnixTime *)
Definition fromUnixTime (t microseconds : Z) : Timestamp :=
  t * kMicroSecondsPerSecond + microseconds.
(* src/muduo/base/Timestamp.h:23-25 Timestamp::swap *)
Definition swap (a b : Timestamp) : Timestamp * Timestamp := (b, a).

(* src/muduo/base/Timestamp.cc:8-13 Timestamp::toString *)
Definition toString (t : Timestamp) : bytes :=
  let micros := microSecondsSinceEpoch t in
  let seconds := Z.quot micros kMicroSecondsPerSecond in
  let microseconds := Z.rem micros kMicroSecondsPerSecond in
  format_int seconds ++ [Byte.x2e] ++ format_pad 6 microseconds.

(** [seconds.microseconds] read back. *)
Definition read_timestamp (s : bytes) : option Timestamp :=
  match find_byte Byte.x2e s with
  | Some i => Some (fromUnixTime (int_value (take i s)) (dec_value (drop (S i) s)))
  | None => None
  end.

(** [toString] of a time at or after the epoch prints six digits of
    microseconds, and reading the seconds and the microseconds back with
    [fromUnixTime] gives the time; [secondsSinceEpoch] is the printed integer
    part. *)
Theorem timestamp_roundtrip t :
  0 ≤ t →
  read_timestamp (toString t) = Some t ∧
  (∃ p, toString t = format_int (secondsSinceEpoch t) ++ Byte.x2e :: p ∧ length p = 6%nat).
Proof.
  intros Ht. unfold read_timestamp, toString, microSecondsSinceEpoch, secondsSinceEpoch, kMicroSecondsPerSecond.
  change (1000 * 1000) with 1000000.
  pose proof (Z.rem_bound_pos t 1000000). pose proof (Z.quot_rem' t 1000000).
  destruct (format_pad_spec 6 (Z.rem t 1000000)) as (Hl & Hv & _); [lia..|].
  cbn [app]. split; [|eauto].
  rewrite find_byte_app.
  - rewrite take_app_length, format_int_value.
    rewrite (cons_middle Byte.x2e), app_assoc, drop_app_length' by (rewrite length_app; simpl; lia).
    rewrite Hv. unfold fromUnixTime, kMicroSecondsPerSecond. f_equal. lia.
  - unfold format_int. pose proof (Z.quot_pos t 1000000).
    destruct (Z.ltb_spec (Z.quot t 1000000) 0); [lia|].
    intros Hin. pose proof (format_nat_digits (Z.quot t 1000000)) as Hd.
    rewrite Forall_forall in Hd. by specialize (Hd ltac:(lia) _ Hin).
Qed.

Lemma timestamp_roundtrip_witness :
  read_timestamp (toString 1234000042) = Some 1234000042 ∧
  (∃ p, toString 1234000042 = format_int (secondsSinceEpoch 1234000042) ++ Byte.x2e :: p ∧ length p = 6%nat).
Proof. apply timestamp_roundtrip. lia. Defined.
