(* ===== verification/TimestampSeconds.v ===== *)
(** * TimestampSeconds: differences of times as seconds
    ([muduo/base/Timestamp.h])

    The two functions that go through [std::chrono::duration<double>]. *)
From S2P Require Import Prelude Double Timestamp.
From stdpp Require Import options.
#[local] Open Scope Z_scope.

(** The conversion divides the count, as a double, by a million. *)
(* src/muduo/base/Timestamp.h:69-72 timeDifference *)
Definition timeDifference (high low : Timestamp) : Z :=
  fdiv (of_int (swrap 64 (high - low))) (of_int kMicroSecondsPerSecond).

(** It multiplies by a million and drops the fraction. *)
(* src/muduo/base/Timestamp.h:74-78 addTime *)
Definition addTime (timestamp : Timestamp) (seconds : Z) : Timestamp :=
  timestamp + to_int (fmul seconds (of_int kMicroSecondsPerSecond)).

(** Adding a difference comes back to the later time, or to the microsecond
    before it, for differences of up to 35 years. *)
Theorem add_time_difference low high :
  0 ≤ high - low ≤ 2 ^ 50 → high - 1 ≤ addTime low (timeDifference high low) ≤ high.
Proof.
  intros Hd. unfold addTime, timeDifference. remember (high - low) as d eqn:Hdd. pose proof scale_pos as HS.
  assert (2 ^ 53 < 2 ^ 63 ∧ 2 ^ 50 < 2 ^ 53) as [? ?] by done.
  rewrite swrap_id by (unfold in_signed; lia). rewrite !of_int_exact by (unfold kMicroSecondsPerSecond; lia).
  set (M := kMicroSecondsPerSecond). assert (0 < M) as HM by done.
  destruct (Z.eq_dec d 0) as [->|Hd0].
  { change (to_int _) with 0. lia. }
  set (x := fdiv (d * scale) (M * scale)). set (y := fmul x (M * scale)).
  assert (Z.abs (x * M - d * scale) * 2 ^ 53 ≤ d * scale) as H1.
  { unfold x, fdiv. rewrite (proj2 (Z.ltb_lt 0 (M * scale))) by lia.
    pose proof (dbl_error (d * scale) (M * scale)) as E.
    assert (Z.abs (dbl (d * scale) (M * scale) * (M * scale) - d * scale * scale) * 2 ^ 53 ≤ d * scale * scale) as E'.
    { apply E; [lia|lia|]. assert (M * 2 ^ 53 ≤ scale) as L by done.
      assert (1 * (M * 2 ^ 53) ≤ d * scale) as L2 by (apply Z.mul_le_mono_nonneg; lia).
      replace (M * scale * 2 ^ 53) with (M * 2 ^ 53 * scale) by lia. apply Z.mul_le_mono_nonneg_r; lia. }
    replace (dbl (d * scale) (M * scale) * (M * scale) - d * scale * scale)
      with ((dbl (d * scale) (M * scale) * M - d * scale) * scale) in E' by lia.
    rewrite Z.abs_mul, (Z.abs_eq scale) in E' by lia. apply Z.mul_le_mono_pos_r with scale; [done|]. lia. }
  assert (d * scale ≤ x * M * 2) as Hx by lia. assert (0 ≤ x) as Hx0 by lia.
  assert (Z.abs (y - x * M) * 2 ^ 53 ≤ x * M) as H2.
  { unfold y, fmul. pose proof (dbl_error (x * (M * scale)) (scale * scale)) as E.
    assert (Z.abs (dbl (x * (M * scale)) (scale * scale) * (scale * scale) - x * (M * scale) * scale) * 2 ^ 53 ≤ x * (M * scale) * scale) as E'.
    { apply E; [lia|lia|]. assert (2 ^ 54 ≤ scale) as L by done.
      assert (1 * scale ≤ d * scale) as L1 by (apply Z.mul_le_mono_nonneg_r; lia).
      assert (2 ^ 53 ≤ x * M) as L2 by lia.
      replace (x * (M * scale) * scale) with (x * M * (scale * scale)) by lia.
      rewrite (Z.mul_comm (scale * scale)). apply Z.mul_le_mono_nonneg_r; lia. }
    replace (dbl (x * (M * scale)) (scale * scale) * (scale * scale) - x * (M * scale) * scale)
      with ((dbl (x * (M * scale)) (scale * scale) - x * M) * (scale * scale)) in E' by lia.
    rewrite Z.abs_mul, (Z.abs_eq (scale * scale)) in E' by lia. apply Z.mul_le_mono_pos_r with (scale * scale); [lia|]. lia. }
  assert (d * scale ≤ 2 ^ 50 * scale) as Hdm by (apply Z.mul_le_mono_nonneg_r; lia).
  assert ((d - 1) * scale ≤ y ∧ y < (d + 1) * scale) as [Y1 Y2].
  { clear -H1 H2 Hdm HS Hx0 Hd Hd0 Hx. rewrite Z.mul_sub_distr_r, Z.mul_add_distr_r. lia. }
  unfold to_int. rewrite Z.quot_div_nonneg by lia.
  assert (d - 1 ≤ y / scale) by (apply Z.div_le_lower_bound; lia).
  assert (y / scale < d + 1) by (apply Z.div_lt_upper_bound; lia). lia.
Qed.

Lemma add_time_difference_witness : 999 - 1 ≤ addTime 500 (timeDifference 999 500) ≤ 999.
Proof. apply (add_time_difference 500 999). lia. Defined.

(** A difference of 249 microseconds is added as 248. *)
Lemma difference_lost : addTime 0 (timeDifference 249 0) = 248.
Proof. vm_compute. reflexivity. Qed.
