(* ===== verification/TimerQueue.v ===== *)
(** * TimerQueue: one-shot and periodic timers of an EventLoop
    ([muduo/net/Timer.h], [TimerId.h], [TimerQueue.h], [TimerQueue.cc])

    [std::set<Entry>] is a sorted list of (expiration, sequence), the other
    sets and the owner map are stdpp's. The system clock is a parameter: its
    n-th sample is [clock n] and the state counts the samples, so that the two
    readings inside [handleRead] differ as they do in the code. No property of
    the clock but positivity is used: it may jump. A timer callback is what it
    does to the queue, a list of [timer_action]; which actions each callback
    performs is an argument of the dispatch, so the theorems hold for every
    user code. *)
From Stdlib Require Import Sorting.Sorted.
From S2P Require Import Prelude Timestamp.
From stdpp Require Import options.

(* src/muduo/net/Timer.h:33-37 Timer *)
Record Timer := mkTimer {
  callback_ : Z;             (* a name for the callback *)
  expiration_ : Timestamp;
  interval_ : Z;
  repeat_ : bool;
  sequence_ : Z
}.

(* src/muduo/net/Timer.h:15-18 Timer::Timer *)
Definition newTimer (cb : Z) (when : Timestamp) (interval numCreated : Z) : Timer :=
  mkTimer cb when interval (0 <? interval) (numCreated + 1).

(* src/muduo/net/Timer.cc:9-15 Timer::restart *)
Definition restart (now : Timestamp) (t : Timer) : Timer :=
  mkTimer (callback_ t) (if repeat_ t then now + interval_ t else invalid)
    (interval_ t) (repeat_ t) (sequence_ t).

(* src/muduo/net/TimerId.h:12-15 TimerId *)
Record TimerId := mkTimerId { id_sequence : Z }.
(* src/muduo/net/TimerId.h:21-21 TimerId::valid *)
Definition id_valid (i : TimerId) : bool := 0 <? id_sequence i.

(** ** [std::set<Entry>] *)

(* src/muduo/net/TimerQueue.h:41-41 TimerQueue::Entry *)
Definition Entry : Type := Timestamp * Z.

(** [std::pair]'s ordering. *)
Definition entry_lt (a b : Entry) : bool :=
  (fst a <? fst b) || ((fst a =? fst b) && (snd a <? snd b)).

Fixpoint set_insert (e : Entry) (l : list Entry) : bool * list Entry :=
  match l with
  | [] => (true, [e])
  | x :: l' => if entry_lt e x then (true, e :: l)
               else if entry_lt x e then let '(ok, r) := set_insert e l' in (ok, x :: r)
               else (false, l)
  end.

Fixpoint set_erase (e : Entry) (l : list Entry) : Z * list Entry :=
  match l with
  | [] => (0, [])
  | x :: l' => if entry_lt x e then let '(n, r) := set_erase e l' in (n, x :: r)
               else if entry_lt e x then (0, l) else (1, l')
  end.

(** The elements up to [upper_bound(e)], and those from there on. *)
Fixpoint split_upper_bound (e : Entry) (l : list Entry) : list Entry * list Entry :=
  match l with
  | [] => ([], [])
  | x :: l' => if entry_lt e x then ([], l)
               else let '(a, b) := split_upper_bound e l' in (x :: a, b)
  end.

(** ** The queue *)

(** A functor [addTimer] or [cancel] hands to [EventLoop::runInLoop]. *)
Inductive functor := FAdd (t : Timer) | FCancel (i : TimerId).

(* src/muduo/net/TimerQueue.h:55-63 TimerQueue *)
Record TimerQueue := mkQueue {
  timers_ : list Entry;
  activeTimers_ : gset Z;
  callingExpiredTimers_ : bool;
  cancelingTimers_ : gset Z;
  timerOwners_ : gmap Z Timer;
  (* the process around it *)
  numCreated_ : Z;                 (* Timer::s_numCreated_ *)
  timerfd_ : option (Timestamp * (Z * Z)); (* armed: the expiration asked for and the timespec set *)
  samples_ : nat;                  (* clock readings so far *)
  pending_ : list functor;         (* the loop's functors that are ours *)
  ran_ : list (Z * Z)              (* (sequence, callback) of the callbacks run, in order *)
}.

Section Queue.
Context (clock : nat → Z).

Definition set_pending l q := mkQueue (timers_ q) (activeTimers_ q) (callingExpiredTimers_ q)
  (cancelingTimers_ q) (timerOwners_ q) (numCreated_ q) (timerfd_ q) (samples_ q) l (ran_ q).
Definition set_owners o q := mkQueue (timers_ q) (activeTimers_ q) (callingExpiredTimers_ q)
  (cancelingTimers_ q) o (numCreated_ q) (timerfd_ q) (samples_ q) (pending_ q) (ran_ q).
Definition set_sets l a q := mkQueue l a (callingExpiredTimers_ q)
  (cancelingTimers_ q) (timerOwners_ q) (numCreated_ q) (timerfd_ q) (samples_ q) (pending_ q) (ran_ q).
Definition set_calling c cs q := mkQueue (timers_ q) (activeTimers_ q) c
  cs (timerOwners_ q) (numCreated_ q) (timerfd_ q) (samples_ q) (pending_ q) (ran_ q).
Definition set_created n q := mkQueue (timers_ q) (activeTimers_ q) (callingExpiredTimers_ q)
  (cancelingTimers_ q) (timerOwners_ q) n (timerfd_ q) (samples_ q) (pending_ q) (ran_ q).
Definition set_timerfd fd q := mkQueue (timers_ q) (activeTimers_ q) (callingExpiredTimers_ q)
  (cancelingTimers_ q) (timerOwners_ q) (numCreated_ q) fd (samples_ q) (pending_ q) (ran_ q).
Definition log_run e q := mkQueue (timers_ q) (activeTimers_ q) (callingExpiredTimers_ q)
  (cancelingTimers_ q) (timerOwners_ q) (numCreated_ q) (timerfd_ q) (samples_ q) (pending_ q) (ran_ q ++ [e]).

(* src/muduo/base/Timestamp.cc:26-29 Timestamp::now *)
Definition Timestamp_now (q : TimerQueue) : Timestamp * TimerQueue :=
  (clock (samples_ q), mkQueue (timers_ q) (activeTimers_ q) (callingExpiredTimers_ q)
    (cancelingTimers_ q) (timerOwners_ q) (numCreated_ q) (timerfd_ q) (S (samples_ q))
    (pending_ q) (ran_ q)).

(* src/muduo/net/TimerQueue.cc:26-37 howMuchTimeFromNow *)
Definition howMuchTimeFromNow (when now : Timestamp) : Z * Z :=
  let microseconds := Z.max (microSecondsSinceEpoch when - microSecondsSinceEpoch now) 100 in
  (Z.quot microseconds kMicroSecondsPerSecond,
   Z.rem microseconds kMicroSecondsPerSecond * 1000).

(* src/muduo/net/TimerQueue.cc:49-57 resetTimerfd *)
Definition resetTimerfd (expiration : Timestamp) (q : TimerQueue) : TimerQueue :=
  let '(now, q1) := Timestamp_now q in
  set_timerfd (Some (expiration, howMuchTimeFromNow expiration now)) q1.

(** The timerfd is one-shot: reading it after it fired leaves it disarmed. *)
(* src/muduo/net/TimerQueue.cc:39-47 readTimerfd *)
Definition readTimerfd (q : TimerQueue) : TimerQueue := set_timerfd None q.

(** [timers_.size() == activeTimers_.size()] *)
Definition same_size (q : TimerQueue) : bool :=
  Nat.eqb (length (timers_ q)) (size (activeTimers_ q)).

(* src/muduo/net/TimerQueue.cc:204-225 TimerQueue::insertTimer *)
Definition insertTimer (timer : Timer) (q : TimerQueue) : outcome (bool * TimerQueue) :=
  assert! same_size q ;;
  let when := expiration_ timer in
  let seq := sequence_ timer in
  let earliestChanged :=
    match timers_ q with [] => true | first :: _ => when <? fst first end in
  let '(timerInserted, l) := set_insert (when, seq) (timers_ q) in
  assert! timerInserted ;;
  let activeInserted := bool_decide (seq ∉ activeTimers_ q) in
  assert! activeInserted ;;
  let q' := set_sets l ({[seq]} ∪ activeTimers_ q) q in
  assert! same_size q' ;;
  Ok (earliestChanged, q').

(* src/muduo/net/TimerQueue.cc:92-105 TimerQueue::addTimerInLoop *)
Definition addTimerInLoop (timer : Timer) (q : TimerQueue) : outcome TimerQueue :=
  assert! same_size q ;;
  let timerSeq := sequence_ timer in
  let expiration := expiration_ timer in
  let! (earliestChanged, q1) := insertTimer timer q in
  let ownerInserted := bool_decide (timerOwners_ q1 !! timerSeq = None) in
  assert! ownerInserted ;;
  let q2 := set_owners (<[timerSeq := timer]> (timerOwners_ q1)) q1 in
  if earliestChanged then Ok (resetTimerfd expiration q2) else Ok q2.

(* src/muduo/net/TimerQueue.cc:107-130 TimerQueue::cancelInLoop *)
Definition cancelInLoop (timerId : TimerId) (q : TimerQueue) : outcome TimerQueue :=
  assert! same_size q ;;
  if negb (id_valid timerId) then Ok q else
  let timer := id_sequence timerId in
  let! q' := (
    if decide (timer ∈ activeTimers_ q) then
      match timerOwners_ q !! timer with
      | None => Fault AssertFailed
      | Some owner =>
          let '(erased, l) := set_erase (expiration_ owner, timer) (timers_ q) in
          assert! erased =? 1 ;;
          let q1 := set_owners (delete timer (timerOwners_ q)) q in
          Ok (set_sets l (activeTimers_ q1 ∖ {[timer]}) q1)
      end
    else if callingExpiredTimers_ q then
      Ok (set_calling (callingExpiredTimers_ q) ({[timer]} ∪ cancelingTimers_ q) q)
    else Ok q) in
  assert! same_size q' ;;
  Ok q'.

(** [loop_->runInLoop]: at once in the loop thread, queued from another. *)
Definition runFunctor (f : functor) (q : TimerQueue) : outcome TimerQueue :=
  match f with FAdd t => addTimerInLoop t q | FCancel i => cancelInLoop i q end.
Definition runInLoop (inLoopThread : bool) (f : functor) (q : TimerQueue) : outcome TimerQueue :=
  if inLoopThread then runFunctor f q else Ok (set_pending (pending_ q ++ [f]) q).

(* src/muduo/net/TimerQueue.cc:78-86 TimerQueue::addTimer *)
Definition addTimer (inLoopThread : bool) (cb : Z) (when : Timestamp) (interval : Z)
    (q : TimerQueue) : outcome (TimerId * TimerQueue) :=
  let timer := newTimer cb when interval (numCreated_ q) in
  let sequence := sequence_ timer in
  let! q' := runInLoop inLoopThread (FAdd timer) (set_created sequence q) in
  Ok (mkTimerId sequence, q').

(* src/muduo/net/TimerQueue.cc:88-90 TimerQueue::cancel *)
Definition cancel (inLoopThread : bool) (timerId : TimerId) (q : TimerQueue) : outcome TimerQueue :=
  runInLoop inLoopThread (FCancel timerId) q.

(** What a timer callback does to the queue, in order. *)
Inductive timer_action :=
| ActAdd (cb : Z) (when : Timestamp) (interval : Z)
| ActCancel (i : TimerId).

Definition act (a : timer_action) (q : TimerQueue) : outcome TimerQueue :=
  match a with
  | ActAdd cb when interval => let! (_, q') := addTimer true cb when interval q in Ok q'
  | ActCancel i => cancel true i q
  end.

(* src/muduo/net/Timer.h:20-20 Timer::run *)
Definition run (behave : Z → list timer_action) (t : Timer) (q : TimerQueue) : outcome TimerQueue :=
  foldM act (behave (sequence_ t)) (log_run (sequence_ t, callback_ t) q).

(** [std::numeric_limits<TimerSequence>::max()] *)
Definition max_sequence : Z := 2 ^ 63 - 1.

(* src/muduo/net/TimerQueue.cc:152-173 TimerQueue::getExpired *)
Definition getExpired (now : Timestamp) (q : TimerQueue) : outcome (list Entry * TimerQueue) :=
  assert! same_size q ;;
  let sentry := (now, max_sequence) in
  let '(expired, rest) := split_upper_bound sentry (timers_ q) in
  let! q1 := foldM (λ (entry : Entry) q,
      assert! bool_decide (snd entry ∈ activeTimers_ q) ;;
      Ok (set_sets (timers_ q) (activeTimers_ q ∖ {[snd entry]}) q))
    expired (set_sets rest (activeTimers_ q) q) in
  assert! same_size q1 ;;
  Ok (expired, q1).

Definition reset_one (now : Timestamp) (entry : Entry) (q : TimerQueue) : outcome TimerQueue :=
  let timerSeq := snd entry in
  match timerOwners_ q !! timerSeq with
  | None => Ok q
  | Some timer =>
      if repeat_ timer && negb (bool_decide (timerSeq ∈ cancelingTimers_ q)) then
        let timer' := restart now timer in
        let! (_, q') := insertTimer timer' (set_owners (<[timerSeq := timer']> (timerOwners_ q)) q) in
        Ok q'
      else Ok (set_owners (delete timerSeq (timerOwners_ q)) q)
  end.

(* src/muduo/net/TimerQueue.cc:175-202 TimerQueue::reset *)
Definition reset (expired : list Entry) (now : Timestamp) (q : TimerQueue) : outcome TimerQueue :=
  let! q1 := foldM (reset_one now) expired q in
  let nextExpire := match timers_ q1 with [] => invalid | first :: _ => fst first end in
  Ok (if valid nextExpire then resetTimerfd nextExpire q1 else q1).

Definition call_one (behave : Z → list timer_action) (entry : Entry) (q : TimerQueue)
    : outcome TimerQueue :=
  match timerOwners_ q !! snd entry with
  | Some owner => run behave owner q
  | None => Ok q
  end.

(* src/muduo/net/TimerQueue.cc:132-150 TimerQueue::handleRead *)
Definition handleRead (behave : Z → list timer_action) (q : TimerQueue) : outcome TimerQueue :=
  let '(now, q0) := Timestamp_now q in
  let q1 := readTimerfd q0 in
  let! (expired, q2) := getExpired now q1 in
  let q3 := set_calling true ∅ q2 in
  let! q4 := foldM (call_one behave) expired q3 in
  let q5 := set_calling false (cancelingTimers_ q4) q4 in
  reset expired now q5.

(* src/muduo/net/TimerQueue.cc:64-70 TimerQueue::TimerQueue *)
Definition newQueue : TimerQueue := mkQueue [] ∅ false ∅ ∅ 0 None 0 [] [].

(** ** What a user of the queue can make happen *)

Inductive op :=
| OpAdd (inLoopThread : bool) (cb : Z) (when : Timestamp) (interval : Z)
| OpCancel (inLoopThread : bool) (i : TimerId)
| OpPending                                   (* the loop runs the queued functors *)
| OpFire (behave : Z → list timer_action)     (* the timerfd is readable *)
| OpForeign.                                  (* another loop creates a Timer *)

Definition exec (o : op) (q : TimerQueue) : outcome TimerQueue :=
  match o with
  | OpAdd here cb when interval => let! (_, q') := addTimer here cb when interval q in Ok q'
  | OpCancel here i => cancel here i q
  | OpPending => foldM runFunctor (pending_ q) (set_pending [] q)
  | OpFire behave => handleRead behave q
  | OpForeign => Ok (set_created (numCreated_ q + 1) q)
  end.

(** The states of a queue between two events, while the sequence counter has
    not reached the end of its type. *)
Inductive reachable : TimerQueue → Prop :=
| reach_new : reachable newQueue
| reach_step q o q' :
    reachable q → numCreated_ q ≤ max_sequence → exec o q = Ok q' → reachable q'.

(** ** The specification: a map of scheduled timers *)

Record spec := mkSpec {
  s_timers : gmap Z Timer;
  s_created : Z;
  s_pending : list functor;
  s_ran : list (Z * Z)
}.

Definition spec_functor (m : gmap Z Timer) (f : functor) : gmap Z Timer :=
  match f with
  | FAdd t => <[sequence_ t := t]> m
  | FCancel i => delete (id_sequence i) m
  end.

(** During a dispatch: the scheduled timers, the sequences cancelled while not
    scheduled, and the counter. *)
Definition spec_act (s : gmap Z Timer * gset Z * Z) (a : timer_action) : gmap Z Timer * gset Z * Z :=
  let '(m, canceled, n) := s in
  match a with
  | ActAdd cb when interval => (<[n + 1 := newTimer cb when interval n]> m, canceled, n + 1)
  | ActCancel i =>
      let k := id_sequence i in
      if k <=? 0 then s
      else match m !! k with
           | Some _ => (delete k m, canceled, n)
           | None => (m, {[k]} ∪ canceled, n)
           end
  end.

(** A dispatched timer is scheduled again when it repeats and nothing cancelled it. *)
Definition spec_restart (now : Timestamp) (canceled : gset Z) (t : Timer) (m : gmap Z Timer) :
    gmap Z Timer :=
  if repeat_ t && negb (bool_decide (sequence_ t ∈ canceled))
  then <[sequence_ t := restart now t]> m else m.

Definition sorted_entries (l : list Entry) : Prop := StronglySorted (λ a b, entry_lt a b = true) l.

(** The dispatch at [now]: [expired] are the timers due, by time and then by
    age; all of them run, whatever the callbacks cancel. *)
Inductive spec_fire (now : Timestamp) (behave : Z → list timer_action) : spec → spec → Prop :=
| SpecFire m n p r expired m1 canceled n1 :
    sorted_entries ((λ t, (expiration_ t, sequence_ t)) <$> expired) →
    (∀ t, t ∈ expired ↔ m !! sequence_ t = Some t ∧ expiration_ t ≤ now) →
    foldl spec_act (filter (λ '(_, t), now < expiration_ t) m, ∅, n)
          (expired ≫= λ t, behave (sequence_ t)) = (m1, canceled, n1) →
    spec_fire now behave (mkSpec m n p r)
      (mkSpec (foldl (λ m t, spec_restart now canceled t m) m1 expired) n1 p
              (r ++ ((λ t, (sequence_ t, callback_ t)) <$> expired))).

Inductive spec_step (now : Timestamp) : op → spec → spec → Prop :=
| SpecAddIn cb when interval m n p r :
    spec_step now (OpAdd true cb when interval) (mkSpec m n p r)
      (mkSpec (<[n + 1 := newTimer cb when interval n]> m) (n + 1) p r)
| SpecAddOut cb when interval m n p r :
    spec_step now (OpAdd false cb when interval) (mkSpec m n p r)
      (mkSpec m (n + 1) (p ++ [FAdd (newTimer cb when interval n)]) r)
| SpecCancelIn i m n p r :
    spec_step now (OpCancel true i) (mkSpec m n p r) (mkSpec (delete (id_sequence i) m) n p r)
| SpecCancelOut i m n p r :
    spec_step now (OpCancel false i) (mkSpec m n p r) (mkSpec m n (p ++ [FCancel i]) r)
| SpecPending m n p r :
    spec_step now OpPending (mkSpec m n p r) (mkSpec (foldl spec_functor m p) n [] r)
| SpecForeign m n p r :
    spec_step now OpForeign (mkSpec m n p r) (mkSpec m (n + 1) p r)
| SpecFired behave s s' :
    spec_fire now behave s s' → spec_step now (OpFire behave) s s'.

(** The abstraction of a queue between two events. *)
Definition abs (q : TimerQueue) : spec :=
  mkSpec (timerOwners_ q) (numCreated_ q) (pending_ q) (ran_ q).

(** ** Sorted sets *)

Lemma entry_lt_spec a b :
  entry_lt a b = true ↔ fst a < fst b ∨ (fst a = fst b ∧ snd a < snd b).
Proof.
  unfold entry_lt. rewrite orb_true_iff, andb_true_iff, !Z.ltb_lt, Z.eqb_eq. done.
Qed.

Lemma entry_lt_irrefl a : entry_lt a a = false.
Proof. apply not_true_iff_false. rewrite entry_lt_spec. lia. Qed.

Lemma entry_lt_trans a b c : entry_lt a b = true → entry_lt b c = true → entry_lt a c = true.
Proof. rewrite !entry_lt_spec. lia. Qed.

Lemma entry_total a b : entry_lt a b = false → entry_lt b a = false → a = b.
Proof.
  rewrite <- !not_true_iff_false, !entry_lt_spec. destruct a, b. cbn. intros. f_equal; lia.
Qed.

Lemma set_insert_ok e l :
  sorted_entries l → e ∉ l →
  ∃ l', set_insert e l = (true, l') ∧ sorted_entries l' ∧ ∀ x, x ∈ l' ↔ x = e ∨ x ∈ l.
Proof.
  induction 1 as [|x l Hs IH Hx]; intros He; cbn.
  - eexists. split_and!; [done|repeat constructor|set_solver].
  - apply not_elem_of_cons in He as [Hne He].
    destruct (entry_lt e x) eqn:E1; [|destruct (entry_lt x e) eqn:E2].
    + eexists. split_and!; [done| |set_solver].
      constructor; [by constructor|]. constructor; [done|].
      eapply Forall_impl; [exact Hx|]. intros y Hy. by eapply entry_lt_trans.
    + destruct (IH He) as (l' & -> & Hs' & Hin). eexists. split_and!; [done| |set_solver].
      constructor; [done|]. apply Forall_forall. intros y Hy. apply Hin in Hy as [->|Hy]; [done|].
      rewrite Forall_forall in Hx. by apply Hx.
    + by destruct Hne; apply entry_total.
Qed.

Lemma set_erase_ok e l :
  sorted_entries l → e ∈ l →
  ∃ l', set_erase e l = (1, l') ∧ sorted_entries l' ∧ ∀ x, x ∈ l' ↔ x ≠ e ∧ x ∈ l.
Proof.
  induction 1 as [|x l Hs IH Hx]; intros He; cbn; [by apply elem_of_nil in He|].
  rewrite Forall_forall in Hx. apply elem_of_cons in He as [<-|He].
  - rewrite entry_lt_irrefl. eexists. split_and!; [done|done|]. intros y.
    rewrite elem_of_cons. split; [|naive_solver]. intros Hy. split; [|by right].
    intros ->. specialize (Hx _ Hy). by rewrite entry_lt_irrefl in Hx.
  - rewrite (Hx _ He). destruct (IH He) as (l' & -> & Hs' & Hin). eexists. split_and!; [done| |].
    + constructor; [done|]. apply Forall_forall. intros y Hy. apply Hin in Hy as [_ Hy]. by apply Hx.
    + intros y. rewrite !elem_of_cons, Hin. split; [|naive_solver].
      intros [->|?]; [|naive_solver]. split; [|by left]. intros ->.
      specialize (Hx _ He). by rewrite entry_lt_irrefl in Hx.
Qed.

Lemma split_upper_bound_ok e l :
  sorted_entries l →
  ∃ a b, split_upper_bound e l = (a, b) ∧ l = a ++ b ∧
    (∀ x, x ∈ a → entry_lt e x = false) ∧ (∀ x, x ∈ b → entry_lt e x = true).
Proof.
  induction 1 as [|x l Hs IH Hx]; cbn.
  - exists [], []. split_and!; set_solver.
  - destruct (entry_lt e x) eqn:E.
    + exists [], (x :: l). split_and!; [done|done|set_solver|]. intros y.
      rewrite elem_of_cons. rewrite Forall_forall in Hx. intros [->|Hy]; [done|].
      eapply entry_lt_trans; [done|by apply Hx].
    + destruct IH as (a & b & -> & -> & Ha & Hb). exists (x :: a), b. split_and!; [done|done| |done].
      intros y. rewrite elem_of_cons. intros [->|Hy]; [done|by apply Ha].
Qed.

Lemma sorted_app a b :
  sorted_entries (a ++ b) → sorted_entries a ∧ sorted_entries b.
Proof.
  induction a as [|x a IH]; cbn; intros H; [split; [constructor|done]|].
  apply StronglySorted_inv in H as [H1 H2]. destruct (IH H1) as [Ha Hb].
  apply Forall_app in H2 as [H2 _]. split; [by constructor|done].
Qed.

Lemma sorted_NoDup l : sorted_entries l → NoDup l.
Proof.
  induction 1 as [|x l Hs IH Hx]; constructor; [|done]. intros Hin.
  rewrite Forall_forall in Hx. specialize (Hx _ Hin). by rewrite entry_lt_irrefl in Hx.
Qed.

(** ** The invariant *)

(** [timers_] and [activeTimers_] are two views of the scheduled timers [m]. *)
Record side (m : gmap Z Timer) (q : TimerQueue) : Prop := mkSide {
  sd_active : activeTimers_ q = dom m;
  sd_sorted : sorted_entries (timers_ q);
  sd_entries : ∀ e s, (e, s) ∈ timers_ q ↔ ∃ t, m !! s = Some t ∧ expiration_ t = e
}.

Definition timer_ok (n : Z) (t : Timer) : Prop :=
  0 < sequence_ t ≤ n ∧ repeat_ t = (0 <? interval_ t).

Definition pending_adds (p : list functor) : list Z :=
  omap (λ f, match f with FAdd t => Some (sequence_ t) | FCancel _ => None end) p.

(** [m]: scheduled; [B]: being dispatched. *)
Record inv (m B : gmap Z Timer) (q : TimerQueue) : Prop := mkInv {
  i_side : side m q;
  i_owners : timerOwners_ q = m ∪ B;
  i_disj : m ##ₘ B;
  i_created : 0 ≤ numCreated_ q;
  i_ok : ∀ s t, (m ∪ B) !! s = Some t → sequence_ t = s ∧ timer_ok (numCreated_ q) t;
  i_pending : ∀ t, FAdd t ∈ pending_ q →
    timerOwners_ q !! sequence_ t = None ∧ timer_ok (numCreated_ q) t;
  i_nodup : NoDup (pending_adds (pending_ q))
}.

(** The timerfd is set to go off no later than the first timer; while
    callbacks run this may be left to [reset], which looks at valid times. *)
Definition armed (idle : bool) (q : TimerQueue) : Prop :=
  match timers_ q with
  | [] => True
  | (e, _) :: _ => (idle = false ∧ 0 < e) ∨ ∃ t ts, timerfd_ q = Some (t, ts) ∧ t ≤ e
  end.

Definition same_rest (q q' : TimerQueue) : Prop :=
  callingExpiredTimers_ q' = callingExpiredTimers_ q ∧ numCreated_ q' = numCreated_ q ∧
  pending_ q' = pending_ q ∧ ran_ q' = ran_ q.

Lemma elem_of_pending_adds t p : FAdd t ∈ p → sequence_ t ∈ pending_adds p.
Proof. intros H. apply list_elem_of_omap. by exists (FAdd t). Qed.

Lemma side_same_size m q : side m q → same_size q = true.
Proof.
  intros [Ha Hs He]. unfold same_size. apply Nat.eqb_eq.
  assert (NoDup (timers_ q).*2) as Hnd.
  { apply NoDup_fmap_2_strong; [|by apply sorted_NoDup].
    intros [e1 s1] [e2 s2] H1 H2 Heq. cbn in Heq. subst.
    apply He in H1 as (t1 & H1 & <-). apply He in H2 as (t2 & H2 & <-). congruence. }
  transitivity (length (timers_ q).*2); [symmetry; apply length_fmap|].
  rewrite <- (size_list_to_set (C := gset Z) _ Hnd), Ha. f_equal.
  apply set_eq. intros s. rewrite elem_of_list_to_set, elem_of_dom, list_elem_of_fmap. split.
  - intros ([e s'] & -> & Hin). apply He in Hin as (t & Ht & _). by exists t.
  - intros [t Ht]. exists (expiration_ t, s). split; [done|]. apply He. eauto.
Qed.

Lemma side_ext m q q' :
  side m q → timers_ q' = timers_ q → activeTimers_ q' = activeTimers_ q → side m q'.
Proof. intros [H1 H2 H3] Ht Ha. split; congruence || by rewrite ?Ht, ?Ha. Qed.

Definition is_earliest (t : Timer) (l : list Entry) : bool :=
  match l with [] => true | first :: _ => expiration_ t <? fst first end.

Lemma insertTimer_ok m t q :
  side m q → m !! sequence_ t = None →
  ∃ l, insertTimer t q = Ok (is_earliest t (timers_ q), set_sets l ({[sequence_ t]} ∪ activeTimers_ q) q) ∧
       side (<[sequence_ t := t]> m) (set_sets l ({[sequence_ t]} ∪ activeTimers_ q) q) ∧
       (∀ x, x ∈ l ↔ x = (expiration_ t, sequence_ t) ∨ x ∈ timers_ q).
Proof.
  intros Hsd Hm. pose proof Hsd as [Ha Hs He]. unfold insertTimer.
  rewrite (side_same_size m q) by done. pass_asserts.
  assert ((expiration_ t, sequence_ t) ∉ timers_ q) as Hfresh.
  { intros Hin. apply He in Hin as (t' & Ht' & _). congruence. }
  destruct (set_insert_ok _ _ Hs Hfresh) as (l & Hl & Hsl & Hin). rewrite Hl.
  assert (sequence_ t ∉ activeTimers_ q) as Hna by (rewrite Ha; by apply not_elem_of_dom).
  rewrite (bool_decide_true _ Hna). pass_asserts.
  assert (side (<[sequence_ t := t]> m) (set_sets l ({[sequence_ t]} ∪ activeTimers_ q) q)) as Hsd'.
  { split; cbn.
    - rewrite dom_insert_L, Ha. done.
    - done.
    - intros e s. rewrite Hin, He. split.
      + intros [[= -> ->]|(t' & Ht' & <-)]; [exists t; by rewrite lookup_insert_eq|].
        exists t'. rewrite lookup_insert_ne by congruence. done.
      + intros (t' & Ht' & <-). destruct (decide (s = sequence_ t)) as [->|Hne].
        * rewrite lookup_insert_eq in Ht'. left. congruence.
        * rewrite lookup_insert_ne in Ht' by done. right. eauto. }
  exists l. rewrite (side_same_size _ _ Hsd'). by split_and!.
Qed.

Lemma armed_insert idle t l q q' :
  sorted_entries (timers_ q) → sorted_entries l →
  (∀ x, x ∈ l ↔ x = (expiration_ t, sequence_ t) ∨ x ∈ timers_ q) →
  timers_ q' = l → timerfd_ q' = timerfd_ q → is_earliest t (timers_ q) = false →
  armed idle q → armed idle q'.
Proof.
  intros Hs Hsl Hin Hq' Hfd He Har. unfold armed in *. rewrite Hq', Hfd. clear Hq' Hfd.
  destruct (timers_ q) as [|[e s] l0] eqn:E; [done|]. cbn in He. apply Z.ltb_ge in He.
  destruct l as [|[e' s'] l']; [done|].
  assert (e ≤ e') as Hle.
  { destruct (proj1 (Hin (e', s')) ltac:(by left)) as [[= -> ->]|Hx]; [lia|].
    apply elem_of_cons in Hx as [[= -> ->]|Hx]; [lia|].
    apply StronglySorted_inv in Hs as [_ Hs]. rewrite Forall_forall in Hs.
    specialize (Hs _ Hx). apply entry_lt_spec in Hs. cbn in Hs. lia. }
  destruct Har as [[-> Hpos]|(t0 & ts & Hfd & Ht0)]; [left; split; [done|lia]|].
  right. exists t0, ts. split; [done|lia].
Qed.

Lemma addTimerInLoop_ok m B t q :
  inv m B q → timerOwners_ q !! sequence_ t = None → timer_ok (numCreated_ q) t →
  sequence_ t ∉ pending_adds (pending_ q) →
  ensures (addTimerInLoop t q) (λ q', inv (<[sequence_ t := t]> m) B q' ∧ same_rest q q' ∧
    cancelingTimers_ q' = cancelingTimers_ q ∧ ∀ idle, armed idle q → armed idle q').
Proof.
  intros Hinv Hown Hok Hpend. pose proof Hinv as [Hsd Ho Hd Hn Hall Hp Hnd]. unfold addTimerInLoop.
  rewrite Ho in Hown. apply lookup_union_None in Hown as [Hm HB].
  rewrite (side_same_size m q) by done. pass_asserts.
  destruct (insertTimer_ok m t q Hsd Hm) as (l & -> & Hsd' & Hin). cbn [obind].
  cbn [set_sets timerOwners_]. rewrite bool_decide_true by (rewrite Ho; by apply lookup_union_None).
  pass_asserts.
  assert (∀ q', timers_ q' = l → activeTimers_ q' = {[sequence_ t]} ∪ activeTimers_ q →
    timerOwners_ q' = <[sequence_ t := t]> (timerOwners_ q) → same_rest q q' →
    inv (<[sequence_ t := t]> m) B q') as Hinv'.
  { intros q' Hl Ha Ho' (Hc & Hc' & Hp' & Hr). split.
    - eapply side_ext; [exact Hsd'|done|done].
    - rewrite Ho', Ho. by rewrite insert_union_l.
    - by apply map_disjoint_insert_l.
    - by rewrite Hc'.
    - rewrite Hc'. rewrite <- insert_union_l. intros s t'. rewrite lookup_insert_Some.
      intros [[<- <-]|[_ Hs]]; [done|by apply Hall].
    - rewrite Hp', Ho', Hc'. intros t' Ht'. destruct (Hp t' Ht') as [H1 H2]. split; [|done].
      rewrite lookup_insert_ne; [done|]. intros Heq. apply Hpend. rewrite Heq.
      by apply elem_of_pending_adds.
    - by rewrite Hp'. }
  destruct (is_earliest t (timers_ q)) eqn:Hearly; unfold resetTimerfd; cbn [Timestamp_now ensures];
    (split_and!; [apply Hinv'; by repeat split|by repeat split|done|]).
  - intros idle _. unfold armed. cbn. destruct l as [|[e s] l']; [done|]. right. eexists _, _. split; [done|].
    destruct (proj1 (Hin (e, s)) ltac:(by left)) as [[= -> ->]|Hx]; [lia|].
    destruct Hsd as [_ Hs _]. destruct (timers_ q) as [|[e1 s1] l1]; [by apply elem_of_nil in Hx|].
    cbn in Hearly. apply Z.ltb_lt in Hearly. apply elem_of_cons in Hx as [[= -> ->]|Hx]; [lia|].
    apply StronglySorted_inv in Hs as [_ Hs]. rewrite Forall_forall in Hs.
    specialize (Hs _ Hx). apply entry_lt_spec in Hs. cbn in Hs. lia.
  - intros idle. eapply armed_insert; try done; [apply Hsd|apply Hsd'].
Qed.

Lemma cancelInLoop_ok m B i q :
  inv m B q →
  ensures (cancelInLoop i q) (λ q', inv (delete (id_sequence i) m) B q' ∧ same_rest q q' ∧
    cancelingTimers_ q' =
      (if (id_sequence i <=? 0) || bool_decide (is_Some (m !! id_sequence i)) ||
          negb (callingExpiredTimers_ q)
       then cancelingTimers_ q else {[id_sequence i]} ∪ cancelingTimers_ q) ∧
    ∀ idle, armed idle q → armed idle q').
Proof.
  intros Hinv. pose proof Hinv as [Hsd Ho Hd Hn Hall Hp Hnd]. unfold cancelInLoop, id_valid.
  rewrite (side_same_size m q) by done. pass_asserts.
  destruct (Z.leb_spec (id_sequence i) 0) as [Hle|Hpos]; [destruct (Z.ltb_spec 0 (id_sequence i)); [lia|]|
    destruct (Z.ltb_spec 0 (id_sequence i)); [|lia]]; cbn [negb orb].
  { cbn. split_and!; [|by repeat split|done|done]. rewrite delete_id; [done|].
    destruct (m !! id_sequence i) as [t|] eqn:E; [|done].
    destruct (Hall (id_sequence i) t) as [Hs [Hr _]]; [by apply lookup_union_Some_l|lia]. }
  destruct (decide (id_sequence i ∈ activeTimers_ q)) as [Hin|Hout].
  - pose proof Hsd as [Ha Hs He]. rewrite Ha in Hin. apply elem_of_dom in Hin as [t Ht].
    rewrite bool_decide_true by done. cbn [orb].
    assert (timerOwners_ q !! id_sequence i = Some t) as -> by (rewrite Ho; by apply lookup_union_Some_l).
    destruct (set_erase_ok (expiration_ t, id_sequence i) (timers_ q)) as (l & -> & Hsl & Hin);
      [done|apply He; eauto|]. pass_asserts.
    assert (side (delete (id_sequence i) m)
      (set_sets l (activeTimers_ q ∖ {[id_sequence i]}) (set_owners (delete (id_sequence i) (timerOwners_ q)) q))) as Hsd'.
    { split; cbn; [by rewrite dom_delete_L, Ha|done|]. intros e s. rewrite Hin, He. split.
      - intros [Hne (t' & Ht' & <-)]. exists t'. rewrite lookup_delete_ne; [done|].
        intros <-. apply Hne. congruence.
      - intros (t' & Ht' & <-). apply lookup_delete_Some in Ht' as [Hne Ht']. split; [congruence|eauto]. }
    cbn [set_owners activeTimers_]. cbn [set_owners activeTimers_] in Hsd'. rewrite (side_same_size _ _ Hsd'). pass_asserts. cbn. split_and!; [|by repeat split|done|].
    + split; cbn; try done.
      * rewrite Ho, delete_union. f_equal. rewrite delete_id; [done|].
        by eapply map_disjoint_Some_l.
      * by apply map_disjoint_delete_l.
      * intros s t' Hs'. apply Hall. apply lookup_union_Some in Hs' as [Hs'|Hs'];
          [|by apply lookup_union_Some_r|by apply map_disjoint_delete_l].
        apply lookup_delete_Some in Hs' as [_ Hs']. by apply lookup_union_Some_l.
      * intros t' Ht'. destruct (Hp t' Ht') as [H1 H2]. split; [|done]. apply lookup_delete_None. by right.
    + intros idle Har. unfold armed in *. cbn.
      destruct (timers_ q) as [|[e s] l0] eqn:E.
      { destruct l as [|x l']; [done|]. by destruct (proj1 (Hin x) ltac:(by left)) as [_ ?%elem_of_nil]. }
      destruct l as [|[e' s'] l']; [done|].
      assert (e ≤ e') as Hle.
      { destruct (proj1 (Hin (e', s')) ltac:(by left)) as [_ Hx].
        apply elem_of_cons in Hx as [[= -> ->]|Hx]; [lia|].
        apply StronglySorted_inv in Hs as [_ Hs]. rewrite Forall_forall in Hs.
        specialize (Hs _ Hx). apply entry_lt_spec in Hs. cbn in Hs. lia. }
      destruct Har as [[-> ?]|(t0 & ts & ? & ?)]; [left; split; [done|lia]|].
      right. exists t0, ts. split; [done|lia].
  - pose proof Hsd as [Ha _ _]. rewrite Ha in Hout. apply not_elem_of_dom in Hout.
    rewrite Hout, bool_decide_false by (by intros [? [=]]). cbn [orb].
    rewrite delete_id by done.
    destruct (callingExpiredTimers_ q) eqn:Hc; cbn [obind negb].
    + erewrite side_same_size by (eapply side_ext; [exact Hsd|done|done]). cbn. split_and!; [|by repeat split|done|done].
      split; cbn; try done. by eapply side_ext.
    + rewrite (side_same_size m q) by done. cbn. split_and!; [done|by repeat split|done|done].
Qed.

(** ** Every operation implements its specification *)

Lemma inv_created m B q : inv m B q → inv m B (set_created (numCreated_ q + 1) q).
Proof.
  intros [Hsd Ho Hd Hn Hall Hp Hnd]. split; cbn; try done; [by eapply side_ext|lia| |].
  - intros s t Hs. destruct (Hall s t Hs) as [H1 [H2 H3]]. unfold timer_ok. split_and!; try done; lia.
  - intros t Ht. destruct (Hp t Ht) as [H1 [H2 H3]]. unfold timer_ok. split_and!; try done; lia.
Qed.

Lemma inv_no_functors m B q : inv m B q → inv m B (set_pending [] q).
Proof.
  intros [Hsd Ho Hd Hn Hall Hp Hnd]. split; cbn; try done; [by eapply side_ext|set_solver|constructor].
Qed.

Lemma pending_seq_le m B q s :
  inv m B q → s ∈ pending_adds (pending_ q) → s ≤ numCreated_ q.
Proof.
  intros Hinv Hs. apply list_elem_of_omap in Hs as ([t|] & Ht & [= <-]).
  apply (i_pending _ _ _ Hinv) in Ht as [_ [? _]]. lia.
Qed.

Lemma newTimer_ok m B q cb when interval :
  inv m B q →
  let t := newTimer cb when interval (numCreated_ q) in
  (m ∪ B) !! sequence_ t = None ∧ timer_ok (numCreated_ q + 1) t ∧
  sequence_ t ∉ pending_adds (pending_ q).
Proof.
  intros Hinv t. pose proof (i_created _ _ _ Hinv). split_and!.
  - destruct ((m ∪ B) !! sequence_ t) as [t'|] eqn:E; [|done].
    destruct (i_ok _ _ _ Hinv _ _ E) as [H1 [H2 _]]. cbn in H1. lia.
  - split; [cbn; lia|done].
  - intros Hs%(pending_seq_le m B q); [|done]. cbn in Hs. lia.
Qed.

Lemma addTimer_here_ok m B cb when interval q :
  inv m B q →
  let t := newTimer cb when interval (numCreated_ q) in
  ensures (addTimer true cb when interval q) (λ '(i, q'),
    id_sequence i = sequence_ t ∧ inv (<[sequence_ t := t]> m) B q' ∧
    same_rest (set_created (numCreated_ q + 1) q) q' ∧
    cancelingTimers_ q' = cancelingTimers_ q ∧ ∀ idle, armed idle q → armed idle q').
Proof.
  intros Hinv t. destruct (newTimer_ok m B q cb when interval Hinv) as (H1 & H2 & H3).
  unfold addTimer, runInLoop, runFunctor. cbv zeta.
  eapply ensures_bind.
  - apply (addTimerInLoop_ok m B); [by apply inv_created| |done|done].
    cbn. by rewrite (i_owners _ _ _ Hinv).
  - intros q' (Ha & Hb & Hc & Hd). cbn. split_and!; try done.
Qed.

Lemma act_ok m B q a :
  inv m B q → callingExpiredTimers_ q = true →
  ensures (act a q) (λ q', ∃ m' c' n',
    spec_act (m, cancelingTimers_ q, numCreated_ q) a = (m', c', n') ∧
    inv m' B q' ∧ cancelingTimers_ q' = c' ∧ numCreated_ q' = n' ∧
    callingExpiredTimers_ q' = true ∧ pending_ q' = pending_ q ∧ ran_ q' = ran_ q ∧
    (armed false q → armed false q')).
Proof.
  intros Hinv Hc. destruct a as [cb when interval|i]; cbn [act spec_act].
  - eapply ensures_bind; [by apply (addTimer_here_ok m B)|].
    intros [i q'] (_ & Hi & (H1 & H2 & H3 & H4) & H5 & H6). cbn.
    eexists _, _, _. split; [done|]. split_and!; try done; [cbn in *; congruence..|by apply H6].
  - unfold cancel, runInLoop, runFunctor.
    eapply ensures_mono; [by apply (cancelInLoop_ok m B)|].
    intros q' (Hi & (H1 & H2 & H3 & H4) & H5 & H6). rewrite Hc in *. cbn [negb] in H5.
    destruct (Z.leb_spec (id_sequence i) 0) as [Hle|Hpos]; cbn [orb] in H5.
    + eexists _, _, _. split; [done|]. rewrite delete_id in Hi.
      * split_and!; try done. by apply H6.
      * destruct (m !! id_sequence i) as [t|] eqn:E; [|done].
        destruct (i_ok _ _ _ Hinv (id_sequence i) t) as [Hs [Hr _]]; [by apply lookup_union_Some_l|lia].
    + destruct (m !! id_sequence i) as [t|] eqn:E.
      * rewrite bool_decide_true in H5 by done.
        eexists _, _, _. split; [done|]. split_and!; try done. by apply H6.
      * rewrite bool_decide_false in H5 by (by intros [? [=]]). rewrite delete_id in Hi by done.
        eexists _, _, _. split; [done|]. split_and!; try done. by apply H6.
Qed.

Lemma tq_acts_ok B acts : ∀ m q,
  inv m B q → callingExpiredTimers_ q = true →
  ensures (foldM act acts q) (λ q', ∃ m' c' n',
    foldl spec_act (m, cancelingTimers_ q, numCreated_ q) acts = (m', c', n') ∧
    inv m' B q' ∧ cancelingTimers_ q' = c' ∧ numCreated_ q' = n' ∧
    callingExpiredTimers_ q' = true ∧ pending_ q' = pending_ q ∧ ran_ q' = ran_ q ∧
    (armed false q → armed false q')).
Proof.
  induction acts as [|a acts IH]; intros m q Hinv Hc.
  { cbn. eexists _, _, _. split; [done|]. by split_and!. }
  cbn [foldM foldl]. eapply ensures_bind; [by apply (act_ok m B)|].
  intros q1 (m1 & c1 & n1 & -> & Hi1 & <- & <- & Hc1 & Hp1 & Hr1 & Ha1).
  eapply ensures_mono; [by apply (IH m1)|].
  intros q2 (m2 & c2 & n2 & E2 & Hi2 & H2). exists m2, c2, n2.
  destruct H2 as (? & ? & ? & ? & ? & ?). split_and!; try done; [congruence..|auto].
Qed.

Definition entry_of (t : Timer) : Entry := (expiration_ t, sequence_ t).

Lemma inv_log_run m B e q : inv m B q → inv m B (log_run e q).
Proof. intros [Hsd Ho Hd Hn Hall Hp Hnd]. split; cbn; try done. by eapply side_ext. Qed.

(** The callbacks of the dispatched timers, one after the other. *)
Lemma calls_ok behave B ts : ∀ m q,
  inv m B q → callingExpiredTimers_ q = true →
  (∀ t, t ∈ ts → B !! sequence_ t = Some t) →
  ensures (foldM (call_one behave) (entry_of <$> ts) q) (λ q', ∃ m' c' n',
    foldl spec_act (m, cancelingTimers_ q, numCreated_ q) (ts ≫= λ t, behave (sequence_ t)) = (m', c', n') ∧
    inv m' B q' ∧ cancelingTimers_ q' = c' ∧ numCreated_ q' = n' ∧
    callingExpiredTimers_ q' = true ∧ pending_ q' = pending_ q ∧
    ran_ q' = ran_ q ++ ((λ t, (sequence_ t, callback_ t)) <$> ts) ∧
    (armed false q → armed false q')).
Proof.
  induction ts as [|t ts IH]; intros m q Hinv Hc HB.
  { cbn. eexists _, _, _. split; [done|]. rewrite app_nil_r. by split_and!. }
  cbn [fmap list_fmap foldM mbind list_bind]. rewrite foldl_app.
  unfold call_one at 1. cbn [entry_of snd].
  assert (timerOwners_ q !! sequence_ t = Some t) as ->.
  { rewrite (i_owners _ _ _ Hinv). apply lookup_union_Some_r; [apply Hinv|]. apply HB. left. }
  unfold run. eapply ensures_bind.
  { apply (tq_acts_ok B); [by apply inv_log_run|done]. }
  intros q1 (m1 & c1 & n1 & E1 & Hi1 & <- & <- & Hc1 & Hp1 & Hr1 & Ha1).
  cbn [log_run cancelingTimers_ numCreated_] in E1. rewrite E1.
  eapply ensures_mono; [apply (IH m1); [done|done|]; intros t' Ht'; apply HB; by right|].
  intros q2 (m2 & c2 & n2 & E2 & Hi2 & ? & ? & ? & Hp2 & Hr2 & Ha2). exists m2, c2, n2.
  split_and!; try done; [cbn in *; congruence| |auto].
  rewrite Hr2, Hr1. cbn. by rewrite <- app_assoc.
Qed.

(** Taking the due timers out. *)
Lemma erase_active_ok (l : list Entry) : ∀ q,
  NoDup l.*2 → (∀ x, x ∈ l → snd x ∈ activeTimers_ q) →
  foldM (λ (entry : Entry) q,
      assert! bool_decide (snd entry ∈ activeTimers_ q) ;;
      Ok (set_sets (timers_ q) (activeTimers_ q ∖ {[snd entry]}) q)) l q =
  Ok (set_sets (timers_ q) (activeTimers_ q ∖ list_to_set l.*2) q).
Proof.
  induction l as [|x l IH]; intros q Hnd Hin.
  - cbn. by destruct q; cbn; rewrite difference_empty_L.
  - cbn [fmap list_fmap] in Hnd. apply NoDup_cons in Hnd as [Hx Hnd]. cbn [foldM].
    rewrite bool_decide_true by (apply Hin; left). pass_asserts.
    rewrite IH; [|done|].
    + cbn. unfold set_sets. cbn. do 2 f_equal. by rewrite difference_difference_l_L.
    + intros y Hy. cbn. apply elem_of_difference. split; [apply Hin; by right|].
      rewrite elem_of_singleton. intros Heq. apply Hx. rewrite <- Heq. apply list_elem_of_fmap. eauto.
Qed.

Lemma expired_timers (m : gmap Z Timer) (l : list Entry) :
  (∀ x, x ∈ l → ∃ t, m !! snd x = Some t ∧ expiration_ t = fst x ∧ sequence_ t = snd x) →
  ∃ ts, l = entry_of <$> ts ∧ ∀ t, t ∈ ts → m !! sequence_ t = Some t.
Proof.
  induction l as [|x l IH]; intros H.
  - exists []. split; [done|]. intros t Ht. by apply elem_of_nil in Ht.
  - destruct IH as (ts & -> & Hts); [intros y Hy; apply H; by right|].
    destruct (H x) as (t & Ht & H1 & H2); [by left|]. exists (t :: ts). split.
    + cbn. f_equal. unfold entry_of. destruct x; cbn in *; congruence.
    + intros t' Ht'. apply elem_of_cons in Ht' as [->|Ht']; [by rewrite H2|by apply Hts].
Qed.

Definition due (now : Timestamp) (m : gmap Z Timer) : gmap Z Timer :=
  filter (λ '(_, t), ¬ now < expiration_ t) m.
Definition later (now : Timestamp) (m : gmap Z Timer) : gmap Z Timer :=
  filter (λ '(_, t), now < expiration_ t) m.

Lemma later_due now m : later now m ∪ due now m = m ∧ later now m ##ₘ due now m.
Proof.
  unfold later, due. split.
  - rewrite <- (map_filter_union_complement (λ '(_, t), now < expiration_ t) m) at 3. f_equal.
  - apply map_disjoint_spec. intros i x y H1 H2.
    apply map_lookup_filter_Some in H1 as [H1 Hx]. apply map_lookup_filter_Some in H2 as [H2 Hy].
    assert (x = y) as -> by congruence. done.
Qed.

Lemma seq_in_range m q s t :
  inv m ∅ q → m !! s = Some t → sequence_ t = s ∧ timer_ok (numCreated_ q) t.
Proof. intros Hi Hs. apply (i_ok _ _ _ Hi). by apply lookup_union_Some_l. Qed.

Lemma entry_le_sentry now e s :
  s ≤ max_sequence → entry_lt (now, max_sequence) (e, s) = false ↔ e ≤ now.
Proof. intros Hs. rewrite <- not_true_iff_false, entry_lt_spec. cbn. lia. Qed.

Lemma getExpired_ok m now q :
  inv m ∅ q → numCreated_ q ≤ max_sequence →
  ensures (getExpired now q) (λ '(expired, q'), ∃ ts,
    expired = entry_of <$> ts ∧ sorted_entries expired ∧
    (∀ t, t ∈ ts ↔ m !! sequence_ t = Some t ∧ expiration_ t ≤ now) ∧
    inv (later now m) (due now m) q' ∧ same_rest q q' ∧
    (∀ x, x ∈ timers_ q' → now < fst x)).
Proof.
  intros Hinv Hmax. pose proof Hinv as [Hsd Ho Hd Hn Hall Hp Hnd]. pose proof Hsd as [Ha Hs He].
  unfold getExpired. rewrite (side_same_size m q) by done. pass_asserts.
  destruct (split_upper_bound_ok (now, max_sequence) (timers_ q) Hs) as (a & b & -> & Hab & Hlo & Hhi).
  rewrite Hab in Hs. destruct (sorted_app a b Hs) as [Hsa Hsb].
  assert (∀ x, x ∈ timers_ q → ∃ t, m !! snd x = Some t ∧ expiration_ t = fst x ∧ sequence_ t = snd x ∧
    snd x ≤ max_sequence) as Hent.
  { intros [e s] Hx. apply He in Hx as (t & Ht & Het). exists t.
    destruct (seq_in_range m q s t Hinv Ht) as [? [? _]]. split_and!; try done. cbn in *. lia. }
  assert (∀ x, x ∈ a → fst x ≤ now) as Hlo'.
  { intros [e s] Hx. destruct (Hent (e, s)) as (_ & _ & _ & _ & Hse); [rewrite Hab; set_solver|].
    apply (entry_le_sentry now e s); [done|]. by apply Hlo. }
  assert (∀ x, x ∈ b → now < fst x) as Hhi'.
  { intros [e s] Hx. destruct (Hent (e, s)) as (_ & _ & _ & _ & Hse); [rewrite Hab; set_solver|].
    pose proof (entry_le_sentry now e s Hse) as Hle. specialize (Hhi _ Hx). cbn [fst].
    destruct (Z.le_gt_cases e now) as [H%Hle|]; [by pose proof (eq_true_false_abs _ Hhi H)|lia]. }
  destruct (expired_timers m a) as (ts & -> & Hts).
  { intros x Hx. destruct (Hent x) as (t & ? & ? & ? & _); [rewrite Hab; set_solver|]. eauto. }
  assert (∀ t, t ∈ ts ↔ m !! sequence_ t = Some t ∧ expiration_ t ≤ now) as Hchar.
  { intros t. split.
    - intros Ht. split; [by apply Hts|]. apply (Hlo' (entry_of t)). apply list_elem_of_fmap. eauto.
    - intros [Ht Hle]. assert (entry_of t ∈ timers_ q) as Hin by (apply He; eauto).
      rewrite Hab in Hin. apply elem_of_app in Hin as [Hin|Hin]; [|specialize (Hhi' _ Hin); cbn in *; lia].
      apply list_elem_of_fmap in Hin as (t' & Heq & Ht').
      assert (m !! sequence_ t' = Some t') by by apply Hts.
      replace t with t'; [done|]. injection Heq as _ Heq. rewrite Heq in Ht. congruence. }
  assert ((entry_of <$> ts).*2 = sequence_ <$> ts) as Hsnd by (rewrite <- list_fmap_compose; done).
  rewrite erase_active_ok; cbn [obind set_sets activeTimers_ timers_].
  2:{ rewrite Hsnd. apply NoDup_fmap_2_strong.
      - intros t1 t2 H1%Hts H2%Hts Heq. congruence.
      - apply sorted_NoDup in Hsa. by apply NoDup_fmap_1 in Hsa. }
  2:{ intros x Hx. destruct (Hent x) as (t & Ht & _); [rewrite Hab; set_solver|]. cbn. rewrite Ha.
      by apply elem_of_dom. }
  set (q' := set_sets b (activeTimers_ q ∖ list_to_set (entry_of <$> ts).*2) q).
  change (ensures (assert! same_size q' ;; Ok (entry_of <$> ts, q')) (λ '(expired, q'), ∃ ts,
    expired = entry_of <$> ts ∧ sorted_entries expired ∧
    (∀ t, t ∈ ts ↔ m !! sequence_ t = Some t ∧ expiration_ t ≤ now) ∧
    inv (later now m) (due now m) q' ∧ same_rest q q' ∧
    (∀ x, x ∈ timers_ q' → now < fst x))).
  assert (side (later now m) q') as Hsd'.
  { split; unfold q'; cbn.
    - rewrite Hsnd, Ha. apply set_eq. intros s. rewrite elem_of_difference, elem_of_list_to_set, !elem_of_dom.
      unfold later. split.
      + intros [[t Ht] Hnot]. exists t. apply map_lookup_filter_Some. split; [done|].
        apply Z.nle_gt. intros Hle. apply Hnot. apply list_elem_of_fmap. exists t.
        destruct (seq_in_range m q s t Hinv Ht) as [<- _]. split; [done|]. by apply Hchar.
      + intros [t Ht]. apply map_lookup_filter_Some in Ht as [Ht Hlt]. split; [by exists t|].
        intros (t' & -> & Ht')%list_elem_of_fmap. apply Hchar in Ht' as [Ht' Hle].
        assert (t = t') as -> by congruence. lia.
    - done.
    - intros e s. unfold later. split.
      + intros Hx. specialize (Hhi' _ Hx). cbn in Hhi'.
        assert ((e, s) ∈ timers_ q) as Hin by (rewrite Hab; set_solver).
        apply He in Hin as (t & Ht & <-). exists t. split; [|done]. by apply map_lookup_filter_Some.
      + intros (t & Ht & <-). apply map_lookup_filter_Some in Ht as [Ht Hlt].
        assert ((expiration_ t, s) ∈ timers_ q) as Hin by (apply He; eauto).
        rewrite Hab in Hin. apply elem_of_app in Hin as [Hin|Hin]; [|done].
        specialize (Hlo' _ Hin). cbn in Hlo'. lia. }
  rewrite (side_same_size _ _ Hsd'). pass_asserts. cbn [ensures].
  destruct (later_due now m) as [Hu Hdis]. rewrite map_union_empty in Ho, Hall.
  exists ts. split_and!; try done.
  split; try done; cbn; [by rewrite Hu|by rewrite Hu].
Qed.

Lemma reset_one_ok m B now t q :
  inv m B q → B !! sequence_ t = Some t → 0 < now →
  ensures (reset_one now (entry_of t) q) (λ q',
    inv (spec_restart now (cancelingTimers_ q) t m) (delete (sequence_ t) B) q' ∧ same_rest q q' ∧
    cancelingTimers_ q' = cancelingTimers_ q ∧ (armed false q → armed false q')).
Proof.
  intros Hinv HB Hnow. pose proof Hinv as [Hsd Ho Hd Hn Hall Hp Hnd].
  assert (m !! sequence_ t = None) as Hm by (by eapply map_disjoint_Some_r).
  destruct (Hall (sequence_ t) t) as (_ & Hrange & Hrep); [by apply lookup_union_Some_r|].
  unfold reset_one, spec_restart. cbn [entry_of snd].
  rewrite Ho, (lookup_union_Some_r m B _ t) by done.
  destruct (repeat_ t && negb (bool_decide (sequence_ t ∈ cancelingTimers_ q))) eqn:Hr.
  - apply andb_true_iff in Hr as [Hr _].
    set (t' := restart now t). set (q0 := set_owners _ q).
    assert (side m q0) as Hsd0 by (by eapply side_ext).
    destruct (insertTimer_ok m t' q0 Hsd0 Hm) as (l & -> & Hsd' & Hin). cbn [obind ensures].
    split_and!; [|by repeat split|done|].
    + split; cbn; try done.
      * rewrite <- insert_union_l. 
        apply map_eq. intros s. destruct (decide (s = sequence_ t)) as [->|Hne].
        { by rewrite !lookup_insert_eq. }
        rewrite !lookup_insert_ne by done. rewrite !lookup_union. by rewrite lookup_delete_ne.
      * apply map_disjoint_insert_l. split; [apply lookup_delete_eq|]. by apply map_disjoint_delete_r.
      * rewrite <- insert_union_l. intros s t0. rewrite lookup_insert_Some. intros [[<- <-]|[Hne Hs]]; [done|].
        apply Hall. apply lookup_union_Some in Hs as [Hs|Hs];
          [by apply lookup_union_Some_l| |by apply map_disjoint_delete_r].
        apply lookup_delete_Some in Hs as [_ Hs]. by apply lookup_union_Some_r.
      * intros t0 Ht0. destruct (Hp t0 Ht0) as [H1 H2]. split; [|done].
        rewrite lookup_insert_ne; [by rewrite <- Ho|]. intros Heq. rewrite <- Heq, Ho in H1.
        apply lookup_union_None in H1 as [_ H1]. congruence.
    + intros Har. destruct (is_earliest t' (timers_ q0)) eqn:Hearly.
      * unfold armed. cbn. destruct l as [|[e s] l']; [done|]. left. split; [done|].
        assert (0 < expiration_ t') as Hpos.
        { cbn. rewrite Hr. rewrite Hr in Hrep. symmetry in Hrep. apply Z.ltb_lt in Hrep. lia. }
        destruct (proj1 (Hin (e, s)) ltac:(by left)) as [[= -> ->]|Hx]; [done|].
        cbn [timers_ q0 set_owners] in Hx, Hearly.
        destruct Hsd as [_ Hs _]. destruct (timers_ q) as [|[e1 s1] l1]; [by apply elem_of_nil in Hx|].
        cbn in Hearly. apply Z.ltb_lt in Hearly. cbn in Hpos. apply elem_of_cons in Hx as [[= -> ->]|Hx]; [lia|].
        apply StronglySorted_inv in Hs as [_ Hs]. rewrite Forall_forall in Hs.
        specialize (Hs _ Hx). apply entry_lt_spec in Hs. cbn in Hs. lia.
      * eapply armed_insert; try done; [apply Hsd0|apply Hsd'].
  - cbn. split_and!; [|by repeat split|done|done]. split; cbn; try done.
    + by eapply side_ext.
    + rewrite delete_union. by rewrite (delete_id m).
    + by apply map_disjoint_delete_r.
    + intros s t0 Hs. apply Hall. apply lookup_union_Some in Hs as [Hs|Hs];
        [by apply lookup_union_Some_l| |by apply map_disjoint_delete_r].
      apply lookup_delete_Some in Hs as [_ Hs]. by apply lookup_union_Some_r.
    + intros t0 Ht0. destruct (Hp t0 Ht0) as [H1 H2]. split; [|done]. rewrite <- Ho. apply lookup_delete_None. by right.
Qed.

Lemma resets_ok now ts : ∀ m B q,
  inv m B q → 0 < now → NoDup (sequence_ <$> ts) →
  (∀ t, t ∈ ts → B !! sequence_ t = Some t) → dom B = list_to_set (sequence_ <$> ts) →
  ensures (foldM (reset_one now) (entry_of <$> ts) q) (λ q',
    inv (foldl (λ m t, spec_restart now (cancelingTimers_ q) t m) m ts) ∅ q' ∧ same_rest q q' ∧
    (armed false q → armed false q')).
Proof.
  induction ts as [|t ts IH]; intros m B q Hinv Hnow Hnd HB Hdom.
  { cbn in *. split_and!; [|by repeat split|done].
    replace ∅ with B; [done|]. apply dom_empty_iff_L. by rewrite Hdom. }
  cbn [fmap list_fmap foldM foldl]. cbn [fmap list_fmap] in Hnd, Hdom. apply NoDup_cons in Hnd as [Ht Hnd].
  eapply ensures_bind; [apply (reset_one_ok m B); [done|apply HB; left|done]|].
  intros q1 (Hi1 & Hs1 & Hc1 & Ha1). rewrite <- Hc1 in Hi1 |- *.
  eapply ensures_mono; [eapply IH; [exact Hi1|done|done| |]|].
  - intros t' Ht'. rewrite lookup_delete_ne; [apply HB; by right|].
    intros Heq. apply Ht. rewrite Heq. apply list_elem_of_fmap. eauto.
  - rewrite dom_delete_L, Hdom. cbn. apply set_eq. intros s.
    rewrite elem_of_difference, elem_of_union, elem_of_singleton, elem_of_list_to_set.
    split; [naive_solver|]. intros Hs. split; [by right|]. intros ->. done.
  - intros q2 (Hi2 & Hs2 & Ha2). split_and!; [done| |by auto].
    destruct Hs1 as (? & ? & ? & ?), Hs2 as (? & ? & ? & ?). repeat split; congruence.
Qed.

Definition quiescent (q : TimerQueue) : Prop :=
  inv (timerOwners_ q) ∅ q ∧ callingExpiredTimers_ q = false ∧ armed true q.

Lemma armed_settle q :
  armed false q →
  armed true (if valid (match timers_ q with [] => invalid | first :: _ => fst first end)
              then resetTimerfd (match timers_ q with [] => invalid | first :: _ => fst first end) q else q).
Proof.
  unfold armed. destruct (timers_ q) as [|[e s] l] eqn:E; cbn; [by rewrite E|].
  destruct (valid e) eqn:Hv; unfold valid, microSecondsSinceEpoch in Hv; cbn.
  - intros _. rewrite E. right. eexists _, _. split; [done|lia].
  - rewrite E. apply Z.ltb_ge in Hv. intros [[_ ?]|?]; [lia|by right].
Qed.

Lemma inv_same_owners m q : inv m ∅ q → timerOwners_ q = m.
Proof. intros Hi. by rewrite (i_owners _ _ _ Hi), map_union_empty. Qed.

Lemma tq_handleRead_ok behave q :
  quiescent q → numCreated_ q ≤ max_sequence → 0 < clock (samples_ q) →
  ensures (handleRead behave q) (λ q',
    quiescent q' ∧ spec_fire (clock (samples_ q)) behave (abs q) (abs q')).
Proof.
  intros (Hinv & Hcall & Harm) Hmax Hnow. unfold handleRead. cbn [Timestamp_now]. cbv beta zeta.
  set (now := clock (samples_ q)) in *. set (m := timerOwners_ q) in *.
  set (q1 := readTimerfd _).
  assert (inv m ∅ q1) as Hi1.
  { destruct Hinv as [Hsd ?????]. split; try done. by eapply side_ext. }
  eapply ensures_bind; [by apply (getExpired_ok m)|].
  intros [expired q2] (ts & -> & Hsort & Hts & Hi2 & (Hc2 & Hn2 & Hp2 & Hr2) & Hlate).
  assert (Hdue : ∀ t, t ∈ ts → due now m !! sequence_ t = Some t).
  { intros t [Ht Hle]%Hts. apply map_lookup_filter_Some. split; [done|lia]. }
  set (q3 := set_calling true ∅ q2).
  assert (inv (later now m) (due now m) q3) as Hi3.
  { destruct Hi2 as [Hsd ?????]. split; try done. by eapply side_ext. }
  eapply ensures_bind; [by apply (calls_ok behave (due now m) ts (later now m))|].
  intros q4 (m4 & c4 & n4 & E4 & Hi4 & <- & <- & Hc4 & Hp4 & Hr4 & Ha4).
  set (q5 := set_calling false (cancelingTimers_ q4) q4).
  assert (inv m4 (due now m) q5) as Hi5.
  { destruct Hi4 as [Hsd ?????]. split; try done. by eapply side_ext. }
  unfold reset.
  assert (NoDup (sequence_ <$> ts)) as Hnd.
  { apply sorted_NoDup, NoDup_fmap_1 in Hsort. apply NoDup_fmap_2_strong; [|done].
    intros t1 t2 [H1 _]%Hts [H2 _]%Hts Heq. congruence. }
  eapply ensures_bind; [apply (resets_ok now ts m4 (due now m)); try done|].
  { apply set_eq. intros s. rewrite elem_of_dom, elem_of_list_to_set, list_elem_of_fmap. split.
    - intros [t Ht]. apply map_lookup_filter_Some in Ht as [Ht Hle]. exists t.
      destruct (seq_in_range m q s t Hinv Ht) as [<- _]. split; [done|]. apply Hts. split; [done|lia].
    - intros (t & -> & Ht). exists t. by apply Hdue. }
  intros q6 (Hi6 & (Hc6 & Hn6 & Hp6 & Hr6) & Ha6). cbn [ensures].
  assert (armed false q6) as Har6.
  { apply Ha6. apply Ha4. unfold armed. cbn. destruct (timers_ q2) as [|[e s] l] eqn:E2; [done|].
    left. split; [done|]. assert (now < fst (e, s)) by (apply Hlate; rewrite ?E2; by left).
    cbn in *. lia. }
  pose proof (armed_settle q6 Har6) as Har7.
  set (q7 := if valid _ then _ else _) in *.
  assert (∀ m, inv m ∅ q6 → inv m ∅ q7) as Hi7.
  { intros m0 [Hsd ?????]. unfold q7. destruct (valid _); (split; try done; by eapply side_ext). }
  assert (callingExpiredTimers_ q7 = callingExpiredTimers_ q6 ∧ numCreated_ q7 = numCreated_ q6 ∧
    pending_ q7 = pending_ q6 ∧ ran_ q7 = ran_ q6 ∧ timerOwners_ q7 = timerOwners_ q6) as (? & ? & ? & ? & ?)
    by (unfold q7; by destruct (valid _)).
  apply Hi7 in Hi6. pose proof (inv_same_owners _ _ Hi6) as Ho7. split.
  - split_and!; [by rewrite Ho7| |done]. cbn in *. congruence.
  - unfold abs. rewrite Ho7. cbn in Hr4, Hr6, Hc6, Hn6, Hp6, Hp4.
    replace (numCreated_ q7) with (numCreated_ q4) by congruence.
    replace (pending_ q7) with (pending_ q) by (cbn in *; congruence).
    replace (ran_ q7) with (ran_ q ++ ((λ t, (sequence_ t, callback_ t)) <$> ts)) by (cbn in *; congruence).
    eapply SpecFire; [exact Hsort|exact Hts|].
    cbn in E4. rewrite Hn2 in E4. exact E4.
Qed.

Lemma functors_ok p : ∀ m q,
  inv m ∅ q → pending_ q = [] → callingExpiredTimers_ q = false →
  (∀ t, FAdd t ∈ p → timerOwners_ q !! sequence_ t = None ∧ timer_ok (numCreated_ q) t) →
  NoDup (pending_adds p) →
  ensures (foldM runFunctor p q) (λ q', inv (foldl spec_functor m p) ∅ q' ∧ same_rest q q' ∧
    ∀ idle, armed idle q → armed idle q').
Proof.
  induction p as [|f p IH]; intros m q Hinv Hpend Hcall Hp Hnd.
  { cbn. split_and!; [done|by repeat split|done]. }
  cbn [foldM foldl].
  eapply (ensures_bind _ _ (λ q1, inv (spec_functor m f) ∅ q1 ∧ same_rest q q1 ∧
    ∀ idle, armed idle q → armed idle q1)).
  - destruct f as [t|i]; cbn [runFunctor spec_functor].
    + destruct (Hp t ltac:(left)) as [H1 H2].
      eapply ensures_mono; [apply (addTimerInLoop_ok m ∅); try done; rewrite Hpend; apply not_elem_of_nil|].
      intros q1 (?&?&?&?). by split_and!.
    + eapply ensures_mono; [by apply (cancelInLoop_ok m ∅)|]. intros q1 (?&?&?&?). by split_and!.
  - intros q1 (Hi1 & (Hc1 & Hn1 & Hp1 & Hr1) & Ha1).
    eapply ensures_mono; [eapply (IH (spec_functor m f)); [done|congruence|congruence| |]|].
    + intros t Ht. destruct (Hp t ltac:(by right)) as [H1 H2]. rewrite Hn1. split; [|done].
      rewrite (inv_same_owners _ _ Hi1). rewrite (inv_same_owners _ _ Hinv) in H1.
      destruct f as [t0|i]; cbn [spec_functor].
      * rewrite lookup_insert_ne; [done|]. intros Heq. cbn in Hnd. apply NoDup_cons in Hnd as [Hnd _].
        apply Hnd. rewrite Heq. by apply elem_of_pending_adds.
      * apply lookup_delete_None. by right.
    + destruct f as [t0|i]; cbn in Hnd; [by apply NoDup_cons in Hnd as [_ Hnd]|done].
    + intros q2 (Hi2 & (Hc2 & Hn2 & Hp2 & Hr2) & Ha2). split_and!; [done| |by auto].
      repeat split; congruence.
Qed.

Lemma pending_adds_app p1 p2 : pending_adds (p1 ++ p2) = pending_adds p1 ++ pending_adds p2.
Proof. apply omap_app. Qed.

Lemma inv_push m q f :
  inv m ∅ q →
  (∀ t, f = FAdd t → timerOwners_ q !! sequence_ t = None ∧ timer_ok (numCreated_ q) t ∧
                     sequence_ t ∉ pending_adds (pending_ q)) →
  inv m ∅ (set_pending (pending_ q ++ [f]) q).
Proof.
  intros [Hsd Ho Hd Hn Hall Hp Hnd] Hf. split; cbn; try done.
  - by eapply side_ext.
  - intros t [Ht|Ht%list_elem_of_singleton]%elem_of_app; [by apply Hp|].
    by destruct (Hf t (eq_sym Ht)) as (? & ? & _).
  - rewrite pending_adds_app. apply NoDup_app. split_and!; [done| |destruct f; cbn; [apply NoDup_singleton|constructor]].
    intros s Hs. destruct f as [t|]; cbn; [|apply not_elem_of_nil].
    intros ->%list_elem_of_singleton. by destruct (Hf t eq_refl) as (_ & _ & ?).
Qed.

Lemma tq_exec_ok o q :
  quiescent q → numCreated_ q ≤ max_sequence → 0 < clock (samples_ q) →
  ensures (exec o q) (λ q', quiescent q' ∧ spec_step (clock (samples_ q)) o (abs q) (abs q')).
Proof.
  intros Hq Hmax Hnow. pose proof Hq as (Hinv & Hcall & Harm). destruct o as [[] cb when interval|[] i| |behave|].
  - cbn [exec]. eapply ensures_bind; [by apply (addTimer_here_ok (timerOwners_ q) ∅)|].
    intros [i q'] (_ & Hi & (Hc & Hn & Hp & Hr) & _ & Ha). cbn [ensures].
    pose proof (inv_same_owners _ _ Hi) as Ho. cbn in Hc, Hn, Hp, Hr. split.
    + split_and!; [by rewrite Ho|congruence|by apply Ha].
    + unfold abs. rewrite Ho, Hn, Hp, Hr. constructor.
  - destruct (newTimer_ok _ _ q cb when interval Hinv) as (H1 & H2 & H3).
    rewrite map_union_empty in H1. cbn. split.
    + split_and!; [|done|done].
      apply (inv_push _ (set_created (numCreated_ q + 1) q)); [by apply inv_created|].
      intros t [= <-]. by split_and!.
    + constructor.
  - cbn [exec]. unfold cancel, runInLoop, runFunctor.
    eapply ensures_mono; [by apply (cancelInLoop_ok (timerOwners_ q) ∅)|].
    intros q' (Hi & (Hc & Hn & Hp & Hr) & _ & Ha). pose proof (inv_same_owners _ _ Hi) as Ho. split.
    + split_and!; [by rewrite Ho|congruence|by apply Ha].
    + unfold abs. rewrite Ho, Hn, Hp, Hr. constructor.
  - cbn. split; [|constructor]. split_and!; [|done|done]. by apply inv_push.
  - cbn [exec]. eapply ensures_mono; [apply (functors_ok _ (timerOwners_ q)); try done|].
    + by apply inv_no_functors.
    + apply Hinv.
    + apply Hinv.
    + intros q' (Hi & (Hc & Hn & Hp & Hr) & Ha). pose proof (inv_same_owners _ _ Hi) as Ho.
      cbn in Hc, Hn, Hp, Hr. split.
      * split_and!; [by rewrite Ho|congruence|by apply Ha].
      * unfold abs. rewrite Ho, Hn, Hp, Hr. constructor.
  - cbn [exec]. eapply ensures_mono; [by apply tq_handleRead_ok|]. intros q' [H1 H2]. split; [done|].
    by constructor.
  - cbn. split; [|constructor]. split_and!; [|done|done]. by apply inv_created.
Qed.

Lemma quiescent_new : quiescent newQueue.
Proof.
  split_and!; [|done|done]. split; cbn; try done.
  - split; cbn; [by rewrite dom_empty_L|constructor|]. intros e s. split; [by intros ?%elem_of_nil|].
    intros (t & Ht & _). by rewrite lookup_empty in Ht.
  - intros t Ht. by apply elem_of_nil in Ht.
  - constructor.
Qed.

Lemma reachable_quiescent q : (∀ n, 0 < clock n) → reachable q → quiescent q.
Proof.
  intros Hclock. induction 1 as [|q o q' _ IH Hmax He]; [apply quiescent_new|].
  pose proof (tq_exec_ok o q IH Hmax (Hclock _)) as H. rewrite He in H. by destruct H.
Qed.

(** C9. The timer queue is the map of scheduled timers its users think of.
    In every reachable state every operation (adding and cancelling in the
    loop or from another thread, running the queued functors, a dispatch with
    any callbacks) returns without violating any of the code's asserts and
    does what the specification says: a dispatch at [now] runs exactly the
    timers due by [now], by expiration and then by age, each once; a repeating
    one is scheduled again at [now + interval] unless a callback of the same
    dispatch cancelled it; one-shot timers are forgotten. *)
Theorem timer_queue_refines_spec o q :
  (∀ n, 0 < clock n) → reachable q → numCreated_ q ≤ max_sequence →
  ∃ q', exec o q = Ok q' ∧ spec_step (clock (samples_ q)) o (abs q) (abs q').
Proof.
  intros Hclock Hq Hmax. apply reachable_quiescent in Hq; [|done].
  destruct (ensures_ok _ _ (tq_exec_ok o q Hq Hmax (Hclock _))) as (q' & Hq' & _ & Hs). eauto.
Qed.

(** What the kernel will wait: at least 100us, and otherwise exactly the time
    that is left, as a normalised timespec. *)
Lemma howMuchTimeFromNow_ok when now :
  let '(sec, nsec) := howMuchTimeFromNow when now in
  0 ≤ sec ∧ 0 ≤ nsec < 1000000000 ∧ nsec mod 1000 = 0 ∧
  sec * 1000000 + nsec / 1000 = Z.max (when - now) 100.
Proof.
  unfold howMuchTimeFromNow, microSecondsSinceEpoch, kMicroSecondsPerSecond. change (1000 * 1000) with 1000000.
  set (us := Z.max (when - now) 100).
  pose proof (Z.rem_bound_pos us 1000000). pose proof (Z.quot_rem' us 1000000).
  pose proof (Z.quot_pos us 1000000). rewrite Z.mod_mul by done. rewrite Z.div_mul by done. lia.
Qed.

(** The timespec in the timerfd is the one for the expiration it was armed for. *)
Definition armed_for (q : TimerQueue) (e : Timestamp) : Prop :=
  ∃ t ts, timerfd_ q = Some (t, ts) ∧ t ≤ e.

Lemma armed_scheduled m q e s : inv m ∅ q → armed true q → (e, s) ∈ timers_ q → armed_for q e.
Proof.
  intros Hinv Harm Hin. pose proof (sd_sorted _ _ (i_side _ _ _ Hinv)) as Hs.
  unfold armed in Harm. destruct (timers_ q) as [|[e1 s1] l]; [by apply elem_of_nil in Hin|].
  destruct Harm as [[? _]|(t & ts & Hfd & Ht)]; [done|]. exists t, ts. split; [done|].
  apply elem_of_cons in Hin as [[= -> ->]|Hin]; [done|].
  apply StronglySorted_inv in Hs as [_ Hs]. rewrite Forall_forall in Hs.
  specialize (Hs _ Hin). apply entry_lt_spec in Hs. cbn in Hs. lia.
Qed.

(** No timer is forgotten: between two events the entries of [timers_] are
    exactly the owned timers in order, [activeTimers_] are their sequences (so
    the size asserts of the code hold), and while a timer is scheduled the
    timerfd is armed for an expiration no later than that timer's. *)
Theorem timer_queue_invariant q :
  (∀ n, 0 < clock n) → reachable q →
  same_size q = true ∧ callingExpiredTimers_ q = false ∧
  sorted_entries (timers_ q) ∧ activeTimers_ q = dom (timerOwners_ q) ∧
  (∀ e s, (e, s) ∈ timers_ q ↔ ∃ t, timerOwners_ q !! s = Some t ∧ expiration_ t = e ∧ sequence_ t = s) ∧
  (∀ e s, (e, s) ∈ timers_ q → armed_for q e).
Proof.
  intros Hclock Hq. apply reachable_quiescent in Hq as (Hinv & Hcall & Harm); [|done].
  pose proof (i_side _ _ _ Hinv) as Hsd. pose proof Hsd as [Ha Hs He]. split_and!; try done.
  - by eapply side_same_size.
  - intros e s. rewrite He. split; [|naive_solver]. intros (t & Ht & Het). exists t.
    by destruct (seq_in_range _ q s t Hinv Ht) as [? _].
  - intros e s. by apply (armed_scheduled (timerOwners_ q)).
Qed.
End Queue.

(** ** The theorems at concrete inputs *)

Definition sample_clock (n : nat) : Z := 1000 + 10 * Z.of_nat n.

(** Timer 1 is periodic and is cancelled by timer 2's callback in the dispatch
    that runs both; 2 also adds timer 3. *)
Definition sample_behave (s : Z) : list timer_action :=
  if s =? 2 then [ActCancel (mkTimerId 1); ActAdd 30 5000 0] else [].
Definition sample_ops : list op :=
  [OpAdd false 10 900 50; OpAdd true 20 901 0; OpPending].

Fixpoint run_ops (l : list op) (q : TimerQueue) : outcome TimerQueue :=
  match l with [] => Ok q | o :: l' => let! q' := exec sample_clock o q in run_ops l' q' end.

Example sample_dispatch :
  match run_ops (sample_ops ++ [OpFire sample_behave]) newQueue with
  | Ok q => timers_ q = [(5000, 3)] ∧ ran_ q = [(1, 10); (2, 20)]
  | Fault _ => False
  end.
Proof. by vm_compute. Qed.

Lemma sample_clock_pos n : 0 < sample_clock n.
Proof. unfold sample_clock. lia. Qed.

Definition sample_after (n : nat) : TimerQueue :=
  match run_ops (take n sample_ops) newQueue with Ok q => q | Fault _ => newQueue end.
Definition sample_state : TimerQueue := sample_after 3.

Lemma sample_reachable : reachable sample_clock sample_state.
Proof.
  assert (Hstep : ∀ n o, reachable sample_clock (sample_after n) →
    numCreated_ (sample_after n) ≤ max_sequence →
    exec sample_clock o (sample_after n) = Ok (sample_after (S n)) →
    reachable sample_clock (sample_after (S n))) by (intros; by eapply reach_step).
  apply (Hstep 2%nat OpPending); [|by vm_compute|by vm_compute].
  apply (Hstep 1%nat (OpAdd true 20 901 0)); [|by vm_compute|by vm_compute].
  apply (Hstep 0%nat (OpAdd false 10 900 50)); [constructor|by vm_compute|by vm_compute].
Qed.

Lemma timer_queue_refines_spec_witness :
  ∃ q', exec sample_clock (OpFire sample_behave) sample_state = Ok q' ∧
        spec_step (sample_clock (samples_ sample_state)) (OpFire sample_behave) (abs sample_state) (abs q').
Proof.
  apply (timer_queue_refines_spec sample_clock);
    [intros n; apply sample_clock_pos|apply sample_reachable|by vm_compute].
Defined.

Lemma timer_queue_invariant_witness :
  same_size sample_state = true ∧ callingExpiredTimers_ sample_state = false ∧
  sorted_entries (timers_ sample_state) ∧ activeTimers_ sample_state = dom (timerOwners_ sample_state) ∧
  (∀ e s, (e, s) ∈ timers_ sample_state ↔
     ∃ t, timerOwners_ sample_state !! s = Some t ∧ expiration_ t = e ∧ sequence_ t = s) ∧
  (∀ e s, (e, s) ∈ timers_ sample_state → armed_for sample_state e).
Proof.
  apply (timer_queue_invariant sample_clock); [intros n; apply sample_clock_pos|apply sample_reachable].
Defined.
