(* ===== verification/Channel.v ===== *)
(** * Channel: one descriptor's events and callbacks
    ([muduo/net/Channel.h], [Channel.cc])

    A [Channel] is a record; the objects live in a heap of addresses, as the
    poller and the owner share them. [handleEvent] runs user callbacks between
    its tests, so it is written over any state that contains the channel. *)
From S2P Require Import Prelude Format.
From stdpp Require Import options.

(** [poll.h] *)
Definition POLLIN : Z := 1.
Definition POLLPRI : Z := 2.
Definition POLLOUT : Z := 4.
Definition POLLERR : Z := 8.
Definition POLLHUP : Z := 16.
Definition POLLNVAL : Z := 32.
Definition POLLRDHUP : Z := 8192.

(* src/muduo/net/Channel.h:86-86 Channel::kNoneEvent *)
Definition kNoneEvent : Z := 0.
(* src/muduo/net/Channel.cc:11-11 Channel::kReadEvent *)
Definition kReadEvent : Z := Z.lor POLLIN POLLPRI.
(* src/muduo/net/Channel.cc:12-12 Channel::kWriteEvent *)
Definition kWriteEvent : Z := POLLOUT.

(* src/muduo/net/Channel.h:90-104 Channel *)
Record Channel := mkChannel {
  fd_ : Z;
  events_ : Z;
  revents_ : Z;
  index_ : Z;
  logHup_ : bool;
  tied_ : bool;
  eventHandling_ : bool;
  addedToLoop_ : bool
}.

(* src/muduo/net/Channel.cc:14-16 Channel::Channel *)
Definition newChannel (fd : Z) : Channel := mkChannel fd 0 0 (-1) true false false false.

(* src/muduo/net/Channel.cc:18-21 Channel::~Channel *)
Definition destroyChannel (c : Channel) : outcome unit :=
  assert! negb (eventHandling_ c) ;;
  assert! negb (addedToLoop_ c) ;;
  Ok tt.

Section Setters.
Context (c : Channel).
Definition set_events (e : Z) : Channel := mkChannel (fd_ c) e (revents_ c) (index_ c)
  (logHup_ c) (tied_ c) (eventHandling_ c) (addedToLoop_ c).
(* src/muduo/net/Channel.h:55-56 Channel::setRevents *)
Definition setRevents (r : Z) : Channel := mkChannel (fd_ c) (events_ c) r (index_ c)
  (logHup_ c) (tied_ c) (eventHandling_ c) (addedToLoop_ c).
(* src/muduo/net/Channel.h:69-70 Channel::setIndex *)
Definition setIndex (i : Z) : Channel := mkChannel (fd_ c) (events_ c) (revents_ c) i
  (logHup_ c) (tied_ c) (eventHandling_ c) (addedToLoop_ c).
(* src/muduo/net/Channel.h:75-75 Channel::doNotLogHup *)
Definition doNotLogHup : Channel := mkChannel (fd_ c) (events_ c) (revents_ c) (index_ c)
  false (tied_ c) (eventHandling_ c) (addedToLoop_ c).
(* src/muduo/net/Channel.cc:23-26 Channel::tie *)
Definition tie : Channel := mkChannel (fd_ c) (events_ c) (revents_ c) (index_ c)
  (logHup_ c) true (eventHandling_ c) (addedToLoop_ c).
Definition set_eventHandling (b : bool) : Channel := mkChannel (fd_ c) (events_ c) (revents_ c)
  (index_ c) (logHup_ c) (tied_ c) b (addedToLoop_ c).
Definition set_addedToLoop (b : bool) : Channel := mkChannel (fd_ c) (events_ c) (revents_ c)
  (index_ c) (logHup_ c) (tied_ c) (eventHandling_ c) b.

(* src/muduo/net/Channel.h:57-57 Channel::isNoneEvent *)
Definition isNoneEvent : bool := events_ c =? kNoneEvent.
(* src/muduo/net/Channel.h:65-65 Channel::isWriting *)
Definition isWriting : bool := negb (Z.land (events_ c) kWriteEvent =? 0).
(* src/muduo/net/Channel.h:66-66 Channel::isReading *)
Definition isReading : bool := negb (Z.land (events_ c) kReadEvent =? 0).
End Setters.

(* src/muduo/net/Channel.cc:123-143 Channel::eventsToString *)
Definition eventsToString (fd events : Z) : bytes :=
  let has (m : Z) := negb (Z.land events m =? 0) in
  format_int fd ++ str ": " ++
  (if has POLLIN then str "IN " else []) ++ (if has POLLPRI then str "PRI " else []) ++
  (if has POLLOUT then str "OUT " else []) ++ (if has POLLHUP then str "HUP " else []) ++
  (if has POLLRDHUP then str "RDHUP " else []) ++ (if has POLLERR then str "ERR " else []) ++
  (if has POLLNVAL then str "NVAL " else []).
(* src/muduo/net/Channel.cc:115-117 Channel::reventsToString *)
Definition reventsToString (c : Channel) : bytes := eventsToString (fd_ c) (revents_ c).

(** ** Registration, through the loop's poller *)

Section Update.
Context {S : Type}.
(** The channel in the state, and the loop's [updateChannel] and
    [removeChannel] for it. *)
Context (get : S → Channel) (put : Channel → S → S).
Context (loop_updateChannel loop_removeChannel : S → outcome S).

(* src/muduo/net/Channel.cc:28-31 Channel::update *)
Definition update (s : S) : outcome S :=
  loop_updateChannel (put (set_addedToLoop (get s) true) s).

(* src/muduo/net/Channel.cc:33-37 Channel::remove *)
Definition remove (s : S) : outcome S :=
  assert! isNoneEvent (get s) ;;
  loop_removeChannel (put (set_addedToLoop (get s) false) s).

(* src/muduo/net/Channel.cc:90-93 Channel::enableReading *)
Definition enableReading (s : S) : outcome S :=
  update (put (set_events (get s) (Z.lor (events_ (get s)) kReadEvent)) s).
(* src/muduo/net/Channel.cc:95-98 Channel::disableReading *)
Definition disableReading (s : S) : outcome S :=
  update (put (set_events (get s) (Z.land (events_ (get s)) (Z.lnot kReadEvent))) s).
(* src/muduo/net/Channel.cc:100-103 Channel::enableWriting *)
Definition enableWriting (s : S) : outcome S :=
  update (put (set_events (get s) (Z.lor (events_ (get s)) kWriteEvent)) s).
(* src/muduo/net/Channel.cc:105-108 Channel::disableWriting *)
Definition disableWriting (s : S) : outcome S :=
  update (put (set_events (get s) (Z.land (events_ (get s)) (Z.lnot kWriteEvent))) s).
(* src/muduo/net/Channel.cc:110-113 Channel::disableAll *)
Definition disableAll (s : S) : outcome S :=
  update (put (set_events (get s) kNoneEvent) s).
End Update.

(** ** Dispatch *)

(** The callbacks set on a channel; an unset [std::function] is [None]. *)
Record callbacks (S : Type) := mkCallbacks {
  readCallback_ : option (Z → S → outcome S);
  writeCallback_ : option (S → outcome S);
  closeCallback_ : option (S → outcome S);
  errorCallback_ : option (S → outcome S)
}.
Arguments mkCallbacks {S}.
Arguments readCallback_ {S}.
Arguments writeCallback_ {S}.
Arguments closeCallback_ {S}.
Arguments errorCallback_ {S}.

Definition bit (revents m : Z) : bool := negb (Z.land revents m =? 0).

Section Dispatch.
Context {S : Type} (get : S → Channel) (put : Channel → S → S) (cbs : callbacks S).

Definition call (cb : option (S → outcome S)) (s : S) : outcome S :=
  match cb with Some f => f s | None => Ok s end.

(* src/muduo/net/Channel.cc:51-88 Channel::handleEventWithGuard *)
Definition handleEventWithGuard (receiveTime : Z) (s : S) : outcome S :=
  let s0 := put (set_eventHandling (get s) true) s in
  let hasInvalidEvent := bit (revents_ (get s0)) POLLNVAL in
  let! s1 := (if bit (revents_ (get s0)) POLLHUP && negb (bit (revents_ (get s0)) POLLIN)
              then call (closeCallback_ cbs) s0 else Ok s0) in
  let! s2 := (if bit (revents_ (get s1)) POLLERR || hasInvalidEvent
              then call (errorCallback_ cbs) s1 else Ok s1) in
  let! s3 := (if bit (revents_ (get s2)) (Z.lor (Z.lor POLLIN POLLPRI) POLLRDHUP)
              then call ((λ f, f receiveTime) <$> readCallback_ cbs) s2 else Ok s2) in
  let! s4 := (if bit (revents_ (get s3)) POLLOUT
              then call (writeCallback_ cbs) s3 else Ok s3) in
  Ok (put (set_eventHandling (get s4) false) s4).

(* src/muduo/net/Channel.cc:39-49 Channel::handleEvent *)
Definition handleEvent (owner_alive : bool) (receiveTime : Z) (s : S) : outcome S :=
  if tied_ (get s) then
    if owner_alive then handleEventWithGuard receiveTime s else Ok s
  else handleEventWithGuard receiveTime s.

(** ** What a dispatch calls *)

Inductive kind := KClose | KError | KRead | KWrite.

(** The callbacks due for a revents mask, in order. *)
Definition due (revents : Z) : list kind :=
  (if bit revents POLLHUP && negb (bit revents POLLIN) then [KClose] else []) ++
  (if bit revents POLLERR || bit revents POLLNVAL then [KError] else []) ++
  (if bit revents POLLIN || bit revents POLLPRI || bit revents POLLRDHUP then [KRead] else []) ++
  (if bit revents POLLOUT then [KWrite] else []).

Definition invoke (receiveTime : Z) (k : kind) (s : S) : outcome S :=
  match k with
  | KClose => call (closeCallback_ cbs) s
  | KError => call (errorCallback_ cbs) s
  | KRead => call ((λ f, f receiveTime) <$> readCallback_ cbs) s
  | KWrite => call (writeCallback_ cbs) s
  end.

(** A callback leaves the channel's revents alone (only the poller sets them). *)
Definition keeps_revents : Prop :=
  ∀ t k s s', invoke t k s = Ok s' → revents_ (get s') = revents_ (get s).

Lemma bit_lor r a b : bit r (Z.lor a b) = bit r a || bit r b.
Proof.
  unfold bit. rewrite Z.land_lor_distr_r.
  destruct (Z.eqb_spec (Z.lor (Z.land r a) (Z.land r b)) 0) as [H|H].
  - apply Z.lor_eq_0_iff in H as [-> ->]. done.
  - destruct (Z.eqb_spec (Z.land r a) 0) as [Ha|]; [|done].
    destruct (Z.eqb_spec (Z.land r b) 0) as [Hb|]; [|done].
    rewrite Ha, Hb in H. done.
Qed.

Lemma invoke_one {B} t k (b : bool) s (K : S → outcome B) :
  (let! s1 := (if b then invoke t k s else Ok s) in K s1) =
  (let! s1 := foldM (invoke t) (if b then [k] else []) s in K s1).
Proof. destruct b; cbn; [|done]. by destruct (invoke t k s). Qed.

(** The callbacks of a dispatch, one after the other: [I l s] holds where those
    in [l] are still to be called. *)
Lemma foldM_chain t l (I : list kind → S → Prop) :
  (∀ k l s s', I (k :: l) s → invoke t k s = Ok s' → I l s') →
  ∀ l' s s', I (l ++ l') s → foldM (invoke t) l s = Ok s' → I l' s'.
Proof.
  intros HI l'. induction l as [|k l IH]; intros s s' Hs; cbn; [by intros [= <-]|].
  destruct (invoke t k s) as [s1|] eqn:E; cbn; [|done]. apply IH. by eapply HI.
Qed.

(** [let!] with a continuation that may use what the first part guarantees. *)
Lemma obind_ext {A B} (m : outcome A) (k k' : A → outcome B) :
  (∀ a, m = Ok a → k a = k' a) → obind m k = obind m k'.
Proof. destruct m; cbn; auto. Qed.

Lemma obind_assoc {A B C} (m : outcome A) (k : A → outcome B) (k' : B → outcome C) :
  obind (obind m k) k' = obind m (λ a, obind (k a) k').
Proof. by destruct m. Qed.

(** As long as nothing changes the revents, they decide about the calls. *)
Lemma guard_calls t r (I : list kind → S → Prop) s :
  (∀ k l s s', I (k :: l) s → invoke t k s = Ok s' → I l s') →
  (∀ l s, I l s → revents_ (get s) = r) →
  I (due r) (put (set_eventHandling (get s) true) s) →
  handleEventWithGuard t s =
  let! s' := foldM (invoke t) (due r) (put (set_eventHandling (get s) true) s) in
  Ok (put (set_eventHandling (get s') false) s').
Proof.
  intros HI Hr Hs. unfold handleEventWithGuard. cbv beta zeta.
  set (s0 := put _ s) in *. pose proof (Hr _ _ Hs) as Hr0. revert Hs. unfold due. intros Hs.
  rewrite Hr0, !foldM_app, !obind_assoc. change (call (closeCallback_ cbs)) with (invoke t KClose).
  rewrite invoke_one. apply obind_ext. intros s1 H1. pose proof (foldM_chain _ _ I HI _ _ _ Hs H1) as Hs1. clear Hs.
  rewrite !foldM_app, !obind_assoc, (Hr _ _ Hs1). change (call (errorCallback_ cbs)) with (invoke t KError).
  rewrite invoke_one. apply obind_ext. intros s2 H2. pose proof (foldM_chain _ _ I HI _ _ _ Hs1 H2) as Hs2. clear Hs1.
  rewrite !foldM_app, !obind_assoc, (Hr _ _ Hs2), !bit_lor.
  change (call ((λ f, f t) <$> readCallback_ cbs)) with (invoke t KRead).
  rewrite invoke_one. apply obind_ext. intros s3 H3. rewrite <- (app_nil_r (if bit r POLLOUT then _ else _)) in Hs2.
  pose proof (foldM_chain _ _ I HI _ _ _ Hs2 H3) as Hs3.
  rewrite (Hr _ _ Hs3). change (call (writeCallback_ cbs)) with (invoke t KWrite). apply invoke_one.
Qed.

(** One dispatch calls exactly the callbacks its revents ask for, in the
    order close, error, read, write: the close callback on a hang-up with
    nothing to read, the error callback on an error or an invalid descriptor,
    the read callback when there is input, urgent data or a half close, the
    write callback when the descriptor is writable. A channel tied to a dead
    owner calls nothing, and [eventHandling_] is set around the calls. *)
Theorem channel_dispatch alive t s :
  keeps_revents → (∀ c s, get (put c s) = c) →
  handleEvent alive t s =
  if tied_ (get s) && negb alive then Ok s
  else let! s' := foldM (invoke t) (due (revents_ (get s)))
                    (put (set_eventHandling (get s) true) s) in
       Ok (put (set_eventHandling (get s') false) s').
Proof.
  intros Hk Hgp. unfold handleEvent.
  assert (handleEventWithGuard t s =
    let! s' := foldM (invoke t) (due (revents_ (get s))) (put (set_eventHandling (get s) true) s) in
       Ok (put (set_eventHandling (get s') false) s')) as Hguard.
  { apply (guard_calls t _ (λ _ s', revents_ (get s') = revents_ (get s))); [|done|by rewrite Hgp].
    intros k l s1 s2 H1 H2. by rewrite (Hk _ _ _ _ H2). }
  destruct (tied_ (get s)), alive; cbn [andb negb]; done.
Qed.
End Dispatch.

(** A state made of a channel and the log of the calls. *)
Definition log_state : Type := Channel * list kind.
Definition log_get (s : log_state) : Channel := fst s.
Definition log_put (c : Channel) (s : log_state) : log_state := (c, snd s).
Definition log_call (k : kind) (s : log_state) : outcome log_state := Ok (fst s, snd s ++ [k]).
Definition log_callbacks : callbacks log_state :=
  mkCallbacks (Some (λ _, log_call KRead)) (Some (log_call KWrite)) (Some (log_call KClose))
    (Some (log_call KError)).

Lemma channel_dispatch_witness :
  let s := (setRevents (newChannel 7) (Z.lor POLLHUP POLLOUT), []) in
  handleEvent log_get log_put log_callbacks true 5 s =
  (if tied_ (log_get s) && negb true then Ok s
   else let! s' := foldM (invoke log_callbacks 5) (due (revents_ (log_get s)))
                    (log_put (set_eventHandling (log_get s) true) s) in
       Ok (log_put (set_eventHandling (log_get s') false) s')) ∧
  due (revents_ (log_get s)) = [KClose; KWrite].
Proof.
  split; [|by vm_compute]. apply (channel_dispatch log_get log_put log_callbacks).
  - intros t [] s s' H; injection H as <-; done.
  - done.
Defined.

(** The events mask after each of the five calls. *)
Lemma events_masks c :
  isReading (set_events c (Z.lor (events_ c) kReadEvent)) = true ∧
  isWriting (set_events c (Z.lor (events_ c) kWriteEvent)) = true ∧
  isReading (set_events c (Z.land (events_ c) (Z.lnot kReadEvent))) = false ∧
  isWriting (set_events c (Z.land (events_ c) (Z.lnot kWriteEvent))) = false ∧
  isWriting (set_events c (Z.lor (events_ c) kReadEvent)) = isWriting c ∧
  isReading (set_events c (Z.lor (events_ c) kWriteEvent)) = isReading c ∧
  isReading (set_events c (Z.land (events_ c) (Z.lnot kWriteEvent))) = isReading c ∧
  isWriting (set_events c (Z.land (events_ c) (Z.lnot kReadEvent))) = isWriting c.
Proof.
  unfold isReading, isWriting, kReadEvent, kWriteEvent. cbn [set_events events_].
  set (e := events_ c). rewrite !Z.land_lor_distr_l, <- !Z.land_assoc.
  change (Z.land (Z.lor POLLIN POLLPRI) (Z.lor POLLIN POLLPRI)) with 3.
  change (Z.land POLLOUT POLLOUT) with 4.
  change (Z.land (Z.lnot (Z.lor POLLIN POLLPRI)) (Z.lor POLLIN POLLPRI)) with 0.
  change (Z.land (Z.lnot POLLOUT) POLLOUT) with 0.
  change (Z.land (Z.lor POLLIN POLLPRI) POLLOUT) with 0.
  change (Z.land POLLOUT (Z.lor POLLIN POLLPRI)) with 0.
  change (Z.land (Z.lnot POLLOUT) (Z.lor POLLIN POLLPRI)) with (Z.lor POLLIN POLLPRI).
  change (Z.land (Z.lnot (Z.lor POLLIN POLLPRI)) POLLOUT) with POLLOUT.
  rewrite !Z.land_0_r, !Z.lor_0_r.
  assert (∀ a b, 0 < b → negb (Z.lor a b =? 0) = true) as Hlor.
  { intros a b Hb. destruct (Z.eqb_spec (Z.lor a b) 0) as [H|]; [|done].
    apply Z.lor_eq_0_iff in H. lia. }
  split_and!; try done; by apply Hlor.
Qed.
