(* ===== verification/Poller.v ===== *)
(** * Poller: the interface the event loop uses ([muduo/net/Poller.h], [Poller.cc])

    [PollerOps] is the abstract class; [PollerLaws] states what every
    implementation promises: it keeps [channels_], has the kernel wait for
    exactly the events of the registered channels, and returns the ready ones
    with their revents. [EPollPoller] and [PollPoller] are its instances. *)
From S2P Require Import Prelude Channel.
From stdpp Require Import options.

(** The Channel objects by address. *)
Abbreviation heap := (gmap Z Channel).

(* src/muduo/net/Poller.h:15-39 Poller *)
Class PollerOps (P : Type) := {
  channels_ : P → gmap Z Z;                  (* fd ↦ address *)
  updateChannel : Z → heap * P → outcome (heap * P);
  removeChannel : Z → heap * P → outcome (heap * P);
  reply : Type;                              (* what the kernel's wait returns *)
  poll : reply → heap * P → outcome (list Z * (heap * P))
}.

(* src/muduo/net/Poller.cc:12-16 Poller::hasChannel *)
Definition hasChannel {P} `{PollerOps P} (c : Z) (ch : Channel) (p : P) : bool :=
  bool_decide (channels_ p !! fd_ ch = Some c).

(** Channels whose registration-related fields are the same. *)
Definition same_registration (a b : Channel) : Prop := fd_ a = fd_ b ∧ index_ a = index_ b.

(** [h'] is [h] after its owners changed events, revents or flags. *)
Definition owners_wrote (h h' : heap) : Prop :=
  ∀ c ch, h !! c = Some ch → ∃ ch', h' !! c = Some ch' ∧ same_registration ch ch'.

(** [h'] is [h] after a poller changed the indices of the channels in [chs]. *)
Definition only_indices (chs : gmap Z Z) (h h' : heap) : Prop :=
  ∀ c, match h !! c, h' !! c with
       | Some a, Some b => b = setIndex a (index_ b) ∧ ((∀ fd, chs !! fd ≠ Some c) → b = a)
       | None, None => True
       | _, _ => False
       end.

(** Channels whose revents are the ready ones. *)
Fixpoint set_ready (chs : gmap Z Z) (ready : list (Z * Z)) (h : heap) : heap :=
  match ready with
  | [] => h
  | (fd, r) :: l =>
      set_ready chs l
        (match chs !! fd with
         | Some c => match h !! c with Some ch => <[c := setRevents ch r]> h | None => h end
         | None => h
         end)
  end.

(** An events mask a channel can have. *)
Definition mask_ok (e : Z) : Prop := 0 ≤ e < 2 ^ 15.

Class PollerLaws (P : Type) `{PollerOps P} := {
  pinv : heap → P → Prop;
  watches : P → Z → Z → Prop;                (* fd and events the kernel waits for *)
  ready_reply : P → reply → list (Z * Z) → Prop; (* the reply saying these fds are ready *)
  pinv_owners h h' p : pinv h p → owners_wrote h h' → pinv h' p;
  pinv_destroy h p c : pinv h p → (∀ fd, channels_ p !! fd ≠ Some c) → pinv (delete c h) p;
  pinv_channel h p fd c : pinv h p → channels_ p !! fd = Some c →
    ∃ ch, h !! c = Some ch ∧ fd_ ch = fd;
  update_ok h p c ch :
    pinv h p → h !! c = Some ch → mask_ok (events_ ch) → 0 ≤ fd_ ch →
    (channels_ p !! fd_ ch = Some c ∨ (channels_ p !! fd_ ch = None ∧ index_ ch = -1)) →
    ensures (updateChannel c (h, p)) (λ '(h', p'),
      pinv h' p' ∧ only_indices (<[fd_ ch := c]> (channels_ p)) h h' ∧
      channels_ p' = <[fd_ ch := c]> (channels_ p) ∧
      ∀ fd m, watches p' fd m ↔
        if decide (fd = fd_ ch) then m = events_ ch ∧ m ≠ 0 else watches p fd m);
  remove_ok h p c ch :
    pinv h p → h !! c = Some ch → events_ ch = 0 → channels_ p !! fd_ ch = Some c →
    (∀ m, ¬ watches p (fd_ ch) m) →
    ensures (removeChannel c (h, p)) (λ '(h', p'),
      pinv h' p' ∧ only_indices (channels_ p) h h' ∧
      channels_ p' = delete (fd_ ch) (channels_ p) ∧
      ∀ fd m, watches p' fd m ↔ watches p fd m);
  poll_ok h p r ready :
    pinv h p → ready_reply p r ready →
    ensures (poll r (h, p)) (λ '(active, (h', p')),
      pinv h' p' ∧ h' = set_ready (channels_ p) ready h ∧ channels_ p' = channels_ p ∧
      Forall2 (λ c x, channels_ p !! fst x = Some c) active ready ∧
      ∀ fd m, watches p' fd m ↔ watches p fd m)
}.

(** ** Lemmas the implementations share *)

Lemma only_indices_refl chs h : only_indices chs h h.
Proof. intros c. destruct (h !! c) as [[]|]; done. Qed.

Lemma only_indices_insert chs h c fd ch i :
  h !! c = Some ch → chs !! fd = Some c → only_indices chs h (<[c := setIndex ch i]> h).
Proof.
  intros Hc Hfd c'. destruct (decide (c' = c)) as [->|Hne].
  - rewrite Hc, lookup_insert_eq. split; [done|]. intros Hn. by destruct (Hn fd).
  - rewrite lookup_insert_ne by done. destruct (h !! c') as [[]|]; done.
Qed.

Lemma owners_wrote_setRevents h c ch r :
  h !! c = Some ch → owners_wrote h (<[c := setRevents ch r]> h).
Proof.
  intros Hc c' ch' Hc'. destruct (decide (c' = c)) as [->|Hne].
  - rewrite lookup_insert_eq. eexists. split; [done|]. by replace ch' with ch by congruence.
  - rewrite lookup_insert_ne by done. by eexists.
Qed.

Lemma owners_wrote_trans h1 h2 h3 :
  owners_wrote h1 h2 → owners_wrote h2 h3 → owners_wrote h1 h3.
Proof.
  intros H12 H23 c ch Hc. destruct (H12 c ch Hc) as (ch2 & H2 & [E1 E2]).
  destruct (H23 c ch2 H2) as (ch3 & H3 & [E3 E4]). exists ch3. split; [done|].
  split; congruence.
Qed.

Lemma owners_wrote_refl h : owners_wrote h h.
Proof. intros c ch Hc. by exists ch. Qed.

Lemma owners_wrote_ready chs ready h : owners_wrote h (set_ready chs ready h).
Proof.
  revert h. induction ready as [|[fd r] l IH]; intros h; cbn; [apply owners_wrote_refl|].
  eapply owners_wrote_trans; [|apply IH].
  destruct (chs !! fd) as [c|]; [|apply owners_wrote_refl].
  destruct (h !! c) as [ch|] eqn:E; [|apply owners_wrote_refl].
  by apply owners_wrote_setRevents.
Qed.

(** ** A poller and its clients *)

(** What the clients of a poller do with it. *)
Inductive client_op (R : Type) :=
| COpen (c fd : Z)                       (* a Channel is constructed *)
| CEvents (c mask : Z)                   (* enable.../disable...: the mask and update() *)
| CRemove (c : Z)                        (* Channel::remove *)
| CWait (r : R) (ready : list (Z * Z)).  (* the loop polls, and these fds are ready *)
Arguments COpen {R}.
Arguments CEvents {R}.
Arguments CRemove {R}.
Arguments CWait {R}.

(** The contract: the open channels, the registrations with their masks, and
    the channels that have been registered at some time. *)
Record contract := mkContract {
  k_open : gmap Z Z;
  k_reg : gmap Z (Z * Z);
  k_used : gset Z
}.

Definition empty_contract : contract := mkContract ∅ ∅ ∅.

(** The legal uses: no two channels for one descriptor at a time, a channel is
    removed after its events are disabled and is not registered again. *)
Definition contract_step {R} (o : client_op R) (k : contract) : option contract :=
  match o with
  | COpen c fd =>
      if bool_decide (k_open k !! c = None) && (0 <=? fd)
      then Some (mkContract (<[c := fd]> (k_open k)) (k_reg k) (k_used k)) else None
  | CEvents c mask =>
      match k_open k !! c with
      | Some fd =>
          let ours := match k_reg k !! fd with
                      | Some (c', _) => bool_decide (c' = c)
                      | None => bool_decide (c ∉ k_used k)
                      end in
          if ours && (0 <=? mask) && (mask <? 2 ^ 15)
          then Some (mkContract (k_open k) (<[fd := (c, mask)]> (k_reg k)) ({[c]} ∪ k_used k)) else None
      | None => None
      end
  | CRemove c =>
      match k_open k !! c with
      | Some fd => if bool_decide (k_reg k !! fd = Some (c, 0))
                   then Some (mkContract (k_open k) (delete fd (k_reg k)) (k_used k)) else None
      | None => None
      end
  | CWait _ ready => Some k
  end.

Section Client.
Context {P : Type} `{PollerLaws P}.

Definition client_exec (o : client_op reply) (st : heap * P) : outcome (list Z * (heap * P)) :=
  let '(h, p) := st in
  match o with
  | COpen c fd => Ok ([], (<[c := newChannel fd]> h, p))
  | CEvents c mask =>
      let! ch := deref (h !! c) in
      let! st' := updateChannel c (<[c := set_addedToLoop (set_events ch mask) true]> h, p) in
      Ok ([], st')
  | CRemove c =>
      let! ch := deref (h !! c) in
      assert! isNoneEvent ch ;;
      let! st' := removeChannel c (<[c := set_addedToLoop ch false]> h, p) in
      Ok ([], st')
  | CWait r _ => poll r (h, p)
  end.

Record honours (k : contract) (h : heap) (p : P) : Prop := {
  hn_inv : pinv h p;
  hn_channels : channels_ p = fst <$> k_reg k;
  hn_open : ∀ c fd, k_open k !! c = Some fd → ∃ ch, h !! c = Some ch ∧ fd_ ch = fd ∧ 0 ≤ fd ∧
    (c ∉ k_used k → index_ ch = -1) ∧ (∀ m, k_reg k !! fd = Some (c, m) → events_ ch = m);
  hn_reg : ∀ fd c m, k_reg k !! fd = Some (c, m) → k_open k !! c = Some fd ∧ c ∈ k_used k;
  hn_watches : ∀ fd m, watches p fd m ↔ m ≠ 0 ∧ ∃ c, k_reg k !! fd = Some (c, m)
}.

Lemma owners_wrote_insert h c ch ch' :
  h !! c = Some ch → same_registration ch ch' → owners_wrote h (<[c := ch']> h).
Proof.
  intros Hc Hs c' ch1 Hc'. destruct (decide (c' = c)) as [->|Hne].
  - rewrite lookup_insert_eq. exists ch'. split; [done|]. by replace ch1 with ch by congruence.
  - rewrite lookup_insert_ne by done. by exists ch1.
Qed.

Lemma only_indices_lookup chs h h' c ch :
  only_indices chs h h' → h !! c = Some ch →
  ∃ i, h' !! c = Some (setIndex ch i) ∧ ((∀ fd, chs !! fd ≠ Some c) → i = index_ ch).
Proof.
  intros Ho Hc. specialize (Ho c). rewrite Hc in Ho.
  destruct (h' !! c) as [b|]; [|done]. destruct Ho as [Hb Hn]. exists (index_ b).
  rewrite <- Hb. split; [done|]. intros Hx. by rewrite (Hn Hx).
Qed.

Lemma registered_elsewhere k (chs : gmap Z Z) c :
  chs = fst <$> k_reg k → c ∉ k_used k →
  (∀ fd c m, k_reg k !! fd = Some (c, m) → c ∈ k_used k) → ∀ fd, chs !! fd ≠ Some c.
Proof.
  intros -> Hnu Hrg fd Hfd. rewrite lookup_fmap in Hfd.
  destruct (k_reg k !! fd) as [[c' m]|] eqn:E; [|done]. injection Hfd as ->. by apply Hnu, (Hrg fd c m).
Qed.

Lemma client_open_ok k h p c fd k' :
  honours k h p → contract_step (R := reply) (COpen c fd) k = Some k' → h !! c = None →
  ensures (client_exec (COpen c fd) (h, p)) (λ '(_, (h', p')), honours k' h' p').
Proof.
  intros [Hi Hch Hop Hrg Hwt] Hs Hfresh. cbn in Hs.
  destruct (_ && _) eqn:Hb in Hs; [|done]. injection Hs as <-.
  apply andb_true_iff in Hb as [Hc Hfd]. apply bool_decide_eq_true in Hc. apply Z.leb_le in Hfd.
  split; cbn; try done.
  - eapply pinv_owners; [done|]. intros c' ch Hc'.
    rewrite lookup_insert_ne by congruence. by exists ch.
  - intros c' fd'. rewrite lookup_insert_Some. intros [[<- <-]|[Hne Hc']].
    + exists (newChannel fd). rewrite lookup_insert_eq. split_and!; try done.
      intros m Hm. destruct (Hrg _ _ _ Hm). congruence.
    + destruct (Hop _ _ Hc') as (ch & ? & ?). exists ch. by rewrite lookup_insert_ne.
  - intros fd' c' m Hr. destruct (Hrg _ _ _ Hr) as [H1 H2]. split; [|done].
    rewrite lookup_insert_ne; [done|]. congruence.
Qed.

Lemma client_events_ok k h p c mask k' :
  honours k h p → contract_step (R := reply) (CEvents c mask) k = Some k' →
  ensures (client_exec (CEvents c mask) (h, p)) (λ '(_, (h', p')), honours k' h' p').
Proof.
  intros [Hi Hch Hop Hrg Hwt] Hs. cbn in Hs.
  destruct (k_open k !! c) as [fd|] eqn:Hc; [|done].
  destruct (_ && _) eqn:Hb in Hs; [|done]. injection Hs as <-.
  apply andb_true_iff in Hb as [[Hours Hm1]%andb_true_iff Hm2].
  apply Z.leb_le in Hm1. apply Z.ltb_lt in Hm2.
  destruct (Hop _ _ Hc) as (ch & Hh & Hfd & Hpos & Hidx & Hev).
  set (ch1 := set_addedToLoop (set_events ch mask) true). cbn [client_exec]. rewrite Hh. cbn [deref obind].
  set (h1 := <[c := ch1]> h).
  assert (pinv h1 p) as Hi1.
  { eapply pinv_owners; [done|]. by eapply owners_wrote_insert. }
  assert (∀ c' m, k_reg k !! fd = Some (c', m) → c' = c) as Hown.
  { intros c' m Hr. rewrite Hr in Hours. by apply bool_decide_eq_true in Hours. }
  eapply ensures_bind; [apply (update_ok h1 p c ch1); try done|].
  - unfold h1; by rewrite lookup_insert_eq.
  - cbn. by rewrite Hfd.
  - cbn. rewrite Hfd, Hch, lookup_fmap.
    destruct (k_reg k !! fd) as [[c' m']|] eqn:Hr; cbn.
    + left. by rewrite (Hown _ _ eq_refl).
    + right. split; [done|]. apply Hidx. by apply bool_decide_eq_true in Hours.
  - intros [h' p'] (Hi' & Hoi & Hch' & Hw'). cbn [ensures]. cbn in Hoi, Hch', Hw'. rewrite Hfd in Hoi, Hch', Hw'.
    assert (Hch2 : channels_ p' = fst <$> <[fd := (c, mask)]> (k_reg k))
      by (by rewrite Hch', Hch, fmap_insert).
    split; cbn; try done.
    + intros c' fd' Hc'. destruct (decide (c' = c)) as [->|Hne].
      * assert (fd' = fd) as -> by congruence.
        destruct (only_indices_lookup _ h1 h' c ch1 Hoi) as (i & Hi2 & _); [unfold h1; by rewrite lookup_insert_eq|].
        exists (setIndex ch1 i). split_and!; try done; [intros Hx; by destruct Hx; apply elem_of_union_l, elem_of_singleton|].
        intros m. rewrite lookup_insert_eq. by intros [= <-].
      * destruct (Hop _ _ Hc') as (ch2 & Hh2 & Hfd2 & Hpos2 & Hidx2 & Hev2).
        destruct (only_indices_lookup _ h1 h' c' ch2 Hoi) as (i & Hi2 & Hsame); [unfold h1; by rewrite lookup_insert_ne|].
        exists (setIndex ch2 i). split_and!; try done.
        -- intros Hnu. apply not_elem_of_union in Hnu as [_ Hnu].
           cbn. rewrite Hsame; [by apply Hidx2|]. intros fd0 Hx.
           apply lookup_insert_Some in Hx as [[_ ?]|[_ Hx]]; [done|].
           revert Hx. apply (registered_elsewhere k); try done. intros ? ? ? Hr. by apply Hrg in Hr as [_ ?].
        -- intros m Hm. apply Hev2. apply lookup_insert_Some in Hm as [[_ [= ??]]|[_ Hm]]; [congruence|done].
    + intros fd' c' m Hr. apply lookup_insert_Some in Hr as [[<- [= <- <-]]|[Hx Hr]].
      * split; [done|]. apply elem_of_union_l. by apply elem_of_singleton.
      * destruct (Hrg _ _ _ Hr) as [H1 H2]. split; [done|]. by apply elem_of_union_r.
    + intros fd' m. etransitivity; [apply Hw'|]. destruct (decide (fd' = fd)) as [Hd|Hd].
      * subst. rewrite lookup_insert_eq. naive_solver.
      * by rewrite lookup_insert_ne by done.
Qed.

Lemma client_remove_ok k h p c k' :
  honours k h p → contract_step (R := reply) (CRemove c) k = Some k' →
  ensures (client_exec (CRemove c) (h, p)) (λ '(_, (h', p')), honours k' h' p').
Proof.
  intros [Hi Hch Hop Hrg Hwt] Hs. cbn in Hs.
  destruct (k_open k !! c) as [fd|] eqn:Hc; [|done].
  case_bool_decide as Hr; [|done]. injection Hs as <-.
  destruct (Hop _ _ Hc) as (ch & Hh & Hfd & Hpos & Hidx & Hev). pose proof (Hev 0 Hr) as Hz.
  cbn [client_exec]. rewrite Hh. cbn [deref obind]. unfold isNoneEvent. rewrite Hz. pass_asserts.
  set (ch1 := set_addedToLoop ch false). set (h1 := <[c := ch1]> h).
  assert (pinv h1 p) as Hi1 by (eapply pinv_owners; [done|]; by eapply owners_wrote_insert).
  eapply ensures_bind; [apply (remove_ok h1 p c ch1); try done|].
  - unfold h1; by rewrite lookup_insert_eq.
  - cbn. by rewrite Hfd, Hch, lookup_fmap, Hr.
  - cbn. rewrite Hfd. intros m [Hm (c' & Hr')]%Hwt. congruence.
  - intros [h' p'] (Hi' & Hoi & Hch' & Hw'). cbn [ensures]. cbn in Hoi, Hch', Hw'. rewrite Hfd in Hch'.
    split; cbn; try done.
    + by rewrite Hch', Hch, fmap_delete.
    + intros c' fd' Hc'. destruct (decide (c' = c)) as [->|Hne].
      * assert (fd' = fd) as -> by congruence.
        destruct (only_indices_lookup _ h1 h' c ch1 Hoi) as (i & Hi2 & _); [unfold h1; by rewrite lookup_insert_eq|].
        exists (setIndex ch1 i). split_and!; try done.
        -- intros Hx. by apply Hrg in Hr as [_ ?].
        -- intros m. by rewrite lookup_delete_eq.
      * destruct (Hop _ _ Hc') as (ch2 & Hh2 & Hfd2 & Hpos2 & Hidx2 & Hev2).
        destruct (only_indices_lookup _ h1 h' c' ch2 Hoi) as (i & Hi2 & Hsame); [unfold h1; by rewrite lookup_insert_ne|].
        exists (setIndex ch2 i). split_and!; try done.
        -- intros Hnu. cbn. rewrite Hsame; [by apply Hidx2|].
           apply (registered_elsewhere k); try done. intros ? ? ? Hx. by apply Hrg in Hx as [_ ?].
        -- intros m Hm. apply Hev2. by apply lookup_delete_Some in Hm as [_ Hm].
    + intros fd' c' m Hx. apply lookup_delete_Some in Hx as [_ Hx]. by apply (Hrg fd' c' m).
    + intros fd' m. etransitivity; [apply Hw'|]. etransitivity; [apply Hwt|]. split; intros [Hm (c' & Hx)]; (split; [done|]; exists c').
      * apply lookup_delete_Some. split; [|done]. congruence.
      * by apply lookup_delete_Some in Hx as [_ Hx].
Qed.

Lemma set_ready_lookup chs ready : ∀ h c ch,
  h !! c = Some ch → ∃ r, set_ready chs ready h !! c = Some (setRevents ch r).
Proof.
  induction ready as [|[fd r] l IH]; intros h c ch Hc; cbn.
  - exists (revents_ ch). rewrite Hc. by destruct ch.
  - destruct (chs !! fd) as [c'|]; [|by apply IH].
    destruct (h !! c') as [ch'|] eqn:E; [|by apply IH].
    destruct (decide (c' = c)) as [->|Hne].
    + destruct (IH (<[c := setRevents ch' r]> h) c (setRevents ch' r)) as [r' Hr']; [by rewrite lookup_insert_eq|].
      exists r'. rewrite Hr'. by replace ch' with ch by congruence.
    + apply IH. by rewrite lookup_insert_ne.
Qed.

Lemma set_ready_absent chs ready c : ∀ h,
  (∀ fd r, (fd, r) ∈ ready → chs !! fd ≠ Some c) → set_ready chs ready h !! c = h !! c.
Proof.
  induction ready as [|[fd r] l IH]; intros h Hn; cbn; [done|].
  rewrite IH by (intros fd' r' Hin; apply (Hn fd' r'); by right).
  destruct (chs !! fd) as [c'|] eqn:E; [|done]. destruct (h !! c'); [|done].
  rewrite lookup_insert_ne; [done|]. intros ->. by apply (Hn fd r ltac:(by left)).
Qed.

Lemma set_ready_revents chs ready : ∀ h fd r c ch,
  NoDup ready.*1 → (∀ fd1 fd2 c, chs !! fd1 = Some c → chs !! fd2 = Some c → fd1 = fd2) →
  (fd, r) ∈ ready → chs !! fd = Some c → h !! c = Some ch →
  set_ready chs ready h !! c = Some (setRevents ch r).
Proof.
  induction ready as [|[fd0 r0] l IH]; intros h fd r c ch Hnd Hinj Hin Hfd Hc; [by apply elem_of_nil in Hin|].
  cbn [fmap list_fmap fst] in Hnd. apply NoDup_cons in Hnd as [Hfd0 Hnd]. cbn [set_ready].
  apply elem_of_cons in Hin as [[= <- <-]|Hin].
  - rewrite Hfd, Hc. rewrite set_ready_absent; [by rewrite lookup_insert_eq|].
    intros fd' r' Hin' Hfd'. apply Hfd0. rewrite (Hinj _ _ _ Hfd Hfd').
    apply list_elem_of_fmap. by exists (fd', r').
  - destruct (chs !! fd0) as [c0|] eqn:E0; [|by eapply IH].
    destruct (h !! c0) as [ch0|] eqn:Ec0; [|by eapply IH].
    eapply IH; [done|done|done|done|]. rewrite lookup_insert_ne; [done|]. intros ->.
    apply Hfd0. rewrite (Hinj _ _ _ E0 Hfd). apply list_elem_of_fmap. by exists (fd, r).
Qed.

(** The result of a wait: the channels of the ready descriptors, in order,
    each with its revents. *)
Definition wait_result_ok (k : contract) (ready : list (Z * Z)) (active : list Z) (h : heap) : Prop :=
  Forall2 (λ c x, ∃ m, k_reg k !! fst x = Some (c, m)) active ready ∧
  (NoDup ready.*1 → ∀ fd r c m, (fd, r) ∈ ready → k_reg k !! fd = Some (c, m) →
     ∃ ch, h !! c = Some ch ∧ revents_ ch = r).

Lemma client_wait_ok k h p r ready :
  honours k h p → ready_reply p r ready →
  ensures (client_exec (CWait r ready) (h, p))
    (λ '(active, (h', p')), honours k h' p' ∧ wait_result_ok k ready active h').
Proof.
  intros [Hi Hch Hop Hrg Hwt] Hr. cbn [client_exec].
  eapply ensures_mono; [by apply poll_ok|].
  intros [active [h' p']] (Hi' & -> & Hch' & HF & Hw'). split; [split; cbn; try done|].
  - by rewrite Hch'.
  - intros c fd Hc. destruct (Hop _ _ Hc) as (ch & Hh & H1 & H2 & H3 & H4).
    destruct (set_ready_lookup (channels_ p) ready h c ch Hh) as [r' Hr']. eexists. by split_and!.
  - intros fd m. by rewrite Hw'.
  - split.
    + eapply Forall2_impl; [exact HF|]. intros c [fd r'] Hx. cbn in Hx |- *.
      rewrite Hch, lookup_fmap in Hx. destruct (k_reg k !! fd) as [[c' m]|]; [|done].
      exists m. by injection Hx as <-.
    + intros Hnd fd r' c m Hin Hx. destruct (Hrg _ _ _ Hx) as [Hc _].
      destruct (Hop _ _ Hc) as (ch & Hh & _). exists (setRevents ch r'). split; [|done].
      eapply set_ready_revents; try done.
      * intros fd1 fd2 c0. rewrite Hch, !lookup_fmap.
        destruct (k_reg k !! fd1) as [[c1 m1]|] eqn:E1; [|done].
        destruct (k_reg k !! fd2) as [[c2 m2]|] eqn:E2; [|done]. intros [= ->] [= ->].
        apply Hrg in E1 as [E1 _]. apply Hrg in E2 as [E2 _]. congruence.
      * by rewrite Hch, lookup_fmap, Hx.
Qed.

(** The states a poller and its clients go through, with the kernel's replies
    as they come. *)
Inductive client_reachable (p0 : P) : contract → heap → P → Prop :=
| client_init : client_reachable p0 empty_contract ∅ p0
| client_step k h p o k' active h' p' :
    client_reachable p0 k h p → contract_step o k = Some k' →
    (∀ c fd, o = COpen c fd → h !! c = None) →
    (∀ r ready, o = CWait r ready → ready_reply p r ready) →
    client_exec o (h, p) = Ok (active, (h', p')) →
    client_reachable p0 k' h' p'.

Lemma client_op_ok k h p o k' :
  honours k h p → contract_step o k = Some k' →
  (∀ c fd, o = COpen c fd → h !! c = None) →
  (∀ r ready, o = CWait r ready → ready_reply p r ready) →
  ensures (client_exec o (h, p)) (λ '(active, (h', p')), honours k' h' p' ∧
    ∀ r ready, o = CWait r ready → wait_result_ok k ready active h').
Proof.
  intros Hh Hs Hf Hr. destruct o as [c fd|c mask|c|r ready].
  - eapply ensures_mono; [apply (client_open_ok k h p c fd k' Hh Hs); by eapply Hf|].
    by intros [active [h' p']].
  - eapply ensures_mono; [by eapply client_events_ok|]. by intros [active [h' p']].
  - eapply ensures_mono; [by eapply client_remove_ok|]. by intros [active [h' p']].
  - injection Hs as <-. eapply ensures_mono; [eapply client_wait_ok; [done|by apply Hr]|].
    intros [active [h' p']] [H1 H2]. split; [done|]. by intros r' ready' [= <- <-].
Qed.

Lemma client_reachable_honours p0 k h p :
  pinv ∅ p0 → channels_ p0 = ∅ → (∀ fd m, ¬ watches p0 fd m) →
  client_reachable p0 k h p → honours k h p.
Proof.
  intros Hi Hc Hw. induction 1 as [|k h p o k' active h' p' _ IH Hs Hf Hr He].
  - split; [done|done|done|done|].
    intros fd m. split; [by intros ?%Hw|]. intros [_ [c Hx]]. done.
  - pose proof (client_op_ok _ _ _ _ _ IH Hs Hf Hr) as Hx. rewrite He in Hx. by destruct Hx.
Qed.

(** What every implementation of [Poller] promises its clients. *)
Definition poller_contract (p0 : P) : Prop :=
  ∀ k h p o k',
    client_reachable p0 k h p → contract_step o k = Some k' →
    (∀ c fd, o = COpen c fd → h !! c = None) →
    (∀ r ready, o = CWait r ready → ready_reply p r ready) →
    ∃ active h' p', client_exec o (h, p) = Ok (active, (h', p')) ∧
      (∀ fd m, watches p' fd m ↔ m ≠ 0 ∧ ∃ c, k_reg k' !! fd = Some (c, m)) ∧
      (∀ c ch, h' !! c = Some ch → k_open k' !! c = Some (fd_ ch) →
         hasChannel c ch p' = true ↔ ∃ m, k_reg k' !! fd_ ch = Some (c, m)) ∧
      (∀ r ready, o = CWait r ready → wait_result_ok k ready active h').

Lemma poller_contract_holds p0 :
  pinv ∅ p0 → channels_ p0 = ∅ → (∀ fd m, ¬ watches p0 fd m) → poller_contract p0.
Proof.
  intros Hi Hc Hw k h p o k' Hreach Hs Hf Hr.
  pose proof (client_reachable_honours p0 k h p Hi Hc Hw Hreach) as Hh.
  destruct (ensures_ok _ _ (client_op_ok _ _ _ _ _ Hh Hs Hf Hr)) as ([active [h' p']] & He & Hh' & Hres).
  exists active, h', p'. split_and!; try done.
  - apply Hh'.
  - intros c ch _ _. unfold hasChannel. rewrite bool_decide_eq_true, (hn_channels _ _ _ Hh'), lookup_fmap.
    destruct (k_reg k' !! fd_ ch) as [[c' m]|]; cbn; naive_solver.
Qed.
End Client.
