(* ===== verification/EPollPoller.v ===== *)
(** * EPollPoller: epoll(4) ([muduo/net/poller/EPollPoller.h], [EPollPoller.cc])

    The kernel's epoll instance is a parameter, [EpollApi], with the documented
    behaviour of [epoll_ctl(2)] as laws; a map of interest is an instance. *)
From S2P Require Import Prelude Channel Poller.
From stdpp Require Import options.

Inductive ctl_op : Set := EPOLL_CTL_ADD | EPOLL_CTL_MOD | EPOLL_CTL_DEL.

(** [epoll_ctl]: the result is whether it returned 0. [interest k !! fd] are
    the [epoll_event] registered for [fd]: its events and its [data.ptr]. *)
Class EpollApi (K : Type) := {
  interest : K → gmap Z (Z * Z);
  epoll_ctl : ctl_op → Z → Z * Z → K → bool * K;
  ctl_add fd e k : interest k !! fd = None →
    fst (epoll_ctl EPOLL_CTL_ADD fd e k) = true ∧
    interest (snd (epoll_ctl EPOLL_CTL_ADD fd e k)) = <[fd := e]> (interest k);
  ctl_mod fd e k : is_Some (interest k !! fd) →
    fst (epoll_ctl EPOLL_CTL_MOD fd e k) = true ∧
    interest (snd (epoll_ctl EPOLL_CTL_MOD fd e k)) = <[fd := e]> (interest k);
  ctl_del fd e k : is_Some (interest k !! fd) →
    fst (epoll_ctl EPOLL_CTL_DEL fd e k) = true ∧
    interest (snd (epoll_ctl EPOLL_CTL_DEL fd e k)) = delete fd (interest k)
}.

(* src/muduo/net/poller/EPollPoller.h:22-22 EPollPoller::kInitEventListSize *)
Definition kInitEventListSize : Z := 16.
(* src/muduo/net/poller/EPollPoller.h:23-23 EPollPoller::kNew *)
Definition kNew : Z := -1.
(* src/muduo/net/poller/EPollPoller.h:24-24 EPollPoller::kAdded *)
Definition kAdded : Z := 1.
(* src/muduo/net/poller/EPollPoller.h:25-25 EPollPoller::kDeleted *)
Definition kDeleted : Z := 2.

Definition EINTR : Z := 4.

(* src/muduo/net/poller/EPollPoller.cc:156-167 EPollPoller::operationToString *)
Definition operationToString (op : ctl_op) : bytes :=
  match op with
  | EPOLL_CTL_ADD => str "ADD"
  | EPOLL_CTL_DEL => str "DEL"
  | EPOLL_CTL_MOD => str "MOD"
  end.

(** What [epoll_wait] returns: -1 with errno, or the events it stored. *)
Inductive wait_result := WaitErr (errno : Z) | WaitOk (events : list (Z * Z)).

Section EPoll.
Context {K : Type} `{EpollApi K}.

(* src/muduo/net/poller/EPollPoller.h:34-35 EPollPoller *)
Record EPollPoller := mkEPoll {
  e_channels : gmap Z Z;
  e_kernel : K;               (* behind epollfd_ *)
  e_size : Z;                 (* events_.size() *)
  e_errors : list Z           (* the errors logSysErr reported *)
}.

(* src/muduo/net/poller/EPollPoller.cc:22-28 EPollPoller::EPollPoller *)
Definition newEPollPoller (k : K) : EPollPoller := mkEPoll ∅ k kInitEventListSize [].

(* src/muduo/net/poller/EPollPoller.cc:134-154 EPollPoller::update *)
Definition update (operation : ctl_op) (c : Z) (ch : Channel) (p : EPollPoller) : outcome EPollPoller :=
  let event := (wrap 32 (events_ ch), c) in
  let '(ok, k) := epoll_ctl operation (fd_ ch) event (e_kernel p) in
  let p' := mkEPoll (e_channels p) k (e_size p) (e_errors p) in
  if ok then Ok p'
  else match operation with
       | EPOLL_CTL_DEL => Ok (mkEPoll (e_channels p) k (e_size p) (e_errors p ++ [fd_ ch]))
       | _ => Fault FatalLog
       end.

Definition set_channels (m : gmap Z Z) (p : EPollPoller) : EPollPoller :=
  mkEPoll m (e_kernel p) (e_size p) (e_errors p).

(* src/muduo/net/poller/EPollPoller.cc:79-110 EPollPoller::updateChannel *)
Definition e_updateChannel (c : Z) (st : heap * EPollPoller) : outcome (heap * EPollPoller) :=
  let '(h, p) := st in
  let! ch := deref (h !! c) in
  let index := index_ ch in
  if (index =? kNew) || (index =? kDeleted) then
    let fd := fd_ ch in
    let p1 := if index =? kNew then set_channels (<[fd := c]> (e_channels p)) p else p in
    let ch' := setIndex ch kAdded in
    let! p2 := update EPOLL_CTL_ADD c ch' p1 in
    Ok (<[c := ch']> h, p2)
  else
    assert! bool_decide (e_channels p !! fd_ ch = Some c) ;;
    assert! index =? kAdded ;;
    if isNoneEvent ch then
      let! p1 := update EPOLL_CTL_DEL c ch p in
      Ok (<[c := setIndex ch kDeleted]> h, p1)
    else
      let! p1 := update EPOLL_CTL_MOD c ch p in
      Ok (h, p1).

(* src/muduo/net/poller/EPollPoller.cc:112-132 EPollPoller::removeChannel *)
Definition e_removeChannel (c : Z) (st : heap * EPollPoller) : outcome (heap * EPollPoller) :=
  let '(h, p) := st in
  let! ch := deref (h !! c) in
  let fd := fd_ ch in
  assert! bool_decide (e_channels p !! fd = Some c) ;;
  assert! isNoneEvent ch ;;
  let index := index_ ch in
  assert! (index =? kAdded) || (index =? kDeleted) ;;
  let p1 := set_channels (delete fd (e_channels p)) p in
  let! p2 := (if index =? kAdded then update EPOLL_CTL_DEL c ch p1 else Ok p1) in
  Ok (<[c := setIndex ch kNew]> h, p2).

Fixpoint fill (events : list (Z * Z)) (p : EPollPoller) (active : list Z) (h : heap) :
    outcome (list Z * heap) :=
  match events with
  | [] => Ok (active, h)
  | (ev, c) :: l =>
      let! ch := deref (h !! c) in
      assert! bool_decide (e_channels p !! fd_ ch = Some c) ;;
      fill l p (active ++ [c]) (<[c := setRevents ch ev]> h)
  end.

(* src/muduo/net/poller/EPollPoller.cc:61-77 EPollPoller::fillActiveChannels *)
Definition fillActiveChannels (events : list (Z * Z)) (p : EPollPoller) (active : list Z) (h : heap) :
    outcome (list Z * heap) :=
  assert! len events <=? e_size p ;;
  fill events p active h.

(* src/muduo/net/poller/EPollPoller.cc:32-59 EPollPoller::poll *)
Definition e_poll (r : wait_result) (st : heap * EPollPoller) : outcome (list Z * (heap * EPollPoller)) :=
  let '(h, p) := st in
  match r with
  | WaitOk [] => Ok ([], (h, p))
  | WaitOk events =>
      let! (active, h') := fillActiveChannels events p [] h in
      let size' := if len events =? e_size p then e_size p * 2 else e_size p in
      Ok (active, (h', mkEPoll (e_channels p) (e_kernel p) size' (e_errors p)))
  | WaitErr savedErrno =>
      if savedErrno =? EINTR then Ok ([], (h, p))
      else Ok ([], (h, mkEPoll (e_channels p) (e_kernel p) (e_size p) (e_errors p ++ [savedErrno])))
  end.

#[export] Instance epoll_ops : PollerOps EPollPoller := {|
  channels_ := e_channels; updateChannel := e_updateChannel; removeChannel := e_removeChannel;
  reply := wait_result; poll := e_poll |}.

(** ** It is a poller *)

(** Registered channels know their state, and the kernel's interest list has
    exactly the added ones. *)
Record e_inv (h : heap) (p : EPollPoller) : Prop := mkEInv {
  ei_channel : ∀ fd c, e_channels p !! fd = Some c → ∃ ch, h !! c = Some ch ∧ fd_ ch = fd ∧
    ((index_ ch = kAdded ∧ ∃ ev, interest (e_kernel p) !! fd = Some (ev, c)) ∨
     (index_ ch = kDeleted ∧ interest (e_kernel p) !! fd = None));
  ei_absent : ∀ fd, e_channels p !! fd = None → interest (e_kernel p) !! fd = None
}.

Definition e_watches (p : EPollPoller) (fd m : Z) : Prop :=
  m ≠ 0 ∧ ∃ c, interest (e_kernel p) !! fd = Some (m, c).

(** The events of [epoll_wait] are for registered descriptors and carry the
    registered pointer; they fit the array. *)
Definition e_ready (p : EPollPoller) (r : wait_result) (ready : list (Z * Z)) : Prop :=
  ∃ events, r = WaitOk events ∧ len events ≤ e_size p ∧
    Forall2 (λ e x, fst e = snd x ∧ ∃ ev, interest (e_kernel p) !! fst x = Some (ev, snd e)) events ready.

Lemma mask_wrap e : mask_ok e → wrap 32 e = e.
Proof. intros [H1 H2]. apply wrap_small. lia. Qed.

(** Changing the channel at [c], which is registered for [fd] only. *)
Lemma e_inv_write h p p' c ch ch' :
  e_inv h p → h !! c = Some ch → fd_ ch' = fd_ ch →
  e_channels p' !! fd_ ch = Some c →
  (∀ fd, fd ≠ fd_ ch → e_channels p' !! fd = e_channels p !! fd) →
  (∀ fd, fd ≠ fd_ ch → interest (e_kernel p') !! fd = interest (e_kernel p) !! fd) →
  ((index_ ch' = kAdded ∧ ∃ ev, interest (e_kernel p') !! fd_ ch = Some (ev, c)) ∨
   (index_ ch' = kDeleted ∧ interest (e_kernel p') !! fd_ ch = None)) →
  e_inv (<[c := ch']> h) p'.
Proof.
  intros [Hc Ha] Hh Hfd Hown Hch Hint Hst. split.
  - intros fd c' Hfc. destruct (decide (fd = fd_ ch)) as [->|Hne].
    + replace c' with c by congruence. exists ch'. by rewrite lookup_insert_eq.
    + rewrite Hch in Hfc by done. destruct (Hc _ _ Hfc) as (ch1 & H1 & H2 & H3).
      exists ch1. rewrite lookup_insert_ne, Hint by (done || (intros <-; congruence)). done.
  - intros fd Hfd'. destruct (decide (fd = fd_ ch)) as [->|Hne]; [congruence|].
    rewrite Hint by done. apply Ha. by rewrite <- Hch.
Qed.

Lemma update_ctl op c ch p :
  fst (epoll_ctl op (fd_ ch) (wrap 32 (events_ ch), c) (e_kernel p)) = true →
  update op c ch p =
    Ok (mkEPoll (e_channels p) (snd (epoll_ctl op (fd_ ch) (wrap 32 (events_ ch), c) (e_kernel p)))
          (e_size p) (e_errors p)).
Proof. unfold update. destruct (epoll_ctl _ _ _ _) as [ok k]. cbn. by intros ->. Qed.

Lemma e_update_ok h p c ch :
  e_inv h p → h !! c = Some ch → mask_ok (events_ ch) →
  (e_channels p !! fd_ ch = Some c ∨ (e_channels p !! fd_ ch = None ∧ index_ ch = -1)) →
  ensures (e_updateChannel c (h, p)) (λ '(h', p'),
    e_inv h' p' ∧ only_indices (<[fd_ ch := c]> (e_channels p)) h h' ∧
    e_channels p' = <[fd_ ch := c]> (e_channels p) ∧
    ∀ fd m, e_watches p' fd m ↔
      if decide (fd = fd_ ch) then m = events_ ch ∧ m ≠ 0 else e_watches p fd m).
Proof.
  intros Hinv Hh Hm Hreg. pose proof Hinv as [Hc Ha].
  unfold e_updateChannel. rewrite Hh. cbn [deref obind].
  destruct ((index_ ch =? kNew) || (index_ ch =? kDeleted)) eqn:Hidx.
  - assert (interest (e_kernel p) !! fd_ ch = None) as Hnone.
    { destruct Hreg as [Hreg|[Hreg _]]; [|by apply Ha].
      destruct (Hc _ _ Hreg) as (ch1 & H1 & _ & [[H2 _]|[_ ?]]); [|done].
      replace ch1 with ch in H2 by congruence. by rewrite H2 in Hidx. }
    set (p1 := if index_ ch =? kNew then _ else p).
    assert (e_kernel p1 = e_kernel p ∧ e_channels p1 = <[fd_ ch := c]> (e_channels p)) as [Hk1 Hch1].
    { unfold p1. destruct (Z.eqb_spec (index_ ch) kNew) as [Hn|Hn]; cbn; [done|]. split; [done|].
      destruct Hreg as [Hreg|[_ Hreg]]; [|done]. by rewrite insert_id. }
    destruct (ctl_add (fd_ ch) (wrap 32 (events_ ch), c) (e_kernel p1)) as [Hok Hint]; [by rewrite Hk1|].
    rewrite update_ctl by done. cbn [obind ensures fd_ events_ setIndex]. split_and!.
    + eapply (e_inv_write h p _ c ch); cbn; try done.
      * by rewrite Hch1, lookup_insert_eq.
      * intros fd Hne. by rewrite Hch1, lookup_insert_ne.
      * intros fd Hne. by rewrite Hint, lookup_insert_ne, Hk1.
      * left. split; [done|]. rewrite Hint, lookup_insert_eq. by eexists.
    + eapply only_indices_insert; [done|apply lookup_insert_eq].
    + done.
    + intros fd m. unfold e_watches. cbn. rewrite Hint, mask_wrap, Hk1 by done. case_decide as Hd.
      * subst. rewrite lookup_insert_eq. naive_solver.
      * by rewrite lookup_insert_ne.
  - apply orb_false_iff in Hidx as [Hi1 Hi2]. apply Z.eqb_neq in Hi1, Hi2.
    destruct Hreg as [Hreg|[_ Hreg]]; [|done].
    destruct (Hc _ _ Hreg) as (ch1 & H1 & _ & Hst). replace ch1 with ch in Hst by congruence.
    destruct Hst as [[Hadd [ev Hev]]|[? _]]; [|done].
    rewrite bool_decide_true, Hadd by done. pass_asserts.
    change (kAdded =? kAdded) with true. pass_asserts.
    unfold isNoneEvent. destruct (Z.eqb_spec (events_ ch) kNoneEvent) as [He|He].
    + destruct (ctl_del (fd_ ch) (wrap 32 (events_ ch), c) (e_kernel p)) as [Hok Hint]; [by eexists|].
      rewrite update_ctl by done. cbn [obind ensures]. split_and!.
      * eapply (e_inv_write h p _ c ch); cbn; try done.
        -- intros fd Hne. by rewrite Hint, lookup_delete_ne.
        -- right. by rewrite Hint, lookup_delete_eq.
      * eapply only_indices_insert; [done|apply lookup_insert_eq].
      * cbn. by rewrite insert_id.
      * intros fd m. unfold e_watches. cbn. rewrite Hint. case_decide as Hd.
        -- subst. rewrite lookup_delete_eq. unfold kNoneEvent in He. naive_solver congruence.
        -- by rewrite lookup_delete_ne.
    + destruct (ctl_mod (fd_ ch) (wrap 32 (events_ ch), c) (e_kernel p)) as [Hok Hint]; [by eexists|].
      rewrite update_ctl by done. cbn [obind ensures]. split_and!.
      * rewrite <- (insert_id h c ch) by done.
        eapply (e_inv_write h p _ c ch); cbn; try done.
        -- intros fd Hne. by rewrite Hint, lookup_insert_ne.
        -- left. split; [done|]. rewrite Hint, lookup_insert_eq. by eexists.
      * apply only_indices_refl.
      * cbn. by rewrite insert_id.
      * intros fd m. unfold e_watches. cbn. rewrite Hint, mask_wrap by done. case_decide as Hd.
        -- subst. rewrite lookup_insert_eq. naive_solver.
        -- by rewrite lookup_insert_ne.
Qed.

Lemma e_remove_ok h p c ch :
  e_inv h p → h !! c = Some ch → events_ ch = 0 → e_channels p !! fd_ ch = Some c →
  (∀ m, ¬ e_watches p (fd_ ch) m) →
  ensures (e_removeChannel c (h, p)) (λ '(h', p'),
    e_inv h' p' ∧ only_indices (e_channels p) h h' ∧ e_channels p' = delete (fd_ ch) (e_channels p) ∧
    ∀ fd m, e_watches p' fd m ↔ e_watches p fd m).
Proof.
  intros Hinv Hh He Hreg Hw. pose proof Hinv as [Hc Ha].
  unfold e_removeChannel. rewrite Hh. cbn [deref obind].
  rewrite bool_decide_true by done. unfold isNoneEvent. rewrite He. pass_asserts.
  destruct (Hc _ _ Hreg) as (ch1 & H1 & _ & Hst). replace ch1 with ch in Hst by congruence. clear ch1 H1.
  assert (∀ k, (∀ fd, fd ≠ fd_ ch → interest k !! fd = interest (e_kernel p) !! fd) →
    interest k !! fd_ ch = None →
    e_inv (<[c := setIndex ch kNew]> h) (mkEPoll (delete (fd_ ch) (e_channels p)) k (e_size p) (e_errors p)))
    as Hinv'.
  { intros k Hk Hk0. split; cbn.
    - intros fd c' Hfc. apply lookup_delete_Some in Hfc as [Hne Hfc].
      destruct (Hc _ _ Hfc) as (ch1 & H1 & H2 & H3). exists ch1.
      rewrite lookup_insert_ne, Hk by (congruence || (intros <-; congruence)). done.
    - intros fd Hfd. destruct (decide (fd = fd_ ch)) as [->|Hne]; [done|].
      rewrite Hk by done. apply Ha. by rewrite lookup_delete_ne in Hfd. }
  destruct Hst as [[Hadd [ev Hev]]|[Hdel Hnone]].
  - rewrite Hadd. change ((kAdded =? kAdded) || (kAdded =? kDeleted)) with true.
    change (kAdded =? kAdded) with true. pass_asserts.
    destruct (ctl_del (fd_ ch) (wrap 32 (events_ ch), c) (e_kernel p)) as [Hok Hint]; [by eexists|].
    rewrite update_ctl by done. cbn [obind ensures set_channels e_channels e_kernel e_size e_errors]. split_and!.
    + apply Hinv'; [|by rewrite Hint, lookup_delete_eq]. intros fd Hne. by rewrite Hint, lookup_delete_ne.
    + by eapply only_indices_insert.
    + done.
    + intros fd m. unfold e_watches. cbn. rewrite Hint. destruct (decide (fd = fd_ ch)) as [->|Hne].
      * rewrite lookup_delete_eq. split; [naive_solver|]. intros Hx. by destruct (Hw m).
      * by rewrite lookup_delete_ne.
  - rewrite Hdel. change ((kDeleted =? kAdded) || (kDeleted =? kDeleted)) with true.
    change (kDeleted =? kAdded) with false. pass_asserts. cbn [ensures]. split_and!.
    + by apply Hinv'.
    + by eapply only_indices_insert.
    + done.
    + done.
Qed.

Lemma e_inv_owners h h' p : e_inv h p → owners_wrote h h' → e_inv h' p.
Proof.
  intros [Hc Ha] Hw. split; [|done]. intros fd c Hfc. destruct (Hc _ _ Hfc) as (ch & H1 & H2 & H3).
  destruct (Hw _ _ H1) as (ch' & H4 & [E1 E2]). exists ch'. rewrite <- E1, <- E2. done.
Qed.

Lemma e_inv_destroy h p c : e_inv h p → (∀ fd, e_channels p !! fd ≠ Some c) → e_inv (delete c h) p.
Proof.
  intros [Hc Ha] Hn. split; [|done]. intros fd c' Hfc. destruct (Hc _ _ Hfc) as (ch & H1 & H2).
  exists ch. rewrite lookup_delete_ne; [done|]. intros <-. by destruct (Hn fd).
Qed.

Lemma e_fill_ok p events : ∀ ready active h,
  e_inv h p →
  Forall2 (λ e x, fst e = snd x ∧ ∃ ev, interest (e_kernel p) !! fst x = Some (ev, snd e)) events ready →
  ensures (fill events p active h) (λ '(active', h'),
    h' = set_ready (e_channels p) ready h ∧
    ∃ cs, active' = active ++ cs ∧ Forall2 (λ c x, e_channels p !! fst x = Some c) cs ready).
Proof.
  induction events as [|[ev c] events IH]; intros ready active h Hinv HF.
  - apply Forall2_nil_inv_l in HF as ->. cbn. split; [done|]. exists []. split; [by rewrite app_nil_r|done].
  - apply Forall2_cons_inv_l in HF as ([fd r] & ready' & [Hev [m Hint]] & HF & ->). cbn in Hev, Hint.
    pose proof Hinv as [Hc Ha].
    destruct (e_channels p !! fd) as [c1|] eqn:Hfc; [|apply Ha in Hfc; congruence].
    destruct (Hc _ _ Hfc) as (ch & H1 & H2 & H3).
    assert (c1 = c) as ->.
    { destruct H3 as [[_ [e1 He1]]|[_ ?]]; congruence. }
    cbn [fill set_ready]. rewrite Hfc, H1. cbn [deref obind]. rewrite H2.
    rewrite bool_decide_true by done. pass_asserts. rewrite Hev.
    eapply ensures_mono; [apply IH; [|exact HF]|].
    { eapply e_inv_owners; [done|by apply owners_wrote_setRevents]. }
    intros [active' h'] (-> & cs & -> & Hcs). split; [done|]. exists (c :: cs).
    split; [by rewrite <- app_assoc|]. by constructor.
Qed.

Lemma e_poll_ok h p r ready :
  e_inv h p → e_ready p r ready →
  ensures (e_poll r (h, p)) (λ '(active, (h', p')),
    e_inv h' p' ∧ h' = set_ready (e_channels p) ready h ∧ e_channels p' = e_channels p ∧
    Forall2 (λ c x, e_channels p !! fst x = Some c) active ready ∧
    ∀ fd m, e_watches p' fd m ↔ e_watches p fd m).
Proof.
  intros Hinv (events & -> & Hlen & HF). unfold e_poll.
  destruct events as [|e events].
  { apply Forall2_nil_inv_l in HF as ->. cbn. split_and!; try done. }
  unfold fillActiveChannels. rewrite (proj2 (Z.leb_le _ _) Hlen). pass_asserts.
  eapply ensures_bind; [by apply e_fill_ok|].
  intros [active h'] (-> & cs & -> & Hcs). cbn [ensures app]. split_and!; try done.
  eapply (e_inv_owners h); [destruct Hinv; by split|apply owners_wrote_ready].
Qed.

#[export] Program Instance epoll_laws : PollerLaws EPollPoller := {|
  pinv := e_inv; watches := e_watches; ready_reply := e_ready;
  pinv_owners := e_inv_owners; pinv_destroy := e_inv_destroy; update_ok := λ h p c ch Hi Hc Hm _ Hr, e_update_ok h p c ch Hi Hc Hm Hr; remove_ok := e_remove_ok;
  poll_ok := e_poll_ok |}.
Next Obligation. intros h p fd c [Hc _] Hfc. destruct (Hc _ _ Hfc) as (ch & ? & ? & _). eauto. Qed.

(** An [EPollPoller] that has no channel yet. *)
Lemma newEPollPoller_ok h k : interest k = ∅ → e_inv h (newEPollPoller k).
Proof. intros Hk. split; cbn; intros fd; [by rewrite lookup_empty|by rewrite Hk, lookup_empty]. Qed.

(** The array of [epoll_wait] doubles when it was full: [poll] never loses
    capacity. *)
Lemma e_poll_size h p r ready :
  e_inv h p → e_ready p r ready → 0 < e_size p →
  ensures (e_poll r (h, p)) (λ '(_, (_, p')),
    e_size p' = if len ready =? e_size p then 2 * e_size p else e_size p).
Proof.
  intros Hinv (events & -> & Hlen & HF) Hpos. pose proof (Forall2_length _ _ _ HF) as Hl.
  unfold e_poll. destruct events as [|e events].
  { cbn in *. destruct ready; [|done]. change (len []) with 0. destruct (Z.eqb_spec 0 (e_size p)); [lia|done]. }
  unfold fillActiveChannels. rewrite (proj2 (Z.leb_le _ _) Hlen). pass_asserts.
  eapply ensures_bind; [by apply e_fill_ok|].
  intros [active h'] _. cbn [ensures e_size]. replace (len (e :: events)) with (len ready) by (unfold len; by rewrite Hl).
  destruct (_ =? _); lia.
Qed.
End EPoll.

(** An epoll instance as the map of what it was asked. *)
Definition map_epoll_ctl (op : ctl_op) (fd : Z) (e : Z * Z) (k : gmap Z (Z * Z)) :
    bool * gmap Z (Z * Z) :=
  match op, k !! fd with
  | EPOLL_CTL_ADD, None => (true, <[fd := e]> k)
  | EPOLL_CTL_MOD, Some _ => (true, <[fd := e]> k)
  | EPOLL_CTL_DEL, Some _ => (true, delete fd k)
  | _, _ => (false, k)
  end.

#[export] Instance map_epoll : EpollApi (gmap Z (Z * Z)).
Proof.
  refine {| interest := λ k, k; epoll_ctl := map_epoll_ctl |};
    unfold map_epoll_ctl; intros fd e k Hk; [|destruct Hk as [x Hk]..]; by rewrite Hk.
Defined.

(** C12. [EPollPoller] keeps the poller's contract over any kernel that behaves
    as [epoll_ctl(2)] documents: from an empty epoll instance, through any
    legal sequence of registrations, mask changes, removals and waits, no
    assert fails and [epoll_ctl] never fails, the kernel waits for exactly the
    non-empty masks last set by the registered channels, [hasChannel] tells
    which those are, and a wait returns exactly the channels of the ready
    descriptors with their revents set. *)
Theorem epoll_poller_contract {K} `{EpollApi K} (k : K) :
  interest k = ∅ → poller_contract (newEPollPoller k).
Proof.
  intros Hk. apply poller_contract_holds; [by apply newEPollPoller_ok|done|].
  intros fd m [_ [c Hc]]. cbn in Hc. by rewrite Hk, lookup_empty in Hc.
Qed.

Lemma epoll_poller_contract_witness : poller_contract (newEPollPoller (∅ : gmap Z (Z * Z))).
Proof. apply epoll_poller_contract. reflexivity. Defined.

(** Two channels; one is disabled and removed, the other is reported ready. *)
Definition sample_client : list (client_op wait_result) :=
  [COpen 100 5; COpen 200 6; CEvents 100 kReadEvent; CEvents 200 kReadEvent;
   CEvents 200 (Z.lor kReadEvent kWriteEvent); CEvents 100 0; CRemove 100;
   CWait (WaitOk [(POLLOUT, 200)]) [(6, POLLOUT)]].

Fixpoint run_client (l : list (client_op wait_result)) (st : heap * EPollPoller) :
    outcome (list Z * (heap * EPollPoller)) :=
  match l with
  | [] => Ok ([], st)
  | [o] => client_exec (P := EPollPoller) o st
  | o :: l' => let! (_, st') := client_exec (P := EPollPoller) o st in run_client l' st'
  end.

Example sample_client_run :
  match run_client sample_client (∅, newEPollPoller (∅ : gmap Z (Z * Z))) with
  | Ok (active, (h, p)) => active = [200] ∧ revents_ <$> h !! 200 = Some POLLOUT ∧
                           e_kernel p = {[6 := (Z.lor kReadEvent kWriteEvent, 200)]}
  | Fault _ => False
  end.
Proof. by vm_compute. Qed.
