(* ===== verification/PollPoller.v ===== *)
(** * PollPoller: poll(2) ([muduo/net/poller/PollPoller.h], [PollPoller.cc])

    [pollfds_] is the vector handed to [poll(2)]; a channel's index is its
    position there, and a negative descriptor tells the kernel to skip it. *)
From S2P Require Import Prelude Channel Poller.
From stdpp Require Import options.

(** [struct pollfd] *)
Record pollfd := mkPollfd { pfd_fd : Z; pfd_events : Z; pfd_revents : Z }.

(* src/muduo/net/poller/PollPoller.h:24-25 PollPoller *)
Record PollPoller := mkPoll {
  p_channels : gmap Z Z;
  pollfds_ : list pollfd;
  p_errors : list Z
}.

(* src/muduo/net/poller/PollPoller.cc:12-12 PollPoller::PollPoller *)
Definition newPollPoller : PollPoller := mkPoll ∅ [] [].

Definition EINTR : Z := 4.

(** What [::poll] does: -1 with errno, or the revents it wrote, by position. *)
Inductive poll_result := PollErr (errno : Z) | PollOk (revents : list Z).

(** [&pollfds_[idx]] for a non-negative index. *)
Definition nth_pollfd (idx : Z) (p : PollPoller) : option pollfd :=
  if 0 <=? idx then pollfds_ p !! Z.to_nat idx else None.

(* src/muduo/net/poller/PollPoller.cc:58-92 PollPoller::updateChannel *)
Definition p_updateChannel (c : Z) (st : heap * PollPoller) : outcome (heap * PollPoller) :=
  let '(h, p) := st in
  let! ch := deref (h !! c) in
  if index_ ch <? 0 then
    assert! bool_decide (p_channels p !! fd_ ch = None) ;;
    let pfd := mkPollfd (fd_ ch) (swrap 16 (events_ ch)) 0 in
    let pollfds := pollfds_ p ++ [pfd] in
    let idx := len pollfds - 1 in
    Ok (<[c := setIndex ch idx]> h, mkPoll (<[pfd_fd pfd := c]> (p_channels p)) pollfds (p_errors p))
  else
    assert! bool_decide (p_channels p !! fd_ ch = Some c) ;;
    let idx := index_ ch in
    assert! (0 <=? idx) && (idx <? len (pollfds_ p)) ;;
    let! pfd := deref (nth_pollfd idx p) in
    assert! (pfd_fd pfd =? fd_ ch) || (pfd_fd pfd =? - fd_ ch - 1) ;;
    let fd := if isNoneEvent ch then - fd_ ch - 1 else fd_ ch in
    Ok (h, mkPoll (p_channels p)
             (<[Z.to_nat idx := mkPollfd fd (swrap 16 (events_ ch)) 0]> (pollfds_ p)) (p_errors p)).

(* src/muduo/net/poller/PollPoller.cc:94-125 PollPoller::removeChannel *)
Definition p_removeChannel (c : Z) (st : heap * PollPoller) : outcome (heap * PollPoller) :=
  let '(h, p) := st in
  let! ch := deref (h !! c) in
  assert! bool_decide (p_channels p !! fd_ ch = Some c) ;;
  assert! isNoneEvent ch ;;
  let idx := index_ ch in
  assert! (0 <=? idx) && (idx <? len (pollfds_ p)) ;;
  let! pfd := deref (nth_pollfd idx p) in
  assert! ((pfd_fd pfd =? - fd_ ch - 1) || (pfd_fd pfd =? fd_ ch)) && (pfd_events pfd =? events_ ch) ;;
  let channels := delete (fd_ ch) (p_channels p) in
  if idx =? len (pollfds_ p) - 1 then
    Ok (h, mkPoll channels (removelast (pollfds_ p)) (p_errors p))
  else
    let! back := deref (last (pollfds_ p)) in
    let channelAtEnd := if pfd_fd back <? 0 then - pfd_fd back - 1 else pfd_fd back in
    (* iter_swap, then pop_back: the last entry takes the place of idx *)
    let pollfds := removelast (<[Z.to_nat idx := back]> (pollfds_ p)) in
    let! moved := deref (channels !! channelAtEnd) in
    let! mch := deref (h !! moved) in
    Ok (<[moved := setIndex mch idx]> h, mkPoll channels pollfds (p_errors p)).

Fixpoint fill (pollfds : list pollfd) (numEvents : Z) (p : PollPoller) (active : list Z) (h : heap) :
    outcome (list Z * heap) :=
  match pollfds with
  | [] => Ok (active, h)
  | pfd :: l =>
      if numEvents <=? 0 then Ok (active, h)
      else if pfd_revents pfd <=? 0 then fill l numEvents p active h
      else
        let fd := if 0 <=? pfd_fd pfd then pfd_fd pfd else - pfd_fd pfd - 1 in
        match p_channels p !! fd with
        | None => Fault AssertFailed
        | Some c => let! ch := deref (h !! c) in
                    fill l (numEvents - 1) p (active ++ [c]) (<[c := setRevents ch (pfd_revents pfd)]> h)
        end
  end.

(* src/muduo/net/poller/PollPoller.cc:35-56 PollPoller::fillActiveChannels *)
Definition fillActiveChannels (numEvents : Z) (p : PollPoller) (active : list Z) (h : heap) :
    outcome (list Z * heap) := fill (pollfds_ p) numEvents p active h.

(** The kernel stores revents in every entry and counts the non-zero ones. *)
Fixpoint store_revents (rs : list Z) (pollfds : list pollfd) : list pollfd :=
  match rs, pollfds with
  | r :: rs', pfd :: l => mkPollfd (pfd_fd pfd) (pfd_events pfd) r :: store_revents rs' l
  | _, _ => pollfds
  end.
Definition count_ready (rs : list Z) : Z := len (filter (λ r, r ≠ 0) rs).

(* src/muduo/net/poller/PollPoller.cc:16-33 PollPoller::poll *)
Definition p_poll (r : poll_result) (st : heap * PollPoller) : outcome (list Z * (heap * PollPoller)) :=
  let '(h, p) := st in
  match r with
  | PollOk rs =>
      let p1 := mkPoll (p_channels p) (store_revents rs (pollfds_ p)) (p_errors p) in
      let numEvents := count_ready rs in
      if 0 <? numEvents then
        let! (active, h') := fillActiveChannels numEvents p1 [] h in
        Ok (active, (h', p1))
      else Ok ([], (h, p1))
  | PollErr savedErrno =>
      if savedErrno =? EINTR then Ok ([], (h, p))
      else Ok ([], (h, mkPoll (p_channels p) (pollfds_ p) (p_errors p ++ [savedErrno])))
  end.

#[export] Instance poll_ops : PollerOps PollPoller := {|
  channels_ := p_channels; updateChannel := p_updateChannel; removeChannel := p_removeChannel;
  reply := poll_result; poll := p_poll |}.

(** ** It is a poller *)

(** The descriptor an entry stands for. *)
Definition dec (x : Z) : Z := if x <? 0 then - x - 1 else x.

Record p_inv (h : heap) (p : PollPoller) : Prop := mkPInv {
  pi_channel : ∀ fd c, p_channels p !! fd = Some c → 0 ≤ fd ∧
    ∃ ch i pfd, h !! c = Some ch ∧ fd_ ch = fd ∧ index_ ch = Z.of_nat i ∧
      pollfds_ p !! i = Some pfd ∧ dec (pfd_fd pfd) = fd;
  pi_entry : ∀ i pfd, pollfds_ p !! i = Some pfd →
    (pfd_fd pfd < 0 → pfd_events pfd = 0) ∧
    ∃ c ch, p_channels p !! dec (pfd_fd pfd) = Some c ∧ h !! c = Some ch ∧ index_ ch = Z.of_nat i
}.

Definition p_watches (p : PollPoller) (fd m : Z) : Prop :=
  m ≠ 0 ∧ ∃ i r, 0 ≤ fd ∧ pollfds_ p !! i = Some (mkPollfd fd m r).

(** The kernel writes non-negative revents, none for a negative descriptor. *)
Definition ready_of (pollfds : list pollfd) (rs : list Z) : list (Z * Z) :=
  omap (λ '(pfd, r), if r =? 0 then None else Some (pfd_fd pfd, r)) (zip pollfds rs).
Definition p_ready (p : PollPoller) (r : poll_result) (ready : list (Z * Z)) : Prop :=
  ∃ rs, r = PollOk rs ∧ ready = ready_of (pollfds_ p) rs ∧
    Forall2 (λ pfd r, 0 ≤ r ∧ (pfd_fd pfd < 0 → r = 0)) (pollfds_ p) rs.

Lemma mask_swrap e : mask_ok e → swrap 16 e = e.
Proof. intros [H1 H2]. apply swrap_id; [lia|]. split; lia. Qed.

Lemma dec_neg fd : 0 ≤ fd → dec (- fd - 1) = fd.
Proof. intros. unfold dec. destruct (Z.ltb_spec (- fd - 1) 0); lia. Qed.
Lemma dec_pos fd : 0 ≤ fd → dec fd = fd.
Proof. intros. unfold dec. destruct (Z.ltb_spec fd 0); lia. Qed.
Lemma dec_cases x fd : dec x = fd → (x =? fd) || (x =? - fd - 1) = true.
Proof. unfold dec. destruct (Z.ltb_spec x 0); intros; apply orb_true_iff; rewrite !Z.eqb_eq; lia. Qed.

Lemma p_inv_owners h h' p : p_inv h p → owners_wrote h h' → p_inv h' p.
Proof.
  intros [Hc He] Hw. split.
  - intros fd c Hfc. destruct (Hc _ _ Hfc) as (Hpos & ch & i & pfd & H1 & H2 & H3 & H4 & H5).
    split; [done|]. destruct (Hw _ _ H1) as (ch' & H6 & [E1 E2]).
    exists ch', i, pfd. rewrite <- E1, <- E2. done.
  - intros i pfd Hi. destruct (He _ _ Hi) as (Hz & c & ch & H1 & H2 & H3). split; [done|].
    destruct (Hw _ _ H2) as (ch' & H6 & [E1 E2]). exists c, ch'. rewrite <- E2. done.
Qed.
Lemma p_inv_destroy h p c : p_inv h p → (∀ fd, p_channels p !! fd ≠ Some c) → p_inv (delete c h) p.
Proof.
  intros [Hc He] Hn. split.
  - intros fd c' Hfc. destruct (Hc _ _ Hfc) as (Hpos & ch & i & pfd & H1 & H2). split; [done|].
    exists ch, i, pfd. rewrite lookup_delete_ne; [done|]. intros <-. by destruct (Hn fd).
  - intros i pfd Hi. destruct (He _ _ Hi) as (Hz & c' & ch & H1 & H2). split; [done|].
    exists c', ch. rewrite lookup_delete_ne; [done|]. intros <-. by destruct (Hn (dec (pfd_fd pfd))).
Qed.

(** The entry of a registered channel. *)
Lemma p_entry h p c ch :
  p_inv h p → h !! c = Some ch → p_channels p !! fd_ ch = Some c →
  0 ≤ fd_ ch ∧ ∃ i pfd, index_ ch = Z.of_nat i ∧ pollfds_ p !! i = Some pfd ∧
    dec (pfd_fd pfd) = fd_ ch ∧ nth_pollfd (index_ ch) p = Some pfd ∧
    (0 <=? index_ ch) && (index_ ch <? len (pollfds_ p)) = true.
Proof.
  intros [Hc He] Hh Hreg. destruct (Hc _ _ Hreg) as (Hpos & ch' & i & pfd & H1 & H2 & H3 & H4 & H5).
  replace ch' with ch in * by congruence. split; [done|]. exists i, pfd. split_and!; try done.
  - unfold nth_pollfd. rewrite H3, Nat2Z.id. by destruct (Z.leb_spec 0 (Z.of_nat i)); [|lia].
  - apply lookup_lt_Some in H4. rewrite H3. unfold len. apply andb_true_iff.
    rewrite Z.leb_le, Z.ltb_lt. lia.
Qed.

Lemma p_channel_unique h p fd fd' c :
  p_inv h p → p_channels p !! fd = Some c → p_channels p !! fd' = Some c → fd = fd'.
Proof.
  intros [Hc _] H1 H2. destruct (Hc _ _ H1) as (_ & ch & _ & _ & E1 & E2 & _).
  destruct (Hc _ _ H2) as (_ & ch' & _ & _ & E3 & E4 & _). congruence.
Qed.

(** Two entries for one descriptor are the same entry. *)
Lemma p_entry_unique h p i j pfd pfd' :
  p_inv h p → pollfds_ p !! i = Some pfd → pollfds_ p !! j = Some pfd' →
  dec (pfd_fd pfd) = dec (pfd_fd pfd') → i = j.
Proof.
  intros [_ He] Hi Hj Heq. destruct (He _ _ Hi) as (_ & c & ch & H1 & H2 & H3).
  destruct (He _ _ Hj) as (_ & c' & ch' & H4 & H5 & H6). rewrite Heq in H1.
  assert (c = c') as -> by congruence. assert (ch = ch') as -> by congruence. lia.
Qed.

Lemma p_update_new_ok h p c ch :
  p_inv h p → h !! c = Some ch → mask_ok (events_ ch) → 0 ≤ fd_ ch →
  p_channels p !! fd_ ch = None → index_ ch = -1 →
  ensures (p_updateChannel c (h, p)) (λ '(h', p'),
    p_inv h' p' ∧ only_indices (<[fd_ ch := c]> (p_channels p)) h h' ∧
    p_channels p' = <[fd_ ch := c]> (p_channels p) ∧
    ∀ fd m, p_watches p' fd m ↔
      if decide (fd = fd_ ch) then m = events_ ch ∧ m ≠ 0 else p_watches p fd m).
Proof.
  intros Hinv Hh Hm Hpos Hnew Hidx. pose proof Hinv as [Hc He].
  unfold p_updateChannel. rewrite Hh. cbn [deref obind]. rewrite Hidx. cbn [Z.ltb Z.compare].
  rewrite bool_decide_true by done. pass_asserts. cbn [ensures pfd_fd].
  rewrite mask_swrap by done. set (pfd := mkPollfd (fd_ ch) (events_ ch) 0).
  replace (len (pollfds_ p ++ [pfd]) - 1) with (len (pollfds_ p)) by (rewrite len_app; unfold len; cbn; lia).
  assert (∀ fd', p_channels p !! fd' ≠ Some c) as Hunreg.
  { intros fd' Hfd'. destruct (Hc _ _ Hfd') as (_ & ch' & i & pf & E1 & _ & E3 & _).
    replace ch' with ch in E3 by congruence. lia. }
  split_and!.
  - split; cbn.
    + intros fd c' Hfc. apply lookup_insert_Some in Hfc as [[<- <-]|[Hne Hfc]].
      * split; [done|]. exists (setIndex ch (len (pollfds_ p))), (length (pollfds_ p)), pfd.
        rewrite lookup_insert_eq. split_and!; try done; [|by apply dec_pos].
        rewrite lookup_app_r by lia. by rewrite Nat.sub_diag.
      * destruct (Hc _ _ Hfc) as (Hp & ch' & i & pf & E1 & E2 & E3 & E4 & E5). split; [done|].
        exists ch', i, pf. rewrite lookup_insert_ne by (intros <-; by apply (Hunreg fd)).
        split_and!; try done. rewrite lookup_app_l; [done|]. by eapply lookup_lt_Some.
    + intros i pf Hi. apply lookup_app_Some in Hi as [Hi|[Hlen Hi]].
      * destruct (He _ _ Hi) as (Hz & c' & ch' & E1 & E2 & E3). split; [done|]. exists c', ch'.
        rewrite !lookup_insert_ne; [done| |].
        -- intros <-. by apply (Hunreg (dec (pfd_fd pf))).
        -- intros Heq. rewrite <- Heq in E1. congruence.
      * assert (i = length (pollfds_ p)) as ->.
        { apply lookup_lt_Some in Hi. cbn in Hi. lia. }
        rewrite Nat.sub_diag in Hi. injection Hi as <-. split; [cbn; lia|].
        exists c, (setIndex ch (len (pollfds_ p))). cbn. rewrite dec_pos by done. by rewrite !lookup_insert_eq.
  - eapply only_indices_insert; [done|apply lookup_insert_eq].
  - done.
  - intros fd m. unfold p_watches. cbn. case_decide as Hd.
    + subst. split.
      * intros (Hm0 & i & r & _ & Hi). split; [|done]. apply lookup_app_Some in Hi as [Hi|[_ Hi]].
        -- destruct (He _ _ Hi) as (_ & c' & ch' & E1 & _). cbn in E1. rewrite dec_pos in E1 by done. congruence.
        -- destruct (i - _)%nat; [by injection Hi|done].
      * intros [-> Hm0]. split; [done|]. exists (length (pollfds_ p)), 0. split; [done|].
        rewrite lookup_app_r by lia. by rewrite Nat.sub_diag.
    + split; intros (Hm0 & i & r & Hp & Hi); (split; [done|]); exists i, r; (split; [done|]).
      * apply lookup_app_Some in Hi as [Hi|[_ Hi]]; [done|].
        destruct (i - _)%nat; [by injection Hi|done].
      * rewrite lookup_app_l; [done|]. by eapply lookup_lt_Some.
Qed.

Lemma p_update_old_ok h p c ch :
  p_inv h p → h !! c = Some ch → mask_ok (events_ ch) →
  p_channels p !! fd_ ch = Some c →
  ensures (p_updateChannel c (h, p)) (λ '(h', p'),
    p_inv h' p' ∧ only_indices (<[fd_ ch := c]> (p_channels p)) h h' ∧
    p_channels p' = <[fd_ ch := c]> (p_channels p) ∧
    ∀ fd m, p_watches p' fd m ↔
      if decide (fd = fd_ ch) then m = events_ ch ∧ m ≠ 0 else p_watches p fd m).
Proof.
  intros Hinv Hh Hm Hreg. pose proof Hinv as [Hc He].
  destruct (p_entry h p c ch Hinv Hh Hreg) as (Hpos & i & pfd & Hidx & Hi & Hdec & Hnth & Hb).
  unfold p_updateChannel. rewrite Hh. cbn [deref obind].
  destruct (Z.ltb_spec (index_ ch) 0); [lia|].
  rewrite bool_decide_true by done. rewrite Hb, Hnth. cbn [deref]. pass_asserts.
  rewrite (dec_cases _ _ Hdec). pass_asserts. cbn [ensures]. rewrite mask_swrap by done.
  rewrite Hidx, Nat2Z.id. set (fd := if isNoneEvent ch then _ else _).
  assert (dec fd = fd_ ch) as Hfd by (unfold fd; destruct (isNoneEvent ch); [by apply dec_neg|by apply dec_pos]).
  pose proof (lookup_lt_Some _ _ _ Hi) as Hlt. split_and!.
  - split; cbn.
    + intros fd' c' Hfc. destruct (Hc _ _ Hfc) as (Hp & ch' & j & pf & E1 & E2 & E3 & E4 & E5).
      split; [done|]. destruct (decide (j = i)) as [->|Hne].
      * exists ch', i. eexists. rewrite list_lookup_insert_eq by done. split_and!; try done. cbn. congruence.
      * exists ch', j, pf. by rewrite list_lookup_insert_ne.
    + intros j pf Hj. apply list_lookup_insert_Some in Hj as [(<- & <- & _)|(Hne & Hj)].
      * cbn. rewrite Hfd. split; [|eauto]. unfold fd, isNoneEvent.
        destruct (Z.eqb_spec (events_ ch) kNoneEvent); [done|lia].
      * by apply He.
  - apply only_indices_refl.
  - by rewrite insert_id.
  - intros fd' m. unfold p_watches. cbn. case_decide as Hd.
    + subst fd'. split.
      * intros (Hm0 & j & r & _ & Hj). split; [|done].
        apply list_lookup_insert_Some in Hj as [(<- & Heq & _)|(Hne & Hj)]; [by injection Heq|].
        destruct Hne. eapply (p_entry_unique h p); try done. cbn. by rewrite Hdec, dec_pos.
      * intros [-> Hm0]. split; [done|]. exists i, 0. split; [done|].
        rewrite list_lookup_insert_eq by done. unfold fd, isNoneEvent, kNoneEvent.
        by destruct (Z.eqb_spec (events_ ch) 0).
    + split; intros (Hm0 & j & r & Hp & Hj); (split; [done|]); exists j, r; (split; [done|]).
      * apply list_lookup_insert_Some in Hj as [(<- & Heq & _)|(Hne & Hj)]; [|done].
        injection Heq as Heq _ _. rewrite Heq, dec_pos in Hfd by done. done.
      * rewrite list_lookup_insert_ne; [done|]. intros <-. rewrite Hi in Hj.
        injection Hj as ->. cbn in Hdec. rewrite dec_pos in Hdec by done. done.
Qed.

Lemma p_update_ok h p c ch :
  p_inv h p → h !! c = Some ch → mask_ok (events_ ch) → 0 ≤ fd_ ch →
  (p_channels p !! fd_ ch = Some c ∨ (p_channels p !! fd_ ch = None ∧ index_ ch = -1)) →
  ensures (p_updateChannel c (h, p)) (λ '(h', p'),
    p_inv h' p' ∧ only_indices (<[fd_ ch := c]> (p_channels p)) h h' ∧
    p_channels p' = <[fd_ ch := c]> (p_channels p) ∧
    ∀ fd m, p_watches p' fd m ↔
      if decide (fd = fd_ ch) then m = events_ ch ∧ m ≠ 0 else p_watches p fd m).
Proof.
  intros Hinv Hh Hm Hpos [Hreg|[Hnew Hidx]]; [by apply p_update_old_ok|by apply p_update_new_ok].
Qed.

Lemma p_remove_ok h p c ch :
  p_inv h p → h !! c = Some ch → events_ ch = 0 → p_channels p !! fd_ ch = Some c →
  (∀ m, ¬ p_watches p (fd_ ch) m) →
  ensures (p_removeChannel c (h, p)) (λ '(h', p'),
    p_inv h' p' ∧ only_indices (p_channels p) h h' ∧ p_channels p' = delete (fd_ ch) (p_channels p) ∧
    ∀ fd m, p_watches p' fd m ↔ p_watches p fd m).
Proof.
  intros Hinv Hh Hz Hreg Hw. pose proof Hinv as [Hc He].
  destruct (p_entry h p c ch Hinv Hh Hreg) as (Hpos & i & pfd & Hidx & Hi & Hdec & Hnth & Hb).
  unfold p_removeChannel. rewrite Hh. cbn [deref obind]. rewrite bool_decide_true by done.
  unfold isNoneEvent. rewrite Hz. pass_asserts. rewrite Hb, Hnth. cbn [deref]. pass_asserts.
  destruct (He _ _ Hi) as (Hneg & _).
  assert (pfd_events pfd = 0) as Hev.
  { destruct (Z.lt_ge_cases (pfd_fd pfd) 0); [by apply Hneg|].
    destruct (Z.eq_dec (pfd_events pfd) 0); [done|]. exfalso.
    apply (Hw (pfd_events pfd)). split; [done|]. exists i, (pfd_revents pfd). split; [done|].
    rewrite dec_pos in Hdec by done. rewrite <- Hdec. by destruct pfd. }
  rewrite orb_comm, (dec_cases _ _ Hdec), Hev. pass_asserts.
  rewrite Hidx, Nat2Z.id.
  destruct (exists_last (l := pollfds_ p)) as (l & back & Hl).
  { intros Hnil. by rewrite Hnil in Hi. }
  rewrite Hl in Hi |- *. replace (len (l ++ [back]) - 1) with (len l) by (rewrite len_app; unfold len; cbn; lia).
  destruct (Z.eqb_spec (Z.of_nat i) (len l)) as [Hlast|Hmid].
  - assert (i = length l) as -> by (unfold len in Hlast; lia).
    rewrite lookup_app_r, Nat.sub_diag in Hi by lia. injection Hi as ->.
    rewrite removelast_last. cbn [ensures]. split_and!.
    + split; cbn.
      * intros fd c' Hfc. apply lookup_delete_Some in Hfc as [Hne Hfc].
        destruct (Hc _ _ Hfc) as (Hp & ch' & j & pf & E1 & E2 & E3 & E4 & E5). split; [done|].
        exists ch', j, pf. split_and!; try done. rewrite Hl in E4.
        apply lookup_app_Some in E4 as [E4|[Hj E4]]; [done|].
        destruct (j - length l)%nat; [|done]. injection E4 as <-. congruence.
      * intros j pf Hj. destruct (He j pf) as (H1 & c' & ch' & E1 & E2 & E3).
        { rewrite Hl. rewrite lookup_app_l; [done|]. by eapply lookup_lt_Some. }
        split; [done|]. exists c', ch'. split_and!; try done. rewrite lookup_delete_ne; [done|].
        intros Heq. assert (j = length l) as ->.
        { eapply (p_entry_unique h p j (length l) pf pfd Hinv).
          - rewrite Hl. rewrite lookup_app_l; [done|]. by eapply lookup_lt_Some.
          - rewrite Hl, lookup_app_r, Nat.sub_diag by lia. done.
          - congruence. }
        apply lookup_lt_Some in Hj. lia.
    + apply only_indices_refl.
    + done.
    + intros fd m. unfold p_watches. cbn. rewrite Hl. split; intros (Hm0 & j & r & Hp & Hj);
        (split; [done|]); exists j, r; (split; [done|]).
      * rewrite lookup_app_l; [done|]. by eapply lookup_lt_Some.
      * apply lookup_app_Some in Hj as [Hj|[_ Hj]]; [done|]. destruct (j - length l)%nat; [|done].
        injection Hj as Hj. rewrite Hj in Hev. cbn in Hev. done.
  - assert (i < length l)%nat as Hlt.
    { apply lookup_lt_Some in Hi. rewrite length_app in Hi. cbn in Hi. unfold len in Hmid. lia. }
    rewrite lookup_app_l in Hi by done.
    rewrite last_snoc. cbn [deref obind].
    change (if pfd_fd back <? 0 then - pfd_fd back - 1 else pfd_fd back) with (dec (pfd_fd back)).
    assert (pollfds_ p !! length l = Some back) as Hback by (rewrite Hl, lookup_app_r, Nat.sub_diag by lia; done).
    destruct (He _ _ Hback) as (Hbz & mc & mch & Em1 & Em2 & Em3).
    assert (dec (pfd_fd back) ≠ fd_ ch) as Hdne.
    { intros Heq. assert (i = length l); [|lia].
      eapply (p_entry_unique h p i (length l) pfd back Hinv); [|done|congruence].
      rewrite Hl, lookup_app_l by done. done. }
    rewrite lookup_delete_ne by done. rewrite Em1. cbn [deref obind]. rewrite Em2. cbn [deref obind ensures].
    rewrite insert_app_l by done. rewrite removelast_last.
    assert (fd_ mch = dec (pfd_fd back)) as Hmfd.
    { destruct (Hc _ _ Em1) as (_ & mch' & _ & _ & E1 & E2 & _). congruence. }
    split_and!.
    + split; cbn.
      * intros fd c' Hfc. apply lookup_delete_Some in Hfc as [Hne Hfc].
        destruct (Hc _ _ Hfc) as (Hp & ch' & j & pf & E1 & E2 & E3 & E4 & E5). split; [done|].
        destruct (decide (c' = mc)) as [->|Hcne].
        -- assert (ch' = mch) as -> by congruence. exists (setIndex mch (Z.of_nat i)), i, back.
           rewrite lookup_insert_eq, list_lookup_insert_eq by done. cbn. split_and!; try done. congruence.
        -- exists ch', j, pf. rewrite lookup_insert_ne by done. split_and!; try done.
           rewrite Hl in E4. apply lookup_app_Some in E4 as [E4|[Hj E4]].
           ++ rewrite list_lookup_insert_ne; [done|]. intros <-. rewrite Hi in E4. congruence.
           ++ destruct (j - length l)%nat eqn:Ej; [|done]. injection E4 as <-. congruence.
      * intros j pf Hj. apply list_lookup_insert_Some in Hj as [(<- & <- & _)|(Hne & Hj)].
        -- split; [done|]. exists mc, (setIndex mch (Z.of_nat i)).
           by rewrite lookup_delete_ne, lookup_insert_eq.
        -- assert (pollfds_ p !! j = Some pf) as Hj'.
           { rewrite Hl, lookup_app_l; [done|]. by eapply lookup_lt_Some. }
           destruct (He j pf Hj') as (H1 & c' & ch' & E1 & E2 & E3). split; [done|]. exists c', ch'.
           rewrite lookup_delete_ne, lookup_insert_ne; try done.
           ++ intros <-. assert (ch' = mch) as -> by congruence. apply lookup_lt_Some in Hj. lia.
           ++ intros Heq. destruct Hne. eapply (p_entry_unique h p i j pfd pf Hinv); [|done|congruence].
              rewrite Hl, lookup_app_l by done. done.
    + eapply only_indices_insert; [done|exact Em1].
    + done.
    + intros fd m. unfold p_watches. cbn. rewrite Hl. split; intros (Hm0 & j & r & Hp & Hj); (split; [done|]).
      * apply list_lookup_insert_Some in Hj as [(<- & Heq & _)|(Hne & Hj)].
        -- exists (length l), r. split; [done|]. rewrite lookup_app_r, Nat.sub_diag by lia. by rewrite Heq.
        -- exists j, r. split; [done|]. rewrite lookup_app_l; [done|]. by eapply lookup_lt_Some.
      * apply lookup_app_Some in Hj as [Hj|[Hge Hj]].
        -- exists j, r. split; [done|]. rewrite list_lookup_insert_ne; [done|].
           intros <-. rewrite Hi in Hj. injection Hj as ->. done.
        -- destruct (j - length l)%nat; [|done]. injection Hj as ->. exists i, r. split; [done|].
           by rewrite list_lookup_insert_eq.
Qed.

Lemma store_revents_lookup rs l : length rs = length l → ∀ i pfd,
  (store_revents rs l !! i = Some pfd →
     ∃ pfd0, l !! i = Some pfd0 ∧ pfd_fd pfd0 = pfd_fd pfd ∧ pfd_events pfd0 = pfd_events pfd) ∧
  (l !! i = Some pfd → ∃ r, store_revents rs l !! i = Some (mkPollfd (pfd_fd pfd) (pfd_events pfd) r)).
Proof.
  revert l. induction rs as [|r rs IH]; intros [|x l] Hlen i pfd; try done.
  destruct i as [|i]; cbn.
  - split; intros [= <-]; eauto.
  - apply IH. by injection Hlen.
Qed.

Lemma p_inv_store h p rs :
  length rs = length (pollfds_ p) → p_inv h p →
  p_inv h (mkPoll (p_channels p) (store_revents rs (pollfds_ p)) (p_errors p)).
Proof.
  intros Hlen [Hc He]. split; cbn.
  - intros fd c Hfc. destruct (Hc _ _ Hfc) as (Hp & ch & i & pf & E1 & E2 & E3 & E4 & E5). split; [done|].
    destruct (proj2 (store_revents_lookup rs _ Hlen i pf) E4) as [r Hr]. exists ch, i. eexists. by split_and!.
  - intros i pf Hi. destruct (proj1 (store_revents_lookup rs _ Hlen i pf) Hi) as (pf0 & H0 & <- & <-).
    by apply He.
Qed.

Lemma p_watches_store p rs fd m :
  length rs = length (pollfds_ p) →
  p_watches (mkPoll (p_channels p) (store_revents rs (pollfds_ p)) (p_errors p)) fd m ↔ p_watches p fd m.
Proof.
  intros Hlen. unfold p_watches. cbn. split; intros (Hm & i & r & Hp & Hi); (split; [done|]).
  - destruct (proj1 (store_revents_lookup rs _ Hlen i _) Hi) as ([f e r0] & H0 & Hf & He). cbn in Hf, He.
    subst. by exists i, r0.
  - destruct (proj2 (store_revents_lookup rs _ Hlen i _) Hi) as [r' Hr]. by exists i, r'.
Qed.

Lemma count_ready_cons r rs :
  count_ready (r :: rs) = (if r =? 0 then 0 else 1) + count_ready rs.
Proof.
  unfold count_ready. rewrite filter_cons. destruct (Z.eqb_spec r 0) as [->|].
  - by rewrite decide_False by lia.
  - rewrite decide_True by done. unfold len. cbn. lia.
Qed.

Lemma count_ready_nonneg rs : 0 ≤ count_ready rs.
Proof. apply len_nonneg. Qed.

Lemma ready_of_none l rs : count_ready rs = 0 → ready_of l rs = [].
Proof.
  unfold ready_of. revert l. induction rs as [|r rs IH]; intros [|x l] Hc; try done.
  rewrite count_ready_cons in Hc. pose proof (count_ready_nonneg rs). cbn.
  destruct (r =? 0); [|lia]. by apply IH.
Qed.

Lemma p_fill_ok p0 l : ∀ rs n active h p,
  p_inv h p → p_channels p = p_channels p0 → Forall2 (λ pfd r, 0 ≤ r ∧ (pfd_fd pfd < 0 → r = 0)) l rs →
  (∀ pfd, pfd ∈ l → is_Some (p_channels p !! dec (pfd_fd pfd))) → n = count_ready rs →
  ensures (fill (store_revents rs l) n p active h) (λ '(active', h'),
    h' = set_ready (p_channels p) (ready_of l rs) h ∧
    ∃ cs, active' = active ++ cs ∧ Forall2 (λ c x, p_channels p !! fst x = Some c) cs (ready_of l rs)).
Proof.
  induction l as [|pfd l IH]; intros rs n active h p Hinv Hp0 HF Hreg ->.
  { apply Forall2_nil_inv_l in HF as ->. cbn. split; [done|]. exists []. by rewrite app_nil_r. }
  apply Forall2_cons_inv_l in HF as (r & rs' & [Hr Hneg] & HF & ->).
  cbn [store_revents fill pfd_fd pfd_revents].
  destruct (Z.leb_spec (count_ready (r :: rs')) 0) as [Hle|Hgt].
  { assert (count_ready (r :: rs') = 0) as Hc0 by (pose proof (count_ready_nonneg (r :: rs')); lia).
    rewrite (ready_of_none (pfd :: l) _ Hc0). cbn. split; [done|]. exists []. by rewrite app_nil_r. }
  rewrite count_ready_cons in *. unfold ready_of. cbn [zip zip_with omap list_omap].
  destruct (Z.eqb_spec r 0) as [->|Hr0]; cbn [Z.leb Z.compare].
  - apply IH; try done. intros x Hx. apply Hreg. by right.
  - destruct (Z.leb_spec r 0); [lia|].
    assert (0 ≤ pfd_fd pfd) as Hpos by (destruct (Z.lt_ge_cases (pfd_fd pfd) 0); [by destruct Hr0; apply Hneg|done]).
    destruct (Z.leb_spec 0 (pfd_fd pfd)); [|lia].
    destruct (Hreg pfd ltac:(by left)) as [c Hc]. rewrite dec_pos in Hc by done. rewrite Hc.
    pose proof Hinv as [Hch _]. destruct (Hch _ _ Hc) as (_ & ch & _ & _ & Hh & _). rewrite Hh.
    cbn [deref obind]. replace (1 + count_ready rs' - 1) with (count_ready rs') by lia.
    eapply ensures_mono; [apply IH; try done|].
    + eapply p_inv_owners; [done|by apply owners_wrote_setRevents].
    + intros x Hx. apply Hreg. by right.
    + intros [active' h'] (-> & cs & -> & Hcs). cbn [set_ready]. rewrite Hc, Hh. split; [done|].
      exists (c :: cs). split; [by rewrite <- app_assoc|]. by constructor.
Qed.

Lemma p_poll_ok h p r ready :
  p_inv h p → p_ready p r ready →
  ensures (p_poll r (h, p)) (λ '(active, (h', p')),
    p_inv h' p' ∧ h' = set_ready (p_channels p) ready h ∧ p_channels p' = p_channels p ∧
    Forall2 (λ c x, p_channels p !! fst x = Some c) active ready ∧
    ∀ fd m, p_watches p' fd m ↔ p_watches p fd m).
Proof.
  intros Hinv (rs & -> & -> & HF). pose proof (eq_sym (Forall2_length _ _ _ HF)) as Hlen.
  unfold p_poll. set (p1 := mkPoll _ _ _).
  pose proof (p_inv_store h p rs Hlen Hinv) as Hinv1. fold p1 in Hinv1.
  destruct (Z.ltb_spec 0 (count_ready rs)) as [Hpos|Hz].
  - unfold fillActiveChannels. eapply ensures_bind.
    + apply (p_fill_ok p (pollfds_ p)); [exact Hinv1|done|exact HF| |done].
      intros pfd Hin. apply list_elem_of_lookup in Hin as [i Hi]. destruct Hinv as [_ He].
      destruct (He _ _ Hi) as (_ & c & _ & Hc & _). by exists c.
    + intros [active h'] (-> & cs & -> & Hcs). cbn [ensures app]. split_and!; try done.
      * eapply p_inv_owners; [done|apply owners_wrote_ready].
      * intros fd m. by apply p_watches_store.
  - assert (count_ready rs = 0) as Hc0 by (pose proof (count_ready_nonneg rs); lia).
    cbn [ensures]. rewrite (ready_of_none _ _ Hc0). split_and!; try done.
    intros fd m. by apply p_watches_store.
Qed.

#[export] Instance poll_laws : PollerLaws PollPoller.
Proof.
  refine {| pinv := p_inv; watches := p_watches; ready_reply := p_ready;
    pinv_owners := p_inv_owners; pinv_destroy := p_inv_destroy; update_ok := p_update_ok; remove_ok := p_remove_ok;
    poll_ok := p_poll_ok |}.
  intros h p fd c [Hc _] Hfc. destruct (Hc _ _ Hfc) as (_ & ch & _ & _ & ? & ? & _). eauto.
Defined.

(** C13. [PollPoller] keeps the same contract over poll(2): its vector has one
    entry per registered channel and each channel's index is its entry's
    position (also after the swap that fills the hole of a removed one), so no
    assert fails, the kernel waits for exactly the non-empty masks last set,
    and a wait returns exactly the channels of the ready descriptors. *)
Theorem poll_poller_contract : poller_contract newPollPoller.
Proof.
  apply poller_contract_holds; [|done|].
  - split; cbn; [intros fd; by rewrite lookup_empty|done].
  - intros fd m (_ & i & r & _ & Hi). done.
Qed.

(** ** Registering a removed channel again *)

(** [removeChannel] leaves the index in place, where [EPollPoller] resets it:
    a channel that is removed and enabled again stops at an assert. *)
Definition reopen : list (client_op poll_result) :=
  [COpen 100 5; CEvents 100 kReadEvent; CEvents 100 0; CRemove 100; CEvents 100 kReadEvent].

Fixpoint run_client (l : list (client_op poll_result)) (st : heap * PollPoller) :
    outcome (heap * PollPoller) :=
  match l with
  | [] => Ok st
  | o :: l' => let! (_, st') := client_exec (P := PollPoller) o st in run_client l' st'
  end.

Lemma poll_poller_no_reopen : run_client reopen (∅, newPollPoller) = Fault AssertFailed.
Proof. by vm_compute. Qed.
