(* ===== verification/TcpConnection.v ===== *)
(** * TcpConnection: one TCP connection in its loop
    ([muduo/net/TcpConnection.h], [TcpConnection.cc])

    The state is the object plus what it shares: the functors it has queued in
    its loop, the pending [runAfter] timers, and a log of what the kernel and
    the user saw, in order. [::write] is a parameter of the definitions (its
    i-th answer), [readv]'s answer comes with the event. The user's callbacks
    are functions on the connection; the theorems are about callbacks that do
    what the class lets them do, a sequence of [user_action]s. *)
From S2P Require Import Prelude Buffer Channel.
From stdpp Require Import options.

Definition EPIPE : Z := 32.
Definition ECONNRESET : Z := 104.
Definition EWOULDBLOCK : Z := 11.

(* src/muduo/net/TcpConnection.h:133-138 TcpConnection::StateE *)
Inductive StateE : Set := kDisconnected | kConnecting | kConnected | kDisconnecting.

#[global] Instance StateE_eq_dec : EqDecision StateE.
Proof. solve_decision. Defined.

(** What the connection hands to [runInLoop] and [queueInLoop]. *)
Inductive functor :=
| FSend (data : bytes) | FShutdown | FForceClose | FStartRead | FStopRead
| FWriteComplete | FHighWater (totalLen : Z).

(** What the outside saw. *)
Inductive event :=
| LUp | LDown                       (* connectionCallback, connected() or not *)
| LMessage (n : Z)                  (* messageCallback, after reading n bytes *)
| LClose                            (* closeCallback *)
| LWriteComplete | LHighWater (n : Z)
| LSend (m : bytes)                 (* a message taken over by sendInLoop *)
| LDrop (m : bytes)                 (* a message given up *)
| LWrite (d : bytes)                (* bytes the kernel accepted *)
| LFin                              (* shutdown(SHUT_WR) *)
| LDestroyed.                       (* connectDestroyed has run *)

#[global] Instance event_eq_dec : EqDecision event.
Proof. solve_decision. Defined.

(* src/muduo/net/TcpConnection.h:152-170 TcpConnection *)
Record TcpConnection := mkConn {
  state_ : StateE;
  reading_ : bool;
  channel_ : Channel;
  inPoller_ : bool;                 (* the poller knows the channel *)
  inputBuffer_ : Buffer;
  outputBuffer_ : Buffer;
  highWaterMark_ : Z;
  pending_ : list functor;
  delayed_ : nat;                   (* timers of forceCloseWithDelay *)
  writes_ : nat;                    (* calls of ::write so far *)
  log_ : list event
}.

Section Setters.
Context (c : TcpConnection).
(* src/muduo/net/TcpConnection.h:149-149 TcpConnection::setState *)
Definition setState (s : StateE) := mkConn s (reading_ c) (channel_ c) (inPoller_ c) (inputBuffer_ c)
  (outputBuffer_ c) (highWaterMark_ c) (pending_ c) (delayed_ c) (writes_ c) (log_ c).
Definition set_reading (b : bool) := mkConn (state_ c) b (channel_ c) (inPoller_ c) (inputBuffer_ c)
  (outputBuffer_ c) (highWaterMark_ c) (pending_ c) (delayed_ c) (writes_ c) (log_ c).
Definition set_channel (ch : Channel) := mkConn (state_ c) (reading_ c) ch (inPoller_ c) (inputBuffer_ c)
  (outputBuffer_ c) (highWaterMark_ c) (pending_ c) (delayed_ c) (writes_ c) (log_ c).
Definition set_inPoller (b : bool) := mkConn (state_ c) (reading_ c) (channel_ c) b (inputBuffer_ c)
  (outputBuffer_ c) (highWaterMark_ c) (pending_ c) (delayed_ c) (writes_ c) (log_ c).
Definition set_input (b : Buffer) := mkConn (state_ c) (reading_ c) (channel_ c) (inPoller_ c) b
  (outputBuffer_ c) (highWaterMark_ c) (pending_ c) (delayed_ c) (writes_ c) (log_ c).
Definition set_output (b : Buffer) := mkConn (state_ c) (reading_ c) (channel_ c) (inPoller_ c) (inputBuffer_ c)
  b (highWaterMark_ c) (pending_ c) (delayed_ c) (writes_ c) (log_ c).
Definition set_pending (l : list functor) := mkConn (state_ c) (reading_ c) (channel_ c) (inPoller_ c)
  (inputBuffer_ c) (outputBuffer_ c) (highWaterMark_ c) l (delayed_ c) (writes_ c) (log_ c).
Definition set_delayed (n : nat) := mkConn (state_ c) (reading_ c) (channel_ c) (inPoller_ c)
  (inputBuffer_ c) (outputBuffer_ c) (highWaterMark_ c) (pending_ c) n (writes_ c) (log_ c).
Definition count_write := mkConn (state_ c) (reading_ c) (channel_ c) (inPoller_ c)
  (inputBuffer_ c) (outputBuffer_ c) (highWaterMark_ c) (pending_ c) (delayed_ c) (S (writes_ c)) (log_ c).
Definition log (e : event) := mkConn (state_ c) (reading_ c) (channel_ c) (inPoller_ c) (inputBuffer_ c)
  (outputBuffer_ c) (highWaterMark_ c) (pending_ c) (delayed_ c) (writes_ c) (log_ c ++ [e]).

(* src/muduo/net/TcpConnection.h:37-37 TcpConnection::connected *)
Definition connected : bool := bool_decide (state_ c = kConnected).
(* src/muduo/net/TcpConnection.h:38-40 TcpConnection::disconnected *)
Definition disconnected : bool := bool_decide (state_ c = kDisconnected).
End Setters.

(** ** The loop *)

(** [EventLoop::queueInLoop]. *)
Definition queueInLoop (f : functor) (c : TcpConnection) : TcpConnection :=
  set_pending c (pending_ c ++ [f]).

(** [EventLoop::updateChannel] and [removeChannel], as far as the poller's
    contract is concerned. *)
Definition loop_updateChannel (c : TcpConnection) : outcome TcpConnection := Ok (set_inPoller c true).
Definition loop_removeChannel (c : TcpConnection) : outcome TcpConnection :=
  assert! inPoller_ c ;; Ok (set_inPoller c false).

Definition put_channel (ch : Channel) (c : TcpConnection) : TcpConnection := set_channel c ch.
Definition enableReading := Channel.enableReading channel_ put_channel loop_updateChannel.
Definition disableReading := Channel.disableReading channel_ put_channel loop_updateChannel.
Definition enableWriting := Channel.enableWriting channel_ put_channel loop_updateChannel.
Definition disableWriting := Channel.disableWriting channel_ put_channel loop_updateChannel.
Definition disableAll := Channel.disableAll channel_ put_channel loop_updateChannel.
Definition removeChannel := Channel.remove channel_ put_channel loop_removeChannel.

(** [::write]: -1 with errno, or the number of bytes taken. *)
Inductive write_reply := WErr (errno : Z) | WOk (n : Z).

(** The callbacks the user and the owner set. *)
Record user := mkUser {
  connectionCallback_ : option (TcpConnection → outcome TcpConnection);
  messageCallback_ : option (TcpConnection → outcome TcpConnection);
  writeCompleteCallback_ : option (TcpConnection → outcome TcpConnection);
  highWaterMarkCallback_ : option (Z → TcpConnection → outcome TcpConnection);
  closeCallback_ : option (TcpConnection → outcome TcpConnection)
}.

Section Connection.
Context (kernel_write : nat → bytes → write_reply) (u : user).

(* src/muduo/net/SocketsOps.cc:183-185 sockets::write *)
Definition sockets_write (d : bytes) (c : TcpConnection) : write_reply * TcpConnection :=
  let r := kernel_write (writes_ c) d in
  let c' := count_write c in
  (r, match r with WOk n => log c' (LWrite (take (Z.to_nat n) d)) | WErr _ => c' end).

(** Calling a callback with this connection. *)
Definition call_connection (c : TcpConnection) : outcome TcpConnection :=
  match connectionCallback_ u with
  | Some f => f (log c (if connected c then LUp else LDown))
  | None => Ok (log c (if connected c then LUp else LDown))
  end.

Definition isSome {A} (o : option A) : bool := match o with Some _ => true | None => false end.

(* src/muduo/net/TcpConnection.cc:134-190 TcpConnection::sendInLoop *)
Definition sendInLoop (message : bytes) (c : TcpConnection) : outcome TcpConnection :=
  if bool_decide (state_ c = kDisconnected) then Ok (log c (LDrop message)) else
  let '(nwrote, remaining, faultError, c1) :=
    if negb (isWriting (channel_ c)) && (readableBytes (outputBuffer_ c) =? 0) then
      let '(r, c1) := sockets_write message c in
      match r with
      | WOk n =>
          let remaining := len message - n in
          (n, remaining, false,
           if (remaining =? 0) && isSome (writeCompleteCallback_ u)
           then queueInLoop FWriteComplete c1 else c1)
      | WErr errno =>
          (0, len message,
           negb (errno =? EWOULDBLOCK) && ((errno =? EPIPE) || (errno =? ECONNRESET)), c1)
      end
    else (0, len message, false, c) in
  if faultError then Ok (log c1 (LDrop message))
  else if 0 <? remaining then
    let oldLen := readableBytes (outputBuffer_ c1) in
    let c2 := if (highWaterMark_ c1 <=? oldLen + remaining) && (oldLen <? highWaterMark_ c1) &&
                 isSome (highWaterMarkCallback_ u)
              then queueInLoop (FHighWater (oldLen + remaining)) c1 else c1 in
    let! out := append (slice nwrote remaining message) (outputBuffer_ c2) in
    let c3 := log (set_output c2 out) (LSend message) in
    if negb (isWriting (channel_ c3)) then enableWriting c3 else Ok c3
  else Ok (log c1 (LSend message)).

(* src/muduo/net/TcpConnection.cc:94-110 TcpConnection::send *)
Definition send (here : bool) (message : bytes) (c : TcpConnection) : outcome TcpConnection :=
  if negb (connected c) then Ok c
  else if here then sendInLoop message c
  else Ok (queueInLoop (FSend message) c).

(* src/muduo/net/TcpConnection.cc:112-132 TcpConnection::send of a Buffer *)
Definition sendBuffer (here : bool) (message : Buffer) (c : TcpConnection) :
    outcome (Buffer * TcpConnection) :=
  if negb (connected c) then Ok (message, c)
  else if here then
    let! c' := sendInLoop (readableSpan message) c in
    Ok (retrieveAll message, c')
  else
    let data := readableSpan message in
    Ok (retrieveAll message, queueInLoop (FSend data) c).

(* src/muduo/net/TcpConnection.cc:204-209 TcpConnection::shutdownInLoop *)
Definition shutdownInLoop (c : TcpConnection) : outcome TcpConnection :=
  if negb (isWriting (channel_ c)) then Ok (log c LFin) else Ok c.

(* src/muduo/net/TcpConnection.cc:192-202 TcpConnection::shutdown *)
Definition shutdown (here : bool) (c : TcpConnection) : outcome TcpConnection :=
  if connected c then
    let c1 := setState c kDisconnecting in
    if here then shutdownInLoop c1 else Ok (queueInLoop FShutdown c1)
  else Ok c.

(** [state_ == kConnected || state_ == kDisconnecting] *)
Definition open (c : TcpConnection) : bool :=
  bool_decide (state_ c = kConnected) || bool_decide (state_ c = kDisconnecting).

(* src/muduo/net/TcpConnection.cc:357-373 TcpConnection::handleClose *)
Definition handleClose (c : TcpConnection) : outcome TcpConnection :=
  assert! open c ;;
  let! c1 := disableAll (setState c kDisconnected) in
  let! c2 := call_connection c1 in
  match closeCallback_ u with
  | Some f => f (log c2 LClose)
  | None => Ok c2
  end.

(* src/muduo/net/TcpConnection.cc:239-244 TcpConnection::forceCloseInLoop *)
Definition forceCloseInLoop (c : TcpConnection) : outcome TcpConnection :=
  if open c then handleClose c else Ok c.

(* src/muduo/net/TcpConnection.cc:211-217 TcpConnection::forceClose *)
Definition forceClose (here : bool) (c : TcpConnection) : outcome TcpConnection :=
  if open c then
    let c1 := setState c kDisconnecting in
    if here then forceCloseInLoop c1 else Ok (queueInLoop FForceClose c1)
  else Ok c.

(* src/muduo/net/TcpConnection.cc:219-229 TcpConnection::forceCloseWithDelay *)
Definition forceCloseWithDelay (c : TcpConnection) : outcome TcpConnection :=
  if open c then Ok (set_delayed (setState c kDisconnecting) (S (delayed_ c))) else Ok c.

(* src/muduo/net/TcpConnection.cc:257-263 TcpConnection::startReadInLoop *)
Definition startReadInLoop (c : TcpConnection) : outcome TcpConnection :=
  if negb (reading_ c) || negb (isReading (channel_ c)) then
    let! c1 := enableReading c in Ok (set_reading c1 true)
  else Ok c.
(* src/muduo/net/TcpConnection.cc:248-255 TcpConnection::startRead *)
Definition startRead (here : bool) (c : TcpConnection) : outcome TcpConnection :=
  if here then startReadInLoop c else Ok (queueInLoop FStartRead c).

(* src/muduo/net/TcpConnection.cc:274-280 TcpConnection::stopReadInLoop *)
Definition stopReadInLoop (c : TcpConnection) : outcome TcpConnection :=
  if reading_ c || isReading (channel_ c) then
    let! c1 := disableReading c in Ok (set_reading c1 false)
  else Ok c.
(* src/muduo/net/TcpConnection.cc:265-272 TcpConnection::stopRead *)
Definition stopRead (here : bool) (c : TcpConnection) : outcome TcpConnection :=
  if here then stopReadInLoop c else Ok (queueInLoop FStopRead c).

(* src/muduo/net/TcpConnection.cc:282-293 TcpConnection::connectEstablished *)
Definition connectEstablished (c : TcpConnection) : outcome TcpConnection :=
  assert! bool_decide (state_ c = kConnecting) ;;
  let c1 := setState c kConnected in
  let c2 := set_channel c1 (tie (channel_ c1)) in
  let! c3 := enableReading c2 in
  call_connection (set_reading c3 true).

(* src/muduo/net/TcpConnection.cc:295-306 TcpConnection::connectDestroyed *)
Definition connectDestroyed (c : TcpConnection) : outcome TcpConnection :=
  let! c1 := (if open c then
                let! c1 := disableAll (setState c kDisconnected) in
                call_connection c1
              else Ok c) in
  let! c2 := removeChannel c1 in
  Ok (log c2 LDestroyed).

(* src/muduo/net/TcpConnection.cc:375-379 TcpConnection::handleError *)
Definition handleError (c : TcpConnection) : outcome TcpConnection := Ok c.

(* src/muduo/net/TcpConnection.cc:308-323 TcpConnection::handleRead *)
Definition handleRead (rd : read_result) (c : TcpConnection) : outcome TcpConnection :=
  let! (n, savedErrno, input) := readFd rd (inputBuffer_ c) in
  let c1 := set_input c input in
  if 0 <? n then
    match messageCallback_ u with
    | Some f => f (log c1 (LMessage n))
    | None => Ok (log c1 (LMessage n))
    end
  else if n =? 0 then handleClose c1
  else handleError c1.

(* src/muduo/net/TcpConnection.cc:325-355 TcpConnection::handleWrite *)
Definition handleWrite (c : TcpConnection) : outcome TcpConnection :=
  if negb (isWriting (channel_ c)) then Ok c else
  let '(r, c1) := sockets_write (readableSpan (outputBuffer_ c)) c in
  match r with
  | WOk n =>
      if 0 <? n then
        let! out := retrieve n (outputBuffer_ c1) in
        let c2 := set_output c1 out in
        if readableBytes (outputBuffer_ c2) =? 0 then
          let! c3 := disableWriting c2 in
          let c4 := if isSome (writeCompleteCallback_ u) then queueInLoop FWriteComplete c3 else c3 in
          if bool_decide (state_ c4 = kDisconnecting) then shutdownInLoop c4 else Ok c4
        else Ok c2
      else Ok c1
  | WErr _ => Ok c1
  end.

(** ** What happens to a connection *)

(** What user code does with a connection in a callback. [startRead] and
    [stopRead] are called on a connection that is not down. *)
Inductive user_action :=
| ASend (m : bytes) | ASendBuffer (b : Buffer) | AShutdown | AForceClose | AForceCloseWithDelay
| AStartRead | AStopRead | AConsume (n : Z).

Definition act (a : user_action) (c : TcpConnection) : outcome TcpConnection :=
  match a with
  | ASend m => send true m c
  | ASendBuffer b => let! (_, c') := sendBuffer true b c in Ok c'
  | AShutdown => shutdown true c
  | AForceClose => forceClose true c
  | AForceCloseWithDelay => forceCloseWithDelay c
  | AStartRead => if disconnected c then Ok c else startRead true c
  | AStopRead => if disconnected c then Ok c else stopRead true c
  | AConsume n => let! b := retrieve (Z.min n (readableBytes (inputBuffer_ c))) (inputBuffer_ c) in
                  Ok (set_input c b)
  end.

Definition action_ok (a : user_action) : Prop :=
  match a with
  | ASend m => len m ≤ vector_max_size
  | ASendBuffer b => wf b
  | AConsume n => 0 ≤ n
  | _ => True
  end.

(** The loop runs one of the queued functors. *)
Definition runFunctor (f : functor) (c : TcpConnection) : outcome TcpConnection :=
  match f with
  | FSend m => sendInLoop m c
  | FShutdown => shutdownInLoop c
  | FForceClose => forceCloseInLoop c
  | FStartRead => startReadInLoop c
  | FStopRead => stopReadInLoop c
  | FWriteComplete =>
      match writeCompleteCallback_ u with Some f => f (log c LWriteComplete) | None => Ok c end
  | FHighWater n =>
      match highWaterMarkCallback_ u with Some f => f n (log c (LHighWater n)) | None => Ok c end
  end.

(** The channel's callbacks, as the constructor sets them. *)
(* src/muduo/net/TcpConnection.cc:31-46 TcpConnection::TcpConnection *)
Definition channel_callbacks (rd : read_result) : callbacks TcpConnection :=
  mkCallbacks (Some (λ _, handleRead rd)) (Some handleWrite) (Some handleClose) (Some handleError).

Inductive op :=
| OpEstablish                                  (* the owner, once *)
| OpDestroy                                    (* the owner, once, at the end *)
| OpEvent (revents : Z) (t : Z) (rd : read_result)
| OpHere (a : user_action)                     (* the loop thread *)
| OpElsewhere (f : functor)                    (* another thread *)
| OpFunctor                                    (* the loop runs the next functor *)
| OpTimer.                                     (* a forceCloseWithDelay expires *)

(** A call from another thread, by the functor it queues. *)
Definition elsewhere (f : functor) (c : TcpConnection) : outcome TcpConnection :=
  match f with
  | FSend m => send false m c
  | FShutdown => shutdown false c
  | FForceClose => forceClose false c
  | FStartRead => startRead false c
  | FStopRead => stopRead false c
  | _ => Ok c
  end.

Definition exec (o : op) (c : TcpConnection) : outcome TcpConnection :=
  match o with
  | OpEstablish => connectEstablished c
  | OpDestroy => connectDestroyed c
  | OpEvent revents t rd =>
      handleEvent channel_ put_channel (channel_callbacks rd) true t
        (set_channel c (setRevents (channel_ c) revents))
  | OpHere a => act a c
  | OpElsewhere f => elsewhere f c
  | OpFunctor =>
      match pending_ c with
      | f :: l => runFunctor f (set_pending c l)
      | [] => Ok c
      end
  | OpTimer =>
      match delayed_ c with
      | S n => forceClose true (set_delayed c n)
      | O => Ok c
      end
  end.
End Connection.

(** The object [TcpServer::newConnection] makes. *)
Definition newConnection (fd : Z) (input output : Buffer) : TcpConnection :=
  mkConn kConnecting false (newChannel fd) false input output (64 * 1024 * 1024) [] 0 0 [].

(** ** The log *)

Definition sends (l : list event) : bytes := l ≫= λ e, match e with LSend m => m | _ => [] end.
Definition writes (l : list event) : bytes := l ≫= λ e, match e with LWrite d => d | _ => [] end.

(** The life cycle, as its owner and user see it. *)
Definition is_life (e : event) : bool :=
  match e with LUp | LDown | LClose | LDestroyed => true | _ => false end.
Definition life (l : list event) : list event := filter (λ e, is_life e = true) l.

(** At every half close, everything taken over so far is with the kernel,
    unless the connection is already down. *)
Definition fin_ok (l : list event) : Prop :=
  ∀ l1 l2, l = l1 ++ LFin :: l2 → LDown ∉ l1 → writes l1 = sends l1.
(** Messages are delivered between up and down. *)
Definition messages_ok (l : list event) : Prop :=
  ∀ l1 n l2, l = l1 ++ LMessage n :: l2 → LUp ∈ l1 ∧ LDown ∉ l1.

#[global] Arguments sends : simpl never.
#[global] Arguments writes : simpl never.
#[global] Arguments life : simpl never.
#[global] Arguments content : simpl never.

Create Rewrite HintDb tcplog.
Lemma sends_app l k : sends (l ++ k) = sends l ++ sends k.
Proof. apply bind_app. Qed.
Lemma writes_app l k : writes (l ++ k) = writes l ++ writes k.
Proof. apply bind_app. Qed.
Lemma writes_write d : writes [LWrite d] = d.
Proof. apply app_nil_r. Qed.
Lemma sends_send m : sends [LSend m] = m.
Proof. apply app_nil_r. Qed.
Lemma writes_send m : writes [LSend m] = [].
Proof. done. Qed.
Lemma sends_write d : sends [LWrite d] = [].
Proof. done. Qed.
#[export] Hint Rewrite writes_app sends_app writes_write sends_send writes_send sends_write
  @app_nil_r : tcplog.
Lemma life_app l k : life (l ++ k) = life l ++ life k.
Proof. apply filter_app. Qed.

Lemma snoc_split {A} (l l1 l2 : list A) (e x : A) :
  l ++ [e] = l1 ++ x :: l2 → (l2 = [] ∧ l1 = l ∧ x = e) ∨ ∃ l2', l = l1 ++ x :: l2'.
Proof.
  intros H. destruct l2 as [|y l2] using rev_ind; [left|right; exists l2].
  - apply app_inj_2 in H as [-> [= ->]]; done.
  - rewrite app_comm_cons, app_assoc in H. by apply app_inj_2 in H as [-> _].
Qed.

Lemma fin_snoc l e :
  fin_ok l → (e = LFin → LDown ∉ l → writes l = sends l) → fin_ok (l ++ [e]).
Proof.
  intros Hl He l1 l2 Heq Hd. apply snoc_split in Heq as [(-> & -> & <-)|(l2' & ->)]; [by apply He|by eapply Hl].
Qed.

Lemma messages_snoc l e :
  messages_ok l → (∀ n, e = LMessage n → LUp ∈ l ∧ LDown ∉ l) → messages_ok (l ++ [e]).
Proof.
  intros Hl He l1 n l2 Heq. apply snoc_split in Heq as [(-> & -> & <-)|(l2' & ->)]; [by eapply He|by eapply Hl].
Qed.

Lemma elem_of_life e l : is_life e = true → e ∈ l ↔ e ∈ life l.
Proof. intros He. unfold life. rewrite list_elem_of_filter. naive_solver. Qed.

(** ** The invariant *)

Definition rv (c : TcpConnection) : Z := revents_ (channel_ c).
Definition ev (c : TcpConnection) : Z := events_ (channel_ c).

(** [w] is the part of a message that has been written before the message is
    accounted for; it is empty between two calls. *)
Record core_with (w : bytes) (c : TcpConnection) : Prop := mkCore {
  k_in : wf (inputBuffer_ c);
  k_out : wf (outputBuffer_ c);
  k_stream : writes (log_ c) ++ content (outputBuffer_ c) = sends (log_ c) ++ w;
  k_fin : fin_ok (log_ c);
  k_msg : messages_ok (log_ c);
  k_pend : ∀ m, FSend m ∈ pending_ c → len m ≤ vector_max_size
}.
Abbreviation core := (core_with []).

Definition fresh (c : TcpConnection) : Prop :=
  state_ c = kConnecting ∧ log_ c = [] ∧ ev c = 0 ∧ content (outputBuffer_ c) = [] ∧ pending_ c = [].

Definition live (c : TcpConnection) : Prop :=
  (state_ c = kConnected ∨ state_ c = kDisconnecting) ∧
  (isWriting (channel_ c) = true ↔ content (outputBuffer_ c) ≠ []) ∧
  inPoller_ c = true ∧ life (log_ c) = [LUp].

Definition down (L : list event) (c : TcpConnection) : Prop :=
  state_ c = kDisconnected ∧ ev c = 0 ∧ inPoller_ c = bool_decide (LDestroyed ∉ L) ∧ life (log_ c) = L ∧
  LDown ∈ L.

(** The life of a connection that closed itself. *)
Definition closed_life (L : list event) : Prop := L = [LUp; LDown] ∨ L = [LUp; LDown; LClose].

Lemma closed_life_not_destroyed L : closed_life L → LDestroyed ∉ L.
Proof. intros [->| ->]; by apply (bool_decide_unpack _). Qed.

(** An op leaves the connection well-formed, with [P], and its revents alone. *)
Definition keeps (P : TcpConnection → Prop) (c c' : TcpConnection) : Prop :=
  core c' ∧ P c' ∧ rv c' = rv c.

Lemma core_same w c c' :
  core_with w c → inputBuffer_ c' = inputBuffer_ c → outputBuffer_ c' = outputBuffer_ c →
  log_ c' = log_ c → pending_ c' = pending_ c → core_with w c'.
Proof. intros [? ? ? ? ? ?] Hi Ho Hl Hp. split; rewrite ?Hi, ?Ho, ?Hl, ?Hp; done. Qed.

(** Logging an event that is not about bytes. *)
Lemma core_log w c e :
  core_with w c → writes [e] = [] → sends [e] = [] →
  (e = LFin → LDown ∉ log_ c → writes (log_ c) = sends (log_ c)) →
  (∀ n, e = LMessage n → LUp ∈ log_ c ∧ LDown ∉ log_ c) → core_with w (log c e).
Proof.
  intros [? ? Hs ? ? ?] Hw Hse Hf Hm. split; cbn; try done.
  - rewrite writes_app, sends_app, Hw, Hse, !app_nil_r. done.
  - by apply fin_snoc.
  - by apply messages_snoc.
Qed.

(** Writing when nothing is buffered, then accounting for the message. *)
Lemma core_direct_write c d :
  core c → content (outputBuffer_ c) = [] → core_with d (log c (LWrite d)).
Proof.
  intros [? ? Hs ? ? ?] Hc. split; cbn; try done.
  - rewrite Hc in Hs |- *. autorewrite with tcplog in *. by rewrite Hs.
  - by apply fin_snoc.
  - by apply messages_snoc.
Qed.

Lemma core_account c m : core_with m c → core (log c (LSend m)).
Proof.
  intros [? ? Hs ? ? ?]. split; cbn; try done.
  - by autorewrite with tcplog.
  - by apply fin_snoc.
  - by apply messages_snoc.
Qed.

Lemma core_buffer w r c out :
  core_with w c → wf out → content out = content (outputBuffer_ c) ++ r →
  core_with (w ++ r) (set_output c out).
Proof.
  intros [? ? Hs ? ? ?] Hw Hc. split; cbn; try done. by rewrite Hc, !app_assoc, Hs.
Qed.

Lemma core_drained d c out :
  core c → wf out → content (outputBuffer_ c) = d ++ content out → core (set_output (log c (LWrite d)) out).
Proof.
  intros [? ? Hs ? ? ?] Hw Hc. split; cbn; try done.
  - rewrite Hc in Hs. autorewrite with tcplog in *. by rewrite <- app_assoc.
  - by apply fin_snoc.
  - by apply messages_snoc.
Qed.

Lemma core_queue w c f :
  core_with w c → (∀ m, f = FSend m → len m ≤ vector_max_size) → core_with w (queueInLoop f c).
Proof.
  intros [? ? ? ? ? Hp] Hf. split; cbn; try done.
  intros m [Hm|Hm%list_elem_of_singleton]%elem_of_app; [by apply Hp|by apply Hf].
Qed.

Lemma isWriting_none ch : events_ ch = 0 → isWriting ch = false.
Proof. unfold isWriting. by intros ->. Qed.
Lemma isReading_none ch : events_ ch = 0 → isReading ch = false.
Proof. unfold isReading. by intros ->. Qed.

Lemma live_open c : live c → open c = true.
Proof. intros ([H|H] & _); unfold open; by rewrite H. Qed.
Lemma down_not_open L c : down L c → open c = false.
Proof. by intros (H & _); unfold open; rewrite H. Qed.

Section Correct.
Context (kernel_write : nat → bytes → write_reply) (u : user).
(** [::write] takes a prefix of what it is given. *)
Hypothesis kernel_ok : ∀ i d n, kernel_write i d = WOk n → 0 ≤ n ≤ len d.

Definition plays1 (f : TcpConnection → outcome TcpConnection) : Prop :=
  ∀ c, ∃ acts, Forall action_ok acts ∧ f c = foldM (act kernel_write u) acts c.

(** The callbacks do nothing but call the connection's own operations. *)
Record plays : Prop := mkPlays {
  pl_conn f : connectionCallback_ u = Some f → plays1 f;
  pl_msg f : messageCallback_ u = Some f → plays1 f;
  pl_wc f : writeCompleteCallback_ u = Some f → plays1 f;
  pl_hwm f n : highWaterMarkCallback_ u = Some f → plays1 (f n);
  pl_close f : closeCallback_ u = Some f → plays1 f
}.

(** *** A connection that is down stays as it is *)

Lemma down_act L a c :
  core c → down L c → action_ok a → safely (act kernel_write u a c) (keeps (down L) c).
Proof.
  intros Hc Hd Ha. pose proof Hd as (Hst & Hev & Hip & Hlife & Hin).
  assert (connected c = false) as Hconn by (unfold connected; by rewrite Hst).
  assert (disconnected c = true) as Hdisc by (unfold disconnected; by rewrite Hst).
  pose proof (down_not_open L c Hd) as Hop.
  destruct a as [m|b| | | | | |n]; cbn [act].
  - unfold send. by rewrite Hconn.
  - unfold sendBuffer. by rewrite Hconn.
  - unfold shutdown. by rewrite Hconn.
  - unfold forceClose. by rewrite Hop.
  - unfold forceCloseWithDelay. by rewrite Hop.
  - by rewrite Hdisc.
  - by rewrite Hdisc.
  - cbn in Ha. pose proof (readable_nonneg (inputBuffer_ c) (k_in _ c Hc)).
    eapply safely_bind; [apply safely_ensures, retrieve_ok; [apply Hc|]|].
    { rewrite <- (readable_len (inputBuffer_ c)) by apply Hc. lia. }
    intros b (Hb & _). cbn. split_and!; [|done|done]. destruct Hc. by split.
Qed.

Lemma down_acts L acts c :
  core c → down L c → Forall action_ok acts →
  safely (foldM (act kernel_write u) acts c) (keeps (down L) c).
Proof.
  intros Hc Hd Ha. apply (safely_foldM (act kernel_write u) (keeps (down L) c)); [done|].
  intros a c1 Hin (Hc1 & Hd1 & Hr1). rewrite Forall_forall in Ha.
  eapply safely_mono; [apply (down_act L a c1); auto|].
  intros c2 (? & ? & ?). split_and!; [done|done|congruence].
Qed.

Lemma down_plays L f c : plays1 f → core c → down L c → safely (f c) (keeps (down L) c).
Proof. intros Hf Hc Hd. destruct (Hf c) as (acts & Ha & ->). by apply down_acts. Qed.

Lemma disableAll_eq c :
  disableAll c = Ok (set_inPoller (set_channel c (set_addedToLoop (set_events (channel_ c) 0) true)) true).
Proof. done. Qed.

Lemma life_log c e : life (log_ (log c e)) = life (log_ c) ++ (if is_life e then [e] else []).
Proof. cbn. rewrite life_app. unfold life at 2. destruct (is_life e) eqn:E; [|]; rewrite filter_cons;
  [rewrite decide_True by done|rewrite decide_False by congruence]; done. Qed.

Lemma call_down L c :
  plays → core c → state_ c = kDisconnected → ev c = 0 → inPoller_ c = true → life (log_ c) = L →
  LDestroyed ∉ L →
  safely (call_connection u c) (keeps (down (L ++ [LDown])) c).
Proof.
  intros Hp Hc Hst Hev Hip Hl Hnd. unfold call_connection.
  replace (connected c) with false by (unfold connected; by rewrite Hst).
  assert (core (log c LDown)) as Hc1 by (by apply core_log).
  assert (down (L ++ [LDown]) (log c LDown)) as Hd1.
  { split_and!; try done.
    - cbn. rewrite Hip. symmetry. apply bool_decide_eq_true. rewrite not_elem_of_app. split; [done|].
      by intros ?%list_elem_of_singleton.
    - by rewrite life_log, Hl.
    - apply elem_of_app. right. by apply list_elem_of_singleton. }
  destruct (connectionCallback_ u) as [f|] eqn:Hf; [|done].
  refine (down_plays _ f (log c LDown) _ Hc1 Hd1). by eapply pl_conn.
Qed.

(** *** Closing *)

Lemma live_disableAll c c1 :
  core c → live c → disableAll (setState c kDisconnected) = Ok c1 →
  core c1 ∧ state_ c1 = kDisconnected ∧ ev c1 = 0 ∧ inPoller_ c1 = true ∧ life (log_ c1) = [LUp] ∧
  rv c1 = rv c.
Proof.
  intros Hc (_ & _ & Hip & Hlf). rewrite disableAll_eq. intros [= <-]. split_and!; try done.
  by eapply (core_same [] c).
Qed.

Lemma handleClose_ok c :
  plays → core c → live c → safely (handleClose u c) (keeps (λ c', ∃ L, down L c' ∧ closed_life L) c).
Proof.
  intros Hp Hc Hl. unfold handleClose. rewrite live_open by done. pass_asserts.
  destruct (live_disableAll c _ Hc Hl (disableAll_eq _)) as (Hc1 & Hst1 & Hev1 & Hip1 & Hl1 & Hr1).
  rewrite disableAll_eq. cbn [obind]. set (c1 := set_inPoller _ _) in *.
  eapply safely_bind; [apply (call_down [LUp]); try done; by intros ?%list_elem_of_singleton|].
  intros c2 (Hc2 & Hd2 & Hr2). cbn [app] in Hd2.
  destruct (closeCallback_ u) as [f|] eqn:Hf.
  - assert (down [LUp; LDown; LClose] (log c2 LClose)) as Hd3.
    { destruct Hd2 as (? & ? & Hip & Hlf & ?). split_and!; try done.
      - by rewrite life_log, Hlf.
      - by apply (bool_decide_unpack _). }
    eapply safely_mono;
      [refine (down_plays [LUp; LDown; LClose] f (log c2 LClose) _ _ Hd3); [by eapply pl_close|by apply core_log]|].
    intros c3 (Hc3 & Hd & Hr3). split_and!; [done| |change (rv c3 = rv c2) in Hr3; congruence].
    eexists. split; [exact Hd|]. by right.
  - cbn. split_and!; [done| |congruence]. eexists. split; [exact Hd2|]. by left.
Qed.

(** *** Sending *)

Lemma enableWriting_eq c :
  enableWriting c = Ok (set_inPoller (set_channel c (set_addedToLoop
    (set_events (channel_ c) (Z.lor (events_ (channel_ c)) kWriteEvent)) true)) true).
Proof. done. Qed.

(** [live] with the log's life events and the state as they were. *)
Lemma live_change c c' :
  live c → state_ c' = state_ c → inPoller_ c' = true → life (log_ c') = life (log_ c) →
  (isWriting (channel_ c') = true ↔ content (outputBuffer_ c') ≠ []) → live c'.
Proof. intros (H1 & H2 & H3 & H4) Hs Hp Hl Hw. split_and!; [by rewrite Hs|done|done|by rewrite Hl]. Qed.

Lemma buffer_rest_ok w r m c :
  core_with w c → live c → m = w ++ r → r ≠ [] → len r ≤ vector_max_size →
  safely (let! out := append r (outputBuffer_ c) in
          let c3 := log (set_output c out) (LSend m) in
          if negb (isWriting (channel_ c3)) then enableWriting c3 else Ok c3) (keeps live c).
Proof.
  intros Hc Hl -> Hr Hlen.
  eapply safely_bind; [apply append_safe; [apply Hc|done]|].
  intros out [Hwf Hcont]. cbv zeta. set (c3 := log _ _).
  assert (core c3) as Hc3 by (apply core_account; by apply core_buffer).
  assert (content (outputBuffer_ c3) ≠ []) as Hne.
  { cbn. rewrite Hcont. intros Heq. by apply app_eq_nil in Heq as [_ ?]. }
  assert (life (log_ c3) = life (log_ c)) as Hlf by (unfold c3; rewrite life_log; cbn; by rewrite app_nil_r).
  destruct (isWriting (channel_ c3)) eqn:Hw; cbn [negb].
  - cbn. split_and!; [done| |done]. eapply live_change; [done|done|apply Hl|done|by rewrite Hw].
  - rewrite enableWriting_eq. cbn. split_and!; [by eapply core_same| |done].
    eapply live_change; try done. split; [done|]. intros _. apply events_masks.
Qed.

Lemma sendInLoop_ok m c :
  core c → live c → len m ≤ vector_max_size → safely (sendInLoop kernel_write u m c) (keeps live c).
Proof using kernel_ok.
  intros Hc Hl Hlen. pose proof (len_nonneg m). unfold sendInLoop.
  rewrite bool_decide_false by (destruct Hl as ([->| ->] & _); done).
  assert (∀ w r c1 (hw : bool) n, core_with w c1 → live c1 → rv c1 = rv c → m = w ++ r → r ≠ [] →
    safely (let! out := append r (outputBuffer_ (if hw then queueInLoop (FHighWater n) c1 else c1)) in
            let c3 := log (set_output (if hw then queueInLoop (FHighWater n) c1 else c1) out) (LSend m) in
            if negb (isWriting (channel_ c3)) then enableWriting c3 else Ok c3) (keeps live c)) as Hrest.
  { intros w r c1 hw n Hc1 Hl1 Hr1 Hm Hr.
    eapply safely_mono; [eapply (buffer_rest_ok w r m); [| |done|done|]|].
    - destruct hw; [by apply core_queue|done].
    - by destruct hw.
    - rewrite Hm, len_app in Hlen. pose proof (len_nonneg w). lia.
    - intros c' (? & ? & Hr'). split_and!; [done|done|]. rewrite Hr'. by destruct hw. }
  assert (∀ c1, core c1 → live c1 → rv c1 = rv c → len m = 0 → safely (Ok (log c1 (LSend m))) (keeps live c)) as Hempty.
  { intros c1 Hc1 Hl1 Hr1 H0. destruct m as [|b m]; [|unfold len in H0; cbn in H0; lia].
    cbn. split_and!; [by apply core_account| |done].
    eapply live_change; try done; [apply Hl1|by rewrite life_log, app_nil_r|apply Hl1]. }
  assert (slice 0 (len m) m = m) as Hslice by apply slice_full.
  destruct (negb (isWriting (channel_ c)) && (readableBytes (outputBuffer_ c) =? 0)) eqn:Hdirect.
  - apply andb_true_iff in Hdirect as [Hnw Hz]. apply Z.eqb_eq in Hz.
    rewrite readable_len in Hz by apply Hc.
    assert (content (outputBuffer_ c) = []) as Hnil by (destruct (content (outputBuffer_ c)); [done|unfold len in Hz; cbn in Hz; lia]).
    unfold sockets_write. destruct (kernel_write (writes_ c) m) as [errno|n] eqn:Hk.
    + destruct (negb (errno =? EWOULDBLOCK) && _) eqn:Hf.
      * cbn. split_and!; [by apply core_log; [eapply core_same|..]| |done].
        eapply live_change; try done; [apply Hl|by rewrite life_log, app_nil_r|apply Hl].
      * destruct (Z.ltb_spec 0 (len m)) as [Hpos|H0].
        -- rewrite Hslice. apply (Hrest []); try done; [by eapply core_same|].
           intros ->. by unfold len in Hpos.
        -- apply Hempty; try done; [by eapply core_same|lia].
    + apply kernel_ok in Hk as Hn.
      set (c1 := if (len m - n =? 0) && _ then _ else _).
      assert (core_with (take (Z.to_nat n) m) c1) as Hc1.
      { assert (core_with (take (Z.to_nat n) m) (log (count_write c) (LWrite (take (Z.to_nat n) m))))
          by (apply core_direct_write; [by eapply core_same|done]).
        unfold c1. destruct (_ && _); [by apply core_queue|done]. }
      assert (live c1 ∧ rv c1 = rv c ∧ log_ c1 = log_ c ++ [LWrite (take (Z.to_nat n) m)]) as (Hl1 & Hr1 & Hlog1).
      { assert (live (log (count_write c) (LWrite (take (Z.to_nat n) m)))) as Hl1.
        { eapply live_change; try done; [apply Hl|by rewrite life_log, app_nil_r|apply Hl]. }
        unfold c1. by destruct (_ && _). }
      destruct (Z.ltb_spec 0 (len m - n)) as [Hpos|H0].
      * assert (slice n (len m - n) m = drop (Z.to_nat n) m) as ->.
        { unfold slice. apply take_ge. rewrite length_drop. unfold len. lia. }
        apply (Hrest (take (Z.to_nat n) m)); try done; [by rewrite take_drop|].
        intros Heq. apply (f_equal length) in Heq. rewrite length_drop in Heq. unfold len in *. cbn in Heq. lia.
      * rewrite take_ge in Hc1 by (unfold len in *; lia).
        cbn. split_and!; [by apply core_account| |done].
        eapply live_change; try done; [apply Hl1|by rewrite life_log, app_nil_r|apply Hl1].
  - destruct (Z.ltb_spec 0 (len m)) as [Hpos|H0].
    + rewrite Hslice. apply (Hrest []); try done. intros ->. by unfold len in Hpos.
    + apply Hempty; try done. lia.
Qed.

(** *** Everything else a live connection does *)

Definition live_or_down (c : TcpConnection) : Prop := live c ∨ ∃ L, down L c ∧ closed_life L.

Lemma live_setState c s :
  live c → s = kConnected ∨ s = kDisconnecting → live (setState c s).
Proof. intros (H1 & H2 & H3 & H4) Hs. by split_and!. Qed.

Lemma shutdownInLoop_ok c :
  core c → live c → safely (shutdownInLoop c) (keeps live c).
Proof.
  intros Hc Hl. unfold shutdownInLoop. destruct (isWriting (channel_ c)) eqn:Hw; cbn [negb]; [done|].
  cbn. split_and!; [| |done].
  - apply core_log; try done. intros _ _.
    destruct Hl as (_ & Hiff & _). rewrite Hw in Hiff.
    pose proof (k_stream _ _ Hc) as Hs.
    destruct (content (outputBuffer_ c)) as [|b l]; [by rewrite !app_nil_r in Hs|].
    destruct Hiff as [_ Hx]. by discriminate Hx.
  - eapply live_change; [done|done|apply Hl|by rewrite life_log, app_nil_r|apply Hl].
Qed.

Lemma keeps_trans P Q c c1 c2 : keeps P c c1 → keeps Q c1 c2 → keeps Q c c2.
Proof. intros (_ & _ & H1) (H2 & H3 & H4). split_and!; [done|done|congruence]. Qed.

Lemma keeps_live c c' : keeps live c c' → keeps live_or_down c c'.
Proof. intros (H1 & H2 & H3). split_and!; [done|by left|done]. Qed.

Lemma handleClose_safe c :
  plays → core c → live c → safely (handleClose u c) (keeps live_or_down c).
Proof.
  intros Hp Hc Hl. eapply safely_mono; [by apply handleClose_ok|].
  intros c' (? & ? & ?). split_and!; [done|by right|done].
Qed.

Lemma live_reading c b c1 :
  core c → live c → ev c1 = (if b : bool then Z.lor (ev c) kReadEvent else Z.land (ev c) (Z.lnot kReadEvent)) →
  inPoller_ c1 = true → state_ c1 = state_ c → log_ c1 = log_ c → outputBuffer_ c1 = outputBuffer_ c →
  inputBuffer_ c1 = inputBuffer_ c → pending_ c1 = pending_ c → core c1 ∧ live c1.
Proof.
  intros Hc Hl He Hp Hs Hlog Ho Hi Hq. split; [by eapply core_same|].
  eapply live_change; [done|done|done|by rewrite Hlog|].
  assert (isWriting (channel_ c1) = isWriting (channel_ c)) as ->; [|rewrite Ho; apply Hl].
  pose proof (events_masks (channel_ c)) as (_ & _ & _ & _ & H1 & _ & _ & H2).
  destruct b; [rewrite <- H1|rewrite <- H2]; unfold isWriting; cbn; unfold ev in He; by rewrite He.
Qed.

Lemma startReadInLoop_ok c :
  core c → live c → safely (startReadInLoop c) (keeps live c).
Proof.
  intros Hc Hl. unfold startReadInLoop. destruct (_ || _); [|done].
  cbn [enableReading Channel.enableReading update loop_updateChannel obind safely].
  set (c1 := set_reading _ _). destruct (live_reading c true c1) as [H1 H2]; try done.
Qed.

Lemma stopReadInLoop_ok c :
  core c → live c → safely (stopReadInLoop c) (keeps live c).
Proof.
  intros Hc Hl. unfold stopReadInLoop. destruct (_ || _); [|done].
  cbn [disableReading Channel.disableReading update loop_updateChannel obind safely].
  set (c1 := set_reading _ _). destruct (live_reading c false c1) as [H1 H2]; try done.
Qed.

Lemma live_act a c :
  plays → core c → live c → action_ok a → safely (act kernel_write u a c) (keeps live_or_down c).
Proof using kernel_ok.
  intros Hp Hc Hl Ha.
  assert (disconnected c = false) as Hnd by (unfold disconnected; by destruct Hl as ([->| ->] & _)).
  assert (keeps live_or_down c c) as Hsame by (split_and!; [done|by left|done]).
  destruct a as [m|b| | | | | |n]; cbn [act].
  - unfold send. destruct (connected c); cbn [negb]; [|done].
    eapply safely_mono; [by apply sendInLoop_ok|]. apply keeps_live.
  - unfold sendBuffer. destruct (connected c); cbn [negb]; [|done]. cbn in Ha.
    eapply (safely_bind _ _ (λ '(_, c'), keeps live c c')); [eapply safely_bind; [apply sendInLoop_ok; [done|done|]|]|].
    + rewrite readableSpan_eq, len_content, readable_eq by done. destruct Ha. lia.
    + intros c1 H1. cbn. exact H1.
    + intros [b' c'] H1. cbn in *. by apply keeps_live.
  - unfold shutdown. destruct (connected c); [|done].
    eapply safely_mono; [apply shutdownInLoop_ok; [by eapply core_same|by apply live_setState; [|right]]|].
    apply keeps_live.
  - unfold forceClose. destruct (open c); [|done]. unfold forceCloseInLoop.
    assert (live (setState c kDisconnecting)) as Hl1 by (by apply live_setState; [|right]).
    rewrite live_open by done. apply (handleClose_safe (setState c kDisconnecting)); [done|by eapply core_same|done].
  - unfold forceCloseWithDelay. destruct (open c); [|done]. cbn. split_and!; [by eapply core_same| |done].
    left. by apply (live_setState c); [|right].
  - rewrite Hnd. eapply safely_mono; [by apply startReadInLoop_ok|]. apply keeps_live.
  - rewrite Hnd. eapply safely_mono; [by apply stopReadInLoop_ok|]. apply keeps_live.
  - cbn in Ha. pose proof (readable_nonneg (inputBuffer_ c) (k_in _ c Hc)).
    eapply safely_bind; [apply safely_ensures, retrieve_ok; [apply Hc|]|].
    { rewrite <- (readable_len (inputBuffer_ c)) by apply Hc. lia. }
    intros b (Hb & _). cbn. split_and!; [|left|done]; [destruct Hc; by split|].
    eapply live_change; [done|done|apply Hl|done|apply Hl].
Qed.

Lemma acts_ok acts c :
  plays → core c → live_or_down c → Forall action_ok acts →
  safely (foldM (act kernel_write u) acts c) (keeps live_or_down c).
Proof using kernel_ok.
  intros Hp Hc Hl Ha. apply (safely_foldM (act kernel_write u) (keeps live_or_down c)); [done|].
  intros a c1 Hin (Hc1 & Hl1 & Hr1). rewrite Forall_forall in Ha.
  destruct Hl1 as [Hl1|(L & Hd1 & Hn1)].
  - eapply safely_mono; [apply live_act; auto|]. intros c2 H2. by eapply keeps_trans.
  - eapply safely_mono; [apply (down_act L); auto|].
    intros c2 (? & ? & ?). split_and!; [done|right; by exists L|congruence].
Qed.

Lemma plays_ok f c :
  plays → plays1 f → core c → live_or_down c → safely (f c) (keeps live_or_down c).
Proof using kernel_ok. intros Hp Hf Hc Hl. destruct (Hf c) as (acts & Ha & ->). by apply acts_ok. Qed.

Lemma live_log c e :
  live c → is_life e = false → live (log c e).
Proof.
  intros Hl He. eapply live_change; [done|done|apply Hl| |apply Hl]. by rewrite life_log, He, app_nil_r.
Qed.

Lemma live_up_down c : live c → LUp ∈ log_ c ∧ LDown ∉ log_ c.
Proof.
  intros (_ & _ & _ & Hl). rewrite (elem_of_life LUp), (elem_of_life LDown), Hl by done.
  split; [by apply list_elem_of_singleton|by intros ?%list_elem_of_singleton].
Qed.

(** The bytes of a read: at most what the buffer offered. *)
Definition read_ok (b : Buffer) (rd : read_result) : Prop :=
  match rd with
  | ReadErr _ => True
  | ReadOk data => len data ≤ readFd_capacity b ∧ writerIndex_ b + len data ≤ vector_max_size
  end.

Lemma core_input c b : core c → wf b → core (set_input c b).
Proof. intros [] Hb. by split. Qed.

Lemma handleRead_ok rd c :
  plays → core c → live c → read_ok (inputBuffer_ c) rd →
  safely (handleRead u rd c) (keeps live_or_down c).
Proof using kernel_ok.
  intros Hp Hc Hl Hrd. unfold handleRead. destruct rd as [e|data].
  - cbn. split_and!; [apply core_input; [done|apply Hc]|left|done].
    eapply live_change; [done|done|apply Hl|done|apply Hl].
  - destruct Hrd as [Hcap Hmax].
    eapply safely_bind; [apply safely_ensures, readFd_ok; [apply Hc|done|done]|].
    intros [[n e] b] (-> & _ & Hb & _).
    assert (core (set_input c b)) as Hc1 by (by apply core_input).
    assert (live (set_input c b)) as Hl1 by (eapply live_change; [done|done|apply Hl|done|apply Hl]).
    destruct (0 <? len data).
    + assert (core (log (set_input c b) (LMessage (len data)))) as Hc2.
      { apply core_log; try done. intros n _. by apply (live_up_down (set_input c b)). }
      assert (live (log (set_input c b) (LMessage (len data)))) as Hl2 by (by apply live_log).
      destruct (messageCallback_ u) as [f|] eqn:Hf.
      * refine (plays_ok f (log (set_input c b) (LMessage (len data))) Hp _ Hc2 _);
          [by eapply pl_msg|by left].
      * cbn. split_and!; [done|by left|done].
    + destruct (len data =? 0).
      * apply (handleClose_safe (set_input c b)); done.
      * cbn. split_and!; [done|by left|done].
Qed.

Lemma disableWriting_eq c :
  disableWriting c = Ok (set_inPoller (set_channel c (set_addedToLoop
    (set_events (channel_ c) (Z.land (events_ (channel_ c)) (Z.lnot kWriteEvent))) true)) true).
Proof. done. Qed.

Lemma handleWrite_ok c :
  core c → live c → safely (handleWrite kernel_write u c) (keeps live c).
Proof using kernel_ok.
  intros Hc Hl. unfold handleWrite.
  destruct (isWriting (channel_ c)) eqn:Hw; cbn [negb]; [|done].
  assert (content (outputBuffer_ c) ≠ []) as Hne by (by apply Hl).
  unfold sockets_write. rewrite readableSpan_eq by apply Hc. set (q := content (outputBuffer_ c)) in *.
  destruct (kernel_write (writes_ c) q) as [e|n] eqn:Hk.
  { cbn. split_and!; [by eapply core_same| |done]. eapply live_change; [done|done|apply Hl|done|apply Hl]. }
  apply kernel_ok in Hk as Hn.
  destruct (Z.ltb_spec 0 n) as [Hpos|Hz].
  2:{ assert (n = 0) as -> by lia. cbn. split_and!; [|by apply (live_log c)|done].
      apply (core_drained [] (count_write c) (outputBuffer_ c)); [by eapply core_same|apply Hc|done]. }
  cbn [outputBuffer_ log count_write].
  eapply safely_bind; [apply safely_ensures, retrieve_ok; [apply Hc|fold q; lia]|].
  intros out (Hwf & Hcont & _). fold q in Hcont. cbv zeta.
  set (c1 := set_output _ out).
  assert (core c1) as Hc1.
  { apply (core_drained (take (Z.to_nat n) q) (count_write c) out); [by eapply core_same|done|].
    cbn. by rewrite Hcont, take_drop. }
  assert (life (log_ c1) = life (log_ c)) as Hlf by (unfold c1; cbn [set_output log_]; by rewrite life_log, app_nil_r).
  change (outputBuffer_ c1) with out. rewrite readable_len by done.
  destruct (Z.eqb_spec (len (content out)) 0) as [Hz|Hnz].
  - assert (content out = []) as Hnil by (destruct (content out); [done|unfold len in Hz; cbn in Hz; lia]).
    rewrite disableWriting_eq. cbn [obind]. set (c2 := set_inPoller _ true).
    assert (core c2) as Hc2 by (by eapply core_same).
    assert (live c2) as Hl2.
    { eapply live_change; [exact Hl|done|done|done|].
      change (outputBuffer_ c2) with out. rewrite Hnil. split; [|done].
      assert (isWriting (channel_ c2) = false) as -> by apply (events_masks (channel_ c1)). done. }
    set (c3 := if isSome _ then _ else c2).
    assert (core c3 ∧ live c3 ∧ rv c3 = rv c) as (Hc3 & Hl3 & Hr3).
    { unfold c3. destruct (isSome _); [|done]. split_and!; [by apply core_queue|done|done]. }
    case_bool_decide; [|done].
    eapply safely_mono; [by apply shutdownInLoop_ok|]. intros c' (? & ? & ?). split_and!; [done|done|congruence].
  - cbn. split_and!; [done| |done]. eapply live_change; [exact Hl|done|apply Hl|done|].
    cbn. rewrite Hw. split; [|done]. intros _ Heq. by rewrite Heq in Hnz.
Qed.

(** *** The steps of a connection *)

(** A well-behaved kernel and poller: input is reported only when it is asked
    for, likewise output, and a hang-up of a connection that is being read
    comes with input (the end of the stream). Events are dispatched to a
    channel the poller waits for. *)
Definition event_ok (c : TcpConnection) (revents : Z) (rd : read_result) : Prop :=
  ev c ≠ 0 ∧
  (bit revents (Z.lor (Z.lor POLLIN POLLPRI) POLLRDHUP) = true → isReading (channel_ c) = true) ∧
  (bit revents POLLOUT = true → isWriting (channel_ c) = true) ∧
  (bit revents POLLHUP = true → isReading (channel_ c) = true → bit revents POLLIN = true) ∧
  read_ok (inputBuffer_ c) rd.

(** What may happen next. The owner establishes and destroys the connection
    once, users have it in between, and no [startRead] or [stopRead] is still
    queued when the connection goes down. *)
Definition legal (o : op) (c : TcpConnection) : Prop :=
  match o with
  | OpEstablish => state_ c = kConnecting
  | OpDestroy => state_ c ≠ kConnecting ∧ LDestroyed ∉ log_ c
  | OpEvent revents _ rd => event_ok c revents rd
  | OpHere a => state_ c ≠ kConnecting ∧ action_ok a
  | OpElsewhere f => state_ c ≠ kConnecting ∧ ∀ m, f = FSend m → len m ≤ vector_max_size
  | OpFunctor => ∀ f l, pending_ c = f :: l → f = FStartRead ∨ f = FStopRead → state_ c ≠ kDisconnected
  | OpTimer => True
  end.

Inductive reachable (fd : Z) : TcpConnection → Prop :=
| reach_new input output :
    wf input → wf output → content output = [] → reachable fd (newConnection fd input output)
| reach_step c o c' :
    reachable fd c → legal o c → exec kernel_write u o c = Ok c' → reachable fd c'.

Definition phase (c : TcpConnection) : Prop :=
  fresh c ∨ live c ∨
  ∃ L, down L c ∧ (closed_life L ∨ ∃ L', closed_life L' ∧ L = L' ++ [LDestroyed]).
Definition inv (c : TcpConnection) : Prop := core c ∧ phase c.

Lemma phase_not_connecting c :
  phase c → state_ c ≠ kConnecting →
  live c ∨ ∃ L, down L c ∧ (closed_life L ∨ ∃ L', closed_life L' ∧ L = L' ++ [LDestroyed]).
Proof. intros [(H & _)|H]; done. Qed.

Lemma keeps_inv c c' : keeps live_or_down c c' → inv c'.
Proof.
  intros (H1 & [H2|(L & H2 & H3)] & _); (split; [done|]); [by right; left|].
  right; right. exists L. auto.
Qed.

(** Live, or down by itself: not yet destroyed. *)
Definition settled (c : TcpConnection) : Prop := core c ∧ live_or_down c.

Lemma settled_inv c : settled c → inv c.
Proof. intros [Hc Hl]. by apply (keeps_inv c). Qed.

Lemma call_up c :
  plays → core c → state_ c = kConnected → inPoller_ c = true → log_ c = [] →
  (isWriting (channel_ c) = true ↔ content (outputBuffer_ c) ≠ []) →
  safely (call_connection u c) settled.
Proof using kernel_ok.
  intros Hp Hc Hst Hip Hlog Hw. unfold call_connection.
  replace (connected c) with true by (unfold connected; by rewrite Hst).
  assert (core (log c LUp)) as Hc1 by (by apply core_log).
  assert (live (log c LUp)) as Hl1.
  { split_and!; [by left|done|done|]. by rewrite life_log, Hlog. }
  destruct (connectionCallback_ u) as [f|] eqn:Hf; cbn [safely].
  - eapply safely_mono;
      [refine (plays_ok f (log c LUp) Hp _ Hc1 _); [by eapply pl_conn|by left]|].
    by intros c' (? & ? & _).
  - split; [done|by left].
Qed.

Lemma establish_ok c : plays → inv c → legal OpEstablish c → safely (connectEstablished u c) settled.
Proof using kernel_ok.
  intros Hp [Hc Hph] Hst. cbn in Hst. unfold connectEstablished. rewrite Hst. pass_asserts.
  destruct Hph as [(_ & Hlog & Hev & Hout & Hpend)|[(Hx & _)|(L & (Hx & _) & _)]];
    [|destruct Hx; congruence|congruence].
  cbn [enableReading Channel.enableReading update loop_updateChannel obind].
  set (c1 := set_reading _ true).
  apply (call_up c1 Hp); [by eapply core_same|done|done|done|].
  split; [|intros Hx; by destruct Hx].
  assert (isWriting (channel_ c1) = false) as ->; [|done].
  unfold ev in Hev. unfold isWriting. cbn. by rewrite Hev.
Qed.

Lemma life_in_log e c L : is_life e = true → life (log_ c) = L → e ∈ log_ c ↔ e ∈ L.
Proof. intros He <-. by apply elem_of_life. Qed.

Lemma removeChannel_ok L c :
  core c → down L c → closed_life L →
  safely (let! c2 := removeChannel c in Ok (log c2 LDestroyed)) (λ c', core c' ∧ down (L ++ [LDestroyed]) c').
Proof.
  intros Hc (Hst & Hev & Hip & Hl & Hd) HL.
  assert (inPoller_ c = true) as Hip1.
  { rewrite Hip. apply bool_decide_eq_true. by apply closed_life_not_destroyed. }
  unfold removeChannel, Channel.remove, isNoneEvent, loop_removeChannel. unfold ev in Hev. rewrite Hev.
  cbn [put_channel set_channel inPoller_]. rewrite Hip1. pass_asserts. cbn [safely].
  set (c1 := set_inPoller _ false). split.
  - apply core_log; try done. by eapply core_same.
  - split_and!; try done.
    + cbn. symmetry. apply bool_decide_eq_false. intros Hn. apply Hn, elem_of_app. right.
      by apply list_elem_of_singleton.
    + rewrite life_log. f_equal. exact Hl.
    + apply elem_of_app. by left.
Qed.

Lemma destroyed_inv L c : closed_life L → core c ∧ down (L ++ [LDestroyed]) c → inv c.
Proof. intros HL [Hc Hd]. split; [done|]. right; right. exists (L ++ [LDestroyed]). split; [done|right; by exists L]. Qed.

(** Destroying a connection that has closed by itself. *)
Lemma destroy_closed L c :
  core c → down L c → closed_life L →
  safely (connectDestroyed u c) (λ c', core c' ∧ down (L ++ [LDestroyed]) c').
Proof.
  intros Hc Hd HL. unfold connectDestroyed. rewrite (down_not_open L) by done. cbn [obind].
  by apply (removeChannel_ok L).
Qed.

Lemma destroy_ok c : plays → inv c → legal OpDestroy c → safely (connectDestroyed u c) inv.
Proof.
  intros Hp [Hc Hph] [Hnc Hnd]. unfold connectDestroyed.
  destruct (phase_not_connecting c Hph Hnc) as [Hl|(L & Hd & [HL|(L' & HL' & ->)])].
  - rewrite live_open by done.
    destruct (live_disableAll c _ Hc Hl (disableAll_eq _)) as (Hc1 & Hst1 & Hev1 & Hip1 & Hl1 & _).
    rewrite disableAll_eq. cbn [obind]. set (c1 := set_inPoller _ _) in *.
    eapply safely_bind; [apply (call_down [LUp]); try done; by intros ?%list_elem_of_singleton|].
    intros c2 (Hc2 & Hd2 & _). eapply safely_mono; [apply (removeChannel_ok [LUp; LDown]); [done|done|by left]|].
    intros c3. apply destroyed_inv. by left.
  - eapply safely_mono; [by apply (destroy_closed L)|]. intros c3. by apply destroyed_inv.
  - destruct Hnd. destruct Hd as (_ & _ & _ & Hl & _). rewrite (life_in_log LDestroyed c _ eq_refl Hl).
    apply elem_of_app. right. by apply list_elem_of_singleton.
Qed.

Lemma handleWrite_any c :
  core c → live_or_down c → safely (handleWrite kernel_write u c) (keeps live_or_down c).
Proof using kernel_ok.
  intros Hc [Hl|(L & Hd & HL)].
  - eapply safely_mono; [by apply handleWrite_ok|]. apply keeps_live.
  - unfold handleWrite. destruct Hd as (? & Hev & ?). rewrite (isWriting_none _ Hev). cbn.
    split_and!; [done|right; by exists L|done].
Qed.

(** Events come to live connections only. *)
Lemma event_live c revents rd : inv c → event_ok c revents rd → live c.
Proof. intros [_ [(_ & _ & Hx & _)|[Hl|(L & (_ & Hx & _) & _)]]] (Hne & _); done. Qed.

Lemma event_dispatch_ok c revents t rd :
  plays → inv c → legal (OpEvent revents t rd) c →
  safely (exec kernel_write u (OpEvent revents t rd) c) settled.
Proof using kernel_ok.
  intros Hp Hi Hev. pose proof (event_live c revents rd Hi Hev) as Hl.
  destruct Hi as [Hc Hph]. destruct Hev as (Hne & Hin & Hout & Hhup & Hrd). cbn [exec]. set (c0 := set_channel c _).
  assert (core c0 ∧ live c0) as [Hc0 Hl0] by (split; [by eapply core_same|done]).
  set (c1 := put_channel (set_eventHandling (channel_ c0) true) c0).
  assert (core c1 ∧ live c1 ∧ rv c1 = revents) as (Hc1 & Hl1 & Hr1) by (split_and!; [by eapply core_same|done|done]).
  assert (safely (handleEventWithGuard channel_ put_channel (channel_callbacks kernel_write u rd) t c0) settled) as Hguard.
  2:{ unfold handleEvent. by destruct (tied_ _). }
  unfold handleEventWithGuard. cbv zeta. fold c1. fold (rv c1). rewrite Hr1.
  cbn [channel_callbacks closeCallback_ errorCallback_ readCallback_ writeCallback_ fmap option_fmap option_map call].
  (* after the close and the error callbacks: still live when something will be read *)
  eapply (safely_bind _ _ (λ c2, core c2 ∧ live_or_down c2 ∧ rv c2 = revents ∧
    (bit revents (Z.lor (Z.lor POLLIN POLLPRI) POLLRDHUP) = true →
       live c2 ∧ inputBuffer_ c2 = inputBuffer_ c))).
  { destruct (bit revents POLLHUP && negb (bit revents POLLIN)) eqn:Hb.
    - apply andb_true_iff in Hb as [Hb1 Hb2]. apply negb_true_iff in Hb2.
      eapply safely_mono; [by apply (handleClose_safe c1)|].
      intros c2 (? & ? & Hr2). split_and!; [done|done|congruence|].
      intros Hread. apply Hin in Hread. rewrite (Hhup Hb1 Hread) in Hb2. done.
    - cbn. split_and!; [done|by left|done|]. intros _. by split. }
  intros c2 (Hc2 & Hl2 & Hr2 & Hread). fold (rv c2). rewrite Hr2.
  unfold handleError.
  replace (if bit revents POLLERR || bit revents POLLNVAL then Ok c2 else Ok c2) with (Ok c2) by (by destruct (_ || _)).
  cbn [obind]. fold (rv c2). rewrite Hr2.
  eapply (safely_bind _ _ (λ c3, core c3 ∧ live_or_down c3 ∧ rv c3 = revents)).
  { destruct (bit revents _) eqn:Hb.
    - destruct (Hread eq_refl) as [Hl2' Hi2].
      eapply safely_mono; [apply handleRead_ok; [done|done|done|by rewrite Hi2]|].
      intros c3 (? & ? & Hr3). split_and!; [done|done|congruence].
    - done. }
  intros c3 (Hc3 & Hl3 & Hr3). fold (rv c3). rewrite Hr3.
  eapply (safely_bind _ _ (λ c4, core c4 ∧ live_or_down c4)).
  { destruct (bit revents POLLOUT); [|done].
    eapply safely_mono; [by apply handleWrite_any|]. by intros c4 (? & ? & _). }
  intros c4 (Hc4 & Hl4). split; [by eapply core_same|].
  destruct Hl4 as [?|(L & ? & ?)]; [by left|right; by exists L].
Qed.

Lemma inv_queue f c :
  inv c → state_ c ≠ kConnecting → (∀ m, f = FSend m → len m ≤ vector_max_size) → inv (queueInLoop f c).
Proof.
  intros [Hc Hph] Hnc Hf. split; [by apply core_queue|].
  destruct (phase_not_connecting c Hph Hnc) as [?|(L & ? & ?)]; [by right; left|by right; right; exists L].
Qed.

Lemma inv_disconnecting c : inv c → open c = true → core (setState c kDisconnecting) ∧ live (setState c kDisconnecting).
Proof.
  intros [Hc Hph] Ho. split; [by eapply core_same|].
  destruct Hph as [(Hx & _)|[Hl|(L & Hd & _)]].
  - unfold open in Ho. by rewrite Hx in Ho.
  - by apply live_setState; [|right].
  - by rewrite (down_not_open L) in Ho.
Qed.

Lemma connected_open c : connected c = true → open c = true.
Proof. unfold connected, open. by intros ->. Qed.

Lemma live_inv c : core c → live c → inv c.
Proof. intros. split; [done|by right; left]. Qed.

Lemma elsewhere_ok f c :
  inv c → legal (OpElsewhere f) c → safely (elsewhere kernel_write u f c) inv.
Proof.
  intros Hi [Hnc Hlen]. destruct f; cbn [elsewhere]; try done.
  - unfold send. destruct (negb (connected c)); [done|]. cbn. by apply inv_queue.
  - unfold shutdown. destruct (connected c) eqn:Hconn; [|done]. cbn.
    destruct (inv_disconnecting c Hi (connected_open c Hconn)) as [Hc1 Hl1].
    apply (inv_queue FShutdown (setState c kDisconnecting)); [by apply live_inv|done|done].
  - unfold forceClose. destruct (open c) eqn:Ho; [|done]. cbn.
    destruct (inv_disconnecting c Hi Ho) as [Hc1 Hl1].
    apply (inv_queue FForceClose (setState c kDisconnecting)); [by apply live_inv|done|done].
  - by apply inv_queue.
  - by apply inv_queue.
Qed.

Lemma plays_down L f c : plays1 f → core c → down L c → safely (f c) (keeps (down L) c).
Proof. apply down_plays. Qed.

(** A callback or a functor in a connection that is live, or down in any way. *)
Definition stable (g : TcpConnection → outcome TcpConnection) : Prop :=
  (∀ c, core c → live c → safely (g c) (keeps live_or_down c)) ∧
  (∀ L c, core c → down L c → safely (g c) (keeps (down L) c)).

Lemma stable_inv g c :
  stable g → inv c → state_ c ≠ kConnecting → safely (g c) inv.
Proof.
  intros [H1 H2] [Hc Hph] Hnc. destruct (phase_not_connecting c Hph Hnc) as [Hl|(L & Hd & HL)].
  - eapply safely_mono; [by apply H1|]. apply keeps_inv.
  - eapply safely_mono; [by apply (H2 L)|]. intros c' (? & ? & _). split; [done|]. right; right. eauto.
Qed.

Lemma down_log L c e : down L c → is_life e = false → down L (log c e).
Proof.
  intros (H1 & H2 & H3 & H4 & H5) He. split_and!; try done. by rewrite life_log, He, app_nil_r.
Qed.

Lemma down_has_down L c : down L c → LDown ∈ log_ c.
Proof. intros (_ & _ & _ & Hl & Hd). by apply (life_in_log LDown c L eq_refl Hl). Qed.

Lemma callback_stable f e :
  plays → plays1 f → is_life e = false → writes [e] = [] → sends [e] = [] → e ≠ LFin →
  (∀ n, e ≠ LMessage n) → stable (λ c, f (log c e)).
Proof using kernel_ok.
  intros Hp Hf He Hw Hs Hnf Hnm. split.
  - intros c Hc Hl. refine (plays_ok f (log c e) Hp Hf _ _); [|left; by apply live_log].
    apply core_log; [done|done|done|done|]. intros n ->. by destruct (Hnm n).
  - intros L c Hc Hd. refine (down_plays L f (log c e) Hf _ _); [|by apply down_log].
    apply core_log; [done|done|done|done|]. intros n ->. by destruct (Hnm n).
Qed.

Lemma stable_ok c : core c → live_or_down c → keeps live_or_down c c.
Proof. by intros. Qed.

(** Every functor but those of [startRead] and [stopRead]. *)
Lemma functor_stable f :
  plays → (∀ m, f = FSend m → len m ≤ vector_max_size) → f ≠ FStartRead → f ≠ FStopRead →
  stable (runFunctor kernel_write u f).
Proof using kernel_ok.
  intros Hp Hlen Hs1 Hs2. destruct f as [m| | | | | |n]; try done; unfold runFunctor.
  - split.
    + intros c0 Hc Hl. eapply safely_mono; [apply sendInLoop_ok; [done|done|by apply Hlen]|]. apply keeps_live.
    + intros L c0 Hc Hd. unfold sendInLoop. rewrite bool_decide_true by apply Hd. cbn.
      split_and!; [by apply core_log|by apply down_log|done].
  - split.
    + intros c0 Hc Hl. eapply safely_mono; [by apply shutdownInLoop_ok|]. apply keeps_live.
    + intros L c0 Hc Hd. unfold shutdownInLoop. rewrite isWriting_none by apply Hd. cbn.
      split_and!; [|by apply down_log|done]. apply core_log; try done.
      intros _ Hn. by apply down_has_down in Hd.
  - split.
    + intros c0 Hc Hl. unfold forceCloseInLoop. rewrite live_open by done. by apply handleClose_safe.
    + intros L c0 Hc Hd. unfold forceCloseInLoop. by rewrite (down_not_open L).
  - destruct (writeCompleteCallback_ u) as [f|] eqn:Hf.
    + apply callback_stable; try done. by eapply pl_wc.
    + split; intros; [by split_and!; [..|left|]|by split_and!].
  - destruct (highWaterMarkCallback_ u) as [f|] eqn:Hf.
    + apply (callback_stable (f n)); try done. by eapply pl_hwm.
    + split; intros; [by split_and!; [..|left|]|by split_and!].
Qed.

Lemma functor_ok f c :
  plays → inv c → state_ c ≠ kConnecting → (∀ m, f = FSend m → len m ≤ vector_max_size) →
  (f = FStartRead ∨ f = FStopRead → state_ c ≠ kDisconnected) →
  safely (runFunctor kernel_write u f c) inv.
Proof using kernel_ok.
  intros Hp Hi Hnc Hlen Hread.
  assert (f = FStartRead ∨ f = FStopRead → core c ∧ live c) as Hlive.
  { intros Hf. destruct Hi as [Hc Hph]. split; [done|].
    destruct (phase_not_connecting c Hph Hnc) as [?|(L & (Hx & _) & _)]; [done|]. by destruct (Hread Hf). }
  assert (f ≠ FStartRead → f ≠ FStopRead → safely (runFunctor kernel_write u f c) inv) as Hst.
  { intros H1 H2. apply stable_inv; [by apply functor_stable|done|done]. }
  destruct f; try by apply Hst.
  - destruct (Hlive ltac:(by left)) as [Hc Hl].
    eapply safely_mono; [by apply startReadInLoop_ok|]. intros c' H. by apply (keeps_inv c), keeps_live.
  - destruct (Hlive ltac:(by right)) as [Hc Hl].
    eapply safely_mono; [by apply stopReadInLoop_ok|]. intros c' H. by apply (keeps_inv c), keeps_live.
Qed.

Lemma inv_pop f l c : inv c → pending_ c = f :: l → inv (set_pending c l).
Proof.
  intros [Hc Hph] Hq. split.
  - destruct Hc as [? ? ? ? ? Hp]. split; try done. intros m Hm. apply Hp. rewrite Hq. by right.
  - destruct Hph as [(_ & _ & _ & _ & Hx)|[Hl|(L & Hd & HL)]]; [congruence|by right; left|by right; right; exists L].
Qed.

Lemma exec_ok o c :
  plays → inv c → legal o c → safely (exec kernel_write u o c) inv.
Proof using kernel_ok.
  intros Hp Hi Hl. destruct o as [| |revents t rd|a|f| |]; cbn [exec].
  - eapply safely_mono; [by apply establish_ok|apply settled_inv].
  - by apply destroy_ok.
  - eapply safely_mono; [by apply event_dispatch_ok|apply settled_inv].
  - destruct Hl as [Hnc Ha]. apply stable_inv; [|done|done]. split.
    + intros c0 Hc0 Hl0. by apply live_act.
    + intros L c0 Hc0 Hd0. by apply down_act.
  - by apply elsewhere_ok.
  - destruct (pending_ c) as [|f l] eqn:Hq; [done|].
    assert (state_ c ≠ kConnecting) as Hnc.
    { intros Hst. destruct Hi as [_ [(_ & _ & _ & _ & Hx)|[([Hx|Hx] & _)|(L & (Hx & _) & _)]]]; congruence. }
    apply functor_ok; [done|by eapply inv_pop|done| |].
    + intros m ->. destruct Hi as [Hc _]. apply (k_pend _ _ Hc). rewrite Hq. by left.
    + intros Hf. by apply (Hl f l).
  - destruct (delayed_ c) as [|n]; [done|]. unfold forceClose.
    destruct (open (set_delayed c n)) eqn:Ho.
    + unfold forceCloseInLoop. change (open (set_delayed c n)) with (open c) in Ho.
      destruct (inv_disconnecting c Hi Ho) as [Hc1 Hl1].
      assert (live (setState (set_delayed c n) kDisconnecting)) as Hl2 by done.
      rewrite live_open by done.
      eapply safely_mono; [apply (handleClose_safe (setState (set_delayed c n) kDisconnecting)); [done|by eapply core_same|done]|].
      apply keeps_inv.
    + destruct Hi as [Hc Hph]. split; [by eapply core_same|].
      destruct Hph as [?|[?|(L & ? & ?)]]; [by left|by right; left|by right; right; exists L].
Qed.

(** *** Nothing but the owner establishes or destroys *)

(** From a live connection to one that is live or has closed by itself; a
    connection that is down stays down the same way. *)
Definition follows (c c' : TcpConnection) : Prop :=
  (live c → settled c') ∧ (∀ L, down L c → core c' ∧ down L c').

Lemma live_not_down L c : live c → down L c → False.
Proof. intros ([H|H] & _) (H' & _); congruence. Qed.

Lemma stable_follows g c :
  stable g → inv c → state_ c ≠ kConnecting → safely (g c) (follows c).
Proof.
  intros [H1 H2] [Hc Hph] Hnc. destruct (phase_not_connecting c Hph Hnc) as [Hl|(L & Hd & _)].
  - eapply safely_mono; [by apply H1|]. intros c' (Hc' & Hl' & _). split; [by split|].
    intros L Hd. by destruct (live_not_down L c).
  - destruct (g c) as [c'|e] eqn:E.
    + cbn. split; [intros Hl; by destruct (live_not_down L c)|]. intros L' Hd'.
      pose proof (H2 L' c Hc Hd') as H. rewrite E in H. cbn in H. by destruct H as (? & ? & _).
    + pose proof (H2 L c Hc Hd) as H. by rewrite E in H.
Qed.

Lemma live_follows g c :
  live c → safely (g c) settled → safely (g c) (follows c).
Proof.
  intros Hl Hg. eapply safely_mono; [exact Hg|]. intros c' Hs. split; [done|].
  intros L Hd. by destruct (live_not_down L c).
Qed.

Lemma queue_stable f : (∀ m, f = FSend m → len m ≤ vector_max_size) → stable (λ c, Ok (queueInLoop f c)).
Proof.
  intros Hf. split; intros; cbn; split_and!; try done; try (by apply core_queue); by left.
Qed.

Lemma elsewhere_follows f c :
  inv c → legal (OpElsewhere f) c → safely (elsewhere kernel_write u f c) (follows c).
Proof.
  intros Hi [Hnc Hlen]. apply (stable_follows (elsewhere kernel_write u f)); [|done|done].
  pose proof (queue_stable f Hlen) as [Q1 Q2].
  assert (∀ c, core c → live c → keeps live_or_down c c) as Hsame by (intros; by split_and!; [..|left|]).
  assert (∀ c, core c → live c → open c = true → safely (Ok (queueInLoop f (setState c kDisconnecting))) (keeps live_or_down c)) as Hdis.
  { intros c0 Hc Hl Ho. assert (core (setState c0 kDisconnecting)) by (by eapply core_same).
    assert (live (setState c0 kDisconnecting)) by (by apply live_setState; [|right]). by apply (Q1 (setState c0 kDisconnecting)). }
  destruct f; split; intros; cbn [elsewhere]; try done; try (by apply Hsame); try (by apply Q1); try (by apply Q2).
  - unfold send. destruct (negb _); [by apply Hsame|by apply Q1].
  - unfold send. unfold connected. rewrite bool_decide_false by (destruct H0 as (-> & _); done). done.
  - unfold shutdown. destruct (connected c0) eqn:Hconn; [apply Hdis; try done; by apply connected_open|by apply Hsame].
  - unfold shutdown. unfold connected. rewrite bool_decide_false by (destruct H0 as (-> & _); done). done.
  - unfold forceClose. destruct (open c0) eqn:Ho; [by apply Hdis|by apply Hsame].
  - unfold forceClose. by rewrite (down_not_open L).
Qed.

Lemma exec_follows o c :
  plays → inv c → legal o c → o ≠ OpEstablish → o ≠ OpDestroy → safely (exec kernel_write u o c) (follows c).
Proof using kernel_ok.
  intros Hp Hi Hl He Hd. destruct o as [| |revents t rd|a|f| |]; try done; cbn [exec].
  - pose proof (event_live c revents rd Hi Hl) as Hlive.
    refine (live_follows (exec kernel_write u (OpEvent revents t rd)) c Hlive _). by apply event_dispatch_ok.
  - destruct Hl as [Hnc Ha]. apply stable_follows; [|done|done]. split.
    + intros c0 Hc0 Hl0. by apply live_act.
    + intros L c0 Hc0 Hd0. by apply down_act.
  - by apply elsewhere_follows.
  - destruct (pending_ c) as [|f l] eqn:Hq.
    { cbn. split; [|intros L HL]; split; try done; try apply Hi. by left. }
    pose proof (inv_pop f l c Hi Hq) as Hi'.
    assert (state_ (set_pending c l) ≠ kConnecting) as Hnc.
    { cbn. intros Hst. destruct Hi as [_ [(_ & _ & _ & _ & Hx)|[([Hx|Hx] & _)|(L & (Hx & _) & _)]]]; congruence. }
    assert (∀ m, f = FSend m → len m ≤ vector_max_size) as Hlen.
    { intros m ->. destruct Hi as [Hc _]. apply (k_pend _ _ Hc). rewrite Hq. by left. }
    assert ((f = FStartRead ∨ f = FStopRead) ∨ ¬ (f = FStartRead ∨ f = FStopRead)) as [Hf|Hf]
      by (destruct f; first [left; by auto|right; by intros [?|?]]).
    + assert (live (set_pending c l)) as Hlive.
      { destruct Hi' as [_ Hph]. destruct (phase_not_connecting _ Hph Hnc) as [?|(L & (Hx & _) & _)]; [done|].
        by destruct (Hl f l Hq Hf). }
      refine (safely_mono _ _ _ (live_follows (runFunctor kernel_write u f) _ Hlive _) _); [|done].
      destruct Hf as [-> | ->]; (eapply safely_mono; [first [apply startReadInLoop_ok|apply stopReadInLoop_ok]; (done || apply Hi')|]);
        intros c' (? & ? & _); (split; [done|by left]).
    + refine (safely_mono _ _ _ (stable_follows (runFunctor kernel_write u f) _ _ Hi' Hnc) _); [|done].
      apply functor_stable; [done|done|by intros ->; apply Hf; left|by intros ->; apply Hf; right].
  - destruct (delayed_ c) as [|n].
    { cbn. split; [|intros L HL]; split; try done; try apply Hi. by left. }
    unfold forceClose. destruct (open (set_delayed c n)) eqn:Ho.
    + change (open (set_delayed c n)) with (open c) in Ho.
      destruct (inv_disconnecting c Hi Ho) as [Hc1 Hl1].
      assert (live c) as Hlive.
      { destruct Hi as [_ [(Hx & _)|[?|(L & HL & _)]]]; [|done|by rewrite (down_not_open L) in Ho].
        unfold open in Ho. by rewrite Hx in Ho. }
      refine (live_follows (λ c, forceCloseInLoop u (setState (set_delayed c n) kDisconnecting)) c Hlive _).
      unfold forceCloseInLoop.
      assert (live (setState (set_delayed c n) kDisconnecting)) as Hl2 by done.
      rewrite live_open by done.
      eapply safely_mono; [apply (handleClose_safe (setState (set_delayed c n) kDisconnecting)); [done|by eapply core_same|done]|].
      by intros c' (? & ? & _).
    + destruct Hi as [Hc Hph]. cbn. split; [intros Hlive|intros L HL]; (split; [by eapply core_same|]); [by left|done].
Qed.

Lemma new_inv fd input output :
  wf input → wf output → content output = [] → inv (newConnection fd input output).
Proof.
  intros Hi Ho Hout. split; [|by left]. split; cbn; try done.
  - intros l1 l2 Heq. by destruct l1.
  - intros l1 n l2 Heq. by destruct l1.
  - intros m Hm. by apply elem_of_nil in Hm.
Qed.

Lemma settled_closed c : settled c → LClose ∈ log_ c → core c ∧ down [LUp; LDown; LClose] c.
Proof.
  intros [Hc [(_ & _ & _ & Hl)|(L & Hd & HL)]] Hin.
  - apply (elem_of_life LClose) in Hin; [|done]. rewrite Hl in Hin. by apply list_elem_of_singleton in Hin.
  - destruct HL as [-> | ->]; [|by split]. destruct Hd as (_ & _ & _ & Hl & _).
    apply (elem_of_life LClose) in Hin; [|done]. rewrite Hl in Hin.
    apply elem_of_cons in Hin as [?|Hin]; [done|]. by apply list_elem_of_singleton in Hin.
Qed.

Lemma down_log_close L c : down L c → LClose ∈ L → LClose ∈ log_ c.
Proof. intros (_ & _ & _ & Hl & _) Hin. apply (elem_of_life LClose); [done|]. by rewrite Hl. Qed.

Lemma life_member c L e : life (log_ c) = L → is_life e = true → e ∉ L → e ∉ log_ c.
Proof. intros <- He Hn Hin. apply Hn. by apply (elem_of_life e (log_ c) He). Qed.

Lemma reachable_inv fd c : plays → reachable fd c → inv c.
Proof using kernel_ok.
  intros Hp. induction 1 as [input output ? ? ?|c o c' _ IH Hl He]; [by apply new_inv|].
  by eapply safely_ok; [apply exec_ok|].
Qed.

(** C1. The byte stream is intact. In every reachable state what the kernel
    has accepted, followed by what the output buffer holds, is exactly the
    concatenation of the messages the connection has taken over, in order and
    each whole; while the connection is open the channel waits to write
    exactly when something is buffered; and whenever the write side is shut
    down (before the connection is down) every byte taken over so far has been
    accepted by the kernel. *)
Theorem connection_stream fd c :
  plays → reachable fd c →
  writes (log_ c) ++ content (outputBuffer_ c) = sends (log_ c) ∧
  (open c = true → isWriting (channel_ c) = true ↔ content (outputBuffer_ c) ≠ []) ∧
  (∀ l1 l2, log_ c = l1 ++ LFin :: l2 → LDown ∉ l1 → writes l1 = sends l1).
Proof using kernel_ok.
  intros Hp Hr. destruct (reachable_inv fd c Hp Hr) as [Hc Hph]. split_and!.
  - by rewrite (k_stream _ _ Hc), app_nil_r.
  - intros Ho. destruct Hph as [(Hx & _)|[Hl|(L & Hd & _)]]; [|apply Hl|].
    + unfold open in Ho. by rewrite Hx in Ho.
    + by rewrite (down_not_open L) in Ho.
  - apply (k_fin _ _ Hc).
Qed.

(** C2. The life cycle. The user sees a connection go up at most once, then
    down at most once, then the owner its closing and its end, each at most
    once and in this order; [kConnecting] is before up and [kDisconnected] is
    exactly after down; and messages are delivered only in between. *)
Theorem connection_lifecycle fd c :
  plays → reachable fd c →
  life (log_ c) `sublist_of` [LUp; LDown; LClose; LDestroyed] ∧
  (state_ c = kConnecting ↔ LUp ∉ log_ c) ∧ (state_ c = kDisconnected ↔ LDown ∈ log_ c) ∧
  (∀ l1 n l2, log_ c = l1 ++ LMessage n :: l2 → LUp ∈ l1 ∧ LDown ∉ l1).
Proof using kernel_ok.
  intros Hp Hr. destruct (reachable_inv fd c Hp Hr) as [Hc Hph].
  rewrite (elem_of_life LUp (log_ c)), (elem_of_life LDown (log_ c)) by done.
  assert (∀ st L, state_ c = st → life (log_ c) = L → L `sublist_of` [LUp; LDown; LClose; LDestroyed] →
    (st = kConnecting ↔ LUp ∉ L) → (st = kDisconnected ↔ LDown ∈ L) →
    life (log_ c) `sublist_of` [LUp; LDown; LClose; LDestroyed] ∧
    (state_ c = kConnecting ↔ LUp ∉ life (log_ c)) ∧ (state_ c = kDisconnected ↔ LDown ∈ life (log_ c)) ∧
    (∀ l1 n l2, log_ c = l1 ++ LMessage n :: l2 → LUp ∈ l1 ∧ LDown ∉ l1)) as Hgen.
  { intros st L -> -> H1 H2 H3. split_and!; [done|done|done|apply (k_msg _ _ Hc)]. }
  destruct Hph as [(Hst & Hlog & _)|[([Hst|Hst] & _ & _ & Hl)|(L & (Hst & _ & _ & Hl & _) & HL)]].
  - apply (Hgen _ [] Hst); [by rewrite Hlog|apply sublist_nil_l|by apply (bool_decide_unpack _)..].
  - apply (Hgen _ _ Hst Hl); [repeat constructor|by apply (bool_decide_unpack _)..].
  - apply (Hgen _ _ Hst Hl); [repeat constructor|by apply (bool_decide_unpack _)..].
  - destruct HL as [[->| ->]|(L' & [->| ->] & ->)];
      (apply (Hgen _ _ Hst Hl); [repeat constructor|by apply (bool_decide_unpack _)..]).
Qed.

(** C3. No assert of the connection or its channel fails: in every reachable
    state every legal operation returns, or a buffer cannot grow any more
    ([std::length_error] at 2^63 bytes). *)
Theorem connection_never_aborts fd c o :
  plays → reachable fd c → legal o c →
  (∃ c', exec kernel_write u o c = Ok c') ∨ exec kernel_write u o c = Fault LengthError.
Proof using kernel_ok.
  intros Hp Hr Hl.
  destruct (safely_cases _ _ (exec_ok o c Hp (reachable_inv fd c Hp Hr) Hl)) as [(c' & ? & _)|?]; eauto.
Qed.

(** *** The output drains *)

Fixpoint write_events (k : nat) (c : TcpConnection) : outcome TcpConnection :=
  match k with
  | O => Ok c
  | S k' => let! c' := handleWrite kernel_write u c in write_events k' c'
  end.

Lemma handleWrite_progress c :
  core c → live c → isWriting (channel_ c) = true →
  (∀ i d, d ≠ [] → ∃ n, kernel_write i d = WOk n ∧ 0 < n) →
  ∃ c' n, handleWrite kernel_write u c = Ok c' ∧ (0 < n)%nat ∧ state_ c' = state_ c ∧
    content (outputBuffer_ c') = drop n (content (outputBuffer_ c)) ∧
    (content (outputBuffer_ c') = [] → state_ c = kDisconnecting → LFin ∈ log_ c').
Proof using kernel_ok.
  intros Hc Hl Hw Hk. assert (content (outputBuffer_ c) ≠ []) as Hne by (by apply Hl).
  unfold handleWrite. rewrite Hw. cbn [negb]. unfold sockets_write.
  rewrite readableSpan_eq by apply Hc. set (q := content (outputBuffer_ c)) in *.
  destruct (Hk (writes_ c) q Hne) as (n & Hn & Hpos). rewrite Hn. apply kernel_ok in Hn as Hle.
  rewrite (proj2 (Z.ltb_lt 0 n) Hpos). cbn [outputBuffer_ log count_write].
  destruct (ensures_ok _ _ (retrieve_ok n (outputBuffer_ c) (k_out _ _ Hc) ltac:(fold q; lia)))
    as (out & -> & Hwf & Hcont & _). fold q in Hcont. cbn [obind]. cbv zeta.
  change (outputBuffer_ (set_output _ out)) with out. rewrite readable_len by done.
  destruct (Z.eqb_spec (len (content out)) 0) as [Hz|Hnz].
  - assert (content out = []) as Hnil by (destruct (content out); [done|unfold len in Hz; cbn in Hz; lia]).
    rewrite disableWriting_eq. cbn [obind]. set (c2 := set_inPoller _ true).
    set (c3 := if isSome _ then _ else c2).
    assert (state_ c3 = state_ c ∧ outputBuffer_ c3 = out ∧ channel_ c3 = channel_ c2) as (Hs3 & Ho3 & Hch3)
      by (unfold c3; by destruct (isSome _)).
    rewrite Hs3. case_bool_decide as Hd.
    + unfold shutdownInLoop. rewrite Hch3.
      assert (isWriting (channel_ c2) = false) as -> by apply (events_masks (channel_ c)). cbn [negb].
      exists (log c3 LFin), (Z.to_nat n). cbn. rewrite Ho3. split_and!; [done|lia|done|done|].
      intros _ _. apply elem_of_app. right. by apply list_elem_of_singleton.
    + exists c3, (Z.to_nat n). rewrite Ho3. split_and!; [done|lia|done|done|]. done.
  - eexists _, (Z.to_nat n). split_and!; [done|lia|done|done|].
    cbn. intros Heq. by rewrite Heq in Hnz.
Qed.

(** C6. A connection whose peer keeps reading drains: if every [::write] takes
    at least one byte, then after at most as many write events as there are
    bytes buffered the output buffer is empty and, when [shutdown] was called
    meanwhile, the write side has been shut down with every byte before it. *)
Theorem connection_drains fd c :
  plays → reachable fd c → open c = true → content (outputBuffer_ c) ≠ [] →
  (∀ i d, d ≠ [] → ∃ n, kernel_write i d = WOk n ∧ 0 < n) →
  ∃ k c', (k ≤ length (content (outputBuffer_ c)))%nat ∧ write_events k c = Ok c' ∧
    content (outputBuffer_ c') = [] ∧ writes (log_ c') = sends (log_ c') ∧
    (state_ c = kDisconnecting → LFin ∈ log_ c').
Proof using kernel_ok.
  intros Hp Hr Ho Hne Hk. destruct (reachable_inv fd c Hp Hr) as [Hc Hph].
  assert (live c) as Hl.
  { destruct Hph as [(Hx & _)|[Hl|(L & Hd & _)]]; [|done|by rewrite (down_not_open L) in Ho].
    unfold open in Ho. by rewrite Hx in Ho. }
  clear Hr Hph Ho. remember (length (content (outputBuffer_ c))) as len eqn:Hlen.
  revert c Hc Hl Hne Hlen. induction (lt_wf len) as [len _ IH]. intros c Hc Hl Hne Hlen.
  destruct (handleWrite_progress c Hc Hl) as (c1 & n & Hw & Hpos & Hst & Hcont & Hfin); [by apply Hl|done|].
  pose proof (handleWrite_ok c Hc Hl) as Hok. rewrite Hw in Hok. destruct Hok as (Hc1 & Hl1 & _).
  destruct (content (outputBuffer_ c1)) as [|b q] eqn:Hq.
  - exists 1%nat, c1. cbn [write_events]. rewrite Hw. cbn. split_and!; [|done|done| |by apply Hfin].
    + destruct (content (outputBuffer_ c)); [done|cbn in Hlen; lia].
    + pose proof (k_stream _ _ Hc1) as Hs. rewrite Hq in Hs. by rewrite !app_nil_r in Hs.
  - destruct (IH (length (b :: q)) ltac:(rewrite Hcont, length_drop in *;
        destruct (content (outputBuffer_ c)); [done|cbn in *; lia]) c1 Hc1 Hl1 ltac:(by rewrite Hq) ltac:(by rewrite Hq))
      as (k & c2 & Hle & Hrun & He & Hwr & Hf).
    exists (S k), c2. cbn [write_events]. rewrite Hw. cbn [obind]. split_and!; [|done|done|done|].
    + rewrite Hcont, length_drop in Hle. destruct (content (outputBuffer_ c)); [done|cbn in *; lia].
    + intros Hd. apply Hf. by rewrite Hst.
Qed.
End Correct.

(** ** The theorems at concrete inputs *)

(** A kernel whose socket buffer takes three bytes at a time, and a user who
    sends a greeting when the connection comes up and closes it in the end. *)
Definition sample_kernel (i : nat) (d : bytes) : write_reply := WOk (Z.min 3 (len d)).
Definition quiet_user : user := mkUser None None None None None.
Definition sample_user : user :=
  mkUser (Some (λ c, send sample_kernel quiet_user true (str "hello") c)) None None None None.

Lemma sample_kernel_ok i d n : sample_kernel i d = WOk n → 0 ≤ n ≤ len d.
Proof. intros [= <-]. pose proof (len_nonneg d). lia. Qed.

Lemma sample_plays : plays sample_kernel sample_user.
Proof.
  split; try done. intros f [= <-] c. exists [ASend (str "hello")]. split; [by repeat constructor|].
  change (send sample_kernel quiet_user true (str "hello") c =
          obind (send sample_kernel quiet_user true (str "hello") c) Ok).
  by destruct (send _ _ _ _ _).
Qed.

Definition conn_buffer : Buffer := mkBuffer (replicate 64 Byte.x00) 8 8.
Definition sample_new : TcpConnection := newConnection 9 conn_buffer conn_buffer.

Definition after (l : list op) (c : TcpConnection) : TcpConnection :=
  match foldM (exec sample_kernel sample_user) l c with Ok c' => c' | Fault _ => c end.

Lemma conn_buffer_wf : wf conn_buffer.
Proof. by split. Qed.

Definition sample_up : TcpConnection := after [OpEstablish] sample_new.
Definition sample_closing : TcpConnection := after [OpEstablish; OpHere AShutdown] sample_new.

Lemma sample_up_reachable : reachable sample_kernel sample_user 9 sample_up.
Proof.
  apply (reach_step _ _ _ sample_new OpEstablish); [|done|by vm_compute].
  by apply reach_new; [apply conn_buffer_wf..|].
Qed.

Lemma sample_closing_reachable : reachable sample_kernel sample_user 9 sample_closing.
Proof. by apply (reach_step _ _ _ sample_up (OpHere AShutdown)); [apply sample_up_reachable|done|vm_compute]. Qed.

Lemma connection_stream_witness :
  writes (log_ sample_up) ++ content (outputBuffer_ sample_up) = sends (log_ sample_up) ∧
  (open sample_up = true →
     isWriting (channel_ sample_up) = true ↔ content (outputBuffer_ sample_up) ≠ []) ∧
  (∀ l1 l2, log_ sample_up = l1 ++ LFin :: l2 → LDown ∉ l1 → writes l1 = sends l1).
Proof.
  apply (connection_stream sample_kernel sample_user sample_kernel_ok 9);
    [apply sample_plays|apply sample_up_reachable].
Defined.

Lemma connection_lifecycle_witness :
  life (log_ sample_up) `sublist_of` [LUp; LDown; LClose; LDestroyed] ∧
  (state_ sample_up = kConnecting ↔ LUp ∉ log_ sample_up) ∧
  (state_ sample_up = kDisconnected ↔ LDown ∈ log_ sample_up) ∧
  (∀ l1 n l2, log_ sample_up = l1 ++ LMessage n :: l2 → LUp ∈ l1 ∧ LDown ∉ l1).
Proof.
  apply (connection_lifecycle sample_kernel sample_user sample_kernel_ok 9);
    [apply sample_plays|apply sample_up_reachable].
Defined.

(** The peer hangs up while the greeting is still being written. *)
Definition sample_event : op := OpEvent (Z.lor POLLIN (Z.lor POLLHUP POLLOUT)) 77 (ReadOk []).

Lemma connection_never_aborts_witness :
  (∃ c', exec sample_kernel sample_user sample_event sample_up = Ok c') ∨
  exec sample_kernel sample_user sample_event sample_up = Fault LengthError.
Proof.
  apply (connection_never_aborts sample_kernel sample_user sample_kernel_ok 9);
    [apply sample_plays|apply sample_up_reachable|].
  split_and!; by vm_compute.
Defined.

Lemma connection_drains_witness :
  ∃ k c', (k ≤ length (content (outputBuffer_ sample_closing)))%nat ∧
    write_events sample_kernel sample_user k sample_closing = Ok c' ∧
    content (outputBuffer_ c') = [] ∧ writes (log_ c') = sends (log_ c') ∧
    (state_ sample_closing = kDisconnecting → LFin ∈ log_ c').
Proof.
  apply (connection_drains sample_kernel sample_user sample_kernel_ok 9);
    [apply sample_plays|apply sample_closing_reachable|by vm_compute|by vm_compute|].
  intros i d Hd. eexists. split; [done|].
  assert (0 < len d); [|lia]. destruct d; [done|unfold len; cbn; lia].
Defined.

(** ** Uses outside the theorems' conditions *)

(** [forceClose] runs at once in the loop thread, also when the channel is
    still in the loop's list of active channels: the stale event then reads
    the end of the stream and closes a closed connection, which an assert
    stops. *)
Lemma stale_event_aborts :
  exec sample_kernel quiet_user (OpEvent POLLIN 78 (ReadOk []))
    (after [OpEstablish; OpHere AForceClose] sample_new) = Fault AssertFailed.
Proof. by vm_compute. Qed.

(** A [startRead] that another thread queued before the connection went down
    enables the closed channel again, and [connectDestroyed] stops at
    [Channel::remove]'s assert. *)
Lemma late_startRead_aborts :
  foldM (exec sample_kernel quiet_user)
    [OpEstablish; OpElsewhere FStartRead; OpHere AForceClose; OpFunctor; OpDestroy] sample_new =
  Fault AssertFailed.
Proof. by vm_compute. Qed.

(** A message sent from another thread before [shutdown] was called in the
    loop thread is written after the write side was shut down. *)
Lemma shutdown_overtakes_send :
  log_ (after [OpEstablish; OpEvent POLLOUT 1 (ReadOk []); OpElsewhere (FSend (str "bye"));
               OpHere AShutdown; OpFunctor] sample_new) =
  [LUp; LWrite (str "hel"); LSend (str "hello"); LWrite (str "lo"); LFin;
   LWrite (str "bye"); LSend (str "bye")].
Proof. by vm_compute. Qed.
