(* ===== verification/Connection.v ===== *)
(** * Connection: what a connection promises to the protocol on top of it

    The servers and codecs use a [TcpConnection] through a few calls. The class
    [ConnectionOps] lists them, [ConnectionLaws] states what they promise, and
    the instance below shows that [TcpConnection] keeps the promise. The
    clients ([HttpServer], [ProtobufCodecLite], [RpcChannel]) are verified
    against the class. *)
From S2P Require Import Prelude Buffer Channel TcpConnection.
From stdpp Require Import options.

Class ConnectionOps (C S : Type) := {
  conn_connected : S → bool;
  conn_context : S → option C;                       (* any_cast<C>(getMutableContext()) *)
  conn_setContext : C → S → S;
  conn_send : bytes → S → outcome S;
  conn_sendBuffer : Buffer → S → outcome (Buffer * S);
  conn_shutdown : S → outcome S
}.

Class ConnectionLaws (C S : Type) `{ConnectionOps C S} := {
  (** connected, in its loop thread *)
  usable : S → Prop;
  (** the write side has been shut down by this side *)
  finished : S → Prop;
  (** the messages handed to the connection so far *)
  handed : S → list bytes;
  usable_connected s : usable s → conn_connected s = true;
  setContext_law x s :
    usable s → usable (conn_setContext x s) ∧ handed (conn_setContext x s) = handed s ∧
      conn_context (conn_setContext x s) = Some x;
  send_law m s :
    usable s → len m ≤ vector_max_size →
    safely (conn_send m s) (λ s', usable s' ∧ handed s' = handed s ++ [m] ∧ conn_context s' = conn_context s);
  sendBuffer_law b s :
    usable s → wf b →
    safely (conn_sendBuffer b s) (λ '(b', s'), usable s' ∧ handed s' = handed s ++ [content b] ∧
      conn_context s' = conn_context s ∧ wf b' ∧ content b' = []);
  shutdown_law s :
    usable s →
    safely (conn_shutdown s) (λ s', finished s' ∧ handed s' = handed s ∧ conn_context s' = conn_context s);
  finished_send m s : finished s → conn_send m s = Ok s;
  finished_sendBuffer b s : finished s → conn_sendBuffer b s = Ok (b, s);
  finished_shutdown s : finished s → conn_shutdown s = Ok s;
  finished_setContext x s : finished s → finished (conn_setContext x s) ∧
    handed (conn_setContext x s) = handed s ∧ conn_context (conn_setContext x s) = Some x
}.

(** ** [TcpConnection] *)

(** The messages a connection has taken over, whether or not the peer is
    still there. *)
Definition handed_log (l : list event) : list bytes :=
  l ≫= λ e, match e with LSend m | LDrop m => [m] | _ => [] end.

Lemma handed_log_app l k : handed_log (l ++ k) = handed_log l ++ handed_log k.
Proof. apply bind_app. Qed.
#[global] Arguments handed_log : simpl never.

Section Tcp.
Context {C : Type} (kernel_write : nat → bytes → write_reply) (u : user).

(** The connection and its [context_], a [std::any]. *)
#[local] Abbreviation state := (TcpConnection * option C)%type.

(* src/muduo/net/TcpConnection.h:76-78 TcpConnection::setContext *)
Definition setContext (x : C) (s : state) : state := (fst s, Some x).

(** The calls a protocol makes from a callback, in the loop thread. *)
#[global] Instance tcp_ops : ConnectionOps C state := {|
  conn_connected s := connected (fst s);
  conn_context := snd;
  conn_setContext := setContext;
  conn_send m s := let! c := send kernel_write u true m (fst s) in Ok (c, snd s);
  conn_sendBuffer b s := let! (b', c) := sendBuffer kernel_write u true b (fst s) in Ok (b', (c, snd s));
  conn_shutdown s := let! c := shutdown true (fst s) in Ok (c, snd s)
|}.

Definition taken_over (m : bytes) (c c' : TcpConnection) : Prop :=
  state_ c' = state_ c ∧ handed_log (log_ c') = handed_log (log_ c) ++ [m].

(** A message is taken over whole, in one step, whatever [::write] answers. *)
Lemma sendInLoop_hands m c c' :
  state_ c ≠ kDisconnected → sendInLoop kernel_write u m c = Ok c' → taken_over m c c'.
Proof.
  intros Hst. unfold sendInLoop. rewrite bool_decide_false by done.
  assert (∀ c1 nwrote remaining faultError, state_ c1 = state_ c → handed_log (log_ c1) = handed_log (log_ c) →
    (if (faultError : bool) then Ok (log c1 (LDrop m))
     else if 0 <? remaining then
       let oldLen := readableBytes (outputBuffer_ c1) in
       let c2 := if (highWaterMark_ c1 <=? oldLen + remaining) && (oldLen <? highWaterMark_ c1) &&
                    isSome (highWaterMarkCallback_ u)
                 then queueInLoop (FHighWater (oldLen + remaining)) c1 else c1 in
       let! out := append (slice nwrote remaining m) (outputBuffer_ c2) in
       let c3 := log (set_output c2 out) (LSend m) in
       if negb (isWriting (channel_ c3)) then enableWriting c3 else Ok c3
     else Ok (log c1 (LSend m))) = Ok c' → taken_over m c c') as Hrest.
  { intros c1 n r e Hs Hh Heq. unfold taken_over. destruct e; [|destruct (0 <? r)].
    - injection Heq as <-. cbn. by rewrite handed_log_app, Hh.
    - cbv zeta in Heq. set (c2 := if _ : bool then _ else _) in Heq.
      assert (state_ c2 = state_ c1 ∧ log_ c2 = log_ c1) as [Hs2 Hl2] by (unfold c2; by destruct (_ && _)).
      apply ok_bind_inv in Heq as (out & _ & Heq). rewrite enableWriting_eq in Heq.
      destruct (negb _); injection Heq as <-; cbn; rewrite handed_log_app, Hl2, Hh, Hs2, Hs; done.
    - injection Heq as <-. cbn. by rewrite handed_log_app, Hh. }
  destruct (_ && _).
  - unfold sockets_write. destruct (kernel_write _ m) as [e|n]; cbv beta iota zeta.
    + apply Hrest; [done|done].
    + assert (handed_log (log_ (log (count_write c) (LWrite (take (Z.to_nat n) m)))) = handed_log (log_ c))
        by (cbn; by rewrite handed_log_app, app_nil_r).
      refine (Hrest _ n (len m - n) false _ _); by destruct (_ && _).
  - by refine (Hrest _ 0 (len m) false _ _).
Qed.

Hypothesis kernel_ok : ∀ i d n, kernel_write i d = WOk n → 0 ≤ n ≤ len d.

Definition tcp_usable (s : state) : Prop := core (fst s) ∧ live (fst s) ∧ state_ (fst s) = kConnected.
Definition tcp_finished (s : state) : Prop := state_ (fst s) = kDisconnecting.
Definition tcp_handed (s : state) : list bytes := handed_log (log_ (fst s)).

Lemma tcp_sendInLoop m s :
  tcp_usable s → len m ≤ vector_max_size →
  safely (sendInLoop kernel_write u m (fst s)) (λ c, tcp_usable (c, snd s) ∧ tcp_handed (c, snd s) = tcp_handed s ++ [m]).
Proof using kernel_ok.
  intros (Hc & Hl & Hs) Hm.
  eapply safely_mono; [apply safely_and;
    [by apply (sendInLoop_ok kernel_write u kernel_ok m (fst s))
    |intros c; apply sendInLoop_hands; by rewrite Hs]|].
  intros c ((Hc' & Hl' & _) & Hs' & Hh). unfold tcp_usable. cbn [fst]. by rewrite Hs'.
Qed.

#[global] Program Instance tcp_laws : ConnectionLaws C state := {|
  usable := tcp_usable; finished := tcp_finished; handed := tcp_handed
|}.
Next Obligation. intros s (_ & _ & Hs). cbn. unfold connected. by rewrite Hs. Qed.
Next Obligation. by intros x s Hs. Qed.
Next Obligation.
  intros m s Hs Hm. cbn. unfold send, connected. rewrite bool_decide_true by apply Hs. cbn [negb].
  eapply safely_bind; [by apply tcp_sendInLoop|]. intros c (H1 & H2). by split_and!.
Qed.
Next Obligation.
  intros b s Hs Hb. cbn. unfold sendBuffer, connected. rewrite bool_decide_true by apply Hs. cbn [negb].
  rewrite readableSpan_eq by done.
  assert (len (content b) ≤ vector_max_size).
  { rewrite <- readable_len, readable_eq by done. pose proof Hb as []. lia. }
  eapply (safely_bind _ _ (λ '(b', c), tcp_usable (c, snd s) ∧ tcp_handed (c, snd s) = tcp_handed s ++ [content b] ∧
    wf b' ∧ content b' = [])).
  - eapply safely_bind; [by apply tcp_sendInLoop|]. intros c (H1 & H2). cbn. split_and!; try done; by apply retrieveAll_ok.
  - intros [b' c] (? & ? & ? & ?). by split_and!.
Qed.
Next Obligation.
  intros s (Hc & Hl & Hs). cbn. unfold shutdown, connected. rewrite Hs. cbn.
  unfold shutdownInLoop. destruct (negb _); cbn; split_and!; try done.
  unfold tcp_handed. cbn. by rewrite handed_log_app, app_nil_r.
Qed.
Next Obligation. intros m [c x] Hs. unfold tcp_finished in Hs. cbn in *. unfold send, connected. by rewrite Hs. Qed.
Next Obligation. intros b [c x] Hs. unfold tcp_finished in Hs. cbn in *. unfold sendBuffer, connected. by rewrite Hs. Qed.
Next Obligation. intros [c x] Hs. unfold tcp_finished in Hs. cbn in *. unfold shutdown, connected. by rewrite Hs. Qed.
Next Obligation. by intros x s Hs. Qed.
End Tcp.
