(* ===== verification/ConnectionEnd.v ===== *)
(** * ConnectionEnd: the end of a connection object
    ([muduo/net/TcpConnection.cc], [Channel.cc], [Socket.cc], [SocketsOps.cc])

    The destructor of a connection asserts that it is down; then its members
    go: the channel, which asserts that it is not being dispatched and not in
    the loop, and the socket, which closes the descriptor. The theorem says in
    which of the reachable states of [TcpConnection] all this passes; its use
    in a server is in [ServerEnd]. The rest are two that change
    nothing or only the input: the text of the state and the default message
    callback. *)
From S2P Require Import Prelude Format Buffer Channel TcpConnection.
From stdpp Require Import options.

(** What the destructor asks of the kernel. *)
Inductive sys_call := SysClose (fd : Z) | SysShutdownWrite (fd : Z).

#[global] Instance sys_call_eq_dec : EqDecision sys_call.
Proof. solve_decision. Defined.

(** A failing call is logged and nothing else. *)
(* src/muduo/net/SocketsOps.cc:191-195 sockets::close *)
Definition sockets_close (fd : Z) : list sys_call := [SysClose fd].
(* src/muduo/net/SocketsOps.cc:197-201 sockets::shutdownWrite *)
Definition sockets_shutdownWrite (fd : Z) : list sys_call := [SysShutdownWrite fd].
(* src/muduo/net/Socket.cc:17-17 Socket::~Socket *)
Definition destroySocket (sockfd : Z) : list sys_call := sockets_close sockfd.
(* src/muduo/net/Socket.cc:64-64 Socket::shutdownWrite *)
Definition Socket_shutdownWrite (sockfd : Z) : list sys_call := sockets_shutdownWrite sockfd.

(** The members are destroyed in the reverse order of their declaration: the
    channel before the socket; both were made from one descriptor. *)
(* src/muduo/net/TcpConnection.cc:48-53 TcpConnection::~TcpConnection *)
Definition destroyConnection (c : TcpConnection) : outcome (list sys_call) :=
  assert! disconnected c ;;
  let! _ := destroyChannel (channel_ c) in
  Ok (destroySocket (fd_ (channel_ c))).

(* src/muduo/net/TcpConnection.cc:25-29 defaultMessageCallback *)
Definition defaultMessageCallback (c : TcpConnection) : outcome TcpConnection :=
  Ok (set_input c (retrieveAll (inputBuffer_ c))).

(* src/muduo/net/TcpConnection.cc:381-398 TcpConnection::stateToString *)
Definition stateToString (s : StateE) : bytes :=
  match s with
  | kDisconnected => str "kDisconnected"
  | kConnecting => str "kConnecting"
  | kConnected => str "kConnected"
  | kDisconnecting => str "kDisconnecting"
  end.

(** ** What operations do to the channel

    Every operation keeps the descriptor, keeps [addedToLoop_] in step with
    the poller, and leaves [eventHandling_] alone. *)
Record tracks (c c' : TcpConnection) : Prop := mkTracks {
  tk_fd : fd_ (channel_ c') = fd_ (channel_ c);
  tk_added : addedToLoop_ (channel_ c) = inPoller_ c → addedToLoop_ (channel_ c') = inPoller_ c';
  tk_handling : eventHandling_ (channel_ c') = eventHandling_ (channel_ c)
}.

#[global] Instance tracks_preorder : PreOrder tracks.
Proof. split; [by split|]. intros ??? [] []. split; [congruence|tauto|congruence]. Qed.

(** An operation that does so whenever it returns. *)
Definition tracking (f : TcpConnection → outcome TcpConnection) : Prop :=
  ∀ c c', f c = Ok c' → tracks c c'.

Lemma tracking_bind f g : tracking f → tracking g → tracking (λ c, obind (f c) g).
Proof. intros Hf Hg c c' (c1 & H1 & H2)%ok_bind_inv. etrans; [by apply Hf|by apply Hg]. Qed.
Lemma tracking_foldM {A} (f : A → TcpConnection → outcome TcpConnection) l :
  (∀ a, tracking (f a)) → tracking (foldM f l).
Proof.
  intros Hf. induction l as [|a l IH]; [by intros c c' [= <-]|]. by apply (tracking_bind (f a)).
Qed.

Lemma tracking_disableAll : tracking disableAll.
Proof. intros c c' [= <-]. by split. Qed.
Lemma tracking_enableReading : tracking enableReading.
Proof. intros c c' [= <-]. by split. Qed.
Lemma tracking_disableReading : tracking disableReading.
Proof. intros c c' [= <-]. by split. Qed.
Lemma tracking_enableWriting : tracking enableWriting.
Proof. intros c c' [= <-]. by split. Qed.
Lemma tracking_disableWriting : tracking disableWriting.
Proof. intros c c' [= <-]. by split. Qed.
Lemma tracking_removeChannel : tracking removeChannel.
Proof.
  intros c c'. unfold removeChannel, Channel.remove, loop_removeChannel.
  intros (? & _ & (? & _ & [= <-])%ok_bind_inv)%ok_bind_inv. by split.
Qed.

Create HintDb tracking.
#[export] Hint Resolve tracking_disableAll tracking_enableReading tracking_disableReading
  tracking_enableWriting tracking_disableWriting tracking_removeChannel : tracking.

(** Goes through the branches and binds of a function; the operations it calls
    contribute what the hints say of them. *)
Ltac track_step :=
  match goal with
  | H : obind _ _ = Ok _ |- _ =>
      let Hx := fresh "Hx" in apply ok_bind_inv in H as (? & Hx & H)
  | H : Ok _ = Ok _ |- _ => injection H; clear H; intros; subst
  | H : Fault _ = Ok _ |- _ => discriminate H
  | H : cassert _ = Ok _ |- _ => clear H
  | H : context [if ?b then queueInLoop _ _ else _] |- _ => destruct b
  | H : (_, _) = (_, _) |- _ => simplify_eq
  | H : ?f ?c = Ok ?c' |- _ =>
      let T := fresh "T" in assert (T : tracking f) by solve [eauto with tracking nocore]; apply T in H; clear T
  | H : (if ?b then _ else _) = Ok _ |- _ => destruct b
  | H : match ?o with _ => _ end = _ |- _ => destruct o eqn:?
  end.
Ltac track_close :=
  repeat match goal with T : tracks _ _ |- _ => destruct T as [? ? ?] end;
  split; cbn in *; solve [congruence | tauto | intros; repeat match goal with H : _ → _ |- _ => apply H end; congruence].
Ltac track := intros; repeat track_step; track_close.

Section Tracks.
Context (kernel_write : nat → bytes → write_reply) (u : user).
Hypothesis user_plays : plays kernel_write u.

Lemma tracking_shutdownInLoop : tracking shutdownInLoop.
Proof using Type. unfold shutdownInLoop. intros c c'. track. Qed.

Lemma tracking_sendInLoop m : tracking (sendInLoop kernel_write u m).
Proof using Type. unfold sendInLoop, sockets_write. cbv zeta. intros c c'. track. Qed.
#[local] Hint Resolve tracking_shutdownInLoop tracking_sendInLoop : tracking.

Lemma tracking_send here m : tracking (send kernel_write u here m).
Proof using Type. unfold send. intros c c'. track. Qed.
Lemma tracking_sendBuffer here b c b' c' : sendBuffer kernel_write u here b c = Ok (b', c') → tracks c c'.
Proof using Type. unfold sendBuffer. cbv zeta. track. Qed.
Lemma tracking_shutdown here : tracking (shutdown here).
Proof using Type. unfold shutdown. cbv zeta. intros c c'. track. Qed.
Lemma tracking_startReadInLoop : tracking startReadInLoop.
Proof using Type. unfold startReadInLoop. intros c c'. track. Qed.
Lemma tracking_stopReadInLoop : tracking stopReadInLoop.
Proof using Type. unfold stopReadInLoop. intros c c'. track. Qed.
#[local] Hint Resolve tracking_send tracking_shutdown tracking_startReadInLoop tracking_stopReadInLoop : tracking.

(** A connection that is down: the acts of a callback find [forceClose] with
    nothing to do, so [handleClose] is not entered again. *)
Definition tracking_down (f : TcpConnection → outcome TcpConnection) : Prop :=
  ∀ c c', f c = Ok c' → state_ c = kDisconnected → tracks c c' ∧ state_ c' = kDisconnected.

Lemma act_down a : tracking_down (act kernel_write u a).
Proof using Type.
  intros c c' H Hst. assert (connected c = false) as Hc by (unfold connected; by rewrite Hst).
  assert (open c = false) as Ho by (unfold open; by rewrite Hst).
  assert (disconnected c = true) as Hd by (unfold disconnected; by rewrite Hst).
  destruct a; cbn [act] in H;
    unfold send, sendBuffer, shutdown, forceClose, forceCloseWithDelay in H;
    rewrite ?Hc, ?Ho, ?Hd in H; cbn [negb obind] in H; repeat track_step; split; try done; by split.
Qed.

Lemma plays_tracked f : plays1 kernel_write u f → tracking_down f.
Proof using Type.
  intros Hf c c' H Hst. destruct (Hf c) as (acts & _ & E). rewrite E in H. clear E.
  revert c H Hst. induction acts as [|a l IH]; intros c; [intros [= <-]; done|].
  cbn [foldM]. intros (c1 & H1 & H2)%ok_bind_inv Hst.
  destruct (act_down a c c1 H1 Hst) as [T1 S1], (IH c1 H2 S1) as [T2 S2].
  split; [by etrans|done].
Qed.

Lemma callback_down (cb : option (TcpConnection → outcome TcpConnection)) c e c' :
  (∀ f, cb = Some f → plays1 kernel_write u f) → state_ c = kDisconnected →
  match cb with Some f => f (log c e) | None => Ok (log c e) end = Ok c' →
  tracks c c' ∧ state_ c' = kDisconnected.
Proof using Type.
  intros Hp Hst. destruct cb as [f|]; [|by intros [= <-]; split].
  intros H. destruct (plays_tracked f (Hp f eq_refl) _ _ H Hst) as [T S1]. split; [|done]. etrans; [|exact T]. by split.
Qed.

Lemma tracking_handleClose : tracking (handleClose u).
Proof using user_plays.
  intros c c'. unfold handleClose. rewrite disableAll_eq. cbn [obind].
  intros (? & _ & (c2 & H2 & H)%ok_bind_inv)%ok_bind_inv. set (c1 := set_inPoller _ _) in H2.
  unfold call_connection in H2.
  destruct (callback_down (connectionCallback_ u) c1 _ c2 (pl_conn _ _ user_plays) eq_refl H2) as [T2 S2].
  trans c2; [trans c1; [by split|done]|].
  destruct (closeCallback_ u) as [f|] eqn:E; [|by injection H as <-].
  refine (proj1 (callback_down (Some f) c2 LClose c' _ S2 H)). intros g [= <-]. by eapply pl_close.
Qed.

Lemma tracking_forceCloseInLoop : tracking (forceCloseInLoop u).
Proof using user_plays.
  pose proof tracking_handleClose. unfold forceCloseInLoop. intros c c'. track.
Qed.
#[local] Hint Resolve tracking_handleClose tracking_forceCloseInLoop : tracking.

Lemma tracking_forceClose here : tracking (forceClose u here).
Proof using user_plays. unfold forceClose. cbv zeta. intros c c'. track. Qed.
#[local] Hint Resolve tracking_forceClose : tracking.

Lemma tracking_act a : tracking (act kernel_write u a).
Proof using user_plays.
  intros c c'. destruct a; cbn [act]; unfold forceCloseWithDelay, startRead, stopRead.
  2: intros ([b' c1] & H & [= <-])%ok_bind_inv; by eapply tracking_sendBuffer.
  all: track.
Qed.

Lemma tracking_plays f : plays1 kernel_write u f → tracking f.
Proof using user_plays.
  intros Hf c c' H. destruct (Hf c) as (acts & _ & E). rewrite E in H.
  revert H. apply tracking_foldM, tracking_act.
Qed.

(** A user's callback, on the connection with the call in the log. *)
Lemma tracking_callback (cb : option (TcpConnection → outcome TcpConnection)) e :
  (∀ f, cb = Some f → plays1 kernel_write u f) →
  tracking (λ c, match cb with Some f => f (log c e) | None => Ok (log c e) end).
Proof using user_plays.
  intros Hp c c' H. trans (log c e); [by split|].
  destruct cb as [f|]; [|by injection H as <-]. by apply (tracking_plays f); [apply Hp|].
Qed.

Lemma tracking_call_connection : tracking (call_connection u).
Proof using user_plays.
  intros c. refine (tracking_callback (connectionCallback_ u) _ _ c). apply (pl_conn _ _ user_plays).
Qed.

Lemma tracking_handleRead rd : tracking (handleRead u rd).
Proof using user_plays.
  intros c c'. unfold handleRead, handleError. cbv zeta.
  intros ([[n errno] input] & _ & H)%ok_bind_inv. trans (set_input c input); [by split|].
  destruct (0 <? n); [|track].
  destruct (messageCallback_ u) as [f|] eqn:E; [|track].
  refine (tracking_callback (Some f) (LMessage n) _ _ c' H). intros g [= <-]. by eapply pl_msg.
Qed.

Lemma tracking_handleWrite : tracking (handleWrite kernel_write u).
Proof using Type. unfold handleWrite, sockets_write. cbv zeta. intros c c'. track. Qed.

Lemma tracking_establish : tracking (connectEstablished u).
Proof using user_plays.
  intros c c'. unfold connectEstablished. cbv zeta. intros (? & _ & (c1 & H1 & H)%ok_bind_inv)%ok_bind_inv.
  apply tracking_enableReading in H1. apply tracking_call_connection in H. track.
Qed.

Lemma tracking_destroy : tracking (connectDestroyed u).
Proof using user_plays.
  pose proof tracking_call_connection. unfold connectDestroyed. cbv zeta. intros c c'. track.
Qed.

Lemma tracking_functor f : tracking (runFunctor kernel_write u f).
Proof using user_plays.
  intros c c'. destruct f; cbn [runFunctor]; try solve [track].
  - destruct (writeCompleteCallback_ u) as [f|] eqn:E; [|track].
    apply (tracking_callback (Some f) LWriteComplete). intros g [= <-]. by eapply pl_wc.
  - destruct (highWaterMarkCallback_ u) as [f|] eqn:E; [|track].
    apply (tracking_callback (Some (f totalLen)) (LHighWater totalLen)). intros g [= <-]. by eapply pl_hwm.
Qed.

Lemma tracking_elsewhere f : tracking (elsewhere kernel_write u f).
Proof using user_plays.
  intros c c'. destruct f; cbn [elsewhere]; unfold startRead, stopRead; track.
Qed.

Lemma tracking_invoke rd t k : tracking (invoke (channel_callbacks kernel_write u rd) t k).
Proof using user_plays.
  intros c c'. destruct k; cbn; [apply tracking_handleClose|by intros [= <-]|apply tracking_handleRead|
    apply tracking_handleWrite].
Qed.

Lemma tracking_if (b : bool) f : tracking f → tracking (λ c, if b then f c else Ok c).
Proof using Type. intros Hf c c'. destruct b; [apply Hf|by intros [= <-]]. Qed.

(** Between two operations the channel belongs to the loop exactly when the
    poller knows it, and it is not being dispatched. *)
Definition attached (fd : Z) (c : TcpConnection) : Prop :=
  fd_ (channel_ c) = fd ∧ addedToLoop_ (channel_ c) = inPoller_ c ∧ eventHandling_ (channel_ c) = false.

Lemma tracks_attached fd c c' : tracks c c' → attached fd c → attached fd c'.
Proof using Type. intros [Hf Ha Hh] (H1 & H2 & H3). split_and!; [congruence|by apply Ha|congruence]. Qed.

Lemma dispatch_attached fd rd t c c' :
  handleEvent channel_ put_channel (channel_callbacks kernel_write u rd) true t c = Ok c' →
  attached fd c → attached fd c'.
Proof using user_plays.
  intros H (Hfd & Hadd & _). set (cbs := channel_callbacks kernel_write u rd) in H.
  assert (handleEventWithGuard channel_ put_channel cbs t c = Ok c') as Hg.
  { unfold handleEvent in H. by destruct (tied_ (channel_ c)). }
  clear H. revert Hg. unfold handleEventWithGuard. set (s0 := put_channel _ c).
  intros (s1 & H1 & (s2 & H2 & (s3 & H3 & (s4 & H4 & [= <-])%ok_bind_inv)%ok_bind_inv)%ok_bind_inv)%ok_bind_inv.
  assert (tracks s0 s4) as [Tf Ta _].
  { pose proof (tracking_invoke rd t) as Hi.
    apply (tracking_if _ _ (Hi KClose)) in H1. apply (tracking_if _ _ (Hi KError)) in H2.
    apply (tracking_if _ _ (Hi KRead)) in H3. apply (tracking_if _ _ (Hi KWrite)) in H4.
    by rewrite H1, H2, H3, H4. }
  split_and!; [etrans; [exact Tf|exact Hfd]|by apply Ta|done].
Qed.

Lemma exec_attached fd o c c' : exec kernel_write u o c = Ok c' → attached fd c → attached fd c'.
Proof using user_plays.
  destruct o as [| |revents t rd|a|f| |]; cbn [exec]; intros H Ha.
  - eapply tracks_attached; [by apply tracking_establish|done].
  - eapply tracks_attached; [by apply tracking_destroy|done].
  - by eapply dispatch_attached.
  - eapply tracks_attached; [by eapply tracking_act|done].
  - eapply tracks_attached; [by eapply tracking_elsewhere|done].
  - destruct (pending_ c) as [|f l]; [by injection H as <-|].
    eapply tracks_attached; [by eapply tracking_functor|by destruct Ha as (? & ? & ?)].
  - destruct (delayed_ c) as [|n]; [by injection H as <-|].
    eapply tracks_attached; [by eapply tracking_forceClose|by destruct Ha as (? & ? & ?)].
Qed.

Hypothesis kernel_ok : ∀ i d n, kernel_write i d = WOk n → 0 ≤ n ≤ len d.

Lemma reachable_attached fd c : reachable kernel_write u fd c → attached fd c.
Proof using user_plays.
  induction 1 as [input output _ _ _|c o c' _ IH _ He]; [done|]. by eapply exec_attached.
Qed.

(** After [connectDestroyed] the connection is down, *)
Lemma destroyed_down fd c :
  reachable kernel_write u fd c → LDestroyed ∈ log_ c → ∃ L, down L c ∧ LDestroyed ∈ L.
Proof using user_plays kernel_ok.
  intros Hr Hin. destruct (reachable_inv kernel_write u kernel_ok fd c user_plays Hr) as [_ Hph].
  apply (elem_of_life LDestroyed) in Hin; [|done].
  destruct Hph as [(_ & Hlog & _)|[(_ & _ & _ & Hl)|(L & Hd & _)]].
  - rewrite Hlog in Hin. by apply elem_of_nil in Hin.
  - rewrite Hl in Hin. by apply list_elem_of_singleton in Hin.
  - exists L. split; [done|]. destruct Hd as (_ & _ & _ & <- & _). exact Hin.
Qed.

(** and every destructor passes. *)
Lemma destroy_destroyed fd c :
  reachable kernel_write u fd c → LDestroyed ∈ log_ c → destroyConnection c = Ok [SysClose fd].
Proof using user_plays kernel_ok.
  intros Hr Hin. destruct (reachable_attached fd c Hr) as (Hfd & Hadd & Hev).
  destruct (destroyed_down fd c Hr Hin) as (L & (Hst & _ & Hip & _) & HL).
  unfold destroyConnection, destroyChannel, disconnected.
  by rewrite Hst, Hfd, Hadd, Hev, Hip, (bool_decide_eq_false_2 (LDestroyed ∉ L)) by (by intros []).
Qed.

(** Nothing but its functors is left to run; they change nothing of its life. *)
Lemma destroyed_exec fd c o :
  reachable kernel_write u fd c → LDestroyed ∈ log_ c → legal o c → o ≠ OpEstablish → o ≠ OpDestroy →
  safely (exec kernel_write u o c) (λ c', reachable kernel_write u fd c' ∧ life (log_ c') = life (log_ c)).
Proof using user_plays kernel_ok.
  intros Hr Hin Hl He Hd. destruct (destroyed_down fd c Hr Hin) as (L & HL & _).
  pose proof (reachable_inv kernel_write u kernel_ok fd c user_plays Hr) as Hi.
  eapply safely_mono; [apply safely_and; [exact (exec_follows kernel_write u kernel_ok o c user_plays Hi Hl He Hd)|]|].
  - intros c' Hc'. exact (reach_step _ _ _ _ _ _ Hr Hl Hc').
  - intros c' [[_ Hf] Hr']. split; [done|]. destruct (Hf L HL) as [_ (_ & _ & _ & -> & _)]. symmetry. apply HL.
Qed.

(** A connection that is open, or has closed itself, can be destroyed; its
    close callback is not called for that. *)
Lemma destroy_settled fd c :
  reachable kernel_write u fd c → settled c →
  safely (exec kernel_write u OpDestroy c) (λ c', reachable kernel_write u fd c' ∧ LDestroyed ∈ log_ c' ∧
    (LClose ∈ log_ c' → LClose ∈ log_ c)).
Proof using kernel_ok user_plays.
  intros Hr [Hc Hph].
  assert (legal OpDestroy c) as Hleg.
  { destruct Hph as [([Hst|Hst] & _ & _ & Hl)|(L & (Hst & _ & _ & Hl & _) & HL)].
    1-2: split; [congruence|]; intros Hin; apply (elem_of_life LDestroyed) in Hin; [|done];
      rewrite Hl in Hin; by apply list_elem_of_singleton in Hin.
    split; [congruence|]. intros Hin; apply (elem_of_life LDestroyed) in Hin; [|done]. rewrite Hl in Hin.
    by apply closed_life_not_destroyed in HL. }
  assert (safely (connectDestroyed u c) (λ c', ∃ L, closed_life L ∧ down (L ++ [LDestroyed]) c' ∧
      (LClose ∈ L → LClose ∈ log_ c))) as Hex.
  { unfold connectDestroyed. destruct Hph as [Hl|(L & Hd & HL)].
    - rewrite live_open by done.
      destruct (live_disableAll _ _ Hc Hl (disableAll_eq _)) as (Hc1 & Hst1 & Hev1 & Hip1 & Hl1 & _).
      rewrite disableAll_eq. cbn [obind]. set (c1 := set_inPoller _ _) in *.
      eapply safely_bind; [apply (call_down kernel_write u [LUp]); try done; by intros ?%list_elem_of_singleton|].
      intros c2 (Hc2 & Hd2 & _). eapply safely_mono; [apply (removeChannel_ok [LUp; LDown]); [done|done|by left]|].
      intros c' [_ Hd']. exists [LUp; LDown]. split; [by left|]. split; [done|].
      intros Hin. exfalso. by apply (bool_decide_unpack (LClose ∉ [LUp; LDown])) in Hin.
    - rewrite (down_not_open L) by done. cbn [obind].
      eapply safely_mono; [by apply (removeChannel_ok L)|].
      intros c' [_ Hd']. exists L. split; [done|]. split; [done|].
      intros Hin. by eapply down_log_close. }
  eapply safely_mono; [apply safely_and; [exact Hex|intros c' He; exact (reach_step _ _ _ _ OpDestroy c' Hr Hleg He)]|].
  intros c' ((L & HL & (_ & _ & _ & Hlf & _) & Hcl) & Hrc). split; [done|]. split.
  - apply (elem_of_life LDestroyed); [done|]. rewrite Hlf. apply elem_of_app. right. by apply list_elem_of_singleton.
  - intros Hin. apply Hcl. apply (elem_of_life LClose) in Hin; [|done]. rewrite Hlf in Hin.
    apply elem_of_app in Hin as [Hin|Hin]; [done|]. by apply list_elem_of_singleton in Hin.
Qed.

(** C16. A connection object may be destroyed once [connectDestroyed] has run,
    and not before: in every reachable state the destructors (of the
    connection, which asserts that it is down, of its channel, which asserts
    that it is not being dispatched and not in the loop any more, and of its
    socket) all pass exactly if the history has the end of the connection, and
    then they close its descriptor, once. *)
Theorem connection_end fd c calls :
  reachable kernel_write u fd c →
  destroyConnection c = Ok calls ↔ LDestroyed ∈ log_ c ∧ calls = [SysClose fd].
Proof using user_plays kernel_ok.
  intros Hr. split; cycle 1.
  { intros [Hin ->]. by apply destroy_destroyed. }
  intros H. assert (LDestroyed ∈ log_ c) as Hin.
  - destruct (reachable_attached fd c Hr) as (_ & Hadd & _).
    destruct (reachable_inv kernel_write u kernel_ok fd c user_plays Hr) as [_ Hph].
    unfold destroyConnection, destroyChannel in H.
    apply ok_bind_inv in H as (? & Hd%cassert_ok%bool_decide_eq_true & (? & (? & _ & (? & Ha%cassert_ok & _)%ok_bind_inv)%ok_bind_inv & _)%ok_bind_inv).
    rewrite Hadd in Ha. apply negb_true_iff in Ha.
    destruct Hph as [(Hst & _)|[([Hst|Hst] & _)|(L & (_ & _ & Hip & Hl & _) & _)]]; [congruence..|].
    rewrite Hip in Ha. apply bool_decide_eq_false in Ha. apply (elem_of_life LDestroyed); [done|].
    rewrite Hl. destruct (decide (LDestroyed ∈ L)); [done|by destruct Ha].
  - split; [done|]. rewrite (destroy_destroyed fd c Hr Hin) in H. by injection H as <-.
Qed.
End Tracks.

(** The greeting is being written when the connection is closed. *)
Definition sample_written : TcpConnection := after [OpEstablish; OpEvent POLLOUT 1 (ReadOk [])] sample_new.
Definition sample_forced : TcpConnection :=
  after [OpEstablish; OpEvent POLLOUT 1 (ReadOk []); OpHere AForceClose] sample_new.
Definition sample_over : TcpConnection :=
  after [OpEstablish; OpEvent POLLOUT 1 (ReadOk []); OpHere AForceClose; OpDestroy] sample_new.

Lemma sample_over_reachable : reachable sample_kernel sample_user 9 sample_over.
Proof.
  apply (reach_step _ _ _ sample_forced OpDestroy); [|split; apply (bool_decide_unpack _); vm_compute; exact I|by vm_compute].
  apply (reach_step _ _ _ sample_written (OpHere AForceClose)); [|by split; vm_compute|by vm_compute].
  apply (reach_step _ _ _ sample_up (OpEvent POLLOUT 1 (ReadOk []))); [apply sample_up_reachable| |by vm_compute].
  split_and!; by vm_compute.
Qed.

Lemma connection_end_witness :
  destroyConnection sample_over = Ok [SysClose 9] ↔ LDestroyed ∈ log_ sample_over ∧ [SysClose 9] = [SysClose 9].
Proof.
  apply (connection_end sample_kernel sample_user sample_plays sample_kernel_ok 9). apply sample_over_reachable.
Defined.

(** Before that the destructor stops at an assert: of the connection, or of
    its channel. *)
Lemma destroy_too_early :
  destroyConnection sample_up = Fault AssertFailed ∧
  destroyConnection (after [OpEstablish; OpHere AForceClose] sample_new) = Fault AssertFailed.
Proof. split; by vm_compute. Qed.
