(* ===== verification/StringMap.v ===== *)
(** * StringMap: [std::map] with strings for keys

    A map whose iteration shows is kept as the association list the iteration
    runs through, sorted by [operator<] of the keys. Every operation keeps the
    order and does on the list what it does on a finite map. *)
From S2P Require Import Prelude.
From stdpp Require Import sorting.
#[local] Open Scope Z_scope.
From stdpp Require Import options.

(** [operator<] of [std::string]: lexicographic on the bytes. *)
Fixpoint bytes_lt (a b : bytes) : bool :=
  match a, b with
  | _, [] => false
  | [], _ :: _ => true
  | x :: a', y :: b' =>
      if byte_val x <? byte_val y then true
      else if byte_val y <? byte_val x then false else bytes_lt a' b'
  end.

Lemma bytes_lt_irrefl a : bytes_lt a a = false.
Proof.
  induction a as [|x a IH]; [done|]. cbn.
  by destruct (Z.ltb_spec (byte_val x) (byte_val x)); [lia|].
Qed.

Lemma bytes_lt_total a b : bytes_lt a b = false → bytes_lt b a = false → a = b.
Proof.
  revert b. induction a as [|x a IH]; intros [|y b]; cbn; try done.
  destruct (Z.ltb_spec (byte_val x) (byte_val y)), (Z.ltb_spec (byte_val y) (byte_val x)); try done.
  intros H1 H2. f_equal; [apply byte_val_inj; lia|by apply IH].
Qed.

Lemma bytes_lt_trans a b c : bytes_lt a b = true → bytes_lt b c = true → bytes_lt a c = true.
Proof.
  revert b c. induction a as [|x a IH]; intros [|y b] [|z c]; cbn; try done.
  destruct (Z.ltb_spec (byte_val x) (byte_val y)), (Z.ltb_spec (byte_val y) (byte_val x)),
    (Z.ltb_spec (byte_val y) (byte_val z)), (Z.ltb_spec (byte_val z) (byte_val y)),
    (Z.ltb_spec (byte_val x) (byte_val z)), (Z.ltb_spec (byte_val z) (byte_val x)); try done; try lia.
  apply IH.
Qed.

Section StringMap.
Context {V : Type}.
Implicit Types (k : bytes) (v : V) (m : list (bytes * V)).

(** [m\[k\] = v] *)
Fixpoint map_assign k v m : list (bytes * V) :=
  match m with
  | [] => [(k, v)]
  | (k', v') :: m' =>
      if bytes_lt k k' then (k, v) :: m
      else if bytes_lt k' k then (k', v') :: map_assign k v m'
      else (k, v) :: m'
  end.

(** [m.find(k)] *)
Fixpoint map_find k m : option V :=
  match m with
  | [] => None
  | (k', v) :: m => if bool_decide (k' = k) then Some v else map_find k m
  end.

(** [m.erase(k)] *)
Fixpoint map_erase k m : list (bytes * V) :=
  match m with
  | [] => []
  | (k', v) :: m => if bool_decide (k' = k) then m else (k', v) :: map_erase k m
  end.

Definition key_lt (a b : bytes * V) : Prop := bytes_lt (fst a) (fst b) = true.
#[export] Instance key_lt_trans : Transitive key_lt.
Proof. intros a b c. apply bytes_lt_trans. Qed.

Lemma map_assign_head k v m x :
  HdRel key_lt x m → key_lt x (k, v) → HdRel key_lt x (map_assign k v m).
Proof.
  destruct m as [|[k' v'] m]; cbn; [by constructor|].
  intros Hm Hx. destruct (bytes_lt k k'); [by constructor|].
  destruct (bytes_lt k' k); constructor; [by apply HdRel_inv in Hm|done].
Qed.

(** The list stays strictly sorted, so its keys are distinct, and an
    assignment changes its own key only. *)
Lemma map_assign_sorted k v m :
  Sorted key_lt m → Sorted key_lt (map_assign k v m).
Proof.
  induction m as [|[k' v'] m IH]; cbn; intros Hm; [by repeat constructor|].
  apply Sorted_inv in Hm as [Hm Hh].
  destruct (bytes_lt k k') eqn:H1; [by repeat constructor|].
  destruct (bytes_lt k' k) eqn:H2; constructor; auto.
  - by apply map_assign_head.
  - rewrite (bytes_lt_total k k' H1 H2). destruct Hh as [|y m Hy]; by constructor.
Qed.

Lemma sorted_keys m : Sorted key_lt m → NoDup m.*1.
Proof.
  intros Hs. apply Sorted_StronglySorted in Hs; [|apply _].
  induction Hs as [|[k v] m Hm IH Hall]; cbn; constructor; [|done].
  intros ([k' v'] & -> & Hin)%list_elem_of_fmap. rewrite Forall_forall in Hall.
  apply Hall in Hin. unfold key_lt in Hin. cbn in Hin. by rewrite bytes_lt_irrefl in Hin.
Qed.

Lemma map_assign_lookup k v m :
  Sorted key_lt m →
  list_to_map (M := gmap bytes V) (map_assign k v m) = <[k := v]> (list_to_map m).
Proof.
  induction m as [|[k' v'] m IH]; cbn; intros Hm; [done|].
  apply Sorted_inv in Hm as [Hm Hh].
  destruct (bytes_lt k k') eqn:H1; [done|]. destruct (bytes_lt k' k) eqn:H2; cbn.
  - rewrite IH by done. apply insert_insert_ne. intros ->. by rewrite bytes_lt_irrefl in H2.
  - by rewrite (bytes_lt_total k k'), insert_insert_eq.
Qed.

Lemma map_find_lookup k m : map_find k m = (list_to_map m : gmap bytes V) !! k.
Proof.
  induction m as [|[k' v'] m IH]; cbn; [done|]. case_bool_decide as E.
  - subst. by rewrite lookup_insert_eq.
  - by rewrite lookup_insert_ne.
Qed.

Lemma map_find_assign k v m k' :
  Sorted key_lt m → map_find k' (map_assign k v m) = if bool_decide (k = k') then Some v else map_find k' m.
Proof.
  intros Hm. rewrite !map_find_lookup, map_assign_lookup by done. case_bool_decide as E.
  - subst. by rewrite lookup_insert_eq.
  - by rewrite lookup_insert_ne.
Qed.

Lemma map_find_elem k v m : Sorted key_lt m → map_find k m = Some v ↔ (k, v) ∈ m.
Proof.
  intros Hm. rewrite map_find_lookup. split; [apply elem_of_list_to_map_2|].
  apply elem_of_list_to_map_1. by apply sorted_keys.
Qed.

Lemma map_erase_head k m x : HdRel key_lt x m → Sorted key_lt m → HdRel key_lt x (map_erase k m).
Proof.
  destruct m as [|[k' v'] m]; cbn; [done|]. intros Hx%HdRel_inv [_ Hh]%Sorted_inv. case_bool_decide; [|by constructor].
  destruct Hh as [|y m Hy]; constructor. by etrans.
Qed.

Lemma map_erase_sorted k m : Sorted key_lt m → Sorted key_lt (map_erase k m).
Proof.
  induction m as [|[k' v'] m IH]; cbn; [done|]. intros Hm. apply Sorted_inv in Hm as [Hm Hh].
  case_bool_decide; [done|]. constructor; [by apply IH|]. by apply map_erase_head.
Qed.

Lemma map_find_erase k m k' :
  Sorted key_lt m → map_find k' (map_erase k m) = if bool_decide (k = k') then None else map_find k' m.
Proof.
  induction m as [|[k1 v1] m IH]; cbn; intros Hm; [by case_bool_decide|].
  pose proof (sorted_keys _ Hm) as Hn. cbn in Hn. apply NoDup_cons in Hn as [Hn _]. apply Sorted_inv in Hm as [Hm _].
  destruct (decide (k1 = k)) as [->|Hk].
  - rewrite bool_decide_true by done. case_bool_decide as E; [subst k'|done].
    rewrite map_find_lookup. by apply not_elem_of_list_to_map_1.
  - rewrite bool_decide_false by done. cbn. rewrite IH by done. destruct (decide (k1 = k')) as [->|Hk'].
    + rewrite !(bool_decide_true (k' = k')) by done. by rewrite bool_decide_false by congruence.
    + by rewrite (bool_decide_false (k1 = k')) by done.
Qed.
End StringMap.
#[global] Arguments key_lt : simpl never.
