(* ===== verification/StringPiece.v ===== *)
(** * StringPiece: strings that belong to others ([muduo/base/StringPiece.h])

    A [const char *] is an array and an offset into it, which may be the end of
    the array; a view is a pointer and a size. Reading outside the array is a
    fault. [std::string] keeps a NUL behind its bytes; a string literal is such
    an array too. The lemmas say which text an operation leaves in view, and
    what a C function sees of a [StringArg]. *)
From S2P Require Import Prelude StringMap.
From stdpp Require Import options.

(** ** Pointers into arrays *)

Record char_ptr := mkPtr { array : bytes; at_ : Z }.

(** [strlen]: the bytes up to the first NUL, which must come before the end. *)
Definition c_text (p : char_ptr) : outcome bytes :=
  let s := drop (Z.to_nat (at_ p)) (array p) in
  match find_byte Byte.x00 s with Some i => Ok (take i s) | None => Fault OutOfBounds end.

(* src/muduo/base/StringPiece.h:95-95 StringPiece::view_ *)
Record StringPiece := mkPiece { data : option char_ptr; size : Z }.

(** The bytes in view; [None] for a view that is not inside its array. *)
Definition in_array (v : StringPiece) : bool :=
  match data v with
  | Some p => (0 <=? at_ p) && (0 <=? size v) && (at_ p + size v <=? len (array p))
  | None => size v =? 0
  end.
Definition view (v : StringPiece) : bytes :=
  match data v with Some p => slice (at_ p) (size v) (array p) | None => [] end.

(* src/muduo/base/StringPiece.h:15-15 StringPiece::StringPiece *)
Definition newPiece : StringPiece := mkPiece None 0.
(* src/muduo/base/StringPiece.h:16-17 StringPiece::StringPiece(const char * ) *)
Definition piece_of_cstr (str : option char_ptr) : outcome StringPiece :=
  match str with
  | None => Ok newPiece
  | Some p => let! s := c_text p in Ok (mkPiece (Some p) (len s))
  end.
(* src/muduo/base/StringPiece.h:18-20 StringPiece::StringPiece(const char *, size_t) *)
Definition piece_of_len (str : option char_ptr) (n : Z) : StringPiece :=
  match str with None => newPiece | Some p => mkPiece (Some p) n end.
(** The array of a [std::string]. *)
Definition string_data (s : bytes) : char_ptr := mkPtr (s ++ [Byte.x00]) 0.
(* src/muduo/base/StringPiece.h:21-21 StringPiece::StringPiece(const std::string &) *)
Definition piece_of_string (str : bytes) : StringPiece := mkPiece (Some (string_data str)) (len str).

(* src/muduo/base/StringPiece.h:28-30 StringPiece::sizeInt *)
Definition sizeInt (v : StringPiece) : Z := swrap 32 (size v).
(* src/muduo/base/StringPiece.h:31-31 StringPiece::empty *)
Definition piece_empty (v : StringPiece) : bool := size v =? 0.
(* src/muduo/base/StringPiece.h:40-40 StringPiece::clear *)
Definition piece_clear (v : StringPiece) : StringPiece := newPiece.
(* src/muduo/base/StringPiece.h:41-43 StringPiece::set(const char * ) *)
Definition piece_set_cstr (str : option char_ptr) (v : StringPiece) : outcome StringPiece := piece_of_cstr str.
(* src/muduo/base/StringPiece.h:44-46 StringPiece::set(const char *, size_t) *)
Definition piece_set_len (str : option char_ptr) (n : Z) (v : StringPiece) : StringPiece := piece_of_len str n.
(* src/muduo/base/StringPiece.h:47-47 StringPiece::set(const std::string &) *)
Definition piece_set_string (str : bytes) (v : StringPiece) : StringPiece := piece_of_string str.

Definition advance (n : Z) (p : char_ptr) : char_ptr := mkPtr (array p) (at_ p + n).

(** [std::string_view] has these as preconditions. *)
(* src/muduo/base/StringPiece.h:53-53 StringPiece::remove_prefix *)
Definition remove_prefix (n : Z) (v : StringPiece) : outcome StringPiece :=
  if n <=? size v then Ok (mkPiece (advance n <$> data v) (size v - n)) else Fault OutOfBounds.
(* src/muduo/base/StringPiece.h:54-54 StringPiece::remove_suffix *)
Definition remove_suffix (n : Z) (v : StringPiece) : outcome StringPiece :=
  if n <=? size v then Ok (mkPiece (data v) (size v - n)) else Fault OutOfBounds.
(* src/muduo/base/StringPiece.h:55-57 StringPiece::operator[] *)
Definition piece_at (i : Z) (v : StringPiece) : outcome byte :=
  match view v !! Z.to_nat i with Some b => Ok b | None => Fault OutOfBounds end.

(** [None] is the exception [std::out_of_range]. *)
(* src/muduo/base/StringPiece.h:58-61 StringPiece::substr *)
Definition substr (pos n : Z) (v : StringPiece) : option StringPiece :=
  if size v <? pos then None
  else Some (mkPiece (advance pos <$> data v) (Z.min n (size v - pos))).

(* src/muduo/base/StringPiece.h:62-62 StringPiece::as_string *)
Definition as_string (v : StringPiece) : bytes := view v.
(* src/muduo/base/StringPiece.h:63-67 StringPiece::CopyToString *)
Definition CopyToString (target : option bytes) (v : StringPiece) : option bytes :=
  match target with Some _ => Some (view v) | None => None end.

Definition view_starts_with (x s : bytes) : bool := bool_decide (take (length x) s = x).
(* src/muduo/base/StringPiece.h:71-73 StringPiece::starts_with(StringPiece) *)
Definition piece_starts_with (x v : StringPiece) : bool := view_starts_with (view x) (view v).
(* src/muduo/base/StringPiece.h:74-76 StringPiece::starts_with(char) *)
Definition piece_starts_with_char (c : byte) (v : StringPiece) : bool :=
  match view v with b :: _ => bool_decide (b = c) | [] => false end.
(* src/muduo/base/StringPiece.h:77-80 StringPiece::starts_with(const char * ) *)
Definition piece_starts_with_cstr (s : option char_ptr) (v : StringPiece) : outcome bool :=
  match s with
  | None => Ok (view_starts_with [] (view v))
  | Some p => let! t := c_text p in Ok (view_starts_with t (view v))
  end.

(** [std::string_view::compare]: the bytes that both have, then the sizes. The
    sign is all that is specified. *)
Fixpoint common_order (a b : bytes) : comparison :=
  match a, b with
  | x :: a, y :: b => match byte_val x ?= byte_val y with Eq => common_order a b | c => c end
  | _, _ => Eq
  end.
(* src/muduo/base/StringPiece.h:81-83 StringPiece::compare *)
Definition piece_compare (x v : StringPiece) : comparison :=
  match common_order (view v) (view x) with Eq => size v ?= size x | c => c end.
(* src/muduo/base/StringPiece.h:89-90 StringPiece::operator<=> *)
Definition piece_spaceship (v x : StringPiece) : comparison := piece_compare x v.
(* src/muduo/base/StringPiece.h:91-92 StringPiece::operator== *)
Definition piece_eqb (v x : StringPiece) : bool :=
  (size v =? size x) && match common_order (view v) (view x) with Eq => true | _ => false end.

(** ** StringArg *)

(* src/muduo/base/StringPiece.h:114-115 StringArg *)
Record StringArg := mkArg { value_ : StringPiece }.
(** A null pointer becomes the empty literal. *)
(* src/muduo/base/StringPiece.h:100-101 StringArg::StringArg(const char * ) *)
Definition arg_of_cstr (str : option char_ptr) : outcome StringArg :=
  let! v := piece_of_cstr (Some (default (string_data []) str)) in Ok (mkArg v).
(* src/muduo/base/StringPiece.h:102-102 StringArg::StringArg(const std::string &) *)
Definition arg_of_string (str : bytes) : StringArg := mkArg (piece_of_string str).
(* src/muduo/base/StringPiece.h:103-105 StringArg::StringArg(StringPiece) *)
Definition arg_of_piece (str : StringPiece) : StringArg := mkArg str.

(** [c_str()] is the pointer; this is the text that a C function takes it for. *)
(* src/muduo/base/StringPiece.h:107-109 StringArg::c_str *)
Definition arg_c_str (a : StringArg) : option char_ptr := data (value_ a).
Definition seen_by_c (a : StringArg) : outcome bytes := let! p := deref (arg_c_str a) in c_text p.

(** ** What is in view *)

Lemma len_view v : in_array v = true → len (view v) = size v.
Proof.
  unfold in_array, view. destruct (data v) as [p|]; [|intros H%Z.eqb_eq; by rewrite H].
  intros [[H1%Z.leb_le H2%Z.leb_le]%andb_true_iff H3%Z.leb_le]%andb_true_iff. by apply len_slice.
Qed.

Lemma size_nonneg v : in_array v = true → 0 ≤ size v.
Proof. intros H. rewrite <- len_view by done. apply len_nonneg. Qed.

Lemma view_string s : in_array (piece_of_string s) = true ∧ view (piece_of_string s) = s.
Proof.
  unfold in_array, view, piece_of_string, string_data. cbn [data size array at_]. pose proof (len_nonneg s). split.
  - rewrite len_app. change (len [Byte.x00]) with 1. apply andb_true_iff. rewrite andb_true_iff, !Z.leb_le. lia.
  - rewrite slice_app_l by lia. apply slice_full.
Qed.

Lemma c_text_inside p s : 0 ≤ at_ p → c_text p = Ok s → at_ p + len s ≤ len (array p) ∧ slice (at_ p) (len s) (array p) = s.
Proof.
  unfold c_text. intros Hp. destruct (find_byte _ _) as [i|] eqn:E; [|done]. intros [= <-].
  apply find_byte_some in E as [E _]. apply lookup_lt_Some in E. rewrite length_drop in E.
  assert (len (take i (drop (Z.to_nat (at_ p)) (array p))) = Z.of_nat i) as Hl.
  { unfold len. rewrite length_take, length_drop. lia. }
  rewrite Hl. split; [unfold len; lia|]. unfold slice. by rewrite Nat2Z.id.
Qed.

Lemma view_cstr p v :
  0 ≤ at_ p → piece_of_cstr (Some p) = Ok v → in_array v = true ∧ c_text p = Ok (view v).
Proof.
  intros Hp. cbn [piece_of_cstr]. intros (s & Hs & [= <-])%ok_bind_inv. rewrite Hs.
  destruct (c_text_inside p s Hp Hs) as [H1 H2]. unfold in_array, view. cbn [data size].
  rewrite H2. split; [|done]. rewrite !andb_true_iff, !Z.leb_le. pose proof (len_nonneg s). lia.
Qed.

Lemma moved_inside v pos n :
  in_array v = true → 0 ≤ pos → 0 ≤ n → pos + n ≤ size v →
  let v' := mkPiece (advance pos <$> data v) n in in_array v' = true ∧ view v' = slice pos n (view v).
Proof.
  unfold in_array, view. destruct (data v) as [p|]; cbn [fmap option_fmap option_map data size advance array at_].
  - intros [[H1%Z.leb_le H2%Z.leb_le]%andb_true_iff H3%Z.leb_le]%andb_true_iff Hp Hn Hs.
    split; [rewrite !andb_true_iff, !Z.leb_le; lia|]. symmetry. unfold slice.
    rewrite skipn_firstn_comm, take_take, drop_drop. f_equal; [lia|]. f_equal. lia.
  - intros H%Z.eqb_eq Hp Hn Hs. assert (n = 0) as -> by lia. split; [done|]. by destruct (Z.to_nat pos).
Qed.

(** Taking a part never leaves the array, and is what it is on strings; the
    preconditions and the exception are exactly those of the positions. *)
Lemma piece_parts v pos n :
  in_array v = true → 0 ≤ pos → 0 ≤ n →
  (match substr pos n v with
   | Some v' => pos ≤ size v ∧ in_array v' = true ∧ view v' = slice pos (Z.min n (size v - pos)) (view v)
   | None => size v < pos
   end) ∧
  (match remove_prefix n v with
   | Ok v' => n ≤ size v ∧ in_array v' = true ∧ view v' = drop (Z.to_nat n) (view v)
   | Fault e => e = OutOfBounds ∧ size v < n
   end) ∧
  (match remove_suffix n v with
   | Ok v' => n ≤ size v ∧ in_array v' = true ∧ view v' = take (Z.to_nat (size v - n)) (view v)
   | Fault e => e = OutOfBounds ∧ size v < n
   end).
Proof.
  intros Hv Hp Hn. pose proof (size_nonneg v Hv) as Hs. pose proof (len_view v Hv) as Hl. split_and!.
  - unfold substr. destruct (Z.ltb_spec (size v) pos); [done|]. split; [done|]. apply moved_inside; [done|lia..].
  - unfold remove_prefix. destruct (Z.leb_spec n (size v)); [|done]. split; [done|].
    destruct (moved_inside v n (size v - n) Hv Hn) as [H1 H2]; [lia..|]. split; [done|]. rewrite H2. unfold slice.
    apply take_ge. rewrite length_drop. unfold len in Hl. lia.
  - unfold remove_suffix. destruct (Z.leb_spec n (size v)); [|done]. split; [done|].
    destruct (moved_inside v 0 (size v - n) Hv) as [H1 H2]; [lia..|].
    assert (mkPiece (data v) (size v - n) = mkPiece (advance 0 <$> data v) (size v - n)) as ->.
    { f_equal. destruct (data v) as [[a o]|]; [|done]. cbn. unfold advance. cbn. by rewrite Z.add_0_r. }
    split; [done|]. rewrite H2. done.
Qed.

(** ** Order *)

Lemma common_order_lt a b : common_order a b = Lt → bytes_lt a b = true.
Proof.
  revert b. induction a as [|x a IH]; intros [|y b]; cbn; try done.
  destruct (Z.compare_spec (byte_val x) (byte_val y)) as [E|E|E]; intros H; [|by rewrite (proj2 (Z.ltb_lt _ _) E)|done].
  rewrite !(proj2 (Z.ltb_ge _ _)) by lia. by apply IH.
Qed.

Lemma common_order_anti a b : common_order b a = CompOpp (common_order a b).
Proof.
  revert b. induction a as [|x a IH]; intros [|y b]; cbn; try done.
  rewrite (Z.compare_antisym (byte_val x)). destruct (byte_val x ?= byte_val y); cbn; [apply IH|done|done].
Qed.

Lemma common_order_eq a b :
  common_order a b = Eq → (len a < len b → bytes_lt a b = true) ∧ (len a = len b → a = b).
Proof.
  revert b. induction a as [|x a IH]; intros [|y b]; cbn; try done.
  destruct (Z.compare_spec (byte_val x) (byte_val y)) as [E|E|E]; try done. intros H.
  apply byte_val_inj in E as ->. rewrite Z.ltb_irrefl. destruct (IH b H) as [H1 H2].
  assert (∀ z (l : bytes), len (z :: l) = len l + 1) as Hc by (intros; unfold len; cbn; lia). rewrite !Hc. split.
  - intros. apply H1. lia.
  - intros. f_equal. apply H2. lia.
Qed.

(** [compare], [<=>] and [==] are the order of [std::string]s on the texts. *)
Lemma piece_order v x :
  in_array v = true → in_array x = true →
  match piece_compare x v with
  | Lt => bytes_lt (view v) (view x) = true
  | Gt => bytes_lt (view x) (view v) = true
  | Eq => view v = view x
  end ∧ (piece_eqb v x = true ↔ view v = view x).
Proof.
  intros Hv Hx. unfold piece_compare, piece_eqb. pose proof (len_view v Hv) as Ev. pose proof (len_view x Hx) as Ex.
  assert (common_order (view x) (view v) = CompOpp (common_order (view v) (view x))) as Hanti by apply common_order_anti.
  split.
  - destruct (common_order (view v) (view x)) eqn:E; cbn in Hanti.
    + destruct (common_order_eq _ _ E) as [H1 H2], (common_order_eq _ _ Hanti) as [H3 _].
      destruct (Z.compare_spec (size v) (size x)) as [Es|Es|Es]; [apply H2|apply H1|apply H3]; lia.
    + by apply common_order_lt.
    + by apply common_order_lt.
  - split.
    + intros [H1%Z.eqb_eq H2]%andb_true_iff. destruct (common_order (view v) (view x)) eqn:E; try done.
      destruct (common_order_eq _ _ E) as [_ H3]. apply H3. lia.
    + intros E. rewrite E in *. rewrite (proj2 (Z.eqb_eq _ _)) by lia.
      destruct (common_order (view x) (view x)); cbn in *; done.
Qed.

Lemma starts_with_prefix x s : view_starts_with x s = true ↔ x `prefix_of` s.
Proof.
  unfold view_starts_with. rewrite bool_decide_eq_true. split.
  - intros H. exists (drop (length x) s). by rewrite <- H at 1; rewrite take_drop.
  - intros [k ->]. by rewrite take_app_length.
Qed.

(** ** What C sees *)

(** A [StringArg] made from a C string or a [std::string] without a NUL is the
    same text for C. *)
Lemma string_arg_text s : Byte.x00 ∉ s → seen_by_c (arg_of_string s) = Ok s.
Proof.
  intros Hs. unfold seen_by_c, arg_c_str, arg_of_string, piece_of_string. cbn [value_ data deref obind].
  unfold c_text, string_data. cbn [at_ array]. change (Z.to_nat 0) with 0%nat. rewrite drop_0.
  rewrite (find_byte_app Byte.x00 s []) by done. by rewrite take_app_length.
Qed.

Lemma cstr_arg_text p a : 0 ≤ at_ p → arg_of_cstr (Some p) = Ok a → seen_by_c a = Ok (view (value_ a)).
Proof.
  intros Hp (v & Hv & [= <-])%ok_bind_inv. cbn [default] in Hv. unfold id in Hv.
  destruct (view_cstr p v Hp Hv) as [_ H]. cbn [piece_of_cstr] in Hv. apply ok_bind_inv in Hv as (s & _ & [= <-]).
  exact H.
Qed.

(** One made from a piece is not: [c_str()] is not terminated where the piece
    ends, and may not be terminated at all. *)
Lemma piece_arg_unterminated :
  let whole := piece_of_string (str "/tmp/secret.log") in
  (∃ v, substr 0 4 whole = Some v ∧ view v = str "/tmp" ∧
        seen_by_c (arg_of_piece v) = Ok (str "/tmp/secret.log")) ∧
  (let v := piece_of_len (Some (mkPtr (str "abc") 0)) 3 in
   in_array v = true ∧ view v = str "abc" ∧ seen_by_c (arg_of_piece v) = Fault OutOfBounds) ∧
  seen_by_c (arg_of_piece newPiece) = Fault NullDeref.
Proof.
  split; [|split; [split_and!; by vm_compute|by vm_compute]]. eexists. split_and!; by vm_compute.
Qed.
