(* ===== verification/Glue.v ===== *)
(** * Glue: the small templates of the base library
    ([muduo/base/WeakCallback.h], [Singleton.h], [ThreadLocalSingleton.h],
    [Types.h], [Exception.h], [Exception.cc], [Print.h], [net/Callbacks.h])

    What they decide: whether a callback is called, which object an accessor
    gives and when it is made, whether a cast stops at an assert, what an
    exception says of itself, what is written to a stream. *)
From S2P Require Import Prelude.
From stdpp Require Import options.

(** ** WeakCallback

    The objects that have owners, with their number of owners, and those
    that have been destroyed, in order. *)
Record owners := mkOwners { strong_ : gmap Z positive; destroyed_ : list Z }.

(** [std::shared_ptr]: one owner more, one less. *)
Definition retain (p : Z) (h : owners) : owners :=
  match strong_ h !! p with
  | Some n => mkOwners (<[p := Pos.succ n]> (strong_ h)) (destroyed_ h)
  | None => h
  end.
Definition release (p : Z) (h : owners) : owners :=
  match strong_ h !! p with
  | Some 1%positive => mkOwners (delete p (strong_ h)) (destroyed_ h ++ [p])
  | Some n => mkOwners (<[p := Pos.pred n]> (strong_ h)) (destroyed_ h)
  | None => h
  end.
Definition alive (p : Z) (h : owners) : Prop := is_Some (strong_ h !! p).

(* src/muduo/base/WeakCallback.h:24-26 WeakCallback *)
Record WeakCallback := mkWeak { object_ : Z; function_ : Z → owners → outcome owners }.

(* src/muduo/base/WeakCallback.h:29-34 makeWeakCallback *)
Definition makeWeakCallback (object : Z) (function : Z → owners → outcome owners) : WeakCallback := mkWeak object function.

(** The pointer that [lock] gives is an owner until the call is over. *)
(* src/muduo/base/WeakCallback.h:16-22 WeakCallback::operator() *)
Definition weak_call (w : WeakCallback) (h : owners) : outcome owners :=
  match strong_ h !! object_ w with
  | Some _ =>
      let! h := function_ w (object_ w) (retain (object_ w) h) in
      Ok (release (object_ w) h)
  | None => Ok h
  end.

(** A function that gives back no more owners than others have: the object is
    there when it returns if it was there, with an owner to spare, when it was
    called. *)
Definition keeps_owner (f : Z → owners → outcome owners) : Prop :=
  ∀ p h, (∃ n, strong_ h !! p = Some (Pos.succ n)) → ensures (f p h) (alive p).

(** The function runs on a live object or not at all, and when it drops the
    last other owner, the object dies at the end of the call and not before. *)
Lemma weak_call_safe w h :
  keeps_owner (function_ w) →
  (strong_ h !! object_ w = None → weak_call w h = Ok h) ∧
  (alive (object_ w) h → ∃ h1, function_ w (object_ w) (retain (object_ w) h) = Ok h1 ∧ alive (object_ w) h1 ∧
     ensures (weak_call w h) (λ h',
       alive (object_ w) h' ∧ destroyed_ h' = destroyed_ h1 ∨
       strong_ h' !! object_ w = None ∧ destroyed_ h' = destroyed_ h1 ++ [object_ w])).
Proof.
  intros Hf. unfold weak_call. split; [by intros ->|]. intros [n Hn]. rewrite Hn.
  assert (∃ m, strong_ (retain (object_ w) h) !! object_ w = Some (Pos.succ m)) as Hr.
  { exists n. unfold retain. rewrite Hn. cbn. by rewrite lookup_insert_eq. }
  pose proof (Hf (object_ w) (retain (object_ w) h) Hr) as H. apply ensures_ok in H as (h1 & E & [m Hm]).
  exists h1. split; [done|]. split; [by exists m|]. rewrite E. cbn [obind ensures]. unfold release. rewrite Hm.
  destruct m as [m|m|]; cbn; [left|left|right]; unfold alive; cbn; rewrite ?lookup_insert_eq, ?lookup_delete_eq; eauto.
Qed.

(** A callback of an object that only its own call keeps alive. *)
Definition drops_itself : WeakCallback := mkWeak 7 (λ p h, Ok (release p h)).
Lemma weak_call_once :
  (let! h := weak_call drops_itself (mkOwners {[ 7 := 1%positive ]} []) in weak_call drops_itself h) =
  Ok (mkOwners ∅ [7]).
Proof. by vm_compute. Qed.

(** ** Singletons *)

Section Singletons.
(** The default constructor; the n-th object it makes. *)
Context {T : Type} (make : nat → T).

(** A static object: none before the first call. *)
Record static := mkStatic { value : option T; made_ : nat }.
(* src/muduo/base/Singleton.h:12-15 Singleton::instance *)
Definition instance (s : static) : T * static :=
  match value s with
  | Some v => (v, s)
  | None => (make (made_ s), mkStatic (Some (make (made_ s))) (S (made_ s)))
  end.

Lemma singleton_once s :
  let '(v, s1) := instance s in
  instance s1 = (v, s1) ∧ (made_ s1 <= S (made_ s))%nat ∧ (value s = None → made_ s1 = S (made_ s)) ∧
  (∀ x, value s = Some x → v = x ∧ s1 = s).
Proof using Type.
  unfold instance. destruct (value s) as [x|] eqn:E.
  - rewrite E. split_and!; [done|lia|done|]. by intros y [= ->].
  - cbn. by split_and!.
Qed.

(** One object for each thread. *)
Record thread_static := mkThreadStatic { t_value_ : gmap Z T; t_made : nat }.
(* src/muduo/base/ThreadLocalSingleton.h:14-19 ThreadLocalSingleton::instance *)
Definition thread_instance (t : Z) (s : thread_static) : T * thread_static :=
  match t_value_ s !! t with
  | Some v => (v, s)
  | None => let v := make (t_made s) in (v, mkThreadStatic (<[t := v]> (t_value_ s)) (S (t_made s)))
  end.
(* src/muduo/base/ThreadLocalSingleton.h:21-23 ThreadLocalSingleton::pointer *)
Definition thread_pointer (t : Z) (s : thread_static) : option T := t_value_ s !! t.

Lemma thread_singleton t s :
  let '(v, s1) := thread_instance t s in
  thread_pointer t s1 = Some v ∧ thread_instance t s1 = (v, s1) ∧
  (∀ t', t' ≠ t → thread_pointer t' s1 = thread_pointer t' s) ∧
  (∀ x, thread_pointer t s = Some x → v = x ∧ s1 = s).
Proof using Type.
  unfold thread_instance, thread_pointer. destruct (t_value_ s !! t) as [x|] eqn:E.
  - rewrite E. split_and!; try done. by intros y [= ->].
  - cbn. rewrite lookup_insert_eq. split_and!; try done. intros t' Hne. by rewrite lookup_insert_ne.
Qed.
End Singletons.

(** ** Types.h and Callbacks.h *)

(* src/muduo/base/Types.h:21-21 memZero *)
Definition memZero (n : Z) (p : bytes) : outcome bytes := write_at 0 (replicate (Z.to_nat n) Byte.x00) p.
(* src/muduo/base/Types.h:22-24 memZero(span) *)
Definition memZero_span (p : bytes) : bytes := replicate (length p) Byte.x00.
Lemma memZero_all p : memZero (len p) p = Ok (memZero_span p).
Proof.
  unfold memZero, memZero_span, write_at, len. rewrite Nat2Z.id, length_replicate, Z.add_0_l, !Z.leb_refl, Nat2Z.id.
  change (Z.to_nat 0) with 0%nat. cbn [andb Z.leb Z.compare take app]. by rewrite drop_all, app_nil_r.
Qed.

(** [dynamic] says whether [dynamic_cast] succeeds; a null pointer is 0. *)
Section Casts.
Context (dynamic : Z → bool) (ndebug polymorphic : bool).
(* src/muduo/base/Types.h:41-48 down_cast *)
Definition down_cast (f : Z) : outcome Z :=
  if negb ndebug && polymorphic then assert! (f =? 0) || dynamic f ;; Ok f else Ok f.
(* src/muduo/net/Callbacks.h:31-40 down_pointer_cast *)
Definition down_pointer_cast (f : Z) : outcome Z :=
  if negb ndebug then assert! (f =? 0) || dynamic f ;; Ok f else Ok f.

(** A cast never changes the pointer; it stops only when debugging, at an
    object of another type. *)
Lemma down_cast_same f :
  down_cast f = Ok f ∨ down_cast f = Fault AssertFailed ∧ ndebug = false ∧ f ≠ 0 ∧ dynamic f = false.
Proof using Type.
  unfold down_cast. destruct ndebug, polymorphic; cbn; try by left.
  destruct (Z.eqb_spec f 0); cbn; [by left|]. destruct (dynamic f) eqn:E; [by left|by right].
Qed.
End Casts.

(** [MoveOnlyFunction]: the callable or nothing; moving leaves nothing. *)
(* src/muduo/base/Types.h:105-105 MoveOnlyFunction *)
Definition MoveOnlyFunction (A R : Type) : Type := option (A → R).
(* src/muduo/base/Types.h:76-78 MoveOnlyFunction::operator bool *)
Definition function_set {A R} (f : MoveOnlyFunction A R) : bool := match f with Some _ => true | None => false end.
(* src/muduo/base/Types.h:80-83 MoveOnlyFunction::operator() *)
Definition function_call {A R} (f : MoveOnlyFunction A R) (a : A) : outcome R :=
  match f with Some g => Ok (g a) | None => Fault AssertFailed end.
(* src/muduo/base/Types.h:66-66 MoveOnlyFunction::MoveOnlyFunction(MoveOnlyFunction &&) *)
Definition function_move {A R} (f : MoveOnlyFunction A R) : MoveOnlyFunction A R * MoveOnlyFunction A R := (f, None).

(** ** Exception *)

Record location := mkLocation { loc_file : bytes; loc_function : bytes; loc_line : Z }.
Inductive StackTraceMode : Set := Capture | Skip.

(* src/muduo/base/Exception.h:50-54 Exception *)
Record Exception := mkException {
  message_ : bytes; fileName_ : bytes; functionName_ : bytes; line_ : Z; stack_ : bytes
}.

Section Exceptions.
(** [CurrentThread::stackTrace(false)] where the exception is made, and the
    place of the delegating constructors in [Exception.cc]. *)
Context (trace : bytes) (here : Z → location).

(* src/muduo/base/Exception.cc:20-27 Exception::Exception(string_view, StackTraceMode, source_location) *)
Definition newException (what : bytes) (mode : StackTraceMode) (where_ : location) : Exception :=
  mkException what (loc_file where_) (loc_function where_) (loc_line where_)
    (match mode with Capture => trace | Skip => [] end).
(* src/muduo/base/Exception.cc:16-18 Exception::Exception(string_view, source_location) *)
Definition exception_at (what : bytes) (where_ : location) : Exception := newException what Skip where_.
(** [source_location::current()] is evaluated in the constructor. *)
(* src/muduo/base/Exception.cc:12-14 Exception::Exception(string_view) *)
Definition exception_of (what : bytes) : Exception := newException what Capture (here 13).
(* src/muduo/base/Exception.cc:7-9 Exception::Exception(const char * ) *)
Definition exception_of_cstr (what : option bytes) : Exception := newException (default [] what) Capture (here 9).

(** What the exception says was passed to it. *)
(* src/muduo/base/Exception.h:26-28 Exception::what *)
Definition what (e : Exception) : bytes := take (default (length (message_ e)) (find_byte Byte.x00 (message_ e))) (message_ e).
(* src/muduo/base/Exception.h:29-29 Exception::whatView *)
Definition whatView (e : Exception) : bytes := message_ e.

Lemma what_message e : Byte.x00 ∉ message_ e → what e = whatView e.
Proof using Type. intros H. unfold what, whatView. rewrite (proj2 (find_byte_none _ _) H). cbn. by rewrite firstn_all. Qed.

(** The exceptions of the short constructors are all from [Exception.cc]. *)
Lemma exception_place s t :
  fileName_ (exception_of s) = loc_file (here 13) ∧ line_ (exception_of s) = line_ (exception_of t).
Proof using Type. done. Qed.
End Exceptions.

(** ** Print

    A stream is a number, 0 for a null pointer; what is written are the calls
    of [fwrite] (or of [std::print]), in order. *)
Section Print.
Context (cpp23_print : bool) (stdout stderr : Z).
Definition newline : bytes := [Byte.x0a].

(* src/muduo/base/Print.h:17-23 detail::writeFile *)
Definition writeFile (stream : Z) (text : bytes) : list (Z * bytes) :=
  if (stream =? 0) || (len text =? 0) then [] else [(stream, text)].
(* src/muduo/base/Print.h:25-28 detail::writeLineFile *)
Definition writeLineFile (stream : Z) (text : bytes) : list (Z * bytes) := writeFile stream text ++ writeFile stream newline.

(** [std::print] and [std::println]: the line is one piece. *)
Definition std_print (stream : Z) (text : bytes) : list (Z * bytes) := [(stream, text)].
Definition std_println (stream : Z) (text : bytes) : list (Z * bytes) := [(stream, text ++ newline)].

(** Of a template, [text] is the formatted text. *)
(* src/muduo/base/Print.h:34-41 print(format_string) *)
Definition print_format (text : bytes) : list (Z * bytes) := if cpp23_print then std_print stdout text else writeFile stdout text.
(* src/muduo/base/Print.h:43-50 println(format_string) *)
Definition println_format (text : bytes) : list (Z * bytes) := if cpp23_print then std_println stdout text else writeLineFile stdout text.
(* src/muduo/base/Print.h:52-58 print(string_view) *)
Definition print (text : bytes) : list (Z * bytes) := if cpp23_print then std_print stdout text else writeFile stdout text.
(* src/muduo/base/Print.h:60-66 println(string_view) *)
Definition println (text : bytes) : list (Z * bytes) := if cpp23_print then std_println stdout text else writeLineFile stdout text.
(* src/muduo/base/Print.h:68-68 println() *)
Definition println_empty : list (Z * bytes) := println [].
(* src/muduo/base/Print.h:70-77 eprint(format_string) *)
Definition eprint_format (text : bytes) : list (Z * bytes) := if cpp23_print then std_print stderr text else writeFile stderr text.
(* src/muduo/base/Print.h:79-86 eprintln(format_string) *)
Definition eprintln_format (text : bytes) : list (Z * bytes) := if cpp23_print then std_println stderr text else writeLineFile stderr text.
(* src/muduo/base/Print.h:88-94 eprint(string_view) *)
Definition eprint (text : bytes) : list (Z * bytes) := if cpp23_print then std_print stderr text else writeFile stderr text.
(* src/muduo/base/Print.h:96-102 eprintln(string_view) *)
Definition eprintln (text : bytes) : list (Z * bytes) := if cpp23_print then std_println stderr text else writeLineFile stderr text.
(* src/muduo/base/Print.h:107-109 print(FILE *, string_view) *)
Definition print_to (stream : Z) (text : bytes) : list (Z * bytes) := writeFile stream text.
(* src/muduo/base/Print.h:111-113 println(FILE *, string_view) *)
Definition println_to (stream : Z) (text : bytes) : list (Z * bytes) := writeLineFile stream text.
(* src/muduo/base/Print.h:115-123 print(FILE *, format_string) *)
Definition print_format_to (stream : Z) (text : bytes) : list (Z * bytes) :=
  if cpp23_print then std_print stream text else print_to stream text.
(* src/muduo/base/Print.h:125-133 println(FILE *, format_string) *)
Definition println_format_to (stream : Z) (text : bytes) : list (Z * bytes) :=
  if cpp23_print then std_println stream text else println_to stream text.

(** What a stream gets. *)
Definition written (stream : Z) (l : list (Z * bytes)) : bytes := mjoin ((filter (λ x, x.1 = stream) l).*2).

Lemma writeFile_text stream text : stream ≠ 0 → written stream (writeFile stream text) = text.
Proof using Type.
  intros Hs. unfold writeFile, written. rewrite (proj2 (Z.eqb_neq _ _) Hs). cbn [orb].
  destruct (Z.eqb_spec (len text) 0) as [E|_].
  - destruct text; [done|]. unfold len in E. cbn in E. lia.
  - rewrite filter_cons, decide_True by done. cbn. by rewrite app_nil_r.
Qed.

Lemma written_app stream a b : written stream (a ++ b) = written stream a ++ written stream b.
Proof using Type. unfold written. by rewrite filter_app, fmap_app, join_app. Qed.

(** Either way of printing gives the stream the same bytes; only without
    [std::println] is a line more than one call. *)
Lemma println_text stream text :
  stream ≠ 0 →
  written stream (println_format_to stream text) = text ++ newline ∧
  (cpp23_print = false → text ≠ [] → println_format_to stream text = [(stream, text); (stream, newline)]).
Proof using Type.
  intros Hs. unfold println_format_to, println_to, writeLineFile. split.
  - destruct cpp23_print; [|by rewrite written_app, !writeFile_text].
    unfold written, std_println. rewrite filter_cons, decide_True by done. cbn. by rewrite app_nil_r.
  - intros -> Ht. unfold writeFile. rewrite (proj2 (Z.eqb_neq _ _) Hs). cbn [orb].
    destruct (Z.eqb_spec (len text) 0) as [E|_]; [|done]. destruct text; [done|]. unfold len in E. cbn in E. lia.
Qed.

(** A null stream is passed over, except by [std::print]. *)
Lemma print_null text : print_to 0 text = [] ∧ println_to 0 text = [].
Proof using Type. done. Qed.
End Print.
