(* ===== verification/HttpResponse.v ===== *)
(** * HttpResponse: the response a handler fills in and the server writes
    ([muduo/net/http/HttpResponse.h], [HttpResponse.cc])

    The header map is a [std::map], kept here as the sorted association list
    its iteration runs through. [read_response] is a client's reading of the
    bytes; the round trip below is against it. *)
From S2P Require Import Prelude StringMap Format Buffer HttpContext.
From stdpp Require Import sorting.
#[local] Open Scope Z_scope.
From stdpp Require Import options.

(* src/muduo/net/http/HttpResponse.h:14-28 HttpResponse::HttpStatusCode *)
Inductive HttpStatusCode : Set :=
| kUnknown | k200Ok | k301MovedPermanently | k400BadRequest | k404NotFound.

(** [static_cast<int>] of the enumerators. *)
Definition status_int (c : HttpStatusCode) : Z :=
  match c with
  | kUnknown => 0 | k200Ok => 200 | k301MovedPermanently => 301
  | k400BadRequest => 400 | k404NotFound => 404
  end.

(* src/muduo/net/http/HttpResponse.h:50-56 HttpResponse *)
Record HttpResponse := mkHttpResponse {
  headers_ : list (bytes * bytes);
  statusCode_ : HttpStatusCode;
  statusMessage_ : bytes;
  closeConnection_ : bool;
  body_ : bytes
}.

(* src/muduo/net/http/HttpResponse.h:30-30 HttpResponse::HttpResponse *)
Definition newResponse (close : bool) : HttpResponse := mkHttpResponse [] kUnknown [] close [].
(* src/muduo/net/http/HttpResponse.h:32-32 HttpResponse::setStatusCode *)
Definition setStatusCode (code : HttpStatusCode) (r : HttpResponse) : HttpResponse :=
  mkHttpResponse (headers_ r) code (statusMessage_ r) (closeConnection_ r) (body_ r).
(* src/muduo/net/http/HttpResponse.h:33-33 HttpResponse::setStatusMessage *)
Definition setStatusMessage (message : bytes) (r : HttpResponse) : HttpResponse :=
  mkHttpResponse (headers_ r) (statusCode_ r) message (closeConnection_ r) (body_ r).
(* src/muduo/net/http/HttpResponse.h:35-35 HttpResponse::setCloseConnection *)
Definition setCloseConnection (on : bool) (r : HttpResponse) : HttpResponse :=
  mkHttpResponse (headers_ r) (statusCode_ r) (statusMessage_ r) on (body_ r).
(* src/muduo/net/http/HttpResponse.h:36-36 HttpResponse::closeConnection *)
Definition closeConnection (r : HttpResponse) : bool := closeConnection_ r.
(* src/muduo/net/http/HttpResponse.h:42-44 HttpResponse::addHeader *)
Definition addHeader (key value : bytes) (r : HttpResponse) : HttpResponse :=
  mkHttpResponse (map_assign key value (headers_ r)) (statusCode_ r) (statusMessage_ r)
    (closeConnection_ r) (body_ r).
(* src/muduo/net/http/HttpResponse.h:38-40 HttpResponse::setContentType *)
Definition setContentType (contentType : bytes) (r : HttpResponse) : HttpResponse :=
  addHeader (str "Content-Type") contentType r.
(* src/muduo/net/http/HttpResponse.h:46-46 HttpResponse::setBody *)
Definition setBody (body : bytes) (r : HttpResponse) : HttpResponse :=
  mkHttpResponse (headers_ r) (statusCode_ r) (statusMessage_ r) (closeConnection_ r) body.

(* src/muduo/net/http/HttpResponse.cc:9-34 HttpResponse::appendToBuffer *)
Definition appendToBuffer (r : HttpResponse) (output : Buffer) : outcome Buffer :=
  let statusLine := str "HTTP/1.1 " ++ format_int (status_int (statusCode_ r)) ++ str " " in
  let! output := append statusLine output in
  let! output := append (statusMessage_ r) output in
  let! output := append kCRLF output in
  let! output :=
    (if closeConnection_ r then append (str "Connection: close" ++ kCRLF) output
     else
       let contentLength := str "Content-Length: " ++ format_nat (len (body_ r)) ++ kCRLF in
       let! output := append contentLength output in
       append (str "Connection: Keep-Alive" ++ kCRLF) output) in
  let! output :=
    foldM (λ '(key, value) output,
             let! output := append key output in
             let! output := append (str ": ") output in
             let! output := append value output in
             append kCRLF output) (headers_ r) output in
  let! output := append kCRLF output in
  append (body_ r) output.

(** ** A client *)

(** The first line of a text, and what follows it. *)
Definition take_line (s : bytes) : option (bytes * bytes) :=
  (λ i, (take i s, drop (i + 2) s)) <$> find_sub kCRLF s.

Fixpoint read_headers (fuel : nat) (s : bytes) : option (list (bytes * bytes) * bytes) :=
  match fuel with
  | O => None
  | S n =>
      '(line, rest) ← take_line s;
      if bool_decide (line = []) then Some ([], rest)
      else i ← find_byte Byte.x3a line;
           '(hs, rest') ← read_headers n rest;
           Some ((take i line, drop (i + 2) line) :: hs, rest')
  end.

Fixpoint field (key : bytes) (hs : list (bytes * bytes)) : option bytes :=
  match hs with
  | [] => None
  | (k, v) :: hs' => if bool_decide (k = key) then Some v else field key hs'
  end.

Record reply := mkReply {
  r_code : Z; r_message : bytes; r_fields : list (bytes * bytes); r_body : bytes; r_rest : bytes
}.

(** A reply: the status line, the fields, then the body, which ends with the
    stream when the connection is to close and after Content-Length bytes
    otherwise. *)
Definition read_response (s : bytes) : option reply :=
  '(line, rest) ← take_line s;
  if bool_decide (take 9 line = str "HTTP/1.1 ") then
    i ← find_byte Byte.x20 (drop 9 line);
    '(hs, rest') ← read_headers (S (length rest)) rest;
    let code := dec_value (take i (drop 9 line)) in
    let message := drop (S i) (drop 9 line) in
    if bool_decide (field (str "Connection") hs = Some (str "close"))
    then Some (mkReply code message hs rest' [])
    else n ← dec_value <$> field (str "Content-Length") hs;
         Some (mkReply code message hs (take (Z.to_nat n) rest') (drop (Z.to_nat n) rest'))
  else None.

(** What the server writes, as one string. *)
Definition framing (r : HttpResponse) : list (bytes * bytes) :=
  if closeConnection_ r then [(str "Connection", str "close")]
  else [(str "Content-Length", format_nat (len (body_ r))); (str "Connection", str "Keep-Alive")].
Definition print_field (h : bytes * bytes) : bytes := fst h ++ str ": " ++ snd h ++ kCRLF.
Definition print_status (r : HttpResponse) : bytes :=
  str "HTTP/1.1 " ++ format_int (status_int (statusCode_ r)) ++ str " " ++ statusMessage_ r.
Definition print_response (r : HttpResponse) : bytes :=
  print_status r ++ kCRLF ++ concat (print_field <$> framing r ++ headers_ r) ++ kCRLF ++ body_ r.

(** Fields and messages that do not break the line structure. *)
Definition field_ok (h : bytes * bytes) : Prop :=
  fst h ≠ [] ∧ clean [Byte.x3a; Byte.x0d] (fst h) ∧ clean [Byte.x0d] (snd h).
Record response_ok (r : HttpResponse) : Prop := {
  ro_message : clean [Byte.x0d] (statusMessage_ r);
  ro_headers : Forall field_ok (headers_ r);
  ro_size : len (print_response r) ≤ vector_max_size
}.

(** ** Writing *)

Lemma append_fits d s b0 b :
  wf b → content b = b0 ++ s → len (s ++ d) ≤ vector_max_size →
  safely (append d b) (λ b', wf b' ∧ content b' = b0 ++ s ++ d).
Proof.
  intros Hb Hc Hl. rewrite len_app in Hl. pose proof (len_nonneg s).
  eapply safely_mono; [apply append_safe; [done|lia]|].
  intros b' (H1 & H2). split; [done|]. by rewrite H2, Hc, <- app_assoc.
Qed.

Definition pieces_written (b0 s : bytes) (b : Buffer) : Prop := wf b ∧ content b = b0 ++ s.

Lemma then_append {A} (m : outcome Buffer) (k : Buffer → outcome A) d s b0 P :
  safely m (pieces_written b0 s) → len (s ++ d) ≤ vector_max_size →
  (∀ b, pieces_written b0 (s ++ d) b → safely (k b) P) →
  safely (let! b := m in let! b := append d b in k b) P.
Proof.
  intros Hm Hl Hk. eapply safely_bind; [exact Hm|]. intros b (Hb & Hc).
  eapply safely_bind; [by eapply append_fits|exact Hk].
Qed.

Lemma append_piece b d s b0 {A} (k : Buffer → outcome A) P :
  pieces_written b0 s b → len (s ++ d) ≤ vector_max_size →
  (∀ b, pieces_written b0 (s ++ d) b → safely (k b) P) →
  safely (let! b := append d b in k b) P.
Proof. intros Hb Hl Hk. by apply (then_append (Ok b) k d s b0 P Hb). Qed.

Lemma len_prefix (s t : bytes) n : len (s ++ t) ≤ n → len s ≤ n.
Proof. rewrite len_app. pose proof (len_nonneg t). lia. Qed.

Lemma last_piece b d s b0 :
  pieces_written b0 s b → len (s ++ d) ≤ vector_max_size →
  safely (append d b) (pieces_written b0 (s ++ d)).
Proof. intros (Hb & Hc) Hl. by eapply append_fits. Qed.

Lemma append_fields hs : ∀ b0 s b,
  pieces_written b0 s b → len (s ++ concat (print_field <$> hs)) ≤ vector_max_size →
  safely (foldM (λ '(key, value) output,
             let! output := append key output in
             let! output := append (str ": ") output in
             let! output := append value output in
             append kCRLF output) hs b)
    (pieces_written b0 (s ++ concat (print_field <$> hs))).
Proof.
  induction hs as [|[k v] hs IH]; intros b0 s b Hb Hl.
  { cbn. by rewrite app_nil_r. }
  cbn [fmap list_fmap concat] in *. unfold print_field at 1 in Hl. unfold print_field at 1.
  cbn [fst snd] in *. rewrite <- !app_assoc in Hl |- *.
  assert (∀ x, s ++ k ++ str ": " ++ v ++ kCRLF ++ x = (((s ++ k) ++ str ": ") ++ v) ++ kCRLF ++ x) as Hre
    by (intros; by rewrite <- !app_assoc).
  cbn [foldM]. rewrite Hre, app_assoc in Hl |- *.
  eapply (safely_bind _ _ (pieces_written b0 ((((s ++ k) ++ str ": ") ++ v) ++ kCRLF))).
  - apply len_prefix in Hl.
    eapply append_piece; [done|by do 3 apply len_prefix in Hl|]. intros b1 Hb1.
    eapply append_piece; [done|by do 2 apply len_prefix in Hl|]. intros b2 Hb2.
    eapply append_piece; [done|by apply len_prefix in Hl|]. intros b3 Hb3.
    by eapply last_piece.
  - intros b4 Hb4. by apply IH.
Qed.

Lemma appendToBuffer_ok r b :
  wf b → len (print_response r) ≤ vector_max_size →
  safely (appendToBuffer r b) (pieces_written (content b) (print_response r)).
Proof.
  intros Hb Hl. unfold appendToBuffer, print_response, print_status, framing in *.
  set (line := str "HTTP/1.1 " ++ format_int (status_int (statusCode_ r)) ++ str " ").
  assert (pieces_written (content b) [] b) as H0 by (split; [done|by rewrite app_nil_r]).
  set (fr := concat (print_field <$> framing r)).
  assert (∀ x, (str "HTTP/1.1 " ++ format_int (status_int (statusCode_ r)) ++ str " " ++ statusMessage_ r) ++ x =
    (line ++ statusMessage_ r) ++ x) as Hre by (intros; unfold line; by rewrite <- !app_assoc).
  rewrite fmap_app, concat_app in Hl |- *. fold (framing r) in Hl |- *. fold fr in Hl |- *.
  rewrite Hre in Hl |- *. set (hd := concat (print_field <$> headers_ r)) in *.
  replace ((line ++ statusMessage_ r) ++ kCRLF ++ (fr ++ hd) ++ kCRLF ++ body_ r) with
    ((((((line ++ statusMessage_ r) ++ kCRLF) ++ fr) ++ hd) ++ kCRLF) ++ body_ r) in *
    by (by rewrite <- !app_assoc).
  eapply append_piece; [exact H0|by do 5 apply len_prefix in Hl; apply len_prefix in Hl|]. intros b1 Hb1.
  eapply append_piece; [exact Hb1|by do 5 apply len_prefix in Hl|]. intros b2 Hb2.
  eapply append_piece; [exact Hb2|by do 4 apply len_prefix in Hl|]. intros b3 Hb3.
  eapply (safely_bind _ _ (pieces_written (content b) (((line ++ statusMessage_ r) ++ kCRLF) ++ fr))).
  { do 3 apply len_prefix in Hl. unfold fr, framing in Hl |- *. destruct (closeConnection_ r).
    - by eapply last_piece.
    - assert (∀ a, concat (print_field <$> [(str "Content-Length", a); (str "Connection", str "Keep-Alive")]) =
        (str "Content-Length: " ++ a ++ kCRLF) ++ (str "Connection: Keep-Alive" ++ kCRLF)) as Hcl
        by (intros; unfold print_field; cbn; by rewrite ?app_nil_r, <- ?app_assoc).
      rewrite Hcl in Hl |- *. set (cl := str "Content-Length: " ++ _) in *.
      set (ka := str "Connection: Keep-Alive" ++ _) in *. rewrite (app_assoc _ cl ka) in Hl |- *.
      eapply append_piece; [exact Hb3|by apply len_prefix in Hl|]. intros b4 Hb4. by eapply last_piece. }
  intros b4 Hb4. eapply safely_bind; [apply append_fields; [exact Hb4|by do 2 apply len_prefix in Hl]|].
  intros b5 Hb5. eapply append_piece; [exact Hb5|by apply len_prefix in Hl|]. intros b6 Hb6.
  by eapply last_piece.
Qed.

(** ** Reading what was written *)

Lemma take_line_app line rest :
  Byte.x0d ∉ line → take_line (line ++ kCRLF ++ rest) = Some (line, rest).
Proof.
  intros Hl. unfold take_line. rewrite find_crlf by done. cbn [fmap option_fmap option_map]. rewrite take_app_length.
  rewrite app_assoc, drop_app_length'; [done|]. by rewrite length_app.
Qed.

Lemma read_field n h rest :
  field_ok h →
  read_headers (S n) (print_field h ++ rest) =
    '(hs, rest') ← read_headers n rest; Some (h :: hs, rest').
Proof.
  intros (Hne & Hk & Hv). destruct h as [k v]. cbn [fst snd] in *.
  unfold print_field. cbn [read_headers fst snd].
  replace ((k ++ str ": " ++ v ++ kCRLF) ++ rest) with ((k ++ Byte.x3a :: Byte.x20 :: v) ++ kCRLF ++ rest)
    by (by rewrite <- !app_assoc).
  assert (Byte.x3a ∉ k ∧ Byte.x0d ∉ k) as [Hk1 Hk2] by (split; eapply clean_not_in; try done; set_solver).
  assert (Byte.x0d ∉ v) as Hv1 by (eapply clean_not_in; [done|set_solver]).
  rewrite take_line_app.
  2:{ rewrite not_elem_of_app, !not_elem_of_cons. by split_and!. }
  cbn. rewrite bool_decide_false by (by destruct k).
  rewrite find_byte_app by done. cbn.
  rewrite take_app_length. replace (drop (length k + 2) _) with v; [done|].
  change (k ++ Byte.x3a :: Byte.x20 :: v) with (k ++ [Byte.x3a; Byte.x20] ++ v).
  rewrite app_assoc, drop_app_length'; [done|]. by rewrite length_app.
Qed.

Lemma read_fields hs : ∀ n rest,
  Forall field_ok hs → (length hs < n)%nat →
  read_headers n (concat (print_field <$> hs) ++ kCRLF ++ rest) = Some (hs, rest).
Proof.
  induction hs as [|h hs IH]; intros [|n] rest Hok Hn; cbn in Hn; try lia.
  - cbn [fmap list_fmap concat read_headers].
    by rewrite (take_line_app []) by apply not_elem_of_nil.
  - apply Forall_cons in Hok as [Hh Hok]. cbn [fmap list_fmap concat].
    rewrite <- app_assoc, read_field by done. rewrite IH by (done || lia). done.
Qed.

Lemma print_fields_length hs : (length hs ≤ length (concat (print_field <$> hs)))%nat.
Proof.
  induction hs as [|h hs IH]; [done|]. cbn [fmap list_fmap concat length] in *.
  unfold print_field at 1. rewrite !length_app.
  change (length (str ": ")) with 2%nat. lia.
Qed.

Lemma framing_ok r : Forall field_ok (framing r).
Proof.
  unfold framing. destruct (closeConnection_ r).
  - repeat constructor; by apply (bool_decide_unpack _).
  - constructor; [|repeat constructor; by apply (bool_decide_unpack _)].
    split_and!; [done|by apply (bool_decide_unpack _)|].
    unfold clean. eapply Forall_impl; [apply (format_nat_digits (len (body_ r))); apply len_nonneg|].
    intros b Hb ->%list_elem_of_singleton. done.
Qed.

Lemma status_read r :
  take 9 (print_status r) = str "HTTP/1.1 " ∧
  (∃ i, find_byte Byte.x20 (drop 9 (print_status r)) = Some i ∧
    dec_value (take i (drop 9 (print_status r))) = status_int (statusCode_ r) ∧
    drop (S i) (drop 9 (print_status r)) = statusMessage_ r).
Proof. unfold print_status. destruct (statusCode_ r); by (split; [done|eexists; split_and!]). Qed.

(** C20. What the server writes is what a client reads. [appendToBuffer] puts
    the response behind whatever the buffer holds, without failing unless the
    buffer cannot grow; and a reader of HTTP gets back the status code, the
    message, the connection's framing fields and the handler's fields in key
    order, and the body, whatever bytes it contains: with [Keep-Alive] it
    stops exactly at the end of the response, with [close] at the end of the
    stream. *)
Theorem http_response_roundtrip r b rest :
  wf b → response_ok r → (closeConnection_ r = true → rest = []) →
  ∃ out, safely (appendToBuffer r b) (λ b', wf b' ∧ content b' = content b ++ out) ∧
    read_response (out ++ rest) =
      Some (mkReply (status_int (statusCode_ r)) (statusMessage_ r) (framing r ++ headers_ r) (body_ r) rest).
Proof.
  intros Hb [Hm Hh Hsz] Hrest. exists (print_response r). split.
  { by apply appendToBuffer_ok. }
  destruct (status_read r) as (H9 & i & Hi & Hcode & Hmsg).
  unfold read_response, print_response. rewrite <- !app_assoc, take_line_app.
  2:{ unfold print_status. rewrite !not_elem_of_app. assert (Byte.x0d ∉ statusMessage_ r)
        by (eapply clean_not_in; [done|set_solver]).
      split_and!; [by apply (bool_decide_unpack _)| |by apply (bool_decide_unpack _)|done].
      destruct (statusCode_ r); by apply (bool_decide_unpack _). }
  cbn [mbind option_bind]. rewrite bool_decide_true by done. rewrite Hi. cbn [mbind option_bind].
  rewrite read_fields.
  2:{ apply Forall_app. split; [apply framing_ok|done]. }
  2:{ pose proof (print_fields_length (framing r ++ headers_ r)). rewrite (length_app (concat _)). lia. }
  rewrite Hcode, Hmsg. unfold framing in *. destruct (closeConnection_ r).
  - cbn -[str]. rewrite (Hrest eq_refl), app_nil_r. done.
  - cbn [mbind option_bind]. set (hs := _ ++ headers_ r).
    assert (field (str "Connection") hs = Some (str "Keep-Alive")) as -> by done.
    assert (field (str "Content-Length") hs = Some (format_nat (len (body_ r)))) as -> by done.
    rewrite bool_decide_false by done. cbn [fmap option_fmap option_map mbind option_bind].
    rewrite format_nat_value by apply len_nonneg.
    unfold len. rewrite Nat2Z.id, take_app_length, drop_app_length. done.
Qed.

(** A response built by a handler has its fields in order, each key once. *)
Lemma addHeader_sorted k v r :
  Sorted key_lt (headers_ r) → Sorted key_lt (headers_ (addHeader k v r)).
Proof. apply map_assign_sorted. Qed.

Definition sample_response : HttpResponse :=
  setBody (str "hello") (addHeader (str "Server") (str "muduo") (setContentType (str "text/plain")
    (setStatusMessage (str "OK") (setStatusCode k200Ok (newResponse false))))).

Lemma http_response_roundtrip_witness :
  ∃ out, safely (appendToBuffer sample_response fresh_input)
           (λ b', wf b' ∧ content b' = content fresh_input ++ out) ∧
    read_response (out ++ str "HTTP") =
      Some (mkReply 200 (str "OK") (framing sample_response ++ headers_ sample_response) (str "hello") (str "HTTP")).
Proof.
  apply (http_response_roundtrip sample_response fresh_input (str "HTTP")).
  - by repeat split.
  - split; [by apply (bool_decide_unpack _)| |by vm_compute].
    repeat constructor; by apply (bool_decide_unpack _).
  - done.
Defined.
