(* ===== verification/HttpServer.v ===== *)
(** * HttpServer: requests in, responses out ([muduo/net/http/HttpServer.cc])

    The server is verified against the class of connections
    ([Connection.ConnectionLaws]); the handler the user installs is a parameter.
    [deliver] is a read of the connection followed by its message callback. *)
From S2P Require Import Prelude Buffer HttpRequest HttpContext HttpResponse TcpConnection Connection.
From stdpp Require Import options.

(* src/muduo/net/http/HttpServer.cc:13-17 defaultHttpCallback *)
Definition defaultHttpCallback (_ : HttpRequest) (resp : HttpResponse) : HttpResponse :=
  setCloseConnection true (setStatusMessage (str "Not Found") (setStatusCode k404NotFound resp)).

Section Server.
Context {S : Type} `{ConnectionLaws HttpContext S}.
Context (httpCallback_ : HttpRequest → HttpResponse → HttpResponse).

(* src/muduo/net/http/HttpServer.cc:40-44 HttpServer::onConnection *)
Definition onConnection (conn : S) : S :=
  if conn_connected conn then conn_setContext newContext conn else conn.

(** The flag the response starts with. *)
Definition wants_close (req : HttpRequest) : bool :=
  let connection := getHeader (str "Connection") req in
  bool_decide (connection = str "close") ||
  (bool_decide (version_ req = kHttp10) && bool_decide (connection ≠ str "Keep-Alive")).

(** The response of the handler. *)
Definition respond (req : HttpRequest) : HttpResponse := httpCallback_ req (newResponse (wants_close req)).

(* src/muduo/net/http/HttpServer.cc:71-86 HttpServer::onRequest *)
Definition onRequest (conn : S) (req : HttpRequest) : outcome S :=
  let connection := getHeader (str "Connection") req in
  let close := bool_decide (connection = str "close") ||
               (bool_decide (version_ req = kHttp10) && bool_decide (connection ≠ str "Keep-Alive")) in
  let response := httpCallback_ req (newResponse close) in
  let! buf := newBuffer kInitialSize in
  let! buf := appendToBuffer response buf in
  let! (_, conn) := conn_sendBuffer buf conn in
  if closeConnection response then conn_shutdown conn else Ok conn.

(* src/muduo/net/http/HttpServer.cc:46-69 HttpServer::onMessage *)
Definition onMessage (conn : S) (buf : Buffer) (receiveTime : Z) : outcome (S * Buffer) :=
  let conn := match conn_context conn with
              | None => conn_setContext newContext conn
              | Some _ => conn
              end in
  match conn_context conn with
  | None =>
      let! conn := conn_send (str "HTTP/1.1 500 Internal Server Error" ++ kCRLF ++ kCRLF) conn in
      let! conn := conn_shutdown conn in Ok (conn, buf)
  | Some context =>
      let! (ok, buf, context) := parseRequest buf receiveTime context in
      let conn := conn_setContext context conn in
      if negb ok then
        let! conn := conn_send (str "HTTP/1.1 400 Bad Request" ++ kCRLF ++ kCRLF) conn in
        let! conn := conn_shutdown conn in Ok (conn, buf)
      else if gotAll context then
        let! conn := onRequest conn (request_ context) in
        Ok (conn_setContext (reset context) conn, buf)
      else Ok (conn, buf)
  end.

(** A read appends to the input buffer and calls the message callback. *)
Definition deliver (r : Z * bytes) (s : S * Buffer) : outcome (S * Buffer) :=
  let! b := append (snd r) (snd s) in onMessage (fst s) b (fst r).
Definition serve (reads : list (Z * bytes)) (s : S * Buffer) : outcome (S * Buffer) :=
  foldM deliver reads s.

(** ** One read of a request *)

(** The parser's state after the prefix [p] of a request. *)
Definition mid_request (p : bytes) (c : HttpContext) (b : Buffer) : Prop :=
  wf b ∧ ∃ c0 m, parse_q m 0 newContext p = Some (true, c0, content b) ∧ gotAll c0 = false ∧ forget c = forget c0.

Lemma mid_start b : wf b → content b = [] → mid_request [] newContext b.
Proof. intros Hb Hc. split; [done|]. exists newContext, 1%nat. by rewrite Hc. Qed.

Definition got_request (w : wire_request) (c : HttpContext) (b : Buffer) : Prop :=
  wf b ∧ content b = [] ∧ gotAll c = true ∧ ∃ t, request_ c = setReceiveTime t (wire_value w).

Lemma one_read w t d p rest c b :
  wire_ok w → mid_request p c b → (p ++ d) ++ rest = print_request w → len d ≤ vector_max_size →
  safely (let! b1 := append d b in parseRequest b1 t c) (λ '(ok, b2, c2), ok = true ∧
    if gotAll c2 then rest = [] ∧ got_request w c2 b2 else rest ≠ [] ∧ mid_request (p ++ d) c2 b2).
Proof.
  intros Hw (Hb & c0 & m0 & Hp0 & Hg0 & Hf0) Heq Hd.
  destruct (parse_printed w [] Hw) as [m1 P1]. rewrite app_nil_r in P1.
  eapply safely_bind; [by apply append_safe|]. intros b1 (Hb1 & Hc1).
  eapply safely_mono; [by apply safely_ensures, parseRequest_ok|].
  intros [[ok b2] c2] (Hb2 & _ & Hp). rewrite Hc1 in Hp.
  revert Hp. generalize (Datatypes.S (length (content b ++ d))). intros n Hp.
  pose proof (parse_q_forget n t 0 c c0 (content b ++ d) Hf0) as Hq. rewrite Hp in Hq. cbn in Hq.
  destruct (parse_q n 0 c0 (content b ++ d)) as [[[ok' c2'] q2]|] eqn:Hp'; cbn in Hq; [|done].
  assert (ok' = ok ∧ q2 = content b2 ∧ forget c2 = forget c2') as (-> & -> & Hf2) by (split_and!; congruence).
  pose proof (parse_q_app _ _ _ _ d _ _ _ (eq_refl : gotAll newContext = false) Hp0) as Happ.
  unfold decided in Happ. rewrite Hg0 in Happ. cbn in Happ. destruct (Happ _ _ Hp') as [m2 Hm2].
  pose proof (parse_q_app _ _ _ _ rest _ _ _ (eq_refl : gotAll newContext = false) Hm2) as Hrest.
  rewrite Heq in Hrest. rewrite (gotAll_forget _ _ Hf2).
  destruct (decided ok c2') eqn:Hdc.
  - destruct Hrest as [m3 P3]. pose proof (parse_q_det _ _ _ _ _ _ _ P1 P3) as [= <- <- Hnil].
    symmetry in Hnil. apply app_eq_nil in Hnil as [Hnil ->].
    rewrite <- (gotAll_forget _ _ Hf2) at 1. assert (gotAll c2 = true) as Hg2 by (by rewrite (gotAll_forget _ _ Hf2)).
    rewrite Hg2. unfold got_request. split_and!; try done.
    exists (receiveTime_ (request_ c2)). apply (f_equal request_) in Hf2.
    destruct c2 as [st [m v pa qu ti hd]]. cbn in Hf2 |- *.
    injection Hf2 as -> -> -> -> ->. done.
  - unfold decided in Hdc. apply orb_false_iff in Hdc as [Hok Hg2].
    destruct ok; [|done]. rewrite Hg2. split; [done|]. split.
    + intros ->. rewrite app_nil_r in Heq. rewrite Heq in Hm2.
      pose proof (parse_q_det _ _ _ _ _ _ _ P1 Hm2) as [= <- _]. done.
    + split; [done|]. by exists c2', m2.
Qed.

(** ** The response *)

Hypothesis response_fits : ∀ req resp, len (print_response (httpCallback_ req resp)) ≤ vector_max_size.

(** The response to [w], should its first line have arrived at time [t]. *)
Definition answer (t : Z) (w : wire_request) : HttpResponse := respond (setReceiveTime t (wire_value w)).

(** The connection after a response: still in use, or shut down if the
    response says so. *)
Definition answered (r : HttpResponse) (s s' : S) : Prop :=
  handed s' = handed s ++ [print_response r] ∧ if closeConnection_ r then finished s' else usable s'.

Lemma onRequest_ok conn req :
  usable conn →
  safely (onRequest conn req) (λ s', answered (respond req) conn s' ∧ conn_context s' = conn_context conn).
Proof using response_fits.
  intros Hu. unfold onRequest. fold (wants_close req). fold (respond req).
  eapply safely_bind; [apply safely_ensures, newBuffer_ok; by unfold kInitialSize|].
  intros b (Hb & Hc & _).
  eapply safely_bind; [apply appendToBuffer_ok; [done|apply response_fits]|].
  intros b1 (Hb1 & Hc1). rewrite Hc, app_nil_l in Hc1.
  eapply safely_bind; [by apply sendBuffer_law|].
  intros [b2 s2] (Hu2 & Hh2 & Hx2 & _). rewrite Hc1 in Hh2. unfold answered, closeConnection.
  destruct (closeConnection_ (respond req)); [|done].
  eapply safely_mono; [by apply shutdown_law|]. intros s3 (? & Hh3 & Hx3). split_and!; [congruence|done|congruence].
Qed.

Definition in_context (c : HttpContext) (s : S) : Prop :=
  conn_context s = Some c ∨ (conn_context s = None ∧ c = newContext).

Lemma enter_context c s :
  usable s → in_context c s →
  let s0 := match conn_context s with None => conn_setContext newContext s | Some _ => s end in
  usable s0 ∧ handed s0 = handed s ∧ conn_context s0 = Some c.
Proof.
  intros Hu [Hc|[Hc ->]]; rewrite Hc; cbn; [done|]. by apply setContext_law.
Qed.

Definition between (p rest : bytes) (w : wire_request) (s : S) (s' : S * Buffer) : Prop :=
  if bool_decide (rest = []) then
    wf (snd s') ∧ content (snd s') = [] ∧ conn_context (fst s') = Some newContext ∧
    ∃ t, answered (answer t w) s (fst s')
  else usable (fst s') ∧ handed (fst s') = handed s ∧
    ∃ c, conn_context (fst s') = Some c ∧ mid_request p c (snd s').

Lemma deliver_ok w t d p rest c b s :
  wire_ok w → usable s → in_context c s → mid_request p c b →
  (p ++ d) ++ rest = print_request w → len d ≤ vector_max_size →
  safely (deliver (t, d) (s, b)) (between (p ++ d) rest w s).
Proof using response_fits.
  intros Hw Hu Hx Hmid Heq Hd. unfold deliver. cbn [fst snd].
  pose proof (one_read w t d p rest c b Hw Hmid Heq Hd) as Hread. apply safely_bind_inv in Hread.
  eapply safely_bind; [exact Hread|]. clear Hread. intros b1 Hparse. cbn in Hparse. unfold onMessage.
  destruct (enter_context c s Hu Hx) as (Hu0 & Hh0 & Hx0). cbv zeta in *.
  set (s0 := match conn_context s with None => _ | Some _ => _ end) in *. rewrite Hx0.
  eapply safely_bind; [exact Hparse|]. intros [[ok b2] c2] (-> & H2). cbn [negb].
  destruct (setContext_law c2 s0 Hu0) as (Hu2 & Hh2 & Hx2). unfold between.
  destruct (gotAll c2).
  - destruct H2 as (-> & Hb2 & Hc2 & _ & t' & Hreq). rewrite bool_decide_true by done.
    eapply safely_bind; [by apply onRequest_ok|]. intros s3 ((Hh3 & Hend) & Hx3).
    rewrite Hreq in Hh3, Hend. cbn. unfold answered, answer.
    destruct (closeConnection_ _) eqn:Hcl.
    + destruct (finished_setContext (reset c2) s3 Hend) as (? & Hh4 & Hx4).
      split_and!; try done. exists t'. rewrite Hcl. split; [congruence|done].
    + destruct (setContext_law (reset c2) s3 Hend) as (? & Hh4 & Hx4).
      split_and!; try done. exists t'. rewrite Hcl. split; [congruence|done].
  - destruct H2 as (Hne & Hmid2). rewrite bool_decide_false by done. cbn.
    split_and!; [done|congruence|]. by exists c2.
Qed.

Definition reads_ok (reads : list (Z * bytes)) : Prop :=
  Forall (λ r, snd r ≠ [] ∧ len (snd r) ≤ vector_max_size) reads.

(** A request cut into reads gets its one response when its last byte comes. *)
Lemma serve_request w reads : ∀ p c b s,
  wire_ok w → reads_ok reads → reads ≠ [] → usable s → in_context c s → mid_request p c b →
  p ++ concat (snd <$> reads) = print_request w →
  safely (serve reads (s, b)) (λ s', between (p ++ concat (snd <$> reads)) [] w s s').
Proof using response_fits.
  induction reads as [|[t d] reads IH]; intros p c b s Hw Hr Hne Hu Hx Hmid Heq; [done|].
  apply Forall_cons in Hr as [[Hd0 Hd] Hr]. cbn [fst snd fmap list_fmap concat] in *.
  rewrite app_assoc in Heq |- *. unfold serve. cbn [foldM].
  eapply safely_bind; [by apply (deliver_ok w t d p (concat (snd <$> reads)) c b s)|].
  intros [s1 b1] H1. destruct reads as [|r reads'].
  - cbn [foldM fmap list_fmap concat] in *. by rewrite app_nil_r.
  - unfold between in H1. rewrite bool_decide_false in H1.
    2:{ apply Forall_cons in Hr as [[Hr0 _] _]. cbn. intros [? ?]%app_eq_nil. done. }
    destruct H1 as (Hu1 & Hh1 & c1 & Hx1 & Hmid1). cbn [fst snd] in *.
    eapply safely_mono; [apply (IH (p ++ d) c1 b1 s1); try done; by left|].
    intros s' Hs'. unfold between, answered in *. by rewrite Hh1 in Hs'.
Qed.
(** ** After the server has shut its side down *)

Definition stays_finished (s : S) (s' : S * Buffer) : Prop :=
  finished (fst s') ∧ wf (snd s') ∧ handed (fst s') = handed s.

Lemma onRequest_finished conn req :
  finished conn → safely (onRequest conn req) (λ s', s' = conn).
Proof using response_fits.
  intros Hf. unfold onRequest. fold (wants_close req). fold (respond req).
  eapply safely_bind; [apply safely_ensures, newBuffer_ok; by unfold kInitialSize|].
  intros b (Hb & _). eapply safely_bind; [apply appendToBuffer_ok; [done|apply response_fits]|].
  intros b1 _. rewrite finished_sendBuffer by done. cbn. rewrite finished_shutdown by done.
  by destruct (closeConnection _).
Qed.

Lemma deliver_finished r s b :
  finished s → wf b → len (snd r) ≤ vector_max_size → safely (deliver r (s, b)) (stays_finished s).
Proof using response_fits.
  intros Hf Hb Hr. unfold deliver. cbn [fst snd].
  eapply safely_bind; [by apply append_safe|]. intros b1 (Hb1 & _). unfold onMessage.
  set (s0 := match conn_context s with None => _ | Some _ => _ end).
  assert (finished s0 ∧ handed s0 = handed s ∧ ∃ c, conn_context s0 = Some c) as (Hf0 & Hh0 & c & ->).
  { unfold s0. destruct (conn_context s) as [c|] eqn:Hx; [by eauto|].
    destruct (finished_setContext newContext s Hf) as (? & ? & ?). eauto. }
  eapply safely_bind; [by apply safely_ensures, parseRequest_ok|]. intros [[ok b2] c2] (Hb2 & _).
  destruct (finished_setContext c2 s0 Hf0) as (Hf2 & Hh2 & _).
  destruct (negb ok).
  { rewrite finished_send by done. cbn. rewrite finished_shutdown by done. cbn. split_and!; [done|done|cbn; congruence]. }
  destruct (gotAll c2); [|split_and!; [done|done|cbn; congruence]].
  eapply safely_bind; [by apply onRequest_finished|]. intros s3 ->.
  destruct (finished_setContext (reset c2) _ Hf2) as (? & ? & _). split_and!; [done|done|cbn; congruence].
Qed.

Lemma serve_finished reads s b :
  finished s → wf b → reads_ok reads → safely (serve reads (s, b)) (stays_finished s).
Proof using response_fits.
  intros Hf Hb Hr. apply (safely_foldM deliver (stays_finished s)); [done|].
  intros r [s1 b1] Hin (Hf1 & Hb1 & Hh1). unfold reads_ok in Hr. rewrite Forall_forall in Hr.
  cbn in *. eapply safely_mono; [apply deliver_finished; [done|done|by apply Hr]|].
  intros s2 (? & ? & ?). split_and!; [done|done|congruence].
Qed.

(** ** A session *)

(** A client that waits for the response before it writes the next request:
    each request arrives in reads of its own, cut anywhere. *)
Record exchange_ok (x : wire_request * list (Z * bytes)) : Prop := {
  xo_wire : wire_ok (fst x);
  xo_reads : reads_ok (snd x);
  xo_text : concat (snd <$> snd x) = print_request (fst x)
}.

(** The responses, up to the first that closes the connection. *)
Fixpoint answers (l : list (Z * wire_request)) : list bytes * bool :=
  match l with
  | [] => ([], false)
  | (t, w) :: l' =>
      if closeConnection_ (answer t w) then ([print_response (answer t w)], true)
      else let '(a, closed) := answers l' in (print_response (answer t w) :: a, closed)
  end.

Definition session_end (l : list (Z * wire_request)) (s : S) (s' : S * Buffer) : Prop :=
  handed (fst s') = handed s ++ fst (answers l) ∧
  if snd (answers l) then finished (fst s')
  else usable (fst s') ∧ wf (snd s') ∧ content (snd s') = [] ∧ in_context newContext (fst s').

End Server.

(** ** The theorem at a concrete input, over [TcpConnection] *)

Definition sample_handler (req : HttpRequest) (resp : HttpResponse) : HttpResponse :=
  setBody (str "hello") (setStatusMessage (str "OK") (setStatusCode k200Ok resp)).

Lemma sample_handler_fits req resp :
  len (print_response (sample_handler req (newResponse resp))) ≤ 200.
Proof. by destruct resp. Qed.

(** A handler that starts from scratch, so that its response is small. *)
Definition sample_callback (req : HttpRequest) (resp : HttpResponse) : HttpResponse :=
  sample_handler req (newResponse (closeConnection resp)).

Definition keep_wire : wire_request := mkWire kGet (str "/b") None kHttp11 [].
Definition sample_exchanges : list (wire_request * list (Z * bytes)) :=
  [(keep_wire, [(3, str "GET /b HTTP/1."); (4, str "1" ++ kCRLF ++ kCRLF)]);
   (sample_wire, [(5, print_request sample_wire)])].

Definition sample_state : TcpConnection * option HttpContext := (sample_up, None).
#[local] Instance sample_ops : ConnectionOps HttpContext (TcpConnection * option HttpContext) :=
  tcp_ops sample_kernel sample_user.
#[local] Instance sample_laws : ConnectionLaws HttpContext (TcpConnection * option HttpContext) :=
  tcp_laws sample_kernel sample_user sample_kernel_ok.

Lemma sample_usable : usable sample_state.
Proof.
  destruct (reachable_inv _ _ sample_kernel_ok 9 sample_up sample_plays sample_up_reachable)
    as [Hc [(Hx & _)|[Hl|(L & Hd & _)]]]; [by vm_compute in Hx|by split_and!|].
  destruct Hd as (Hs & _). by vm_compute in Hs.
Qed.

Lemma sample_exchanges_ok : Forall exchange_ok sample_exchanges.
Proof.
  assert (wire_ok keep_wire).
  { split; try done. by apply (bool_decide_unpack _). }
  constructor; [|constructor; [|constructor]]; split; cbn [fst snd]; try done; try apply sample_wire_ok;
    repeat constructor; done.
Qed.


(** A second request in the same read waits for the next read: one call of
    [onMessage] answers one request. *)
Lemma pipelined_request_waits :
  match deliver sample_callback (9, print_request keep_wire ++ print_request keep_wire) (sample_state, conn_buffer) with
  | Ok (s, b) => length (handed s) = S (length (handed sample_state)) ∧ content b = print_request keep_wire
  | Fault _ => False
  end.
Proof. by vm_compute. Qed.
