(* ===== verification/ProtobufCodec.v ===== *)
(** * ProtobufCodec: length-prefixed, checksummed protobuf frames
    ([muduo/net/protobuf/ProtobufCodecLite.h], [ProtobufCodecLite.cc])

    Protobuf's serializer and parser and zlib's [adler32] are parameters; what
    is relied on is that parsing what was serialized gives the message back.
    A frame on the wire is

      length (4 bytes, big endian) | tag | payload | adler32 of tag and payload

    with the length of everything behind it. *)
From S2P Require Import Prelude Endian Buffer TcpConnection Connection.
From stdpp Require Import options.

(* src/muduo/net/protobuf/ProtobufCodecLite.h:28-28 ProtobufCodecLite::kHeaderLen *)
Definition kHeaderLen : Z := 4.
(* src/muduo/net/protobuf/ProtobufCodecLite.h:29-29 ProtobufCodecLite::kChecksumLen *)
Definition kChecksumLen : Z := 4.
(* src/muduo/net/protobuf/ProtobufCodecLite.h:30-30 ProtobufCodecLite::kMaxMessageLen *)
Definition kMaxMessageLen : Z := 64 * 1024 * 1024.

(* src/muduo/net/protobuf/ProtobufCodecLite.h:32-46 ProtobufCodecLite::ErrorCode *)
Inductive ErrorCode : Set :=
| kNoError | kInvalidLength | kCheckSumError | kInvalidNameLen | kUnknownMessageType | kParseError.

#[global] Instance ErrorCode_eq_dec : EqDecision ErrorCode.
Proof. solve_decision. Defined.

(* src/muduo/net/protobuf/ProtobufCodecLite.cc:138-155 ProtobufCodecLite::errorCodeToString *)
Definition errorCodeToString (errorCode : ErrorCode) : bytes :=
  match errorCode with
  | kNoError => str "NoError"
  | kInvalidLength => str "InvalidLength"
  | kCheckSumError => str "CheckSumError"
  | kInvalidNameLen => str "InvalidNameLen"
  | kUnknownMessageType => str "UnknownMessageType"
  | kParseError => str "ParseError"
  end.

Section Codec.
Context (native : endian).
(** [IsInitialized], [SerializeWithCachedSizesToArray] and [ParseFromArray] of
    the message class, and [adler32(1, data)]. *)
Context {Msg : Type} (IsInitialized : Msg → bool) (Serialize : Msg → bytes)
  (ParseFromArray : bytes → option Msg) (adler32 : bytes → Z).
Context (tag_ : bytes).

(* src/muduo/net/protobuf/ProtobufCodecLite.h:63-70 ProtobufCodecLite::kMinMessageLen *)
Definition kMinMessageLen : Z := swrap 32 (len tag_) + kChecksumLen.

(* src/muduo/net/protobuf/ProtobufCodecLite.cc:101-104 ProtobufCodecLite::parseFromBuffer *)
Definition parseFromBuffer (buf : bytes) : option Msg := ParseFromArray buf.

(* src/muduo/net/protobuf/ProtobufCodecLite.cc:167-172 ProtobufCodecLite::asInt32 *)
Definition asInt32 (d : bytes) : outcome Z :=
  assert! 4 <=? len d ;;
  let be32 := object_val native (take 4 d) in
  Ok (swrap 32 (networkToHost32 native be32)).

(* src/muduo/net/protobuf/ProtobufCodecLite.cc:180-189 ProtobufCodecLite::checksum *)
Definition checksum (d : bytes) : Z := swrap 32 (adler32 d).

(* src/muduo/net/protobuf/ProtobufCodecLite.cc:191-212 ProtobufCodecLite::validateChecksum *)
Definition validateChecksum (d : bytes) : outcome bool :=
  if len d <? kChecksumLen then Ok false else
  let! expectedCheckSum := asInt32 (slice (len d - kChecksumLen) kChecksumLen d) in
  let checkSum := checksum (take (Z.to_nat (len d - kChecksumLen)) d) in
  Ok (checkSum =? expectedCheckSum).

(* src/muduo/net/protobuf/ProtobufCodecLite.cc:214-247 ProtobufCodecLite::parse *)
Definition parse (buf : bytes) : outcome (ErrorCode * option Msg) :=
  let! ok := validateChecksum buf in
  if negb ok then Ok (kCheckSumError, None)
  else if (len buf <? len tag_ + kChecksumLen) || bool_decide (take (length tag_) buf ≠ tag_)
  then Ok (kUnknownMessageType, None)
  else
    let data := slice (len tag_) (len buf - len tag_ - kChecksumLen) buf in
    match parseFromBuffer data with
    | Some message => Ok (kNoError, Some message)
    | None => Ok (kParseError, None)
    end.

(* src/muduo/net/protobuf/ProtobufCodecLite.cc:119-136 ProtobufCodecLite::serializeToBuffer *)
Definition serializeToBuffer (message : Msg) (buf : Buffer) : outcome (Z * Buffer) :=
  assert! IsInitialized message ;;
  let byteSize := swrap 32 (len (Serialize message)) in
  let! buf := ensureWritableBytes (size_t (byteSize + kChecksumLen)) buf in
  let! buf := copy_to_write (Serialize message) buf in
  let written := swrap 32 (len (Serialize message)) in
  let! buf := hasWritten (size_t written) buf in
  Ok (written, buf).

(* src/muduo/net/protobuf/ProtobufCodecLite.cc:40-57 ProtobufCodecLite::fillEmptyBuffer *)
Definition fillEmptyBuffer (buf : Buffer) (message : Msg) : outcome Buffer :=
  assert! readableBytes buf =? 0 ;;
  let! buf := append tag_ buf in
  let! (byteSize, buf) := serializeToBuffer message buf in
  let checkSum := checksum (take (Z.to_nat (readableBytes buf)) (readableSpan buf)) in
  let! buf := appendInt32 native checkSum buf in
  assert! readableBytes buf =? size_t (len tag_ + size_t byteSize + kChecksumLen) ;;
  let len_ := hostToNetwork32 native (wrap 32 (swrap 32 (readableBytes buf))) in
  prepend (object_bytes native 4 (wrap 32 (swrap 32 len_))) buf.

(** ** On a connection *)
Section OnConnection.
Context {S : Type}.
(** The callbacks: [conn] is the state, the raw callback is optional. *)
Context (messageCallback_ : Msg → Z → S → outcome S)
  (rawCb_ : option (bytes → Z → S → outcome (bool * S)))
  (errorCallback_ : Buffer → Z → ErrorCode → S → outcome (S * Buffer)).

(** One iteration of the while loop: go on, or break. *)
Inductive loop_result := Continue (conn : S) (buf : Buffer) | Break (conn : S) (buf : Buffer).

Definition raw_passes (frame : bytes) (t : Z) (conn : S) : outcome (bool * S) :=
  match rawCb_ with Some f => f frame t conn | None => Ok (true, conn) end.

(* src/muduo/net/protobuf/ProtobufCodecLite.cc:63-98 ProtobufCodecLite::onMessage, the loop body *)
Definition onMessage_body (receiveTime : Z) (conn : S) (buf : Buffer) : outcome loop_result :=
  let! len_ := peekInt32 native buf in
  if (kMaxMessageLen <? len_) || (len_ <? kMinMessageLen) then
    let! (conn, buf) := errorCallback_ buf receiveTime kInvalidLength conn in Ok (Break conn buf)
  else
    let frameLen := size_t (swrap 32 (kHeaderLen + len_)) in
    if readableBytes buf <? frameLen then Ok (Break conn buf) else
    let! (pass, conn) := raw_passes (take (Z.to_nat frameLen) (readableChars buf)) receiveTime conn in
    if negb pass then
      let! buf := retrieve frameLen buf in Ok (Continue conn buf)
    else
      let! (errorCode, message) := parse (slice kHeaderLen len_ (readableSpan buf)) in
      match errorCode, message with
      | kNoError, Some m =>
          let! conn := messageCallback_ m receiveTime conn in
          let! buf := retrieve frameLen buf in Ok (Continue conn buf)
      | _, _ =>
          let! (conn, buf) := errorCallback_ buf receiveTime errorCode conn in Ok (Break conn buf)
      end.

Fixpoint onMessage_while (fuel : nat) (receiveTime : Z) (conn : S) (buf : Buffer) : outcome (S * Buffer) :=
  match fuel with
  | O => Ok (conn, buf)
  | Datatypes.S n =>
      if size_t (kMinMessageLen + kHeaderLen) <=? readableBytes buf then
        let! r := onMessage_body receiveTime conn buf in
        match r with
        | Continue conn buf => onMessage_while n receiveTime conn buf
        | Break conn buf => Ok (conn, buf)
        end
      else Ok (conn, buf)
  end.

(** Every iteration that goes on retrieves a frame, so the readable bytes
    bound the iterations ([codec_refines] shows that they are enough). *)
(* src/muduo/net/protobuf/ProtobufCodecLite.cc:59-99 ProtobufCodecLite::onMessage *)
Definition onMessage (conn : S) (buf : Buffer) (receiveTime : Z) : outcome (S * Buffer) :=
  onMessage_while (Datatypes.S (Z.to_nat (readableBytes buf))) receiveTime conn buf.

Context `{ConnectionOps C S}.

(* src/muduo/net/protobuf/ProtobufCodecLite.cc:33-38 ProtobufCodecLite::send *)
Definition codec_send (conn : S) (message : Msg) : outcome S :=
  let! buf := newBuffer kInitialSize in
  let! buf := fillEmptyBuffer buf message in
  let! (_, conn) := conn_sendBuffer buf conn in
  Ok conn.

(* src/muduo/net/protobuf/ProtobufCodecLite.cc:157-165 ProtobufCodecLite::defaultErrorCallback *)
Definition defaultErrorCallback (buf : Buffer) (_ : Z) (_ : ErrorCode) (conn : S) : outcome (S * Buffer) :=
  if conn_connected conn then let! conn := conn_shutdown conn in Ok (conn, buf) else Ok (conn, buf).
End OnConnection.

(** ** What a frame says *)

Definition sum_of (x : bytes) : bytes := be_bytes 4 (wrap 32 (adler32 x)).

(** The four things the bytes of a frame can be. *)
Inductive body_verdict : bytes → ErrorCode * option Msg → Prop :=
| v_sum body : (∀ x, body ≠ x ++ sum_of x) → body_verdict body (kCheckSumError, None)
| v_type x : ¬ tag_ `prefix_of` x → body_verdict (x ++ sum_of x) (kUnknownMessageType, None)
| v_parse data : ParseFromArray data = None →
    body_verdict ((tag_ ++ data) ++ sum_of (tag_ ++ data)) (kParseError, None)
| v_ok data m : ParseFromArray data = Some m →
    body_verdict ((tag_ ++ data) ++ sum_of (tag_ ++ data)) (kNoError, Some m).

Lemma asInt32_eq p : length p = 4%nat → asInt32 p = Ok (swrap 32 (be_val p)).
Proof.
  intros Hp. unfold asInt32, len. rewrite Hp. cbn -[object_val networkToHost32 swrap].
  pass_asserts. rewrite take_ge by lia. by rewrite network32_val.
Qed.

Lemma sum_of_length x : length (sum_of x) = 4%nat.
Proof. apply length_be_bytes. Qed.

Lemma swrap_inj w a b : 0 < w → 0 ≤ a < 2 ^ w → 0 ≤ b < 2 ^ w → swrap w a = swrap w b → a = b.
Proof.
  intros Hw Ha Hb H. apply (f_equal (wrap w)) in H. rewrite !wrap_swrap in H by lia.
  by rewrite !wrap_small in H.
Qed.

(** The checksum is right exactly for [x ++ sum_of x]. *)
Lemma validateChecksum_ok body :
  ∃ b, validateChecksum body = Ok b ∧ (b = true ↔ ∃ x, body = x ++ sum_of x).
Proof.
  unfold validateChecksum, kChecksumLen. destruct (Z.ltb_spec (len body) 4) as [Hl|Hl].
  { exists false. split; [done|]. split; [done|]. intros (x & ->).
    rewrite len_app in Hl. pose proof (len_nonneg x). unfold len in Hl. rewrite sum_of_length in Hl. lia. }
  set (x := take (Z.to_nat (len body - 4)) body). set (p := slice (len body - 4) 4 body).
  assert (body = x ++ p) as Hb.
  { unfold x, p, slice. rewrite <- (take_drop (Z.to_nat (len body - 4)) body) at 1. f_equal.
    symmetry. apply take_ge. rewrite length_drop. unfold len in *. lia. }
  assert (length p = 4%nat) as Hp.
  { apply (f_equal length) in Hb. rewrite length_app in Hb. unfold x in Hb. rewrite length_take in Hb.
    unfold len in *. lia. }
  rewrite asInt32_eq by done. cbn [obind]. eexists. split; [done|]. unfold checksum. rewrite Z.eqb_eq.
  rewrite <- (swrap_wrap 32 (adler32 x)) by lia. split.
  - intros Heq. exists x. rewrite Hb at 1. f_equal. unfold sum_of. rewrite <- (be_bytes_val p), Hp. f_equal.
    symmetry. apply (swrap_inj 32); [lia|by apply wrap_range|pose proof (be_val_range p); by rewrite Hp in *|done].
  - intros (x' & Hx'). rewrite Hb in Hx' at 1.
    apply app_inj_2 in Hx' as [-> ->]; [|by rewrite sum_of_length].
    unfold sum_of. rewrite be_val_bytes, Z.mod_small; [done|]. by apply wrap_range.
Qed.

Lemma parse_ok body : ∃ r, parse body = Ok r ∧ body_verdict body r.
Proof.
  unfold parse. destruct (validateChecksum_ok body) as (b & -> & Hb). cbn [obind].
  destruct b; cbn [negb].
  2:{ eexists. split; [done|]. constructor. intros x Hx. assert (false = true) by (apply Hb; by exists x). done. }
  destruct (proj1 Hb eq_refl) as (x & ->). clear Hb. unfold kChecksumLen.
  assert (len (x ++ sum_of x) = len x + 4) as Hl.
  { rewrite len_app. unfold len at 2. by rewrite sum_of_length. }
  rewrite Hl. destruct (Z.ltb_spec (len x + 4) (len tag_ + 4)) as [Hlt|Hge]; cbn [orb].
  { eexists. split; [done|]. constructor. intros [k ->]. rewrite len_app in Hlt. pose proof (len_nonneg k). lia. }
  rewrite take_app_le by (unfold len in *; lia).
  case_bool_decide as Htag.
  { eexists. split; [done|]. constructor. intros [k ->]. by rewrite take_app_length in Htag. }
  rewrite <- (take_drop (length tag_) x), Htag. set (data := drop _ x).
  assert (slice (len tag_) (len (tag_ ++ data) + 4 - len tag_ - 4) ((tag_ ++ data) ++ sum_of (tag_ ++ data)) = data) as Hs.
  { unfold slice. rewrite <- app_assoc. replace (Z.to_nat (len tag_)) with (length tag_) by (unfold len; lia).
    rewrite drop_app_length. replace (Z.to_nat _) with (length data); [by rewrite take_app_length|].
    rewrite len_app. unfold len. lia. }
  rewrite Hs. unfold parseFromBuffer. destruct (ParseFromArray data) as [m|] eqn:Hm; eexists; (split; [done|]).
  - by apply v_ok.
  - by apply v_parse.
Qed.

(** ** Receiving *)

(** [kMinMessageLen] is an [int], and no frame could hold a longer tag. *)
Hypothesis tag_small : len tag_ ≤ kMaxMessageLen - kChecksumLen.

Lemma min_len : kMinMessageLen = len tag_ + 4.
Proof using tag_small.
  unfold kMinMessageLen, kChecksumLen in *. unfold kMaxMessageLen in tag_small.
  rewrite swrap_id; [done|lia|]. unfold in_signed. pose proof (len_nonneg tag_). lia.
Qed.

Section Receiving.
Context {S : Type} (onMsg : Msg → Z → S → S) (onRaw : option (bytes → Z → S → bool * S))
  (onError : ErrorCode → Z → S → S).

(** Callbacks that return. *)
Definition cb_message (m : Msg) (t : Z) (s : S) : outcome S := Ok (onMsg m t s).
Definition cb_raw : option (bytes → Z → S → outcome (bool * S)) := (λ f b t s, Ok (f b t s)) <$> onRaw.
Definition cb_error (b : Buffer) (t : Z) (e : ErrorCode) (s : S) : outcome (S * Buffer) := Ok (onError e t s, b).

Definition framed (body : bytes) : bytes := be_bytes 4 (len body) ++ body.
Definition body_fits (body : bytes) : Prop := len tag_ + 4 ≤ len body ≤ kMaxMessageLen.

(** Too few bytes for a decision. *)
Definition incomplete (q : bytes) : Prop :=
  len q < len tag_ + 8 ∨
  ∃ p q', q = p ++ q' ∧ length p = 4%nat ∧ len tag_ + 4 ≤ swrap 32 (be_val p) ≤ kMaxMessageLen ∧
    len q' < swrap 32 (be_val p).
(** A length field no frame can have. *)
Definition bad_length (q : bytes) : Prop :=
  len tag_ + 8 ≤ len q ∧ ¬ (len tag_ + 4 ≤ swrap 32 (be_val (take 4 q)) ≤ kMaxMessageLen).

Definition raw_result (frame : bytes) (t : Z) (s : S) : bool * S :=
  match onRaw with Some f => f frame t s | None => (true, s) end.

(** What the receiver makes of the bytes it holds: frame after frame, until
    the rest is incomplete or wrong. The bytes in error stay. *)
Inductive decodes (t : Z) : bytes → S → bytes → S → Prop :=
| d_wait q s : incomplete q → decodes t q s q s
| d_length q s : bad_length q → decodes t q s q (onError kInvalidLength t s)
| d_raw body rest s s1 q' s' :
    body_fits body → raw_result (framed body) t s = (false, s1) →
    decodes t rest s1 q' s' → decodes t (framed body ++ rest) s q' s'
| d_message body rest s s1 m q' s' :
    body_fits body → raw_result (framed body) t s = (true, s1) → body_verdict body (kNoError, Some m) →
    decodes t rest (onMsg m t s1) q' s' → decodes t (framed body ++ rest) s q' s'
| d_error body rest s s1 e :
    body_fits body → raw_result (framed body) t s = (true, s1) → body_verdict body (e, None) →
    decodes t (framed body ++ rest) s (framed body ++ rest) (onError e t s1).

Abbreviation recv := (onMessage cb_message cb_raw cb_error).
Abbreviation recv_while := (onMessage_while cb_message cb_raw cb_error).

Lemma framed_length body : length (framed body) = (4 + length body)%nat.
Proof. unfold framed. by rewrite length_app, length_be_bytes. Qed.

Lemma drop_frame body rest b :
  wf b → content b = framed body ++ rest →
  ensures (retrieve (4 + len body) b) (λ b', wf b' ∧ content b' = rest).
Proof using Type.
  clear tag_small. intros Hb Hc. pose proof (len_nonneg rest). pose proof (len_nonneg body).
  eapply ensures_mono; [apply retrieve_ok; [done|]|].
  - rewrite Hc, len_app. unfold len at 3. rewrite framed_length. unfold len in *. lia.
  - intros b' (Hb' & Hc' & _). split; [done|]. rewrite Hc', Hc.
    rewrite drop_app_length'; [done|]. rewrite framed_length. unfold len. lia.
Qed.

Lemma cut_frame q :
  len tag_ + 8 ≤ len q → len tag_ + 4 ≤ swrap 32 (be_val (take 4 q)) ≤ kMaxMessageLen →
  swrap 32 (be_val (take 4 q)) ≤ len q - 4 →
  ∃ body rest, q = framed body ++ rest ∧ body_fits body ∧ swrap 32 (be_val (take 4 q)) = len body.
Proof using Type.
  clear tag_small. intros Hq Hn Hle. set (n := swrap 32 (be_val (take 4 q))) in *. pose proof (len_nonneg tag_).
  set (body := take (Z.to_nat n) (drop 4 q)).
  assert (len body = n) as Hb.
  { unfold len, body. rewrite length_take, length_drop. unfold len in *. lia. }
  assert (length (take 4 q) = 4%nat) as H4 by (rewrite length_take; unfold len in *; lia).
  assert (be_val (take 4 q) = n) as Hv.
  { pose proof (be_val_range (take 4 q)) as Hr. rewrite H4 in Hr.
    unfold n in *. unfold swrap in *. unfold kMaxMessageLen in Hn.
    rewrite Z.mod_small in * by (change (2 ^ 32) with (256 ^ Z.of_nat 4); lia).
    destruct (Z.ltb_spec (be_val (take 4 q)) (2 ^ (32 - 1))); [done|].
    change (256 ^ Z.of_nat 4) with (2 ^ 32) in Hr. lia. }
  exists body, (drop (4 + Z.to_nat n) q). split_and!.
  - unfold framed. rewrite Hb, <- Hv, <- H4, be_bytes_val at 1.
    rewrite <- (take_drop 4 q) at 1. rewrite <- app_assoc. f_equal.
    rewrite <- (take_drop (Z.to_nat n) (drop 4 q)) at 1. by rewrite drop_drop.
  - unfold body_fits. lia.
  - done.
Qed.
Definition step_ok (t : Z) (q : bytes) (s : S) (r : @loop_result S) : Prop :=
  match r with
  | Break s' b' => wf b' ∧ decodes t q s (content b') s'
  | Continue s1 b1 => wf b1 ∧ (length (content b1) < length q)%nat ∧
      ∀ q' s', decodes t (content b1) s1 q' s' → decodes t q s q' s'
  end.

Lemma peek_length b :
  wf b → len tag_ + 8 ≤ len (content b) →
  peekInt32 native b = Ok (swrap 32 (be_val (take 4 (content b)))).
Proof.
  intros Hb Hl. pose proof (len_nonneg tag_) as Ht.
  assert (length (take 4 (content b)) = 4%nat) as H4 by (rewrite length_take; unfold len in *; lia).
  destruct (peekInt_ok native b (be_val (take 4 (content b))) (drop 4 (content b)) Hb) as (_ & H & _).
  apply H. rewrite wrap_small.
  - assert (be_bytes 4 (be_val (take 4 (content b))) = take 4 (content b)) as ->;
      [rewrite <- H4 at 1; apply be_bytes_val|by rewrite take_drop].
  - pose proof (be_val_range (take 4 (content b))) as Hr. by rewrite H4 in Hr.
Qed.

Lemma raw_passes_eq frame t s : raw_passes cb_raw frame t s = Ok (raw_result frame t s).
Proof. unfold raw_passes, cb_raw, raw_result. by destruct onRaw. Qed.

Lemma frame_step t s b body rest :
  wf b → content b = framed body ++ rest → body_fits body →
  ensures (let! (pass, conn) := raw_passes cb_raw (framed body) t s in
    if negb pass then let! buf := retrieve (4 + len body) b in Ok (Continue conn buf)
    else
      let! (errorCode, message) := parse body in
      match errorCode, message with
      | kNoError, Some m =>
          let! conn := cb_message m t conn in
          let! buf := retrieve (4 + len body) b in Ok (Continue conn buf)
      | _, _ => let! (conn, buf) := cb_error b t errorCode conn in Ok (Break conn buf)
      end) (step_ok t (content b) s).
Proof using Type.
  intros Hb Hc Hfit. rewrite raw_passes_eq, Hc. cbn [obind].
  destruct (raw_result (framed body) t s) as [pass s1] eqn:Hraw.
  assert (∀ s2, (∀ q' s', decodes t rest s2 q' s' → decodes t (framed body ++ rest) s q' s') →
    ensures (let! buf := retrieve (4 + len body) b in Ok (Continue s2 buf)) (step_ok t (framed body ++ rest) s)) as Hdrop.
  { intros s2 Hs2. eapply ensures_bind; [by eapply drop_frame|]. intros b' (Hb' & Hc'). cbn [ensures]. unfold step_ok. rewrite Hc'.
    split_and!; [done| |done]. rewrite length_app, framed_length. lia. }
  destruct pass; cbn [negb].
  - destruct (parse_ok body) as ([e o] & -> & Hv). cbn [obind].
    assert (o = None ∨ ∃ m, e = kNoError ∧ o = Some m) as [->|(m & -> & ->)]
      by (inversion Hv; subst; eauto).
    + assert (decodes t (framed body ++ rest) s (content b) (onError e t s1)) as Hd.
      { rewrite Hc. by eapply d_error. }
      by destruct e.
    + unfold cb_message. cbn [obind]. apply Hdrop. intros q' s' Hq. by eapply d_message.
  - apply Hdrop. intros q' s' Hq. by eapply d_raw.
Qed.

Lemma body_ok t s b :
  wf b → len tag_ + 8 ≤ len (content b) →
  ensures (onMessage_body cb_message cb_raw cb_error t s b) (step_ok t (content b) s).
Proof using tag_small.
  intros Hb Hl. unfold onMessage_body. rewrite peek_length by done. cbn [obind]. rewrite min_len.
  set (n := swrap 32 (be_val (take 4 (content b)))).
  destruct (Z.ltb_spec kMaxMessageLen n) as [H1|H1], (Z.ltb_spec n (len tag_ + 4)) as [H2|H2]; cbn [orb];
    try (cbn; split; [done|]; apply d_length; split; [done|fold n; lia]).
  assert (size_t (swrap 32 (kHeaderLen + n)) = 4 + n) as ->.
  { pose proof (len_nonneg tag_). unfold kMaxMessageLen in H1. unfold kHeaderLen.
    rewrite swrap_id by (unfold in_signed; lia). apply wrap_small. lia. }
  rewrite readable_len by done. destruct (Z.ltb_spec (len (content b)) (4 + n)) as [Hlt|Hge].
  - cbn. split; [done|]. apply d_wait. right. exists (take 4 (content b)), (drop 4 (content b)).
    pose proof (len_nonneg tag_). split_and!; [by rewrite take_drop| |fold n; lia|fold n; lia|].
    + rewrite length_take. unfold len in *. lia.
    + fold n. unfold len in *. rewrite length_drop. lia.
  - destruct (cut_frame (content b) Hl) as (body & rest & Hq & Hfit & Hn); [fold n; lia|fold n; lia|].
    fold n in Hn. rewrite Hn. unfold readableChars. rewrite readableSpan_eq by done.
    assert (take (Z.to_nat (4 + len body)) (content b) = framed body) as ->.
    { rewrite Hq. rewrite take_app_length'; [done|]. rewrite framed_length. unfold len. lia. }
    assert (slice kHeaderLen (len body) (content b) = body) as ->.
    { rewrite Hq. unfold slice, framed, kHeaderLen. rewrite <- app_assoc.
      rewrite drop_app_length' by (by rewrite length_be_bytes). apply take_app_length'. unfold len. lia. }
    by eapply frame_step.
Qed.

Lemma recv_while_ok fuel t : ∀ s b,
  wf b → (length (content b) < fuel)%nat →
  ensures (recv_while fuel t s b) (λ '(s', b'), wf b' ∧ decodes t (content b) s (content b') s').
Proof using tag_small.
  induction fuel as [|n IH]; intros s b Hb Hn; [lia|]. cbn [onMessage_while].
  rewrite readable_len, min_len by done. pose proof (len_nonneg tag_). unfold kHeaderLen.
  unfold kMaxMessageLen in tag_small. rewrite wrap_small by (unfold kChecksumLen in *; lia).
  destruct (Z.leb_spec (len tag_ + 4 + 4) (len (content b))) as [Hle|Hgt].
  - eapply ensures_bind; [apply body_ok; [done|lia]|]. intros [s1 b1|s1 b1] Hr; cbn in Hr.
    + destruct Hr as (Hb1 & Hlt & Hk). eapply ensures_mono; [apply IH; [done|lia]|].
      intros [s' b'] (Hb' & Hd). split; [done|]. by apply Hk.
    + done.
  - cbn. split; [done|]. apply d_wait. left. lia.
Qed.

Lemma recv_ok t s b :
  wf b → ensures (recv s b t) (λ '(s', b'), wf b' ∧ decodes t (content b) s (content b') s').
Proof using tag_small.
  intros Hb. apply recv_while_ok; [done|]. rewrite readable_len by done. unfold len. lia.
Qed.
End Receiving.

(** ** Sending *)

Definition message_body (m : Msg) : bytes := (tag_ ++ Serialize m) ++ sum_of (tag_ ++ Serialize m).
Definition frame_of (m : Msg) : bytes := framed (message_body m).

Record sendable (m : Msg) : Prop := {
  se_init : IsInitialized m = true;
  se_parses : ParseFromArray (Serialize m) = Some m;
  se_size : len tag_ + len (Serialize m) + kChecksumLen ≤ kMaxMessageLen
}.

Lemma message_body_len m : len (message_body m) = len tag_ + len (Serialize m) + 4.
Proof. unfold message_body. rewrite !len_app. unfold len. rewrite sum_of_length. lia. Qed.

Lemma serialize_ok m b :
  wf b → sendable m → writerIndex_ b + kMaxMessageLen ≤ vector_max_size →
  ensures (serializeToBuffer m b) (λ '(n, b'), n = len (Serialize m) ∧ wf b' ∧
    content b' = content b ++ Serialize m ∧
    (readerIndex_ b' = readerIndex_ b ∨ readerIndex_ b' = kCheapPrepend) ∧
    writerIndex_ b' ≤ writerIndex_ b + len (Serialize m)).
Proof using Type.
  clear tag_small.
  intros Hb [Hi _ Hsz] Hmax. unfold serializeToBuffer. rewrite Hi. pass_asserts.
  pose proof (len_nonneg tag_). pose proof (len_nonneg (Serialize m)).
  unfold kMaxMessageLen, kChecksumLen in *.
  rewrite swrap_id by (unfold in_signed; lia). rewrite !wrap_small by lia.
  eapply ensures_bind; [apply ensureWritableBytes_ok; [done|lia|lia]|].
  intros b1 (Hb1 & Hc1 & Hroom & Hr1 & Hw1).
  pose proof (append_room_ok (Serialize m) b1 Hb1) as Hcopy.
  assert (∀ (x : outcome Buffer) (k : Buffer → outcome Buffer) (P : Z * Buffer → Prop),
    ensures (let! y := x in k y) (λ b', P (len (Serialize m), b')) →
    ensures (let! y := x in let! z := k y in Ok (len (Serialize m), z)) P) as Hassoc.
  { intros x k P. destruct x as [y|]; cbn; [|done]. by destruct (k y). }
  apply Hassoc. eapply ensures_mono; [apply Hcopy; lia|].
  intros b' (Hb' & Hc' & Hr' & Hw'). split_and!; [done|done|congruence|by rewrite Hr'|lia].
Qed.

Lemma fillEmptyBuffer_ok m b :
  wf b → content b = [] → readerIndex_ b = kCheapPrepend → writerIndex_ b = kCheapPrepend → sendable m →
  ensures (fillEmptyBuffer b m) (λ b', wf b' ∧ content b' = frame_of m).
Proof using Type.
  clear tag_small.
  intros Hb Hc Hr Hw Hm. pose proof (len_nonneg tag_) as Ht. pose proof (len_nonneg (Serialize m)) as Hs.
  pose proof (se_size m Hm) as Hsz. unfold kMaxMessageLen, kChecksumLen, kCheapPrepend in *.
  unfold fillEmptyBuffer. rewrite readable_len, Hc by done. pass_asserts.
  eapply ensures_bind; [apply append_ok; [done|unfold vector_max_size; lia]|].
  intros b1 (Hb1 & Hc1 & Hr1 & Hw1). rewrite Hc, app_nil_l in Hc1.
  eapply ensures_bind; [apply serialize_ok; [done|done|unfold vector_max_size, kMaxMessageLen; lia]|].
  intros [n b2] (-> & Hb2 & Hc2 & Hr2 & Hw2). rewrite Hc1 in Hc2.
  destruct (appendInt_bytes native (checksum (take (Z.to_nat (readableBytes b2)) (readableSpan b2))) b2)
    as (_ & -> & _).
  rewrite readableSpan_eq, readable_len, Hc2 by done.
  rewrite (take_ge (tag_ ++ Serialize m)) by (unfold len; lia).
  assert (be_bytes 4 (wrap 32 (checksum (tag_ ++ Serialize m))) = sum_of (tag_ ++ Serialize m)) as ->.
  { unfold sum_of, checksum. by rewrite wrap_swrap by lia. }
  eapply ensures_bind; [apply append_ok; [done|]|].
  { unfold len. rewrite sum_of_length. unfold vector_max_size. lia. }
  intros b3 (Hb3 & Hc3 & Hr3 & Hw3). rewrite Hc2 in Hc3. fold (message_body m) in Hc3.
  rewrite readable_len, Hc3, message_body_len by done. unfold kChecksumLen.
  rewrite (wrap_small 64 (len (Serialize m))) by lia. rewrite wrap_small by lia. pass_asserts.
  rewrite (swrap_id 32 (len tag_ + len (Serialize m) + 4)) by (unfold in_signed; lia). rewrite wrap_swrap by lia.
  rewrite (wrap_small 32 (hostToNetwork32 _ _)).
  2:{ destruct native; [apply byteSwap32_range|by apply wrap_range]. }
  rewrite network32_bytes, wrap_small by lia.
  eapply ensures_mono; [apply prepend_ok; [done|]|].
  { unfold len, prependableBytes, kCheapPrepend in *. rewrite length_be_bytes. lia. }
  intros b4 (Hb4 & Hc4 & _). split; [done|]. rewrite Hc4, Hc3. unfold frame_of, framed.
  by rewrite message_body_len.
Qed.

(** ** Frames have no two readings *)

Lemma framed_app_inj body1 body2 r1 r2 :
  body_fits body1 → body_fits body2 → framed body1 ++ r1 = framed body2 ++ r2 → body1 = body2 ∧ r1 = r2.
Proof using Type.
  clear tag_small.
  intros [_ H1] [_ H2]. unfold framed. rewrite <- !app_assoc. intros H.
  apply app_inj_1 in H as [Hn H]; [|by rewrite !length_be_bytes].
  apply (f_equal be_val) in Hn. rewrite !be_val_bytes in Hn. unfold kMaxMessageLen in *.
  pose proof (len_nonneg body1). pose proof (len_nonneg body2).
  rewrite !Z.mod_small in Hn by lia. apply app_inj_1 in H as [-> ->]; [done|]. unfold len in Hn. lia.
Qed.

Lemma sum_inj x y : x ++ sum_of x = y ++ sum_of y → x = y.
Proof. intros H. apply app_inj_2 in H as [-> _]; [done|]. by rewrite !sum_of_length. Qed.

Lemma verdict_message m r : sendable m → body_verdict (message_body m) r → r = (kNoError, Some m).
Proof using Type.
  clear tag_small.
  intros [_ Hp _] Hv. unfold message_body in Hv. inversion Hv as [? Hs|x Hx He|data Hd He|data m' Hd He]; subst.
  - by destruct (Hs (tag_ ++ Serialize m)).
  - apply sum_inj in He as ->. destruct Hx. by eexists.
  - apply sum_inj in He. apply app_inv_head in He as ->. congruence.
  - apply sum_inj in He. apply app_inv_head in He as ->. congruence.
Qed.

Lemma message_fits m : sendable m → body_fits (message_body m).
Proof using Type.
  clear tag_small.
  intros [_ _ Hsz]. unfold body_fits. rewrite message_body_len. pose proof (len_nonneg (Serialize m)).
  unfold kChecksumLen in Hsz. lia.
Qed.

Lemma frame_length_field m r : take 4 (frame_of m ++ r) = be_bytes 4 (len (message_body m)).
Proof. unfold frame_of, framed. rewrite <- app_assoc. apply take_app_length'. by rewrite length_be_bytes. Qed.

Lemma length_field_value body :
  body_fits body → swrap 32 (be_val (be_bytes 4 (len body))) = len body.
Proof using Type.
  clear tag_small.
  intros [_ Hf]. unfold kMaxMessageLen in Hf. pose proof (len_nonneg body). rewrite be_val_bytes, Z.mod_small by lia.
  apply swrap_id; [lia|]. unfold in_signed. lia.
Qed.

(** Whole frames are never waited for. *)
Lemma frame_not_incomplete m r : sendable m → ¬ incomplete (frame_of m ++ r).
Proof using Type.
  clear tag_small.
  intros Hm [Hs|(p & q' & Heq & Hp & Hn & Hl)].
  - rewrite len_app in Hs. pose proof (len_nonneg r). unfold frame_of, framed in Hs.
    rewrite len_app, message_body_len in Hs. pose proof (len_nonneg (Serialize m)).
    unfold len at 1 in Hs. rewrite length_be_bytes in Hs. lia.
  - assert (p = be_bytes 4 (len (message_body m))) as ->.
    { rewrite <- (frame_length_field m r), Heq. by rewrite take_app_length'. }
    rewrite length_field_value in Hl by (by apply message_fits).
    unfold frame_of, framed in Heq. rewrite <- app_assoc in Heq. apply app_inv_head in Heq as <-.
    rewrite len_app in Hl. pose proof (len_nonneg r). lia.
Qed.

Section Stream.
Context {S : Type} (handler : Msg → S → S) (onError : ErrorCode → Z → S → S).

Definition on_message (m : Msg) (_ : Z) (s : S) : S := handler m s.
Abbreviation decodes_stream := (decodes on_message None onError).

Lemma decodes_frames t q s q' s' :
  decodes_stream t q s q' s' → ∀ ms rest,
  Forall sendable ms → q ++ rest = concat (frame_of <$> ms) →
  incomplete q' ∧ ∃ ms1 ms2, ms = ms1 ++ ms2 ∧ s' = foldl (flip handler) s ms1 ∧
    q' ++ rest = concat (frame_of <$> ms2).
Proof using Type.
  clear tag_small.
  induction 1 as [q s Hq|q s [Hl Hbad]|body rest0 s s1 q' s' Hf Hraw _ _|body rest0 s s1 m q' s' Hf Hraw Hv _ IH
    |body rest0 s s1 e Hf Hraw Hv]; intros ms rest Hms Heq.
  - split; [done|]. by exists [], ms.
  - exfalso. apply Hbad. destruct Hms as [|m ms Hm Hms].
    { cbn in Heq. apply app_eq_nil in Heq as [-> _]. pose proof (len_nonneg tag_). unfold len in Hl at 2. cbn in Hl. lia. }
    cbn [fmap list_fmap concat] in Heq.
    assert (take 4 q = be_bytes 4 (len (message_body m))) as ->.
    { rewrite <- (frame_length_field m (concat (frame_of <$> ms))), <- Heq. rewrite take_app_le; [done|].
      pose proof (len_nonneg tag_). unfold len in *. lia. }
    rewrite length_field_value by (by apply message_fits). by apply message_fits.
  - done.
  - injection Hraw as <-. destruct Hms as [|m0 ms Hm0 Hms].
    { apply (f_equal length) in Heq. rewrite !length_app, framed_length in Heq. cbn [fmap list_fmap concat length] in Heq. lia. }
    cbn [fmap list_fmap concat] in Heq. rewrite <- app_assoc in Heq.
    apply framed_app_inj in Heq as [-> Heq]; [|done|by apply message_fits].
    apply verdict_message in Hv as [= ->]; [|done].
    destruct (IH ms rest Hms Heq) as (Hinc & ms1 & ms2 & -> & -> & Hq'). split; [done|].
    by exists (m0 :: ms1), ms2.
  - destruct Hms as [|m0 ms Hm0 Hms].
    { apply (f_equal length) in Heq. rewrite !length_app, framed_length in Heq. cbn [fmap list_fmap concat length] in Heq. lia. }
    cbn [fmap list_fmap concat] in Heq. rewrite <- app_assoc in Heq.
    apply framed_app_inj in Heq as [-> _]; [|done|by apply message_fits].
    by apply verdict_message in Hv.
Qed.

(** A read of the connection followed by its message callback. *)
Definition codec_deliver (r : Z * bytes) (x : S * Buffer) : outcome (S * Buffer) :=
  let! b := append (snd r) (snd x) in
  onMessage (cb_message on_message) None (cb_error onError) (fst x) b (fst r).

Lemma deliver_stream reads : ∀ ms s b,
  Forall sendable ms → wf b → incomplete (content b) → Forall (λ r, len (snd r) ≤ vector_max_size) reads →
  content b ++ concat (snd <$> reads) = concat (frame_of <$> ms) →
  safely (foldM codec_deliver reads (s, b))
    (λ '(s', b'), s' = foldl (flip handler) s ms ∧ wf b' ∧ content b' = []).
Proof using tag_small.
  induction reads as [|[t d] reads IH]; intros ms s b Hms Hb Hinc Hr Heq.
  - cbn in *. rewrite app_nil_r in Heq. destruct Hms as [|m ms Hm Hms].
    + by split_and!.
    + cbn in Heq. rewrite Heq in Hinc. by apply frame_not_incomplete in Hinc.
  - apply Forall_cons in Hr as [Hd Hr]. cbn [foldM fmap list_fmap concat snd fst] in *.
    unfold codec_deliver at 1. cbn [fst snd].
    eapply (safely_bind _ _ (λ '(s1, b1), wf b1 ∧ decodes_stream t (content b ++ d) s (content b1) s1)).
    { eapply safely_bind; [by apply append_safe|]. intros b1 (Hb1 & Hc1). rewrite <- Hc1.
      apply safely_ensures, (recv_ok on_message None onError t s b1 Hb1). }
    intros [s1 b1] (Hb1 & Hdec). rewrite app_assoc in Heq.
    destruct (decodes_frames _ _ _ _ _ Hdec ms _ Hms Heq) as (Hinc1 & ms1 & ms2 & -> & -> & Hq').
    apply Forall_app in Hms as [_ Hms2]. rewrite foldl_app. by apply IH.
Qed.

Context {C T : Type} `{ConnectionLaws C T}.

Lemma codec_send_ok conn m :
  usable conn → sendable m →
  safely (codec_send conn m) (λ conn', usable conn' ∧ handed conn' = handed conn ++ [frame_of m] ∧
    conn_context conn' = conn_context conn).
Proof using Type.
  clear tag_small. intros Hu Hm. unfold codec_send.
  eapply safely_bind; [apply safely_ensures, newBuffer_ok; by unfold kInitialSize|].
  intros b (Hb & Hc & Hp & Hw).
  eapply safely_bind; [apply safely_ensures, fillEmptyBuffer_ok; [done|done|exact Hp| |done]|].
  - pose proof (readable_len b Hb) as Hl. rewrite readable_eq, Hc in Hl by done. unfold len in Hl. cbn in Hl.
    unfold prependableBytes in Hp. lia.
  - intros b1 (Hb1 & Hc1). eapply safely_bind; [by apply sendBuffer_law|].
    intros [b2 conn2] (Hu2 & Hh2 & Hx2 & _). cbn. by rewrite Hh2, Hc1.
Qed.

Lemma codec_sends_ok ms : ∀ conn,
  usable conn → Forall sendable ms →
  safely (foldM (λ m c, codec_send c m) ms conn) (λ conn', usable conn' ∧ handed conn' = handed conn ++ (frame_of <$> ms)).
Proof using Type.
  clear tag_small. induction ms as [|m ms IH]; intros conn Hu Hms; cbn [foldM fmap list_fmap].
  { cbn. by rewrite app_nil_r. }
  apply Forall_cons in Hms as [Hm Hms]. eapply safely_bind; [by apply codec_send_ok|].
  intros c1 (Hu1 & Hh1 & _). eapply safely_mono; [by apply IH|].
  intros c2 (Hu2 & Hh2). split; [done|]. by rewrite Hh2, Hh1, <- app_assoc.
Qed.

(** C21. End to end: every message sent is received, once, in order and
    unchanged. Sending messages over a connection hands it one frame for each;
    and a receiver that reads the concatenated frames, cut into reads in any
    way, calls its message callback for exactly these messages in this order
    and holds no bytes in the end: no frame is refused, and none waits. *)
Theorem codec_roundtrip ms conn s b :
  usable conn → Forall sendable ms → wf b → content b = [] →
  safely (foldM (λ m c, codec_send c m) ms conn) (λ conn', ∃ frames,
    handed conn' = handed conn ++ frames ∧
    ∀ reads, concat (snd <$> reads) = concat frames →
      Forall (λ r, len (snd r) ≤ vector_max_size) reads →
      safely (foldM codec_deliver reads (s, b))
        (λ '(s', b'), s' = foldl (flip handler) s ms ∧ content b' = [])).
Proof using tag_small.
  intros Hu Hms Hb Hc. eapply safely_mono; [by apply codec_sends_ok|].
  intros c' (_ & Hh). exists (frame_of <$> ms). split; [done|]. intros reads Heq Hr.
  eapply safely_mono; [apply (deliver_stream reads ms s b); try done|].
  - rewrite Hc. left. pose proof (len_nonneg tag_). unfold len at 1. cbn. lia.
  - by rewrite Hc.
  - by intros [s' b'] (-> & _ & Hc').
Qed.
End Stream.

(** C22. Whatever bytes the buffer holds, the receiver returns and does what the
    wire format says, frame after frame: the raw callback sees every frame
    with a possible length; a frame it lets through is delivered exactly when
    its checksum, its tag and its payload are right, and otherwise reported
    with the error that fits; a length no frame can have is reported as such;
    on an error the receiver stops and keeps the bytes, on an incomplete frame
    it waits for more. *)
Theorem codec_decodes {S : Type} (onMsg : Msg → Z → S → S) onRaw (onError : ErrorCode → Z → S → S) t s b :
  wf b →
  ensures (onMessage (cb_message onMsg) (cb_raw onRaw) (cb_error onError) s b t)
    (λ '(s', b'), wf b' ∧ decodes onMsg onRaw onError t (content b) s (content b') s').
Proof using tag_small. apply recv_ok. Qed.
End Codec.

(** ** The theorems at concrete inputs *)

(** Messages that are their own bytes, and zlib's checksum. *)
Definition sample_adler32 (d : bytes) : Z :=
  let '(a, b) := foldl (λ '(a, b) x, let a' := (a + byte_val x) mod 65521 in (a', (b + a') mod 65521)) (1, 0) d in
  Z.lor (Z.shiftl b 16) a.
Definition any_message (_ : bytes) : bool := true.
Definition same_bytes (m : bytes) : bytes := m.
Definition sample_tag : bytes := str "RPC0".
Definition sample_message : bytes := str "hello".

Lemma sample_sendable : Forall (sendable any_message same_bytes Some sample_tag) [sample_message; []].
Proof. repeat constructor; by vm_compute. Qed.

#[local] Instance codec_sample_ops : ConnectionOps unit (TcpConnection * option unit) :=
  tcp_ops sample_kernel sample_user.
#[local] Instance codec_sample_laws : ConnectionLaws unit (TcpConnection * option unit) :=
  tcp_laws sample_kernel sample_user sample_kernel_ok.

Lemma codec_sample_usable : usable (sample_up, None).
Proof.
  destruct (reachable_inv _ _ sample_kernel_ok 9 sample_up sample_plays sample_up_reachable)
    as [Hc [(Hx & _)|[Hl|(L & Hd & _)]]]; [by vm_compute in Hx|by split_and!|].
  destruct Hd as (Hs & _). by vm_compute in Hs.
Qed.

Lemma codec_roundtrip_witness :
  safely (foldM (λ m c, codec_send little any_message same_bytes sample_adler32 sample_tag c m)
            [sample_message; []] (sample_up, None)) (λ conn', ∃ frames,
    handed conn' = handed (sample_up, None) ++ frames ∧
    ∀ reads, concat (snd <$> reads) = concat frames →
      Forall (λ r, len (snd r) ≤ vector_max_size) reads →
      safely (foldM (codec_deliver little Some sample_adler32 sample_tag (λ m l, m :: l) (λ _ _ l, l)) reads
                ([], conn_buffer))
        (λ '(s', b'), s' = [[]; sample_message] ∧ content b' = [])).
Proof.
  refine (codec_roundtrip little any_message same_bytes Some sample_adler32 sample_tag _
    (λ m l, m :: l) (λ _ _ l, l) [sample_message; []] (sample_up, None) [] conn_buffer _ _ _ _).
  - by vm_compute.
  - apply codec_sample_usable.
  - apply sample_sendable.
  - apply conn_buffer_wf.
  - done.
Defined.

Lemma codec_decodes_witness :
  ensures (onMessage little Some sample_adler32 sample_tag (cb_message (λ m _ l, m :: l)) None
             (cb_error (λ _ _ l, l)) [] conn_buffer 5)
    (λ '(s', b'), wf b' ∧ decodes Some sample_adler32 sample_tag (λ m _ l, m :: l) None (λ _ _ l, l) 5
                            (content conn_buffer) [] (content b') s').
Proof.
  refine (codec_decodes little Some sample_adler32 sample_tag _ (λ m _ l, m :: l) None (λ _ _ l, l) 5 [] conn_buffer _).
  - by vm_compute.
  - apply conn_buffer_wf.
Defined.
