(* ===== verification/RpcChannel.v ===== *)
(** * RpcChannel: calls and responses over one connection
    ([muduo/net/protorpc/RpcChannel.cc], [RpcServer.cc])

    The generated message classes and the services are parameters. What the
    channel hands to its codec is the list [out_]; [ProtobufCodec.codec_roundtrip]
    shows that the peer receives exactly these messages, in order, so a pair of
    channels is modelled by the two lists as queues. A service gets a [done]
    closure with each request and may run it at any time: the closures not yet
    run are the list [serving_]. *)
From S2P Require Import Prelude.
From stdpp Require Import options.
#[local] Open Scope Z_scope.

(** [rpc.proto]. *)
Inductive MessageType : Set := REQUEST | RESPONSE | ERROR.
Inductive ErrorCode : Set :=
| NO_ERROR | WRONG_PROTO | NO_SERVICE | NO_METHOD | INVALID_REQUEST | INVALID_RESPONSE | TIMEOUT.

#[global] Instance MessageType_eq_dec : EqDecision MessageType.
Proof. solve_decision. Defined.
#[global] Instance RpcErrorCode_eq_dec : EqDecision ErrorCode.
Proof. solve_decision. Defined.

Record RpcMessage := mkRpcMessage {
  type : MessageType;
  id : Z;
  service : bytes;
  method : bytes;
  request : bytes;
  response : option bytes;
  error : option ErrorCode
}.

(* src/muduo/net/protorpc/RpcChannel.h:50-53 RpcChannel::OutstandingCall *)
Record OutstandingCall := mkCall {
  call_response : bool;          (* response is not null *)
  call_done : bool               (* done is not null *)
}.

Section Channel.
(** The services: their descriptors, request parsers and implementations. *)
Context {Service Method Req : Type}.
Context (FindMethodByName : Service → bytes → option Method).
Context (ParseRequest : Service → Method → bytes → option Req).

(* src/muduo/net/protorpc/RpcChannel.h:55-62 RpcChannel *)
Record RpcChannel := mkChannel {
  id_ : Z;
  outstandings_ : gmap Z OutstandingCall;
  services_ : option (gmap bytes Service);
  serving_ : list (Z * (Service * Method * Req));      (* closures handed to services *)
  out_ : list RpcMessage;                              (* sent through codec_ *)
  finished_ : list (Z * option bytes)                  (* done->Run(), with the response parsed *)
}.

(* src/muduo/net/protorpc/RpcChannel.cc:12-27 RpcChannel::RpcChannel *)
Definition newRpcChannel : RpcChannel := mkChannel 0 ∅ None [] [] [].
(* src/muduo/net/protorpc/RpcChannel.h:23-26 RpcChannel::setServices *)
Definition setServices (s : gmap bytes Service) (c : RpcChannel) : RpcChannel :=
  mkChannel (id_ c) (outstandings_ c) (Some s) (serving_ c) (out_ c) (finished_ c).

Definition set_outstandings (o : gmap Z OutstandingCall) (c : RpcChannel) : RpcChannel :=
  mkChannel (id_ c) o (services_ c) (serving_ c) (out_ c) (finished_ c).
Definition rpc_send (m : RpcMessage) (c : RpcChannel) : RpcChannel :=
  mkChannel (id_ c) (outstandings_ c) (services_ c) (serving_ c) (out_ c ++ [m]) (finished_ c).
Definition give_service (x : Z * (Service * Method * Req)) (c : RpcChannel) : RpcChannel :=
  mkChannel (id_ c) (outstandings_ c) (services_ c) (serving_ c ++ [x]) (out_ c) (finished_ c).
Definition run_done (x : Z * option bytes) (c : RpcChannel) : RpcChannel :=
  mkChannel (id_ c) (outstandings_ c) (services_ c) (serving_ c) (out_ c) (finished_ c ++ [x]).

(* src/muduo/net/protorpc/RpcChannel.cc:33-58 RpcChannel::CallMethod *)
Definition CallMethod (service_name method_name request_bytes : bytes) (resp done : bool) (c : RpcChannel)
    : outcome RpcChannel :=
  let id := swrap 64 (swrap 64 (id_ c) + 1) in
  let message := mkRpcMessage REQUEST (wrap 64 id) service_name method_name request_bytes None None in
  let c := mkChannel id (outstandings_ c) (services_ c) (serving_ c) (out_ c) (finished_ c) in
  let inserted := bool_decide (outstandings_ c !! id = None) in
  let c := if inserted then set_outstandings (<[id := mkCall resp done]> (outstandings_ c)) c else c in
  assert! inserted ;;
  Ok (rpc_send message c).

(* src/muduo/net/protorpc/RpcChannel.cc:65-137 RpcChannel::onRpcMessage *)
Definition onRpcMessage (same_conn : bool) (message : RpcMessage) (c : RpcChannel) : RpcChannel :=
  if negb same_conn then c else
  match type message with
  | RESPONSE =>
      let id := swrap 64 (id message) in
      match outstandings_ c !! id with
      | Some out =>
          let c := set_outstandings (delete id (outstandings_ c)) c in
          if call_response out && call_done out then run_done (id, response message) c else c
      | None => c
      end
  | REQUEST =>
      let '(err, c) :=
        match services_ c with
        | None => (NO_SERVICE, c)
        | Some services =>
            match services !! service message with
            | None => (NO_SERVICE, c)
            | Some svc =>
                match FindMethodByName svc (method message) with
                | None => (NO_METHOD, c)
                | Some m =>
                    match ParseRequest svc m (request message) with
                    | Some req => (NO_ERROR, give_service (swrap 64 (id message), (svc, m, req)) c)
                    | None => (INVALID_REQUEST, c)
                    end
                end
            end
        end in
      if bool_decide (err ≠ NO_ERROR)
      then rpc_send (mkRpcMessage RESPONSE (id message) [] [] [] None (Some err)) c
      else c
  | ERROR => c
  end.

(* src/muduo/net/protorpc/RpcChannel.cc:139-147 RpcChannel::doneCallback *)
Definition doneCallback (resp : bytes) (i : Z) (c : RpcChannel) : RpcChannel :=
  rpc_send (mkRpcMessage RESPONSE (wrap 64 i) [] [] [] (Some resp) None) c.

(** ** A client and a server *)

(** What a service computes, as a serialized message. *)
Context (CallService : Service → Method → Req → bytes).

Record system := mkSystem {
  client : RpcChannel;
  server : RpcChannel;
  called : gmap Z RpcMessage              (* the requests made, by id *)
}.

Definition pop_out (c : RpcChannel) : RpcChannel :=
  mkChannel (id_ c) (outstandings_ c) (services_ c) (serving_ c) (tail (out_ c)) (finished_ c).
Definition take_serving (k : nat) (c : RpcChannel) : RpcChannel :=
  mkChannel (id_ c) (outstandings_ c) (services_ c) (delete k (serving_ c)) (out_ c) (finished_ c).

Inductive rpc_step : system → system → Prop :=
| step_call s sv me rq c' :                                        (* the client makes a call *)
    id_ (client s) < 2 ^ 63 - 1 →
    CallMethod sv me rq true true (client s) = Ok c' →
    rpc_step s (mkSystem c' (server s)
      (<[id_ c' := mkRpcMessage REQUEST (wrap 64 (id_ c')) sv me rq None None]> (called s)))
| step_to_server s m l :                                           (* a request arrives *)
    out_ (client s) = m :: l →
    rpc_step s (mkSystem (pop_out (client s)) (onRpcMessage true m (server s)) (called s))
| step_served s k i sv me rq :                                     (* a service runs its closure *)
    serving_ (server s) !! k = Some (i, (sv, me, rq)) →
    rpc_step s (mkSystem (client s) (doneCallback (CallService sv me rq) i (take_serving k (server s))) (called s))
| step_to_client s m l :                                           (* a response arrives *)
    out_ (server s) = m :: l →
    rpc_step s (mkSystem (onRpcMessage true m (client s)) (pop_out (server s)) (called s)).

(** The response a request must get: the service's, or none with an error. *)
Definition resolve (services : gmap bytes Service) (m : RpcMessage) : option (Service * Method * Req) :=
  svc ← services !! service m; me ← FindMethodByName svc (method m);
  rq ← ParseRequest svc me (request m); Some (svc, me, rq).
Definition expected (services : gmap bytes Service) (m : RpcMessage) : option bytes :=
  '(svc, me, rq) ← resolve services m; Some (CallService svc me rq).

Context (services : gmap bytes Service).
Definition start : system := mkSystem newRpcChannel (setServices services newRpcChannel) ∅.
Inductive rpc_reachable : system → Prop :=
| rr_start : rpc_reachable start
| rr_step s s' : rpc_reachable s → rpc_step s s' → rpc_reachable s'.

(** The calls in flight: on the way to the server, in a service, on the way
    back. *)
Definition flight (s : system) : list Z :=
  (id <$> out_ (client s)) ++ (serving_ (server s)).*1 ++ (id <$> out_ (server s)).

Definition request_of (s : system) (m : RpcMessage) : Prop := called s !! id m = Some m ∧ type m = REQUEST.
Definition response_of (s : system) (m : RpcMessage) : Prop :=
  type m = RESPONSE ∧ ∃ q, called s !! id m = Some q ∧ response m = expected services q.
Definition service_of (s : system) (x : Z * (Service * Method * Req)) : Prop :=
  ∃ q, called s !! x.1 = Some q ∧ resolve services q = Some x.2.
Definition finish_of (s : system) (x : Z * option bytes) : Prop :=
  ∃ q, called s !! x.1 = Some q ∧ x.2 = expected services q.

Record rpc_inv (s : system) : Prop := mkRpcInv {
  ri_range : 0 ≤ id_ (client s) < 2 ^ 63;
  ri_perm : flight s ++ (finished_ (client s)).*1 ≡ₚ seqZ 1 (id_ (client s));
  ri_open i : outstandings_ (client s) !! i = Some (mkCall true true) ↔ i ∈ flight s;
  ri_only i o : outstandings_ (client s) !! i = Some o → o = mkCall true true;
  ri_client_services : services_ (client s) = None;
  ri_server_services : services_ (server s) = Some services;
  ri_requests : Forall (request_of s) (out_ (client s));
  ri_serving : Forall (service_of s) (serving_ (server s));
  ri_responses : Forall (response_of s) (out_ (server s));
  ri_finished : Forall (finish_of s) (finished_ (client s));
  ri_called i q : called s !! i = Some q → 1 ≤ i ≤ id_ (client s)
}.

(** *** The invariant is kept *)

Lemma flight_nodup s : rpc_inv s → NoDup (flight s ++ (finished_ (client s)).*1).
Proof. intros Hi. rewrite (ri_perm s Hi). apply NoDup_seqZ. Qed.

Lemma flight_range s i : rpc_inv s → i ∈ flight s → 1 ≤ i ≤ id_ (client s).
Proof.
  intros Hi Hin. assert (i ∈ flight s ++ (finished_ (client s)).*1) as H by (apply elem_of_app; by left).
  rewrite (ri_perm s Hi), elem_of_seqZ in H. lia.
Qed.

Lemma flight_id s i : rpc_inv s → i ∈ flight s → swrap 64 i = i ∧ wrap 64 i = i.
Proof.
  intros Hi Hin. pose proof (flight_range s i Hi Hin). pose proof (ri_range s Hi).
  split; [apply swrap_id; [lia|unfold in_signed; lia]|apply wrap_small; lia].
Qed.

(** A call moves on: the client's books do not change. *)
Lemma inv_moved s s' :
  rpc_inv s → id_ (client s') = id_ (client s) → outstandings_ (client s') = outstandings_ (client s) →
  finished_ (client s') = finished_ (client s) → services_ (client s') = services_ (client s) →
  services_ (server s') = services_ (server s) → called s' = called s → flight s' ≡ₚ flight s →
  Forall (request_of s) (out_ (client s')) → Forall (service_of s) (serving_ (server s')) →
  Forall (response_of s) (out_ (server s')) → rpc_inv s'.
Proof.
  intros [H1 H2 H3 H4 H5 H6 H7 H8 H9 H10 H11] Ei Eo Ef Es Ess Ec Hf Hr1 Hr2 Hr3.
  unfold request_of, service_of, response_of, finish_of in *.
  split; rewrite ?Ei, ?Eo, ?Ef, ?Es, ?Ess; unfold request_of, service_of, response_of, finish_of;
    try setoid_rewrite Ec; try done.
  - by rewrite Hf.
  - intros i. by rewrite Hf.
Qed.

Lemma onRequest_cases c m :
  services_ c = Some services → type m = REQUEST →
  onRpcMessage true m c =
    match resolve services m with
    | Some x => give_service (swrap 64 (id m), x) c
    | None => rpc_send (mkRpcMessage RESPONSE (id m) [] [] [] None
        (Some (if services !! service m is Some svc then
                 if FindMethodByName svc (method m) is Some _ then INVALID_REQUEST else NO_METHOD
               else NO_SERVICE))) c
    end.
Proof.
  intros Hs Ht. unfold onRpcMessage, resolve. rewrite Ht, Hs. cbn [negb].
  destruct (services !! service m) as [svc|]; [|done]. cbn [mbind option_bind].
  destruct (FindMethodByName svc (method m)) as [me|]; [|done]. cbn [mbind option_bind].
  by destruct (ParseRequest svc me (request m)).
Qed.

Lemma step_request_inv s m l :
  rpc_inv s → out_ (client s) = m :: l →
  rpc_inv (mkSystem (pop_out (client s)) (onRpcMessage true m (server s)) (called s)).
Proof.
  intros Hi Hout. pose proof (ri_requests s Hi) as Hr. rewrite Hout in Hr.
  apply Forall_cons in Hr as [[Hm Ht] Hr].
  assert (id m ∈ flight s) as Hin by (unfold flight; rewrite Hout; left).
  destruct (flight_id s _ Hi Hin) as [Hsw _].
  rewrite onRequest_cases by (done || by apply Hi).
  assert (expected services m = '(svc, me, rq) ← resolve services m; Some (CallService svc me rq)) as Hx by done.
  destruct (resolve services m) as [x|] eqn:Hres.
  - apply (inv_moved s); cbn; rewrite ?Hout; try done; try by apply Hi.
    + unfold flight. cbn. rewrite Hout, Hsw, fmap_app. cbn. solve_Permutation.
    + apply Forall_app. split; [by apply Hi|]. constructor; [|done]. exists m. by rewrite Hsw.
  - apply (inv_moved s); cbn; rewrite ?Hout; try done; try by apply Hi.
    + unfold flight. cbn. rewrite Hout, fmap_app. cbn. solve_Permutation.
    + apply Forall_app. split; [by apply Hi|]. constructor; [|done]. split; [done|]. by exists m.
Qed.

Lemma step_served_inv s k i sv me rq :
  rpc_inv s → serving_ (server s) !! k = Some (i, (sv, me, rq)) →
  rpc_inv (mkSystem (client s) (doneCallback (CallService sv me rq) i (take_serving k (server s))) (called s)).
Proof.
  intros Hi Hk. pose proof (delete_Permutation _ _ _ Hk) as Hp.
  assert (i ∈ flight s) as Hin.
  { unfold flight. rewrite Hp. rewrite !elem_of_app. right. left. left. }
  destruct (flight_id s _ Hi Hin) as [_ Hw].
  pose proof (ri_serving s Hi) as Hsv. rewrite Hp in Hsv. apply Forall_cons in Hsv as [(q & Hq & Hres) Hsv].
  apply (inv_moved s); cbn; try done; try by apply Hi.
  - pose proof (fmap_Permutation fst _ _ Hp) as Hp1. unfold flight. cbn. rewrite fmap_app, Hw, Hp1. cbn. solve_Permutation.
  - apply Forall_app. split; [by apply Hi|]. constructor; [|done]. split; [done|]. exists q. cbn [id response].
    rewrite Hw. split; [done|]. unfold expected. cbn in Hres. by rewrite Hres.
Qed.

Lemma step_response_inv s m l :
  rpc_inv s → out_ (server s) = m :: l →
  rpc_inv (mkSystem (onRpcMessage true m (client s)) (pop_out (server s)) (called s)).
Proof.
  intros Hi Hout. pose proof (ri_responses s Hi) as Hr. rewrite Hout in Hr.
  apply Forall_cons in Hr as [(Ht & q & Hq & Hresp) Hr].
  assert (flight s ≡ₚ id m :: ((id <$> out_ (client s)) ++ (serving_ (server s)).*1 ++ (id <$> l))) as Hf.
  { unfold flight. rewrite Hout. cbn. solve_Permutation. }
  assert (id m ∈ flight s) as Hin by (rewrite Hf; left).
  destruct (flight_id s _ Hi Hin) as [Hsw _].
  pose proof (flight_nodup s Hi) as Hnd. rewrite Hf in Hnd. cbn in Hnd. apply NoDup_cons in Hnd as [Hnin _].
  assert (onRpcMessage true m (client s) =
    run_done (id m, response m) (set_outstandings (delete (id m) (outstandings_ (client s))) (client s))) as ->.
  { unfold onRpcMessage. rewrite Ht, Hsw. cbn [negb]. by rewrite (proj2 (ri_open s Hi _) Hin). }
  destruct Hi as [H1 H2 H3 H4 H5 H6 H7 H8 H9 H10 H11].
  split; cbn; try done.
  - rewrite <- H2, Hf. unfold flight. cbn. rewrite Hout, fmap_app. cbn. solve_Permutation.
  - intros i. unfold flight. cbn. rewrite Hout. cbn. etransitivity; [|]. 2: { reflexivity. }
    destruct (decide (i = id m)) as [->|Hne].
    + rewrite lookup_delete_eq. split; [done|]. intros Hx. destruct Hnin. apply elem_of_app. by left.
    + rewrite lookup_delete_ne by done. rewrite H3, Hf, elem_of_cons. naive_solver.
  - intros i o Ho. apply lookup_delete_Some in Ho as [_ Ho]. by apply (H4 i).
  - by rewrite Hout.
  - apply Forall_app. split; [done|]. constructor; [|done]. by exists q.
Qed.

Lemma step_call_inv s sv me rq c' :
  rpc_inv s → id_ (client s) < 2 ^ 63 - 1 → CallMethod sv me rq true true (client s) = Ok c' →
  rpc_inv (mkSystem c' (server s) (<[id_ c' := mkRpcMessage REQUEST (wrap 64 (id_ c')) sv me rq None None]> (called s))).
Proof.
  intros Hi Hlt Hc. pose proof Hi as [H1 H2 H3 H4 H5 H6 H7 H8 H9 H10 H11]. unfold CallMethod in Hc.
  rewrite (swrap_id 64 (id_ (client s))), swrap_id in Hc by (unfold in_signed; lia). set (n := id_ (client s) + 1) in *.
  assert (n ∉ flight s) as Hnf by (intros Hin; apply (flight_range s) in Hin; [lia|done]).
  assert (outstandings_ (client s) !! n = None) as Hno.
  { destruct (outstandings_ (client s) !! n) as [o|] eqn:Ho; [|done].
    pose proof (H4 _ _ Ho) as ->. by apply H3 in Ho. }
  assert (called s !! n = None) as Hnc.
  { destruct (called s !! n) as [q|] eqn:Hq; [|done]. apply H11 in Hq. lia. }
  cbn [outstandings_] in Hc. rewrite bool_decide_true in Hc by done. injection Hc as <-. cbn.
  rewrite (wrap_small 64 n) by lia.
  assert (∀ i q, called s !! i = Some q →
    <[n := mkRpcMessage REQUEST n sv me rq None None]> (called s) !! i = Some q) as Hmono.
  { intros i q Hq. rewrite lookup_insert_ne; [done|]. intros ->. congruence. }
  split; cbn; try done.
  - lia.
  - unfold flight. cbn. rewrite fmap_app. cbn.
    assert (seqZ 1 n = seqZ 1 (id_ (client s)) ++ [n]) as ->.
    { unfold n at 1. rewrite seqZ_app by lia. f_equal. rewrite seqZ_cons by lia. f_equal. lia. }
    rewrite <- H2. unfold flight. cbn. solve_Permutation.
  - intros i. unfold flight. cbn. rewrite fmap_app. cbn.
    destruct (decide (i = n)) as [->|Hne].
    + rewrite lookup_insert_eq. split; [|done]. intros _. rewrite !elem_of_app. left. right. left.
    + rewrite lookup_insert_ne by done. rewrite H3. unfold flight. rewrite !elem_of_app.
      rewrite list_elem_of_singleton. naive_solver.
  - intros i o Ho. apply lookup_insert_Some in Ho as [[_ <-]|[_ Ho]]; [done|]. by apply (H4 i).
  - apply Forall_app. split.
    + eapply Forall_impl; [exact H7|]. intros m [Hm Ht]. split; [by apply Hmono|done].
    + constructor; [|done]. split; [|done]. cbn. by rewrite lookup_insert_eq.
  - eapply Forall_impl; [exact H8|]. intros x (q & Hq & Hx). exists q. split; [by apply Hmono|done].
  - eapply Forall_impl; [exact H9|]. intros x (Ht & q & Hq & Hx). split; [done|]. exists q. split; [by apply Hmono|done].
  - eapply Forall_impl; [exact H10|]. intros x (q & Hq & Hx). exists q. split; [by apply Hmono|done].
  - intros i q Hq. apply lookup_insert_Some in Hq as [[<- _]|[_ Hq]]; [lia|]. apply H11 in Hq. lia.
Qed.

Lemma rpc_step_inv s s' : rpc_inv s → rpc_step s s' → rpc_inv s'.
Proof.
  intros Hi Hs. destruct Hs.
  - by apply step_call_inv.
  - by eapply step_request_inv.
  - by apply step_served_inv.
  - by eapply step_response_inv.
Qed.

Lemma rpc_reachable_inv s : rpc_reachable s → rpc_inv s.
Proof.
  induction 1 as [|s s' _ IH Hs]; [|by eapply rpc_step_inv].
  split; cbn; try done.
  intros i. unfold flight. cbn. rewrite lookup_empty. split; [done|]. by intros ?%elem_of_nil.
Qed.

(** Responses are matched to calls. In every reachable state of a client
    and a server, whatever the order in which the services finish: the calls
    made so far are, each exactly once, either in flight (on the way, in a
    service, on the way back) or finished; the client keeps an entry exactly
    for those in flight; and every [done] closure that has run, ran once and
    with the response of the service to the request of that very call, or with
    none where the request could not be served. *)
Theorem rpc_matching s :
  rpc_reachable s →
  flight s ++ (finished_ (client s)).*1 ≡ₚ seqZ 1 (id_ (client s)) ∧
  (∀ i, is_Some (outstandings_ (client s) !! i) ↔ i ∈ flight s) ∧
  (∀ i r, (i, r) ∈ finished_ (client s) → ∃ q, called s !! i = Some q ∧ r = expected services q).
Proof.
  intros Hr. destruct (rpc_reachable_inv s Hr) as [H1 H2 H3 H4 H5 H6 H7 H8 H9 H10 H11]. split_and!; [done| |].
  - intros i. rewrite <- H3. split; [|eauto]. intros [o Ho]. by rewrite Ho, (H4 _ _ Ho).
  - intros i r Hin. rewrite Forall_forall in H10. by apply H10 in Hin.
Qed.

Definition work (s : system) : nat :=
  (3 * length (out_ (client s)) + 2 * length (serving_ (server s)) + length (out_ (server s)))%nat.

Lemma rpc_drain n : ∀ s, (work s < n)%nat → rpc_inv s →
  ∃ s', rtc rpc_step s s' ∧ rpc_inv s' ∧ id_ (client s') = id_ (client s) ∧ flight s' = [].
Proof.
  induction n as [|n IH]; intros s Hn Hi; [lia|].
  assert (∀ s1, rpc_step s s1 → (work s1 < work s)%nat → id_ (client s1) = id_ (client s) →
    ∃ s', rtc rpc_step s s' ∧ rpc_inv s' ∧ id_ (client s') = id_ (client s) ∧ flight s' = []) as Hgo.
  { intros s1 Hs Hw Hid. destruct (IH s1) as (s' & ? & ? & ? & ?); [lia|by eapply rpc_step_inv|].
    exists s'. split_and!; [by eapply rtc_l|done|congruence|done]. }
  destruct (out_ (client s)) as [|m l] eqn:Hc.
  2:{ eapply Hgo; [by eapply step_to_server| |done]. unfold work.
      pose proof (ri_requests s Hi) as Hr. rewrite Hc in Hr. apply Forall_cons in Hr as [[_ Ht] _].
      rewrite onRequest_cases by (done || by apply Hi).
      destruct (resolve services m); cbn; rewrite Hc, length_app; cbn; lia. }
  destruct (serving_ (server s)) as [|[i [[sv me] rq]] l] eqn:Hs.
  2:{ eapply Hgo; [apply (step_served s 0 i sv me rq); by rewrite Hs| |done]. unfold work. cbn.
      rewrite Hs, length_app. cbn. lia. }
  destruct (out_ (server s)) as [|m l] eqn:Ho.
  2:{ eapply Hgo; [by eapply step_to_client| |].
      - unfold work. assert (∀ c, out_ (onRpcMessage true m c) = out_ c ∨ type m = REQUEST) as Hout.
        { intros c. unfold onRpcMessage. cbn [negb]. destruct (type m); [by right| |by left].
          destruct (outstandings_ c !! _); [|by left]. destruct (_ && _); by left. }
        pose proof (ri_responses s Hi) as Hr. rewrite Ho in Hr. apply Forall_cons in Hr as [[Ht _] _].
        cbn [client server]. destruct (Hout (client s)) as [->|?]; [|congruence]. cbn. rewrite Ho. cbn. lia.
      - pose proof (ri_responses s Hi) as Hr. rewrite Ho in Hr. apply Forall_cons in Hr as [[Ht _] _].
        cbn. unfold onRpcMessage. rewrite Ht. cbn [negb]. destruct (outstandings_ _ !! _); [|done].
        by destruct (_ && _). }
  exists s. split_and!; [done|done|done|]. unfold flight. by rewrite Hc, Hs, Ho.
Qed.

(** Every call can complete: from every reachable state, delivering the
    queued messages and running the services' closures brings the system to a
    state in which every call made so far has run its [done] closure and the
    client holds no entry, without another call being made. *)
Theorem rpc_completes s :
  rpc_reachable s →
  ∃ s', rtc rpc_step s s' ∧ outstandings_ (client s') = ∅ ∧
    (finished_ (client s')).*1 ≡ₚ seqZ 1 (id_ (client s)).
Proof.
  intros Hr. pose proof (rpc_reachable_inv s Hr) as Hi.
  destruct (rpc_drain (S (work s)) s ltac:(lia) Hi) as (s' & Hs & Hi' & Hid & Hf).
  exists s'. split_and!; [done| |].
  - apply map_empty. intros i. destruct (outstandings_ (client s') !! i) as [o|] eqn:Ho; [|done].
    pose proof (ri_only _ Hi' _ _ Ho) as ->. apply (ri_open _ Hi') in Ho. rewrite Hf in Ho. by apply elem_of_nil in Ho.
  - rewrite <- Hid, <- (ri_perm _ Hi'), Hf. done.
Qed.
End Channel.

(** ** [RpcServer] *)
Section Server.
Context {Service Method Req : Type}.

(* src/muduo/net/protorpc/RpcServer.cc:18-21 RpcServer::registerService *)
Definition registerService (full_name : bytes) (service : Service) (services : gmap bytes Service) : gmap bytes Service :=
  <[full_name := service]> services.

(** The channel a connection gets as its context and message callback. *)
(* src/muduo/net/protorpc/RpcServer.cc:25-41 RpcServer::onConnection *)
Definition onConnection (connected : bool) (services : gmap bytes Service) : option (@RpcChannel Service Method Req) :=
  if connected then Some (setServices services newRpcChannel) else None.
End Server.

(** ** The theorems at a concrete input *)

(** One service with one method, which returns the request backwards; a
    request must not be empty. *)
Definition sample_find (_ : unit) (name : bytes) : option unit := if bool_decide (name = str "rev") then Some tt else None.
Definition sample_parse (_ _ : unit) (d : bytes) : option bytes := match d with [] => None | _ => Some d end.
Definition sample_service (_ _ : unit) (d : bytes) : bytes := rev d.
Definition sample_services : gmap bytes unit := registerService (str "S") tt ∅.

Abbreviation sample_system := (@system unit unit bytes).
Definition call_or (s : sample_system) (sv me rq : bytes) : sample_system :=
  match CallMethod sv me rq true true (client s) with
  | Ok c => mkSystem c (server s) (<[id_ c := mkRpcMessage REQUEST (wrap 64 (id_ c)) sv me rq None None]> (called s))
  | Fault _ => s
  end.
Definition sample_two_calls : sample_system :=
  call_or (call_or (start sample_services) (str "S") (str "rev") (str "abc")) (str "S") (str "nope") (str "x").

Lemma sample_two_reachable :
  rpc_reachable sample_find sample_parse sample_service sample_services sample_two_calls.
Proof.
  eapply rr_step; [eapply rr_step; [apply rr_start|]|].
  - by apply (step_call _ _ _ _ (str "S") (str "rev") (str "abc")).
  - by apply (step_call _ _ _ _ (str "S") (str "nope") (str "x")).
Qed.

Lemma rpc_matching_witness :
  flight sample_two_calls ++ (finished_ (client sample_two_calls)).*1 ≡ₚ seqZ 1 (id_ (client sample_two_calls)) ∧
  (∀ i, is_Some (outstandings_ (client sample_two_calls) !! i) ↔ i ∈ flight sample_two_calls) ∧
  (∀ i r, (i, r) ∈ finished_ (client sample_two_calls) →
     ∃ q, called sample_two_calls !! i = Some q ∧ r = expected sample_find sample_parse sample_service sample_services q).
Proof. apply rpc_matching. apply sample_two_reachable. Defined.

Lemma rpc_completes_witness :
  ∃ s', rtc (rpc_step sample_find sample_parse sample_service) sample_two_calls s' ∧
    outstandings_ (client s') = ∅ ∧ (finished_ (client s')).*1 ≡ₚ seqZ 1 (id_ (client sample_two_calls)).
Proof. apply (rpc_completes _ _ _ sample_services). apply sample_two_reachable. Defined.
