(* ===== verification/RpcStack.v ===== *)
(** * RpcStack: remote calls over the bytes of two connections
    ([muduo/net/protorpc/RpcChannel.cc], [RpcCodec.h], [RpcCodec.cc],
    [muduo/net/protobuf/ProtobufCodecLite.h])

    [RpcChannel.v] has two channels exchange messages through queues. Here the
    channels are put on their codec, the codec on its connection and its input
    buffer: a message becomes a frame handed to the connection, the peer reads
    the stream of frames in pieces of any size and decodes it with the loop of
    [ProtobufCodec.v], whose message callback is the channel. The theorem shows
    that the system of bytes implements the system of messages.

    What carries the bytes is TCP: a side reads what the other's connection was
    handed, in order ([TcpConnection.connection_stream] shows that the
    connection writes just that). *)
From S2P Require Import Prelude Endian Buffer TcpConnection Connection ProtobufCodec RpcChannel.
From stdpp Require Import options.
#[local] Open Scope Z_scope.

(** ** A codec's callbacks, one after the other *)

Section Lockstep.
Context (native : endian) {Msg : Type} (ParseFromArray : bytes → option Msg) (adler32 : bytes → Z) (tag_ : bytes).

(** What the receiver reports: messages and errors. *)
Definition report : Type := Msg + ProtobufCodec.ErrorCode.
Definition report_message (m : Msg) (_ : Z) (l : list report) : list report := l ++ [inl m].
Definition report_error (e : ProtobufCodec.ErrorCode) (_ : Z) (l : list report) : list report := l ++ [inr e].

Abbreviation pure_while :=
  (onMessage_while native ParseFromArray adler32 tag_ (cb_message report_message) None (cb_error report_error)).
Abbreviation pure_body :=
  (onMessage_body native ParseFromArray adler32 tag_ (cb_message report_message) None (cb_error report_error)).

(** Reports are only added. *)
Lemma reports_grow fuel t l b l' b' : pure_while fuel t l b = Ok (l', b') → l `prefix_of` l'.
Proof.
  revert l b. induction fuel as [|fuel IH]; intros l b H; [by injection H as -> _|]. cbn [onMessage_while] in H.
  destruct (_ <=? _); [|by injection H as -> _]. apply ok_bind_inv in H as (r & Hr & H).
  assert (match r with Continue l1 _ | Break l1 _ => l `prefix_of` l1 end) as Hl.
  { unfold onMessage_body in Hr. apply ok_bind_inv in Hr as (n & _ & Hr). destruct (_ || _).
    { injection Hr as <-. by apply prefix_app_r. }
    destruct (_ <? _); [by injection Hr as <-|]. cbn [raw_passes obind] in Hr. cbn [negb] in Hr.
    apply ok_bind_inv in Hr as ([e o] & _ & Hr).
    destruct e, o; try (injection Hr as <-; by apply prefix_app_r).
    cbn in Hr. apply ok_bind_inv in Hr as (b1 & _ & Hr). injection Hr as <-. by apply prefix_app_r. }
  destruct r as [l1 b1|l1 b1]; [|by injection H as <- _]. etransitivity; [exact Hl|by eapply IH].
Qed.

(** Callbacks that act on a state, in step with the reports [goal]. *)
Context {S : Type} (messageCallback_ : Msg → Z → S → outcome S)
  (errorCallback_ : Buffer → Z → ProtobufCodec.ErrorCode → S → outcome (S * Buffer)).
Context (R : S → list report → Prop) (goal : list Msg).

Hypothesis message_step : ∀ m t s l,
  R s l → l ++ [inl m] `prefix_of` inl <$> goal → safely (messageCallback_ m t s) (λ s', R s' (l ++ [inl m])).

Lemma lockstep fuel t : ∀ s l b l' b',
  R s l → pure_while fuel t l b = Ok (l', b') → l' `prefix_of` inl <$> goal →
  safely (onMessage_while native ParseFromArray adler32 tag_ messageCallback_ None errorCallback_ fuel t s b)
    (λ '(s', b''), R s' l' ∧ b'' = b').
Proof using message_step.
  induction fuel as [|fuel IH]; intros s l b l' b' Hs H Hg; [by injection H as <- <-|]. cbn [onMessage_while] in *.
  destruct (_ <=? _); [|by injection H as <- <-]. apply ok_bind_inv in H as (r & Hr & H).
  assert (∀ e l0, ¬ l0 ++ [inr e] `prefix_of` (inl <$> goal : list report)) as Hno.
  { intros e l0 [k Hk]. assert (inr e ∈ (inl <$> goal : list report)) as Hin by (rewrite Hk; set_solver).
    apply list_elem_of_fmap in Hin as (? & ? & _). done. }
  assert (∀ e, inr e ∉ l' ∨ False) as Hl'.
  { intros e. left. intros Hin. destruct Hg as [k Hk]. assert (inr e ∈ (inl <$> goal : list report)) as Hin'.
    { rewrite Hk. apply elem_of_app. by left. }
    apply list_elem_of_fmap in Hin' as (? & ? & _). done. }
  unfold onMessage_body in *. apply ok_bind_inv in Hr as (n & Hn & Hr). rewrite Hn. cbn [obind].
  destruct (_ || _).
  { injection Hr as <-. injection H as <- <-. by apply Hno in Hg. }
  destruct (_ <? _); [injection Hr as <-; by injection H as <- <-|]. cbn [raw_passes obind negb] in *.
  apply ok_bind_inv in Hr as ([e o] & Hp & Hr). rewrite Hp. cbn [obind].
  destruct e, o; try (injection Hr as <-; injection H as <- <-; by apply Hno in Hg).
  cbn in Hr. apply ok_bind_inv in Hr as (b1 & Hb1 & Hr). injection Hr as <-.
  assert (l ++ [inl m] `prefix_of` (inl <$> goal : list report)) as Hpre.
  { etransitivity; [|exact Hg]. by eapply reports_grow. }
  eapply safely_bind.
  { eapply safely_bind; [by apply message_step|]. intros s1 Hs1. rewrite Hb1. cbn [obind].
    instantiate (1 := λ r, ∃ s1, r = Continue s1 b1 ∧ R s1 (l ++ [inl m])). cbn. by exists s1. }
  intros r (s1 & -> & Hs1). by eapply IH.
Qed.
End Lockstep.

(** ** A channel on its connection *)

(* src/muduo/net/protorpc/RpcCodec.cc:12-12 rpctag *)
Definition rpctag : bytes := str "RPC0".

Section Stack.
Context (native : endian).
(** The generated class [RpcMessage] and zlib. *)
Context (IsInitialized : RpcMessage → bool) (Serialize : RpcMessage → bytes)
  (ParseFromArray : bytes → option RpcMessage) (adler32 : bytes → Z).
(** The services. *)
Context {Service Method Req : Type} (FindMethodByName : Service → bytes → option Method)
  (ParseRequest : Service → Method → bytes → option Req) (CallService : Service → Method → Req → bytes).
(** The connections. *)
Context {C S : Type} `{ConnectionLaws C S}.

#[local] Abbreviation channel := (@RpcChannel Service Method Req).

(** An end of the connection: the channel, its [conn_], the connection's input
    buffer, and how many bytes have been read. *)
Record endpoint := mkEnd { chan : channel; conn : S; inbuf : Buffer; taken : nat }.

Definition with_out (l : list RpcMessage) (c : channel) : channel :=
  mkChannel (id_ c) (outstandings_ c) (services_ c) (serving_ c) l (finished_ c).

(* src/muduo/net/protobuf/ProtobufCodecLite.h:317-319 ProtobufCodecLiteT::send *)
Definition RpcCodec_send (message : RpcMessage) (c : S) : outcome S :=
  codec_send native IsInitialized Serialize adler32 rpctag c message.

(** The calls of [codec_.send] that an operation of the channel ends with. *)
Definition send_out (x : channel * S) : outcome (channel * S) :=
  let! c := foldM RpcCodec_send (out_ (fst x)) (snd x) in Ok (with_out [] (fst x), c).

Definition on_channel (f : channel → outcome channel) (e : endpoint) : outcome endpoint :=
  let! c := f (chan e) in
  let! (c, s) := send_out (c, conn e) in Ok (mkEnd c s (inbuf e) (taken e)).

(* src/muduo/net/protorpc/RpcChannel.cc:33-58 RpcChannel::CallMethod *)
Definition stack_CallMethod (service_name method_name request_bytes : bytes) : endpoint → outcome endpoint :=
  on_channel (CallMethod service_name method_name request_bytes true true).

(* src/muduo/net/protorpc/RpcChannel.cc:139-147 RpcChannel::doneCallback *)
Definition stack_done (resp : bytes) (i : Z) (k : nat) : endpoint → outcome endpoint :=
  on_channel (λ c, Ok (doneCallback resp i (take_serving k c))).

(** The message callback of the codec, and its error callback. *)
(* src/muduo/net/protobuf/ProtobufCodecLite.h:326-329 ProtobufCodecLiteT::onRpcMessage *)
Definition codec_message (m : RpcMessage) (_ : Z) (x : channel * S) : outcome (channel * S) :=
  send_out (onRpcMessage FindMethodByName ParseRequest true m (fst x), snd x).
Definition codec_error (b : Buffer) (t : Z) (e : ProtobufCodec.ErrorCode) (x : channel * S) : outcome ((channel * S) * Buffer) :=
  let! (c, b) := defaultErrorCallback b t e (snd x) in Ok ((fst x, c), b).

(* src/muduo/net/protorpc/RpcChannel.cc:60-63 RpcChannel::onMessage *)
Definition stack_onMessage (x : channel * S) (b : Buffer) (receiveTime : Z) : outcome ((channel * S) * Buffer) :=
  ProtobufCodec.onMessage native ParseFromArray adler32 rpctag codec_message None codec_error x b receiveTime.

(** A read of the connection: the bytes go into the input buffer, and the
    message callback is called. *)
Definition stack_read (d : bytes) (t : Z) (e : endpoint) : outcome endpoint :=
  let! b := append d (inbuf e) in
  let! (x, b) := stack_onMessage (chan e, conn e) b t in
  Ok (mkEnd (fst x) (snd x) b (taken e + length d)).

(** ** A client and a server *)

Record net := mkNet { cl : endpoint; sv : endpoint; net_called : gmap Z RpcMessage }.

(** The bytes that have been handed over at one end and not read at the other. *)
Definition pending (from to : endpoint) : bytes := drop (taken to) (concat (handed (conn from))).

Abbreviation request_message i svc me rq := (mkRpcMessage REQUEST (wrap 64 i) svc me rq None None).
#[local] Abbreviation sendable := (ProtobufCodec.sendable IsInitialized Serialize ParseFromArray rpctag).

(** The operations of both sides, the length of a read chosen freely. *)
Inductive net_op :=
| NCall (svc me rq : bytes) | NServed (k : nat) | NServerReads (n : nat) (t : Z) | NClientReads (n : nat) (t : Z).

Definition net_exec (n : net) (o : net_op) : outcome net :=
  match o with
  | NCall svc me rq =>
      let! c := stack_CallMethod svc me rq (cl n) in
      let i := id_ (chan c) in
      Ok (mkNet c (sv n) (<[i := request_message i svc me rq]> (net_called n)))
  | NServed k =>
      match serving_ (chan (sv n)) !! k with
      | Some (i, (svc, me, rq)) =>
          let! e := stack_done (CallService svc me rq) i k (sv n) in Ok (mkNet (cl n) e (net_called n))
      | None => Ok n
      end
  | NServerReads k t => let! e := stack_read (take k (pending (cl n) (sv n))) t (sv n) in Ok (mkNet (cl n) e (net_called n))
  | NClientReads k t => let! e := stack_read (take k (pending (sv n) (cl n))) t (cl n) in Ok (mkNet e (sv n) (net_called n))
  end.

(** The caller keeps within the size of a message and the range of the ids. *)
Definition legal (n : net) (o : net_op) : Prop :=
  match o with
  | NCall svc me rq => id_ (chan (cl n)) < 2 ^ 63 - 1 ∧ sendable (request_message (id_ (chan (cl n)) + 1) svc me rq)
  | NServed _ => True
  | NServerReads k _ | NClientReads k _ => Z.of_nat k ≤ vector_max_size
  end.

Context (services : gmap bytes Service).

Record net_start (n : net) : Prop := {
  ns_client : chan (cl n) = newRpcChannel;
  ns_server : onConnection true services = Some (chan (sv n));
  ns_called : net_called n = ∅;
  ns_usable : usable (conn (cl n)) ∧ usable (conn (sv n));
  ns_buffers : wf (inbuf (cl n)) ∧ wf (inbuf (sv n)) ∧ content (inbuf (cl n)) = [] ∧ content (inbuf (sv n)) = [];
  ns_taken : taken (sv n) = length (concat (handed (conn (cl n)))) ∧ taken (cl n) = length (concat (handed (conn (sv n))))
}.

Inductive net_reachable : net → Prop :=
| nr_start n : net_start n → net_reachable n
| nr_step n o n' : net_reachable n → legal n o → net_exec n o = Ok n' → net_reachable n'.

(** ** The system of messages *)

Abbreviation frames ms := (concat (frame_of Serialize adler32 rpctag <$> ms)).
Abbreviation waits := (incomplete rpctag).

(** The messages [ms] are on their way. *)
Record link (from to : endpoint) (ms : list RpcMessage) : Prop := {
  lk_out : out_ (chan from) = [];
  lk_usable : usable (conn from);
  lk_wf : wf (inbuf to);
  lk_waits : waits (content (inbuf to));
  lk_taken : (taken to ≤ length (concat (handed (conn from))))%nat;
  lk_bytes : content (inbuf to) ++ pending from to = frames ms;
  lk_sendable : Forall sendable ms
}.

Definition implements (n : net) (s : RpcChannel.system) : Prop := ∃ up down,
  client s = with_out up (chan (cl n)) ∧ server s = with_out down (chan (sv n)) ∧ called s = net_called n ∧
  link (cl n) (sv n) up ∧ link (sv n) (cl n) down.

Abbreviation receive := (onRpcMessage FindMethodByName ParseRequest true).
Abbreviation error_response i e := (mkRpcMessage RESPONSE i [] [] [] None (Some e)).

Lemma with_out_id c : with_out (out_ c) c = c.
Proof. by destruct c. Qed.
Lemma with_out_out l c : out_ (with_out l c) = l.
Proof. done. Qed.
Lemma with_out_twice l k c : with_out l (with_out k c) = with_out l c.
Proof. done. Qed.

(** A message received adds at most one to the queue, and does not look at it. *)
Lemma receive_out m c : ∃ new, (∀ l, receive m (with_out l c) = with_out (l ++ new) (receive m c)) ∧
  (new = [] ∨ type m = REQUEST ∧ ∃ e, new = [error_response (id m) e]).
Proof.
  unfold onRpcMessage. cbn [negb]. destruct (type m).
  - cbn [services_ with_out]. repeat case_match; simplify_eq; try (exists []; split; [intros l; rewrite app_nil_r|by left]; by destruct c).
    all: try (eexists; split; [intros l; reflexivity|right; split; [done|by eexists]]).
  - exists []. split; [|by left]. intros l. rewrite app_nil_r. cbn [outstandings_ with_out].
    destruct (outstandings_ c !! _); [|done]. by destruct (_ && _).
  - exists []. split; [|by left]. intros l. by rewrite app_nil_r.
Qed.

Lemma call_out svc me rq l (c : channel) :
  CallMethod svc me rq true true (with_out l c) =
  let! c' := CallMethod svc me rq true true (with_out [] c) in
  Ok (with_out (l ++ [request_message (id_ c') svc me rq]) c').
Proof. unfold CallMethod. cbn [id_ outstandings_ with_out]. by destruct (bool_decide _). Qed.

Lemma call_next svc me rq (c c' : channel) :
  id_ c < 2 ^ 63 - 1 → 0 ≤ id_ c → CallMethod svc me rq true true c = Ok c' →
  id_ c' = id_ c + 1 ∧ out_ c' = out_ c ++ [request_message (id_ c') svc me rq].
Proof.
  intros H1 H2. unfold CallMethod. rewrite (swrap_id 64 (id_ c)), swrap_id by (unfold in_signed; lia).
  cbn [outstandings_]. destruct (bool_decide _); [|done]. intros [= <-]. done.
Qed.

Lemma send_out_ok c s :
  usable s → Forall sendable (out_ c) →
  safely (send_out (c, s)) (λ '(c', s'), c' = with_out [] c ∧ usable s' ∧
    handed s' = handed s ++ (frame_of Serialize adler32 rpctag <$> out_ c)).
Proof using Type.
  intros Hs Hm. unfold send_out. cbn [fst snd]. eapply safely_bind.
  { apply (codec_sends_ok native IsInitialized Serialize ParseFromArray adler32 rpctag (out_ c) s Hs Hm). }
  intros s' [Hs' Hh]. by split_and!.
Qed.

Lemma pending_more from from' to ms :
  (taken to ≤ length (concat (handed (conn from))))%nat →
  handed (conn from') = handed (conn from) ++ (frame_of Serialize adler32 rpctag <$> ms) →
  pending from' to = pending from to ++ frames ms ∧ (taken to ≤ length (concat (handed (conn from'))))%nat.
Proof using Type.
  intros Ht Hh. unfold pending. rewrite Hh, concat_app, drop_app_le by done. split; [done|].
  rewrite length_app. lia.
Qed.

(** An end that sends: what it sends goes behind what is on its way. *)
Lemma link_more from from' to ms new :
  link from to ms → out_ (chan from') = [] → usable (conn from') → Forall sendable new →
  handed (conn from') = handed (conn from) ++ (frame_of Serialize adler32 rpctag <$> new) →
  link from' to (ms ++ new).
Proof using Type.
  intros [H1 H2 H3 H4 H5 H6 H7] Ho Hu Hn Hh. destruct (pending_more from from' to new H5 Hh) as [Hp Ht].
  split; [done|done|done|done|done| |by apply Forall_app]. by rewrite Hp, app_assoc, H6, fmap_app, concat_app.
Qed.

(** The other end may change, as long as it reads nothing. *)
Lemma link_reader from to to' ms : link from to ms → inbuf to' = inbuf to → taken to' = taken to → link from to' ms.
Proof using Type. intros [H1 H2 H3 H4 H5 H6 H7] Hi Ht. split; unfold pending; by rewrite ?Hi, ?Ht. Qed.

(** ** A read *)

Hypothesis error_sendable : ∀ i e, 0 ≤ i < 2 ^ 64 → sendable (error_response i e).
Hypothesis response_sendable : ∀ i svc me rq, 0 ≤ i < 2 ^ 64 →
  sendable (mkRpcMessage RESPONSE i [] [] [] (Some (CallService svc me rq)) None).

Definition id_ok (m : RpcMessage) : Prop := 0 ≤ id m < 2 ^ 64.
Definition receive_all (ms : list RpcMessage) (c : channel) : channel := foldl (flip receive) c ms.

Lemma receive_all_out ms : ∀ c, Forall id_ok ms →
  ∃ new, (∀ l, receive_all ms (with_out l c) = with_out (l ++ new) (receive_all ms c)) ∧ Forall sendable new.
Proof using error_sendable.
  induction ms as [|m ms IH]; intros c Hid.
  { exists []. split; [|done]. intros l. by rewrite app_nil_r. }
  apply Forall_cons in Hid as [Hm Hid]. destruct (receive_out m c) as (new1 & H1 & Hn1).
  destruct (IH (receive m c) Hid) as (new2 & H2 & Hn2). exists (new1 ++ new2). split.
  - intros l. unfold receive_all in *. cbn [foldl flip]. unfold flip at 2. rewrite H1. fold (flip receive).
    rewrite H2, <- app_assoc. done.
  - apply Forall_app. split; [|done]. destruct Hn1 as [->|(_ & e & ->)]; [done|]. repeat constructor; by apply error_sendable.
Qed.

(** The state of the callbacks after the messages [ms1]. *)
Definition in_step (e : endpoint) (x : channel * S) (l : list (report (Msg := RpcMessage))) : Prop :=
  ∃ ms1, l = inl <$> ms1 ∧ let c := receive_all ms1 (chan e) in
    fst x = with_out [] c ∧ usable (snd x) ∧
    handed (snd x) = handed (conn e) ++ (frame_of Serialize adler32 rpctag <$> out_ c).

Lemma in_step_message e ms m t x l :
  Forall id_ok ms → out_ (chan e) = [] → in_step e x l → l ++ [inl m] `prefix_of` (inl <$> ms : list report) →
  safely (codec_message m t x) (λ x', in_step e x' (l ++ [inl m])).
Proof using error_sendable.
  intros Hms Ho (ms1 & -> & Hx & Hu & Hh) [k Hk]. destruct x as [c s]. cbn [fst snd] in *.
  assert (∃ k', ms = (ms1 ++ [m]) ++ k') as (k' & ->).
  { change [inl m] with (inl <$> [m] : list (report (Msg := RpcMessage))) in Hk. rewrite <- fmap_app in Hk.
    apply fmap_app_inv in Hk as (l1 & k' & H1 & H2 & ->). exists k'. f_equal. symmetry. by eapply (inj (fmap inl)). }
  apply Forall_app in Hms as [Hms _]. apply Forall_app in Hms as [_ Hm]. apply Forall_cons in Hm as [Hm _].
  set (c1 := receive_all ms1 (chan e)) in *. destruct (receive_out m c1) as (new & Hnew & Hn).
  assert (receive_all (ms1 ++ [m]) (chan e) = receive m c1) as Er by (unfold receive_all; by rewrite foldl_app).
  pose proof (Hnew (out_ c1)) as Eo. rewrite with_out_id in Eo.
  unfold codec_message. cbn [fst snd]. rewrite Hx, Hnew, app_nil_l.
  eapply safely_mono; [apply send_out_ok; [done|]|].
  { cbn. destruct Hn as [->|(_ & er & ->)]; [done|]. repeat constructor; by apply error_sendable. }
  intros [c' s'] (-> & Hu' & Hh'). exists (ms1 ++ [m]). rewrite fmap_app, Er. cbv zeta. split; [done|]. cbn [fst snd].
  split; [by rewrite Eo|]. split; [done|]. rewrite Hh', Hh, Eo. cbn [out_ with_out]. by rewrite fmap_app, app_assoc.
Qed.

Lemma reports_messages ms l : foldl (flip (λ m l, l ++ [inl m])) l ms = l ++ (inl <$> ms : list (report (Msg := RpcMessage))).
Proof. revert l. induction ms as [|m ms IH]; intros l; cbn; [by rewrite app_nil_r|]. rewrite IH, <- app_assoc. done. Qed.

Definition has_read (e : endpoint) (d rest : bytes) (ms1 ms2 : list RpcMessage) (e' : endpoint) : Prop :=
  let c := receive_all ms1 (chan e) in
  chan e' = with_out [] c ∧ usable (conn e') ∧
  handed (conn e') = handed (conn e) ++ (frame_of Serialize adler32 rpctag <$> out_ c) ∧
  wf (inbuf e') ∧ waits (content (inbuf e')) ∧ content (inbuf e') ++ rest = frames ms2 ∧
  taken e' = (taken e + length d)%nat.

Lemma stack_read_ok d t e ms rest :
  out_ (chan e) = [] → usable (conn e) → wf (inbuf e) → len d ≤ vector_max_size →
  Forall sendable ms → Forall id_ok ms → content (inbuf e) ++ d ++ rest = frames ms →
  safely (stack_read d t e) (λ e', ∃ ms1 ms2, ms = ms1 ++ ms2 ∧ has_read e d rest ms1 ms2 e').
Proof using error_sendable.
  intros Ho Hu Hb Hd Hms Hid Hbytes. unfold stack_read. eapply safely_bind; [by apply append_safe|].
  intros b1 (Hb1 & Hc1). assert (len rpctag ≤ kMaxMessageLen - kChecksumLen) as Htag by done.
  pose proof (recv_ok native ParseFromArray adler32 rpctag Htag report_message None report_error t [] b1 Hb1) as Hrun.
  apply ensures_ok in Hrun as ([l' b2] & Hrun & Hb2 & Hdec). rewrite Hc1 in Hdec. rewrite app_assoc in Hbytes.
  destruct (decodes_frames _ Serialize _ _ _ (λ m l, l ++ [inl m]) report_error t _ _ _ _ Hdec ms rest Hms Hbytes)
    as (Hw & ms1 & ms2 & -> & -> & Hrest).
  rewrite reports_messages, app_nil_l in Hrun. eapply safely_bind.
  { unfold stack_onMessage, ProtobufCodec.onMessage.
    apply (lockstep native ParseFromArray adler32 rpctag codec_message codec_error (in_step e) (ms1 ++ ms2)
      (λ m t x l, in_step_message e (ms1 ++ ms2) m t x l Hid Ho) _ t (chan e, conn e) [] b1 (inl <$> ms1) b2).
    - exists []. split; [done|]. cbn. rewrite Ho, app_nil_r. split_and!; [|done|done].
      rewrite <- (with_out_id (chan e)) at 1. by rewrite Ho.
    - exact Hrun.
    - rewrite fmap_app. by apply prefix_app_r. }
  intros [[c s] b'] ((ms1' & Heq & Hx & Hs & Hh) & ->). cbn [fst snd] in *.
  assert (ms1 = ms1') as <- by by eapply (inj (fmap inl)).
  exists ms1, ms2. split; [done|]. by split_and!.
Qed.

(** ** The simulation *)

Abbreviation msg_step := (rpc_step FindMethodByName ParseRequest CallService).
Abbreviation msg_inv := (rpc_inv FindMethodByName ParseRequest CallService services).

Lemma deliver_up ms1 ms2 : ∀ s, out_ (client s) = ms1 ++ ms2 →
  rtc msg_step s (mkSystem (with_out ms2 (client s)) (receive_all ms1 (server s)) (called s)).
Proof using Type.
  clear error_sendable response_sendable. induction ms1 as [|m ms1 IH]; intros [c sv0 cd] Ho; cbn [client server called] in *.
  { cbn in Ho. rewrite <- Ho, with_out_id. apply rtc_refl. }
  eapply rtc_l; [by apply (step_to_server _ _ _ _ m (ms1 ++ ms2))|]. cbn [client server called].
  eapply (IH (mkSystem (pop_out c) (receive m sv0) cd)). cbn. by rewrite Ho.
Qed.

Lemma deliver_down ms1 ms2 : ∀ s, out_ (server s) = ms1 ++ ms2 →
  rtc msg_step s (mkSystem (receive_all ms1 (client s)) (with_out ms2 (server s)) (called s)).
Proof using Type.
  clear error_sendable response_sendable. induction ms1 as [|m ms1 IH]; intros [c sv0 cd] Ho; cbn [client server called] in *.
  { cbn in Ho. rewrite <- Ho, with_out_id. apply rtc_refl. }
  eapply rtc_l; [by apply (step_to_client _ _ _ _ m (ms1 ++ ms2))|]. cbn [client server called].
  eapply (IH (mkSystem (receive m c) (pop_out sv0) cd)). cbn. by rewrite Ho.
Qed.

Lemma steps_inv s s' : rtc msg_step s s' → msg_inv s → msg_inv s'.
Proof using Type. clear error_sendable response_sendable. induction 1; [done|]. intros Hi. apply IHrtc. by eapply rpc_step_inv. Qed.

Lemma messages_id_ok s : msg_inv s → Forall id_ok (out_ (client s)) ∧ Forall id_ok (out_ (server s)).
Proof using Type.
  clear error_sendable response_sendable. intros Hi. pose proof (ri_range _ _ _ _ _ Hi) as Hr. split.
  - eapply Forall_impl; [by eapply ri_requests|]. intros m [Hm _]. eapply ri_called in Hm; [|done].
    unfold id_ok. assert (2 ^ 63 < 2 ^ 64) by done. lia.
  - eapply Forall_impl; [by eapply ri_responses|]. intros m (_ & q & Hq & _). eapply ri_called in Hq; [|done].
    unfold id_ok. assert (2 ^ 63 < 2 ^ 64) by done. lia.
Qed.

Lemma call_succeeds s svc me rq :
  msg_inv s → id_ (client s) < 2 ^ 63 - 1 → ∃ c', CallMethod svc me rq true true (client s) = Ok c'.
Proof using Type.
  clear error_sendable response_sendable. intros Hi Hlt. pose proof (ri_range _ _ _ _ _ Hi) as Hr. unfold CallMethod.
  rewrite (swrap_id 64 (id_ (client s))), swrap_id by (unfold in_signed; lia). cbn [outstandings_].
  rewrite bool_decide_true; [by eexists|]. destruct (outstandings_ (client s) !! _) as [o|] eqn:Ho; [|done].
  pose proof (ri_only _ _ _ _ _ Hi _ _ Ho) as ->. apply (ri_open _ _ _ _ _ Hi) in Ho.
  eapply flight_range in Ho; [lia|done].
Qed.

Definition simulates (n : net) (s : RpcChannel.system) (r : outcome net) : Prop :=
  safely r (λ n', ∃ s', rtc msg_step s s' ∧ implements n' s').

Lemma sim_call n s svc me rq :
  msg_inv s → implements n s → legal n (NCall svc me rq) → simulates n s (net_exec n (NCall svc me rq)).
Proof using Type.
  clear error_sendable response_sendable. intros Hi (up & down & Hc & Hs & Hcd & Hup & Hdown) [Hid Hsend].
  pose proof (ri_range _ _ _ _ _ Hi) as Hr. rewrite Hc in Hr. cbn in Hr.
  destruct (call_succeeds s svc me rq Hi) as [c' Hcall]; [by rewrite Hc|].
  pose proof Hcall as Hcall'. rewrite Hc, call_out in Hcall. apply ok_bind_inv in Hcall as (c0 & Hc0 & [= <-]).
  assert (with_out [] (chan (cl n)) = chan (cl n)) as E by (rewrite <- (lk_out _ _ _ Hup); apply with_out_id).
  rewrite E in Hc0. destruct (call_next _ _ _ _ _ Hid (proj1 Hr) Hc0) as [Hid' Hout'].
  rewrite (lk_out _ _ _ Hup), app_nil_l in Hout'.
  unfold simulates, net_exec, stack_CallMethod, on_channel. rewrite Hc0. cbn [obind].
  eapply (safely_bind _ _ (λ e, ∃ s', e = mkEnd (with_out [] c0) s' (inbuf (cl n)) (taken (cl n)) ∧ usable s' ∧
    handed s' = handed (conn (cl n)) ++ (frame_of Serialize adler32 rpctag <$> out_ c0))).
  { eapply safely_bind; [apply send_out_ok; [apply Hup|]|].
    - rewrite Hout'. repeat constructor; rewrite Hid'; by apply Hsend.
    - intros [c1 s1] (-> & Hu1 & Hh1). cbn. by exists s1. }
  intros e (s1 & -> & Hu1 & Hh1). cbn [obind chan id_ with_out safely]. eexists. split.
  { apply rtc_once. eapply step_call; [by rewrite Hc|exact Hcall']. }
  exists (up ++ [request_message (id_ c0) svc me rq]), down. cbn [client server called net_called cl sv chan id_ with_out].
  split_and!; [done|done|by rewrite Hcd| |by eapply link_reader].
  rewrite Hout' in Hh1. eapply link_more; [exact Hup|done|done| |exact Hh1]. constructor; [|done]. by rewrite Hid'.
Qed.

Lemma sim_served n s k : msg_inv s → implements n s → simulates n s (net_exec n (NServed k)).
Proof using response_sendable.
  clear error_sendable. intros Hi Himp. unfold simulates, net_exec.
  destruct (serving_ (chan (sv n)) !! k) as [[i [[svc me] rq]]|] eqn:Hk; [|by exists s].
  destruct Himp as (up & down & Hc & Hs & Hcd & Hup & Hdown). unfold stack_done, on_channel. cbn [obind].
  set (m := mkRpcMessage RESPONSE (wrap 64 i) [] [] [] (Some (CallService svc me rq)) None).
  assert (sendable m) as Hm by by apply response_sendable, wrap_range.
  eapply (safely_bind _ _ (λ e, ∃ s', e = mkEnd (with_out [] (take_serving k (chan (sv n)))) s' (inbuf (sv n)) (taken (sv n)) ∧
    usable s' ∧ handed s' = handed (conn (sv n)) ++ (frame_of Serialize adler32 rpctag <$> [m]))).
  { eapply safely_bind; [apply send_out_ok; [apply Hdown|]|].
    - cbn. rewrite (lk_out _ _ _ Hdown). repeat constructor; apply Hm.
    - intros [c1 s1] (-> & Hu1 & Hh1). cbn in Hh1. rewrite (lk_out _ _ _ Hdown) in Hh1. cbn. by exists s1. }
  intros e (s1 & -> & Hu1 & Hh1). cbn [obind safely]. eexists. split.
  { apply rtc_once. apply (step_served _ _ _ s k i svc me rq). by rewrite Hs. }
  exists up, (down ++ [m]). cbn [client server called net_called cl sv chan].
  split_and!; [done|by rewrite Hs|done|by eapply link_reader|].
  eapply link_more; [exact Hdown|done|done|by constructor|exact Hh1].
Qed.

Lemma link_read from to ms ms' k t :
  link from to ms → link to from ms' → Forall id_ok ms → Z.of_nat k ≤ vector_max_size →
  safely (stack_read (take k (pending from to)) t to) (λ to', ∃ ms1 ms2 new, ms = ms1 ++ ms2 ∧
    link from to' ms2 ∧ link to' from (ms' ++ new) ∧
    ∀ l, receive_all ms1 (with_out l (chan to)) = with_out (l ++ new) (chan to')).
Proof using error_sendable.
  clear response_sendable. intros [H1 H2 H3 H4 H5 H6 H7] Hback Hid Hk.
  assert (len (take k (pending from to)) ≤ vector_max_size) as Hd by (unfold len; rewrite length_take; lia).
  pose proof (take_drop k (pending from to)) as Hp. set (d := take k (pending from to)) in *.
  set (rest := drop k (pending from to)) in *. rewrite <- Hp in H6.
  eapply safely_mono; [by apply (stack_read_ok d t to ms rest (lk_out _ _ _ Hback) (lk_usable _ _ _ Hback))|].
  intros to' (ms1 & ms2 & -> & Hc & Hu & Hh & Hw & Hwait & Hrest & Ht).
  apply Forall_app in H7 as [_ H7]. apply Forall_app in Hid as [Hid _].
  destruct (receive_all_out ms1 (chan to) Hid) as (new & Hnew & Hsend). exists ms1, ms2, new.
  assert (out_ (receive_all ms1 (chan to)) = new) as Eo.
  { pose proof (Hnew []) as E. rewrite <- (lk_out _ _ _ Hback), with_out_id, (lk_out _ _ _ Hback) in E. by rewrite E. }
  assert (pending from to' = rest ∧ (taken to' ≤ length (concat (handed (conn from))))%nat) as [Hp' Ht'].
  { unfold pending in Hp. apply (f_equal length) in Hp as Hl. rewrite length_app, length_drop in Hl.
    rewrite Ht. split; [|lia]. unfold pending. rewrite Ht, <- drop_drop, <- Hp. apply drop_app_length. }
  split; [done|]. split; [|split].
  - split; try done. by rewrite Hp'.
  - assert (link to from ms') as Hb by done. destruct Hb as [B1 B2 B3 B4 B5 B6 B7].
    eapply link_more; [exact Hback|by rewrite Hc|done|done|]. by rewrite Hh, Eo.
  - intros l. by rewrite Hnew, Hc.
Qed.

Lemma sim_server_reads n s k t :
  msg_inv s → implements n s → Z.of_nat k ≤ vector_max_size → simulates n s (net_exec n (NServerReads k t)).
Proof using error_sendable.
  clear response_sendable. intros Hi (up & down & Hc & Hs & Hcd & Hup & Hdown) Hk. unfold simulates, net_exec.
  pose proof (proj1 (messages_id_ok s Hi)) as Hid. rewrite Hc in Hid. cbn in Hid.
  eapply safely_bind; [by eapply link_read|]. intros e (ms1 & ms2 & new & -> & L1 & L2 & Hr). cbn [safely]. eexists. split.
  { apply (deliver_up ms1 ms2). by rewrite Hc. }
  exists ms2, (down ++ new). cbn [client server called net_called cl sv]. rewrite Hc, Hs. by split_and!.
Qed.

Lemma sim_client_reads n s k t :
  msg_inv s → implements n s → Z.of_nat k ≤ vector_max_size → simulates n s (net_exec n (NClientReads k t)).
Proof using error_sendable.
  clear response_sendable. intros Hi (up & down & Hc & Hs & Hcd & Hup & Hdown) Hk. unfold simulates, net_exec.
  pose proof (proj2 (messages_id_ok s Hi)) as Hid. rewrite Hs in Hid. cbn in Hid.
  eapply safely_bind; [by eapply link_read|]. intros e (ms1 & ms2 & new & -> & L1 & L2 & Hr). cbn [safely]. eexists. split.
  { apply (deliver_down ms1 ms2). by rewrite Hs. }
  exists (up ++ new), ms2. cbn [client server called net_called cl sv]. rewrite Hc, Hs. by split_and!.
Qed.

Lemma simulation n s o : msg_inv s → implements n s → legal n o → simulates n s (net_exec n o).
Proof using error_sendable response_sendable.
  intros Hi Himp Hl. destruct o.
  - by apply sim_call.
  - by apply sim_served.
  - by apply sim_server_reads.
  - by apply sim_client_reads.
Qed.

Abbreviation msg_reachable := (rpc_reachable FindMethodByName ParseRequest CallService services).

Lemma reachable_steps s s' : rtc msg_step s s' → msg_reachable s → msg_reachable s'.
Proof using Type. clear error_sendable response_sendable. induction 1; [done|]. intros Hr. apply IHrtc. by eapply rr_step. Qed.

Lemma start_implements n : net_start n → implements n (start services).
Proof using Type.
  clear error_sendable response_sendable. intros [H1 H2 H3 [H4 H5] (B1 & B2 & B3 & B4) [T1 T2]]. injection H2 as H2.
  assert (waits []) as Hw by by left.
  exists [], []. cbn [client server called start]. rewrite H1, <- H2, H3. split_and!; [done|done|done| |].
  - split; [by rewrite H1|done|done|by rewrite B4|by rewrite T1| |done]. unfold pending. by rewrite B4, T1, drop_all.
  - split; [by rewrite <- H2|done|done|by rewrite B3|by rewrite T2| |done]. unfold pending. by rewrite B3, T2, drop_all.
Qed.

Lemma net_reachable_implements n : net_reachable n → ∃ s, msg_reachable s ∧ implements n s.
Proof using error_sendable response_sendable.
  induction 1 as [n Hn|n o n' _ (s & Hr & Himp) Hl Ho].
  { exists (start services). split; [constructor|by apply start_implements]. }
  pose proof (simulation n s o (rpc_reachable_inv _ _ _ _ s Hr) Himp Hl) as Hsim. unfold simulates in Hsim.
  rewrite Ho in Hsim. destruct Hsim as (s' & Hst & Himp'). exists s'. split; [by eapply reachable_steps|done].
Qed.

(** All bytes read: nothing is on its way. *)
Lemma link_quiet from to ms : link from to ms → pending from to = [] → ms = [] ∧ content (inbuf to) = [].
Proof using Type.
  clear error_sendable response_sendable. intros [H1 H2 H3 H4 H5 H6 H7] Hp. rewrite Hp, app_nil_r in H6.
  destruct H7 as [|m ms Hm H7]; [by rewrite H6|]. rewrite H6 in H4. cbn [fmap list_fmap concat] in H4.
  by apply frame_not_incomplete with (1 := Hm) in H4.
Qed.

(** C23. Remote calls work over the bytes. Take a client and a server, each a
    channel on a codec on a connection with an input buffer, and let the
    client call, the services finish in any order, and both sides read the
    other's bytes in pieces of any size. No operation aborts; the system
    implements the one of [RpcChannel.v], in which whole messages travel;
    every [done] closure that has run, ran once, with the service's response
    to that call's request; and once all bytes have been read and no service
    is at work, every call made has run its closure, the client holds no entry
    and no buffer holds a byte. *)
Theorem rpc_over_bytes n :
  net_reachable n →
  (∃ s, msg_reachable s ∧ implements n s) ∧
  (∀ o, legal n o → safely (net_exec n o) (λ _, True)) ∧
  NoDup (finished_ (chan (cl n))).*1 ∧
  (∀ i r, (i, r) ∈ finished_ (chan (cl n)) → ∃ q, net_called n !! i = Some q ∧
     r = expected FindMethodByName ParseRequest CallService services q) ∧
  (pending (cl n) (sv n) = [] → pending (sv n) (cl n) = [] → serving_ (chan (sv n)) = [] →
     (finished_ (chan (cl n))).*1 ≡ₚ seqZ 1 (id_ (chan (cl n))) ∧ outstandings_ (chan (cl n)) = ∅ ∧
     content (inbuf (cl n)) = [] ∧ content (inbuf (sv n)) = []).
Proof using error_sendable response_sendable.
  intros Hn. destruct (net_reachable_implements n Hn) as (s & Hr & Himp). pose proof (rpc_reachable_inv _ _ _ _ s Hr) as Hi.
  split; [by exists s|]. split.
  { intros o Hl. eapply safely_mono; [by apply (simulation n s o)|done]. }
  destruct Himp as (up & down & Hc & Hs & Hcd & Hup & Hdown).
  assert (finished_ (chan (cl n)) = finished_ (client s)) as -> by by rewrite Hc.
  split; [|split].
  - pose proof (flight_nodup _ _ _ _ s Hi) as Hnd. by apply NoDup_app in Hnd as (_ & _ & ?).
  - intros i r Hin. rewrite <- Hcd. pose proof (ri_finished _ _ _ _ _ Hi) as Hf. rewrite Forall_forall in Hf. by apply Hf in Hin.
  - intros P1 P2 P3. destruct (link_quiet _ _ _ Hup P1) as [-> B2]. destruct (link_quiet _ _ _ Hdown P2) as [-> B1].
    assert (flight s = []) as Hfl by (unfold flight; rewrite Hc, Hs; cbn; by rewrite P3).
    assert (id_ (chan (cl n)) = id_ (client s)) as -> by by rewrite Hc.
    assert (outstandings_ (chan (cl n)) = outstandings_ (client s)) as -> by by rewrite Hc.
    split_and!; [by rewrite <- (ri_perm _ _ _ _ _ Hi), Hfl| |done|done].
    apply map_empty. intros i. destruct (outstandings_ (client s) !! i) as [o|] eqn:Ho; [|done].
    pose proof (ri_only _ _ _ _ _ Hi _ _ Ho) as ->. apply (ri_open _ _ _ _ _ Hi) in Ho. rewrite Hfl in Ho. by apply elem_of_nil in Ho.
Qed.
End Stack.

(** ** The theorem at a concrete input *)

(** A serialization of the messages. *)
Definition put_bytes (d : bytes) : bytes := be_bytes 4 (len d) ++ d.
Definition get_bytes (s : bytes) : bytes * bytes :=
  let n := Z.to_nat (be_val (take 4 s)) in (take n (drop 4 s), drop n (drop 4 s)).

Definition type_code (t : MessageType) : Z := match t with REQUEST => 1 | RESPONSE => 2 | ERROR => 3 end.
Definition code_type (n : Z) : MessageType := if n =? 1 then REQUEST else if n =? 2 then RESPONSE else ERROR.
Definition error_code (e : option ErrorCode) : Z :=
  match e with
  | None => 255 | Some NO_ERROR => 0 | Some WRONG_PROTO => 1 | Some NO_SERVICE => 2 | Some NO_METHOD => 3
  | Some INVALID_REQUEST => 4 | Some INVALID_RESPONSE => 5 | Some TIMEOUT => 6
  end.
Definition code_error (n : Z) : option ErrorCode :=
  nth (Z.to_nat n) (Some <$> [NO_ERROR; WRONG_PROTO; NO_SERVICE; NO_METHOD; INVALID_REQUEST; INVALID_RESPONSE; TIMEOUT]) None.

Definition sample_serialize (m : RpcMessage) : bytes :=
  be_bytes 1 (type_code (type m)) ++ be_bytes 8 (id m) ++ be_bytes 1 (error_code (error m)) ++
  be_bytes 1 (if response m is Some _ then 1 else 0) ++
  put_bytes (service m) ++ put_bytes (method m) ++ put_bytes (request m) ++ default [] (response m).
Definition sample_deserialize (s : bytes) : option RpcMessage :=
  let '(sv, r) := get_bytes (drop 11 s) in
  let '(me, r) := get_bytes r in
  let '(rq, rs) := get_bytes r in
  Some (mkRpcMessage (code_type (be_val (take 1 s))) (be_val (take 8 (drop 1 s))) sv me rq
    (if be_val (take 1 (drop 10 s)) =? 1 then Some rs else None) (code_error (be_val (take 1 (drop 9 s))))).

Lemma get_put d r : len d < 2 ^ 32 → get_bytes (put_bytes d ++ r) = (d, r).
Proof.
  intros Hd. pose proof (len_nonneg d). unfold get_bytes, put_bytes. rewrite <- app_assoc.
  rewrite take_app_length', drop_app_length' by (by rewrite length_be_bytes).
  rewrite be_val_bytes, Z.mod_small by (change (256 ^ Z.of_nat 4) with (2 ^ 32); lia).
  replace (Z.to_nat (len d)) with (length d) by (unfold len; lia). by rewrite take_app_length, drop_app_length.
Qed.

Lemma be_byte z r : 0 ≤ z < 256 → be_val (take 1 (be_bytes 1 z ++ r)) = z.
Proof. intros Hz. rewrite take_app_length' by (by rewrite length_be_bytes). rewrite be_val_bytes. by apply Z.mod_small. Qed.

Lemma sample_serialized m :
  0 ≤ id m < 2 ^ 64 → len (service m) < 2 ^ 32 → len (method m) < 2 ^ 32 → len (request m) < 2 ^ 32 →
  sample_deserialize (sample_serialize m) = Some m.
Proof.
  intros Hi H1 H2 H3. unfold sample_serialize, sample_deserialize.
  set (rest := put_bytes (service m) ++ _). set (b := if response m is Some _ then 1 else 0).
  assert (∀ a i e f : bytes, length a = 1%nat → length i = 8%nat → length e = 1%nat → length f = 1%nat →
    let s := a ++ i ++ e ++ f ++ rest in
    take 1 s = a ∧ take 8 (drop 1 s) = i ∧ take 1 (drop 9 s) = e ∧ take 1 (drop 10 s) = f ∧ drop 11 s = rest) as Hcut.
  { intros a i e f Ha Hb Hc Hd s.
    assert (drop 1 s = i ++ e ++ f ++ rest) as E1 by by apply drop_app_length'.
    assert (drop 9 s = e ++ f ++ rest) as E2 by (change 9%nat with (1 + 8)%nat; rewrite <- drop_drop, E1; by apply drop_app_length').
    assert (drop 10 s = f ++ rest) as E3 by (change 10%nat with (9 + 1)%nat; rewrite <- drop_drop, E2; by apply drop_app_length').
    assert (drop 11 s = rest) as E4 by (change 11%nat with (10 + 1)%nat; rewrite <- drop_drop, E3; by apply drop_app_length').
    rewrite E1, E2, E3, E4. split_and!; try by apply take_app_length'. done. }
  destruct (Hcut (be_bytes 1 (type_code (type m))) (be_bytes 8 (id m)) (be_bytes 1 (error_code (error m))) (be_bytes 1 b))
    as (-> & -> & -> & -> & ->); [by rewrite length_be_bytes..|].
  unfold rest. rewrite !get_put by done. rewrite !be_val_bytes.
  rewrite (Z.mod_small (id m)) by (change (256 ^ Z.of_nat 8) with (2 ^ 64); lia).
  destruct m as [[] i sv me rq [rs|] [[]|]]; done.
Qed.

Lemma sample_rpc_sendable m :
  0 ≤ id m < 2 ^ 64 → len (service m) + len (method m) + len (request m) + len (default [] (response m)) ≤ 1000 →
  sendable (λ _, true) sample_serialize sample_deserialize rpctag m.
Proof.
  intros Hi Hl. pose proof (len_nonneg (service m)). pose proof (len_nonneg (method m)).
  pose proof (len_nonneg (request m)). pose proof (len_nonneg (default [] (response m))). split; [done| |].
  - assert (1000 < 2 ^ 32) by done. apply sample_serialized; [done|lia..].
  - unfold sample_serialize, put_bytes. rewrite !len_app.
    assert (∀ n z, len (be_bytes n z) = Z.of_nat n) as E by (intros; unfold len; by rewrite length_be_bytes). rewrite !E.
    unfold kMaxMessageLen, kChecksumLen. change (len rpctag) with 4. lia.
Qed.

(** A service that gives the last three bytes backwards. *)
Definition sample_last (_ _ : unit) (d : bytes) : bytes := take 3 (rev d).

#[local] Instance stack_sample_ops : ConnectionOps unit (TcpConnection * option unit) := tcp_ops sample_kernel sample_user.
#[local] Instance stack_sample_laws : ConnectionLaws unit (TcpConnection * option unit) :=
  tcp_laws sample_kernel sample_user sample_kernel_ok.

Definition sample_end (c : @RpcChannel unit unit bytes) : @endpoint unit unit bytes (TcpConnection * option unit) :=
  mkEnd c (sample_up, None) conn_buffer (length (concat (handed (sample_up, @None unit)))).
Definition sample_net : net :=
  mkNet (sample_end newRpcChannel) (sample_end (setServices sample_services newRpcChannel)) ∅.
Abbreviation sample_exec :=
  (net_exec little (λ _, true) sample_serialize sample_deserialize sample_adler32 sample_find sample_parse sample_last).
Abbreviation sample_legal := (legal (λ _, true) sample_serialize sample_deserialize).
Abbreviation sample_reachable := (net_reachable little (λ _, true) sample_serialize sample_deserialize sample_adler32
  sample_find sample_parse sample_last sample_services).

Definition after (o : net_op) (n : net) : net := match sample_exec n o with Ok n' => n' | Fault _ => n end.
(** A call, its request read in two pieces, the service, the response. *)
Definition sample_called : net := after (NCall (str "S") (str "rev") (str "abcde")) sample_net.
Definition sample_done : net :=
  foldl (flip after) sample_called [NServerReads 7 5; NServerReads 1000 6; NServed 0; NClientReads 1000 7].

Lemma after_reachable o n : sample_reachable n → sample_legal n o → sample_reachable (after o n).
Proof. intros Hn Hl. unfold after. destruct (sample_exec n o) eqn:E; [by eapply nr_step|done]. Qed.

Lemma sample_done_reachable : sample_reachable sample_done.
Proof.
  unfold sample_done. cbn [foldl]. unfold flip.
  do 4 (refine (after_reachable _ _ _ _); cycle 1; [by vm_compute|]).
  refine (after_reachable _ _ _ _).
  - constructor. split; try done. split; apply codec_sample_usable.
  - split; [done|]. by apply sample_rpc_sendable.
Qed.

Lemma rpc_over_bytes_witness :
  finished_ (chan (cl sample_done)) = [(1, Some (str "edc"))] ∧
  (finished_ (chan (cl sample_done))).*1 ≡ₚ seqZ 1 (id_ (chan (cl sample_done))) ∧
  outstandings_ (chan (cl sample_done)) = ∅ ∧
  content (inbuf (cl sample_done)) = [] ∧ content (inbuf (sv sample_done)) = [].
Proof.
  split; [by vm_compute|].
  refine (proj2 (proj2 (proj2 (proj2 (rpc_over_bytes little (λ _, true) sample_serialize sample_deserialize sample_adler32
    sample_find sample_parse sample_last sample_services _ _ sample_done sample_done_reachable)))) _ _ _);
    [intros i e Hi; by apply sample_rpc_sendable| |by vm_compute|by vm_compute|by vm_compute].
  intros i [] [] rq Hi. apply sample_rpc_sendable; [done|]. cbn [service method request response default].
  assert (length (sample_last tt tt rq) ≤ 3)%nat by (unfold sample_last; rewrite length_take; lia).
  change (Datatypes.id ?d) with d. unfold len. cbn [length]. lia.
Defined.
