(* ===== verification/EventLoop.v ===== *)
(** * EventLoop: one loop per thread ([muduo/net/EventLoop.h], [EventLoop.cc])

    The loop thread and any number of other threads share the queue of
    functors, the eventfd and the quit flag. Their steps interleave: a locked
    section, a [write] of the eventfd and a store are one step each, so
    [queueInLoop] from another thread is two steps (the push, the wakeup) and
    so is [quit]. What callbacks and functors do to the loop are steps of the
    loop thread while it dispatches. *)
From S2P Require Import Prelude Timestamp Channel Poller TimerQueue.
From stdpp Require Import options.

(* src/muduo/net/EventLoop.cc:23-23 kPollTimeMs *)
Definition kPollTimeMs : Z := 10000.

(** Where the loop thread is in [loop()]. *)
Inductive position :=
| Outside                     (* before or after loop() *)
| AtTest                      (* while (!quit_) *)
| InPoll                      (* poller_->poll *)
| Handling (active : list Z)  (* the channels still to handle *)
| InFunctors                  (* doPendingFunctors, the batch swapped out *).

(* src/muduo/net/EventLoop.h:131-147 EventLoop *)
Record EventLoop := mkLoop {
  looping_ : bool;
  quit_ : bool;
  eventHandling_ : bool;
  callingPendingFunctors_ : bool;
  iteration_ : Z;
  threadId_ : Z;
  pendingFunctors_ : list Z;         (* functors by name *)
  eventfd_ : Z;                      (* the counter behind wakeupFd_ *)
  wakeupChannel_ : Z;
  activeChannels_ : list Z;          (* the channels poll returned, by address *)
  currentActiveChannel_ : option Z;
  position_ : position;
  batch_ : list Z;                   (* doPendingFunctors' local vector, what is left *)
  wakers_ : nat;                     (* other threads about to call wakeup() *)
  ran_ : list Z;                     (* functors run, in order *)
  queued_ : list Z                   (* functors ever queued, in order *)
}.

Section Setters.
Context (l : EventLoop).
Definition set_flags (looping quit eh calling : bool) := mkLoop looping quit eh calling (iteration_ l)
  (threadId_ l) (pendingFunctors_ l) (eventfd_ l) (wakeupChannel_ l) (activeChannels_ l)
  (currentActiveChannel_ l) (position_ l) (batch_ l) (wakers_ l) (ran_ l) (queued_ l).
Definition set_looping b := set_flags b (quit_ l) (eventHandling_ l) (callingPendingFunctors_ l).
Definition set_quit b := set_flags (looping_ l) b (eventHandling_ l) (callingPendingFunctors_ l).
Definition set_handling b := set_flags (looping_ l) (quit_ l) b (callingPendingFunctors_ l).
Definition set_calling b := set_flags (looping_ l) (quit_ l) (eventHandling_ l) b.
Definition set_position p := mkLoop (looping_ l) (quit_ l) (eventHandling_ l) (callingPendingFunctors_ l)
  (iteration_ l) (threadId_ l) (pendingFunctors_ l) (eventfd_ l) (wakeupChannel_ l) (activeChannels_ l)
  (currentActiveChannel_ l) p (batch_ l) (wakers_ l) (ran_ l) (queued_ l).
Definition set_queue p b := mkLoop (looping_ l) (quit_ l) (eventHandling_ l) (callingPendingFunctors_ l)
  (iteration_ l) (threadId_ l) p (eventfd_ l) (wakeupChannel_ l) (activeChannels_ l)
  (currentActiveChannel_ l) (position_ l) b (wakers_ l) (ran_ l) (queued_ l).
Definition set_eventfd n := mkLoop (looping_ l) (quit_ l) (eventHandling_ l) (callingPendingFunctors_ l)
  (iteration_ l) (threadId_ l) (pendingFunctors_ l) n (wakeupChannel_ l) (activeChannels_ l)
  (currentActiveChannel_ l) (position_ l) (batch_ l) (wakers_ l) (ran_ l) (queued_ l).
Definition set_wakers n := mkLoop (looping_ l) (quit_ l) (eventHandling_ l) (callingPendingFunctors_ l)
  (iteration_ l) (threadId_ l) (pendingFunctors_ l) (eventfd_ l) (wakeupChannel_ l) (activeChannels_ l)
  (currentActiveChannel_ l) (position_ l) (batch_ l) n (ran_ l) (queued_ l).
Definition set_active a c n := mkLoop (looping_ l) (quit_ l) (eventHandling_ l) (callingPendingFunctors_ l)
  n (threadId_ l) (pendingFunctors_ l) (eventfd_ l) (wakeupChannel_ l) a
  c (position_ l) (batch_ l) (wakers_ l) (ran_ l) (queued_ l).
Definition add_queued f := mkLoop (looping_ l) (quit_ l) (eventHandling_ l) (callingPendingFunctors_ l)
  (iteration_ l) (threadId_ l) (pendingFunctors_ l ++ [f]) (eventfd_ l) (wakeupChannel_ l) (activeChannels_ l)
  (currentActiveChannel_ l) (position_ l) (batch_ l) (wakers_ l) (ran_ l) (queued_ l ++ [f]).
Definition add_ran f := mkLoop (looping_ l) (quit_ l) (eventHandling_ l) (callingPendingFunctors_ l)
  (iteration_ l) (threadId_ l) (pendingFunctors_ l) (eventfd_ l) (wakeupChannel_ l) (activeChannels_ l)
  (currentActiveChannel_ l) (position_ l) (batch_ l) (wakers_ l) (ran_ l ++ [f]) (queued_ l).
End Setters.

(** ** The operations *)

(* src/muduo/net/EventLoop.cc:46-64 EventLoop::EventLoop *)
Definition newEventLoop (tid wakeupChannel : Z) (loopInThisThread : bool) : outcome EventLoop :=
  if loopInThisThread then Fault FatalLog
  else Ok (mkLoop false false false false 0 tid [] 0 wakeupChannel [] None Outside [] 0 [] []).

(* src/muduo/net/EventLoop.cc:204-206 EventLoop::isInLoopThread *)
Definition isInLoopThread (tid : Z) (l : EventLoop) : bool := threadId_ l =? tid.
(* src/muduo/net/EventLoop.cc:191-202 EventLoop::assertInLoopThread *)
Definition assertInLoopThread (tid : Z) (l : EventLoop) : outcome unit :=
  if isInLoopThread tid l then Ok tt else Fault FatalLog.

(** A write to an eventfd adds to its counter; the counter stays below 2^64-1. *)
Definition eventfd_max : Z := 2 ^ 64 - 2.
(* src/muduo/net/EventLoop.cc:208-215 EventLoop::wakeup *)
Definition wakeup (l : EventLoop) : EventLoop :=
  if eventfd_ l + 1 <=? eventfd_max then set_eventfd l (eventfd_ l + 1) else l.

(* src/muduo/net/EventLoop.cc:217-224 EventLoop::handleRead *)
Definition handleRead (l : EventLoop) : EventLoop := set_eventfd l 0.

(** The locked section of [queueInLoop], and the test that follows it: the
    caller's second step, when it takes one. *)
Definition queue_push (f : Z) (l : EventLoop) : EventLoop := add_queued l f.
Definition must_wakeup (tid : Z) (l : EventLoop) : bool :=
  negb (isInLoopThread tid l) || callingPendingFunctors_ l.

(* src/muduo/net/EventLoop.cc:118-127 EventLoop::queueInLoop *)
Definition queueInLoop (tid f : Z) (l : EventLoop) : EventLoop :=
  let l1 := queue_push f l in
  if must_wakeup tid l1 then
    if isInLoopThread tid l1 then wakeup l1
    else set_wakers l1 (S (wakers_ l1))       (* the caller still has to wake the loop *)
  else l1.

(* src/muduo/net/EventLoop.cc:110-116 EventLoop::runInLoop *)
Definition runInLoop (tid f : Z) (cb : EventLoop → EventLoop) (l : EventLoop) : EventLoop :=
  if isInLoopThread tid l then cb l else queueInLoop tid f l.

(* src/muduo/net/EventLoop.cc:129-132 EventLoop::queueSize *)
Definition queueSize (l : EventLoop) : Z := len (pendingFunctors_ l).

(* src/muduo/net/EventLoop.cc:103-108 EventLoop::quit *)
Definition quit (tid : Z) (l : EventLoop) : EventLoop :=
  let l1 := set_quit l true in
  if isInLoopThread tid l1 then l1 else set_wakers l1 (S (wakers_ l1)).

(** ** Channels and timers *)

Section Channels.
Context {P : Type} `{PollerOps P}.

(* src/muduo/net/EventLoop.cc:168-172 EventLoop::updateChannel *)
Definition loop_updateChannel (tid c : Z) (owned : bool) (l : EventLoop) (st : heap * P) :
    outcome (heap * P) :=
  assert! owned ;;
  let! _ := assertInLoopThread tid l in
  updateChannel c st.

(* src/muduo/net/EventLoop.cc:174-183 EventLoop::removeChannel *)
Definition loop_removeChannel (tid c : Z) (owned : bool) (l : EventLoop) (st : heap * P) :
    outcome (heap * P) :=
  assert! owned ;;
  let! _ := assertInLoopThread tid l in
  assert! (if eventHandling_ l
           then bool_decide (currentActiveChannel_ l = Some c) || bool_decide (c ∉ activeChannels_ l)
           else true) ;;
  removeChannel c st.

(* src/muduo/net/EventLoop.cc:185-189 EventLoop::hasChannel *)
Definition loop_hasChannel (tid c : Z) (ch : Channel) (owned : bool) (l : EventLoop) (p : P) :
    outcome bool :=
  assert! owned ;;
  let! _ := assertInLoopThread tid l in
  Ok (hasChannel c ch p).
End Channels.

Section Timers.
Context (clock : nat → Z).
(* src/muduo/net/EventLoop.cc:134-137 EventLoop::runAt *)
Definition runAt (here : bool) (time : Timestamp) (cb : Z) (q : TimerQueue) : outcome (TimerId * TimerQueue) :=
  addTimer clock here cb time 0 q.
(* src/muduo/net/EventLoop.cc:147-150 EventLoop::runAfter *)
Definition runAfter (here : bool) (delay : Z) (cb : Z) (q : TimerQueue) : outcome (TimerId * TimerQueue) :=
  let '(now, q1) := Timestamp_now clock q in
  runAt here (now + delay) cb q1.
(* src/muduo/net/EventLoop.cc:160-164 EventLoop::runEvery *)
Definition runEvery (here : bool) (interval : Z) (cb : Z) (q : TimerQueue) : outcome (TimerId * TimerQueue) :=
  let '(now, q1) := Timestamp_now clock q in
  addTimer clock here cb (now + interval) interval q1.
(* src/muduo/net/EventLoop.cc:166-166 EventLoop::cancel *)
Definition loop_cancel (here : bool) (i : TimerId) (q : TimerQueue) : outcome TimerQueue :=
  TimerQueue.cancel clock here i q.
End Timers.

(** ** The loop, step by step *)

(* src/muduo/net/EventLoop.cc:76-82 EventLoop::loop, up to the while *)
Definition loop_start (tid : Z) (l : EventLoop) : outcome EventLoop :=
  assert! negb (looping_ l) ;;
  let! _ := assertInLoopThread tid l in
  Ok (set_position (set_quit (set_looping l true) false) AtTest).

(* src/muduo/net/EventLoop.cc:84-85 EventLoop::loop, the test *)
Definition loop_test (l : EventLoop) : EventLoop :=
  if quit_ l then set_position (set_looping l false) Outside
  else set_position (set_active l [] None (iteration_ l)) InPoll.

(* src/muduo/net/EventLoop.cc:86-89 EventLoop::loop, poll returns *)
Definition loop_polled (active : list Z) (l : EventLoop) : EventLoop :=
  set_position (set_handling (set_active l active None (iteration_ l + 1)) true) (Handling active).

(* src/muduo/net/EventLoop.cc:90-93 EventLoop::loop, one channel *)
Definition loop_handle (c : Z) (rest : list Z) (l : EventLoop) : EventLoop :=
  let l1 := set_active l (activeChannels_ l) (Some c) (iteration_ l) in
  let l2 := if c =? wakeupChannel_ l then handleRead l1 else l1 in
  set_position l2 (Handling rest).

(* src/muduo/net/EventLoop.cc:226-233 EventLoop::doPendingFunctors, the swap *)
Definition functors_swap (l : EventLoop) : EventLoop :=
  set_queue (set_calling l true) [] (pendingFunctors_ l).

(* src/muduo/net/EventLoop.cc:94-96 EventLoop::loop, after the channels *)
Definition loop_handled (l : EventLoop) : EventLoop :=
  set_position (functors_swap (set_handling (set_active l (activeChannels_ l) None (iteration_ l)) false))
    InFunctors.

(* src/muduo/net/EventLoop.cc:235-237 EventLoop::doPendingFunctors, one functor *)
Definition functors_next (f : Z) (rest : list Z) (l : EventLoop) : EventLoop :=
  add_ran (set_queue l (pendingFunctors_ l) rest) f.

(* src/muduo/net/EventLoop.cc:238-239 EventLoop::doPendingFunctors, the end *)
Definition functors_done (l : EventLoop) : EventLoop := set_position (set_calling l false) AtTest.

(** User code runs in the loop thread while channels are handled and while
    functors run. *)
Definition in_user_code (l : EventLoop) : Prop :=
  match position_ l with Handling _ | InFunctors => True | _ => False end.

(** What poll returns: the wakeup channel exactly when its eventfd is
    readable, and any other channels. *)
Definition poll_returns (l : EventLoop) (active : list Z) : Prop :=
  wakeupChannel_ l ∈ active ↔ 0 < eventfd_ l.

Inductive step : EventLoop → EventLoop → Prop :=
| step_start l l' : loop_start (threadId_ l) l = Ok l' → step l l'
| step_test l : position_ l = AtTest → step l (loop_test l)
| step_polled l active :
    position_ l = InPoll → active ≠ [] → poll_returns l active → step l (loop_polled active l)
| step_handle l c rest : position_ l = Handling (c :: rest) → step l (loop_handle c rest l)
| step_handled l : position_ l = Handling [] → step l (loop_handled l)
| step_functor l f rest : position_ l = InFunctors → batch_ l = f :: rest → step l (functors_next f rest l)
| step_functors_done l : position_ l = InFunctors → batch_ l = [] → step l (functors_done l)
| step_user_queue l f : in_user_code l → step l (queueInLoop (threadId_ l) f l)
| step_user_quit l : in_user_code l → step l (quit (threadId_ l) l)
| step_other_queue l tid f : tid ≠ threadId_ l → step l (queueInLoop tid f l)
| step_other_quit l tid : tid ≠ threadId_ l → step l (quit tid l)
| step_other_wakeup l n : wakers_ l = S n → step l (wakeup (set_wakers l n)).

(** Poll also returns when [kPollTimeMs] have passed. *)
Definition step_timeout (l l' : EventLoop) : Prop :=
  position_ l = InPoll ∧ eventfd_ l = 0 ∧ l' = loop_polled [] l.

Inductive reachable : EventLoop → Prop :=
| reach_new tid wc l : newEventLoop tid wc false = Ok l → reachable l
| reach_step l l' : reachable l → step l l' → reachable l'
| reach_timeout l l' : reachable l → step_timeout l l' → reachable l'.

(** ** The invariant *)

(** Someone will wake the loop: the eventfd is readable, or another thread is
    about to write it. *)
Definition woken (l : EventLoop) : Prop := 0 < eventfd_ l ∨ (0 < wakers_ l)%nat.

Record linv (l : EventLoop) : Prop := mkLinv {
  li_fifo : queued_ l = ran_ l ++ batch_ l ++ pendingFunctors_ l;
  li_looping : looping_ l = match position_ l with Outside => false | _ => true end;
  li_handling : eventHandling_ l = match position_ l with Handling _ => true | _ => false end;
  li_calling : callingPendingFunctors_ l = match position_ l with InFunctors => true | _ => false end;
  li_batch : position_ l ≠ InFunctors → batch_ l = [];
  li_eventfd : 0 ≤ eventfd_ l ≤ eventfd_max;
  li_woken : (∀ a, position_ l ≠ Handling a) → pendingFunctors_ l ≠ [] → woken l;
  li_quit : position_ l = InPoll → quit_ l = true → woken l
}.

Lemma wakeup_fields l :
  ∃ n, wakeup l = set_eventfd l n ∧ (0 ≤ eventfd_ l ≤ eventfd_max → 0 < n ≤ eventfd_max).
Proof.
  unfold wakeup. destruct (Z.leb_spec (eventfd_ l + 1) eventfd_max) as [H|H].
  - eexists. split; [done|]. lia.
  - exists (eventfd_ l). split; [by destruct l|]. unfold eventfd_max in *. lia.
Qed.

Ltac loop_fields := cbn in *; try congruence; try done; try lia.

Lemma linv_queue tid f l :
  linv l → (tid = threadId_ l → in_user_code l) → linv (queueInLoop tid f l).
Proof.
  intros [H1 H2 H3 H4 H5 H6 H7 H8] Hu. unfold queueInLoop, must_wakeup, queue_push, isInLoopThread.
  cbn [add_queued threadId_ callingPendingFunctors_]. rewrite H4.
  assert (queued_ l ++ [f] = ran_ l ++ batch_ l ++ pendingFunctors_ l ++ [f]) as Hq
    by (by rewrite H1, <- !app_assoc).
  destruct (Z.eqb_spec (threadId_ l) tid) as [Ht|Ht]; cbn [negb orb].
  - specialize (Hu (eq_sym Ht)). unfold in_user_code in Hu.
    destruct (position_ l) as [| | |a|] eqn:Hp; try done.
    + split; cbn; rewrite ?Hp; try done. intros Hna. by destruct (Hna a).
    + destruct (wakeup_fields (add_queued l f)) as (n & -> & Hn).
      split; cbn; rewrite ?Hp; try done; [cbn in Hn; lia|]. intros _ _. left. cbn in *. lia.
  - split; cbn; try done; intros; right; cbn; lia.
Qed.

Lemma linv_quit tid l :
  linv l → (tid = threadId_ l → in_user_code l) → linv (quit tid l).
Proof.
  intros [H1 H2 H3 H4 H5 H6 H7 H8] Hu. unfold quit, isInLoopThread. cbn [set_quit set_flags threadId_].
  destruct (Z.eqb_spec (threadId_ l) tid) as [Ht|Ht].
  - specialize (Hu (eq_sym Ht)). unfold in_user_code in Hu. split; try done.
    cbn. intros Hp. by rewrite Hp in Hu.
  - split; cbn; try done; intros; right; cbn; lia.
Qed.

Lemma linv_step l l' : linv l → step l l' → linv l'.
Proof.
  intros Hi Hs. pose proof Hi as [H1 H2 H3 H4 H5 H6 H7 H8]. destruct Hs as
    [l l' Hst|l Hp|l active Hp _ Hr|l c rest Hp|l Hp|l f rest Hp Hb|l Hp Hb|l f Hu|l Hu|l tid f Ht|l tid Ht|l n Hn].
  - unfold loop_start in Hst. apply ok_bind_inv in Hst as (u & Hu & Hst). apply cassert_ok in Hu.
    apply ok_bind_inv in Hst as (v & _ & [= <-]).
    assert (position_ l = Outside) as Hp by (rewrite H2 in Hu; by destruct (position_ l)).
    rewrite Hp in *. split; cbn; try done.
    + intros _. by apply H5.
    + intros _. by apply H7.
  - unfold loop_test. destruct (quit_ l) eqn:Hq; rewrite Hp in *; split; cbn; try done; try (intros _; by apply H5); try (intros _; by apply H7); congruence.
  - rewrite Hp in *. split; cbn; try done; [intros _; by apply H5|]. intros Hna. by destruct (Hna active).
  - rewrite Hp in *. unfold loop_handle. destruct (c =? wakeupChannel_ l); split; cbn; try done; try (intros _; by apply H5);
      try (intros Hna; by destruct (Hna rest)); unfold eventfd_max; lia.
  - rewrite Hp in *. split; cbn; try done. rewrite H1, H5 by done. by rewrite app_nil_r.
  - rewrite Hp in *. split; cbn; rewrite ?Hp; try done. rewrite H1, Hb. by rewrite <- app_assoc.
  - rewrite Hp in *. split; cbn; try done. intros _. by apply H7.
  - by apply linv_queue.
  - by apply linv_quit.
  - by apply linv_queue.
  - by apply linv_quit.
  - destruct (wakeup_fields (set_wakers l n)) as (m & -> & Hm). cbn in Hm.
    split; cbn; try done; [lia| |]; intros; left; cbn; lia.
Qed.

Lemma linv_reachable l : reachable l → linv l.
Proof.
  induction 1 as [tid wc l Hl|l l' _ IH Hs|l l' _ IH (Hp & H0 & ->)].
  - injection Hl as <-. by split.
  - by eapply linv_step.
  - destruct IH as [H1 H2 H3 H4 H5 H6 H7 H8]. rewrite Hp in *. split; cbn; try done; [intros _; by apply H5|].
    intros Hna. by destruct (Hna []).
Qed.

(** C4. The queue of functors under every interleaving. The functors ever
    queued are, in order, those that have run, those of the batch being run
    and those pending: none is lost, repeated or overtaken. And no wakeup is
    lost: whenever the loop thread is in poll while a functor is pending or
    the loop has been told to quit, its eventfd is readable or some thread is
    about to write it. *)
Theorem loop_queue_invariant l :
  reachable l →
  queued_ l = ran_ l ++ batch_ l ++ pendingFunctors_ l ∧
  (position_ l = InPoll → pendingFunctors_ l ≠ [] ∨ quit_ l = true → woken l).
Proof.
  intros Hr. destruct (linv_reachable l Hr) as [H1 H2 H3 H4 H5 H6 H7 H8]. split; [done|].
  intros Hp [Hne|Hq]; [|by apply H8]. apply H7; [by rewrite Hp|done].
Qed.

(** ** Progress *)

Lemma run_batch bs : ∀ l,
  position_ l = InFunctors → batch_ l = bs →
  ∃ l', rtc step l l' ∧ position_ l' = AtTest ∧ ran_ l' = ran_ l ++ bs ∧ quit_ l' = quit_ l.
Proof.
  induction bs as [|f bs IH]; intros l Hp Hb.
  - exists (functors_done l). split_and!; [|done|by rewrite app_nil_r|done].
    apply rtc_once. by apply step_functors_done.
  - destruct (IH (functors_next f bs l)) as (l' & Hl' & Hp' & Hr' & Hq'); [done|done|].
    exists l'. split_and!; [|done| |done].
    + eapply rtc_l; [by apply step_functor|done].
    + rewrite Hr'. cbn. by rewrite <- app_assoc.
Qed.

Lemma wake_and_run l :
  linv l → position_ l = InPoll → 0 < eventfd_ l →
  ∃ l', rtc step l l' ∧ position_ l' = AtTest ∧ ran_ l' = ran_ l ++ pendingFunctors_ l ∧ quit_ l' = quit_ l.
Proof.
  intros Hi Hp Hfd. set (w := wakeupChannel_ l).
  set (l1 := loop_polled [w] l). set (l2 := loop_handle w [] l1). set (l3 := loop_handled l2).
  assert (pendingFunctors_ l2 = pendingFunctors_ l ∧ ran_ l2 = ran_ l ∧ quit_ l2 = quit_ l ∧
    position_ l2 = Handling []) as (H1 & H2 & H3 & H4).
  { unfold l2, loop_handle. by destruct (_ =? _). }
  destruct (run_batch (batch_ l3) l3) as (l' & Hl' & Hp' & Hr' & Hq'); [done|done|].
  exists l'. split_and!; [|done| |].
  - eapply rtc_l; [apply (step_polled l [w]); [done|done|]|].
    { unfold poll_returns. split; [done|]. intros _. by apply list_elem_of_singleton. }
    eapply rtc_l; [by apply (step_handle l1 w [])|].
    eapply rtc_l; [by apply (step_handled l2)|done].
  - by rewrite Hr', <- H1, <- H2.
  - by rewrite Hq'.
Qed.


(** ** The theorems at concrete inputs *)

Definition sample_loop : EventLoop :=
  mkLoop false false false false 0 1 [] 0 50 [] None Outside [] 0 [] [].
(** The loop is in poll when thread 2 queues a functor and has yet to wake it. *)
Definition sample_waiting : EventLoop :=
  queueInLoop 2 7 (loop_test (match loop_start 1 sample_loop with Ok l => l | Fault _ => sample_loop end)).

Lemma sample_waiting_reachable : reachable sample_waiting.
Proof.
  apply (reach_step (loop_test (match loop_start 1 sample_loop with Ok l => l | Fault _ => sample_loop end)));
    [|by apply step_other_queue].
  apply (reach_step (match loop_start 1 sample_loop with Ok l => l | Fault _ => sample_loop end));
    [|by apply step_test].
  apply (reach_step sample_loop); [by apply (reach_new 1 50)|by apply step_start].
Qed.

Lemma loop_queue_invariant_witness :
  queued_ sample_waiting = ran_ sample_waiting ++ batch_ sample_waiting ++ pendingFunctors_ sample_waiting ∧
  (position_ sample_waiting = InPoll →
     pendingFunctors_ sample_waiting ≠ [] ∨ quit_ sample_waiting = true → woken sample_waiting).
Proof. apply loop_queue_invariant. apply sample_waiting_reachable. Defined.


(** ** Uses outside the theorems' conditions *)

(** [loop()] clears [quit_]: a [quit] that comes before it is lost. *)
Lemma early_quit_lost :
  match loop_start 1 (quit 2 sample_loop) with Ok l => quit_ l = false | Fault _ => False end.
Proof. done. Qed.

(** A functor the loop's own thread queues before [loop()] wakes nobody: the
    first poll waits for its timeout. *)
Lemma early_queue_sleeps :
  match loop_start 1 (queueInLoop 1 7 sample_loop) with
  | Ok l => let l' := loop_test l in
            position_ l' = InPoll ∧ pendingFunctors_ l' = [7] ∧ ¬ woken l'
  | Fault _ => False
  end.
Proof. cbn. split_and!; [done|done|]. unfold woken. cbn. lia. Qed.
