(* ===== verification/Reactor.v ===== *)
(** * Reactor: a loop with its poller and its channels
    ([muduo/net/EventLoop.cc], [Channel.cc], [Poller.h])

    [EventLoop] follows the loop's queue, flags and positions, [Poller] the
    registrations, [Channel] one dispatch. Here they are one program: the loop
    polls, dispatches the active channels one after the other, and the
    callbacks and functors it runs construct channels, change their events,
    remove and destroy them, also while other active channels still wait for
    their turn. The poller is any instance of [PollerLaws]. *)
From S2P Require Import Prelude Channel Poller EPollPoller EventLoop.
From stdpp Require Import options.

(** What a channel's owner asks for. *)
Inductive change := EnableReading | DisableReading | EnableWriting | DisableWriting | DisableAll.

(** What the loop thread does with the loop and its channels; [Enter] marks
    the call of a callback, [WakeupRead] is the callback of the wakeup
    channel. *)
Inductive act :=
| New (c fd : Z) | Change (c : Z) (u : change) | Remove (c : Z) | Destroy (c : Z) | Tie (c : Z)
| Queue (f : Z) | Quit
| Enter (c : Z) (k : kind) | WakeupRead.

(** The loop, the channel objects by address and the poller; what poll has
    reported and is not yet dispatched, and the histories of the reports (a
    channel and its revents) and of the callbacks called. *)
Record Reactor (P : Type) := mkReactor {
  loop_ : EventLoop.EventLoop;
  mem : heap;
  poller_ : P;
  timerChannel_ : Z;
  ready_ : list (Z * Z);
  reported_ : list (Z * Z);
  calls_ : list (Z * kind)
}.
Arguments mkReactor {P}.
Arguments loop_ {P}.
Arguments mem {P}.
Arguments poller_ {P}.
Arguments timerChannel_ {P}.
Arguments ready_ {P}.
Arguments reported_ {P}.
Arguments calls_ {P}.

Section Reactor.
Context {P : Type} `{PollerLaws P}.
#[local] Abbreviation reactor := (Reactor P).

Definition with_loop (l : EventLoop.EventLoop) (s : reactor) : reactor :=
  mkReactor l (mem s) (poller_ s) (timerChannel_ s) (ready_ s) (reported_ s) (calls_ s).
Definition with_store (st : heap * P) (s : reactor) : reactor :=
  mkReactor (loop_ s) (fst st) (snd st) (timerChannel_ s) (ready_ s) (reported_ s) (calls_ s).
Definition with_ready (r : list (Z * Z)) (s : reactor) : reactor :=
  mkReactor (loop_ s) (mem s) (poller_ s) (timerChannel_ s) r (reported_ s) (calls_ s).
Definition entered (c : Z) (k : kind) (s : reactor) : reactor :=
  mkReactor (loop_ s) (mem s) (poller_ s) (timerChannel_ s) (ready_ s) (reported_ s) (calls_ s ++ [(c, k)]).

(** The channel at an address, for the operations of [Channel]. *)
Definition chan (c : Z) (s : reactor) : Channel := default (newChannel 0) (mem s !! c).
Definition put_chan (c : Z) (ch : Channel) (s : reactor) : reactor :=
  with_store (<[c := ch]> (mem s), poller_ s) s.
Definition tid (s : reactor) : Z := threadId_ (loop_ s).

(** [loop_->updateChannel(this)] and [loop_->removeChannel(this)]. *)
Definition to_update (c : Z) (s : reactor) : outcome reactor :=
  let! st := loop_updateChannel (tid s) c true (loop_ s) (mem s, poller_ s) in Ok (with_store st s).
Definition to_remove (c : Z) (s : reactor) : outcome reactor :=
  let! st := loop_removeChannel (tid s) c true (loop_ s) (mem s, poller_ s) in Ok (with_store st s).

Definition change_events (c : Z) (u : change) : reactor → outcome reactor :=
  match u with
  | EnableReading => enableReading (chan c) (put_chan c) (to_update c)
  | DisableReading => disableReading (chan c) (put_chan c) (to_update c)
  | EnableWriting => enableWriting (chan c) (put_chan c) (to_update c)
  | DisableWriting => disableWriting (chan c) (put_chan c) (to_update c)
  | DisableAll => disableAll (chan c) (put_chan c) (to_update c)
  end.

(** Every operation on a channel that is not there is a use of a dangling
    pointer. *)
Definition exec (a : act) (s : reactor) : outcome reactor :=
  match a with
  | New c fd => Ok (put_chan c (newChannel fd) s)
  | Change c u => let! _ := deref (mem s !! c) in change_events c u s
  | Remove c => let! _ := deref (mem s !! c) in Channel.remove (chan c) (put_chan c) (to_remove c) s
  | Destroy c =>
      let! ch := deref (mem s !! c) in
      let! _ := destroyChannel ch in
      Ok (with_store (delete c (mem s), poller_ s) s)
  | Tie c => let! ch := deref (mem s !! c) in Ok (put_chan c (tie ch) s)
  | Queue f => Ok (with_loop (queueInLoop (tid s) f (loop_ s)) s)
  | Quit => Ok (with_loop (quit (tid s) (loop_ s)) s)
  | Enter c k => Ok (entered c k s)
  | WakeupRead => Ok (with_loop (EventLoop.handleRead (loop_ s)) s)
  end.

(** ** The constructor and the destructor *)

(* src/muduo/net/TimerQueue.cc:64-70 TimerQueue::TimerQueue *)
Definition timer_ctor (c fd : Z) : list act := [New c fd; Change c EnableReading].
(* src/muduo/net/TimerQueue.cc:72-76 TimerQueue::~TimerQueue *)
Definition timer_dtor (c : Z) : list act := [Change c DisableAll; Remove c; Destroy c].

(* src/muduo/net/EventLoop.cc:46-64 EventLoop::EventLoop *)
Definition newReactor (t : Z) (p : P) (timer timerfd wakeup wakeupFd : Z) : outcome reactor :=
  let! l := newEventLoop t wakeup false in
  foldM exec (timer_ctor timer timerfd ++ [New wakeup wakeupFd; Change wakeup EnableReading])
    (mkReactor l ∅ p timer [] [] []).

(** The members go in reverse order: the wakeup channel, then the timers. *)
(* src/muduo/net/EventLoop.cc:66-74 EventLoop::~EventLoop *)
Definition destroyReactor (s : reactor) : outcome reactor :=
  let w := wakeupChannel_ (loop_ s) in
  foldM exec ([Change w DisableAll; Remove w; Destroy w] ++ timer_dtor (timerChannel_ s)) s.

(** ** The loop *)

Definition own (s : reactor) (c : Z) : bool := (c =? wakeupChannel_ (loop_ s)) || (c =? timerChannel_ s).

(** A callback of the channel: what the user's code does in it; the wakeup
    channel reads its eventfd. *)
Definition body (w c : Z) (ops : kind → list act) (k : kind) : list act :=
  Enter c k :: if c =? w then [WakeupRead] else ops k.
Definition callbacks_of (w c : Z) (inner : bool) (ops : kind → list act) : callbacks reactor :=
  let cb k := foldM exec (body w c ops k) in
  mkCallbacks (Some (λ _, cb KRead)) (if inner then None else Some (cb KWrite))
    (if inner then None else Some (cb KClose)) (if inner then None else Some (cb KError)).

(* src/muduo/net/EventLoop.cc:90-91 EventLoop::loop, currentActiveChannel_ *)
Definition taken (c : Z) (rest : list Z) (s : reactor) : reactor :=
  with_ready (tail (ready_ s)) (with_loop
    (set_position (set_active (loop_ s) (activeChannels_ (loop_ s)) (Some c) (iteration_ (loop_ s))) (Handling rest)) s).

(* src/muduo/net/EventLoop.cc:90-93 EventLoop::loop, one channel *)
Definition dispatch (c : Z) (rest : list Z) (ops : kind → list act) (t : Z) (s : reactor) : outcome reactor :=
  let s := taken c rest s in
  let! _ := deref (mem s !! c) in
  Channel.handleEvent (chan c) (put_chan c) (callbacks_of (wakeupChannel_ (loop_ s)) c (own s c) ops) true t s.

(* src/muduo/net/EventLoop.cc:86-89 EventLoop::loop, the poll *)
Definition polled (r : reply) (s : reactor) : outcome (reactor * list Z) :=
  let! (active, st) := poll r (mem s, poller_ s) in
  Ok (with_loop (loop_polled active (loop_ s)) (with_store st s), active).

(* src/muduo/net/EventLoop.cc:235-237 EventLoop::doPendingFunctors, one functor *)
Definition functor (f : Z) (rest : list Z) (ops : list act) (s : reactor) : outcome reactor :=
  foldM exec ops (with_loop (functors_next f rest (loop_ s)) s).

(** The reports, for the theorems. *)
Definition reports (l : list (Z * Z)) (s : reactor) : reactor :=
  mkReactor (loop_ s) (mem s) (poller_ s) (timerChannel_ s) l (reported_ s ++ l) (calls_ s).

(** ** What the owners of channels may do *)

(** A channel is registered at most once, and not while another channel stands
    for its descriptor; it is removed when its events are disabled, in its own
    callback or when it is not among the active ones, and destroyed when it is
    removed, but not in its own callback. These are the asserts of the code. *)
Definition legal (s : reactor) (a : act) : Prop :=
  let chans := channels_ (poller_ s) in
  match a with
  | New c fd => mem s !! c = None ∧ 0 ≤ fd
  | Change c _ => ∃ ch, mem s !! c = Some ch ∧
      (chans !! fd_ ch = Some c ∨ (chans !! fd_ ch = None ∧ index_ ch = -1))
  | Remove c => ∃ ch, mem s !! c = Some ch ∧ events_ ch = 0 ∧ chans !! fd_ ch = Some c ∧
      (EventLoop.eventHandling_ (loop_ s) = true →
       currentActiveChannel_ (loop_ s) = Some c ∨ c ∉ activeChannels_ (loop_ s))
  | Destroy c => ∃ ch, mem s !! c = Some ch ∧ chans !! fd_ ch ≠ Some c ∧ Channel.eventHandling_ ch = false
  | Tie c => is_Some (mem s !! c)
  | Queue _ | Quit => in_user_code (loop_ s)
  | Enter _ _ => True
  | WakeupRead => False
  end.

Definition touched (a : act) : option Z :=
  match a with Change c _ | Remove c | Destroy c => Some c | _ => None end.

(** Legal operations, one after the other, that leave the loop's own two
    channels alone. *)
Fixpoint legal_run (l : list act) (s : reactor) : Prop :=
  match l with
  | [] => True
  | a :: l => legal s a ∧ (∀ c, touched a = Some c → own s c = false) ∧ ∀ s', exec a s = Ok s' → legal_run l s'
  end.

(** ** The invariant *)

Record chan_ok (cur : option Z) (p : P) (c : Z) (ch : Channel) : Prop := mkChanOk {
  ck_fd : 0 ≤ fd_ ch;
  ck_events : 0 ≤ events_ ch < 8;
  ck_added : addedToLoop_ ch = true ↔ channels_ p !! fd_ ch = Some c;
  ck_handling : Channel.eventHandling_ ch = bool_decide (cur = Some c)
}.

(** Of the poller and the channels, while [cur] is being dispatched. *)
Record core (cur : option (Z * Z)) (s : reactor) : Prop := mkCore {
  co_poller : pinv (mem s) (poller_ s);
  co_watches : ∀ fd m, watches (poller_ s) fd m ↔ m ≠ 0 ∧
    ∃ c ch, channels_ (poller_ s) !! fd = Some c ∧ mem s !! c = Some ch ∧ events_ ch = m;
  co_mem : ∀ c ch, mem s !! c = Some ch → chan_ok (fst <$> cur) (poller_ s) c ch;
  co_cur : ∀ c r, cur = Some (c, r) → ∃ ch, mem s !! c = Some ch ∧ revents_ ch = r;
  co_ready : ∀ c r, (c, r) ∈ ready_ s → EventLoop.eventHandling_ (loop_ s) = true ∧ c ∈ activeChannels_ (loop_ s) ∧
    currentActiveChannel_ (loop_ s) ≠ Some c ∧
    ∃ ch, mem s !! c = Some ch ∧ revents_ ch = r ∧ channels_ (poller_ s) !! fd_ ch = Some c
}.

(** An operation leaves the position of the loop and the reports alone. *)
Record frame (s s' : reactor) : Prop := mkFrame {
  fr_timer : timerChannel_ s' = timerChannel_ s;
  fr_ready : ready_ s' = ready_ s;
  fr_reported : reported_ s' = reported_ s;
  fr_wakeup : wakeupChannel_ (loop_ s') = wakeupChannel_ (loop_ s);
  fr_thread : threadId_ (loop_ s') = threadId_ (loop_ s);
  fr_position : position_ (loop_ s') = position_ (loop_ s);
  fr_handling : EventLoop.eventHandling_ (loop_ s') = EventLoop.eventHandling_ (loop_ s);
  fr_active : activeChannels_ (loop_ s') = activeChannels_ (loop_ s);
  fr_current : currentActiveChannel_ (loop_ s') = currentActiveChannel_ (loop_ s)
}.

(** What is kept of a channel that an operation does not touch. *)
Definition kept (c : Z) (s s' : reactor) : Prop :=
  ∀ ch, mem s !! c = Some ch → ∃ ch', mem s' !! c = Some ch' ∧ fd_ ch' = fd_ ch ∧ events_ ch' = events_ ch ∧
    revents_ ch' = revents_ ch ∧
    (channels_ (poller_ s) !! fd_ ch = Some c → channels_ (poller_ s') !! fd_ ch = Some c).

(** *** Small facts *)

Lemma chan_at c s ch : mem s !! c = Some ch → chan c s = ch.
Proof using Type. unfold chan. by intros ->. Qed.

Lemma registered_at h (p : P) fd c ch : pinv h p → channels_ p !! fd = Some c → h !! c = Some ch → fd_ ch = fd.
Proof using Type. intros Hi Hc Hh. destruct (pinv_channel h p fd c Hi Hc) as (ch' & H1 & H2). congruence. Qed.

Definition new_mask (u : change) (e : Z) : Z :=
  match u with
  | EnableReading => Z.lor e kReadEvent
  | DisableReading => Z.land e (Z.lnot kReadEvent)
  | EnableWriting => Z.lor e kWriteEvent
  | DisableWriting => Z.land e (Z.lnot kWriteEvent)
  | DisableAll => kNoneEvent
  end.

Lemma new_mask_range u e : 0 ≤ e < 8 → 0 ≤ new_mask u e < 8.
Proof using Type.
  intros He. assert (e = 0 ∨ e = 1 ∨ e = 2 ∨ e = 3 ∨ e = 4 ∨ e = 5 ∨ e = 6 ∨ e = 7) as Hc by lia.
  destruct u; destruct Hc as [->|[->|[->|[->|[->|[->|[->| ->]]]]]]]; vm_compute; (split; [discriminate|reflexivity]).
Qed.

Lemma change_events_is c u s ch :
  mem s !! c = Some ch →
  change_events c u s = to_update c (put_chan c (set_addedToLoop (set_events ch (new_mask u (events_ ch))) true) s).
Proof using Type.
  intros Hc. destruct u; unfold change_events, enableReading, disableReading, enableWriting, disableWriting, disableAll,
    Channel.update; rewrite (chan_at c s ch Hc); unfold chan, put_chan; cbn; by rewrite lookup_insert_eq, insert_insert_eq.
Qed.

Lemma only_indices_back chs (h h' : heap) c ch' :
  only_indices chs h h' → h' !! c = Some ch' → ∃ ch i, h !! c = Some ch ∧ ch' = setIndex ch i.
Proof using Type.
  intros Ho Hc. specialize (Ho c). rewrite Hc in Ho. destruct (h !! c) as [ch|]; [|done]. destruct Ho as [-> _].
  eauto.
Qed.

Lemma frame_refl s : frame s s.
Proof using Type. by split. Qed.
Lemma frame_trans s1 s2 s3 : frame s1 s2 → frame s2 s3 → frame s1 s3.
Proof using Type. intros [] []. split; congruence. Qed.
Lemma frame_store st s : frame s (with_store st s).
Proof using Type. by split. Qed.
Lemma kept_refl c s : kept c s s.
Proof using Type. intros ch Hc. by exists ch. Qed.
Lemma kept_trans c s1 s2 s3 : kept c s1 s2 → kept c s2 s3 → kept c s1 s3.
Proof using Type.
  intros H12 H23 ch Hc. destruct (H12 ch Hc) as (ch2 & H1 & H2 & H3 & H4 & H5).
  destruct (H23 ch2 H1) as (ch3 & K1 & K2 & K3 & K4 & K5). exists ch3. rewrite H2 in *. split_and!; auto; congruence.
Qed.

(** *** The operations *)

Definition loop_after (a : act) (s : reactor) : EventLoop.EventLoop :=
  match a with Queue f => queueInLoop (tid s) f (loop_ s) | Quit => quit (tid s) (loop_ s) | _ => loop_ s end.

(** What an operation in the loop thread guarantees. *)
Definition performed (cur : option (Z * Z)) (a : act) (s s' : reactor) : Prop :=
  core cur s' ∧ (frame s s' ∧ loop_ s' = loop_after a s) ∧ calls_ s' = calls_ s ++ (match a with Enter c k => [(c, k)] | _ => [] end) ∧
  ∀ c, touched a ≠ Some c → kept c s s'.

Lemma tid_here s : assertInLoopThread (tid s) (loop_ s) = Ok tt.
Proof using Type. unfold assertInLoopThread, isInLoopThread, tid. by rewrite Z.eqb_refl. Qed.

Lemma change_ok cur c u s :
  core cur s → legal s (Change c u) → ensures (exec (Change c u) s) (λ s',
    performed cur (Change c u) s s' ∧
    (∀ ch, mem s !! c = Some ch →
      ∃ ch', mem s' !! c = Some ch' ∧ fd_ ch' = fd_ ch ∧ events_ ch' = new_mask u (events_ ch) ∧
             Channel.eventHandling_ ch' = Channel.eventHandling_ ch ∧ channels_ (poller_ s') = <[fd_ ch := c]> (channels_ (poller_ s))) ∧
    ∀ c', mem s !! c' = None → mem s' !! c' = None).
Proof using Type.
  intros [Hp Hw Hm Hcur Hrd] (ch & Hc & Hreg). cbn [exec]. rewrite Hc. cbn [deref obind].
  rewrite (change_events_is c u s ch Hc). destruct (Hm c ch Hc) as [Hfd Hev Hadd Hhd].
  pose proof (new_mask_range u _ Hev) as Hmask. set (e := new_mask u (events_ ch)) in *.
  set (ch1 := set_addedToLoop (set_events ch e) true). unfold to_update, loop_updateChannel, tid. cbn [loop_ put_chan with_store].
  pass_asserts. unfold assertInLoopThread, isInLoopThread. rewrite Z.eqb_refl. cbn [obind].
  assert (pinv (<[c := ch1]> (mem s)) (poller_ s)) as Hp1.
  { eapply pinv_owners; [exact Hp|]. by eapply owners_wrote_insert. }
  eapply ensures_bind; [eapply (update_ok _ _ c ch1 Hp1); cbn; [by rewrite lookup_insert_eq|unfold mask_ok; lia|done|exact Hreg]|].
  intros [h' p'] (Hp' & Hoi & Hch & Hw'). cbn in Hoi, Hch, Hw'. cbn [ensures].
  assert (∀ c' ch', c' ≠ c → mem s !! c' = Some ch' → ∃ i, h' !! c' = Some (setIndex ch' i)) as Hother.
  { intros c' ch' Hne Hc'. destruct (only_indices_lookup _ _ _ c' ch' Hoi) as (i & Hi & _); [by rewrite lookup_insert_ne|eauto]. }
  destruct (only_indices_lookup _ _ _ c ch1 Hoi) as (i & Hi & _); [by rewrite lookup_insert_eq|].
  assert (∀ c', c' ≠ c → channels_ (poller_ s) !! fd_ ch ≠ Some c') as Hfree.
  { intros c' Hne Hx. destruct Hreg as [Hr|[Hr _]]; congruence. }
  split; [split; [split|split; [by (split; [split|])|split; [cbn; by rewrite app_nil_r|]]]|]; cbn.
  - exact Hp'.
  - intros fd m. rewrite Hw', Hch. destruct (decide (fd = fd_ ch)) as [->|Hne].
    + rewrite lookup_insert_eq. split.
      * intros [-> Hne]. split; [done|]. exists c, (setIndex ch1 i). done.
      * intros [Hne (c' & ch' & H1 & Hc' & H3)]. injection H1 as <-. rewrite Hi in Hc'. injection Hc' as <-. cbn in H3. split; congruence.
    + rewrite lookup_insert_ne by done. rewrite Hw. apply and_iff_compat_l. split; intros (c' & ch' & H1 & H2 & H3).
      * assert (c' ≠ c) as Hcc. { intros ->. apply Hne. symmetry. exact (registered_at _ _ _ _ _ Hp H1 Hc). }
        destruct (Hother c' ch' Hcc H2) as [j Hj]. exists c', (setIndex ch' j). done.
      * assert (c' ≠ c) as Hcc.
        { intros ->. destruct (pinv_channel _ _ _ _ Hp H1) as (x & Hx & Hxf). congruence. }
        destruct (only_indices_back _ _ _ c' ch' Hoi H2) as (x & j & Hx & ->). rewrite lookup_insert_ne in Hx by done.
        exists c', x. done.
  - intros c' ch' Hc'. destruct (only_indices_back _ _ _ c' ch' Hoi Hc') as (x & j & Hx & ->).
    destruct (decide (c' = c)) as [->|Hne].
    + rewrite lookup_insert_eq in Hx. injection Hx as <-. split; cbn; [done|done| |done].
      rewrite Hch, lookup_insert_eq. done.
    + rewrite lookup_insert_ne in Hx by done. destruct (Hm c' x Hx) as [K1 K2 K3 K4]. split; cbn; [done|done| |done].
      rewrite K3, Hch. destruct (decide (fd_ x = fd_ ch)) as [->|Hf]; [|by rewrite lookup_insert_ne].
      rewrite lookup_insert_eq. split; [intros Hx'; by destruct (Hfree c' Hne)|congruence].
  - intros c' r Hc'. destruct (Hcur c' r Hc') as (x & Hx & Hr). destruct (decide (c' = c)) as [->|Hne].
    + exists (setIndex ch1 i). split; [done|]. cbn. congruence.
    + destruct (Hother c' x Hne Hx) as [j Hj]. by exists (setIndex x j).
  - intros c' r Hin. destruct (Hrd c' r Hin) as (K1 & K2 & K3 & x & Hx & Hr & Hf). split_and!; [done..|].
    destruct (decide (c' = c)) as [->|Hne].
    + exists (setIndex ch1 i). cbn. split_and!; [done|congruence|by rewrite Hch, lookup_insert_eq].
    + destruct (Hother c' x Hne Hx) as [j Hj]. exists (setIndex x j). cbn. split_and!; [done..|].
      rewrite Hch, lookup_insert_ne; [done|]. intros Hff. rewrite <- Hff in Hf. by destruct (Hfree c' Hne).
  - intros c' Hne x Hx. assert (c' ≠ c) as Hcc by congruence. destruct (Hother c' x Hcc Hx) as [j Hj].
    exists (setIndex x j). cbn. split_and!; [done..|]. intros Hf. rewrite Hch, lookup_insert_ne; [done|].
    intros Hff. rewrite <- Hff in Hf. by destruct (Hfree c' Hcc).
  - split; [intros x Hx; replace x with ch by congruence; by exists (setIndex ch1 i)|].
    intros c' Hc'. destruct (h' !! c') as [x|] eqn:E; [|done]. destruct (only_indices_back _ _ _ c' x Hoi E) as (y & j & Hy & _).
    rewrite lookup_insert_ne in Hy; congruence.
Qed.

Lemma remove_act_ok cur c s :
  core cur s → legal s (Remove c) → ensures (exec (Remove c) s) (λ s',
    performed cur (Remove c) s s' ∧ ∀ ch, mem s !! c = Some ch →
      ∃ ch', mem s' !! c = Some ch' ∧ Channel.eventHandling_ ch' = Channel.eventHandling_ ch ∧ fd_ ch' = fd_ ch ∧
             channels_ (poller_ s') = delete (fd_ ch) (channels_ (poller_ s))).
Proof using Type.
  intros [Hp Hw Hm Hcur Hrd] (ch & Hc & Hz & Hreg & Hact). cbn [exec]. rewrite Hc. cbn [deref obind].
  unfold Channel.remove. rewrite (chan_at c s ch Hc). unfold isNoneEvent. rewrite Hz. pass_asserts.
  destruct (Hm c ch Hc) as [Hfd Hev Hadd Hhd].
  set (ch1 := set_addedToLoop ch false). unfold to_remove, loop_removeChannel, tid. cbn [loop_ put_chan with_store].
  pass_asserts. unfold assertInLoopThread, isInLoopThread. rewrite Z.eqb_refl. cbn [obind].
  assert ((if EventLoop.eventHandling_ (loop_ s)
           then bool_decide (currentActiveChannel_ (loop_ s) = Some c) || bool_decide (c ∉ activeChannels_ (loop_ s))
           else true) = true) as ->.
  { destruct (EventLoop.eventHandling_ (loop_ s)); [|done]. apply orb_true_iff. rewrite !bool_decide_eq_true. auto. }
  pass_asserts.
  assert (pinv (<[c := ch1]> (mem s)) (poller_ s)) as Hp1.
  { eapply pinv_owners; [exact Hp|]. by eapply owners_wrote_insert. }
  eapply ensures_bind; [eapply (remove_ok _ _ c ch1 Hp1); cbn; [by rewrite lookup_insert_eq|done|done|]|].
  { intros m [Hm0 (c' & x & H1 & H2 & H3)]%Hw. congruence. }
  intros [h' p'] (Hp' & Hoi & Hch & Hw'). cbn in Hoi, Hch, Hw'. cbn [ensures].
  assert (∀ c' ch', c' ≠ c → mem s !! c' = Some ch' → ∃ i, h' !! c' = Some (setIndex ch' i)) as Hother.
  { intros c' ch' Hne Hc'. destruct (only_indices_lookup _ _ _ c' ch' Hoi) as (i & Hi & _); [by rewrite lookup_insert_ne|eauto]. }
  destruct (only_indices_lookup _ _ _ c ch1 Hoi) as (i & Hi & _); [by rewrite lookup_insert_eq|].
  split; [split; [split|split; [by (split; [split|])|split; [cbn; by rewrite app_nil_r|]]]|]; cbn.
  - exact Hp'.
  - intros fd m. rewrite Hw', Hch, Hw. destruct (decide (fd = fd_ ch)) as [->|Hne].
    + rewrite lookup_delete_eq. split; intros (Hm0 & c' & x & H1 & H2 & H3); [congruence|done].
    + rewrite lookup_delete_ne by done. apply and_iff_compat_l. split; intros (c' & ch' & H1 & H2 & H3).
      * assert (c' ≠ c) as Hcc. { intros ->. apply Hne. symmetry. exact (registered_at _ _ _ _ _ Hp H1 Hc). }
        destruct (Hother c' ch' Hcc H2) as [j Hj]. exists c', (setIndex ch' j). done.
      * assert (c' ≠ c) as Hcc.
        { intros ->. destruct (pinv_channel _ _ _ _ Hp H1) as (x & Hx & Hxf). congruence. }
        destruct (only_indices_back _ _ _ c' ch' Hoi H2) as (x & j & Hx & ->). rewrite lookup_insert_ne in Hx by done.
        exists c', x. done.
  - intros c' ch' Hc'. destruct (only_indices_back _ _ _ c' ch' Hoi Hc') as (x & j & Hx & ->).
    destruct (decide (c' = c)) as [->|Hne].
    + rewrite lookup_insert_eq in Hx. injection Hx as <-. split; cbn; [done|done| |done].
      rewrite Hch, lookup_delete_eq. done.
    + rewrite lookup_insert_ne in Hx by done. destruct (Hm c' x Hx) as [K1 K2 K3 K4]. split; cbn; [done|done| |done].
      rewrite K3, Hch. destruct (decide (fd_ x = fd_ ch)) as [->|Hf]; [|by rewrite lookup_delete_ne].
      rewrite lookup_delete_eq. split; [congruence|done].
  - intros c' r Hc'. destruct (Hcur c' r Hc') as (x & Hx & Hr). destruct (decide (c' = c)) as [->|Hne].
    + exists (setIndex ch1 i). split; [done|]. cbn. congruence.
    + destruct (Hother c' x Hne Hx) as [j Hj]. by exists (setIndex x j).
  - intros c' r Hin. destruct (Hrd c' r Hin) as (K1 & K2 & K3 & x & Hx & Hr & Hf). split_and!; [done..|].
    assert (c' ≠ c) as Hne. { intros ->. by destruct (Hact K1). }
    destruct (Hother c' x Hne Hx) as [j Hj]. exists (setIndex x j). cbn. split_and!; [done..|].
    rewrite Hch, lookup_delete_ne; [done|]. intros Hff. rewrite <- Hff in Hf. congruence.
  - intros c' Hne x Hx. assert (c' ≠ c) as Hcc by congruence. destruct (Hother c' x Hcc Hx) as [j Hj].
    exists (setIndex x j). cbn. split_and!; [done..|]. intros Hf. rewrite Hch, lookup_delete_ne; [done|].
    intros Hff. rewrite <- Hff in Hf. congruence.
  - intros x Hx. replace x with ch by congruence. exists (setIndex ch1 i). done.
Qed.

Lemma new_act_ok cur c fd s : core cur s → legal s (New c fd) → ensures (exec (New c fd) s) (performed cur (New c fd) s).
Proof using Type.
  intros [Hp Hw Hm Hcur Hrd] [Hc Hfd]. cbn [exec ensures].
  assert (∀ fd', channels_ (poller_ s) !! fd' ≠ Some c) as Hfree.
  { intros fd' Hx. destruct (pinv_channel _ _ _ _ Hp Hx) as (x & Hx' & _). congruence. }
  assert (∀ c' x, mem s !! c' = Some x → <[c := newChannel fd]> (mem s) !! c' = Some x) as Hother.
  { intros c' x Hx. rewrite lookup_insert_ne; [done|]. congruence. }
  split; [split|split; [by (split; [split|])|split; [cbn; by rewrite app_nil_r|]]]; cbn.
  - eapply pinv_owners; [exact Hp|]. intros c' x Hx. exists x. split; [by apply Hother|done].
  - intros fd' m. rewrite Hw. apply and_iff_compat_l. split; intros (c' & x & H1 & H2 & H3); exists c', x.
    + split_and!; [done|by apply Hother|done].
    + rewrite lookup_insert_ne in H2 by (intros ->; by destruct (Hfree fd')). done.
  - intros c' x Hx. destruct (decide (c' = c)) as [->|Hne]; [|rewrite lookup_insert_ne in Hx by done; by apply Hm].
    rewrite lookup_insert_eq in Hx. injection Hx as <-. split; cbn; [done|lia| |].
    + split; [done|intros Hx; by destruct (Hfree fd)].
    + symmetry. apply bool_decide_eq_false. intros Hx. destruct cur as [[c' r]|]; [|done]. injection Hx as ->.
      destruct (Hcur c r eq_refl) as (x & Hx & _). congruence.
  - intros c' r Hc'. destruct (Hcur c' r Hc') as (x & Hx & Hr). exists x. split; [by apply Hother|done].
  - intros c' r Hin. destruct (Hrd c' r Hin) as (K1 & K2 & K3 & x & Hx & K4). split_and!; [done..|]. exists x.
    split; [by apply Hother|done].
  - intros c' _ x Hx. exists x. split; [by apply Hother|done].
Qed.

Lemma destroy_act_ok cur c s : core cur s → legal s (Destroy c) → ensures (exec (Destroy c) s) (λ s',
  performed cur (Destroy c) s s' ∧ channels_ (poller_ s') = channels_ (poller_ s)).
Proof using Type.
  intros [Hp Hw Hm Hcur Hrd] (ch & Hc & Hnr & Hnh). cbn [exec]. rewrite Hc. cbn [deref obind].
  destruct (Hm c ch Hc) as [_ _ Hadd Hhd]. unfold destroyChannel. rewrite Hnh.
  assert (addedToLoop_ ch = false) as -> by (destruct (addedToLoop_ ch); [by destruct Hnr; apply Hadd|done]).
  pass_asserts. cbn [ensures].
  assert (∀ fd', channels_ (poller_ s) !! fd' ≠ Some c) as Hfree.
  { intros fd' Hx. destruct (pinv_channel _ _ _ _ Hp Hx) as (x & Hx' & Hf). congruence. }
  assert (∀ c' x, c' ≠ c → mem s !! c' = Some x → delete c (mem s) !! c' = Some x) as Hother.
  { intros c' x Hne Hx. by rewrite lookup_delete_ne. }
  split; [|done]. split; [split|split; [by (split; [split|])|split; [cbn; by rewrite app_nil_r|]]]; cbn.
  - by apply pinv_destroy.
  - intros fd' m. rewrite Hw. apply and_iff_compat_l. split; intros (c' & x & H1 & H2 & H3); exists c', x.
    + split_and!; [done| |done]. apply Hother; [|done]. intros ->. by destruct (Hfree fd').
    + by apply lookup_delete_Some in H2 as [_ H2].
  - intros c' x [_ Hx]%lookup_delete_Some. by apply Hm.
  - intros c' r Hc'. destruct (Hcur c' r Hc') as (x & Hx & Hr). exists x. split; [|done]. apply Hother; [|done].
    intros ->. rewrite Hc' in Hhd. cbn in Hhd. rewrite bool_decide_true in Hhd by done. congruence.
  - intros c' r Hin. destruct (Hrd c' r Hin) as (K1 & K2 & K3 & x & Hx & Hr & Hf). split_and!; [done..|]. exists x.
    split; [|done]. apply Hother; [|done]. intros ->. by destruct (Hfree (fd_ x)).
  - intros c' Hne x Hx. exists x. split; [|done]. apply Hother; [congruence|done].
Qed.

Lemma tie_act_ok cur c s : core cur s → legal s (Tie c) → ensures (exec (Tie c) s) (performed cur (Tie c) s).
Proof using Type.
  intros [Hp Hw Hm Hcur Hrd] [ch Hc]. cbn [exec]. rewrite Hc. cbn [deref obind ensures].
  assert (∀ c' x, mem s !! c' = Some x → ∃ x', <[c := tie ch]> (mem s) !! c' = Some x' ∧
    fd_ x' = fd_ x ∧ events_ x' = events_ x ∧ revents_ x' = revents_ x) as Hall.
  { intros c' x Hx. destruct (decide (c' = c)) as [->|Hne]; [|exists x; by rewrite lookup_insert_ne].
    exists (tie ch). rewrite lookup_insert_eq. replace x with ch by congruence. done. }
  split; [split|split; [by (split; [split|])|split; [cbn; by rewrite app_nil_r|]]]; cbn.
  - eapply pinv_owners; [exact Hp|]. by eapply owners_wrote_insert.
  - intros fd' m. rewrite Hw. apply and_iff_compat_l. split; intros (c' & x & H1 & H2 & H3).
    + destruct (Hall c' x H2) as (x' & K1 & K2 & K3 & _). exists c', x'. split_and!; congruence.
    + apply lookup_insert_Some in H2 as [[<- <-]|[_ H2]]; [exists c, ch|exists c', x]; done.
  - intros c' x [[<- <-]|[_ Hx]]%lookup_insert_Some; [|by apply Hm]. destruct (Hm c ch Hc). by split.
  - intros c' r Hc'. destruct (Hcur c' r Hc') as (x & Hx & Hr). destruct (Hall c' x Hx) as (x' & K1 & K2 & K3 & K4).
    exists x'. split; congruence.
  - intros c' r Hin. destruct (Hrd c' r Hin) as (K1 & K2 & K3 & x & Hx & Hr & Hf). split_and!; [done..|].
    destruct (Hall c' x Hx) as (x' & J1 & J2 & J3 & J4). exists x'. split_and!; congruence.
  - intros c' _ x Hx. destruct (Hall c' x Hx) as (x' & J1 & J2 & J3 & J4). exists x'. split_and!; [done..|]. done.
Qed.

(** The fields that [queueInLoop], [quit], [wakeup] and [handleRead] leave
    alone. *)
Definition same_spot (l l' : EventLoop.EventLoop) : Prop :=
  wakeupChannel_ l' = wakeupChannel_ l ∧ threadId_ l' = threadId_ l ∧ position_ l' = position_ l ∧
  EventLoop.eventHandling_ l' = EventLoop.eventHandling_ l ∧ activeChannels_ l' = activeChannels_ l ∧
  currentActiveChannel_ l' = currentActiveChannel_ l.

Lemma wakeup_spot l : same_spot l (wakeup l).
Proof using Type. unfold wakeup. by destruct (_ <=? _). Qed.
Lemma queue_spot t f l : same_spot l (queueInLoop t f l).
Proof using Type.
  unfold queueInLoop. destruct (must_wakeup _ _); [|done]. destruct (isInLoopThread _ _); [|done].
  exact (wakeup_spot (queue_push f l)).
Qed.
Lemma quit_spot t l : same_spot l (quit t l).
Proof using Type. unfold quit. by destruct (isInLoopThread _ _). Qed.

Lemma core_loop cur l s : core cur s → same_spot (loop_ s) l → core cur (with_loop l s).
Proof using Type.
  intros [Hp Hw Hm Hcur Hrd] (S1 & S2 & S3 & S4 & S5 & S6). split; try done. cbn. intros c r Hin.
  rewrite S4, S5, S6. by apply Hrd.
Qed.
Lemma frame_loop l s : same_spot (loop_ s) l → frame s (with_loop l s).
Proof using Type. intros (S1 & S2 & S3 & S4 & S5 & S6). by split. Qed.

Lemma kept_loop c l s : kept c s (with_loop l s).
Proof using Type. intros ch Hc. by exists ch. Qed.

Lemma reactor_act_ok cur a s : core cur s → legal s a → ensures (exec a s) (performed cur a s).
Proof using Type.
  intros Hco Hl. destruct a as [c fd|c u|c|c|c|f| |c k|].
  - by apply new_act_ok.
  - eapply ensures_mono; [by apply change_ok|]. by intros s' [? _].
  - eapply ensures_mono; [by apply remove_act_ok|]. by intros s' [? _].
  - eapply ensures_mono; [by apply destroy_act_ok|]. by intros s' [? _].
  - by apply tie_act_ok.
  - cbn [exec ensures]. pose proof (queue_spot (tid s) f (loop_ s)) as Hs.
    split; [by apply core_loop|]. split; [split; [by apply frame_loop|done]|]. split; [cbn; by rewrite app_nil_r|].
    intros c _. apply kept_loop.
  - cbn [exec ensures]. pose proof (quit_spot (tid s) (loop_ s)) as Hs.
    split; [by apply core_loop|]. split; [split; [by apply frame_loop|done]|]. split; [cbn; by rewrite app_nil_r|].
    intros c _. apply kept_loop.
  - cbn [exec ensures]. split; [by destruct Hco|]. split; [by (split; [split|])|]. split; [done|]. intros c' _ ch Hc. by exists ch.
  - done.
Qed.

(** *** Sequences of operations *)

(** What holds after legal operations of the user. *)
Record worked (cur : option (Z * Z)) (s s' : reactor) : Prop := mkWorked {
  wk_core : core cur s';
  wk_frame : frame s s';
  wk_kept : ∀ c, own s c = true → kept c s s';
  wk_loop : EventLoop.reachable (loop_ s) → EventLoop.reachable (loop_ s')
}.

Lemma own_frame s s' c : frame s s' → own s' c = own s c.
Proof using Type. intros []. unfold own. congruence. Qed.

Lemma worked_refl cur s : core cur s → worked cur s s.
Proof using Type. intros Hc. split; [done|apply frame_refl|intros; apply kept_refl|done]. Qed.
Lemma worked_trans cur s1 s2 s3 : worked cur s1 s2 → worked cur s2 s3 → worked cur s1 s3.
Proof using Type.
  intros [A1 A2 A3 A4] [B1 B2 B3 B4]. split; [done|by eapply frame_trans| |tauto].
  intros c Hc. eapply kept_trans; [by apply A3|]. apply B3. by rewrite (own_frame s1).
Qed.

Lemma step_loop_after a s : legal s a → EventLoop.reachable (loop_ s) → EventLoop.reachable (loop_after a s).
Proof using Type.
  intros Hl Hr. destruct a; cbn; try done.
  - eapply EventLoop.reach_step; [done|]. by apply EventLoop.step_user_queue.
  - eapply EventLoop.reach_step; [done|]. by apply EventLoop.step_user_quit.
Qed.

Lemma act_works cur a s :
  core cur s → legal s a → (∀ c, touched a = Some c → own s c = false) →
  ensures (exec a s) (λ s', worked cur s s' ∧ calls_ s' = calls_ s ++ (match a with Enter c k => [(c, k)] | _ => [] end)).
Proof using Type.
  intros Hc Hl Ho. eapply ensures_mono; [by apply reactor_act_ok|]. intros s' (H1 & [H2 H3] & H4 & H5). split; [|done].
  split; [done|done| |].
  - intros c Hown. apply H5. intros Ht. specialize (Ho c Ht). congruence.
  - rewrite H3. by apply step_loop_after.
Qed.

Definition user_act (a : act) : Prop := match a with Enter _ _ | WakeupRead => False | _ => True end.

Definition calls_in (l : list act) : list (Z * kind) := l ≫= λ a, match a with Enter c k => [(c, k)] | _ => [] end.

Lemma run_works cur l : ∀ s, core cur s → legal_run l s →
  ensures (foldM exec l s) (λ s', worked cur s s' ∧ calls_ s' = calls_ s ++ calls_in l).
Proof using Type.
  induction l as [|a l IH]; intros s Hc Hl; cbn [foldM].
  - split; [by apply worked_refl|by rewrite app_nil_r].
  - destruct Hl as (Ha & Ho & Hl). destruct (ensures_ok _ _ (act_works cur a s Hc Ha Ho)) as (s1 & E & Hw & Hcalls).
    rewrite E. cbn [obind]. eapply ensures_mono; [apply IH; [apply (wk_core _ _ _ Hw)|by apply Hl]|].
    intros s' [Hw' Hcalls']. split; [by eapply worked_trans|]. rewrite Hcalls', Hcalls, <- app_assoc. done.
Qed.

Lemma legal_run_app l1 l2 s : legal_run (l1 ++ l2) s ↔ legal_run l1 s ∧ ∀ s', foldM exec l1 s = Ok s' → legal_run l2 s'.
Proof using Type.
  revert s. induction l1 as [|a l1 IH]; intros s; cbn [app legal_run foldM].
  - split; [intros Hl; split; [done|by intros s' [= <-]]|intros [_ Hl]; by apply Hl].
  - setoid_rewrite IH. destruct (exec a s) as [s1|] eqn:E; cbn [obind];
      [|split; [intros (? & ? & _)|intros ((? & ? & _) & _)]; split_and!; done].
    split.
    + intros (Ha & Ho & Hl). specialize (Hl s1 eq_refl) as [H1 H2]. split_and!; [done|done| |done]. by intros ? [= <-].
    + intros ((Ha & Ho & H1) & H2). split_and!; [done|done|]. intros s' [= <-]. auto.
Qed.

(** ** The whole state *)

(** The callbacks a channel has: the loop's own two have the read callback. *)
Definition listens (inner : bool) (k : kind) : bool := if inner then match k with KRead => true | _ => false end else true.
Definition wanted (inner : bool) (r : Z) : list kind := filter (λ k, listens inner k) (due r).
Definition expected (s : reactor) (x : Z * Z) : list (Z * kind) := pair (fst x) <$> wanted (own s (fst x)) (snd x).

Record rinv (s : reactor) : Prop := mkRinv {
  ri_core : core None s;
  ri_loop : EventLoop.reachable (loop_ s);
  ri_own : ∀ c, own s c = true → ∃ ch, mem s !! c = Some ch ∧ channels_ (poller_ s) !! fd_ ch = Some c ∧ events_ ch = kReadEvent;
  ri_two : wakeupChannel_ (loop_ s) ≠ timerChannel_ s;
  ri_position : match position_ (loop_ s) with Handling l => l = (ready_ s).*1 | _ => ready_ s = [] end;
  ri_nodup : NoDup (ready_ s).*1;
  ri_wake : ∀ r, (wakeupChannel_ (loop_ s), r) ∈ ready_ s → bit r POLLIN = true;
  ri_calls : ∃ handled, reported_ s = handled ++ ready_ s ∧ calls_ s = handled ≫= expected s
}.

Lemma worked_own cur s s' c :
  worked cur s s' →
  (∀ c, own s c = true → ∃ ch, mem s !! c = Some ch ∧ channels_ (poller_ s) !! fd_ ch = Some c ∧ events_ ch = kReadEvent) →
  own s' c = true → ∃ ch, mem s' !! c = Some ch ∧ channels_ (poller_ s') !! fd_ ch = Some c ∧ events_ ch = kReadEvent.
Proof using Type.
  intros Hw Ho Hown. rewrite (own_frame s s' c (wk_frame _ _ _ Hw)) in Hown. destruct (Ho c Hown) as (ch & H1 & H2 & H3).
  destruct (wk_kept _ _ _ Hw c Hown ch H1) as (ch' & K1 & K2 & K3 & _ & K4). exists ch'. rewrite K2, K3. auto.
Qed.

Lemma expected_frame s s' x : frame s s' → expected s' x = expected s x.
Proof using Type. intros Hf. unfold expected. by rewrite (own_frame s s' _ Hf). Qed.

(** Work of the user while nothing is being dispatched. *)
Lemma rinv_worked s s' : rinv s → worked None s s' → calls_ s' = calls_ s → rinv s'.
Proof using Type.
  intros [R1 R2 R3 R4 R5 R6 R7 (handled & R8 & R9)] Hw Hcalls. pose proof (wk_frame _ _ _ Hw) as Hf. pose proof Hf as [].
  split.
  - by destruct Hw.
  - by apply (wk_loop _ _ _ Hw).
  - intros c. by eapply worked_own.
  - congruence.
  - by rewrite fr_position0, fr_ready0.
  - by rewrite fr_ready0.
  - by rewrite fr_wakeup0, fr_ready0.
  - exists handled. split; [congruence|]. rewrite Hcalls, R9. apply list_bind_ext; [|done].
    intros x. symmetry. by apply expected_frame.
Qed.

(** *** The dispatch *)

(** Between [eventHandling_ = true] and [eventHandling_ = false]. *)
Lemma core_handling cur cur' c ch b s :
  core cur s → mem s !! c = Some ch → b = bool_decide (fst <$> cur' = Some c) →
  (∀ c', c' ≠ c → fst <$> cur' = Some c' ↔ fst <$> cur = Some c') →
  (∀ c' r, cur' = Some (c', r) → ∃ x, mem s !! c' = Some x ∧ revents_ x = r) →
  core cur' (put_chan c (set_eventHandling ch b) s).
Proof using Type.
  intros [Hp Hw Hm Hcur Hrd] Hc Hb Hsame Hcur'.
  assert (∀ c' x, mem s !! c' = Some x → ∃ x', <[c := set_eventHandling ch b]> (mem s) !! c' = Some x' ∧
    fd_ x' = fd_ x ∧ events_ x' = events_ x ∧ revents_ x' = revents_ x) as Hall.
  { intros c' x Hx. destruct (decide (c' = c)) as [->|Hne]; [|exists x; by rewrite lookup_insert_ne].
    exists (set_eventHandling ch b). rewrite lookup_insert_eq. replace x with ch by congruence. done. }
  split; cbn.
  - eapply pinv_owners; [exact Hp|]. by eapply owners_wrote_insert.
  - intros fd' m. rewrite Hw. apply and_iff_compat_l. split; intros (c' & x & H1 & H2 & H3).
    + destruct (Hall c' x H2) as (x' & K1 & K2 & K3 & _). exists c', x'. split_and!; congruence.
    + apply lookup_insert_Some in H2 as [[<- <-]|[_ H2]]; [exists c, ch|exists c', x]; done.
  - intros c' x [[<- <-]|[Hne Hx]]%lookup_insert_Some.
    + destruct (Hm c ch Hc). by split.
    + destruct (Hm c' x Hx) as [K1 K2 K3 K4]. split; [done..|]. rewrite K4. apply bool_decide_ext.
      symmetry. by apply Hsame.
  - intros c' r Hc'. destruct (Hcur' c' r Hc') as (x & Hx & Hr). destruct (Hall c' x Hx) as (x' & K1 & K2 & K3 & K4).
    exists x'. split; congruence.
  - intros c' r Hin. destruct (Hrd c' r Hin) as (K1 & K2 & K3 & x & Hx & Hr & Hf). split_and!; [done..|].
    destruct (Hall c' x Hx) as (x' & J1 & J2 & J3 & J4). exists x'. split_and!; congruence.
Qed.

Lemma handling_kept c' c ch b s : mem s !! c = Some ch → kept c' s (put_chan c (set_eventHandling ch b) s).
Proof using Type.
  intros Hc x Hx. destruct (decide (c' = c)) as [->|Hne]; [|exists x; cbn; by rewrite lookup_insert_ne].
  exists (set_eventHandling ch b). cbn. rewrite lookup_insert_eq. replace x with ch by congruence. done.
Qed.

Lemma core_taken c r rest s :
  core None s → ready_ s = (c, r) :: rest → NoDup (ready_ s).*1 →
  core None (taken c rest.*1 s).
Proof using Type.
  intros [Hp Hw Hm Hcur Hrd] Hr Hnd. split; try done. cbn. rewrite Hr in *. cbn [tail]. intros c' r' Hin.
  destruct (Hrd c' r') as (K1 & K2 & K3 & K4); [by right|]. split_and!; [done|done| |done].
  intros [= ->]. apply NoDup_cons in Hnd as [Hnin _]. apply Hnin, list_elem_of_fmap. by exists (c', r').
Qed.

(** A dispatch is the sequence of the bodies of its callbacks. *)
Lemma invoke_body w c inner ops t k s :
  invoke (callbacks_of w c inner ops) t k s = if listens inner k then foldM exec (body w c ops k) s else Ok s.
Proof using Type. by destruct k, inner. Qed.

Lemma invoke_all w c inner ops t l : ∀ s,
  foldM (invoke (callbacks_of w c inner ops) t) l s = foldM exec (filter (λ k, listens inner k) l ≫= body w c ops) s.
Proof using Type.
  induction l as [|k l IH]; intros s; [done|]. cbn [foldM]. rewrite invoke_body, filter_cons.
  destruct (listens inner k); cbn [decide].
  - rewrite decide_True by done. cbn [mbind list_bind]. change (@list_bind _ _ (body w c ops)) with (mbind (M := list) (body w c ops)).
    rewrite foldM_app. destruct (foldM exec (body w c ops k) s); cbn [obind]; [apply IH|done].
  - rewrite decide_False by auto. cbn [obind]. apply IH.
Qed.

Lemma user_calls w c inner ops r :
  c ≠ w → (∀ k, Forall user_act (ops k)) → calls_in (wanted inner r ≫= body w c ops) = pair c <$> wanted inner r.
Proof using Type.
  intros Hcw Hu. induction (wanted inner r) as [|k l IH]; [done|].
  cbn [fmap list_fmap]. rewrite bind_cons. unfold calls_in in *. rewrite bind_app, IH. unfold body.
  rewrite (proj2 (Z.eqb_neq _ _) Hcw). rewrite bind_cons. cbn [app]. f_equal.
  replace (ops k ≫= _) with ([] : list (Z * kind)); [done|]. specialize (Hu k). induction Hu as [|a l' Ha _ IH']; [done|].
  rewrite bind_cons, <- IH'. by destruct a.
Qed.

Lemma wakeup_wanted r : bit r POLLIN = true → wanted true r = [KRead].
Proof using Type.
  intros Hr. unfold wanted, due. rewrite Hr. cbn [orb negb]. rewrite andb_false_r.
  by destruct (bit r POLLERR || bit r POLLNVAL), (bit r POLLOUT).
Qed.

(** The callbacks of the dispatch of [c] are called in this state. *)
Definition begun (c : Z) (rest : list Z) (s : reactor) : reactor :=
  let s := taken c rest s in put_chan c (set_eventHandling (chan c s) true) s.

(** What the user's callbacks of [c] do is legal. *)
Definition legal_dispatch (c : Z) (rest : list Z) (ops : kind → list act) (s : reactor) : Prop :=
  c = wakeupChannel_ (loop_ s) ∨
  ((∀ k, Forall user_act (ops k)) ∧
   legal_run (wanted (own s c) (revents_ (chan c s)) ≫= body (wakeupChannel_ (loop_ s)) c ops) (begun c rest s)).

(** The callbacks of a dispatch have been called, from [b] to [s]. *)
Record called (c r : Z) (b s : reactor) : Prop := mkCalled {
  ca_core : core (Some (c, r)) s;
  ca_frame : frame b s;
  ca_kept : ∀ c', own b c' = true → kept c' b s;
  ca_loop : EventLoop.reachable (loop_ s);
  ca_calls : calls_ s = calls_ b ++ expected b (c, r)
}.

Section Dispatch.
Context (c r : Z) (rest : list (Z * Z)) (s : reactor).
Context (Hi : rinv s) (Hpos : position_ (loop_ s) = Handling (c :: rest.*1)) (Hr : ready_ s = (c, r) :: rest).

Lemma dispatched_channel : ∃ ch, mem s !! c = Some ch ∧ revents_ ch = r ∧ channels_ (poller_ s) !! fd_ ch = Some c ∧
  Channel.eventHandling_ ch = false.
Proof using Hi Hr.
  destruct Hi as [[_ _ Hm _ Hrd] _ _ _ _ _ _ _]. destruct (Hrd c r) as (_ & _ & _ & ch & H1 & H2 & H3); [rewrite Hr; by left|].
  exists ch. split_and!; [done..|]. by destruct (Hm c ch H1).
Qed.

Lemma begun_core : core (Some (c, r)) (begun c rest.*1 s).
Proof using Hi Hr.
  destruct dispatched_channel as (ch & Hc & Hrev & _). unfold begun, chan. cbn. rewrite Hc. cbn.
  apply (core_handling None _ c ch true).
  - apply (core_taken c r); [apply Hi|done|apply Hi].
  - done.
  - by rewrite bool_decide_true.
  - intros c' Hne. cbn. split; congruence.
  - intros c' r' [= <- <-]. by exists ch.
Qed.

Lemma begun_loop : c ≠ wakeupChannel_ (loop_ s) → EventLoop.reachable (loop_ (begun c rest.*1 s)).
Proof using Hi Hpos.
  intros Hne. eapply EventLoop.reach_step; [apply Hi|]. pose proof (EventLoop.step_handle (loop_ s) c rest.*1 Hpos) as Hs.
  unfold loop_handle in Hs. rewrite (proj2 (Z.eqb_neq _ _) Hne) in Hs. exact Hs.
Qed.

Lemma wakeup_called ops t :
  c = wakeupChannel_ (loop_ s) →
  ∃ s', foldM (invoke (callbacks_of (wakeupChannel_ (loop_ s)) c (own s c) ops) t) (due r) (begun c rest.*1 s) = Ok s' ∧
        called c r (begun c rest.*1 s) s'.
Proof using Hi Hpos Hr.
  intros Hcw. assert (bit r POLLIN = true) as Hin by (apply (ri_wake s Hi); rewrite Hr, <- Hcw; by left).
  assert (own s c = true) as Hown by (unfold own; by rewrite Hcw, Z.eqb_refl).
  rewrite invoke_all, Hown. pose proof (wakeup_wanted r Hin) as Hw. unfold wanted in Hw. rewrite Hw. clear Hw.
  rewrite bind_singleton. unfold body. rewrite (proj2 (Z.eqb_eq _ _) Hcw). cbn [foldM exec obind].
  eexists. split; [done|]. set (b := begun c rest.*1 s).
  assert (core (Some (c, r)) (entered c KRead b)) as Hce by (destruct begun_core; by split).
  assert (same_spot (loop_ (entered c KRead b)) (EventLoop.handleRead (loop_ (entered c KRead b)))) as Hsp by done.
  split.
  - by apply core_loop.
  - by split.
  - intros c' _ x Hx. by exists x.
  - eapply EventLoop.reach_step; [apply Hi|]. pose proof (EventLoop.step_handle (loop_ s) c rest.*1 Hpos) as Hs.
    unfold loop_handle in Hs. rewrite (proj2 (Z.eqb_eq _ _) Hcw) in Hs. exact Hs.
  - change (calls_ b ++ [(c, KRead)] = calls_ b ++ expected s (c, r)). unfold expected. cbn [fst snd].
    by rewrite Hown, (wakeup_wanted r Hin).
Qed.

Lemma user_called ops t :
  c ≠ wakeupChannel_ (loop_ s) → legal_dispatch c rest.*1 ops s →
  ∃ s', foldM (invoke (callbacks_of (wakeupChannel_ (loop_ s)) c (own s c) ops) t) (due r) (begun c rest.*1 s) = Ok s' ∧
        called c r (begun c rest.*1 s) s'.
Proof using Hi Hpos Hr.
  intros Hne [Hw|[Hu Hl]]; [done|]. destruct dispatched_channel as (ch & Hc & Hrev & _).
  rewrite (chan_at c s ch Hc), Hrev in Hl. rewrite invoke_all. fold (wanted (own s c) r).
  destruct (ensures_ok _ _ (run_works (Some (c, r)) _ _ begun_core Hl)) as (s' & E & [W1 W2 W3 W4] & Hcalls).
  exists s'. split; [exact E|]. split; [done|done|done| |].
  - apply W4. by apply begun_loop.
  - rewrite Hcalls, user_calls by done. done.
Qed.

(** The revents stay what poll has set while the callbacks run. *)
Lemma dispatch_calls ops t :
  legal_dispatch c rest.*1 ops s →
  dispatch c rest.*1 ops t s =
  let! s' := foldM (invoke (callbacks_of (wakeupChannel_ (loop_ s)) c (own s c) ops) t) (due r) (begun c rest.*1 s) in
  Ok (put_chan c (set_eventHandling (chan c s') false) s').
Proof using Hi Hpos Hr.
  intros Hl. destruct dispatched_channel as (ch & Hc & Hrev & _). unfold dispatch. cbn [mem taken with_ready with_loop].
  rewrite Hc. cbn [deref obind]. set (cbs := callbacks_of _ c _ ops).
  assert (∀ (I : list kind → reactor → Prop),
    (∀ k l s1 s2, I (k :: l) s1 → invoke cbs t k s1 = Ok s2 → I l s2) →
    (∀ l s1, I l s1 → revents_ (chan c s1) = r) → I (due r) (begun c rest.*1 s) →
    Channel.handleEvent (chan c) (put_chan c) cbs true t (taken c rest.*1 s) =
    let! s' := foldM (invoke cbs t) (due r) (begun c rest.*1 s) in
    Ok (put_chan c (set_eventHandling (chan c s') false) s')) as Hguard.
  { intros I H1 H2 H3. pose proof (guard_calls (chan c) (put_chan c) cbs t r I (taken c rest.*1 s) H1 H2 H3) as Hg.
    unfold Channel.handleEvent. destruct (tied_ _); exact Hg. }
  destruct (decide (c = wakeupChannel_ (loop_ s))) as [Hcw|Hne].
  - apply (Hguard (λ _ s1, revents_ (chan c s1) = r)).
    + intros k l s1 s2 H1. unfold cbs. rewrite invoke_body. destruct (listens _ k); [|congruence].
      unfold body. cbn [loop_ taken with_ready with_loop wakeupChannel_ set_position set_active]. rewrite (proj2 (Z.eqb_eq _ _) Hcw).
      cbn [foldM exec obind]. intros [= <-]. exact H1.
    + done.
    + unfold chan. cbn. rewrite lookup_insert_eq. cbn. unfold chan. cbn. by rewrite Hc.
  - destruct Hl as [?|[Hu Hl]]; [done|]. rewrite (chan_at c s ch Hc), Hrev in Hl.
    apply (Hguard (λ l s1, core (Some (c, r)) s1 ∧
      legal_run (filter (λ k, listens (own s c) k) l ≫= body (wakeupChannel_ (loop_ s)) c ops) s1)).
    + intros k l s1 s2 [H1 H2]. unfold cbs. rewrite invoke_body. rewrite filter_cons in H2.
      change (own (taken c rest.*1 s) c) with (own s c). destruct (listens (own s c) k).
      * rewrite decide_True, bind_cons in H2 by done. apply legal_run_app in H2 as [H2 H3]. intros E. split; [|by apply H3].
        pose proof (run_works _ _ _ H1 H2) as Hx.
        change (foldM exec (body (wakeupChannel_ (loop_ s)) c ops k) s1 = Ok s2) in E. rewrite E in Hx. apply Hx.
      * rewrite decide_False in H2 by auto. intros [= <-]. done.
    + intros l s1 [[_ _ _ Hcur _] _]. destruct (Hcur c r eq_refl) as (x & Hx & Hxr). by rewrite (chan_at c s1 x Hx).
    + split; [exact begun_core|exact Hl].
Qed.

Lemma dispatch_ok ops t :
  legal_dispatch c rest.*1 ops s →
  ensures (dispatch c rest.*1 ops t s) (λ s', rinv s' ∧ ready_ s' = rest ∧ reported_ s' = reported_ s ∧
    position_ (loop_ s') = Handling rest.*1 ∧ calls_ s' = calls_ s ++ expected s (c, r)).
Proof using Hi Hpos Hr.
  intros Hl. rewrite (dispatch_calls ops t Hl).
  assert (∃ s', foldM (invoke (callbacks_of (wakeupChannel_ (loop_ s)) c (own s c) ops) t) (due r) (begun c rest.*1 s) = Ok s' ∧
        called c r (begun c rest.*1 s) s') as (s' & E & [C1 C2 C3 C4 C5]).
  { destruct (decide (c = wakeupChannel_ (loop_ s))); [by apply wakeup_called|by apply user_called]. }
  rewrite E. cbn [obind ensures]. clear E. pose proof C2 as [].
  destruct (co_cur _ _ C1 c r eq_refl) as (x & Hx & _). rewrite (chan_at c s' x Hx).
  cbn in fr_timer0, fr_ready0, fr_reported0, fr_wakeup0, fr_position0, C5. rewrite Hr in fr_ready0. cbn in fr_ready0.
  set (s2 := put_chan c (set_eventHandling x false) s').
  assert (∀ y, expected s2 y = expected s y) as Hexp.
  { intros y. unfold expected, own. cbn. by rewrite fr_wakeup0, fr_timer0. }
  destruct dispatched_channel as (ch & Hc & _).
  destruct Hi as [R1 R2 R3 R4 R5 R6 R7 (handled & R8 & R9)]. rewrite Hr in *.
  split; [split|split_and!; [done|done|done|]]; cbn.
  - apply (core_handling (Some (c, r)) None); [done|done|done| |done]. intros c' Hne. cbn. split; congruence.
  - exact C4.
  - intros c' Hown. assert (own s c' = true) as Hown' by (revert Hown; unfold own; cbn; by rewrite fr_wakeup0, fr_timer0).
    destruct (R3 c' Hown') as (y & Y1 & Y2 & Y3).
    assert (kept c' s s2) as Hk.
    { eapply kept_trans; [|by apply handling_kept]. eapply kept_trans; [|by apply C3].
      unfold begun, chan. cbn. rewrite Hc. cbn. intros z Hz. destruct (decide (c' = c)) as [->|Hne].
      - exists (set_eventHandling ch true). cbn. rewrite lookup_insert_eq. replace z with ch by congruence. done.
      - exists z. cbn. by rewrite lookup_insert_ne. }
    destruct (Hk y Y1) as (y' & K1 & K2 & K3 & _ & K4). exists y'. rewrite K2, K3. auto.
  - congruence.
  - by rewrite fr_position0, fr_ready0.
  - rewrite fr_ready0. by apply NoDup_cons in R6 as [_ ?].
  - rewrite fr_ready0, fr_wakeup0. intros r' Hin. apply R7. by right.
  - exists (handled ++ [(c, r)]). rewrite fr_reported0, fr_ready0, R8, <- app_assoc. split; [done|].
    rewrite C5, bind_app, bind_singleton, R9. f_equal; [|by rewrite Hexp].
    apply list_bind_ext; [|done]. intros y. by rewrite Hexp.
  - exact C5.
Qed.
End Dispatch.

(** *** The other steps of the loop *)

Lemma rinv_loop l s :
  rinv s → EventLoop.reachable l → wakeupChannel_ l = wakeupChannel_ (loop_ s) →
  same_spot (loop_ s) l ∨ (ready_ s = [] ∧ ∀ a, position_ l = Handling a → a = []) → rinv (with_loop l s).
Proof using Type.
  intros [R1 R2 R3 R4 R5 R6 R7 R8] Hl Hw Hor.
  assert (∀ c, own (with_loop l s) c = own s c) as Hown by (intros c; unfold own; cbn; by rewrite Hw).
  split; cbn.
  - destruct Hor as [Hs|[Hr _]]; [by apply core_loop|]. destruct R1 as [Hp Hws Hm Hcur _]. split; try done. cbn. rewrite Hr.
    by intros c r Hx%elem_of_nil.
  - done.
  - intros c. rewrite Hown. apply R3.
  - by rewrite Hw.
  - destruct Hor as [(_ & _ & -> & _)|[Hr Ha]]; [done|]. rewrite Hr in *. destruct (position_ l) as [| | |a|]; [done..| |done].
    by rewrite (Ha a eq_refl).
  - done.
  - by rewrite Hw.
  - destruct R8 as (handled & R8 & R9). exists handled. split; [done|]. rewrite R9. apply list_bind_ext; [|done].
    intros x. unfold expected. by rewrite Hown.
Qed.

(** The kernel reports every descriptor once, and the eventfd exactly when its
    counter is not zero. *)
Definition documented (r : reply) (ready : list (Z * Z)) (s : reactor) : Prop :=
  ready_reply (poller_ s) r ready ∧ NoDup ready.*1 ∧
  ∀ ch, mem s !! wakeupChannel_ (loop_ s) = Some ch →
    (fd_ ch ∈ ready.*1 ↔ 0 < eventfd_ (loop_ s)) ∧ ∀ x, (fd_ ch, x) ∈ ready → bit x POLLIN = true.

Lemma set_ready_none chs ready c : ∀ h, h !! c = None → set_ready chs ready h !! c = None.
Proof using Type.
  induction ready as [|[fd r] l IH]; intros h Hc; cbn; [done|]. apply IH.
  destruct (chs !! fd) as [c'|]; [|done]. destruct (h !! c') as [ch|] eqn:E; [|done].
  rewrite lookup_insert_ne; [done|]. congruence.
Qed.

Lemma set_ready_back chs ready h c ch' :
  set_ready chs ready h !! c = Some ch' → ∃ ch r, h !! c = Some ch ∧ ch' = setRevents ch r.
Proof using Type.
  intros Hc. destruct (h !! c) as [ch|] eqn:E; [|by rewrite set_ready_none in Hc].
  destruct (set_ready_lookup chs ready h c ch E) as [r Hr]. exists ch, r. split; congruence.
Qed.

(** The active channels with their revents. *)
Lemma zipped (chs : gmap Z Z) (active : list Z) (ready : list (Z * Z)) (c x : Z) :
  Forall2 (λ c x, chs !! fst x = Some c) active ready → (c, x) ∈ zip active ready.*2 →
  ∃ fd : Z, (fd, x) ∈ ready ∧ chs !! fd = Some c.
Proof using Type.
  induction 1 as [|c' [fd y] active ready Hx _ IH]; cbn; [by intros ?%elem_of_nil|].
  intros [[= -> ->]|Hin]%elem_of_cons; [exists fd; split; [by left|done]|].
  destruct (IH Hin) as (fd' & H1 & H2). exists fd'. split; [by right|done].
Qed.

Lemma active_nodup h (p : P) active (ready : list (Z * Z)) :
  pinv h p → Forall2 (λ c x, channels_ p !! fst x = Some c) active ready → NoDup ready.*1 → NoDup active.
Proof using Type.
  intros Hp. induction 1 as [|c [fd x] active ready Hx HF IH]; [constructor|]. cbn. intros [Hn Hnd]%NoDup_cons.
  constructor; [|by apply IH]. intros (i & Hi)%list_elem_of_lookup.
  destruct (Forall2_lookup_l _ _ _ _ _ HF Hi) as ([fd' y] & Hj & Hy). cbn in Hx, Hy.
  destruct (pinv_channel _ _ _ _ Hp Hx) as (ch & H1 & H2). pose proof (registered_at _ _ _ _ _ Hp Hy H1).
  apply Hn. apply list_elem_of_fmap. exists (fd', y). split; [cbn; congruence|]. by eapply list_elem_of_lookup_2.
Qed.

Lemma polled_ok r ready s :
  rinv s → position_ (loop_ s) = InPoll → documented r ready s →
  ensures (polled r s) (λ '(s', active), rinv (reports (zip active ready.*2) s')).
Proof using Type.
  intros [[Hp Hw Hm Hcur Hrd] R2 R3 R4 R5 R6 R7 (handled & R8 & R9)] Hpos (Hrep & Hnd & Hwake). rewrite Hpos in R5.
  unfold polled. eapply ensures_bind; [by apply poll_ok|].
  intros [active [h' p']] (Hp' & -> & Hch & HF & Hw'). cbn [ensures].
  pose proof (active_nodup _ _ _ _ Hp HF Hnd) as Hnda.
  assert ((zip active ready.*2).*1 = active) as Hzip.
  { apply fst_zip. rewrite length_fmap. by rewrite (Forall2_length _ _ _ HF). }
  assert (∀ fd1 fd2 c, channels_ (poller_ s) !! fd1 = Some c → channels_ (poller_ s) !! fd2 = Some c → fd1 = fd2) as Hinj.
  { intros fd1 fd2 c H1 H2. destruct (pinv_channel _ _ _ _ Hp H1) as (ch & K1 & K2).
    pose proof (registered_at _ _ _ _ _ Hp H2 K1). congruence. }
  assert (∀ c x, (c, x) ∈ zip active ready.*2 → ∃ ch, set_ready (channels_ (poller_ s)) ready (mem s) !! c = Some ch ∧
    revents_ ch = x ∧ channels_ p' !! fd_ ch = Some c ∧ (fd_ ch, x) ∈ ready ∧ ∃ ch0, mem s !! c = Some ch0 ∧ fd_ ch0 = fd_ ch) as Hready.
  { intros c x Hin. destruct (zipped _ _ _ _ _ HF Hin) as (fd & H1 & H2). destruct (pinv_channel _ _ _ _ Hp H2) as (ch & K1 & K2).
    exists (setRevents ch x). split; [by eapply set_ready_revents|]. cbn. rewrite Hch, K2. split_and!; [done|done|done|by exists ch]. }
  destruct (R3 (wakeupChannel_ (loop_ s))) as (wch & W1 & W2 & _); [unfold own; by rewrite Z.eqb_refl|].
  destruct (Hwake wch W1) as [Hwfd Hwin].
  assert (wakeupChannel_ (loop_ s) ∈ active ↔ 0 < eventfd_ (loop_ s)) as Hret.
  { rewrite <- Hwfd. split.
    - intros (i & Hi)%list_elem_of_lookup. destruct (Forall2_lookup_l _ _ _ _ _ HF Hi) as ([fd x] & Hj & Hx). cbn in Hx.
      rewrite (registered_at _ _ _ _ _ Hp Hx W1). apply list_elem_of_fmap. exists (fd, x). split; [done|]. by eapply list_elem_of_lookup_2.
    - intros ([fd x] & Hfd & (i & Hi)%list_elem_of_lookup)%list_elem_of_fmap. cbn in Hfd.
      destruct (Forall2_lookup_r _ _ _ _ _ HF Hi) as (c & Hj & Hx). cbn in Hx. rewrite <- Hfd, W2 in Hx. injection Hx as ->.
      by eapply list_elem_of_lookup_2. }
  split; cbn.
  - split; cbn.
    + exact Hp'.
    + intros fd m. rewrite Hw', Hw, Hch. apply and_iff_compat_l. split; intros (c & ch & H1 & H2 & H3).
      * destruct (set_ready_lookup (channels_ (poller_ s)) ready _ _ _ H2) as [x Hx]. exists c, (setRevents ch x). done.
      * destruct (set_ready_back _ _ _ _ _ H2) as (ch0 & x & Hc & ->). exists c, ch0. done.
    + intros c ch Hc. destruct (set_ready_back _ _ _ _ _ Hc) as (ch0 & x & Hc0 & ->).
      destruct (Hm c ch0 Hc0) as [K1 K2 K3 K4]. split; cbn; [done|done|by rewrite Hch|done].
    + done.
    + intros c x Hin. split; [done|]. split; [|split; [done|]].
      * rewrite <- Hzip. apply list_elem_of_fmap. by exists (c, x).
      * destruct (Hready c x Hin) as (ch & H1 & H2 & H3 & _). eauto.
  - destruct active as [|a active].
    + eapply EventLoop.reach_timeout; [done|]. split; [done|]. split; [|done].
      pose proof (EventLoop.linv_reachable _ R2) as [_ _ _ _ _ Hfd _ _].
      destruct (decide (0 < eventfd_ (loop_ s))) as [Hx|Hx]; [by apply Hret, elem_of_nil in Hx|lia].
    + eapply EventLoop.reach_step; [done|]. by apply EventLoop.step_polled.
  - intros c Hown. destruct (R3 c Hown) as (ch & H1 & H2 & H3).
    destruct (set_ready_lookup (channels_ (poller_ s)) ready _ _ _ H1) as [x Hx]. exists (setRevents ch x). by rewrite Hch.
  - exact R4.
  - by rewrite Hzip.
  - by rewrite Hzip.
  - intros x Hin. destruct (Hready _ _ Hin) as (ch & _ & _ & _ & H1 & ch0 & H2 & H3). apply Hwin.
    replace wch with ch0 by congruence. by rewrite H3.
  - exists handled. rewrite R8, R5, app_nil_r. split; [done|]. rewrite R9. done.
Qed.

(** A functor's operations. *)
Definition legal_functor (f : Z) (rest : list Z) (ops : list act) (s : reactor) : Prop :=
  Forall user_act ops ∧ legal_run ops (with_loop (functors_next f rest (loop_ s)) s).

Lemma user_no_calls ops : Forall user_act ops → calls_in ops = [].
Proof using Type. induction 1 as [|a l Ha _ IH]; [done|]. unfold calls_in in *. rewrite bind_cons, IH. by destruct a. Qed.

Lemma functor_returns f rest ops s :
  rinv s → position_ (loop_ s) = InFunctors → batch_ (loop_ s) = f :: rest → legal_functor f rest ops s →
  ensures (functor f rest ops s) rinv.
Proof using Type.
  intros Hi Hpos Hb [Hu Hl]. unfold functor.
  assert (rinv (with_loop (functors_next f rest (loop_ s)) s)) as Hi1.
  { apply rinv_loop; [done| |done|by left]. eapply EventLoop.reach_step; [apply Hi|]. by apply EventLoop.step_functor. }
  eapply ensures_mono; [apply (run_works None); [apply Hi1|exact Hl]|].
  intros s' [Hw Hcalls]. eapply rinv_worked; [exact Hi1|done|]. by rewrite Hcalls, user_no_calls, app_nil_r.
Qed.

(** *** The constructor and the destructor *)

Lemma newReactor_ok t (p : P) timer tfd w wfd :
  pinv ∅ p → channels_ p = ∅ → (∀ fd m, ¬ watches p fd m) → timer ≠ w → tfd ≠ wfd → 0 ≤ tfd → 0 ≤ wfd →
  ensures (newReactor t p timer tfd w wfd) (λ s, rinv s ∧ position_ (loop_ s) = Outside ∧ ready_ s = [] ∧
    reported_ s = [] ∧ calls_ s = []).
Proof using Type.
  intros Hp Hch Hw Htw Hfd Htfd Hwfd. unfold newReactor. cbn [newEventLoop obind timer_ctor app].
  set (l0 := mkLoop _ _ _ _ _ _ _ _ _ _ _ _ _ _ _ _). set (s0 := mkReactor l0 ∅ p timer [] [] []).
  assert (core None s0) as Hc0.
  { split; cbn; [done| |done|done|by intros c r ?%elem_of_nil]. intros fd m. split; [by intros ?%Hw|].
    intros [_ (c & ch & Hx & _)]. by rewrite Hch, lookup_empty in Hx. }
  rewrite foldM_cons_ok with (s' := put_chan timer (newChannel tfd) s0) by done. set (s1 := put_chan timer (newChannel tfd) s0).
  assert (core None s1) as Hc1 by (apply (new_act_ok None timer tfd s0); [done|split; [apply (lookup_empty (M := gmap Z))|done]]).
  assert (mem s1 !! timer = Some (newChannel tfd)) as Ht1 by (cbn; by rewrite lookup_insert_eq).
  destruct (ensures_ok _ _ (change_ok None timer EnableReading s1 Hc1 ltac:(exists (newChannel tfd); split; [done|right; cbn; rewrite Hch; split; [apply lookup_empty|done]])))
    as (s2 & E2 & (Hc2 & [Hf2 Hg2] & Hk2 & _) & Hx2 & Hn2).
  rewrite foldM_cons_ok with (s' := s2) by exact E2. destruct (Hx2 _ Ht1) as (cht & T1 & T2 & T3 & _ & Hch2). cbn in T2, T3, Hch2.
  assert (mem s2 !! w = None) as Hw2 by (apply Hn2; change (<[timer := newChannel tfd]> (∅ : heap) !! w = None); by rewrite lookup_insert_ne).
  rewrite foldM_cons_ok with (s' := put_chan w (newChannel wfd) s2) by done. set (s3 := put_chan w (newChannel wfd) s2).
  assert (core None s3) as Hc3 by (by apply (new_act_ok None w wfd s2)).
  assert (mem s3 !! w = Some (newChannel wfd)) as Hw3 by (cbn; by rewrite lookup_insert_eq).
  destruct (ensures_ok _ _ (change_ok None w EnableReading s3 Hc3 ltac:(exists (newChannel wfd); split; [done|right; cbn; rewrite Hch2, Hch, lookup_insert_ne by done; split; [apply lookup_empty|done]])))
    as (s4 & E4 & (Hc4 & [Hf4 Hg4] & Hk4 & Hkept4) & Hx4 & _).
  rewrite foldM_cons_ok with (s' := s4) by exact E4. cbn [foldM ensures].
  destruct (Hx4 _ Hw3) as (chw & W1 & W2 & W3 & _ & Hch4). cbn in W2, W3, Hch4.
  pose proof (frame_trans _ _ _ Hf2 (frame_trans s2 s3 s4 (frame_store _ _) Hf4)) as [F1 F2 F3 F4 F5 F6 F7 F8 F9].
  cbn in F1, F2, F3, F4, F5, F6, F7, F8, F9. cbn [calls_ s1 s3 put_chan with_store s0] in Hk2, Hk4.
  assert (loop_ s4 = l0) as Hl4 by (rewrite Hg4; exact Hg2).
  split; [|split_and!; try done]; [|by rewrite Hk4, app_nil_r, Hk2].
  split.
  - done.
  - rewrite Hl4. by apply (EventLoop.reach_new t w).
  - intros c Hown. unfold own in Hown. rewrite F1, F4 in Hown. apply orb_true_iff in Hown as [->%Z.eqb_eq| ->%Z.eqb_eq].
    + exists chw. rewrite Hch4, W2. split_and!; [done|by rewrite lookup_insert_eq|done].
    + destruct (Hkept4 timer ltac:(cbn; congruence) cht) as (x & X1 & X2 & X3 & _); [cbn; by rewrite lookup_insert_ne|].
      exists x. rewrite X2, X3, T2, Hch4, Hch2. split_and!; [done| |done]. rewrite lookup_insert_ne by done. by rewrite lookup_insert_eq.
  - by rewrite F1, F4.
  - by rewrite F6, F2.
  - rewrite F2. constructor.
  - rewrite F2. by intros r ?%elem_of_nil.
  - exists []. rewrite F2, F3, Hk4, app_nil_r, Hk2. done.
Qed.

(** A registered channel is disabled, removed and destroyed. *)
Lemma retire_ok c ch s :
  core None s → EventLoop.eventHandling_ (loop_ s) = false → mem s !! c = Some ch → channels_ (poller_ s) !! fd_ ch = Some c →
  ensures (foldM exec [Change c DisableAll; Remove c; Destroy c] s) (λ s', core None s' ∧ frame s s' ∧
    (∀ c', c' ≠ c → kept c' s s') ∧ channels_ (poller_ s') = delete (fd_ ch) (channels_ (poller_ s))).
Proof using Type.
  intros Hc0 Heh Hc Hreg. assert (Channel.eventHandling_ ch = false) as Hh by (by destruct (co_mem _ _ Hc0 c ch Hc)).
  destruct (ensures_ok _ _ (change_ok None c DisableAll s Hc0 ltac:(exists ch; split; [done|by left])))
    as (s1 & E1 & (Hc1 & [Hf1 _] & _ & Hk1) & Hx1 & _).
  destruct (Hx1 ch Hc) as (ch1 & A1 & A2 & A3 & A4 & A5). rewrite foldM_cons_ok with (s' := s1) by exact E1.
  assert (channels_ (poller_ s1) = channels_ (poller_ s)) as Hs1 by (rewrite A5; by apply insert_id).
  assert (legal s1 (Remove c)) as Hl1.
  { exists ch1. split_and!; [done|by rewrite A3|by rewrite A2, Hs1|]. rewrite (fr_handling _ _ Hf1), Heh. done. }
  destruct (ensures_ok _ _ (remove_act_ok None c s1 Hc1 Hl1)) as (s2 & E2 & (Hc2 & [Hf2 _] & _ & Hk2) & Hx2).
  destruct (Hx2 ch1 A1) as (ch2 & B1 & B2 & B3 & B4). rewrite foldM_cons_ok with (s' := s2) by exact E2.
  assert (legal s2 (Destroy c)) as Hl2.
  { exists ch2. split_and!; [done|by rewrite B4, B3, lookup_delete_eq|congruence]. }
  destruct (ensures_ok _ _ (destroy_act_ok None c s2 Hc2 Hl2)) as (s3 & E3 & (Hc3 & [Hf3 _] & _ & Hk3) & Hx3).
  rewrite foldM_cons_ok with (s' := s3) by exact E3. cbn [foldM ensures]. split_and!; [done| | |].
  - by eapply frame_trans; [|eapply frame_trans].
  - intros c' Hne. eapply kept_trans; [apply Hk1; cbn; congruence|]. eapply kept_trans; [apply Hk2; cbn; congruence|].
    apply Hk3. cbn. congruence.
  - by rewrite Hx3, B4, A2, Hs1.
Qed.

Lemma destroyReactor_ok s :
  rinv s → position_ (loop_ s) = Outside → (∀ fd c, channels_ (poller_ s) !! fd = Some c → own s c = true) →
  ensures (destroyReactor s) (λ s', channels_ (poller_ s') = ∅ ∧ ∀ fd m, ¬ watches (poller_ s') fd m).
Proof using Type.
  intros Hi Hpos Honly. destruct Hi as [R1 R2 R3 R4 R5 R6 R7 R8].
  assert (EventLoop.eventHandling_ (loop_ s) = false) as Heh.
  { destruct (EventLoop.linv_reachable _ R2) as [_ _ -> _ _ _ _ _]. by rewrite Hpos. }
  set (w := wakeupChannel_ (loop_ s)) in *. set (t := timerChannel_ s) in *.
  destruct (R3 w) as (chw & W1 & W2 & _); [unfold own, w; by rewrite Z.eqb_refl|].
  destruct (R3 t) as (cht & T1 & T2 & _); [unfold own, t; by rewrite Z.eqb_refl, orb_true_r|].
  unfold destroyReactor. fold w t. rewrite foldM_app.
  eapply ensures_bind; [by apply (retire_ok w chw)|]. intros s1 (Hc1 & Hf1 & Hk1 & Hch1).
  destruct (Hk1 t (not_eq_sym R4) cht T1) as (cht1 & K1 & K2 & _ & _ & K3).
  assert (fd_ cht ≠ fd_ chw) as Hne by (intros Hx; congruence).
  eapply ensures_mono; [apply (retire_ok t cht1 s1 Hc1); [by rewrite (fr_handling _ _ Hf1)|done|rewrite K2; auto]|].
  intros s2 (Hc2 & _ & _ & Hch2).
  assert (channels_ (poller_ s2) = ∅) as He.
  { apply map_eq. intros fd. rewrite lookup_empty, Hch2, Hch1, K2. destruct (channels_ (poller_ s) !! fd) as [c|] eqn:E.
    - pose proof (Honly fd c E) as Hown. unfold own in Hown. apply orb_true_iff in Hown as [Hx%Z.eqb_eq|Hx%Z.eqb_eq]; fold w t in Hx; subst c.
      + rewrite (registered_at _ _ _ _ _ (co_poller _ _ R1) E W1), lookup_delete_ne by (by rewrite <- (registered_at _ _ _ _ _ (co_poller _ _ R1) E W1)).
        by rewrite lookup_delete_eq.
      + rewrite (registered_at _ _ _ _ _ (co_poller _ _ R1) E T1). by rewrite lookup_delete_eq.
    - apply lookup_delete_None. right. apply lookup_delete_None. by right. }
  split; [done|]. intros fd m [_ (c & ch & Hx & _)]%(co_watches _ _ Hc2). by rewrite He, lookup_empty in Hx.
Qed.

(** ** All steps *)

(** The loop thread and the others; outside [loop()] the loop's thread sets up
    its channels. *)
Inductive reactor_step : reactor → reactor → Prop :=
| rs_outside s a s' :
    position_ (loop_ s) = Outside → user_act a → legal s a → (∀ c, touched a = Some c → own s c = false) →
    exec a s = Ok s' → reactor_step s s'
| rs_start s l : loop_start (tid s) (loop_ s) = Ok l → reactor_step s (with_loop l s)
| rs_test s : position_ (loop_ s) = AtTest → reactor_step s (with_loop (loop_test (loop_ s)) s)
| rs_polled s r ready s' active :
    position_ (loop_ s) = InPoll → documented r ready s → polled r s = Ok (s', active) →
    reactor_step s (reports (zip active ready.*2) s')
| rs_dispatch s c rest ops t s' :
    position_ (loop_ s) = Handling (c :: rest) → legal_dispatch c rest ops s → dispatch c rest ops t s = Ok s' →
    reactor_step s s'
| rs_handled s : position_ (loop_ s) = Handling [] → reactor_step s (with_loop (loop_handled (loop_ s)) s)
| rs_functor s f rest ops s' :
    position_ (loop_ s) = InFunctors → batch_ (loop_ s) = f :: rest → legal_functor f rest ops s →
    functor f rest ops s = Ok s' → reactor_step s s'
| rs_functors_done s :
    position_ (loop_ s) = InFunctors → batch_ (loop_ s) = [] → reactor_step s (with_loop (functors_done (loop_ s)) s)
| rs_other_queue s t f : t ≠ tid s → reactor_step s (with_loop (queueInLoop t f (loop_ s)) s)
| rs_other_quit s t : t ≠ tid s → reactor_step s (with_loop (quit t (loop_ s)) s)
| rs_other_wakeup s n : wakers_ (loop_ s) = S n → reactor_step s (with_loop (wakeup (set_wakers (loop_ s) n)) s).

Inductive reactor_reachable : reactor → Prop :=
| rr_new t p timer tfd w wfd s :
    pinv ∅ p → channels_ p = ∅ → (∀ fd m, ¬ watches p fd m) → timer ≠ w → tfd ≠ wfd → 0 ≤ tfd → 0 ≤ wfd →
    newReactor t p timer tfd w wfd = Ok s → reactor_reachable s
| rr_step s s' : reactor_reachable s → reactor_step s s' → reactor_reachable s'.

(** While channels are handled, [ready_] names them. *)
Lemma handling_head s c rest :
  rinv s → position_ (loop_ s) = Handling (c :: rest) → ∃ r l, ready_ s = (c, r) :: l ∧ rest = l.*1.
Proof using Type.
  intros Hi Hpos. pose proof (ri_position s Hi) as Hx. rewrite Hpos in Hx.
  destruct (ready_ s) as [|[c' r] l]; [done|]. injection Hx as -> ->. eauto.
Qed.

Lemma rinv_step s s' : rinv s → reactor_step s s' → rinv s'.
Proof using Type.
  intros Hi Hs. pose proof (ri_position s Hi) as Hpr. pose proof (ri_loop s Hi) as Hl.
  destruct Hs as [s a s' Hpos Hu Ha Ho E|s l E|s Hpos|s r ready s' active Hpos Hd E|s c rest ops t s' Hpos Hld E|s Hpos
    |s f rest ops s' Hpos Hb Hlf E|s Hpos Hb|s t f Ht|s t Ht|s n Hn].
  - pose proof (act_works None a s (ri_core s Hi) Ha Ho) as Hx. rewrite E in Hx. destruct Hx as [Hw Hcalls].
    eapply rinv_worked; [exact Hi|done|]. rewrite Hcalls. destruct a; first [done|by rewrite app_nil_r].
  - assert (EventLoop.reachable l) as Hl' by (eapply EventLoop.reach_step; [done|]; by apply EventLoop.step_start).
    unfold loop_start in E. apply ok_bind_inv in E as (u & Hu & E). apply cassert_ok in Hu.
    apply ok_bind_inv in E as (v & _ & [= <-]). apply rinv_loop; [done|done|done|]. right. split; [|done].
    pose proof (EventLoop.li_looping _ (EventLoop.linv_reachable _ Hl)) as Hlo. rewrite Hlo in Hu.
    by destruct (position_ (loop_ s)).
  - rewrite Hpos in Hpr. apply rinv_loop; [done| | |].
    + eapply EventLoop.reach_step; [done|]. by apply EventLoop.step_test.
    + unfold loop_test. by destruct (quit_ _).
    + right. split; [done|]. unfold loop_test. by destruct (quit_ _).
  - pose proof (polled_ok r ready s Hi Hpos Hd) as Hx. by rewrite E in Hx.
  - destruct (handling_head s c rest Hi Hpos) as (r & l & Hr & ->).
    pose proof (dispatch_ok c r l s Hi Hpos Hr ops t Hld) as Hx. rewrite E in Hx. by destruct Hx.
  - rewrite Hpos in Hpr. apply rinv_loop; [done| |done|].
    + eapply EventLoop.reach_step; [done|]. by apply EventLoop.step_handled.
    + right. split; [|done]. by destruct (ready_ s).
  - pose proof (functor_returns f rest ops s Hi Hpos Hb Hlf) as Hx. by rewrite E in Hx.
  - rewrite Hpos in Hpr. apply rinv_loop; [done| |done|].
    + eapply EventLoop.reach_step; [done|]. by apply EventLoop.step_functors_done.
    + by right.
  - pose proof (queue_spot t f (loop_ s)) as Hsp. apply rinv_loop; [done| |by apply Hsp|by left].
    eapply EventLoop.reach_step; [done|]. by apply EventLoop.step_other_queue.
  - pose proof (quit_spot t (loop_ s)) as Hsp. apply rinv_loop; [done| |by apply Hsp|by left].
    eapply EventLoop.reach_step; [done|]. by apply EventLoop.step_other_quit.
  - pose proof (wakeup_spot (set_wakers (loop_ s) n)) as Hsp. apply rinv_loop; [done| |by apply Hsp|by left].
    eapply EventLoop.reach_step; [done|]. by apply EventLoop.step_other_wakeup.
Qed.

Lemma reactor_inv s : reactor_reachable s → rinv s.
Proof using Type.
  induction 1 as [t p timer tfd w wfd s Hp Hch Hw Htw Hfd Ht Hwf E|s s' _ IH Hs]; [|by eapply rinv_step].
  pose proof (newReactor_ok t p timer tfd w wfd Hp Hch Hw Htw Hfd Ht Hwf) as Hx. rewrite E in Hx. by destruct Hx.
Qed.

(** C7. The loop, any poller and the channels together never fail. In every
    reachable state, whatever legal things callbacks, functors and other
    threads have done, in particular channels removed and destroyed while other
    active channels wait for their turn: the channel that is next to be
    dispatched is there and registered, so that no dangling pointer is used;
    its dispatch returns, as do poll and every functor, without a failing
    assert; and outside [loop()], once the owners have removed their channels,
    the destructor runs through and leaves nothing registered. *)
Theorem reactor_never_fails s :
  reactor_reachable s →
  (∀ c rest, position_ (loop_ s) = Handling (c :: rest) →
     (∃ ch, mem s !! c = Some ch ∧ hasChannel c ch (poller_ s) = true) ∧
     ∀ ops t, legal_dispatch c rest ops s → ∃ s', dispatch c rest ops t s = Ok s') ∧
  (∀ r ready, position_ (loop_ s) = InPoll → documented r ready s → ∃ x, polled r s = Ok x) ∧
  (∀ f rest ops, position_ (loop_ s) = InFunctors → batch_ (loop_ s) = f :: rest → legal_functor f rest ops s →
     ∃ s', functor f rest ops s = Ok s') ∧
  (position_ (loop_ s) = Outside → (∀ fd c, channels_ (poller_ s) !! fd = Some c → own s c = true) →
     ∃ s', destroyReactor s = Ok s' ∧ channels_ (poller_ s') = ∅ ∧ ∀ fd m, ¬ watches (poller_ s') fd m).
Proof using Type.
  intros Hr. pose proof (reactor_inv s Hr) as Hi. split_and!.
  - intros c rest Hpos. destruct (handling_head s c rest Hi Hpos) as (r & l & Hrd & ->). split.
    + destruct (dispatched_channel c r l s Hi Hrd) as (ch & H1 & _ & H2 & _). exists ch. split; [done|].
      by apply bool_decide_eq_true.
    + intros ops t Hl. destruct (ensures_ok _ _ (dispatch_ok c r l s Hi Hpos Hrd ops t Hl)) as (s' & E & _). by exists s'.
  - intros r ready Hpos Hd. destruct (ensures_ok _ _ (polled_ok r ready s Hi Hpos Hd)) as (x & E & _). by exists x.
  - intros f rest ops Hpos Hb Hl. destruct (ensures_ok _ _ (functor_returns f rest ops s Hi Hpos Hb Hl)) as (s' & E & _).
    by exists s'.
  - intros Hpos Ho. exact (ensures_ok _ _ (destroyReactor_ok s Hi Hpos Ho)).
Qed.

(** C8. What the program of loop, poller and channels does is what its parts
    promise. Its loop goes only through the states of [EventLoop], so functors
    and wakeups are as proved there; the kernel waits for exactly the masks of
    the registered channels, which are those that say [addedToLoop_]; and the
    callbacks called so far are, in order, exactly those that the kernel's
    reports ask for, a report for a report, except for the channels still to be
    dispatched. *)
Theorem reactor_refines s :
  reactor_reachable s →
  EventLoop.reachable (loop_ s) ∧
  (∀ fd m, watches (poller_ s) fd m ↔ m ≠ 0 ∧
     ∃ c ch, channels_ (poller_ s) !! fd = Some c ∧ mem s !! c = Some ch ∧ events_ ch = m) ∧
  (∀ c ch, mem s !! c = Some ch → addedToLoop_ ch = true ↔ hasChannel c ch (poller_ s) = true) ∧
  ∃ handled, reported_ s = handled ++ ready_ s ∧ calls_ s = handled ≫= expected s ∧
    match position_ (loop_ s) with Handling l => l = (ready_ s).*1 | _ => ready_ s = [] end.
Proof using Type.
  intros Hr. destruct (reactor_inv s Hr) as [R1 R2 R3 R4 R5 R6 R7 (handled & R8 & R9)].
  split_and!; [done|apply R1| |by exists handled].
  intros c ch Hc. unfold hasChannel. rewrite bool_decide_eq_true. by destruct (co_mem _ _ R1 c ch Hc).
Qed.
End Reactor.

(** ** The theorems at a concrete reactor *)

(** Over epoll, with two channels of the user on the descriptors 5 and 6, both
    reported readable: the loop is about to dispatch the first. *)
Definition sample_new : Reactor (EPollPoller (K := gmap Z (Z * Z))) :=
  match newReactor 1 (newEPollPoller ∅) 300 3 400 4 with
  | Ok s => s
  | Fault _ => mkReactor sample_loop ∅ (newEPollPoller ∅) 0 [] [] []
  end.
Definition after_act (a : act) (s : Reactor (EPollPoller (K := gmap Z (Z * Z)))) :=
  match exec a s with Ok s' => s' | Fault _ => s end.
Definition sample_setup := after_act (Change 200 EnableReading) (after_act (New 200 6)
  (after_act (Change 100 EnableReading) (after_act (New 100 5) sample_new))).
Definition sample_polling : Reactor (EPollPoller (K := gmap Z (Z * Z))) :=
  with_loop (loop_test (match loop_start 1 (loop_ sample_setup) with Ok l => l | Fault _ => loop_ sample_setup end)) sample_setup.
Definition sample_reply : wait_result := WaitOk [(POLLIN, 100); (POLLIN, 200)].
Definition sample_polled : outcome (Reactor (EPollPoller (K := gmap Z (Z * Z))) * list Z) :=
  polled (P := EPollPoller) sample_reply sample_polling.
Definition sample_reactor : Reactor (EPollPoller (K := gmap Z (Z * Z))) :=
  match sample_polled with
  | Ok (s, active) => reports (zip active [POLLIN; POLLIN]) s
  | Fault _ => sample_polling
  end.

Lemma outside_reachable a s s' :
  reactor_reachable (P := EPollPoller (K := gmap Z (Z * Z))) s → position_ (loop_ s) = Outside → user_act a →
  legal s a → (∀ c, touched a = Some c → own s c = false) → exec a s = Ok s' → reactor_reachable s'.
Proof. intros Hr Hp Hu Hl Ho E. eapply rr_step; [exact Hr|]. by eapply rs_outside. Qed.

Lemma sample_new_reachable : reactor_reachable sample_new.
Proof.
  apply (rr_new 1 (newEPollPoller (∅ : gmap Z (Z * Z))) 300 3 400 4).
  - by apply newEPollPoller_ok.
  - done.
  - intros fd m [_ [c Hc]]. cbn in Hc. by rewrite lookup_empty in Hc.
  - done.
  - done.
  - done.
  - done.
  - vm_compute. reflexivity.
Qed.

Ltac set_up := vm_compute; reflexivity.

Lemma sample_setup_reachable : reactor_reachable sample_setup.
Proof.
  unfold sample_setup. set (s1 := after_act (New 100 5) sample_new). set (s2 := after_act (Change 100 EnableReading) s1).
  set (s3 := after_act (New 200 6) s2).
  assert (reactor_reachable s1) as H1.
  { apply (outside_reachable (New 100 5) sample_new); [apply sample_new_reachable|set_up|done| |done|set_up].
    split; [set_up|done]. }
  assert (reactor_reachable s2) as H2.
  { apply (outside_reachable (Change 100 EnableReading) s1); [done|set_up|done| | |set_up].
    - exists (newChannel 5). split; [set_up|]. right. split; set_up.
    - intros c [= <-]. set_up. }
  assert (reactor_reachable s3) as H3.
  { apply (outside_reachable (New 200 6) s2); [done|set_up|done| |done|set_up]. split; [set_up|done]. }
  apply (outside_reachable (Change 200 EnableReading) s3); [done|set_up|done| | |set_up].
  - exists (newChannel 6). split; [set_up|]. right. split; set_up.
  - intros c [= <-]. set_up.
Qed.

Lemma sample_polling_reachable : reactor_reachable sample_polling.
Proof.
  set (l := match loop_start 1 (loop_ sample_setup) with Ok l => l | Fault _ => loop_ sample_setup end).
  apply (rr_step (with_loop l sample_setup)).
  - eapply rr_step; [apply sample_setup_reachable|]. apply rs_start. set_up.
  - apply (rs_test (with_loop l sample_setup)). set_up.
Qed.

Lemma sample_documented : documented (P := EPollPoller) sample_reply [(5, POLLIN); (6, POLLIN)] sample_polling.
Proof.
  split_and!.
  - exists [(POLLIN, 100); (POLLIN, 200)]. split_and!; [done|vm_compute; discriminate|].
    repeat constructor; eexists; set_up.
  - apply (bool_decide_unpack _). set_up.
  - intros ch Hch. assert (fd_ ch = 4) as ->.
    { assert (fd_ <$> mem sample_polling !! wakeupChannel_ (loop_ sample_polling) = Some 4) as Hx by set_up.
      rewrite Hch in Hx. by injection Hx. }
    split.
    + split; [|intros Hx; vm_compute in Hx; discriminate Hx].
      intros Hx. exfalso. revert Hx. apply (bool_decide_unpack (¬ (4 ∈ [5; 6]))). exact I.
    + intros x Hx. exfalso. assert (4 ∈ [5; 6]) as Hx4.
      { change [5; 6] with ([(5, POLLIN); (6, POLLIN)].*1). apply list_elem_of_fmap. exists (4, x). split; [reflexivity|exact Hx]. }
      revert Hx4. apply (bool_decide_unpack (¬ (4 ∈ [5; 6]))). exact I.
Qed.

Lemma sample_reactor_reachable : reactor_reachable sample_reactor.
Proof.
  destruct sample_polled as [[s active]|] eqn:E.
  - pose proof (rs_polled (P := EPollPoller (K := gmap Z (Z * Z))) sample_polling sample_reply
      [(5, POLLIN); (6, POLLIN)] s active) as Hs.
    eapply rr_step; [apply sample_polling_reachable|]. unfold sample_reactor. rewrite E.
    apply Hs; [set_up|apply sample_documented|exact E].
  - exfalso. vm_compute in E. discriminate E.
Qed.

(** The first channel's read callback puts another channel in its place. *)
Definition sample_ops (k : kind) : list act :=
  match k with
  | KRead => [Change 100 DisableAll; Remove 100; New 500 9; Change 500 EnableReading; Queue 7; Quit]
  | _ => []
  end.

(** [legal], computed. *)
Definition legalb (s : Reactor (EPollPoller (K := gmap Z (Z * Z)))) (a : act) : bool :=
  let chans := e_channels (poller_ s) in
  match a with
  | New c fd => bool_decide (mem s !! c = None) && (0 <=? fd)
  | Change c _ => match mem s !! c with
                  | Some ch => bool_decide (chans !! fd_ ch = Some c) ||
                               bool_decide (chans !! fd_ ch = None) && (index_ ch =? -1)
                  | None => false end
  | Remove c => match mem s !! c with
                | Some ch => (events_ ch =? 0) && bool_decide (chans !! fd_ ch = Some c) &&
                             bool_decide (currentActiveChannel_ (loop_ s) = Some c)
                | None => false end
  | Queue _ | Quit => match position_ (loop_ s) with Handling _ | InFunctors => true | _ => false end
  | Enter _ _ => true
  | _ => false
  end.
Lemma legalb_ok s a : legalb s a = true → legal s a.
Proof.
  destruct a as [c fd|c u|c|c|c|f| |c k|]; cbn; try done.
  - intros [->%bool_decide_eq_true Hx%Z.leb_le]%andb_true_iff. done.
  - destruct (mem s !! c) as [ch|]; [|done]. intros Hx. exists ch. split; [done|].
    apply orb_true_iff in Hx as [Hx|[Hx Hy]%andb_true_iff]; [left; by apply bool_decide_eq_true in Hx|right].
    apply bool_decide_eq_true in Hx. by apply Z.eqb_eq in Hy.
  - destruct (mem s !! c) as [ch|]; [|done]. intros [[Hx Hy]%andb_true_iff Hz]%andb_true_iff. exists ch.
    apply Z.eqb_eq in Hx. apply bool_decide_eq_true in Hy, Hz. split_and!; try done. intros _. by left.
  - unfold in_user_code. by destruct (position_ _).
  - unfold in_user_code. by destruct (position_ _).
Qed.
Fixpoint legal_runb (l : list act) (s : Reactor (EPollPoller (K := gmap Z (Z * Z)))) : bool :=
  match l with
  | [] => true
  | a :: l => legalb s a && match touched a with Some c => negb (own s c) | None => true end &&
              match exec a s with Ok s' => legal_runb l s' | Fault _ => true end
  end.
Lemma legal_runb_ok l : ∀ s, legal_runb l s = true → legal_run l s.
Proof.
  induction l as [|a l IH]; intros s; [done|]. cbn [legal_runb legal_run].
  intros [[Ha%legalb_ok Ht]%andb_true_iff Hl]%andb_true_iff. split; [done|]. split.
  - intros c Hc. rewrite Hc in Ht. by apply negb_true_iff in Ht.
  - intros s' E. rewrite E in Hl. by apply IH.
Qed.

Lemma sample_legal : legal_dispatch 100 [200] sample_ops sample_reactor.
Proof.
  right. split.
  - intros k. destruct k; repeat constructor.
  - apply legal_runb_ok. set_up.
Qed.

Lemma reactor_never_fails_witness :
  position_ (loop_ sample_reactor) = Handling [100; 200] ∧
  ∃ s', dispatch 100 [200] sample_ops 0 sample_reactor = Ok s'.
Proof.
  split; [set_up|]. destruct (reactor_never_fails sample_reactor sample_reactor_reachable) as (H & _).
  destruct (H 100 [200] ltac:(set_up)) as [_ Hd]. apply Hd. exact sample_legal.
Defined.

Lemma reactor_refines_witness :
  EventLoop.reachable (loop_ sample_reactor) ∧
  ∃ handled, reported_ sample_reactor = handled ++ ready_ sample_reactor ∧
    calls_ sample_reactor = handled ≫= expected sample_reactor.
Proof.
  destruct (reactor_refines sample_reactor sample_reactor_reachable) as (H & _ & _ & handled & H1 & H2 & _).
  split; [exact H|]. exists handled. split; [exact H1|exact H2].
Defined.

(** The dispatch, evaluated: the new channel is registered, the other active
    channel is still to come. *)
Example sample_dispatch_run :
  match dispatch 100 [200] sample_ops 0 sample_reactor with
  | Ok s => calls_ s = [(100, KRead)] ∧ (ready_ s).*1 = [200] ∧ e_channels (poller_ s) = {[3 := 300; 4 := 400; 6 := 200; 9 := 500]} ∧
            pendingFunctors_ (loop_ s) = [7] ∧ quit_ (loop_ s) = true
  | Fault _ => False
  end.
Proof. by vm_compute. Qed.

(** ** A use outside the theorem's conditions *)

(** A callback removes a channel that is active and not its own: the assert of
    [removeChannel] fails, also when that channel has had its turn. *)
Lemma remove_active_aborts :
  dispatch 100 [200] (λ _, [Change 200 DisableAll; Remove 200]) 0 sample_reactor = Fault AssertFailed.
Proof. by vm_compute. Qed.
