(* ===== verification/LoopTimers.v ===== *)
(** * LoopTimers: the timers of a loop, with its functors and other threads
    ([muduo/net/EventLoop.cc], [TimerQueue.cc])

    [TimerQueue] takes every operation of the queue as one step, [EventLoop]
    does not know what its functors do. Here the two run together: a timer
    asked for by another thread is made by that thread, handed to the loop as
    a functor and entered when the loop comes to it; the loop waits for the
    timerfd beside its eventfd; a dispatch of the expired timers is a sequence
    of steps, between which callbacks add and cancel timers and other threads
    go on. *)
From S2P Require Import Prelude Timestamp TimerQueue EventLoop.
From stdpp Require Import options.

(** [TimerQueue::handleRead] under way: the time it has read, the expired
    entries, and those whose callbacks are still to be called. *)
Record dispatch := mkDispatch { now_ : Timestamp; expired_ : list Entry; todo_ : list Entry }.

(** The functors of [addTimer] and [cancel] are found in the loop's queue by
    their names; a timer that another thread has made and not yet handed over
    is in its hands. The histories: the timers asked for, the sequences
    somebody has cancelled, the callbacks called and the time at which the
    dispatch began. *)
Record System := mkSystem {
  loop_ : EventLoop.EventLoop;
  queue_ : TimerQueue.TimerQueue;
  timerChannel_ : Z;
  readable_ : bool;                  (* the timerfd has expired *)
  jobs_ : gmap Z functor;
  hands_ : list Timer;
  firing_ : option dispatch;
  made_ : gmap Z Timer;
  cancels_ : gset Z;
  log_ : list (Timestamp * Timer)
}.

Definition with_loop (l : EventLoop.EventLoop) (s : System) : System :=
  mkSystem l (queue_ s) (timerChannel_ s) (readable_ s) (jobs_ s) (hands_ s) (firing_ s) (made_ s) (cancels_ s) (log_ s).
Definition with_timers (q : TimerQueue.TimerQueue) (r : bool) (s : System) : System :=
  mkSystem (loop_ s) q (timerChannel_ s) r (jobs_ s) (hands_ s) (firing_ s) (made_ s) (cancels_ s) (log_ s).
Definition with_job (f : Z) (k : functor) (s : System) : System :=
  mkSystem (loop_ s) (queue_ s) (timerChannel_ s) (readable_ s) (<[f := k]> (jobs_ s)) (hands_ s) (firing_ s) (made_ s) (cancels_ s) (log_ s).
Definition with_hands (h : list Timer) (s : System) : System :=
  mkSystem (loop_ s) (queue_ s) (timerChannel_ s) (readable_ s) (jobs_ s) h (firing_ s) (made_ s) (cancels_ s) (log_ s).
Definition with_firing (d : option dispatch) (s : System) : System :=
  mkSystem (loop_ s) (queue_ s) (timerChannel_ s) (readable_ s) (jobs_ s) (hands_ s) d (made_ s) (cancels_ s) (log_ s).
Definition add_made (t : Timer) (s : System) : System :=
  mkSystem (loop_ s) (queue_ s) (timerChannel_ s) (readable_ s) (jobs_ s) (hands_ s) (firing_ s) (<[sequence_ t := t]> (made_ s)) (cancels_ s) (log_ s).
Definition add_cancel (i : TimerId) (s : System) : System :=
  mkSystem (loop_ s) (queue_ s) (timerChannel_ s) (readable_ s) (jobs_ s) (hands_ s) (firing_ s) (made_ s) ({[id_sequence i]} ∪ cancels_ s) (log_ s).
Definition add_log (e : list (Timestamp * Timer)) (s : System) : System :=
  mkSystem (loop_ s) (queue_ s) (timerChannel_ s) (readable_ s) (jobs_ s) (hands_ s) (firing_ s) (made_ s) (cancels_ s) (log_ s ++ e).

Section LoopTimers.
Context (clock : nat → Z).

(** [timerfd_settime] takes back an expiration that nobody has read; the only
    clock the operations on timers read is the one [resetTimerfd] reads. *)
Definition with_queue (q : TimerQueue.TimerQueue) (s : System) : System :=
  with_timers q (readable_ s && Nat.eqb (samples_ q) (samples_ (queue_ s))) s.

(** ** In the loop thread *)

(* src/muduo/net/TimerQueue.cc:78-86 TimerQueue::addTimer, in the loop thread *)
Definition user_add (cb when interval : Z) (s : System) : outcome System :=
  let t := newTimer cb when interval (numCreated_ (queue_ s)) in
  let! (_, q) := addTimer clock true cb when interval (queue_ s) in
  Ok (with_queue q (add_made t s)).

(* src/muduo/net/TimerQueue.cc:88-90 TimerQueue::cancel, in the loop thread *)
Definition user_cancel (i : TimerId) (s : System) : outcome System :=
  let! q := TimerQueue.cancel clock true i (queue_ s) in
  Ok (with_queue q (add_cancel i s)).

(* src/muduo/net/EventLoop.cc:235-237 EventLoop::doPendingFunctors, one functor *)
Definition run_functor (f : Z) (rest : list Z) (s : System) : outcome System :=
  let s1 := with_loop (functors_next f rest (loop_ s)) s in
  match jobs_ s !! f with
  | None => Ok s1
  | Some k => let! q := runFunctor clock k (queue_ s1) in Ok (with_queue q s1)
  end.

(** The read of a timerfd that is not readable fails, which is logged. *)
(* src/muduo/net/TimerQueue.cc:132-140 TimerQueue::handleRead, before the callbacks *)
Definition fire (rest : list Z) (s : System) : outcome System :=
  let s1 := with_loop (loop_handle (timerChannel_ s) rest (loop_ s)) s in
  let '(now, q0) := Timestamp_now clock (queue_ s1) in
  let q1 := if readable_ s1 then readTimerfd q0 else q0 in
  let! (expired, q2) := getExpired now q1 in
  let q3 := TimerQueue.set_calling true ∅ q2 in
  Ok (with_firing (Some (mkDispatch now expired expired)) (with_timers q3 false s1)).

(** The callback itself goes on in the steps of the user's code. *)
(* src/muduo/net/TimerQueue.cc:141-146 TimerQueue::handleRead, one callback *)
Definition call (d : dispatch) (e : Entry) (todo : list Entry) (s : System) : outcome System :=
  let called := match timerOwners_ (queue_ s) !! snd e with Some t => [(now_ d, t)] | None => [] end in
  let! q := call_one clock (λ _, []) e (queue_ s) in
  Ok (add_log called (with_firing (Some (mkDispatch (now_ d) (expired_ d) todo)) (with_timers q (readable_ s) s))).

(* src/muduo/net/TimerQueue.cc:147-150 TimerQueue::handleRead, after the callbacks *)
Definition fired (d : dispatch) (s : System) : outcome System :=
  let q := TimerQueue.set_calling false (cancelingTimers_ (queue_ s)) (queue_ s) in
  let! q' := reset clock (expired_ d) (now_ d) q in
  Ok (with_firing None (with_queue q' s)).

(** ** In another thread *)

(* src/muduo/net/TimerQueue.cc:78-81 TimerQueue::addTimer, the timer *)
Definition other_make (cb when interval : Z) (s : System) : System :=
  let t := newTimer cb when interval (numCreated_ (queue_ s)) in
  with_hands (hands_ s ++ [t])
    (add_made t (with_timers (set_created (sequence_ t) (queue_ s)) (readable_ s) s)).

(* src/muduo/net/TimerQueue.cc:82-86 TimerQueue::addTimer, runInLoop *)
Definition other_add (tid f : Z) (n : nat) (t : Timer) (s : System) : System :=
  with_hands (delete n (hands_ s)) (with_job f (FAdd t) (with_loop (queueInLoop tid f (loop_ s)) s)).

(* src/muduo/net/TimerQueue.cc:88-90 TimerQueue::cancel, in another thread *)
Definition other_cancel (tid f : Z) (i : TimerId) (s : System) : System :=
  add_cancel i (with_job f (FCancel i) (with_loop (queueInLoop tid f (loop_ s)) s)).

(** ** The steps *)

Inductive event :=
| Start | Test | Polled (active : list Z) | Timeout
| Handle (c : Z) (rest : list Z) | Fire (rest : list Z) | Call (d : dispatch) (e : Entry) (todo : list Entry)
| Fired (d : dispatch) | Handled | Functor (f : Z) (rest : list Z) | FunctorsDone
| UserQueue (f : Z) | UserQuit | UserAdd (cb when interval : Z) | UserCancel (i : TimerId)
| OtherQueue (tid f : Z) | OtherQuit (tid : Z) | OtherWakeup (n : nat)
| OtherMake (cb when interval : Z) | OtherAdd (tid f : Z) (n : nat) (t : Timer) | OtherCancel (tid f : Z) (i : TimerId)
| Foreign                             (* another loop makes a timer *)
| Clock                               (* somebody reads the clock *)
| Expire                              (* the timerfd goes off *).

Definition to_loop (l : EventLoop.EventLoop) (s : System) : outcome System := Ok (with_loop l s).

Definition perform (e : event) (s : System) : outcome System :=
  let l := loop_ s in
  match e with
  | Start => let! l' := loop_start (threadId_ l) l in to_loop l' s
  | Test => to_loop (loop_test l) s
  | Polled active => to_loop (loop_polled active l) s
  | Timeout => to_loop (loop_polled [] l) s
  | Handle c rest => to_loop (loop_handle c rest l) s
  | Fire rest => fire rest s
  | Call d e todo => call d e todo s
  | Fired d => fired d s
  | Handled => to_loop (loop_handled l) s
  | Functor f rest => run_functor f rest s
  | FunctorsDone => to_loop (functors_done l) s
  | UserQueue f => to_loop (queueInLoop (threadId_ l) f l) s
  | UserQuit => to_loop (quit (threadId_ l) l) s
  | UserAdd cb when interval => user_add cb when interval s
  | UserCancel i => user_cancel i s
  | OtherQueue tid f => to_loop (queueInLoop tid f l) s
  | OtherQuit tid => to_loop (quit tid l) s
  | OtherWakeup n => to_loop (wakeup (set_wakers l n)) s
  | OtherMake cb when interval => Ok (other_make cb when interval s)
  | OtherAdd tid f n t => Ok (other_add tid f n t s)
  | OtherCancel tid f i => Ok (other_cancel tid f i s)
  | Foreign => Ok (with_timers (set_created (numCreated_ (queue_ s) + 1) (queue_ s)) (readable_ s) s)
  | Clock => Ok (with_timers (snd (Timestamp_now clock (queue_ s))) (readable_ s) s)
  | Expire => Ok (with_timers (queue_ s) true s)
  end.

(** The name of a functor stands for one functor. *)
Definition new_name (f : Z) (s : System) : Prop := f ∉ queued_ (loop_ s).
Definition no_job (f : Z) (s : System) : Prop := jobs_ s !! f = None.
Definition counts (s : System) : Prop := numCreated_ (queue_ s) < max_sequence.

(** When a step can happen. The kernel reports the eventfd and the timerfd
    exactly when they are readable. *)
Definition enabled (e : event) (s : System) : Prop :=
  let l := loop_ s in
  match e with
  | Start => looping_ l = false
  | Test => position_ l = AtTest
  | Polled active => position_ l = InPoll ∧ active ≠ [] ∧ poll_returns l active ∧
      (timerChannel_ s ∈ active ↔ readable_ s = true)
  | Timeout => position_ l = InPoll ∧ eventfd_ l = 0 ∧ readable_ s = false
  | Handle c rest => position_ l = Handling (c :: rest) ∧ c ≠ timerChannel_ s ∧ firing_ s = None
  | Fire rest => position_ l = Handling (timerChannel_ s :: rest) ∧ firing_ s = None
  | Call d e todo => firing_ s = Some d ∧ todo_ d = e :: todo
  | Fired d => firing_ s = Some d ∧ todo_ d = []
  | Handled => position_ l = Handling [] ∧ firing_ s = None
  | Functor f rest => position_ l = InFunctors ∧ batch_ l = f :: rest
  | FunctorsDone => position_ l = InFunctors ∧ batch_ l = []
  | UserQueue f => in_user_code l ∧ no_job f s
  | UserQuit | UserCancel _ => in_user_code l
  | UserAdd _ _ _ => in_user_code l ∧ counts s
  | OtherQueue tid f => tid ≠ threadId_ l ∧ no_job f s
  | OtherQuit tid => tid ≠ threadId_ l
  | OtherWakeup n => wakers_ l = S n
  | OtherMake _ _ _ | Foreign => counts s
  | OtherAdd tid f n t => tid ≠ threadId_ l ∧ new_name f s ∧ hands_ s !! n = Some t
  | OtherCancel tid f i => tid ≠ threadId_ l ∧ new_name f s
  | Clock => True
  | Expire => is_Some (timerfd_ (queue_ s))
  end.

Definition step (s s' : System) : Prop := ∃ e, enabled e s ∧ perform e s = Ok s'.

Definition initial (l : EventLoop.EventLoop) (c : Z) : System :=
  mkSystem l newQueue c false ∅ [] None ∅ ∅ [].

Inductive reachable : System → Prop :=
| reach_new tid wc c l : newEventLoop tid wc false = Ok l → wc ≠ c → reachable (initial l c)
| reach_step s s' : reachable s → step s s' → reachable s'.
End LoopTimers.

(** ** Timers and their histories *)

#[export] Instance Timer_eq_dec : EqDecision Timer.
Proof. solve_decision. Defined.

(** A timer as it is now, and as it was made: a repeating one has moved on. *)
Definition from (t0 t : Timer) : Prop :=
  callback_ t = callback_ t0 ∧ interval_ t = interval_ t0 ∧ repeat_ t = repeat_ t0 ∧ sequence_ t = sequence_ t0 ∧
  expiration_ t0 ≤ expiration_ t ∧ (repeat_ t = false → t = t0).

(** The calls of one timer: a second one only of a repeating timer, and not
    before its interval has passed. *)
Fixpoint spaced (log : list (Timestamp * Timer)) : Prop :=
  match log with
  | [] => True
  | (n, t) :: log => (∀ n' t', (n', t') ∈ log → sequence_ t' = sequence_ t → repeat_ t' = true ∧ n + interval_ t' ≤ n') ∧
                     spaced log
  end.

(** What is kept of the timers [A] on their way or scheduled, the timers made
    up to number [N], the cancellations and the calls; [called] are the timers
    of the current dispatch already called, at [now]. *)
Record history (A : Timer → Prop) (made : gmap Z Timer) (N : Z) (cancels : gset Z)
    (called : list Timer) (now : Timestamp) (log : list (Timestamp * Timer)) : Prop := mkHistory {
  hi_range : ∀ k t, made !! k = Some t → 0 < k ≤ N ∧ sequence_ t = k ∧ repeat_ t = (0 <? interval_ t);
  hi_made : ∀ t, A t → ∃ t0, made !! sequence_ t = Some t0 ∧ from t0 t;
  hi_account : ∀ k t0, made !! k = Some t0 →
    (∃ t, A t ∧ sequence_ t = k) ∨ k ∈ cancels ∨ ∃ n t, (n, t) ∈ log ∧ sequence_ t = k ∧ repeat_ t = false;
  hi_log : ∀ n t, (n, t) ∈ log → expiration_ t ≤ n ∧ ∃ t0, made !! sequence_ t = Some t0 ∧ from t0 t;
  hi_ahead : ∀ t n t1, A t → (n, t1) ∈ log → sequence_ t1 = sequence_ t →
    (t ∈ called ∧ n = now) ∨ (repeat_ t = true ∧ n + interval_ t ≤ expiration_ t);
  hi_spaced : spaced log
}.

Lemma spaced_snoc log n t :
  spaced log → (∀ n1 t1, (n1, t1) ∈ log → sequence_ t1 = sequence_ t → repeat_ t = true ∧ n1 + interval_ t ≤ n) →
  spaced (log ++ [(n, t)]).
Proof.
  induction log as [|[n1 t1] log IH]; cbn; intros Hs Hn.
  - split; [|done]. by intros n' t' ?%elem_of_nil.
  - destruct Hs as [H1 H2]. split.
    + intros n' t' [Hin|Hin%list_elem_of_singleton]%elem_of_app Heq; [by apply H1|].
      injection Hin as -> ->. apply (Hn n1 t1); [by left|done].
    + apply IH; [done|]. intros n2 t2 Hin. apply Hn. by right.
Qed.

Lemma from_refl t : from t t.
Proof. split_and!; done || lia. Qed.

Section History.
Context (A A' : Timer → Prop) (made : gmap Z Timer) (N : Z) (cancels : gset Z)
  (called : list Timer) (now : Timestamp) (log : list (Timestamp * Timer)).
Hypothesis Hh : history A made N cancels called now log.

Lemma history_init (c : gset Z) : history (λ _, False) ∅ 0 c [] 0 [].
Proof using Type.
  split; try done; intros *; rewrite ?lookup_empty; try done; by intros ?%elem_of_nil.
Qed.

Lemma history_ext : (∀ t, A' t ↔ A t) → history A' made N cancels called now log.
Proof using Hh.
  intros He. destruct Hh as [H1 H2 H3 H4 H5 H6]. split; try done; setoid_rewrite He; done.
Qed.

Lemma history_more N' : N ≤ N' → history A made N' cancels called now log.
Proof using Hh.
  intros HN. destruct Hh as [H1 H2 H3 H4 H5 H6]. split; try done. intros k t Hk. destruct (H1 k t Hk). split; [lia|done].
Qed.

(** A new timer. *)
Lemma history_new t N' :
  sequence_ t = N + 1 → N' = N + 1 → 0 ≤ N → repeat_ t = (0 <? interval_ t) → (∀ t', A' t' ↔ t' = t ∨ A t') →
  history A' (<[sequence_ t := t]> made) N' cancels called now log.
Proof using Hh.
  intros Ht -> HN Hr He. destruct Hh as [H1 H2 H3 H4 H5 H6].
  assert (made !! sequence_ t = None) as Hnew.
  { destruct (made !! sequence_ t) as [x|] eqn:E; [|done]. destruct (H1 _ _ E). lia. }
  assert (∀ t1, (∃ t0, made !! sequence_ t1 = Some t0 ∧ from t0 t1) →
    ∃ t0, <[sequence_ t := t]> made !! sequence_ t1 = Some t0 ∧ from t0 t1) as Hup.
  { intros t1 (t0 & Hk & Hf). exists t0. rewrite lookup_insert_ne by congruence. done. }
  split.
  - intros k x Hk. apply lookup_insert_Some in Hk as [[<- <-]|[_ Hk]]; [split_and!; done || lia|].
    destruct (H1 k x Hk) as (? & ? & ?). split_and!; done || lia.
  - intros t' [->|Ht']%He; [|by apply Hup, H2]. exists t. rewrite lookup_insert_eq. split; [done|apply from_refl].
  - intros k t0 Hk. apply lookup_insert_Some in Hk as [[<- _]|[_ Hk]]; [left; exists t; split; [apply He; by left|done]|].
    destruct (H3 k t0 Hk) as [(t1 & Ht1 & Hs)|Hr']; [|by right]. left. exists t1. split; [apply He; by right|done].
  - intros n t1 Hin. destruct (H4 n t1 Hin) as [Hle Hm]. split; [done|]. by apply Hup.
  - intros t' n t1 [->|Ht']%He Hin Hs; [|by eapply H5]. destruct (H4 n t1 Hin) as (_ & t0 & Hm & _). congruence.
  - done.
Qed.

(** Some timers go: those that somebody has cancelled. *)
Lemma history_gone cancels' :
  cancels ⊆ cancels' → (∀ t, A' t → A t) → (∀ t, A t → A' t ∨ sequence_ t ∈ cancels') →
  history A' made N cancels' called now log.
Proof using Hh.
  intros Hc H H'. destruct Hh as [H1 H2 H3 H4 H5 H6]. split; auto.
  - intros k t0 Hk. destruct (H3 k t0 Hk) as [(t & Ht & <-)|[Hin|Hr]]; [|right; left; set_solver|by right; right].
    destruct (H' t Ht) as [?|?]; [left; eauto|by right; left].
  - intros t n t1 Ht. apply H5. by apply H.
Qed.

(** The callback of an expired timer is called. *)
Lemma history_call t :
  A t → (∀ x, A x → sequence_ x = sequence_ t → x = t) → t ∉ called → expiration_ t ≤ now →
  history A made N cancels (called ++ [t]) now (log ++ [(now, t)]).
Proof using Hh.
  intros Ht Hu Hc Hle. destruct Hh as [H1 H2 H3 H4 H5 H6]. split; try done.
  - intros k t0 Hk. destruct (H3 k t0 Hk) as [Ha|[Hin|(n & x & Hin & Hx)]]; [by left|by right; left|].
    right; right. exists n, x. split; [apply elem_of_app; by left|done].
  - intros n x [Hin|Hin%list_elem_of_singleton]%elem_of_app; [by apply H4|]. injection Hin as -> ->. split; [done|]. by apply H2.
  - intros x n t1 Hx [Hin|Hin%list_elem_of_singleton]%elem_of_app Hs.
    + destruct (H5 x n t1 Hx Hin Hs) as [[? ?]|?]; [left; split; [apply elem_of_app; by left|done]|by right].
    + injection Hin as -> ->. left. split; [|done]. rewrite (Hu x Hx) by done. apply elem_of_app. right. by apply list_elem_of_singleton.
  - apply spaced_snoc; [done|]. intros n1 t1 Hin Hs. destruct (H5 t n1 t1 Ht Hin Hs) as [[? _]|[? ?]]; [done|]. split; [done|lia].
Qed.

(** The dispatch ends: of the timers called, those that repeat and are not
    cancelled are scheduled again. *)
Lemma history_fired now' :
  (∀ t, t ∈ called → A t ∧ expiration_ t ≤ now ∧ (now, t) ∈ log) →
  (∀ t, A' t → (A t ∧ t ∉ called) ∨ ∃ t1, t1 ∈ called ∧ repeat_ t1 = true ∧ t = restart now t1) →
  (∀ t, A t → t ∉ called → A' t) →
  (∀ t, t ∈ called → repeat_ t = true → A' (restart now t) ∨ sequence_ t ∈ cancels) →
  history A' made N cancels [] now' log.
Proof using Hh.
  intros Hcalled H Hkeep Hagain. destruct Hh as [H1 H2 H3 H4 H5 H6]. split; try done.
  - intros t Ht. destruct (H t Ht) as [[Ha _]|(t1 & Ht1 & Hr & ->)]; [by apply H2|].
    destruct (Hcalled t1 Ht1) as (Ha & Hle & _). destruct (H2 t1 Ha) as (t0 & Hm & Hf). exists t0. split; [done|].
    destruct Hf as (F1 & F2 & F3 & F4 & F5 & F6). destruct (H1 _ _ Hm) as (_ & _ & Hrep).
    assert (0 < interval_ t0) by (apply Z.ltb_lt; congruence).
    unfold from, restart. cbn. rewrite Hr. split_and!; try done; [congruence|lia].
  - intros k t0 Hk. destruct (H3 k t0 Hk) as [(t & Ht & <-)|Hr]; [|by right].
    destruct (decide (t ∈ called)) as [Hc|Hc]; [|left; eauto]. destruct (repeat_ t) eqn:Hr.
    + destruct (Hagain t Hc Hr) as [Ha|Ha]; [left; by exists (restart now t)|by right; left].
    + right; right. exists now, t. by destruct (Hcalled t Hc) as (_ & _ & ?).
  - intros t n t1 Ht Hin Hs. right. destruct (H t Ht) as [[Ha Hc]|(t2 & Ht2 & Hr & ->)].
    + by destruct (H5 t n t1 Ha Hin Hs) as [[? _]|?].
    + destruct (Hcalled t2 Ht2) as (Ha & Hle & _). cbn in *. rewrite Hr. split; [done|].
      destruct (H2 t2 Ha) as (t0 & Hm & _ & F2 & F3 & _). destruct (H1 _ _ Hm) as (_ & _ & Hrep).
      assert (0 < interval_ t2) by (apply Z.ltb_lt; congruence).
      destruct (H5 t2 n t1 Ha Hin Hs) as [[_ ->]|[_ Hn]]; lia.
Qed.
End History.

(** ** The invariant *)

(** The timer functors on their way, in the loop's queue and in the hands of
    the other threads, and the timers on their way or in the queue. *)
Definition waiting (s : System) : list functor :=
  omap (λ f, jobs_ s !! f) (batch_ (loop_ s) ++ pendingFunctors_ (loop_ s)).
Definition coming (s : System) : list functor := waiting s ++ (FAdd <$> hands_ s).
Definition alive (s : System) (t : Timer) : Prop :=
  FAdd t ∈ coming s ∨ timerOwners_ (queue_ s) !! sequence_ t = Some t.

Definition coming_ok (l : list functor) (q : TimerQueue.TimerQueue) : Prop :=
  (∀ t, FAdd t ∈ l → timerOwners_ q !! sequence_ t = None ∧ timer_ok (numCreated_ q) t) ∧ NoDup (pending_adds l).

Definition time (s : System) : Timestamp := match firing_ s with Some d => now_ d | None => 0 end.
Definition idle (s : System) : bool := match firing_ s with Some _ => false | None => true end.

(** A dispatch has called the timers [called] and has still to call [rest]. *)
Definition dispatching (B : gmap Z Timer) (called rest : list Timer) (s : System) : Prop :=
  callingExpiredTimers_ (queue_ s) = negb (idle s) ∧
  match firing_ s with
  | None => B = ∅ ∧ called = [] ∧ rest = []
  | Some d => 0 < now_ d ∧ expired_ d = entry_of <$> called ++ rest ∧ todo_ d = entry_of <$> rest ∧
      NoDup (sequence_ <$> called ++ rest) ∧
      (∀ t, t ∈ called ++ rest → B !! sequence_ t = Some t ∧ expiration_ t ≤ now_ d) ∧
      dom B = list_to_set (sequence_ <$> called ++ rest) ∧ (∀ t, t ∈ called → (now_ d, t) ∈ log_ s)
  end.

(** [m]: the scheduled timers; [B]: those being dispatched. *)
Record machine (m B : gmap Z Timer) (called rest : list Timer) (s : System) : Prop := mkMachine {
  mc_loop : EventLoop.reachable (loop_ s);
  mc_channel : wakeupChannel_ (loop_ s) ≠ timerChannel_ s;
  mc_position : firing_ s ≠ None → ∃ l, position_ (loop_ s) = Handling l;
  mc_queue : inv m B (queue_ s);
  mc_pending : pending_ (queue_ s) = [];
  mc_max : numCreated_ (queue_ s) ≤ max_sequence;
  mc_armed : armed (idle s) (queue_ s);
  mc_dispatch : dispatching B called rest s;
  mc_coming : coming_ok (coming s) (queue_ s);
  mc_jobs : ∀ f k, jobs_ s !! f = Some k → f ∈ queued_ (loop_ s);
  mc_cancels : ∀ i, FCancel i ∈ coming s → id_sequence i ∈ cancels_ s;
  mc_canceling : firing_ s ≠ None → cancelingTimers_ (queue_ s) ⊆ cancels_ s;
  mc_history : history (alive s) (made_ s) (numCreated_ (queue_ s)) (cancels_ s) called (time s) (log_ s)
}.

(** *** The functors on their way *)

Lemma pending_adds_perm l l' : l ≡ₚ l' → pending_adds l ≡ₚ pending_adds l'.
Proof. apply omap_Permutation. Qed.

Lemma coming_ok_perm l l' q : l ≡ₚ l' → coming_ok l q → coming_ok l' q.
Proof. intros Hp [H1 H2]. split; [intros t; rewrite <- Hp; apply H1|]. by rewrite <- (pending_adds_perm l l'). Qed.

Lemma timer_ok_mono n n' t : n ≤ n' → timer_ok n t → timer_ok n' t.
Proof. intros Hn [? ?]. split; [lia|done]. Qed.

(** The queue changes: none of the functors' timers comes into it. *)
Lemma coming_ok_queue l q q' :
  (∀ t, FAdd t ∈ l → timerOwners_ q !! sequence_ t = None → timerOwners_ q' !! sequence_ t = None) →
  numCreated_ q ≤ numCreated_ q' → coming_ok l q → coming_ok l q'.
Proof.
  intros Ho Hn [H1 H2]. split; [|done]. intros t Ht. destruct (H1 t Ht) as [? ?]. split; [by apply Ho|].
  by eapply timer_ok_mono.
Qed.

Lemma coming_ok_add t l q :
  coming_ok l q → timerOwners_ q !! sequence_ t = None → timer_ok (numCreated_ q) t → sequence_ t ∉ pending_adds l →
  coming_ok (FAdd t :: l) q.
Proof.
  intros [H1 H2] Ho Ht Hf. split; [|cbn; by constructor]. by intros t' [[= ->]|?]%elem_of_cons; [|apply H1].
Qed.

Lemma coming_ok_cancel i l q : coming_ok l q → coming_ok (FCancel i :: l) q.
Proof. intros [H1 H2]. split; [|done]. by intros t' [?|?]%elem_of_cons; [|apply H1]. Qed.

Lemma coming_ok_tail k l q : coming_ok (k :: l) q → coming_ok l q.
Proof.
  intros [H1 H2]. split; [intros t Ht; apply H1; by right|]. destruct k; cbn in H2; [by apply NoDup_cons in H2 as [_ ?]|done].
Qed.

(** The timers of the queue. *)
Lemma coming_fresh l t t' : coming_ok (FAdd t :: l) t' → ∀ x, FAdd x ∈ l → sequence_ x ≠ sequence_ t.
Proof.
  intros [_ H] x Hx Heq. cbn in H. apply NoDup_cons in H as [H _]. apply H. rewrite <- Heq. by apply elem_of_pending_adds.
Qed.

Lemma omap_insert_fresh (j : gmap Z functor) f k (l : list Z) : f ∉ l → omap (λ x, <[f := k]> j !! x) l = omap (λ x, j !! x) l.
Proof.
  intros Hf. induction l as [|x l IH]; [done|]. apply not_elem_of_cons in Hf as [Hx Hl]. cbn. rewrite lookup_insert_ne by done. by rewrite IH.
Qed.

Lemma omap_no_job (j : gmap Z functor) (l : list Z) : (∀ f, f ∈ l → j !! f = None) → omap (λ x, j !! x) l = [].
Proof.
  induction l as [|x l IH]; intros H; [done|]. cbn. rewrite (H x) by (by left). apply IH. intros f Hf. apply H. by right.
Qed.

(** *** Steps of the loop *)

Lemma fifo_queued l : EventLoop.reachable l → queued_ l = EventLoop.ran_ l ++ batch_ l ++ pendingFunctors_ l.
Proof. intros Hr. apply (li_fifo l). by apply linv_reachable. Qed.

(** What of the loop the functors on their way depend on. *)
Lemma waiting_loop s l' q' :
  EventLoop.reachable (loop_ s) → EventLoop.reachable l' → EventLoop.ran_ l' = EventLoop.ran_ (loop_ s) →
  queued_ l' = queued_ (loop_ s) ++ q' →
  waiting (with_loop l' s) = waiting s ++ omap (λ f, jobs_ s !! f) q'.
Proof.
  intros H H' Hran Hq. unfold waiting. cbn. rewrite <- omap_app. f_equal. apply (app_inv_head (EventLoop.ran_ l')).
  rewrite <- (fifo_queued l' H'), Hq, Hran, (fifo_queued (loop_ s)) by done. by rewrite <- !app_assoc.
Qed.

Lemma machine_loop m B called rest l' s q' :
  machine m B called rest s → EventLoop.reachable l' → wakeupChannel_ l' = wakeupChannel_ (loop_ s) →
  EventLoop.ran_ l' = EventLoop.ran_ (loop_ s) → queued_ l' = queued_ (loop_ s) ++ q' →
  (∀ f, f ∈ q' → jobs_ s !! f = None) → (firing_ s ≠ None → ∃ x, position_ l' = Handling x) →
  machine m B called rest (with_loop l' s).
Proof.
  intros [] Hr Hw Hran Hq Hnj Hp. pose proof (waiting_loop s l' q' mc_loop0 Hr Hran Hq) as Hwait.
  rewrite (omap_no_job _ _ Hnj), app_nil_r in Hwait.
  assert (coming (with_loop l' s) = coming s) as Hcom by (unfold coming; by rewrite Hwait).
  split; cbn; rewrite ?Hw, ?Hcom; try done.
  - intros f k Hf. rewrite Hq. apply elem_of_app. left. by eapply mc_jobs0.
  - eapply history_ext; [exact mc_history0|]. intros t. unfold alive. by rewrite Hcom.
Qed.

(** What a step leaves of the timers: none comes back, and only timers that
    are on their way or scheduled are called. *)
Definition goes_on (s s' : System) : Prop :=
  (∀ t, alive s' t → (∃ t', alive s t' ∧ sequence_ t' = sequence_ t) ∨ made_ s !! sequence_ t = None) ∧
  (∀ n t, (n, t) ∈ log_ s' → (n, t) ∈ log_ s ∨ alive s t) ∧ (∀ k t, made_ s !! k = Some t → made_ s' !! k = Some t).

Lemma goes_on_same s s' :
  (∀ t, alive s' t → alive s t) → log_ s' = log_ s → made_ s' = made_ s → goes_on s s'.
Proof. intros H Hl Hm. unfold goes_on. rewrite Hl, Hm. split_and!; [|by auto|done]. intros t Ht. left. exists t. by auto. Qed.

Lemma queueInLoop_keeps tid f l :
  wakeupChannel_ (queueInLoop tid f l) = wakeupChannel_ l ∧ EventLoop.ran_ (queueInLoop tid f l) = EventLoop.ran_ l ∧
  queued_ (queueInLoop tid f l) = queued_ l ++ [f] ∧ position_ (queueInLoop tid f l) = position_ l ∧
  batch_ (queueInLoop tid f l) = batch_ l ∧ pendingFunctors_ (queueInLoop tid f l) = pendingFunctors_ l ++ [f].
Proof.
  unfold queueInLoop, queue_push. destruct (must_wakeup _ _); [|done]. destruct (isInLoopThread _ _); [|done].
  destruct (wakeup_fields (add_queued l f)) as (n & -> & _). done.
Qed.

Lemma quit_keeps tid l :
  wakeupChannel_ (quit tid l) = wakeupChannel_ l ∧ EventLoop.ran_ (quit tid l) = EventLoop.ran_ l ∧
  queued_ (quit tid l) = queued_ l ∧ position_ (quit tid l) = position_ l.
Proof. unfold quit. by destruct (isInLoopThread _ _). Qed.

Section Steps.
Context (clock : nat → Z).
Hypothesis clock_pos : ∀ n, 0 < clock n.

(** A step of the loop that leaves the functors alone, or enters some that are
    not ours. *)
Lemma to_loop_ok m B called rest l' s q' :
  machine m B called rest s → EventLoop.step (loop_ s) l' ∨ EventLoop.step_timeout (loop_ s) l' →
  wakeupChannel_ l' = wakeupChannel_ (loop_ s) ∧ EventLoop.ran_ l' = EventLoop.ran_ (loop_ s) ∧
    queued_ l' = queued_ (loop_ s) ++ q' →
  (∀ f, f ∈ q' → jobs_ s !! f = None) → (firing_ s ≠ None → ∃ x, position_ l' = Handling x) →
  ensures (to_loop l' s) (λ s', machine m B called rest s' ∧ goes_on s s' ∧ coming s' = coming s).
Proof using Type.
  intros M Hst (Hw & Hr & Hq) Hnj Hp. cbn.
  assert (EventLoop.reachable l') as Hre.
  { destruct Hst; [eapply EventLoop.reach_step|eapply EventLoop.reach_timeout]; try done; apply M. }
  assert (coming (with_loop l' s) = coming s) as Hcom.
  { unfold coming. rewrite (waiting_loop s l' q'), (omap_no_job _ _ Hnj), app_nil_r; try done. apply M. }
  split_and!; [by eapply machine_loop| |done]. apply goes_on_same; [|done|done].
  intros t. unfold alive. by rewrite Hcom.
Qed.

Definition loop_event (e : event) : Prop :=
  match e with
  | Start | Test | Polled _ | Timeout | Handle _ _ | Handled | FunctorsDone
  | UserQueue _ | UserQuit | OtherQueue _ _ | OtherQuit _ | OtherWakeup _ => True
  | _ => False
  end.

(** The goals of [to_loop_ok] for a step that queues nothing. *)
Ltac queues_nothing := apply (to_loop_ok _ _ _ _ _ _ []); cbn; rewrite ?app_nil_r; try done; try (by intros ? ?%elem_of_nil).

Lemma loop_event_ok m B called rest e s :
  machine m B called rest s → loop_event e → enabled e s →
  ensures (perform clock e s) (λ s', machine m B called rest s' ∧ goes_on s s' ∧ coming s' = coming s).
Proof using Type.
  intros M He Hen. pose proof (linv_reachable _ (mc_loop _ _ _ _ _ M)) as Hl.
  assert (∀ p, position_ (loop_ s) = p → (∀ x, p ≠ Handling x) → firing_ s = None) as Hidle.
  { intros p Hp Hne. destruct (firing_ s) eqn:E; [|done]. destruct (mc_position _ _ _ _ _ M) as [x Hx]; [congruence|]. by destruct (Hne x); congruence. }
  destruct e; try done; cbn [perform enabled] in *; unfold no_job in *.
  - destruct (loop_start (threadId_ (loop_ s)) (loop_ s)) as [l'|] eqn:E;
      pose proof E as E'; unfold loop_start, assertInLoopThread, isInLoopThread in E'; rewrite Hen, Z.eqb_refl in E'; [|done].
    injection E' as <-. cbn [obind]. queues_nothing; [left; by apply step_start|]. rewrite (Hidle _ eq_refl); [done|].
    intros x Hx. pose proof (li_looping _ Hl) as H. rewrite Hx in H. congruence.
  - queues_nothing; [left; by apply step_test|unfold loop_test; by destruct (quit_ _)|].
    by rewrite (Hidle _ Hen).
  - destruct Hen as (Hp & Hne & Hr & _). queues_nothing; [left; by apply step_polled|eauto].
  - destruct Hen as (Hp & Hz & _). queues_nothing; [by right|eauto].
  - destruct Hen as (Hp & Hc & Hf). queues_nothing; [left; by apply step_handle|unfold loop_handle; by destruct (_ =? _)].
  - destruct Hen as (Hp & Hf). queues_nothing. left. by apply step_handled.
  - destruct Hen as (Hp & Hb). queues_nothing; [left; by apply step_functors_done|]. by rewrite (Hidle _ Hp).
  - destruct Hen as (Hu & Hj). destruct (queueInLoop_keeps (threadId_ (loop_ s)) f (loop_ s)) as (H1 & H2 & H3 & H4 & _).
    apply (to_loop_ok _ _ _ _ _ _ [f]); rewrite ?H4; try done; [left; by apply step_user_queue| |apply M].
    by intros x ->%list_elem_of_singleton.
  - destruct (quit_keeps (threadId_ (loop_ s)) (loop_ s)) as (H1 & H2 & H3 & H4).
    apply (to_loop_ok _ _ _ _ _ _ []); rewrite ?app_nil_r, ?H4; try done; [left; by apply step_user_quit|by intros f ?%elem_of_nil|apply M].
  - destruct Hen as (Hu & Hj). destruct (queueInLoop_keeps tid f (loop_ s)) as (H1 & H2 & H3 & H4 & _).
    apply (to_loop_ok _ _ _ _ _ _ [f]); rewrite ?H4; try done; [left; by apply step_other_queue| |apply M].
    by intros x ->%list_elem_of_singleton.
  - destruct (quit_keeps tid (loop_ s)) as (H1 & H2 & H3 & H4).
    apply (to_loop_ok _ _ _ _ _ _ []); rewrite ?app_nil_r, ?H4; try done; [left; by apply step_other_quit|by intros f ?%elem_of_nil|apply M].
  - destruct (wakeup_fields (set_wakers (loop_ s) n)) as (k & Hk & _). pose proof (step_other_wakeup _ _ Hen) as Hst. rewrite Hk in *.
    queues_nothing; [by left|apply M].
Qed.

(** *** Steps that make or enter timers *)

Lemma owners_insert t (m m' : gmap Z Timer) x :
  m !! sequence_ t = None → m' = <[sequence_ t := t]> m →
  m' !! sequence_ x = Some x ↔ x = t ∨ m !! sequence_ x = Some x.
Proof using Type.
  intros Hn ->. rewrite lookup_insert_Some. split; [naive_solver|]. intros [->|Hx]; [by left|].
  right. split; [congruence|done].
Qed.

Lemma history_range m B called rest s k t :
  machine m B called rest s → made_ s !! k = Some t → k ≤ numCreated_ (queue_ s).
Proof using Type. intros M Hk. destruct (hi_range _ _ _ _ _ _ _ (mc_history _ _ _ _ _ M) k t Hk). lia. Qed.

(** Dispatching, when what it depends on has stayed. *)
Lemma dispatching_same B called rest s s' :
  dispatching B called rest s → callingExpiredTimers_ (queue_ s') = callingExpiredTimers_ (queue_ s) →
  firing_ s' = firing_ s → log_ s' = log_ s → dispatching B called rest s'.
Proof using Type. unfold dispatching, idle. by intros H -> -> ->. Qed.

Lemma user_add_ok m B called rest cb when interval s :
  machine m B called rest s → enabled (UserAdd cb when interval) s →
  ensures (user_add clock cb when interval s) (λ s', goes_on s s' ∧
    machine (<[numCreated_ (queue_ s) + 1 := newTimer cb when interval (numCreated_ (queue_ s))]> m) B called rest s').
Proof using Type.
  intros M (Hu & Hc). pose proof M as []. unfold user_add. set (t := newTimer cb when interval (numCreated_ (queue_ s))).
  destruct (newTimer_ok m B (queue_ s) cb when interval mc_queue0) as (Hnew & _ & _). change (sequence_ _) with (sequence_ t) in Hnew.
  eapply ensures_bind; [by apply (addTimer_here_ok clock m B)|].
  intros [i q] (_ & Hi & (Hcall & Hn & Hp & Hr) & Hcs & Ha). cbn [ensures]. set (s' := with_queue q (add_made t s)).
  change (newTimer _ _ _ _) with t in Hi. cbn [set_created callingExpiredTimers_ numCreated_ pending_] in Hcall, Hn, Hp.
  assert (timerOwners_ q = <[sequence_ t := t]> (timerOwners_ (queue_ s))) as Ho.
  { rewrite (i_owners _ _ _ Hi), (i_owners _ _ _ mc_queue0). by rewrite insert_union_l. }
  assert (timerOwners_ (queue_ s) !! sequence_ t = None) as Hnone by by rewrite (i_owners _ _ _ mc_queue0).
  assert (∀ x, alive s' x ↔ x = t ∨ alive s x) as Hal.
  { intros x. unfold alive. change (coming s') with (coming s). cbn [queue_ s' with_queue with_timers].
    rewrite (owners_insert t _ _ x Hnone Ho). naive_solver. }
  split.
  - split_and!; [|by left|].
    + intros x [->|Hx]%Hal; [right|left; eauto].
      destruct (made_ s !! sequence_ t) as [y|] eqn:E; [|done]. pose proof (history_range _ _ _ _ _ _ _ M E). cbn in *. lia.
    + intros k y Hk. cbn. rewrite lookup_insert_ne; [done|]. intros <-. pose proof (history_range _ _ _ _ _ _ _ M Hk). cbn in *. lia.
  - split; try done; cbn [s' with_queue with_timers add_made queue_ loop_ jobs_ cancels_ firing_ made_ log_].
    + congruence.
    + rewrite Hn. unfold counts in Hc. lia.
    + by apply Ha.
    + by eapply dispatching_same.
    + change (coming s') with (coming s). apply (coming_ok_queue _ (queue_ s)); [|rewrite Hn; lia|done].
      intros x Hx Hxo. rewrite Ho, lookup_insert_ne; [done|]. intros Heq.
      destruct (proj1 mc_coming0 x Hx) as [_ [? _]]. cbn in Heq. lia.
    + intros Hf. rewrite Hcs. by apply mc_canceling0.
    + apply (history_new (alive s) _ _ (numCreated_ (queue_ s))); try done. apply mc_queue0.
Qed.

(** A functor enters a timer. *)
Lemma functor_add_ok m B t l q :
  inv m B q → pending_ q = [] → coming_ok (FAdd t :: l) q →
  ensures (addTimerInLoop clock t q) (λ q', inv (<[sequence_ t := t]> m) B q' ∧ same_rest q q' ∧
    cancelingTimers_ q' = cancelingTimers_ q ∧ (∀ idle, armed idle q → armed idle q') ∧
    timerOwners_ q' = <[sequence_ t := t]> (timerOwners_ q) ∧ coming_ok l q').
Proof using Type.
  intros Hi Hp Hc. destruct (proj1 Hc t ltac:(by left)) as [Hn Ht].
  eapply ensures_mono; [apply (addTimerInLoop_ok clock m B); try done; rewrite Hp; apply not_elem_of_nil|].
  intros q' (Hi' & Hs & Hcs & Ha).
  assert (timerOwners_ q' = <[sequence_ t := t]> (timerOwners_ q)) as Ho.
  { rewrite (i_owners _ _ _ Hi'), (i_owners _ _ _ Hi). by rewrite insert_union_l. }
  split_and!; try done. pose proof Hs as (_ & Hs2 & _). apply (coming_ok_queue _ q); [|rewrite Hs2; lia|by eapply coming_ok_tail].
  intros x Hx Hxo. rewrite Ho, lookup_insert_ne; [done|]. intros Heq. by eapply (coming_fresh l t q Hc x Hx).
Qed.

(** Cancelling takes a scheduled timer out, and no other. *)
Lemma cancel_ok m B i q :
  inv m B q →
  ensures (cancelInLoop i q) (λ q', inv (delete (id_sequence i) m) B q' ∧ same_rest q q' ∧
    cancelingTimers_ q' ⊆ {[id_sequence i]} ∪ cancelingTimers_ q ∧ (∀ idle, armed idle q → armed idle q') ∧
    (∀ k, timerOwners_ q !! k = None → timerOwners_ q' !! k = None) ∧
    (∀ x, timerOwners_ q' !! sequence_ x = Some x → timerOwners_ q !! sequence_ x = Some x) ∧
    (∀ x, timerOwners_ q !! sequence_ x = Some x → timerOwners_ q' !! sequence_ x = Some x ∨ sequence_ x = id_sequence i)).
Proof using Type.
  clear clock_pos. intros Hi. eapply ensures_mono; [by apply (cancelInLoop_ok m B)|].
  intros q' (Hi' & Hs & Hcs & Ha). rewrite (i_owners _ _ _ Hi), (i_owners _ _ _ Hi').
  assert (∀ k, k ≠ id_sequence i → (delete (id_sequence i) m ∪ B) !! k = (m ∪ B) !! k) as Hne.
  { intros k Hk. rewrite !lookup_union. by rewrite lookup_delete_ne. }
  split_and!; try done.
  - rewrite Hcs. destruct (_ || _ || _); set_solver.
  - intros k [Hm HB]%lookup_union_None. apply lookup_union_None. split; [|done]. apply lookup_delete_None. by right.
  - intros x Hx. destruct (decide (sequence_ x = id_sequence i)) as [Heq|Hk]; [|by rewrite <- Hne].
    rewrite Heq in *. apply lookup_union_Some in Hx as [Hx|Hx]; [by rewrite lookup_delete_eq in Hx| |].
    + apply lookup_union_Some_r; [apply Hi|done].
    + apply map_disjoint_delete_l. apply Hi.
  - intros x Hx. destruct (decide (sequence_ x = id_sequence i)) as [Heq|Hk]; [by right|left]. by rewrite Hne.
Qed.

Lemma user_cancel_ok m B called rest i s :
  machine m B called rest s →
  ensures (user_cancel clock i s) (λ s', goes_on s s' ∧ machine (delete (id_sequence i) m) B called rest s').
Proof using Type.
  clear clock_pos. intros M. pose proof M as []. unfold user_cancel, TimerQueue.cancel, TimerQueue.runInLoop, runFunctor.
  eapply ensures_bind; [by apply (cancel_ok m B)|].
  intros q (Hi & (Hcall & Hn & Hp & Hr) & Hcs & Ha & Ho1 & Ho2 & Ho3). cbn [ensures]. set (s' := with_queue q (add_cancel i s)).
  assert (∀ x, alive s' x → alive s x) as Hal by (intros x [?|?]; [by left|right; by apply Ho2]).
  split; [by apply goes_on_same|].
  split; try done; cbn [s' with_queue with_timers add_cancel queue_ loop_ jobs_ cancels_ firing_ made_ log_].
  - congruence.
  - by rewrite Hn.
  - by apply Ha.
  - by eapply dispatching_same.
  - change (coming s') with (coming s). apply (coming_ok_queue _ (queue_ s)); [by auto|rewrite Hn; lia|done].
  - intros j Hj. apply elem_of_union. right. by apply mc_cancels0.
  - intros Hf. specialize (mc_canceling0 Hf). set_solver.
  - rewrite Hn. apply (history_gone (alive s) _ _ _ (cancels_ s)); [done|set_solver|done|].
    intros x [Hx|Hx]; [left; by left|]. destruct (Ho3 x Hx) as [?|Heq]; [left; by right|right; set_solver].
Qed.

(** *** Functors *)

Definition job (f : Z) (s : System) : list functor := match jobs_ s !! f with Some k => [k] | None => [] end.

Lemma functor_coming f l s :
  EventLoop.reachable (loop_ s) → position_ (loop_ s) = InFunctors → batch_ (loop_ s) = f :: l →
  EventLoop.reachable (functors_next f l (loop_ s)) ∧
  coming s = job f s ++ coming (with_loop (functors_next f l (loop_ s)) s).
Proof using Type.
  intros Hr Hp Hb. split; [eapply EventLoop.reach_step; [done|by apply step_functor]|].
  unfold coming, waiting, job. cbn. rewrite Hb. cbn. by destruct (jobs_ s !! f).
Qed.

Definition no_cancel (k : Z) (s : System) : Prop := ∀ i, FCancel i ∈ coming s → id_sequence i ≠ k.

Lemma addTimerInLoop_samples t q q' : addTimerInLoop clock t q = Ok q' → (samples_ q ≤ samples_ q')%nat.
Proof using Type.
  unfold addTimerInLoop. intros H. apply ok_bind_inv in H as (_ & _ & H). apply ok_bind_inv in H as ([e q1] & H1 & H).
  apply ok_bind_inv in H as (_ & _ & H). unfold insertTimer in H1. apply ok_bind_inv in H1 as (_ & _ & H1).
  destruct (set_insert _ _) as [b l]. repeat (apply ok_bind_inv in H1 as (_ & _ & H1)). injection H1 as <- <-.
  destruct (match timers_ q with [] => true | first :: _ => expiration_ t <? first.1 end);
    unfold resetTimerfd in H; cbn in H; injection H as <-; cbn; lia.
Qed.

Lemma cancelInLoop_samples i q q' : cancelInLoop i q = Ok q' → samples_ q' = samples_ q.
Proof using Type.
  unfold cancelInLoop. intros H. apply ok_bind_inv in H as (_ & _ & H). destruct (negb _); [by injection H as <-|].
  apply ok_bind_inv in H as (q1 & H1 & H). apply ok_bind_inv in H as (_ & _ & H). injection H as <-.
  destruct (decide _); [|destruct (callingExpiredTimers_ q); by injection H1 as <-].
  destruct (timerOwners_ q !! _); [|done]. destruct (set_erase _ _) as [n l]. apply ok_bind_inv in H1 as (_ & _ & H1). by injection H1 as <-.
Qed.

(** What a functor leaves. *)
Definition functor_ran (f : Z) (l : list Z) (s s' : System) : Prop :=
  loop_ s' = functors_next f l (loop_ s) ∧ firing_ s' = firing_ s ∧ log_ s' = log_ s ∧ hands_ s' = hands_ s ∧
  (samples_ (queue_ s) ≤ samples_ (queue_ s'))%nat ∧ coming s = job f s ++ coming s' ∧
  (∀ x, alive s x → no_cancel (sequence_ x) s → alive s' x).

Lemma run_functor_ok m B called rest f l s :
  machine m B called rest s → enabled (Functor f l) s →
  ensures (run_functor clock f l s) (λ s', (goes_on s s' ∧ ∃ m', machine m' B called rest s') ∧ functor_ran f l s s').
Proof using Type.
  clear clock_pos. intros M (Hp & Hb). pose proof M as []. destruct (functor_coming f l s mc_loop0 Hp Hb) as [Hre Hcom].
  unfold run_functor, functor_ran. set (s1 := with_loop (functors_next f l (loop_ s)) s) in *.
  assert (firing_ s ≠ None → ∃ x, position_ (loop_ s1) = Handling x) as Hpos1 by exact mc_position0.
  unfold job in *. destruct (jobs_ s !! f) as [[t|i]|] eqn:Hj; cbn [app] in *.
  - assert (coming_ok (FAdd t :: coming s1) (queue_ s)) as Hc1 by (by rewrite <- Hcom).
    eapply ensures_bind; [apply ensures_self, (functor_add_ok m B t (coming s1)); done|].
    intros q ((Hi & (Hcall & Hn & Hpd & Hr) & Hcs & Ha & Ho & Hc) & Hq). change (queue_ s1) with (queue_ s) in *. cbn [ensures]. set (s' := with_queue q s1).
    assert (∀ x, alive s' x ↔ alive s x) as Hal.
    { intros x. unfold alive. change (coming s') with (coming s1). cbn [queue_ s' with_queue with_timers].
      rewrite Hcom, elem_of_cons. rewrite (owners_insert t _ _ x (proj1 (proj1 Hc1 t ltac:(by left))) Ho). naive_solver. }
    split_and!; try done; [apply goes_on_same; try done; intros x; apply Hal| | |by intros x Hx _; apply Hal].
    + exists (<[sequence_ t := t]> m). split; try done; cbn [s' with_queue with_timers queue_].
      * congruence.
      * by rewrite Hn.
      * by apply Ha.
      * by eapply dispatching_same.
      * intros j Hji. apply mc_cancels0. rewrite Hcom. by right.
      * intros Hf. rewrite Hcs. by apply mc_canceling0.
      * rewrite Hn. by eapply history_ext.
    + by eapply addTimerInLoop_samples.
  - eapply ensures_bind; [apply ensures_self; by apply (cancel_ok m B)|].
    intros q ((Hi & (Hcall & Hn & Hpd & Hr) & Hcs & Ha & Ho1 & Ho2 & Ho3) & Hq). change (queue_ s1) with (queue_ s) in *. cbn [ensures]. set (s' := with_queue q s1).
    assert (id_sequence i ∈ cancels_ s) as Hic by (apply mc_cancels0; rewrite Hcom; by left).
    assert (∀ x, alive s' x → alive s x) as Hal.
    { intros x [Hx|Hx]; [left; rewrite Hcom; by right|right; by apply Ho2]. }
    assert (∀ x, alive s x → alive s' x ∨ sequence_ x = id_sequence i) as Hal'.
    { intros x [Hx|Hx]; [left; left; rewrite Hcom in Hx; by apply elem_of_cons in Hx as [?|?]|].
      destruct (Ho3 x Hx) as [?|?]; [left; by right|by right]. }
    split_and!; try done; [by apply goes_on_same| |by apply Nat.eq_le_incl, eq_sym, (cancelInLoop_samples i)|].
    + exists (delete (id_sequence i) m). split; try done; cbn [s' with_queue with_timers queue_].
      * congruence.
      * by rewrite Hn.
      * by apply Ha.
      * by eapply dispatching_same.
      * change (coming s') with (coming s1). apply (coming_ok_queue _ (queue_ s)); [by auto|rewrite Hn; lia|].
        eapply coming_ok_tail. by rewrite <- Hcom.
      * intros j Hji. apply mc_cancels0. rewrite Hcom. by right.
      * intros Hf. specialize (mc_canceling0 Hf). set_solver.
      * rewrite Hn. apply (history_gone (alive s) _ _ _ (cancels_ s)); [done|done|done|].
        intros x Hx. destruct (Hal' x Hx) as [?|Heq]; [by left|right]. cbn. by rewrite Heq.
    + intros x Hx Hnc. destruct (Hal' x Hx) as [?|Heq]; [done|]. by destruct (Hnc i); [rewrite Hcom; left|].
  - assert (∀ x, alive s1 x ↔ alive s x) as Hal by (intros x; unfold alive; by rewrite Hcom).
    cbn [ensures]. split_and!; try done; [apply goes_on_same; try done; intros x; apply Hal| |by intros x Hx _; apply Hal].
    exists m. split; try done; [by rewrite <- Hcom|by rewrite <- Hcom|by eapply history_ext].
Qed.

(** *** Other threads *)

Lemma other_make_ok m B called rest cb when interval s :
  machine m B called rest s → counts s →
  goes_on s (other_make cb when interval s) ∧ machine m B called rest (other_make cb when interval s).
Proof using Type.
  intros M Hc. pose proof M as []. unfold other_make. set (t := newTimer cb when interval (numCreated_ (queue_ s))).
  destruct (newTimer_ok m B (queue_ s) cb when interval mc_queue0) as (Hnew & Hok & _). change (sequence_ _) with (sequence_ t) in Hnew.
  set (s' := with_hands _ _).
  assert (coming s' = coming s ++ [FAdd t]) as Hcom by (unfold coming; cbn; by rewrite fmap_app, app_assoc).
  assert (∀ x, alive s' x ↔ x = t ∨ alive s x) as Hal.
  { intros x. unfold alive. rewrite Hcom, elem_of_app, list_elem_of_singleton. cbn [queue_ s' with_hands add_made with_timers].
    split; [intros [[?|[= ->]]|?]; auto|intros [->|[?|?]]; auto]. }
  split.
  - split_and!; [|by left|].
    + intros x [->|Hx]%Hal; [right|left; eauto].
      destruct (made_ s !! sequence_ t) as [y|] eqn:E; [|done]. pose proof (history_range _ _ _ _ _ _ _ M E). cbn in *. lia.
    + intros k y Hk. cbn. rewrite lookup_insert_ne; [done|]. intros <-. pose proof (history_range _ _ _ _ _ _ _ M Hk). cbn in *. lia.
  - split; try done; cbn [s' with_hands add_made with_timers queue_ loop_ jobs_ cancels_ firing_ made_ log_ sequence_ t newTimer].
    + by apply inv_created.
    + cbn. unfold counts in Hc. lia.
    + eapply (coming_ok_perm (FAdd t :: coming s)); [rewrite Hcom; apply Permutation_cons_append|].
      apply coming_ok_add; [|by rewrite <- (i_owners _ _ _ mc_queue0) in Hnew|done|].
      * apply (coming_ok_queue _ (queue_ s)); [done|cbn; lia|done].
      * intros Hin. apply list_elem_of_omap in Hin as ([x|] & Hx & [= Hs]). destruct (proj1 mc_coming0 x Hx) as [_ [? _]]. cbn in Hs. lia.
    + rewrite Hcom. by intros i [?|?%list_elem_of_singleton]%elem_of_app; [apply mc_cancels0|].
    + apply (history_new (alive s) _ _ (numCreated_ (queue_ s))); try done. apply mc_queue0.
Qed.

(** A functor of ours enters the loop's queue. *)
Lemma waiting_job tid f k s :
  EventLoop.reachable (loop_ s) → EventLoop.reachable (queueInLoop tid f (loop_ s)) → new_name f s →
  waiting (with_job f k (with_loop (queueInLoop tid f (loop_ s)) s)) = waiting s ++ [k].
Proof using Type.
  intros Hr _ Hf. destruct (queueInLoop_keeps tid f (loop_ s)) as (_ & _ & _ & _ & Hb & Hp).
  unfold waiting. cbn. rewrite Hb, Hp, app_assoc, omap_app. cbn. rewrite lookup_insert_eq. f_equal.
  apply omap_insert_fresh. intros Hin. apply Hf. rewrite fifo_queued by done. apply elem_of_app. by right.
Qed.

Lemma other_step s tid f : EventLoop.reachable (loop_ s) → tid ≠ threadId_ (loop_ s) → EventLoop.reachable (queueInLoop tid f (loop_ s)).
Proof using Type. intros Hr Ht. eapply EventLoop.reach_step; [done|by apply step_other_queue]. Qed.

Lemma jobs_named f k s q :
  (∀ f k, jobs_ s !! f = Some k → f ∈ queued_ (loop_ s)) → queued_ q = queued_ (loop_ s) ++ [f] →
  ∀ f' k', <[f := k]> (jobs_ s) !! f' = Some k' → f' ∈ queued_ q.
Proof using Type.
  intros H -> f' k' [[<- _]|[_ Hj]]%lookup_insert_Some; apply elem_of_app; [right; by apply list_elem_of_singleton|left; eauto].
Qed.

Lemma other_add_ok m B called rest tid f n t s :
  machine m B called rest s → enabled (OtherAdd tid f n t) s →
  goes_on s (other_add tid f n t s) ∧ machine m B called rest (other_add tid f n t s) ∧ coming (other_add tid f n t s) ≡ₚ coming s.
Proof using Type.
  intros M (Ht & Hf & Hh). pose proof M as [].
  pose proof (other_step s tid f mc_loop0 Ht) as Hre. destruct (queueInLoop_keeps tid f (loop_ s)) as (H1 & H2 & H3 & H4 & _).
  set (s' := other_add tid f n t s).
  assert (coming s' ≡ₚ coming s) as Hcom.
  { unfold coming. change (waiting s') with (waiting (with_job f (FAdd t) (with_loop (queueInLoop tid f (loop_ s)) s))).
    rewrite waiting_job by done. rewrite <- app_assoc. apply Permutation_app_head.
    change (FAdd <$> t :: delete n (hands_ s) ≡ₚ FAdd <$> hands_ s). apply fmap_Permutation. symmetry. by apply delete_Permutation. }
  assert (∀ x, alive s' x ↔ alive s x) as Hal by (intros x; unfold alive; by rewrite Hcom).
  split_and!; [apply goes_on_same; try done; intros x; apply Hal| |done].
  split; try done; cbn [s' other_add with_hands with_job with_loop queue_ loop_ jobs_ cancels_ firing_ made_ log_ timerChannel_].
  - by rewrite H1.
  - by rewrite H4.
  - by eapply coming_ok_perm.
  - by eapply jobs_named.
  - intros i. rewrite Hcom. apply mc_cancels0.
  - by eapply history_ext.
Qed.

Lemma other_cancel_ok m B called rest tid f i s :
  machine m B called rest s → enabled (OtherCancel tid f i) s →
  goes_on s (other_cancel tid f i s) ∧ machine m B called rest (other_cancel tid f i s).
Proof using Type.
  intros M (Ht & Hf). pose proof M as [].
  pose proof (other_step s tid f mc_loop0 Ht) as Hre. destruct (queueInLoop_keeps tid f (loop_ s)) as (H1 & H2 & H3 & H4 & _).
  set (s' := other_cancel tid f i s).
  assert (coming s' ≡ₚ FCancel i :: coming s) as Hcom.
  { unfold coming. change (waiting s') with (waiting (with_job f (FCancel i) (with_loop (queueInLoop tid f (loop_ s)) s))).
    rewrite waiting_job by done. cbn. rewrite <- app_assoc. symmetry. apply Permutation_middle. }
  assert (∀ x, alive s' x ↔ alive s x) as Hal.
  { intros x. unfold alive. rewrite Hcom, elem_of_cons. change (queue_ s') with (queue_ s). naive_solver. }
  split; [apply goes_on_same; try done; intros x; apply Hal|].
  split; try done; cbn [s' other_cancel add_cancel with_job with_loop queue_ loop_ jobs_ cancels_ firing_ made_ log_ timerChannel_].
  - by rewrite H1.
  - by rewrite H4.
  - eapply coming_ok_perm; [by symmetry|by apply coming_ok_cancel].
  - by eapply jobs_named.
  - intros j. rewrite Hcom. intros [[= ->]|Hj]%elem_of_cons; apply elem_of_union; [left; by apply elem_of_singleton|right; by apply mc_cancels0].
  - intros Hfr. apply union_subseteq_r', mc_canceling0, Hfr.
  - apply (history_gone (alive s) _ _ _ (cancels_ s)); [done|apply union_subseteq_r|intros x; apply Hal|intros x Hx; left; by apply Hal].
Qed.

(** Foreign timers, the clock and the timerfd. *)
Lemma machine_created m B called rest s :
  machine m B called rest s → counts s →
  machine m B called rest (with_timers (set_created (numCreated_ (queue_ s) + 1) (queue_ s)) (readable_ s) s).
Proof using Type.
  intros M Hc. destruct M. split; try done; cbn.
  - by apply inv_created.
  - unfold counts in Hc. lia.
  - apply (coming_ok_queue _ (queue_ s)); [done|cbn; lia|done].
  - eapply history_more; [done|lia].
Qed.

Lemma machine_clock m B called rest s r :
  machine m B called rest s → machine m B called rest (with_timers (snd (Timestamp_now clock (queue_ s))) r s).
Proof using Type. intros M. destruct M. split; try done; cbn. destruct mc_queue0. split; try done. by eapply side_ext. Qed.

Lemma machine_expire m B called rest s r :
  machine m B called rest s → machine m B called rest (with_timers (queue_ s) r s).
Proof using Type. intros M. by destruct M. Qed.

(** *** The dispatch *)

Lemma history_now A made N cancels now now' log :
  history A made N cancels [] now log → history A made N cancels [] now' log.
Proof using Type.
  intros []. split; try done. intros t n t1 Ht Hin Hs. destruct (hi_ahead0 t n t1 Ht Hin Hs) as [[?%elem_of_nil _]|?]; [done|by right].
Qed.

Lemma due_dom (m : gmap Z Timer) now ts :
  (∀ k t, m !! k = Some t → sequence_ t = k) → (∀ t, t ∈ ts ↔ m !! sequence_ t = Some t ∧ expiration_ t ≤ now) →
  dom (due now m) = list_to_set (sequence_ <$> ts).
Proof using Type.
  intros Hseq Hts. apply set_eq. intros s. rewrite elem_of_dom, elem_of_list_to_set, list_elem_of_fmap. split.
  - intros [t Ht]. apply map_lookup_filter_Some in Ht as [Ht Hle]. exists t.
    pose proof (Hseq _ _ Ht) as <-. split; [done|]. apply Hts. split; [done|lia].
  - intros (t & -> & Ht). exists t. apply map_lookup_filter_Some. apply Hts in Ht as [? ?]. split; [done|lia].
Qed.

Definition fired_now (s : System) : Timestamp := clock (samples_ (queue_ s)).

Lemma getExpired_samples now q ex q' : getExpired now q = Ok (ex, q') → samples_ q' = samples_ q.
Proof using Type.
  unfold getExpired. intros H. apply ok_bind_inv in H as (_ & _ & H). destruct (split_upper_bound _ _) as [l re].
  apply ok_bind_inv in H as (q3 & H3 & H). apply ok_bind_inv in H as (_ & _ & [= _ <-]).
  change (samples_ q) with (samples_ (set_sets re (activeTimers_ q) q)). revert H3.
  generalize (set_sets re (activeTimers_ q) q). induction l as [|x l IH]; intros q1 H; [by injection H as <-|].
  cbn [foldM] in H. apply ok_bind_inv in H as (q4 & H4 & H). apply ok_bind_inv in H4 as (_ & _ & [= <-]). by apply IH in H.
Qed.

Lemma loop_handle_keeps c rest l :
  batch_ (loop_handle c rest l) = batch_ l ∧ pendingFunctors_ (loop_handle c rest l) = pendingFunctors_ l ∧
  queued_ (loop_handle c rest l) = queued_ l ∧ wakeupChannel_ (loop_handle c rest l) = wakeupChannel_ l ∧
  position_ (loop_handle c rest l) = Handling rest.
Proof using Type. unfold loop_handle. by destruct (_ =? _). Qed.

Lemma fire_ok m B called rest l s :
  machine m B called rest s → enabled (Fire l) s →
  ensures (fire clock l s) (λ s', (goes_on s s' ∧ ∃ ts, machine (later (fired_now s) m) (due (fired_now s) m) [] ts s' ∧
      (∀ t, t ∈ ts ↔ timerOwners_ (queue_ s) !! sequence_ t = Some t ∧ expiration_ t ≤ fired_now s)) ∧
    loop_ s' = loop_handle (timerChannel_ s) l (loop_ s) ∧ coming s' = coming s ∧ log_ s' = log_ s ∧
    hands_ s' = hands_ s ∧ time s' = fired_now s ∧ firing_ s' ≠ None ∧
    (samples_ (queue_ s) ≤ samples_ (queue_ s'))%nat ∧ timerOwners_ (queue_ s') = timerOwners_ (queue_ s)).
Proof using clock_pos.
  intros M (Hp & Hf). pose proof M as []. unfold dispatching, idle in *. rewrite Hf in *. destruct mc_dispatch0 as (Hcall0 & -> & -> & ->).
  set (now := fired_now s) in *. pose proof (clock_pos (samples_ (queue_ s))) as Hnow. change (0 < now) in Hnow.
  unfold fire. cbn [Timestamp_now fst snd with_loop queue_ readable_]. change (clock (samples_ (queue_ s))) with now. set (q1 := if readable_ s then _ else _).
  assert (inv m ∅ q1) as Hi1.
  { destruct mc_queue0. unfold q1. destruct (readable_ s); (split; try done; by eapply side_ext). }
  eapply ensures_bind; [apply ensures_self, (getExpired_ok m); [done|by unfold q1; destruct (readable_ s)]|].
  intros [expired q2] ((ts & -> & Hsort & Hts & Hi2 & (Hc2 & Hn2 & Hp2 & Hr2) & Hlate) & Hget). cbn [ensures].
  assert (samples_ q2 = S (samples_ (queue_ s))) as Hsam.
  { rewrite (getExpired_samples _ _ _ _ Hget). unfold q1. by destruct (readable_ s). }
  set (l' := loop_handle (timerChannel_ s) l (loop_ s)).
  assert (EventLoop.reachable l') as Hre by (eapply EventLoop.reach_step; [exact mc_loop0|by apply step_handle]).
  set (s' := with_firing _ _).
  assert (timerOwners_ (queue_ s) = m) as Hom by by rewrite (i_owners _ _ _ mc_queue0), map_union_empty.
  assert (timerOwners_ (queue_ s') = timerOwners_ (queue_ s)) as Ho.
  { change (timerOwners_ q2 = timerOwners_ (queue_ s)). rewrite (i_owners _ _ _ Hi2), Hom. apply later_due. }
  destruct (loop_handle_keeps (timerChannel_ s) l (loop_ s)) as (Hb & Hpd & Hqd & Hw & Hpo). fold l' in Hb, Hpd, Hqd, Hw, Hpo.
  assert (coming s' = coming s) as Hcom by (change (coming s') with (coming (with_loop l' s)); unfold coming, waiting; cbn [with_loop loop_ jobs_ hands_]; by rewrite Hb, Hpd).
  assert (∀ x, alive s' x ↔ alive s x) as Hal by (intros x; unfold alive; by rewrite Hcom, Ho).
  assert (numCreated_ q2 = numCreated_ (queue_ s)) as Hn by (rewrite Hn2; unfold q1; by destruct (readable_ s)).
  assert (∀ k t, m !! k = Some t → sequence_ t = k) as Hseq.
  { intros k t Hk. by destruct (seq_in_range m _ k t mc_queue0 Hk). }
  split_and!; try done; [apply goes_on_same; try done; intros x; apply Hal| |cbn; rewrite Hsam; lia].
  exists ts. split; [|by rewrite Hom].
  split; try done; cbn [s' with_firing with_timers with_loop queue_ loop_ jobs_ cancels_ firing_ made_ log_ timerChannel_].
  - fold l'. by rewrite Hw.
  - intros _. by exists l.
  - destruct Hi2. split; try done. by eapply side_ext.
  - cbn. rewrite Hp2. unfold q1. by destruct (readable_ s).
  - cbn. by rewrite Hn.
  - unfold armed. cbn. destruct (timers_ q2) as [|[e k] tl] eqn:E2; [done|]. left. split; [done|].
    assert (now < fst (e, k)) by (apply Hlate; rewrite ?E2; by left). cbn in *. lia.
  - unfold dispatching. cbn. split; [done|]. split_and!; try done.
    + apply sorted_NoDup, NoDup_fmap_1 in Hsort. apply NoDup_fmap_2_strong; [|done].
      intros t1 t2 [H1 _]%Hts [H2 _]%Hts Heq. congruence.
    + intros t [Ht Hle]%Hts. split; [|done]. apply map_lookup_filter_Some. split; [done|lia].
    + by apply due_dom.
    + by intros t ?%elem_of_nil.
  - rewrite Hcom. apply (coming_ok_queue _ (queue_ s)); [intros x Hx; rewrite <- Ho; exact (λ h, h)|cbn; lia|done].
  - intros f k. fold l'. rewrite Hqd. apply mc_jobs0.
  - by rewrite Hcom.
  - cbn. rewrite Hn. eapply history_ext; [by eapply history_now|done].
Qed.

Lemma alive_unique m B called rest s t x :
  machine m B called rest s → timerOwners_ (queue_ s) !! sequence_ t = Some t → alive s x → sequence_ x = sequence_ t → x = t.
Proof using Type.
  intros M Ht [Hx|Hx] Heq.
  - destruct (proj1 (mc_coming _ _ _ _ _ M) x Hx). congruence.
  - congruence.
Qed.

(** The callback of the first timer still to be called. *)
Lemma call_ok m B called t rest d s :
  machine m B called (t :: rest) s → firing_ s = Some d →
  ensures (call clock d (entry_of t) (entry_of <$> rest) s) (λ s', (goes_on s s' ∧ machine m B (called ++ [t]) rest s') ∧
    loop_ s' = loop_ s ∧ coming s' = coming s ∧ log_ s' = log_ s ++ [(now_ d, t)] ∧ hands_ s' = hands_ s ∧
    time s' = time s ∧ firing_ s' ≠ None ∧ samples_ (queue_ s') = samples_ (queue_ s) ∧
    timerOwners_ (queue_ s') = timerOwners_ (queue_ s)).
Proof using Type.
  intros M Hf. pose proof M as []. unfold dispatching, idle, time in *. rewrite Hf in *.
  destruct mc_dispatch0 as (Hcall & Hnow & Hex & Htd & Hnd & HB & Hdom & Hlog).
  destruct (HB t) as [HBt Hle]; [apply elem_of_app; right; by left|].
  assert (timerOwners_ (queue_ s) !! sequence_ t = Some t) as Ho.
  { rewrite (i_owners _ _ _ mc_queue0). apply lookup_union_Some_r; [apply mc_queue0|done]. }
  unfold call, call_one. cbn [entry_of snd]. rewrite Ho. cbn [run foldM obind ensures]. set (s' := add_log _ _).
  assert (∀ x, alive s' x → alive s x) as Hal by done.
  assert (t ∉ called) as Hnc.
  { intros Hin. rewrite fmap_app in Hnd. apply NoDup_app in Hnd as (_ & Hnd & _). apply (Hnd (sequence_ t)).
    - apply list_elem_of_fmap. eauto.
    - apply list_elem_of_fmap. exists t. split; [done|by left]. }
  assert (goes_on s s') as Hgo.
  { split; [|split; [|by intros k x]].
    - intros x Hx. left. by exists x.
    - intros n x [Hin|Hin%list_elem_of_singleton]%elem_of_app; [by left|]. injection Hin as -> ->. right. by right. }
  split_and!; try done.
  - split; try done; cbn [s' add_log with_firing with_timers queue_ loop_ jobs_ cancels_ firing_ made_ log_ timerChannel_].
    + intros _. by apply mc_position0.
    + by apply inv_log_run.
    + unfold dispatching, idle. cbn. rewrite <- app_assoc. cbn. split; [done|]. split_and!; try done.
      intros x [Hx| ->%list_elem_of_singleton]%elem_of_app; apply elem_of_app; [left; by apply Hlog|right; by apply list_elem_of_singleton].
    + intros _. by apply mc_canceling0.
    + apply history_call; [exact mc_history0|by right| |done|done].
      intros x Hx. by eapply alive_unique.
Qed.

(** What the end of a dispatch schedules again. *)
Lemma restarts_lookup now canceled ts : ∀ m : gmap Z Timer,
  NoDup (sequence_ <$> ts) → (∀ t, t ∈ ts → m !! sequence_ t = None) →
  ∀ k x, foldl (λ m t, spec_restart now canceled t m) m ts !! k = Some x ↔
    m !! k = Some x ∨ ∃ t, t ∈ ts ∧ sequence_ t = k ∧ repeat_ t = true ∧ sequence_ t ∉ canceled ∧ x = restart now t.
Proof using Type.
  induction ts as [|t ts IH]; intros m Hnd Hm k x; cbn [foldl].
  { split; [by left|]. intros [?|(t & ?%elem_of_nil & _)]; done. }
  cbn in Hnd. apply NoDup_cons in Hnd as [Ht Hnd].
  assert (∀ t', t' ∈ ts → sequence_ t' ≠ sequence_ t) as Hne.
  { intros t' Ht' Heq. apply Ht. rewrite <- Heq. apply list_elem_of_fmap. eauto. }
  rewrite IH; [|done|].
  2:{ intros t' Ht'. unfold spec_restart. destruct (_ && _); [rewrite lookup_insert_ne by (by apply not_eq_sym, Hne)|]; apply Hm; by right. }
  assert (spec_restart now canceled t m !! k = Some x ↔
    m !! k = Some x ∨ (sequence_ t = k ∧ repeat_ t = true ∧ sequence_ t ∉ canceled ∧ x = restart now t)) as ->.
  { unfold spec_restart. destruct (repeat_ t) eqn:Hr; cbn [andb]; [|naive_solver]. destruct (bool_decide_reflect (sequence_ t ∈ canceled)) as [Hc|Hc]; cbn [negb]; [naive_solver|].
    rewrite lookup_insert_Some. specialize (Hm t ltac:(by left)). split; [naive_solver|]. intros [Hk|(? & _ & _ & ->)]; [|by left].
    right. split; [congruence|done]. }
  setoid_rewrite elem_of_cons. naive_solver.
Qed.

Lemma reset_ok m B now ts q :
  inv m B q → 0 < now → NoDup (sequence_ <$> ts) → (∀ t, t ∈ ts → B !! sequence_ t = Some t) →
  dom B = list_to_set (sequence_ <$> ts) → armed false q →
  ensures (reset clock (entry_of <$> ts) now q) (λ q', same_rest q q' ∧ armed true q' ∧
    inv (foldl (λ m t, spec_restart now (cancelingTimers_ q) t m) m ts) ∅ q').
Proof using Type.
  intros Hi Hnow Hnd HB Hdom Ha. unfold reset. eapply ensures_bind; [by apply (resets_ok now ts m B)|].
  intros q6 (Hi6 & Hs & Ha6). cbn [ensures]. specialize (Ha6 Ha). pose proof (armed_settle clock q6 Ha6) as Ha7.
  set (q7 := if valid _ then _ else _) in *. split_and!; [|done|].
  - unfold q7. by destruct (valid _).
  - destruct Hi6. unfold q7. destruct (valid _); (split; try done; by eapply side_ext).
Qed.

Lemma uncalled_stay m B ts q :
  inv m B q → dom B = list_to_set (sequence_ <$> ts) → (∀ t, t ∈ ts → B !! sequence_ t = Some t) →
  ∀ x, timerOwners_ q !! sequence_ x = Some x → x ∉ ts → m !! sequence_ x = Some x.
Proof using Type.
  intros Hi Hdom HB x Hx Hxc. rewrite (i_owners _ _ _ Hi) in Hx.
  apply lookup_union_Some in Hx as [?|Hx]; [done| |apply Hi]. exfalso. apply Hxc.
  assert (sequence_ x ∈ dom B) as Hd by by apply elem_of_dom.
  rewrite Hdom in Hd. apply elem_of_list_to_set, list_elem_of_fmap in Hd as (y & Hxy & Hy).
  specialize (HB y Hy). rewrite <- Hxy in HB. congruence.
Qed.

Lemma fired_ok m B called d s :
  machine m B called [] s → firing_ s = Some d →
  ensures (fired clock d s) (λ s', (goes_on s s' ∧ ∃ m', machine m' ∅ [] [] s') ∧
    loop_ s' = loop_ s ∧ coming s' = coming s ∧ log_ s' = log_ s ∧ hands_ s' = hands_ s ∧ firing_ s' = None ∧
    (∀ x, alive s x → x ∉ called → alive s' x)).
Proof using Type.
  clear clock_pos. intros M Hf. pose proof M as []. unfold dispatching, idle, time in *. rewrite Hf in *.
  destruct mc_dispatch0 as (Hcall & Hnow & Hex & Htd & Hnd & HB & Hdom & Hlog). rewrite app_nil_r in *.
  unfold fired. rewrite Hex. set (q5 := TimerQueue.set_calling _ _ _).
  assert (inv m B q5) as Hi5 by (destruct mc_queue0; split; try done; by eapply side_ext).
  eapply ensures_bind; [apply (reset_ok m B); try done; intros t Ht; by apply HB|].
  intros q (Hs & Ha & Hi). cbn [ensures]. destruct Hs as (Hc & Hn & Hp & Hr). cbn in Hc, Hn, Hp.
  set (s' := with_firing None _). set (m' := foldl _ m called) in *.
  assert (∀ t, t ∈ called → m !! sequence_ t = None) as Hfree.
  { intros t Ht. destruct (HB t Ht) as [Hb _]. eapply map_disjoint_Some_r; [apply mc_queue0|exact Hb]. }
  pose proof (restarts_lookup (now_ d) (cancelingTimers_ q5) called m Hnd Hfree) as Hlk. fold m' in Hlk.
  assert (timerOwners_ (queue_ s') = m') as Ho by (change (timerOwners_ q = m'); by rewrite (i_owners _ _ _ Hi), map_union_empty).
  pose proof (uncalled_stay m B called (queue_ s) mc_queue0 Hdom (λ t Ht, proj1 (HB t Ht))) as Hm.
  assert (∀ x, FAdd x ∈ coming s → timerOwners_ (queue_ s') !! sequence_ x = None) as Hcf.
  { intros x Hx. destruct (proj1 mc_coming0 x Hx) as [Hno _]. rewrite (i_owners _ _ _ mc_queue0) in Hno.
    apply lookup_union_None in Hno as [Hmx HBx]. rewrite Ho. destruct (m' !! sequence_ x) as [y|] eqn:E; [|done].
    apply Hlk in E as [?|(t & Ht & Heq & _)]; [congruence|]. destruct (HB t Ht) as [Hbt _]. rewrite Heq in Hbt. congruence. }
  assert (∀ x, alive s' x → (alive s x ∧ x ∉ called) ∨ ∃ t, t ∈ called ∧ repeat_ t = true ∧ x = restart (now_ d) t) as Hal.
  { intros x [Hx|Hx].
    - left. split; [by left|]. intros Hxc. destruct (HB x Hxc) as [Hbx _]. destruct (proj1 mc_coming0 x Hx) as [Hno _].
      rewrite (i_owners _ _ _ mc_queue0) in Hno. apply lookup_union_None in Hno as [_ ?]. congruence.
    - rewrite Ho in Hx. apply Hlk in Hx as [Hx|(t & Ht & Heq & Hr' & _ & ->)]; [left|right; eauto].
      split; [right; rewrite (i_owners _ _ _ mc_queue0); by apply lookup_union_Some_l|]. intros Hxc. rewrite (Hfree x Hxc) in Hx. done. }
  assert (∀ x, alive s x → x ∉ called → alive s' x) as Hal'.
  { intros x [Hx|Hx] Hxc; [by left|right]. rewrite Ho. apply Hlk. left. by apply Hm. }
  assert (goes_on s s') as Hgo.
  { split; [|split; [by left|by intros k x]].
    intros x [[Hx _]|(t & Ht & _ & ->)]%Hal; left; [by exists x|]. exists t. split; [|done]. right.
    rewrite (i_owners _ _ _ mc_queue0). apply lookup_union_Some_r; [apply mc_queue0|]. by apply HB. }
  split_and!; try done.
  - exists m'. split; try done; cbn [s' with_firing with_queue with_timers queue_ loop_ jobs_ cancels_ firing_ made_ log_ timerChannel_].
    + congruence.
    + by rewrite Hn.
    + apply (coming_ok_queue _ (queue_ s)); [|by rewrite Hn|done]. intros x Hx _. by apply Hcf.
    + rewrite Hn. eapply history_fired; [exact mc_history0| |exact Hal|exact Hal'|].
      * intros t Ht. destruct (HB t Ht) as [Hbt Hle]. split_and!; [|done|by apply Hlog]. right.
        rewrite (i_owners _ _ _ mc_queue0). by apply lookup_union_Some_r; [apply mc_queue0|].
      * intros t Ht Hrep. destruct (decide (sequence_ t ∈ cancelingTimers_ (queue_ s))) as [Hin|Hout].
        -- right. apply mc_canceling0; [congruence|done].
        -- left. right. rewrite Ho. apply Hlk. right. exists t. by split_and!.
Qed.

(** *** Every step *)

Definition kept (s : System) : Prop := ∃ m B called rest, machine m B called rest s.

Lemma lt_step_ok e s :
  kept s → enabled e s → ensures (perform clock e s) (λ s', goes_on s s' ∧ kept s').
Proof using clock_pos.
  intros (m & B & called & rest & M) He.
  assert (loop_event e → ensures (perform clock e s) (λ s', goes_on s s' ∧ kept s')) as Hloop.
  { intros Hl. eapply ensures_mono; [by apply (loop_event_ok m B called rest)|]. intros s' (H1 & H2 & _). split; [done|by exists m, B, called, rest]. }
  assert (∀ s', goes_on s s' ∧ machine m B called rest s' → goes_on s s' ∧ kept s') as Hsame.
  { intros s' [H1 H2]. split; [done|by exists m, B, called, rest]. }
  assert (∀ q r, timerOwners_ q = timerOwners_ (queue_ s) → goes_on s (with_timers q r s)) as Hq.
  { intros q r Ho. apply goes_on_same; try done. intros x. unfold alive. cbn. by rewrite Ho. }
  destruct e; try (by apply Hloop); clear Hloop; cbn [perform].
  - eapply ensures_mono; [by apply (fire_ok m B called rest)|]. intros s' ((H & ts & H' & _) & _). split; [done|by eexists _, _, _, _].
  - destruct He as [Hf Ht]. pose proof (mc_dispatch _ _ _ _ _ M) as [_ Hd]. rewrite Hf in Hd.
    destruct Hd as (_ & _ & Htd & _). rewrite Htd in Ht. destruct rest as [|t rest]; [done|]. injection Ht as <- <-.
    eapply ensures_mono; [by apply (call_ok m B)|]. intros s' ((H & H') & _). split; [done|by eexists _, _, _, _].
  - destruct He as [Hf Ht]. pose proof (mc_dispatch _ _ _ _ _ M) as [_ Hd]. rewrite Hf in Hd.
    destruct Hd as (_ & _ & Htd & _). rewrite Htd in Ht. destruct rest as [|t rest]; [|done].
    eapply ensures_mono; [by apply (fired_ok m B)|]. intros s' ((H & m' & H') & _). split; [done|by eexists _, _, _, _].
  - eapply ensures_mono; [by apply (run_functor_ok m B called rest)|]. intros s' ((H & m' & H') & _). split; [done|by eexists _, _, _, _].
  - eapply ensures_mono; [by apply (user_add_ok m B called rest)|]. intros s' (H & H'). split; [done|by eexists _, _, _, _].
  - eapply ensures_mono; [by apply (user_cancel_ok m B called rest)|]. intros s' (H & H'). split; [done|by eexists _, _, _, _].
  - by apply Hsame, other_make_ok.
  - apply Hsame. by destruct (other_add_ok m B called rest tid f n t s M He) as (? & ? & _).
  - by apply Hsame, other_cancel_ok.
  - apply Hsame. split; [by apply Hq|by apply machine_created].
  - apply Hsame. split; [by apply Hq|by apply machine_clock].
  - apply Hsame. split; [by apply Hq|by apply machine_expire].
Qed.

Lemma initial_kept tid wc c l : newEventLoop tid wc false = Ok l → wc ≠ c → kept (initial l c).
Proof using Type.
  clear clock_pos. intros Hl Hc. exists ∅, ∅, [], []. pose proof quiescent_new as (Hi & _ & Ha). split; try done; cbn.
  - by eapply EventLoop.reach_new.
  - injection Hl as <-. done.
  - split; [|by injection Hl as <-; constructor]. intros t Ht. injection Hl as <-. by apply elem_of_nil in Ht.
  - intros i Hi'. injection Hl as <-. by apply elem_of_nil in Hi'.
  - apply (history_ext (λ _, False)); [|intros t; unfold alive, coming, waiting; injection Hl as <-; cbn; rewrite lookup_empty; split; [by intros [?%elem_of_nil|?]|done]].
    apply history_init.
Qed.

Lemma reachable_kept s : reachable clock s → kept s.
Proof using clock_pos.
  induction 1 as [tid wc c l Hl Hc|s s' _ IH (e & He & Hp)]; [by eapply initial_kept|].
  pose proof (lt_step_ok e s IH He) as H. rewrite Hp in H. by destruct H.
Qed.

(** C10. The timers of a loop that any number of threads use, down to the
    single steps of [addTimer], of a dispatch and of the callbacks in it. In
    every reachable state no assert fails, whatever happens next. A timer that
    was asked for is on its way to the loop or scheduled, with its callback
    and not for an earlier time, or somebody has cancelled it, or it was for
    once and has run. A callback runs only when the clock has reached the
    expiration of its timer; a timer runs twice only if it repeats, and then
    not before its interval has passed; a timer that is neither on its way nor
    scheduled never comes back. And the loop does not sleep past a timer: in
    poll, with timers on their way it has been woken, and for every scheduled
    timer the timerfd is set for no later than its expiration. *)
Theorem loop_timers_kept s :
  reachable clock s →
  (∀ e, enabled e s → ∃ s', perform clock e s = Ok s') ∧
  (∀ k t0, made_ s !! k = Some t0 →
    (∃ t, alive s t ∧ from t0 t) ∨ k ∈ cancels_ s ∨ ∃ n, (n, t0) ∈ log_ s ∧ repeat_ t0 = false) ∧
  ((∀ n t, (n, t) ∈ log_ s → expiration_ t ≤ n ∧ ∃ t0, made_ s !! sequence_ t = Some t0 ∧ from t0 t) ∧ spaced (log_ s)) ∧
  (∀ k t0 s', made_ s !! k = Some t0 → (∀ t, alive s t → sequence_ t ≠ k) → step clock s s' →
    (∀ t, alive s' t → sequence_ t ≠ k) ∧ ∀ n t, (n, t) ∈ log_ s' → sequence_ t = k → (n, t) ∈ log_ s) ∧
  (position_ (loop_ s) = InPoll →
    (waiting s ≠ [] → woken (loop_ s)) ∧
    ∀ t, timerOwners_ (queue_ s) !! sequence_ t = Some t → armed_for (queue_ s) (expiration_ t)).
Proof using clock_pos.
  intros Hr. apply reachable_kept in Hr as Hk. pose proof Hk as (m & B & called & rest & M). pose proof M as [].
  destruct mc_history0. split_and!; try done.
  - intros e He. by destruct (ensures_ok _ _ (lt_step_ok e s Hk He)) as (s' & Hs & _); exists s'.
  - intros k t0 Hk0. destruct (hi_account0 k t0 Hk0) as [(t & Ht & <-)|[Hc|(n & t & Hin & <- & Hrep)]]; [left|by right; left|right; right].
    + exists t. split; [done|]. destruct (hi_made0 t Ht) as (t1 & H1 & Hf). congruence.
    + exists n. destruct (hi_log0 n t Hin) as (_ & t1 & H1 & Hf). assert (t1 = t0) as -> by congruence.
      pose proof Hf as (_ & _ & F3 & _ & _ & F6). rewrite <- (F6 Hrep). split; congruence.
  - intros k t0 s' Hk0 Hno (e & He & Hs). pose proof (lt_step_ok e s Hk He) as H. rewrite Hs in H.
    destruct H as ((G1 & G2 & _) & _). split.
    + intros t Ht <-. destruct (G1 t Ht) as [(t' & Ht' & Heq)|Hnone]; [by eapply Hno|congruence].
    + intros n t Hin <-. destruct (G2 n t Hin) as [?|Ha]; [done|]. by destruct (Hno t Ha).
  - intros Hp. assert (firing_ s = None) as Hf.
    { destruct (firing_ s) as [d|]; [|done]. destruct mc_position0 as [x Hx]; [done|congruence]. }
    pose proof (linv_reachable _ mc_loop0) as L. split.
    + intros Hne. apply (li_woken _ L); [by rewrite Hp|]. intros Hnil. apply Hne. unfold waiting.
      by rewrite Hnil, (li_batch _ L) by (by rewrite Hp).
    + intros t Ht. unfold idle in mc_armed0. rewrite Hf in mc_armed0. unfold dispatching in mc_dispatch0. rewrite Hf in mc_dispatch0.
      destruct mc_dispatch0 as (_ & -> & _). rewrite (i_owners _ _ _ mc_queue0), map_union_empty in Ht.
      apply (armed_scheduled m _ _ (sequence_ t)); [done|done|]. apply (sd_entries _ _ (i_side _ _ _ mc_queue0)). eauto.
Qed.

(** ** A timer whose time has come is called *)

Definition reaches (s s' : System) : Prop := rtc (step clock) s s' ∧ ∃ l, log_ s' = log_ s ++ l.

#[local] Instance reaches_preorder : PreOrder reaches.
Proof using Type.
  split.
  - intros s. split; [done|]. exists []. by rewrite app_nil_r.
  - intros s1 s2 s3 [H1 [l1 E1]] [H2 [l2 E2]]. split; [by etransitivity|]. exists (l1 ++ l2). by rewrite E2, E1, app_assoc.
Qed.

Lemma reaches_step e s s' l : enabled e s → perform clock e s = Ok s' → log_ s' = log_ s ++ l → reaches s s'.
Proof using Type. intros He Hp Hl. split; [apply rtc_once; by exists e|by exists l]. Qed.

Lemma step_kept e s s' : kept s → enabled e s → perform clock e s = Ok s' → kept s'.
Proof using clock_pos. intros Hk He Hp. pose proof (lt_step_ok e s Hk He) as H. rewrite Hp in H. by destruct H. Qed.

(** The timer waits for its call: nobody is about to cancel it, and every
    later reading of the clock reaches its expiration. *)
Record waits (t : Timer) (s : System) : Prop := mkWaits {
  wt_kept : kept s;
  wt_quit : quit_ (loop_ s) = false;
  wt_alive : alive s t;
  wt_cancel : no_cancel (sequence_ t) s;
  wt_time : ∀ n, (samples_ (queue_ s) ≤ n)%nat → expiration_ t ≤ clock n
}.

Definition is_called (t : Timer) (s : System) : Prop :=
  ∃ s' l now, rtc (step clock) s s' ∧ log_ s' = log_ s ++ l ++ [(now, t)].

Lemma called_after t s s' : reaches s s' → is_called t s' → is_called t s.
Proof using Type.
  intros [Hs [l Hl]] (s2 & l2 & now & Hs2 & Hl2). exists s2, (l ++ l2), now. split; [by etransitivity|].
  by rewrite Hl2, Hl, <- !app_assoc.
Qed.

(** A step of the loop's own. *)
Lemma loop_move e l' t s :
  waits t s → loop_event e → enabled e s → perform clock e s = to_loop l' s → quit_ l' = quit_ (loop_ s) →
  waits t (with_loop l' s) ∧ reaches s (with_loop l' s) ∧ coming (with_loop l' s) = coming s.
Proof using clock_pos.
  intros [Hk Hq Ha Hc Ht] He Hen Hp Hq'. pose proof Hk as (m & B & called & rest & M).
  pose proof (loop_event_ok m B called rest e s M He Hen) as H. rewrite Hp in H. destruct H as (M' & _ & Hcom).
  split_and!; [|eapply (reaches_step e _ _ []); [done|by rewrite Hp|by rewrite app_nil_r]|done].
  split; [by exists m, B, called, rest|by rewrite <- Hq| | |done].
  - unfold alive. by rewrite Hcom.
  - unfold no_cancel. by rewrite Hcom.
Qed.

Lemma call_enabled m B called t rest s d :
  machine m B called (t :: rest) s → firing_ s = Some d → enabled (Call d (entry_of t) (entry_of <$> rest)) s.
Proof using Type.
  intros M Hf. split; [done|]. pose proof (mc_dispatch _ _ _ _ _ M) as [_ Hd]. rewrite Hf in Hd. by destruct Hd as (_ & _ & -> & _).
Qed.

(** A dispatch comes to every timer it has taken. *)
Lemma dispatched_called t rest : ∀ m B called s,
  machine m B called rest s → firing_ s ≠ None → t ∈ rest → is_called t s.
Proof using Type.
  clear clock_pos. induction rest as [|t0 rest IH]; intros m B called s M Hf Hin; [by apply elem_of_nil in Hin|].
  destruct (firing_ s) as [d|] eqn:E; [clear Hf|done].
  destruct (ensures_ok _ _ (call_ok m B called t0 rest d s M E)) as (s1 & Hs1 & (_ & M1) & _ & _ & Hl & _ & _ & Hf1 & _).
  pose proof (call_enabled _ _ _ _ _ _ _ M E) as Hen.
  apply elem_of_cons in Hin as [->|Hin].
  - exists s1, [], (now_ d). split; [|done]. apply rtc_once. by eexists.
  - eapply called_after; [by eapply reaches_step|]. by eapply IH.
Qed.

Lemma reset_samples ex now q q' : reset clock ex now q = Ok q' → (samples_ q ≤ samples_ q')%nat.
Proof using Type.
  unfold reset. intros H. apply ok_bind_inv in H as (q1 & H1 & H). injection H as <-.
  assert (samples_ q1 = samples_ q) as Hq1.
  { revert q H1. induction ex as [|e ex IH]; intros q H1; [by injection H1 as <-|]. cbn [foldM] in H1.
    apply ok_bind_inv in H1 as (q2 & H2 & H1). rewrite (IH _ H1). unfold reset_one in H2.
    destruct (timerOwners_ q !! _); [|by injection H2 as <-]. destruct (_ && _); [|by injection H2 as <-].
    apply ok_bind_inv in H2 as ([b q3] & H3 & [= <-]). unfold insertTimer in H3. apply ok_bind_inv in H3 as (_ & _ & H3).
    destruct (set_insert _ _) as [c l]. repeat (apply ok_bind_inv in H3 as (_ & _ & H3)). by injection H3 as _ <-. }
  destruct (valid _); cbn; lia.
Qed.

(** And it ends. *)
Lemma dispatch_ends rest : ∀ m B called s,
  machine m B called rest s → firing_ s ≠ None →
  ∃ s', reaches s s' ∧ kept s' ∧ firing_ s' = None ∧ loop_ s' = loop_ s ∧ coming s' = coming s ∧
        hands_ s' = hands_ s ∧ (samples_ (queue_ s) ≤ samples_ (queue_ s'))%nat.
Proof using Type.
  clear clock_pos. induction rest as [|t0 rest IH]; intros m B called s M Hf; (destruct (firing_ s) as [d|] eqn:E; [clear Hf|done]).
  - destruct (ensures_ok _ _ (fired_ok m B called d s M E)) as (s1 & Hs1 & (_ & m1 & M1) & Hl & Hc & Hlog & Hh & Hf1 & _).
    exists s1. split_and!; try done; [|by eexists _, _, _, _|].
    + apply (reaches_step (Fired d) _ _ []); [|done|by rewrite app_nil_r]. split; [done|].
      pose proof (mc_dispatch _ _ _ _ _ M) as [_ Hd]. rewrite E in Hd. by destruct Hd as (_ & _ & -> & _).
    + unfold fired in Hs1. apply ok_bind_inv in Hs1 as (q' & Hq & [= <-]). by apply reset_samples in Hq.
  - destruct (ensures_ok _ _ (call_ok m B called t0 rest d s M E)) as (s1 & Hs1 & (_ & M1) & Hl & Hc & Hlog & Hh & _ & Hf1 & Hsam & _).
    destruct (IH _ _ _ _ M1 Hf1) as (s2 & R & K & F & L & C & H2 & S). exists s2. rewrite L, C, H2, Hl, Hc, Hh, <- Hsam. split_and!; try done.
    etransitivity; [|exact R]. eapply reaches_step; [by eapply call_enabled|exact Hs1|exact Hlog].
Qed.

(** The functors of a batch run. *)
Lemma batch_runs t b : ∀ s,
  waits t s → position_ (loop_ s) = InFunctors → batch_ (loop_ s) = b →
  ∃ s', reaches s s' ∧ waits t s' ∧ position_ (loop_ s') = InFunctors ∧ batch_ (loop_ s') = [] ∧
        pendingFunctors_ (loop_ s') = pendingFunctors_ (loop_ s) ∧ hands_ s' = hands_ s.
Proof using clock_pos.
  induction b as [|f b IH]; intros s W Hp Hb; [exists s; by split_and!|].
  destruct W as [Hk Hq Ha Hc Ht]. pose proof Hk as (m & B & called & rest & M).
  assert (enabled (Functor f b) s) as Hen by done.
  destruct (ensures_ok _ _ (run_functor_ok m B called rest f b s M Hen)) as
    (s1 & Hs1 & (_ & m1 & M1) & Hl & Hf & Hlog & Hh & Hsam & Hcom & Hal).
  destruct (IH s1) as (s2 & R & W2 & P2 & B2 & D2 & H2); [|by rewrite Hl|by rewrite Hl|].
  - split; [by eexists _, _, _, _|by rewrite Hl|by apply Hal| |intros n Hn; apply Ht; lia].
    intros i Hi. apply Hc. rewrite Hcom. apply elem_of_app. by right.
  - exists s2. rewrite D2, H2, Hl, Hh. split_and!; try done.
    etransitivity; [|exact R]. apply (reaches_step (Functor f b) _ _ []); [done|done|by rewrite app_nil_r].
Qed.

Lemma poll_idle m B called rest s : machine m B called rest s → position_ (loop_ s) = InPoll → firing_ s = None.
Proof using Type.
  intros M Hp. destruct (firing_ s) as [d|] eqn:E; [|done]. destruct (mc_position _ _ _ _ _ M) as [x Hx]; [congruence|congruence].
Qed.

(** Poll returns, and the wakeup channel is handled. *)
Lemma polled_handled t s :
  waits t s → position_ (loop_ s) = InPoll → 0 < eventfd_ (loop_ s) ∨ readable_ s = true →
  ∃ l', reaches s (with_loop l' s) ∧ waits t (with_loop l' s) ∧ coming (with_loop l' s) = coming s ∧
        position_ l' = Handling (if readable_ s then [timerChannel_ s] else []).
Proof using clock_pos.
  intros W Hp Hwake. destruct (wt_kept _ _ W) as (m & B & called & rest & M). pose proof (poll_idle _ _ _ _ _ M Hp) as Hf.
  pose proof (mc_channel _ _ _ _ _ M) as Hwc. set (w := wakeupChannel_ (loop_ s)) in *. set (c := timerChannel_ s) in *.
  set (last := if readable_ s then [c] else []). assert (c ∈ last ↔ readable_ s = true) as Hc.
  { unfold last. destruct (readable_ s); [rewrite list_elem_of_singleton|rewrite elem_of_nil]; naive_solver. }
  assert (w ∉ last) as Hw.
  { unfold last. destruct (readable_ s); [by rewrite list_elem_of_singleton|apply not_elem_of_nil]. }
  assert (∀ a, (w ∈ a ↔ 0 < eventfd_ (loop_ s)) → (c ∈ a ↔ readable_ s = true) → enabled (Polled a) s) as Hen.
  { intros a H1 H2. split_and!; [done| |done|done]. intros ->. destruct Hwake as [?%H1|?%H2]; by apply not_elem_of_nil in H. }
  destruct (Z.ltb_spec 0 (eventfd_ (loop_ s))) as [Hfd|Hfd].
  - assert (enabled (Polled (w :: last)) s) as He.
    { apply Hen; rewrite elem_of_cons; [naive_solver|]. rewrite Hc. split; [intros [?|?]; [congruence|done]|by right]. }
    destruct (loop_move (Polled (w :: last)) (loop_polled (w :: last) (loop_ s)) t s W I He eq_refl eq_refl) as (W1 & R1 & C1).
    set (s1 := with_loop _ s) in *. assert (enabled (Handle w last) s1) as He1 by done.
    destruct (loop_move (Handle w last) (loop_handle w last (loop_ s1)) t s1 W1 I He1 eq_refl) as (W2 & R2 & C2); [unfold loop_handle; by destruct (_ =? _)|].
    exists (loop_handle w last (loop_ s1)). split_and!; [by etransitivity|done|by rewrite <- C1|].
    unfold loop_handle. by destruct (_ =? _).
  - assert (enabled (Polled last) s) as He by (apply Hen; [split; [done|lia]|done]).
    destruct (loop_move (Polled last) (loop_polled last (loop_ s)) t s W I He eq_refl eq_refl) as (W1 & R1 & C1).
    by exists (loop_polled last (loop_ s)).
Qed.

(** A scheduled timer, when the loop polls. *)
Lemma scheduled_called t s :
  waits t s → position_ (loop_ s) = InPoll → timerOwners_ (queue_ s) !! sequence_ t = Some t → is_called t s.
Proof using clock_pos.
  intros W Hp Ho.
  assert (∀ s, waits t s → position_ (loop_ s) = InPoll → timerOwners_ (queue_ s) !! sequence_ t = Some t →
    readable_ s = true → is_called t s) as Hready.
  { clear s W Hp Ho. intros s W Hp Ho Hr. destruct (polled_handled t s W Hp (or_intror Hr)) as (l' & R & W' & _ & Hp').
    eapply called_after; [exact R|]. set (s' := with_loop l' s) in *. rewrite Hr in Hp'.
    destruct (wt_kept _ _ W) as (m0 & B0 & called0 & rest0 & M0). pose proof (poll_idle _ _ _ _ _ M0 Hp) as Hf.
    destruct (wt_kept _ _ W') as (m & B & called & rest & M). assert (enabled (Fire []) s') as He by done.
    destruct (ensures_ok _ _ (fire_ok m B called rest [] s' M He)) as (s2 & Hs2 & (_ & ts & M2 & Hts) & _ & _ & Hl & _ & _ & Hf2 & _).
    eapply called_after; [apply (reaches_step (Fire []) _ _ []); [done|exact Hs2|by rewrite app_nil_r]|].
    eapply dispatched_called; [exact M2|exact Hf2|]. apply Hts. split; [done|]. apply (wt_time _ _ W'). done. }
  destruct (readable_ s) eqn:Hr; [by apply Hready|].
  destruct (wt_kept _ _ W) as (m & B & called & rest & M). pose proof (poll_idle _ _ _ _ _ M Hp) as Hf.
  assert (enabled Expire s) as He.
  { pose proof (mc_dispatch _ _ _ _ _ M) as [_ Hd]. rewrite Hf in Hd. destruct Hd as (-> & _).
    pose proof (mc_armed _ _ _ _ _ M) as Ha. unfold idle in Ha. rewrite Hf in Ha. pose proof (mc_queue _ _ _ _ _ M) as Hi.
    rewrite (i_owners _ _ _ Hi), map_union_empty in Ho.
    destruct (armed_scheduled m _ (expiration_ t) (sequence_ t) Hi Ha) as (e & ts & Hfd & _); [|by eexists].
    apply (sd_entries _ _ (i_side _ _ _ Hi)). eauto. }
  eapply called_after; [apply (reaches_step Expire _ _ []); [exact He|done|by rewrite app_nil_r]|].
  apply Hready; try done. destruct W as [Hk Hq Ha Hc Ht]. split; try done. by eapply step_kept.
Qed.

(** The rest of an iteration of the loop, from the functors on. *)
Lemma functors_round t s :
  waits t s → position_ (loop_ s) = Handling [] → firing_ s = None →
  ∃ s', reaches s s' ∧ waits t s' ∧ position_ (loop_ s') = InPoll ∧ waiting s' = [] ∧ hands_ s' = hands_ s.
Proof using clock_pos.
  intros W Hp Hf. assert (enabled Handled s) as He by done.
  destruct (loop_move Handled (loop_handled (loop_ s)) t s W I He eq_refl eq_refl) as (W1 & R1 & _).
  destruct (batch_runs t _ _ W1 eq_refl eq_refl) as (s2 & R2 & W2 & P2 & B2 & D2 & H2). cbn in D2, H2.
  assert (enabled FunctorsDone s2) as He2 by done.
  destruct (loop_move FunctorsDone (functors_done (loop_ s2)) t s2 W2 I He2 eq_refl eq_refl) as (W3 & R3 & _). set (s3 := with_loop _ s2) in *.
  pose proof (wt_quit _ _ W3) as Hq. assert (enabled Test s3) as He3 by done.
  destruct (loop_move Test (loop_test (loop_ s3)) t s3 W3 I He3 eq_refl) as (W4 & R4 & _); [unfold loop_test; by rewrite Hq|].
  exists (with_loop (loop_test (loop_ s3)) s3). split_and!; [|done| | |done].
  - do 3 (etransitivity; [eassumption|]). done.
  - change (position_ (loop_test (loop_ s3)) = InPoll). unfold loop_test. by rewrite Hq.
  - unfold waiting. cbn [with_loop loop_ jobs_]. unfold loop_test. rewrite Hq. cbn. by rewrite B2, D2.
Qed.

(** An iteration of the loop enters the timers on their way. *)
Lemma round t s :
  waits t s → position_ (loop_ s) = InPoll → 0 < eventfd_ (loop_ s) → FAdd t ∈ coming s →
  ∃ s', reaches s s' ∧ waits t s' ∧ position_ (loop_ s') = InPoll ∧ waiting s' = [] ∧ hands_ s' = hands_ s.
Proof using clock_pos.
  intros W Hp Hfd Ht. destruct (polled_handled t s W Hp (or_introl Hfd)) as (l' & R & W' & C & P). set (s1 := with_loop l' s) in *.
  destruct (wt_kept _ _ W) as (m0 & B0 & called0 & rest0 & M0). pose proof (poll_idle _ _ _ _ _ M0 Hp) as Hf.
  assert (∃ s2, reaches s1 s2 ∧ waits t s2 ∧ position_ (loop_ s2) = Handling [] ∧ firing_ s2 = None ∧ hands_ s2 = hands_ s1)
    as (s2 & R2 & W2 & P2 & F2 & H2).
  { destruct (readable_ s) eqn:Hr; [|by exists s1].
    destruct (wt_kept _ _ W') as (m & B & called & rest & M). assert (enabled (Fire []) s1) as He by done.
    destruct (ensures_ok _ _ (fire_ok m B called rest [] s1 M He)) as
      (s2 & Hs2 & (_ & ts & M2 & _) & L2 & C2 & Hl & H2 & _ & Hf2 & Hsam & _).
    destruct (dispatch_ends ts _ _ _ _ M2 Hf2) as (s3 & R3 & K3 & F3 & L3 & C3 & H3 & S3).
    exists s3. destruct W' as [Hk Hq Ha Hc Htm]. split_and!; [| |by rewrite L3, L2; unfold loop_handle; destruct (_ =? _)|done|congruence].
    - etransitivity; [apply (reaches_step (Fire []) _ s2 []); [done|exact Hs2|by rewrite app_nil_r]|exact R3].
    - split; [done|rewrite L3, L2; unfold loop_handle; by destruct (_ =? _)| | |intros n Hn; apply Htm; lia].
      + left. by rewrite C3, C2, C.
      + unfold no_cancel. by rewrite C3, C2. }
  destruct (functors_round t s2 W2 P2 F2) as (s3 & R3 & W3 & P3 & E3 & H3).
  exists s3. split_and!; try done; [|by rewrite H3, H2]. do 2 (etransitivity; [eassumption|]). done.
Qed.

Lemma waiting_not_in_hand m B called rest t s : machine m B called rest s → FAdd t ∈ waiting s → t ∉ hands_ s.
Proof using Type.
  intros M Hw Hh. pose proof (mc_coming _ _ _ _ _ M) as [_ Hnd]. unfold coming in Hnd. rewrite pending_adds_app in Hnd.
  apply NoDup_app in Hnd as (_ & Hnd & _). apply (Hnd (sequence_ t)); [by apply elem_of_pending_adds|].
  apply elem_of_pending_adds, list_elem_of_fmap. eauto.
Qed.

(** A timer in the loop's queue: the loop has been woken. *)
Lemma waiting_called t s :
  waits t s → position_ (loop_ s) = InPoll → FAdd t ∈ waiting s → is_called t s.
Proof using clock_pos.
  assert (∀ s, waits t s → position_ (loop_ s) = InPoll → 0 < eventfd_ (loop_ s) → FAdd t ∈ waiting s → is_called t s) as Hfd.
  { clear s. intros s W Hp Hfd Ht. destruct (wt_kept _ _ W) as (m & B & called & rest & M).
    destruct (round t s W Hp Hfd) as (s' & R & W' & P' & E' & H'); [apply elem_of_app; by left|].
    eapply called_after; [exact R|]. apply scheduled_called; [done|done|]. destruct (wt_alive _ _ W') as [Ha|Ha]; [|done].
    unfold coming in Ha. rewrite E', H' in Ha. apply list_elem_of_fmap in Ha as (t' & [= <-] & Ha).
    by destruct (waiting_not_in_hand _ _ _ _ _ _ M Ht). }
  intros W Hp Ht. destruct (wt_kept _ _ W) as (m & B & called & rest & M). pose proof (linv_reachable _ (mc_loop _ _ _ _ _ M)) as L.
  destruct (Z.ltb_spec 0 (eventfd_ (loop_ s))) as [H|H]; [by apply Hfd|].
  assert (woken (loop_ s)) as [?|Hwk]; [|lia|].
  { apply (li_woken _ L); [by rewrite Hp|]. intros Hnil. unfold waiting in Ht.
    rewrite Hnil, (li_batch _ L) in Ht by (by rewrite Hp). by apply elem_of_nil in Ht. }
  destruct (wakers_ (loop_ s)) as [|n] eqn:Hn; [lia|]. destruct (wakeup_fields (set_wakers (loop_ s) n)) as (k & Hk & Hpos).
  assert (enabled (OtherWakeup n) s) as He by done.
  destruct (loop_move (OtherWakeup n) (wakeup (set_wakers (loop_ s) n)) t s W I He eq_refl) as (W1 & R1 & C1); [by rewrite Hk|].
  eapply called_after; [exact R1|]. rewrite Hk in *. apply Hfd; try done; cbn.
  apply Hpos. cbn. pose proof (li_eventfd _ L). lia.
Qed.

Lemma poll_called t s : waits t s → position_ (loop_ s) = InPoll → is_called t s.
Proof using clock_pos.
  intros W Hp. destruct (wt_alive _ _ W) as [Ha|Ho]; [|by apply scheduled_called].
  apply elem_of_app in Ha as [Hw|Hh]; [by apply waiting_called|]. apply list_elem_of_fmap in Hh as (t' & [= <-] & Hh).
  apply list_elem_of_lookup in Hh as [n Hn]. destruct W as [Hk Hq Ha Hc Htm]. pose proof Hk as (m & B & called & rest & M).
  set (f := fresh (queued_ (loop_ s))). set (tid := threadId_ (loop_ s) + 1).
  assert (enabled (OtherAdd tid f n t) s) as He by (split_and!; [unfold tid; lia|apply infinite_is_fresh|done]).
  destruct (other_add_ok m B called rest tid f n t s M He) as (_ & M' & C'). set (s' := other_add tid f n t s) in *.
  destruct (queueInLoop_keeps tid f (loop_ s)) as (_ & _ & _ & P & _).
  eapply called_after; [apply (reaches_step (OtherAdd tid f n t) _ s' []); [done|done|by rewrite app_nil_r]|].
  apply waiting_called; [|by rewrite <- Hp, <- P|].
  - split; [by exists m, B, called, rest| | |intros i; rewrite C'; apply Hc|done].
    + rewrite <- Hq. cbn. unfold queueInLoop. destruct (must_wakeup _ _); [|done]. destruct (isInLoopThread _ _); [|done].
      by destruct (wakeup_fields (queue_push f (loop_ s))) as (k & -> & _).
    + left. rewrite C'. apply elem_of_app. right. apply list_elem_of_fmap. exists t. split; [done|]. by eapply list_elem_of_lookup_2.
  - change (waiting s') with (waiting (with_job f (FAdd t) (with_loop (queueInLoop tid f (loop_ s)) s))).
    rewrite waiting_job; [apply elem_of_app; right; by left|apply M|apply M'|apply infinite_is_fresh].
Qed.

End Steps.

(** ** A dispatch that nobody disturbs *)

Section Alone.
Context (clock : nat → Z).

Definition user_act (a : timer_action) (s : System) : outcome System :=
  match a with ActAdd cb when interval => user_add clock cb when interval s | ActCancel i => user_cancel clock i s end.

(** The callbacks one after the other, each followed by what it does. *)
Fixpoint calls (behave : Z → list timer_action) (d : dispatch) (es : list Entry) (s : System) : outcome System :=
  match es with
  | [] => Ok s
  | e :: es =>
      let acts := match timerOwners_ (queue_ s) !! snd e with Some t => behave (sequence_ t) | None => [] end in
      let! s1 := call clock d e es s in
      let! s2 := foldM user_act acts s1 in
      calls behave d es s2
  end.

Definition alone (behave : Z → list timer_action) (rest : list Z) (s : System) : outcome System :=
  let! s1 := fire clock rest s in
  match firing_ s1 with
  | Some d => let! s2 := calls behave d (expired_ d) s1 in fired clock d s2
  | None => Ok s1
  end.

Lemma user_act_queue a s : (let! s' := user_act a s in Ok (queue_ s')) = act clock a (queue_ s).
Proof.
  destruct a as [cb when interval|i]; cbn [user_act act]; [unfold user_add|unfold user_cancel].
  - by destruct (addTimer clock true cb when interval (queue_ s)) as [[j q]|].
  - by destruct (TimerQueue.cancel clock true i (queue_ s)).
Qed.

Lemma user_acts_queue l : ∀ s, (let! s' := foldM user_act l s in Ok (queue_ s')) = foldM (act clock) l (queue_ s).
Proof.
  induction l as [|a l IH]; intros s; [done|]. cbn [foldM]. rewrite <- user_act_queue.
  destruct (user_act a s) as [s1|]; cbn [obind]; [apply IH|done].
Qed.

Lemma calls_queue behave d es : ∀ s,
  (let! s' := calls behave d es s in Ok (queue_ s')) = foldM (call_one clock behave) es (queue_ s).
Proof.
  induction es as [|e es IH]; intros s; [done|]. cbn [foldM calls]. unfold call, call_one at 1 2, run.
  destruct (timerOwners_ (queue_ s) !! snd e) as [t|]; cbn [foldM obind]; [|exact (IH (add_log [] _))].
  set (s1 := add_log _ _). change (log_run (sequence_ t, callback_ t) (queue_ s)) with (queue_ s1).
  rewrite <- (user_acts_queue (behave (sequence_ t)) s1).
  destruct (foldM user_act (behave (sequence_ t)) s1) as [s2|]; cbn [obind]; [apply IH|done].
Qed.

(** Taken together the steps are [TimerQueue::handleRead]. *)
Lemma dispatch_is_handleRead behave rest s :
  readable_ s = true →
  (let! s' := alone behave rest s in Ok (queue_ s')) = TimerQueue.handleRead clock behave (queue_ s).
Proof.
  intros Hr. unfold alone, fire, TimerQueue.handleRead. cbn [Timestamp_now]. cbv beta zeta.
  cbn [with_loop queue_ readable_]. rewrite Hr. destruct (getExpired _ _) as [[expired q2]|]; cbn [obind]; [|done].
  cbn [with_firing with_timers firing_ expired_]. 
  match goal with |- context [calls behave ?e expired ?x] => set (s1 := x); set (d := e) end. change (TimerQueue.set_calling true ∅ q2) with (queue_ s1).
  rewrite <- (calls_queue behave d expired s1). destruct (calls behave d expired s1) as [s2|]; cbn [obind]; [|done].
  unfold fired. cbn [expired_ now_ d]. by destruct (reset _ _ _ _).
Qed.
End Alone.

(** ** The theorems at concrete inputs *)

Fixpoint run_events (l : list event) (s : System) : outcome System :=
  match l with [] => Ok s | e :: l => let! s' := perform sample_clock e s in run_events l s' end.

Definition sample_initial : System := initial sample_loop 60.
Definition after (l : list event) : System :=
  match run_events l sample_initial with Ok s => s | Fault _ => sample_initial end.

(** The loop (thread 1) is in poll when thread 2 asks for a timer due at 900
    that repeats every 50 and has handed it over, and thread 3 has one made. *)
Definition sample_events : list event :=
  [Start; Test; OtherMake 10 900 50; OtherAdd 2 5 0 (newTimer 10 900 50 0); OtherMake 20 950 0].
Definition sample_timers : System := after sample_events.

Lemma sample_after l e :
  reachable sample_clock (after l) → enabled e (after l) →
  run_events (l ++ [e]) sample_initial = perform sample_clock e (after l) → 
  match perform sample_clock e (after l) with Ok _ => true | Fault _ => false end = true →
  reachable sample_clock (after (l ++ [e])).
Proof.
  intros Hr He Hrun Hok. destruct (perform sample_clock e (after l)) as [s|] eqn:E; [|done].
  unfold after at 1. rewrite Hrun. eapply reach_step; [exact Hr|]. by exists e.
Qed.

Lemma sample_timers_reachable : reachable sample_clock sample_timers.
Proof.
  apply (sample_after [Start; Test; OtherMake 10 900 50; OtherAdd 2 5 0 (newTimer 10 900 50 0)]);
    [|reflexivity|reflexivity|reflexivity].
  apply (sample_after [Start; Test; OtherMake 10 900 50]); [|split; [discriminate|split; [apply not_elem_of_nil|reflexivity]]|reflexivity|reflexivity].
  apply (sample_after [Start; Test]); [|reflexivity|reflexivity|reflexivity].
  apply (sample_after [Start]); [|reflexivity|reflexivity|reflexivity].
  apply (sample_after []); [|reflexivity|reflexivity|reflexivity].
  by apply (reach_new sample_clock 1 50).
Qed.

Lemma loop_timers_kept_witness :
  (∀ e, enabled e sample_timers → ∃ s', perform sample_clock e sample_timers = Ok s') ∧
  (∀ k t0, made_ sample_timers !! k = Some t0 →
    (∃ t, alive sample_timers t ∧ from t0 t) ∨ k ∈ cancels_ sample_timers ∨ ∃ n, (n, t0) ∈ log_ sample_timers ∧ repeat_ t0 = false) ∧
  ((∀ n t, (n, t) ∈ log_ sample_timers → expiration_ t ≤ n ∧ ∃ t0, made_ sample_timers !! sequence_ t = Some t0 ∧ from t0 t) ∧
    spaced (log_ sample_timers)) ∧
  (∀ k t0 s', made_ sample_timers !! k = Some t0 → (∀ t, alive sample_timers t → sequence_ t ≠ k) → step sample_clock sample_timers s' →
    (∀ t, alive s' t → sequence_ t ≠ k) ∧ ∀ n t, (n, t) ∈ log_ s' → sequence_ t = k → (n, t) ∈ log_ sample_timers) ∧
  (position_ (loop_ sample_timers) = InPoll →
    (waiting sample_timers ≠ [] → woken (loop_ sample_timers)) ∧
    ∀ t, timerOwners_ (queue_ sample_timers) !! sequence_ t = Some t → armed_for (queue_ sample_timers) (expiration_ t)).
Proof. apply (loop_timers_kept sample_clock); [exact sample_clock_pos|exact sample_timers_reachable]. Defined.


(** A whole run: the second timer is called when the first, which is called
    again after its interval, has added a third. *)
Example sample_run :
  match run_events (sample_events ++ [OtherAdd 3 6 0 (newTimer 20 950 0 1); OtherWakeup 1; Expire; Polled [50]; Handle 50 []; Handled;
    Functor 5 [6]; Functor 6 []; FunctorsDone; Test; Expire; OtherWakeup 0; Polled [60; 50]; Fire [50];
    Call (mkDispatch 1010 [(900, 1); (950, 2)] [(900, 1); (950, 2)]) (900, 1) [(950, 2)]; UserAdd 30 5000 0;
    Call (mkDispatch 1010 [(900, 1); (950, 2)] [(950, 2)]) (950, 2) [];
    Fired (mkDispatch 1010 [(900, 1); (950, 2)] [])]) sample_initial with
  | Ok s => fst <$> log_ s = [1010; 1010] ∧ timers_ (queue_ s) = [(1060, 1); (5000, 3)]
  | Fault _ => False
  end.
Proof. vm_compute. done. Qed.

(** ** Uses outside the theorems' conditions *)

(** A timer asked for by thread 2 is on its way when a callback in the loop
    thread, which was given its id, cancels it: [cancelInLoop] finds nothing,
    and then the functor enters the timer. *)
Lemma cancel_overtakes_add :
  match run_events (sample_events ++ [OtherWakeup 0; Polled [50; 70]; Handle 50 [70]; Handle 70 []; UserCancel (mkTimerId 1);
    Handled; Functor 5 []]) sample_initial with
  | Ok s => timers_ (queue_ s) = [(900, 1)] ∧ (1 ∈ cancels_ s)
  | Fault _ => False
  end.
Proof. vm_compute. split; [done|]. by apply (bool_decide_unpack _). Qed.

