(* ===== verification/EventLoopThread.v ===== *)
(** * EventLoopThread: a loop that lives on another thread's stack
    ([muduo/net/EventLoopThread.h], [EventLoopThread.cc], [base/Thread.cc])

    The thread that owns the object calls [startLoop] and the destructor; the
    other one runs [threadFunc]. Their steps are the critical sections and the
    waits. Of the loop itself only its life and its quit flag matter here: when
    [loop()] returns is [EventLoop]'s subject. *)
From S2P Require Import Prelude.
From stdpp Require Import options.

(** Where the new thread is. *)
Inductive thread_at : Set :=
| TNone                (* not created *)
| TSpawned             (* in runInThread, tid_ not yet stored *)
| TFunc                (* before [EventLoop loop;] *)
| TCallback | TPublish
| TEnter               (* in loop(), before quit_ = false *)
| TLoop                (* in the while loop *)
| TClear | TDestroy    (* loop() has returned; loop_ is null, the loop still there *)
| TDone.

(** Where the owner is. *)
Inductive owner_at : Set :=
| OIdle                (* constructed, startLoop not called *)
| OWaitTid             (* in Thread::start *)
| OWaitLoop            (* in cond_.wait *)
| OHas                 (* startLoop has returned *)
| OExit                (* in the destructor, before the lock *)
| OQuit                (* has read a loop: before quit_ = true *)
| OWake                (* in quit(), before wakeup() *)
| OJoin                (* in join(), or in the destructor of the std::jthread *)
| OGone.

#[global] Instance thread_at_dec : EqDecision thread_at.
Proof. solve_decision. Defined.
#[global] Instance owner_at_dec : EqDecision owner_at.
Proof. solve_decision. Defined.

(* src/muduo/net/EventLoopThread.h:35-40 EventLoopThread *)
Record EventLoopThread := mkELT {
  loop_ : bool;                    (* not null: there is one loop *)
  exiting_ : bool;
  tid_ : Z;
  thread : thread_at;
  owner : owner_at;
  alive : bool;                    (* the loop object exists *)
  quit_ : bool;                    (* its quit flag *)
  callbacks : nat;                 (* runs of callback_ *)
  dangling : bool                  (* a loop was used that does not exist *)
}.

(* src/muduo/net/EventLoopThread.cc:7-9 EventLoopThread::EventLoopThread *)
Definition newThread : EventLoopThread := mkELT false false 0 TNone OIdle false false 0 false.

Definition set_thread (t : thread_at) (e : EventLoopThread) : EventLoopThread :=
  mkELT (loop_ e) (exiting_ e) (tid_ e) t (owner e) (alive e) (quit_ e) (callbacks e) (dangling e).
Definition set_owner (o : owner_at) (e : EventLoopThread) : EventLoopThread :=
  mkELT (loop_ e) (exiting_ e) (tid_ e) (thread e) o (alive e) (quit_ e) (callbacks e) (dangling e).

(** Use of the loop object: one that is gone is a dangling pointer. *)
Definition use_loop (quit : bool) (e : EventLoopThread) : EventLoopThread :=
  mkELT (loop_ e) (exiting_ e) (tid_ e) (thread e) (owner e) (alive e) (if alive e then quit else quit_ e) (callbacks e)
    (dangling e || negb (alive e)).

(* src/muduo/base/Thread.h:35-37 Thread::started *)
Definition started (e : EventLoopThread) : bool := 0 <? tid_ e.

(** ** The owner *)

(** [startLoop] and, in it, [Thread::start]. *)
(* src/muduo/net/EventLoopThread.cc:24-26 EventLoopThread::startLoop *)
Definition startLoop (e : EventLoopThread) : outcome EventLoopThread :=
  assert! negb (started e) ;;                    (* startLoop *)
  assert! negb (started e) ;;                    (* Thread::start *)
  Ok (set_owner OWaitTid (set_thread TSpawned e)).

(** The wait for [tid_], and the assert after it. *)
(* src/muduo/base/Thread.cc:55-63 Thread::start *)
Definition start_waited (e : EventLoopThread) : option (outcome EventLoopThread) :=
  if tid_ e =? 0 then None else Some (assert! 0 <? tid_ e ;; Ok (set_owner OWaitLoop e)).

(* src/muduo/net/EventLoopThread.cc:28-31 EventLoopThread::startLoop, the wait *)
Definition startLoop_waited (e : EventLoopThread) : option EventLoopThread :=
  if loop_ e then Some (set_owner OHas e) else None.

(** The destructor: the flag; reading [loop_] under the lock; [quit()] in its
    two parts; [join()]. Without a loop, the members' destructors join the
    thread. *)
(* src/muduo/net/EventLoopThread.cc:11-12 EventLoopThread::~EventLoopThread *)
Definition destroy (e : EventLoopThread) : EventLoopThread :=
  mkELT (loop_ e) true (tid_ e) (thread e) OExit (alive e) (quit_ e) (callbacks e) (dangling e).
(* src/muduo/net/EventLoopThread.cc:13-18 EventLoopThread::~EventLoopThread, the lock *)
Definition destroy_read (e : EventLoopThread) : EventLoopThread := set_owner (if loop_ e then OQuit else OJoin) e.
(* src/muduo/net/EventLoopThread.cc:19-19 EventLoopThread::~EventLoopThread, quit *)
Definition destroy_quit (e : EventLoopThread) : EventLoopThread := set_owner OWake (use_loop true e).
Definition destroy_wake (e : EventLoopThread) : EventLoopThread := set_owner OJoin (use_loop (quit_ e) e).
(* src/muduo/base/Thread.cc:65-71 Thread::join *)
Definition join (e : EventLoopThread) : option EventLoopThread :=
  if bool_decide (thread e = TDone ∨ thread e = TNone) then Some (set_owner OGone e) else None.

(** ** The thread *)

(* src/muduo/base/Thread.cc:25-28 Thread::runInThread *)
Definition runInThread (tid : Z) (e : EventLoopThread) : EventLoopThread :=
  mkELT (loop_ e) (exiting_ e) tid TFunc (owner e) (alive e) (quit_ e) (callbacks e) (dangling e).

(** [threadFunc], one definition a step. *)
(* src/muduo/net/EventLoopThread.cc:33-34 EventLoopThread::threadFunc, the loop *)
Definition make_loop (e : EventLoopThread) : EventLoopThread :=
  mkELT (loop_ e) (exiting_ e) (tid_ e) TCallback (owner e) true false (callbacks e) (dangling e).
(** [cb]: there is a callback; [quits]: it calls [quit()]. *)
(* src/muduo/net/EventLoopThread.cc:36-38 EventLoopThread::threadFunc, the callback *)
Definition run_callback (cb quits : bool) (e : EventLoopThread) : EventLoopThread :=
  mkELT (loop_ e) (exiting_ e) (tid_ e) TPublish (owner e) (alive e) (quit_ e || cb && quits)
    (if cb then S (callbacks e) else callbacks e) (dangling e).
(* src/muduo/net/EventLoopThread.cc:40-44 EventLoopThread::threadFunc, the notification *)
Definition publish (e : EventLoopThread) : EventLoopThread :=
  mkELT true (exiting_ e) (tid_ e) TEnter (owner e) (alive e) (quit_ e) (callbacks e) (dangling e).
(* src/muduo/net/EventLoop.cc:77-81 EventLoop::loop, the start *)
Definition enter_loop (e : EventLoopThread) : EventLoopThread :=
  mkELT (loop_ e) (exiting_ e) (tid_ e) TLoop (owner e) (alive e) false (callbacks e) (dangling e).
(** [while (!quit_)] *)
Definition leave_loop (e : EventLoopThread) : option EventLoopThread :=
  if quit_ e then Some (set_thread TClear e) else None.
(* src/muduo/net/EventLoopThread.cc:48-49 EventLoopThread::threadFunc, the end *)
Definition clear_loop (e : EventLoopThread) : EventLoopThread :=
  mkELT false (exiting_ e) (tid_ e) TDestroy (owner e) (alive e) (quit_ e) (callbacks e) (dangling e).
(* src/muduo/net/EventLoopThread.cc:50-50 EventLoopThread::threadFunc, the loop's destructor *)
Definition end_loop (e : EventLoopThread) : EventLoopThread :=
  mkELT (loop_ e) (exiting_ e) (tid_ e) TDone (owner e) false (quit_ e) (callbacks e) (dangling e).

Definition has_returned (o : owner_at) : bool := bool_decide (o ∉ [OIdle; OWaitTid; OWaitLoop]).

Section Steps.
(** Whether there is a callback; whether the user's code may call [quit()] on
    the loop before [startLoop] has returned ([early]); whether the destructor
    may come to [quit()] before the thread has entered [loop()] ([hasty]). *)
Context (cb early hasty : bool).

Inductive step (e : EventLoopThread) : EventLoopThread → Prop :=
| step_start e' : owner e = OIdle → startLoop e = Ok e' → step e e'
| step_started e' : owner e = OWaitTid → start_waited e = Some (Ok e') → step e e'
| step_has e' : owner e = OWaitLoop → startLoop_waited e = Some e' → step e e'
| step_destroy : owner e = OIdle ∨ owner e = OHas → step e (destroy e)
| step_read : owner e = OExit → step e (destroy_read e)
| step_quit : owner e = OQuit → hasty = true ∨ thread e ≠ TEnter → step e (destroy_quit e)
| step_wake : owner e = OWake → step e (destroy_wake e)
| step_join e' : owner e = OJoin → join e = Some e' → step e e'
| step_run tid : thread e = TSpawned → 0 < tid → step e (runInThread tid e)
| step_make : thread e = TFunc → step e (make_loop e)
| step_callback quits : thread e = TCallback → (quits = true → early = true) → step e (run_callback cb quits e)
| step_publish : thread e = TPublish → step e (publish e)
| step_enter : thread e = TEnter → step e (enter_loop e)
| step_leave e' : thread e = TLoop → leave_loop e = Some e' → step e e'
| step_clear : thread e = TClear → step e (clear_loop e)
| step_end : thread e = TDestroy → step e (end_loop e).

(** A functor or a callback of the loop, or another thread, calls [quit()]. *)
Inductive user_step (e : EventLoopThread) : EventLoopThread → Prop :=
| user_quits : thread e = TEnter ∨ thread e = TLoop → early = true ∨ has_returned (owner e) = true →
    user_step e (use_loop true e).

Inductive reachable : EventLoopThread → Prop :=
| reach_new : reachable newThread
| reach_step e e' : reachable e → step e e' → reachable e'
| reach_user e e' : reachable e → user_step e e' → reachable e'.

(** ** What holds in every state *)

Definition running (t : thread_at) : bool := match t with TEnter | TLoop | TClear => true | _ => false end.
Definition existing (t : thread_at) : bool :=
  match t with TCallback | TPublish | TEnter | TLoop | TClear | TDestroy => true | _ => false end.
Definition called_back (t : thread_at) : bool :=
  match t with TNone | TSpawned | TFunc | TCallback => false | _ => true end.
Definition published (t : thread_at) : bool :=
  match t with TEnter | TLoop | TClear | TDestroy | TDone => true | _ => false end.

Definition ran (t : thread_at) : bool := match t with TNone | TSpawned => false | _ => true end.

(** Where the thread can be when the owner is at [o]. *)
Definition together (o : owner_at) (t : thread_at) : bool :=
  match o with
  | OIdle => bool_decide (t = TNone)
  | OWaitTid | OWaitLoop => bool_decide (t ≠ TNone) && (early || negb (bool_decide (t ∈ [TClear; TDestroy; TDone])))
  | OHas | OQuit => published t
  | OExit => published t || bool_decide (t = TNone)
  | OWake | OJoin =>
      (published t || bool_decide (t = TNone) && bool_decide (o = OJoin)) && (hasty || negb (bool_decide (t = TEnter)))
  | OGone => bool_decide (t = TNone ∨ t = TDone)
  end.

(** What the loop's quit flag and a dangling pointer say. *)
Definition flags_ok (o : owner_at) (t : thread_at) (quit dangling : bool) : bool :=
  (early || has_returned o || negb quit) &&
  (hasty || negb (bool_decide (o = OWake ∨ o = OJoin)) || negb (bool_decide (t = TLoop)) || quit) &&
  (negb (bool_decide (t ∈ [TClear; TDestroy; TDone])) || quit) &&
  (negb dangling || bool_decide (o ∈ [OWake; OJoin; OGone])).

Record inv (e : EventLoopThread) : Prop := mkInv {
  inv_loop : loop_ e = running (thread e);
  inv_alive : alive e = existing (thread e);
  inv_callbacks : callbacks e = if cb && called_back (thread e) then 1%nat else 0%nat;
  inv_tid : 0 ≤ tid_ e;
  inv_ran : (0 <? tid_ e) = ran (thread e);
  inv_together : together (owner e) (thread e) = true;
  inv_flags : flags_ok (owner e) (thread e) (quit_ e) (dangling e) = true
}.
End Steps.

Lemma thread_inv_new cb early hasty : inv cb early hasty newThread.
Proof. split; try done; [by rewrite andb_false_r|by destruct early, hasty]. Qed.

(** Case analysis over where the two threads are and the flags. *)
Ltac places :=
  repeat match goal with
  | b : bool |- _ => destruct b
  | t : thread_at |- _ => destruct t
  | o : owner_at |- _ => destruct o
  end; try done.

Ltac finish_inv H5 := split; cbn; try done; try rewrite H5; places.

Lemma inv_preserved cb early hasty e e' : inv cb early hasty e → step cb early hasty e e' → inv cb early hasty e'.
Proof.
  intros [H1 H2 H3 H4 H5 H6 H7] Hs. destruct e as [l ex td t o al q n d].
  cbn [thread owner loop_ alive callbacks tid_ quit_ dangling] in *. subst l al n.
  destruct Hs as [e' Ho He|e' Ho He|e' Ho He|Ho|Ho|Ho Hh|Ho|e' Ho He|tid Ht Htid|Ht|quits Ht Hq|Ht|Ht|e' Ht He|Ht|Ht];
    cbn [thread owner] in *; subst.
  - unfold startLoop, started in He. cbn in He. rewrite H5 in He. destruct t; try done. injection He as <-. finish_inv H5.
  - unfold start_waited in He. cbn in He. rewrite H5 in He. destruct (td =? 0); [done|]. destruct (ran t) eqn:Er; [|done].
    injection He as <-. finish_inv H5.
  - unfold startLoop_waited in He. cbn in He. destruct (running t) eqn:Er; [|done]. injection He as <-. finish_inv H5.
  - destruct Ho as [->| ->]; finish_inv H5.
  - unfold destroy_read. cbn [loop_]. finish_inv H5.
  - destruct hasty; [|destruct Hh; [done|]]; finish_inv H5.
  - finish_inv H5.
  - unfold join in He. cbn in He. case_bool_decide as Hj; [|done]. injection He as <-. destruct Hj as [->| ->]; finish_inv H5.
  - split; cbn; try done; [lia|by apply Z.ltb_lt|places..].
  - finish_inv H5.
  - destruct early, quits; try (by specialize (Hq eq_refl)); finish_inv H5.
  - finish_inv H5.
  - finish_inv H5.
  - unfold leave_loop in He. cbn in He. destruct q; [|done]. injection He as <-. finish_inv H5.
  - finish_inv H5.
  - finish_inv H5.
Qed.

Lemma inv_user cb early hasty e e' : inv cb early hasty e → user_step early e e' → inv cb early hasty e'.
Proof.
  intros [H1 H2 H3 H4 H5 H6 H7] [Ht Ho]. destruct e as [l ex td t o al q n d].
  cbn [thread owner loop_ alive callbacks tid_ quit_ dangling] in *. subst l al n.
  destruct Ht as [->| ->]; (destruct early; [|destruct Ho as [Ho|Ho]; [done|]]); finish_inv H5.
Qed.

Lemma thread_reachable_inv cb early hasty e : reachable cb early hasty e → inv cb early hasty e.
Proof. induction 1; [apply thread_inv_new|by eapply inv_preserved|by eapply inv_user]. Qed.

(** ** What ends *)

Definition thread_left (t : thread_at) : nat :=
  match t with
  | TNone => 9 | TSpawned => 8 | TFunc => 7 | TCallback => 6 | TPublish => 5 | TEnter => 4 | TLoop => 3 | TClear => 2
  | TDestroy => 1 | TDone => 0
  end.
Definition owner_left (o : owner_at) : nat :=
  match o with
  | OIdle => 8 | OWaitTid => 7 | OWaitLoop => 6 | OHas => 5 | OExit => 4 | OQuit => 3 | OWake => 2 | OJoin => 1 | OGone => 0
  end.
(** The steps the two threads have left. *)
Definition steps_left (e : EventLoopThread) : nat := thread_left (thread e) + owner_left (owner e).

Lemma step_left cb early hasty e e' :
  inv cb early hasty e → step cb early hasty e e' → (steps_left e' < steps_left e)%nat.
Proof.
  intros [_ _ _ _ _ H6 _] Hs. destruct e as [l ex td t o al q n d]. unfold steps_left.
  destruct Hs as [e' Ho He|e' Ho He|e' Ho He|Ho|Ho|Ho Hh|Ho|e' Ho He|tid Ht Htid|Ht|quits Ht Hq|Ht|Ht|e' Ht He|Ht|Ht];
    cbn in *; subst; try (cbn; lia).
  - unfold startLoop, started in He. cbn in He. destruct (0 <? td); [done|]. injection He as <-. destruct t; cbn; done || lia.
  - unfold start_waited in He. cbn in He. destruct (td =? 0), (0 <? td); try done. injection He as <-. cbn. lia.
  - unfold startLoop_waited in He. destruct l; [|done]. injection He as <-. cbn. lia.
  - destruct Ho as [->| ->]; cbn; lia.
  - unfold destroy_read. destruct l; cbn; lia.
  - unfold join in He. cbn in He. case_bool_decide; [|done]. injection He as <-. cbn. lia.
  - unfold leave_loop in He. destruct q; [|done]. injection He as <-. cbn. lia.
Qed.

(** The thread goes on, unless its loop has not been told to quit. *)
Lemma thread_enabled cb early hasty e :
  thread e ≠ TNone → thread e ≠ TDone → (thread e = TLoop → quit_ e = true) → ∃ e', step cb early hasty e e'.
Proof.
  intros H1 H2 H3. destruct (thread e) eqn:E; try done; eexists.
  - by apply (step_run _ _ _ _ 1).
  - by apply step_make.
  - by apply (step_callback _ _ _ _ false).
  - by apply step_publish.
  - by apply step_enter.
  - apply step_leave; [done|]. unfold leave_loop. by rewrite H3.
  - by apply step_clear.
  - by apply step_end.
Qed.

(** Nobody waits for ever. *)
Lemma step_enabled cb e : inv cb false false e → owner e = OGone ∨ ∃ e', step cb false false e e'.
Proof.
  intros [H1 H2 H3 H4 H5 H6 H7]. destruct (owner e) eqn:Eo; cbn in H6; [right|right|right|right|right|right|right|right|by left].
  - eexists. by apply step_destroy; left.
  - destruct (decide (thread e = TSpawned)) as [Et|Et]; [by apply thread_enabled; rewrite Et|].
    assert (0 < tid_ e) as Ht. { apply Z.ltb_lt. rewrite H5. destruct (thread e); done. }
    eexists. apply step_started; [done|]. unfold start_waited. by rewrite (proj2 (Z.eqb_neq _ _)), (proj2 (Z.ltb_lt 0 _)) by lia.
  - destruct (running (thread e)) eqn:Er; [|by apply thread_enabled; destruct (thread e)].
    eexists. apply step_has; [done|]. unfold startLoop_waited. by rewrite H1.
  - eexists. by apply step_destroy; right.
  - eexists. by apply step_read.
  - destruct (decide (thread e = TEnter)) as [Et|Et]; [by apply thread_enabled; rewrite Et|]. eexists. apply step_quit; [done|by right].
  - eexists. by apply step_wake.
  - destruct (decide (thread e = TNone ∨ thread e = TDone)) as [Ht|Ht].
    + eexists. apply step_join; [done|]. unfold join. rewrite bool_decide_true by naive_solver. done.
    + apply thread_enabled; [naive_solver..|]. intros Et. rewrite Et in H7. destruct (quit_ e); [done|]. by destruct (dangling e).
Qed.


(** The steps of the owner and the thread in a run without haste. *)
Definition waiting : EventLoopThread := mkELT true false 7 TEnter OWaitLoop true false 1 false.
Tactic Notation "advance" hyp(H) uconstr(c) :=
  eapply reach_step in H; [|solve [eapply c; (reflexivity || (left; reflexivity) || (right; done) || done)]].

Lemma waiting_reachable early hasty : reachable true early hasty waiting.
Proof.
  pose proof (reach_new true early hasty) as H.
  advance H step_start.
  advance H (step_run true _ _ _ 7).
  advance H step_started.
  advance H step_make.
  advance H (step_callback true _ _ _ false).
  advance H step_publish. exact H.
Qed.


(** *** Uses that surprise *)

(** A destructor that comes before the thread has entered [loop()], which
    stores [quit_ = false], waits for ever. *)
Lemma hasty_destructor_hangs :
  ∃ e, reachable true false true e ∧ owner e = OJoin ∧ ∀ e', ¬ step true false true e e'.
Proof.
  pose proof (waiting_reachable false true) as H.
  advance H step_has.
  advance H step_destroy.
  advance H step_read.
  advance H step_quit.
  advance H step_wake.
  advance H step_enter.
  eexists. split; [exact H|]. split; [done|]. intros e' Hs. inversion Hs; naive_solver.
Qed.

(** The loop thread may leave [loop()] between the two parts of the
    destructor's [quit()] and destroy the loop: the wake-up then writes to a
    closed descriptor of a dead object. *)
Lemma destructor_wakes_dead_loop : ∃ e, reachable true false false e ∧ dangling e = true.
Proof.
  pose proof (waiting_reachable false false) as H.
  advance H step_has.
  advance H step_enter.
  advance H step_destroy.
  advance H step_read.
  advance H step_quit.
  advance H step_leave.
  advance H step_clear.
  advance H step_end.
  advance H step_wake.
  eexists. by split; [exact H|].
Qed.

(** A loop that is told to quit before [startLoop] has seen it leaves a null
    [loop_] behind, and [startLoop] waits for ever. *)
Lemma early_quit_start_hangs :
  ∃ e, reachable true true false e ∧ owner e = OWaitLoop ∧ ∀ e', ¬ step true true false e e'.
Proof.
  pose proof (waiting_reachable true false) as H.
  advance H step_enter.
  eapply reach_user in H; [|by apply user_quits; [right|left]].
  advance H step_leave.
  advance H step_clear.
  advance H step_end.
  eexists. split; [exact H|]. split; [done|]. intros e' Hs. inversion Hs; naive_solver.
Qed.
