(* ===== verification/EventLoopThreadPool.v ===== *)
(** * EventLoopThreadPool: which loop serves a new connection
    ([muduo/net/EventLoopThreadPool.cc])

    A loop is an address. [startLoop] of the threads is a parameter: the i-th
    thread's loop. The functions run in the base loop's thread ([here]). *)
From S2P Require Import Prelude Format.
From stdpp Require Import options.

(* src/muduo/net/EventLoopThreadPool.h:40-46 EventLoopThreadPool *)
Record EventLoopThreadPool := mkPool {
  baseLoop_ : Z;
  name_ : bytes;
  started_ : bool;
  numThreads_ : Z;
  next_ : Z;
  threads_ : list bytes;             (* the threads' names *)
  loops_ : list Z
}.

(* src/muduo/net/EventLoopThreadPool.cc:12-13 EventLoopThreadPool::EventLoopThreadPool *)
Definition newPool (baseLoop : Z) (nameArg : bytes) : EventLoopThreadPool :=
  mkPool baseLoop nameArg false 0 0 [] [].

(* src/muduo/net/EventLoopThreadPool.h:24-24 EventLoopThreadPool::setThreadNum *)
Definition setThreadNum (numThreads : Z) (p : EventLoopThreadPool) : EventLoopThreadPool :=
  mkPool (baseLoop_ p) (name_ p) (started_ p) numThreads (next_ p) (threads_ p) (loops_ p).

Section Pool.
Context (startLoop : Z → Z).

(** The loop over [i], from [i] to [numThreads_]. *)
Fixpoint start_threads (n : nat) (i : Z) (p : EventLoopThreadPool) : EventLoopThreadPool :=
  match n with
  | O => p
  | S n' =>
      start_threads n' (i + 1)
        (mkPool (baseLoop_ p) (name_ p) (started_ p) (numThreads_ p) (next_ p)
           (threads_ p ++ [name_ p ++ format_int i]) (loops_ p ++ [startLoop i]))
  end.

(** The loops the initial callback is run in, and the pool. *)
(* src/muduo/net/EventLoopThreadPool.cc:17-43 EventLoopThreadPool::start *)
Definition start (here cb : bool) (p : EventLoopThreadPool) : outcome (list Z * EventLoopThreadPool) :=
  assert! negb (started_ p) ;;
  let! _ := (if here then Ok tt else Fault FatalLog) in
  let p1 := mkPool (baseLoop_ p) (name_ p) true (numThreads_ p) (next_ p) (threads_ p) (loops_ p) in
  let p2 := start_threads (Z.to_nat (numThreads_ p1)) 0 p1 in
  Ok (if cb then loops_ p2 ++ (if numThreads_ p2 =? 0 then [baseLoop_ p2] else []) else [], p2).
End Pool.

(* src/muduo/net/EventLoopThreadPool.cc:45-58 EventLoopThreadPool::getNextLoop *)
Definition getNextLoop (here : bool) (p : EventLoopThreadPool) : outcome (Z * EventLoopThreadPool) :=
  let! _ := (if here then Ok tt else Fault FatalLog) in
  assert! started_ p ;;
  match loops_ p with
  | [] => Ok (baseLoop_ p, p)
  | _ =>
      match loops_ p !! Z.to_nat (size_t (next_ p)) with
      | None => Fault OutOfBounds
      | Some loop =>
          let next := next_ p + 1 in
          let next := if len (loops_ p) <=? size_t next then 0 else next in
          Ok (loop, mkPool (baseLoop_ p) (name_ p) (started_ p) (numThreads_ p) next (threads_ p) (loops_ p))
      end
  end.

(* src/muduo/net/EventLoopThreadPool.cc:60-67 EventLoopThreadPool::getLoopForHash *)
Definition getLoopForHash (here : bool) (hashCode : Z) (p : EventLoopThreadPool) : outcome Z :=
  let! _ := (if here then Ok tt else Fault FatalLog) in
  assert! started_ p ;;
  match loops_ p with
  | [] => Ok (baseLoop_ p)
  | _ => match loops_ p !! Z.to_nat (hashCode mod len (loops_ p)) with
         | Some loop => Ok loop
         | None => Fault OutOfBounds
         end
  end.

(* src/muduo/net/EventLoopThreadPool.cc:69-76 EventLoopThreadPool::getAllLoops *)
Definition getAllLoops (here : bool) (p : EventLoopThreadPool) : outcome (list Z) :=
  let! _ := (if here then Ok tt else Fault FatalLog) in
  assert! started_ p ;;
  Ok (match loops_ p with [] => [baseLoop_ p] | l => l end).

(** ** Round robin *)

(** [next_] is an index of [loops_], and the loops' number fits an [int]. *)
Definition pool_ok (p : EventLoopThreadPool) : Prop :=
  started_ p = true ∧ (loops_ p = [] ∨ 0 ≤ next_ p < len (loops_ p)) ∧ len (loops_ p) < 2 ^ 31.

(** The loops that serve, in order. *)
Definition serving (p : EventLoopThreadPool) : list Z :=
  match loops_ p with [] => [baseLoop_ p] | l => l end.

Lemma start_threads_loops startLoop n : ∀ i p,
  loops_ (start_threads startLoop n i p) = loops_ p ++ (startLoop <$> seqZ i (Z.of_nat n)) ∧
  started_ (start_threads startLoop n i p) = started_ p ∧ next_ (start_threads startLoop n i p) = next_ p ∧
  baseLoop_ (start_threads startLoop n i p) = baseLoop_ p ∧ numThreads_ (start_threads startLoop n i p) = numThreads_ p.
Proof.
  induction n as [|n IH]; intros i p.
  - cbn. by rewrite app_nil_r.
  - cbn [start_threads]. destruct (IH (i + 1) (mkPool (baseLoop_ p) (name_ p) (started_ p) (numThreads_ p) (next_ p)
      (threads_ p ++ [name_ p ++ format_int i]) (loops_ p ++ [startLoop i]))) as (-> & -> & -> & -> & ->).
    cbn [loops_]. split; [|done]. rewrite (seqZ_cons i) by lia. cbn. rewrite <- app_assoc. cbn. do 4 f_equal; lia.
Qed.

Lemma start_ok startLoop cb p :
  started_ p = false → loops_ p = [] → next_ p = 0 → 0 ≤ numThreads_ p < 2 ^ 31 →
  ensures (start startLoop true cb p) (λ '(ran, p'), pool_ok p' ∧ next_ p' = 0 ∧
    loops_ p' = startLoop <$> seqZ 0 (numThreads_ p) ∧ (cb = true → ran = serving p') ∧ baseLoop_ p' = baseLoop_ p).
Proof.
  intros Hs Hl Hn Hk. unfold start. rewrite Hs. pass_asserts. cbn.
  destruct (start_threads_loops startLoop (Z.to_nat (numThreads_ p)) 0
    (mkPool (baseLoop_ p) (name_ p) true (numThreads_ p) (next_ p) (threads_ p) (loops_ p)))
    as (El & Es & En & Eb & Et). rewrite El, Eb, Et. cbn [loops_ baseLoop_ numThreads_] in *.
  rewrite Hl, Z2Nat.id in * by lia.
  assert (len (startLoop <$> seqZ 0 (numThreads_ p)) = numThreads_ p) as Hlen.
  { unfold len. rewrite length_fmap, length_seqZ. lia. }
  split_and!.
  - unfold pool_ok. rewrite Es, El, En, Hn. cbn. split_and!; [done| |by rewrite Hlen; lia].
    destruct (decide (numThreads_ p = 0)) as [->|]; [by left|right; rewrite Hlen; lia].
  - by rewrite En.
  - by rewrite El.
  - intros ->. unfold serving. rewrite El, Eb. cbn.
    destruct (Z.eqb_spec (numThreads_ p) 0) as [->|Hne]; [done|].
    rewrite app_nil_r. destruct (startLoop <$> seqZ 0 (numThreads_ p)); [cbn in Hlen; unfold len in Hlen; cbn in Hlen; lia|done].
  - by rewrite Eb.
Qed.

(** The position of the next loop among those that serve. *)
Definition position (p : EventLoopThreadPool) : Z := match loops_ p with [] => 0 | _ => next_ p end.

Lemma getNextLoop_ok p :
  pool_ok p →
  ensures (getNextLoop true p) (λ '(loop, p'), pool_ok p' ∧ serving p' = serving p ∧ baseLoop_ p' = baseLoop_ p ∧
    serving p !! Z.to_nat (position p) = Some loop ∧
    position p' = (position p + 1) mod len (serving p)).
Proof.
  intros (Hs & Hn & Hl). unfold getNextLoop. cbn [obind]. rewrite Hs. pass_asserts.
  unfold serving, position in *. destruct (loops_ p) as [|a l] eqn:El.
  { cbn. rewrite El. cbn. split_and!; try done. split_and!; [done|by left|by rewrite El]. }
  destruct Hn as [?|Hn]; [done|]. rewrite wrap_small by lia. cbv zeta.
  destruct (lookup_lt_is_Some_2 (a :: l) (Z.to_nat (next_ p))) as [loop Hloop]; [unfold len in Hn; lia|].
  rewrite Hloop. rewrite wrap_small by lia. cbn [ensures loops_ next_ baseLoop_].
  set (next := if len (a :: l) <=? next_ p + 1 then 0 else next_ p + 1).
  assert (next = (next_ p + 1) mod len (a :: l)) as Hnext.
  { unfold next. destruct (Z.leb_spec (len (a :: l)) (next_ p + 1)).
    - replace (next_ p + 1) with (len (a :: l)) by lia. by rewrite Z_mod_same_full.
    - symmetry. apply Z.mod_small. lia. }
  split_and!; [|done|done|done|done]. unfold pool_ok. cbn. split_and!; [done| |done].
  right. rewrite Hnext. apply Z.mod_pos_bound. lia.
Qed.

(** [k] calls in a row. *)
Fixpoint next_loops (k : nat) (p : EventLoopThreadPool) : outcome (list Z * EventLoopThreadPool) :=
  match k with
  | O => Ok ([], p)
  | S k' =>
      let! (loop, p1) := getNextLoop true p in
      let! (ls, p2) := next_loops k' p1 in
      Ok (loop :: ls, p2)
  end.

Definition rotation (l : list Z) (i : Z) (k : nat) : list Z :=
  (λ j, l !!! Z.to_nat (j mod len l)) <$> seqZ i (Z.of_nat k).

Lemma next_loops_ok k : ∀ p,
  pool_ok p → ensures (next_loops k p) (λ '(ls, p'), pool_ok p' ∧ serving p' = serving p ∧ ls = rotation (serving p) (position p) k).
Proof.
  induction k as [|k IH]; intros p Hp; [done|]. cbn [next_loops].
  eapply ensures_bind; [by apply getNextLoop_ok|]. intros [loop p1] (Hp1 & Hs1 & _ & Hloop & Hpos).
  eapply ensures_bind; [by apply IH|]. intros [ls p2] (Hp2 & Hs2 & ->). cbn [ensures].
  split_and!; [done|congruence|]. rewrite Hs1. unfold rotation. rewrite (seqZ_cons (position p)) by lia.
  assert (0 ≤ position p < len (serving p)) as Hrange.
  { apply lookup_lt_Some in Hloop. unfold len. split; [|lia].
    destruct Hp as (_ & Hn & _). unfold position. destruct (loops_ p); [done|]. destruct Hn; [done|lia]. }
  cbn [fmap list_fmap]. f_equal.
  - rewrite Z.mod_small by lia. symmetry. by apply list_lookup_total_correct.
  - rewrite Hpos. replace (Z.pred (Z.of_nat (S k))) with (Z.of_nat k) by lia.
    replace (Z.succ (position p)) with (position p + 1) by lia.
    rewrite <- (Z.add_0_r ((position p + 1) mod _)), <- (Z.add_0_r (position p + 1)).
    rewrite <- !fmap_add_seqZ, <- !list_fmap_compose. apply list_fmap_ext. intros j x _. cbn.
    rewrite Z.add_0_r, Zplus_mod_idemp_l. done.
Qed.

Lemma rotation_round l i :
  l ≠ [] → i mod len l = 0 → rotation l i (length l) = l.
Proof.
  intros Hne Hi. assert (0 < len l) as Hl by (destruct l; [done|unfold len; cbn; lia]).
  apply list_eq. intros k. unfold rotation. rewrite list_lookup_fmap.
  destruct (decide (k < length l)%nat) as [Hk|Hk].
  - rewrite lookup_seqZ_lt by lia. cbn.
    destruct (lookup_lt_is_Some_2 l k Hk) as [x Hx]. rewrite Hx. f_equal.
    rewrite <- Zplus_mod_idemp_l, Hi, Z.mod_small by (unfold len; lia).
    replace (Z.to_nat (0 + Z.of_nat k)) with k by lia. by apply list_lookup_total_correct.
  - rewrite lookup_seqZ_ge by lia. symmetry. apply lookup_ge_None. lia.
Qed.

Lemma rotation_rounds l q : ∀ i,
  l ≠ [] → i mod len l = 0 → rotation l i (q * length l) = concat (replicate q l).
Proof.
  induction q as [|q IH]; intros i Hne Hi; [done|].
  assert (0 < len l) as Hl by (destruct l; [done|unfold len; cbn; lia]).
  cbn [Nat.mul replicate concat]. unfold rotation. rewrite Nat2Z.inj_add, seqZ_app, fmap_app by lia.
  f_equal; [by apply rotation_round|]. apply IH; [done|].
  change (Z.of_nat (length l)) with (len l). rewrite <- (Z.mul_1_l (len l)) at 1. by rewrite Z.mod_add by lia.
Qed.

(** Round robin. A pool that has been started serves by its threads' loops
    (by the base loop when it has none), runs the initial callback once in each
    of them, and hands them out in turn: any whole number of rounds of
    [getNextLoop] is that many copies of the list of loops, so no loop ever
    gets more than one connection more than another; [getLoopForHash] always
    gives one of them, the same for the same hash. *)
Theorem pool_round_robin startLoop p q hash :
  started_ p = false → loops_ p = [] → next_ p = 0 → 0 ≤ numThreads_ p < 2 ^ 31 → 0 ≤ hash →
  ensures (start startLoop true true p) (λ '(ran, p'), ran = serving p' ∧
    serving p' = (if numThreads_ p =? 0 then [baseLoop_ p] else startLoop <$> seqZ 0 (numThreads_ p)) ∧
    ensures (next_loops (q * length (serving p')) p') (λ '(ls, _), ls = concat (replicate q (serving p'))) ∧
    ensures (getLoopForHash true hash p') (λ l, serving p' !! Z.to_nat (hash mod len (serving p')) = Some l) ∧
    getAllLoops true p' = Ok (serving p')).
Proof.
  intros Hs Hl Hn Hk Hh. eapply ensures_mono; [exact (start_ok startLoop true p Hs Hl Hn Hk)|].
  intros [ran p'] (Hp' & Hn' & Hl' & Hran & Hb). split_and!; [by apply Hran| | | |].
  - unfold serving. rewrite Hl', Hb. destruct (Z.eqb_spec (numThreads_ p) 0) as [->|Hne]; [done|].
    by rewrite seqZ_cons by lia.
  - eapply ensures_mono; [by apply next_loops_ok|]. intros [ls p2] (_ & _ & ->).
    apply rotation_rounds; [unfold serving; by destruct (loops_ p')|].
    unfold position. rewrite Hn'. by destruct (loops_ p').
  - unfold getLoopForHash, serving. destruct Hp' as (-> & _). pass_asserts.
    destruct (loops_ p') as [|a l]; cbn [ensures]; [by rewrite Z.mod_1_r|].
    assert (0 < len (a :: l)) by (unfold len; cbn; lia).
    pose proof (Z.mod_pos_bound hash (len (a :: l))).
    destruct (lookup_lt_is_Some_2 (a :: l) (Z.to_nat (hash mod len (a :: l)))) as [x Hx]; [unfold len in *; lia|].
    by rewrite Hx.
  - unfold getAllLoops, serving. destruct Hp' as (-> & _). done.
Qed.

Definition sample_pool : EventLoopThreadPool := setThreadNum 3 (newPool 100 (str "pool")).

Lemma pool_round_robin_witness :
  ensures (start (λ i, 200 + i) true true sample_pool) (λ '(ran, p'), ran = serving p' ∧
    serving p' = [200; 201; 202] ∧
    ensures (next_loops (2 * length (serving p')) p') (λ '(ls, _), ls = concat (replicate 2 (serving p'))) ∧
    ensures (getLoopForHash true 7 p') (λ l, serving p' !! Z.to_nat (7 mod len (serving p')) = Some l) ∧
    getAllLoops true p' = Ok (serving p')).
Proof. apply (pool_round_robin (λ i, 200 + i) sample_pool 2 7); [done|done|done|cbn; lia|lia]. Defined.
