(* ===== verification/TcpServer.v ===== *)
(** * TcpServer: the connections of a server and their loops
    ([muduo/net/TcpServer.cc])

    The server lives in its base loop; each connection lives in a loop of the
    pool. The store of connection objects, the server's map and the functors
    queued in the loops are one state; a step is the base loop accepting a
    connection, a loop running the first of its queued functors, or anything a
    connection does in between ([TcpConnection.exec]). The functors of all
    loops are one list, in the order in which they were queued: a loop runs
    its own in that order, and the loops are not ordered among each other. *)
From S2P Require Import Prelude Format Buffer Channel TcpConnection EventLoopThreadPool.
From stdpp Require Import options.

(** A [TcpConnection] object with its name, loop and socket. *)
Record conn_object := mkObject {
  o_name : bytes; o_loop : Z; o_fd : Z; o_conn : TcpConnection
}.

(** What the server queues in loops. *)
Inductive task :=
| TListen                       (* acceptor_->listen() *)
| TEstablish (i : nat)          (* conn->connectEstablished() *)
| TRemove (i : nat)             (* removeConnectionInLoop(conn) *)
| TDestroy (i : nat).           (* conn->connectDestroyed() *)

(* src/muduo/net/TcpServer.h:76-88 TcpServer *)
Record TcpServer := mkServer {
  loop_ : Z;
  ipPort_ : bytes;
  name_ : bytes;
  threadPool_ : EventLoopThreadPool;
  startedTimes_ : Z;
  nextConnId_ : Z;
  connections_ : gmap bytes nat;
  listening_ : bool;
  objects_ : list conn_object;
  queue_ : list (Z * task)
}.

Definition set_queue (q : list (Z * task)) (s : TcpServer) : TcpServer :=
  mkServer (loop_ s) (ipPort_ s) (name_ s) (threadPool_ s) (startedTimes_ s) (nextConnId_ s) (connections_ s)
    (listening_ s) (objects_ s) q.
Definition set_connections (m : gmap bytes nat) (s : TcpServer) : TcpServer :=
  mkServer (loop_ s) (ipPort_ s) (name_ s) (threadPool_ s) (startedTimes_ s) (nextConnId_ s) m
    (listening_ s) (objects_ s) (queue_ s).
Definition set_pool (p : EventLoopThreadPool) (n : Z) (s : TcpServer) : TcpServer :=
  mkServer (loop_ s) (ipPort_ s) (name_ s) p n (nextConnId_ s) (connections_ s) (listening_ s) (objects_ s) (queue_ s).
Definition set_listening (s : TcpServer) : TcpServer :=
  mkServer (loop_ s) (ipPort_ s) (name_ s) (threadPool_ s) (startedTimes_ s) (nextConnId_ s) (connections_ s)
    true (objects_ s) (queue_ s).
Definition set_objects (l : list conn_object) (s : TcpServer) : TcpServer :=
  mkServer (loop_ s) (ipPort_ s) (name_ s) (threadPool_ s) (startedTimes_ s) (nextConnId_ s) (connections_ s)
    (listening_ s) l (queue_ s).

Definition set_conn (o : conn_object) (c : TcpConnection) : conn_object :=
  mkObject (o_name o) (o_loop o) (o_fd o) c.

(** [EventLoop::queueInLoop]. *)
Definition queue_task (L : Z) (t : task) (s : TcpServer) : TcpServer := set_queue (queue_ s ++ [(L, t)]) s.

(* src/muduo/net/TcpServer.cc:24-39 TcpServer::TcpServer *)
Definition newServer (loop : Z) (ipPort name : bytes) : TcpServer :=
  mkServer loop ipPort name (newPool loop name) 0 1 ∅ false [] [].

(* src/muduo/net/TcpServer.cc:52-55 TcpServer::setThreadNum *)
Definition server_setThreadNum (numThreads : Z) (s : TcpServer) : outcome TcpServer :=
  assert! 0 <=? numThreads ;;
  Ok (set_pool (setThreadNum numThreads (threadPool_ s)) (startedTimes_ s) s).

Section Server.
(** [::write] on each socket, the user's callbacks, the pool's threads. *)
Context (kernel_write : Z → nat → bytes → write_reply) (u : user) (startLoop : Z → Z).

(** The callbacks a connection gets: the user's, and [removeConnection] as the
    close callback; that it has been called shows in the log as [LClose]. *)
(* src/muduo/net/TcpServer.cc:15-20 invokeCallbackIfSet *)
Definition invokeCallbackIfSet (cb : option (TcpConnection → outcome TcpConnection)) (c : TcpConnection) :
    outcome TcpConnection := match cb with Some f => f c | None => Ok c end.
Definition conn_user : user :=
  mkUser (Some (invokeCallbackIfSet (connectionCallback_ u))) (Some (invokeCallbackIfSet (messageCallback_ u)))
    (Some (invokeCallbackIfSet (writeCompleteCallback_ u))) None (Some Ok).

(* src/muduo/net/TcpServer.cc:104-115 TcpServer::removeConnectionInLoop *)
Definition removeConnectionInLoop (cur : Z) (i : nat) (s : TcpServer) : outcome TcpServer :=
  let! _ := (if cur =? loop_ s then Ok tt else Fault FatalLog) in
  let! o := deref (objects_ s !! i) in
  let erased := bool_decide (is_Some (connections_ s !! o_name o)) in
  let s := set_connections (delete (o_name o) (connections_ s)) s in
  assert! erased ;;
  Ok (queue_task (o_loop o) (TDestroy i) s).

(** [cur] is the loop whose thread calls; [runInLoop] is immediate in it. *)
(* src/muduo/net/TcpServer.cc:100-102 TcpServer::removeConnection *)
Definition removeConnection (cur : Z) (i : nat) (s : TcpServer) : outcome TcpServer :=
  if cur =? loop_ s then removeConnectionInLoop cur i s else Ok (queue_task (loop_ s) (TRemove i) s).

(** Something happens to the i-th connection, in its loop; when that calls the
    close callback, the server removes the connection. *)
Definition on_conn (i : nat) (f : Z → TcpConnection → outcome TcpConnection) (s : TcpServer) : outcome TcpServer :=
  let! o := deref (objects_ s !! i) in
  let! c := f (o_fd o) (o_conn o) in
  let s' := set_objects (<[i := set_conn o c]> (objects_ s)) s in
  if bool_decide (LClose ∈ log_ c ∧ LClose ∉ log_ (o_conn o)) then removeConnection (o_loop o) i s' else Ok s'.

Definition establish (fd : Z) : TcpConnection → outcome TcpConnection := exec (kernel_write fd) conn_user OpEstablish.
Definition destroy (fd : Z) : TcpConnection → outcome TcpConnection := exec (kernel_write fd) conn_user OpDestroy.

Definition run_task (L : Z) (t : task) (s : TcpServer) : outcome TcpServer :=
  match t with
  | TListen => Ok (set_listening s)
  | TEstablish i => on_conn i establish s
  | TRemove i => removeConnectionInLoop L i s
  | TDestroy i => on_conn i destroy s
  end.

Definition runInLoop (cur L : Z) (t : task) (s : TcpServer) : outcome TcpServer :=
  if cur =? L then run_task L t s else Ok (queue_task L t s).

(* src/muduo/net/TcpServer.cc:57-63 TcpServer::start *)
Definition server_start (cur : Z) (cb : bool) (s : TcpServer) : outcome TcpServer :=
  if startedTimes_ s =? 0 then
    let! (_, p) := start startLoop (cur =? loop_ s) cb (threadPool_ s) in
    let s := set_pool p (startedTimes_ s + 1) s in
    assert! negb (listening_ s) ;;
    runInLoop cur (loop_ s) TListen s
  else Ok (set_pool (threadPool_ s) (startedTimes_ s + 1) s).

Definition conn_name (s : TcpServer) (id : Z) : bytes :=
  name_ s ++ str "-" ++ ipPort_ s ++ str "#" ++ format_int id.

(* src/muduo/net/TcpServer.cc:65-98 TcpServer::newConnection *)
Definition server_newConnection (cur sockfd : Z) (s : TcpServer) : outcome TcpServer :=
  let! (ioLoop, p) := getNextLoop (cur =? loop_ s) (threadPool_ s) in
  let connName := conn_name s (nextConnId_ s) in
  let! input := newBuffer kInitialSize in
  let! output := newBuffer kInitialSize in
  let i := length (objects_ s) in
  let conn := mkObject connName ioLoop sockfd (newConnection sockfd input output) in
  let s1 := mkServer (loop_ s) (ipPort_ s) (name_ s) p (startedTimes_ s) (nextConnId_ s + 1)
    (<[connName := i]> (connections_ s)) (listening_ s) (objects_ s ++ [conn]) (queue_ s) in
  runInLoop cur ioLoop (TEstablish i) s1.

(* src/muduo/net/TcpServer.cc:41-50 TcpServer::~TcpServer *)
Definition destroyServer (cur : Z) (s : TcpServer) : outcome TcpServer :=
  let! _ := (if cur =? loop_ s then Ok tt else Fault FatalLog) in
  foldM (λ '(_, i) s,
           let! o := deref (objects_ s !! i) in runInLoop cur (o_loop o) (TDestroy i) s)
    (map_to_list (connections_ s)) (set_connections ∅ s).

(** ** The running server *)

Inductive server_step : TcpServer → TcpServer → Prop :=
| ss_accept s fd s' :
    nextConnId_ s < 2 ^ 31 - 1 →
    server_newConnection (loop_ s) fd s = Ok s' → server_step s s'
| ss_task s l1 L t l2 s' :
    queue_ s = l1 ++ (L, t) :: l2 → Forall (λ x, x.1 ≠ L) l1 →
    run_task L t (set_queue (l1 ++ l2) s) = Ok s' → server_step s s'
| ss_conn s i o op s' :
    objects_ s !! i = Some o → op ≠ OpEstablish → op ≠ OpDestroy → legal op (o_conn o) →
    on_conn i (λ fd, exec (kernel_write fd) conn_user op) s = Ok s' → server_step s s'.

(** A server that has been started. *)
Definition server_up (s : TcpServer) : Prop :=
  pool_ok (threadPool_ s) ∧ baseLoop_ (threadPool_ s) = loop_ s ∧ nextConnId_ s = 1 ∧
  connections_ s = ∅ ∧ objects_ s = [] ∧ Forall (λ x, x.2 = TListen) (queue_ s).

Inductive server_reachable : TcpServer → Prop :=
| sr_up s : server_up s → server_reachable s
| sr_step s s' : server_reachable s → server_step s s' → server_reachable s'.

(** *** The invariant *)

Hypothesis kernel_ok : ∀ fd i d n, kernel_write fd i d = WOk n → 0 ≤ n ≤ len d.
Hypothesis user_ok : ∀ fd, plays (kernel_write fd) conn_user.

Definition about (i : nat) (x : Z * task) : Prop :=
  match x.2 with TListen => False | TEstablish j | TRemove j | TDestroy j => i = j end.
#[local] Instance about_dec i x : Decision (about i x).
Proof. unfold about. destruct x as [L []]; apply _. Defined.
#[local] Arguments about : simpl never.

Definition tasks (i : nat) (q : list (Z * task)) : list (Z * task) := filter (about i) q.
#[local] Arguments tasks : simpl never.

(** The stages of a connection's life in the server: waiting to be
    established, in use, closed and to be removed, removed and to be
    destroyed, destroyed. *)
Inductive stage := Waiting | InUse | Closed | Removed | Gone.
Definition in_map (g : stage) : bool := match g with Waiting | InUse | Closed => true | _ => false end.
Definition stage_tasks (base : Z) (i : nat) (o : conn_object) (g : stage) : list (Z * task) :=
  match g with
  | Waiting => [(o_loop o, TEstablish i)]
  | Closed => [(base, TRemove i)]
  | Removed => [(o_loop o, TDestroy i)]
  | _ => []
  end.
Definition stage_conn (g : stage) (c : TcpConnection) : Prop :=
  match g with
  | Waiting => fresh c ∧ core c
  | InUse => settled c ∧ LClose ∉ log_ c
  | Closed | Removed => core c ∧ down [LUp; LDown; LClose] c
  | Gone => core c ∧ down [LUp; LDown; LClose; LDestroyed] c
  end.

Record staged (s : TcpServer) (i : nat) (o : conn_object) (g : stage) : Prop := mkStaged {
  sg_reach : reachable (kernel_write (o_fd o)) conn_user (o_fd o) (o_conn o);
  sg_name : o_name o = conn_name s (1 + Z.of_nat i);
  sg_conn : stage_conn g (o_conn o);
  sg_tasks : tasks i (queue_ s) = stage_tasks (loop_ s) i o g;
  sg_map : connections_ s !! o_name o = (if in_map g then Some i else None)
}.

Record server_inv (s : TcpServer) : Prop := mkServerInv {
  si_pool : pool_ok (threadPool_ s);
  si_base : baseLoop_ (threadPool_ s) = loop_ s;
  si_next : nextConnId_ s = 1 + Z.of_nat (length (objects_ s));
  si_objects i o : objects_ s !! i = Some o → ∃ g, staged s i o g;
  si_map n i : connections_ s !! n = Some i → ∃ o, objects_ s !! i = Some o ∧ o_name o = n;
  si_tasks i : (length (objects_ s) ≤ i)%nat → tasks i (queue_ s) = []
}.

(** *** Names *)

Lemma conn_name_inj s a b : conn_name s a = conn_name s b → a = b.
Proof.
  unfold conn_name. rewrite !app_assoc. intros H. apply app_inv_head in H. by apply format_int_inj.
Qed.

(** *** Everything but one connection *)

Record inv_but (s : TcpServer) (i : nat) (o : conn_object) (mapped : bool) : Prop := mkBut {
  ib_pool : pool_ok (threadPool_ s);
  ib_base : baseLoop_ (threadPool_ s) = loop_ s;
  ib_next : nextConnId_ s = 1 + Z.of_nat (length (objects_ s));
  ib_obj : objects_ s !! i = Some o;
  ib_name : o_name o = conn_name s (1 + Z.of_nat i);
  ib_tasks : tasks i (queue_ s) = [];
  ib_self : connections_ s !! o_name o = (if mapped then Some i else None);
  ib_others j o' : j ≠ i → objects_ s !! j = Some o' → ∃ g, staged s j o' g;
  ib_map n j : connections_ s !! n = Some j → ∃ o', objects_ s !! j = Some o' ∧ o_name o' = n;
  ib_rest j : (length (objects_ s) ≤ j)%nat → tasks j (queue_ s) = []
}.

Lemma tasks_app i q1 q2 : tasks i (q1 ++ q2) = tasks i q1 ++ tasks i q2.
Proof. apply filter_app. Qed.

Lemma tasks_other i j L t : about j (L, t) → i ≠ j → tasks i [(L, t)] = [].
Proof.
  intros Hj Hne. unfold tasks. rewrite filter_cons, decide_False; [done|].
  unfold about in *. cbn in *. destruct t; congruence.
Qed.

Lemma tasks_self i L t : about i (L, t) → tasks i [(L, t)] = [(L, t)].
Proof. intros Hj. unfold tasks. by rewrite filter_cons, decide_True. Qed.

Lemma stage_tasks_about base i j o g : j ≠ i → tasks j (stage_tasks base i o g) = [].
Proof. intros Hne. destruct g; cbn [stage_tasks]; try done; by apply (tasks_other j i). Qed.
Lemma stage_tasks_self base i o g : tasks i (stage_tasks base i o g) = stage_tasks base i o g.
Proof. destruct g; cbn [stage_tasks]; try done; by apply tasks_self. Qed.

Lemma staged_same s s' j o g :
  name_ s' = name_ s → ipPort_ s' = ipPort_ s → loop_ s' = loop_ s →
  tasks j (queue_ s') = tasks j (queue_ s) → connections_ s' !! o_name o = connections_ s !! o_name o →
  staged s j o g → staged s' j o g.
Proof.
  intros Hn Hip Hl Hq Hm [H1 H2 H3 H4 H5]. split; [done| |done|by rewrite Hq, Hl|by rewrite Hm].
  rewrite H2. unfold conn_name. by rewrite Hn, Hip.
Qed.

Lemma names_differ s i j o o' :
  o_name o = conn_name s (1 + Z.of_nat i) → o_name o' = conn_name s (1 + Z.of_nat j) → j ≠ i → o_name o' ≠ o_name o.
Proof. intros -> -> Hne H. apply conn_name_inj in H. lia. Qed.

(** Put the connection back, in the stage its queue entry and map entry say. *)
Lemma inv_restore s i o c g :
  inv_but s i o (in_map g) → reachable (kernel_write (o_fd o)) conn_user (o_fd o) c → stage_conn g c →
  server_inv (set_queue (queue_ s ++ stage_tasks (loop_ s) i o g)
    (set_objects (<[i := set_conn o c]> (objects_ s)) s)).
Proof.
  intros [H1 H2 H3 H4 H5 H6 H7 H8 H9 H10] Hr Hc.
  assert (i < length (objects_ s))%nat as Hi by (by eapply lookup_lt_Some).
  split; cbn; try done.
  - by rewrite length_insert.
  - intros j o' Hj. destruct (decide (j = i)) as [->|Hne].
    + rewrite list_lookup_insert_eq in Hj by done. injection Hj as <-. exists g.
      split; [done|done|done| |exact H7]. cbn. by rewrite tasks_app, H6, stage_tasks_self.
    + rewrite list_lookup_insert_ne in Hj by done. destruct (H8 j o' Hne Hj) as [g' Hg]. exists g'.
      eapply staged_same; [..|exact Hg]; try done. cbn. by rewrite tasks_app, stage_tasks_about, app_nil_r.
  - intros n j Hn. destruct (H9 n j Hn) as (o' & Ho' & Hname). destruct (decide (j = i)) as [->|Hne].
    + exists (set_conn o c). rewrite list_lookup_insert_eq by done. split; [done|]. cbn. congruence.
    + exists o'. by rewrite list_lookup_insert_ne.
  - intros j Hj. rewrite length_insert in Hj. rewrite tasks_app, H10 by done. cbn.
    apply stage_tasks_about. lia.
Qed.

(** Take a connection's task off the queue. *)
Lemma srv_pop s i o g l1 L t l2 :
  server_inv s → objects_ s !! i = Some o → staged s i o g → queue_ s = l1 ++ (L, t) :: l2 → about i (L, t) →
  inv_but (set_queue (l1 ++ l2) s) i o (in_map g) ∧ stage_tasks (loop_ s) i o g = [(L, t)].
Proof.
  intros [H1 H2 H3 H4 H5 H6] Ho [G1 G2 G3 G4 G5] Hq Ha.
  assert (∀ j, tasks j (queue_ s) = tasks j l1 ++ tasks j [(L, t)] ++ tasks j l2) as Htasks.
  { intros j. by rewrite Hq, (cons_middle (L, t)), !tasks_app. }
  assert (tasks i l1 = [] ∧ tasks i l2 = [] ∧ stage_tasks (loop_ s) i o g = [(L, t)]) as (E1 & E2 & E3).
  { rewrite Htasks, tasks_self in G4 by done.
    destruct (tasks i l1) as [|x [|y l]] eqn:E1, (tasks i l2) eqn:E2, g; cbn in G4; try done; try congruence.
    all: by destruct l. }
  assert (∀ j, j ≠ i → tasks j (l1 ++ l2) = tasks j (queue_ s)) as Hother.
  { intros j Hne. by rewrite Htasks, tasks_app, (tasks_other j i). }
  split; [|done]. split; cbn; try done.
  - by rewrite tasks_app, E1, E2.
  - intros j o' Hne Hj. destruct (H4 j o' Hj) as [g' Hg']. exists g'.
    eapply staged_same; [..|exact Hg']; try done. by apply Hother.
  - intros j Hj. rewrite Hother; [by apply H6|]. intros ->. apply lookup_lt_Some in Ho. lia.
Qed.

Lemma inv_idle s i o g :
  server_inv s → objects_ s !! i = Some o → staged s i o g → stage_tasks (loop_ s) i o g = [] →
  inv_but s i o (in_map g).
Proof.
  intros [H1 H2 H3 H4 H5 H6] Ho [G1 G2 G3 G4 G5] Ht. split; try done; [by rewrite G4|].
  intros j o' _ Hj. by apply H4.
Qed.

(** The connection changes within its stage. *)
Lemma inv_conn s i o g c :
  server_inv s → objects_ s !! i = Some o → staged s i o g →
  reachable (kernel_write (o_fd o)) conn_user (o_fd o) c → stage_conn g c →
  server_inv (set_objects (<[i := set_conn o c]> (objects_ s)) s).
Proof.
  intros [H1 H2 H3 H4 H5 H6] Ho [G1 G2 G3 G4 G5] Hr Hc.
  assert (i < length (objects_ s))%nat as Hi by (by eapply lookup_lt_Some).
  split; cbn; try done.
  - by rewrite length_insert.
  - intros j o' Hj. destruct (decide (j = i)) as [->|Hne].
    + rewrite list_lookup_insert_eq in Hj by done. injection Hj as <-. exists g. by split.
    + rewrite list_lookup_insert_ne in Hj by done. destruct (H4 j o' Hj) as [g' Hg]. exists g'.
      by eapply staged_same; [..|exact Hg].
  - intros n j Hn. destruct (H5 n j Hn) as (o' & Ho' & Hname). destruct (decide (j = i)) as [->|Hne].
    + exists (set_conn o c). rewrite list_lookup_insert_eq by done. split; [done|]. cbn. congruence.
    + exists o'. by rewrite list_lookup_insert_ne.
  - intros j. rewrite length_insert. apply H6.
Qed.

Lemma inv_unmap s i o :
  inv_but s i o true → inv_but (set_connections (delete (o_name o) (connections_ s)) s) i o false.
Proof.
  intros [H1 H2 H3 H4 H5 H6 H7 H8 H9 H10]. split; cbn; try done.
  - by rewrite lookup_delete_eq.
  - intros j o' Hne Hj. destruct (H8 j o' Hne Hj) as [g Hg]. exists g.
    eapply staged_same; [..|exact Hg]; try done. cbn. apply lookup_delete_ne.
    intros Heq. symmetry in Heq. revert Heq. by apply (names_differ s i j); [|apply Hg|].
  - intros n j Hn. apply lookup_delete_Some in Hn as [_ Hn]. by apply H9.
Qed.

Definition put (i : nat) (o : conn_object) (c : TcpConnection) (s : TcpServer) : TcpServer :=
  set_objects (<[i := set_conn o c]> (objects_ s)) s.

Lemma remove_ok s i o c :
  inv_but s i o true → reachable (kernel_write (o_fd o)) conn_user (o_fd o) c → stage_conn Removed c →
  ensures (removeConnectionInLoop (loop_ s) i (put i o c s)) server_inv.
Proof.
  intros Hi Hr Hc. unfold removeConnectionInLoop. cbn [loop_ put set_objects]. rewrite Z.eqb_refl. cbn [obind].
  assert (i < length (objects_ s))%nat as Hlt by (eapply lookup_lt_Some; apply Hi).
  cbn [objects_ set_objects put]. rewrite list_lookup_insert_eq by done. cbn [deref obind].
  cbn [connections_ set_objects put o_name set_conn]. rewrite (ib_self _ _ _ _ Hi).
  rewrite bool_decide_true by eauto. pass_asserts. cbn [ensures].
  apply (inv_restore (set_connections (delete (o_name o) (connections_ s)) s) i o c Removed); [|done|done].
  by apply inv_unmap.
Qed.

Lemma after_ok s i o c :
  inv_but s i o true → reachable (kernel_write (o_fd o)) conn_user (o_fd o) c → settled c →
  LClose ∉ log_ (o_conn o) →
  ensures (if bool_decide (LClose ∈ log_ c ∧ LClose ∉ log_ (o_conn o))
           then removeConnection (o_loop o) i (put i o c s) else Ok (put i o c s)) server_inv.
Proof.
  intros Hi Hr Hc Hold. case_bool_decide as Hcl.
  - destruct Hcl as [Hcl _]. pose proof (settled_closed c Hc Hcl) as Hst. unfold removeConnection.
    cbn [loop_ put set_objects]. destruct (Z.eqb_spec (o_loop o) (loop_ s)) as [->|Hne].
    + by apply remove_ok.
    + by apply (inv_restore s i o c Closed).
  - assert (server_inv (set_queue (queue_ s ++ []) (put i o c s))) as H.
    { apply (inv_restore s i o c InUse); [done|done|]. split; [done|]. intros Hin. by apply Hcl. }
    rewrite app_nil_r in H. exact H.
Qed.

(** Running an operation of the connection, then the close callback if it was
    called. *)
Lemma on_conn_settles s i o f :
  inv_but s i o true → LClose ∉ log_ (o_conn o) →
  safely (f (o_fd o) (o_conn o)) (λ c, reachable (kernel_write (o_fd o)) conn_user (o_fd o) c ∧ settled c) →
  safely (on_conn i f s) server_inv.
Proof.
  intros Hi Hold Hf. unfold on_conn. rewrite (ib_obj _ _ _ _ Hi). cbn [deref obind].
  eapply safely_bind; [exact Hf|]. intros c [Hr Hc]. by apply safely_ensures, after_ok.
Qed.

(** The same when the close callback is not called (again). *)
Lemma on_conn_quiet s i o f P :
  objects_ s !! i = Some o →
  safely (f (o_fd o) (o_conn o)) (λ c, (LClose ∈ log_ c → LClose ∈ log_ (o_conn o)) ∧ P (put i o c s)) →
  safely (on_conn i f s) P.
Proof.
  intros Ho Hf. unfold on_conn. rewrite Ho. cbn [deref obind].
  eapply safely_bind; [exact Hf|]. intros c [Hc HP]. rewrite bool_decide_false; [exact HP|]. intros [H1 H2]. by apply H2, Hc.
Qed.

Lemma reach_exec fd c o :
  reachable (kernel_write fd) conn_user fd c → legal o c → ∀ P,
  safely (exec (kernel_write fd) conn_user o c) P →
  safely (exec (kernel_write fd) conn_user o c) (λ c', reachable (kernel_write fd) conn_user fd c' ∧ P c').
Proof.
  intros Hr Hl P HP. eapply safely_mono; [apply safely_and; [exact HP|]|].
  - intros c' Hc'. exact (reach_step _ _ _ _ _ _ Hr Hl Hc').
  - by intros c' [? ?].
Qed.

(** *** A queued functor runs *)

Lemma task_object s l1 L t l2 i :
  server_inv s → queue_ s = l1 ++ (L, t) :: l2 → about i (L, t) → ∃ o g, objects_ s !! i = Some o ∧ staged s i o g.
Proof.
  intros Hi Hq Ha. destruct (objects_ s !! i) as [o|] eqn:Ho.
  { destruct (si_objects s Hi i o Ho) as [g Hg]. by exists o, g. }
  apply lookup_ge_None in Ho. pose proof (si_tasks s Hi i Ho) as Hn.
  rewrite Hq, (cons_middle (L, t)), !tasks_app, (tasks_self i) in Hn by done. by destruct (tasks i l1).
Qed.

Lemma task_ok s l1 L t l2 :
  server_inv s → queue_ s = l1 ++ (L, t) :: l2 →
  safely (run_task L t (set_queue (l1 ++ l2) s)) server_inv.
Proof using kernel_ok user_ok.
  intros Hi Hq. destruct t as [|i|i|i]; cbn [run_task].
  - cbn. destruct Hi as [H1 H2 H3 H4 H5 H6].
    assert (∀ j, tasks j (l1 ++ l2) = tasks j (queue_ s)) as Ht by (intros j; by rewrite Hq, !tasks_app).
    split; cbn; try done.
    + intros j o Hj. destruct (H4 j o Hj) as [g Hg]. exists g. by eapply staged_same; [..|exact Hg].
    + intros j Hj. rewrite Ht. by apply H6.
  - destruct (task_object s l1 L _ l2 i Hi Hq eq_refl) as (o & g & Ho & Hg).
    destruct (srv_pop s i o g l1 L (TEstablish i) l2 Hi Ho Hg Hq eq_refl) as [Hbut Hst].
    assert (g = Waiting) as -> by (destruct g; cbn in Hst; congruence).
    destruct (sg_conn _ _ _ _ Hg) as [Hfresh Hcore].
    apply (on_conn_settles _ i o); [done| |].
    + destruct Hfresh as (_ & -> & _). apply not_elem_of_nil.
    + assert (legal OpEstablish (o_conn o)) as Hl by apply Hfresh.
      apply reach_exec; [apply Hg|done|].
      apply (establish_ok _ _ (kernel_ok (o_fd o)) (o_conn o) (user_ok (o_fd o))); [|done].
      split; [done|by left].
  - destruct (task_object s l1 L _ l2 i Hi Hq eq_refl) as (o & g & Ho & Hg).
    destruct (srv_pop s i o g l1 L (TRemove i) l2 Hi Ho Hg Hq eq_refl) as [Hbut Hst].
    assert (g = Closed ∧ L = loop_ s) as [-> ->] by (destruct g; cbn in Hst; split; congruence).
    pose proof (remove_ok _ i o (o_conn o) Hbut (sg_reach _ _ _ _ Hg) (sg_conn _ _ _ _ Hg)) as H.
    unfold put in H. cbn [set_queue objects_ loop_] in H. rewrite list_insert_id in H; [by apply safely_ensures|].
    rewrite Ho. by destruct o.
  - destruct (task_object s l1 L _ l2 i Hi Hq eq_refl) as (o & g & Ho & Hg).
    destruct (srv_pop s i o g l1 L (TDestroy i) l2 Hi Ho Hg Hq eq_refl) as [Hbut Hst].
    assert (g = Removed) as -> by (destruct g; cbn in Hst; congruence).
    destruct (sg_conn _ _ _ _ Hg) as [Hcore Hd].
    apply (on_conn_quiet _ i o); [apply Hbut|].
    assert (legal OpDestroy (o_conn o)) as Hl.
    { split; [destruct Hd as (-> & _); done|]. eapply life_member; [apply Hd|done|]. by apply (bool_decide_unpack _). }
    eapply safely_mono; [apply reach_exec; [apply Hg|done|]|].
    { apply (destroy_closed conn_user [LUp; LDown; LClose]); [done|done|by right]. }
    intros c [Hr Hc]. split; [intros _; apply (down_log_close [LUp; LDown; LClose]); [done|by apply (bool_decide_unpack _)]|].
    pose proof (inv_restore _ i o c Gone Hbut Hr Hc) as H. cbn [stage_tasks] in H. by rewrite app_nil_r in H.
Qed.

(** *** Anything happens to a connection *)

Lemma fresh_exec fd op c :
  fresh c → core c → legal op c → op ≠ OpEstablish → op ≠ OpDestroy →
  safely (exec (kernel_write fd) conn_user op c) (λ c', fresh c' ∧ core c' ∧ log_ c' = log_ c).
Proof.
  intros Hf Hc Hl He Hd. pose proof Hf as (Hst & Hlog & Hev & Hout & Hp).
  destruct op as [| |r t rd|a|f| |]; try done; cbn [exec].
  - by destruct Hl as (Hne & _).
  - by destruct Hl as (Hnc & _).
  - by destruct Hl as (Hnc & _).
  - rewrite Hp. done.
  - destruct (delayed_ c) as [|n]; [done|]. unfold forceClose, open. cbn [state_ set_delayed]. rewrite Hst. cbn.
    split_and!; [done|by eapply core_same|done].
Qed.

Lemma conn_ok s i o op :
  server_inv s → objects_ s !! i = Some o → op ≠ OpEstablish → op ≠ OpDestroy → legal op (o_conn o) →
  safely (on_conn i (λ fd, exec (kernel_write fd) conn_user op) s) server_inv.
Proof using kernel_ok user_ok.
  intros Hi Ho He Hd Hl. destruct (si_objects s Hi i o Ho) as [g Hg]. pose proof (sg_conn _ _ _ _ Hg) as Hc.
  pose proof (reachable_inv _ _ (kernel_ok (o_fd o)) _ _ (user_ok (o_fd o)) (sg_reach _ _ _ _ Hg)) as Hinv.
  pose proof (exec_follows _ _ (kernel_ok (o_fd o)) op (o_conn o) (user_ok (o_fd o)) Hinv Hl He Hd) as Hf.
  pose proof (reach_exec _ _ _ (sg_reach _ _ _ _ Hg) Hl) as Hreach.
  assert (∀ L, core (o_conn o) → down L (o_conn o) → LClose ∈ L →
    (∀ c, core c ∧ down L c → stage_conn g c) →
    safely (on_conn i (λ fd, exec (kernel_write fd) conn_user op) s) server_inv) as Hdown.
  { intros L Hcore HdL HL Hgc. apply (on_conn_quiet s i o); [done|].
    eapply safely_mono; [exact (Hreach _ Hf)|]. intros c [Hr [_ Hk]].
    split; [intros _; by apply (down_log_close L)|]. apply (inv_conn s i o g); try done. by apply Hgc, Hk. }
  destruct g.
  - destruct Hc as [Hfr Hcore]. apply (on_conn_quiet s i o); [done|].
    eapply safely_mono; [exact (Hreach _ (fresh_exec (o_fd o) op (o_conn o) Hfr Hcore Hl He Hd))|].
    intros c (Hr & Hfc & Hcc & Hlog). split; [by rewrite Hlog|]. by apply (inv_conn s i o Waiting).
  - destruct Hc as [Hs Hncl]. apply (on_conn_settles s i o); [by apply (inv_idle s i o InUse)|done|].
    eapply safely_mono; [exact (Hreach _ Hf)|]. intros c [Hr [Hk1 Hk2]]. split; [done|].
    destruct Hs as [Hcore [Hlive|(L & HdL & HL)]]; [by apply Hk1|].
    destruct (Hk2 L HdL) as [Hc' Hd']. split; [done|]. right. by exists L.
  - by apply (Hdown [LUp; LDown; LClose]); [apply Hc|apply Hc|apply (bool_decide_unpack _)|].
  - by apply (Hdown [LUp; LDown; LClose]); [apply Hc|apply Hc|apply (bool_decide_unpack _)|].
  - by apply (Hdown [LUp; LDown; LClose; LDestroyed]); [apply Hc|apply Hc|apply (bool_decide_unpack _)|].
Qed.

(** *** A connection is accepted *)

Lemma inv_accept s p ioLoop fd input output :
  server_inv s → pool_ok p → baseLoop_ p = loop_ s → wf input → wf output → content output = [] →
  let i := length (objects_ s) in
  let conn := mkObject (conn_name s (nextConnId_ s)) ioLoop fd (newConnection fd input output) in
  server_inv (queue_task ioLoop (TEstablish i)
    (mkServer (loop_ s) (ipPort_ s) (name_ s) p (startedTimes_ s) (nextConnId_ s + 1)
       (<[conn_name s (nextConnId_ s) := i]> (connections_ s)) (listening_ s) (objects_ s ++ [conn]) (queue_ s))).
Proof.
  intros [H1 H2 H3 H4 H5 H6] Hp Hb Hin Hout Hcont i conn.
  assert (∀ j o, objects_ s !! j = Some o → o_name o ≠ conn_name s (nextConnId_ s) ∧ j ≠ i) as Hdiff.
  { intros j o Hj. destruct (H4 j o Hj) as [g Hg]. rewrite (sg_name _ _ _ _ Hg).
    apply lookup_lt_Some in Hj. split; [intros Hn%conn_name_inj; lia|unfold i; lia]. }
  split; cbn; try done.
  - rewrite length_app. cbn. lia.
  - intros j o Hj. apply lookup_app_Some in Hj as [Hj|[Hge Hj]].
    + destruct (H4 j o Hj) as [g Hg]. exists g. destruct (Hdiff j o Hj) as [Hn Hne].
      eapply staged_same; [..|exact Hg]; try done; cbn.
      * by rewrite tasks_app, (tasks_other j i), app_nil_r.
      * by rewrite lookup_insert_ne.
    + assert (j = i) as ->.
      { apply list_lookup_singleton_Some in Hj as [Hj _]. unfold i. lia. }
      rewrite Nat.sub_diag in Hj. injection Hj as <-. exists Waiting. split; cbn.
      * by apply reach_new.
      * unfold conn_name. cbn. rewrite H3. done.
      * split; [done|]. by apply new_inv.
      * by rewrite tasks_app, H6, tasks_self.
      * by rewrite lookup_insert_eq.
  - intros n j Hn. apply lookup_insert_Some in Hn as [[<- <-]|[Hne Hn]].
    + exists conn. rewrite lookup_app_r by done. by rewrite Nat.sub_diag.
    + destruct (H5 n j Hn) as (o & Ho & Hname). exists o. split; [|done]. by apply lookup_app_l_Some.
  - intros j Hj. rewrite length_app in Hj. cbn in Hj.
    rewrite tasks_app, H6, (tasks_other j i) by (done || unfold i; lia). done.
Qed.

Lemma accept_ok s fd :
  server_inv s → safely (server_newConnection (loop_ s) fd s) server_inv.
Proof using kernel_ok user_ok.
  intros Hi. unfold server_newConnection. rewrite Z.eqb_refl.
  eapply safely_bind; [apply safely_ensures, getNextLoop_ok, Hi|].
  intros [ioLoop p] (Hp & _ & Hb & _).
  eapply safely_bind; [apply safely_ensures, newBuffer_ok; by unfold kInitialSize|]. intros input (Hin & _).
  eapply safely_bind; [apply safely_ensures, newBuffer_ok; by unfold kInitialSize|]. intros output (Hout & Hc & _).
  pose proof (inv_accept s p ioLoop fd input output Hi Hp) as Hacc. cbv zeta in *.
  rewrite Hb, (si_base s Hi) in Hacc. specialize (Hacc eq_refl Hin Hout Hc).
  set (s1 := mkServer _ _ _ _ _ _ _ _ _ _) in *. unfold runInLoop.
  destruct (Z.eqb_spec (loop_ s) ioLoop) as [<-|Hne]; [|exact Hacc].
  pose proof (task_ok _ (queue_ s1) (loop_ s) (TEstablish (length (objects_ s))) [] Hacc eq_refl) as H.
  by rewrite app_nil_r in H.
Qed.

Lemma server_reachable_inv s : server_reachable s → server_inv s.
Proof using kernel_ok user_ok.
  induction 1 as [s (Hp & Hb & Hn & Hm & Ho & Hq)|s s' _ IH Hs].
  - assert (∀ i, tasks i (queue_ s) = []) as Ht.
    { intros i. clear -Hq. induction Hq as [|[L t] q Ht _ IH]; [done|]. cbn in Ht. subst t.
      unfold tasks in *. rewrite filter_cons, decide_False; [done|]. exact (λ H, H). }
    split; try done.
    + by rewrite Hn, Ho.
    + intros i o Hi. by rewrite Ho in Hi.
    + intros n i Hni. by rewrite Hm in Hni.
  - destruct Hs as [s fd s' _ Hs|s l1 L t l2 s' Hq _ Hs|s i o op s' Ho He Hd Hl Hs].
    + by eapply safely_ok; [apply accept_ok|].
    + by eapply safely_ok; [eapply task_ok|].
    + by eapply safely_ok; [eapply conn_ok|].
Qed.

(** C24. The server keeps its connections in order. In every reachable state,
    whatever the loops do in whatever order: no two connections have the same
    name; the map holds exactly the connections whose removal has not run yet;
    every connection has been through a legal history of its own operations,
    established at most once and destroyed at most once, each at the right
    time; and a connection that has called its close callback is queued for
    exactly one of removal and destruction until it has been destroyed. *)
Theorem server_connections s i o :
  server_reachable s → objects_ s !! i = Some o →
  reachable (kernel_write (o_fd o)) conn_user (o_fd o) (o_conn o) ∧
  (∀ j o', objects_ s !! j = Some o' → o_name o' = o_name o → j = i) ∧
  (connections_ s !! o_name o = Some i ↔ LClose ∉ log_ (o_conn o) ∨ (loop_ s, TRemove i) ∈ queue_ s) ∧
  (LClose ∈ log_ (o_conn o) →
     tasks i (queue_ s) = [(loop_ s, TRemove i)] ∨ tasks i (queue_ s) = [(o_loop o, TDestroy i)] ∨
     (tasks i (queue_ s) = [] ∧ LDestroyed ∈ log_ (o_conn o))).
Proof using kernel_ok user_ok.
  intros Hr Ho. pose proof (server_reachable_inv s Hr) as Hi.
  destruct (si_objects s Hi i o Ho) as [g [G1 G2 G3 G4 G5]].
  assert (LClose ∈ log_ (o_conn o) ↔ in_map g = false ∨ g = Closed) as Hcl.
  { destruct g; cbn in G3 |- *.
    - destruct G3 as ((_ & -> & _) & _). split; [by intros ?%elem_of_nil|by intros [?|?]].
    - destruct G3 as [_ G3]. split; [intros Hx; by destruct G3|by intros [?|?]].
    - split; [by right|]. intros _. eapply down_log_close; [apply G3|]. by apply (bool_decide_unpack _).
    - split; [by left|]. intros _. eapply down_log_close; [apply G3|]. by apply (bool_decide_unpack _).
    - split; [by left|]. intros _. eapply down_log_close; [apply G3|]. by apply (bool_decide_unpack _). }
  assert ((loop_ s, TRemove i) ∈ queue_ s ↔ g = Closed) as Hrm.
  { assert ((loop_ s, TRemove i) ∈ queue_ s ↔ (loop_ s, TRemove i) ∈ tasks i (queue_ s)) as ->.
    { unfold tasks. rewrite list_elem_of_filter. unfold about. cbn. naive_solver. }
    rewrite G4. destruct g; cbn; rewrite ?list_elem_of_singleton, ?elem_of_nil; split; try done; congruence. }
  split_and!; [done| | |].
  - intros j o' Hj Hn. destruct (decide (j = i)) as [|Hne]; [done|].
    destruct (si_objects s Hi j o' Hj) as [g' [_ G2' _ _ _]]. by destruct (names_differ s i j o o' G2 G2' Hne).
  - rewrite G5, Hcl, Hrm. destruct g; cbn; split; intros H; try done; try (by left; intros [?|?]); try (by right).
    + destruct H as [H|H]; [|done]. destruct H. by left.
    + destruct H as [H|H]; [|done]. destruct H. by left.
  - intros Hin. apply Hcl in Hin. rewrite G4. destruct g; cbn in Hin |- *; try by destruct Hin.
    + by left.
    + by right; left.
    + right; right. split; [done|]. destruct G3 as [_ (_ & _ & _ & Hl & _)]. apply (elem_of_life LDestroyed); [done|].
      rewrite Hl. by apply (bool_decide_unpack _).
Qed.

(** C25. Nothing the server does fails an assert. In every reachable state,
    accepting a connection, running the first functor of any loop
    ([connectEstablished], [removeConnectionInLoop] with its check that the
    connection is in the map, [connectDestroyed]) and every legal operation of
    a connection return, unless a buffer cannot grow any more. *)
Theorem server_never_aborts s :
  server_reachable s →
  (∀ fd, safely (server_newConnection (loop_ s) fd s) (λ _, True)) ∧
  (∀ l1 L t l2, queue_ s = l1 ++ (L, t) :: l2 → safely (run_task L t (set_queue (l1 ++ l2) s)) (λ _, True)) ∧
  (∀ i o op, objects_ s !! i = Some o → op ≠ OpEstablish → op ≠ OpDestroy → legal op (o_conn o) →
     safely (on_conn i (λ fd, exec (kernel_write fd) conn_user op) s) (λ _, True)).
Proof using kernel_ok user_ok.
  intros Hr. pose proof (server_reachable_inv s Hr) as Hi. split_and!.
  - intros fd. by eapply safely_mono; [apply accept_ok|].
  - intros l1 L t l2 Hq. by eapply safely_mono; [eapply task_ok|].
  - intros i o op Ho He Hd Hl. by eapply safely_mono; [eapply conn_ok|].
Qed.
End Server.

(** ** The theorems at a concrete input *)

Definition sample_kernels (_ : Z) : nat → bytes → write_reply := sample_kernel.
Lemma sample_kernels_ok fd i d n : sample_kernels fd i d = WOk n → 0 ≤ n ≤ len d.
Proof. apply sample_kernel_ok. Qed.
Lemma quiet_plays fd : plays (sample_kernels fd) (conn_user quiet_user).
Proof.
  split; [intros f [= <-] c|intros f [= <-] c|intros f [= <-] c|done|intros f [= <-] c]; by exists [].
Qed.

Definition sample_server : TcpServer :=
  mkServer 100 (str "127.0.0.1:80") (str "S") (mkPool 100 (str "S") true 1 0 [str "S0"] [200]) 1 1 ∅ true [] [].
Definition sample_accepted : TcpServer :=
  match server_newConnection sample_kernels quiet_user 100 9 sample_server with Ok s => s | Fault _ => sample_server end.
Definition fresh_buffer : Buffer := mkBuffer (replicate 1032 Byte.x00) 8 8.
Definition sample_object : conn_object :=
  mkObject (str "S-127.0.0.1:80#1") 200 9 (newConnection 9 fresh_buffer fresh_buffer).

Lemma sample_accepted_reachable : server_reachable sample_kernels quiet_user sample_accepted.
Proof.
  eapply sr_step; [apply (sr_up _ _ sample_server)|].
  - split_and!; try done. split_and!; [done|right; by vm_compute|by vm_compute].
  - apply (ss_accept _ _ _ 9); by vm_compute.
Qed.

Lemma server_connections_witness :
  reachable sample_kernel (conn_user quiet_user) 9 (o_conn sample_object) ∧
  (∀ j o', objects_ sample_accepted !! j = Some o' → o_name o' = o_name sample_object → j = 0%nat) ∧
  (connections_ sample_accepted !! o_name sample_object = Some 0%nat ↔
     LClose ∉ log_ (o_conn sample_object) ∨ (100, TRemove 0) ∈ queue_ sample_accepted) ∧
  (LClose ∈ log_ (o_conn sample_object) →
     tasks 0 (queue_ sample_accepted) = [(100, TRemove 0)] ∨ tasks 0 (queue_ sample_accepted) = [(200, TDestroy 0)] ∨
     (tasks 0 (queue_ sample_accepted) = [] ∧ LDestroyed ∈ log_ (o_conn sample_object))).
Proof.
  apply (server_connections sample_kernels quiet_user sample_kernels_ok quiet_plays sample_accepted 0 sample_object).
  - apply sample_accepted_reachable.
  - by vm_compute.
Defined.

Lemma server_never_aborts_witness :
  (∀ fd, safely (server_newConnection sample_kernels quiet_user (loop_ sample_accepted) fd sample_accepted) (λ _, True)) ∧
  (∀ l1 L t l2, queue_ sample_accepted = l1 ++ (L, t) :: l2 →
     safely (run_task sample_kernels quiet_user L t (set_queue (l1 ++ l2) sample_accepted)) (λ _, True)) ∧
  (∀ i o op, objects_ sample_accepted !! i = Some o → op ≠ OpEstablish → op ≠ OpDestroy → legal op (o_conn o) →
     safely (on_conn i (λ fd, exec (sample_kernels fd) (conn_user quiet_user) op) sample_accepted) (λ _, True)).
Proof.
  apply (server_never_aborts sample_kernels quiet_user sample_kernels_ok quiet_plays).
  apply sample_accepted_reachable.
Defined.
