(* ===== verification/ServerEnd.v ===== *)
(** * ServerEnd: the end of a server ([muduo/net/TcpServer.cc])

    The destructor of a server hands every connection it still knows to its
    loop, to be destroyed there. What the loops have queued outlives the
    server: [connectDestroyed] needs only its connection, but a queued
    [removeConnectionInLoop] and the close callback of a connection have a
    pointer to the server. The theorem is about a server that is destroyed
    when no removal and no [connectEstablished] is queued; without threads of
    its own a server is always such, with threads it need not be (see the end
    of the file). *)
From S2P Require Import Prelude Format Buffer Channel TcpConnection ConnectionEnd EventLoopThreadPool TcpServer.
From stdpp Require Import options.

Section End.
Context (kernel_write : Z → nat → bytes → write_reply) (u : user).
#[local] Abbreviation cu := (conn_user u).
#[local] Abbreviation destroy := (TcpServer.destroy kernel_write u).
#[local] Abbreviation establish := (TcpServer.establish kernel_write u).
#[local] Abbreviation server_reachable := (TcpServer.server_reachable kernel_write u).

(** What is left of the server is the store of the connections and the queues
    of the loops. A connection that closes itself now, or a functor of the
    server, uses the dead server. *)
Definition orphan_conn (i : nat) (f : Z → TcpConnection → outcome TcpConnection) (s : TcpServer) :
    outcome TcpServer :=
  let! o := deref (objects_ s !! i) in
  let! c := f (o_fd o) (o_conn o) in
  if bool_decide (LClose ∈ log_ c ∧ LClose ∉ log_ (o_conn o)) then Fault NullDeref
  else Ok (set_objects (<[i := set_conn o c]> (objects_ s)) s).

Definition orphan (x : Z * task) (s : TcpServer) : outcome TcpServer :=
  match x.2 with
  | TListen | TRemove _ => Fault NullDeref
  | TEstablish i => orphan_conn i establish s
  | TDestroy i => orphan_conn i destroy s
  end.

Hypothesis kernel_ok : ∀ fd i d n, kernel_write fd i d = WOk n → 0 ≤ n ≤ len d.
Hypothesis user_ok : ∀ fd, plays (kernel_write fd) cu.

Definition good (o : conn_object) : Prop := reachable (kernel_write (o_fd o)) cu (o_fd o) (o_conn o).
(** It has been destroyed, or it can be. *)
Definition ended (o : conn_object) : Prop := good o ∧ LDestroyed ∈ log_ (o_conn o).
Definition ready (o : conn_object) : Prop :=
  good o ∧ core (o_conn o) ∧
  (live (o_conn o) ∨ ∃ L, down L (o_conn o) ∧ closed_life L).

(** Destroying a connection never calls its close callback. *)
Lemma destroy_ready o :
  ready o →
  safely (destroy (o_fd o) (o_conn o)) (λ c, ended (set_conn o c) ∧
    (LClose ∈ log_ c → LClose ∈ log_ (o_conn o))).
Proof using kernel_ok user_ok.
  intros (Hr & Hc & Hph).
  eapply safely_mono; [apply (destroy_settled (kernel_write (o_fd o)) cu (user_ok _) (kernel_ok _) _ _ Hr); by split|].
  by intros c (? & ? & ?).
Qed.
(** *** What is owed to the connections

    [ts] is everything still to be run: one [connectDestroyed] for each
    connection that has not been destroyed, and nothing else. *)
Definition owed (ts : list (Z * task)) (s : TcpServer) : Prop :=
  ∀ i, match objects_ s !! i with
       | None => tasks i ts = []
       | Some o => ended o ∧ tasks i ts = [] ∨ ready o ∧ ∃ L, tasks i ts = [(L, TDestroy i)]
       end.

Definition only_destroy (q : list (Z * task)) : Prop := Forall (λ x, ∃ i, x.2 = TDestroy i) q.

Lemma tasks_destroy_self i L : tasks i [(L, TDestroy i)] = [(L, TDestroy i)].
Proof using Type. by apply tasks_self. Qed.
Lemma tasks_destroy_other i j L : i ≠ j → tasks i [(L, TDestroy j)] = [].
Proof using Type. by apply (tasks_other i j). Qed.

(** The first of the tasks concerns a connection that is ready. *)
Lemma owed_first L i ts s :
  owed ((L, TDestroy i) :: ts) s → ∃ o, objects_ s !! i = Some o ∧ ready o ∧ tasks i ts = [].
Proof using Type.
  intros H. specialize (H i).
  change ((L, TDestroy i) :: ts) with ([(L, TDestroy i)] ++ ts) in H. rewrite tasks_app, tasks_destroy_self in H.
  destruct (objects_ s !! i) as [o|]; [|done]. exists o.
  destruct H as [[_ ?]|[? [L' [= _ ?]]]]; done.
Qed.

(** It may be run at once, *)
Lemma owed_run L i ts s :
  owed ((L, TDestroy i) :: ts) s → safely (orphan_conn i destroy s) (owed ts).
Proof using kernel_ok user_ok.
  intros H. destruct (owed_first L i ts s H) as (o & Ho & Hready & Hts).
  unfold orphan_conn. rewrite Ho. cbn [deref obind].
  eapply safely_bind; [by apply destroy_ready|]. intros c [He Hcl].
  rewrite bool_decide_false; [|by intros [? []]; auto]. cbn [safely]. intros j. cbn [objects_ set_objects].
  destruct (decide (i = j)) as [<-|Hne].
  - rewrite list_lookup_insert_eq by (by eapply lookup_lt_Some). by left.
  - rewrite list_lookup_insert_ne by done. specialize (H j).
    change ((L, TDestroy i) :: ts) with ([(L, TDestroy i)] ++ ts) in H.
    by rewrite tasks_app, tasks_destroy_other in H.
Qed.

(** or be put behind the others. *)
Lemma owed_later L L' i ts s s' :
  owed ((L, TDestroy i) :: ts) s → objects_ s' = objects_ s → owed (ts ++ [(L', TDestroy i)]) s'.
Proof using Type.
  intros H Ho j. rewrite Ho, tasks_app. destruct (owed_first L i ts s H) as (o & Hi & Hready & Hts).
  destruct (decide (j = i)) as [->|Hne].
  - rewrite Hi, Hts, tasks_destroy_self. right. split; [done|]. by exists L'.
  - rewrite tasks_destroy_other, app_nil_r by done. specialize (H j).
    change ((L, TDestroy i) :: ts) with ([(L, TDestroy i)] ++ ts) in H.
    by rewrite tasks_app, tasks_destroy_other in H.
Qed.

(** The sockets of the connections, in the order in which they were made. *)
Definition sockets (s : TcpServer) : list Z := o_fd <$> objects_ s.

Lemma sockets_set_conn i o c s :
  deref (objects_ s !! i) = Ok o → sockets (set_objects (<[i := set_conn o c]> (objects_ s)) s) = sockets s.
Proof using Type.
  intros Ho. unfold sockets. cbn [objects_ set_objects]. rewrite list_fmap_insert. cbn [o_fd set_conn].
  apply list_insert_id. rewrite list_lookup_fmap. destruct (objects_ s !! i); by simplify_eq/=.
Qed.

Lemma orphan_frame i f s s' :
  orphan_conn i f s = Ok s' → connections_ s' = connections_ s ∧ queue_ s' = queue_ s ∧ sockets s' = sockets s.
Proof using Type.
  unfold orphan_conn. intros (o & Ho & (c & _ & H)%ok_bind_inv)%ok_bind_inv.
  case_bool_decide; [done|]. injection H as <-. split; [done|]. split; [done|]. by apply sockets_set_conn.
Qed.

(** Running everything that is owed. *)
Lemma owed_all ts s :
  only_destroy ts → owed ts s →
  safely (foldM orphan ts s) (λ s', connections_ s' = connections_ s ∧ sockets s' = sockets s ∧
    ∀ i o, objects_ s' !! i = Some o → ended o).
Proof using kernel_ok user_ok.
  intros Hd. revert s. induction Hd as [|[L t] ts [i Ht] _ IH]; intros s H.
  - split; [done|]. split; [done|]. intros i o Ho. specialize (H i). rewrite Ho in H. by destruct H as [[? _]|[_ [L ?]]].
  - cbn in Ht. subst t. cbn [foldM orphan snd].
    eapply safely_bind.
    + apply safely_and; [by apply (owed_run L)|]. intros s' Hs'. exact (orphan_frame _ _ _ _ Hs').
    + intros s' (Hs' & <- & _ & <-). by apply IH.
Qed.

(** *** The destructor *)

Lemma on_conn_orphan i f s P : safely (orphan_conn i f s) P → safely (on_conn i f s) P.
Proof using Type.
  unfold orphan_conn, on_conn. destruct (objects_ s !! i) as [o|]; cbn [deref obind]; [|done].
  destruct (f (o_fd o) (o_conn o)) as [c|e]; cbn [obind]; [|done]. by case_bool_decide.
Qed.

Definition promised (l : list (bytes * nat)) : list (Z * task) := (λ x, (0, TDestroy x.2)) <$> l.

Lemma destroy_each cur l s :
  only_destroy (queue_ s) → owed (promised l ++ queue_ s) s →
  safely (foldM (λ '(_, i) s,
            let! o := deref (objects_ s !! i) in runInLoop kernel_write u cur (o_loop o) (TDestroy i) s) l s)
    (λ s', connections_ s' = connections_ s ∧ sockets s' = sockets s ∧ only_destroy (queue_ s') ∧ owed (queue_ s') s').
Proof using kernel_ok user_ok.
  revert s. induction l as [|[n i] l IH]; intros s Hq H; [done|]. cbn [promised fmap list_fmap snd app] in H.
  destruct (owed_first _ _ _ _ H) as (o & Ho & _ & _). cbn [foldM]. rewrite Ho. cbn [deref obind].
  unfold runInLoop. destruct (cur =? o_loop o).
  - cbn [run_task]. eapply safely_bind.
    + apply on_conn_orphan, safely_and; [by apply (owed_run 0)|]. intros s' Hs'. exact (orphan_frame _ _ _ _ Hs').
    + intros s' (Hs' & <- & Eq & <-). apply IH; [by rewrite Eq|]. by rewrite Eq.
  - cbn [obind]. refine (IH (queue_task _ _ s) _ _); cbn [queue_ queue_task set_queue].
    + apply Forall_app. split; [done|]. apply Forall_singleton. by exists i.
    + rewrite app_assoc. by apply (owed_later 0 _ _ _ s).
Qed.

(** The tasks promised to the connections of the map. *)
Lemma promised_tasks l i :
  NoDup (l.*2) → tasks i (promised l) = if bool_decide (i ∈ l.*2) then [(0, TDestroy i)] else [].
Proof using Type.
  clear kernel_ok user_ok. induction l as [|[n j] l IH]; [done|]. cbn [fmap list_fmap snd]. intros [Hj Hn]%NoDup_cons.
  change (promised ((n, j) :: l)) with ([(0, TDestroy j)] ++ promised l). rewrite tasks_app, (IH Hn).
  destruct (decide (i = j)) as [->|Hne].
  - rewrite tasks_destroy_self, (bool_decide_eq_false_2 (j ∈ l.*2)) by done.
    rewrite bool_decide_eq_true_2; [done|by left].
  - rewrite tasks_destroy_other by done. cbn [app]. erewrite bool_decide_ext; [done|].
    rewrite elem_of_cons. naive_solver.
Qed.

Lemma map_indices s :
  server_inv kernel_write u s → NoDup ((map_to_list (connections_ s)).*2) ∧
  ∀ i, i ∈ (map_to_list (connections_ s)).*2 ↔ ∃ n, connections_ s !! n = Some i.
Proof using Type.
  clear kernel_ok user_ok. intros Hi. split.
  - apply NoDup_fmap_2_strong; [|apply NoDup_map_to_list].
    intros [n i] [n' i'] H1%elem_of_map_to_list H2%elem_of_map_to_list ?. cbn in *. subst i'.
    destruct (si_map _ _ s Hi n i H1) as (o & E1 & <-), (si_map _ _ s Hi n' i H2) as (o' & E2 & <-). congruence.
  - intros i. rewrite list_elem_of_fmap. split.
    + intros ([n j] & -> & H%elem_of_map_to_list). by exists n.
    + intros [n H]. exists (n, i). split; [done|by apply elem_of_map_to_list].
Qed.

Lemma owed_at_the_end s :
  server_inv kernel_write u s → only_destroy (queue_ s) →
  owed (promised (map_to_list (connections_ s)) ++ queue_ s) (set_connections ∅ s).
Proof using Type.
  clear kernel_ok user_ok. intros Hi Hq i. destruct (map_indices s Hi) as [Hnd Hin]. cbn [objects_ set_connections].
  rewrite tasks_app, promised_tasks by done.
  assert (∀ L t, (L, t) ∈ tasks i (queue_ s) → t = TDestroy i) as Hd.
  { intros L t [Ha Hl]%list_elem_of_filter. unfold only_destroy in Hq. rewrite Forall_forall in Hq. destruct (Hq _ Hl) as [j Hj].
    cbn in Hj. subst t. cbn in Ha. by subst. }
  destruct (objects_ s !! i) as [o|] eqn:Ho.
  - destruct (si_objects _ _ s Hi i o Ho) as [g [G1 G2 G3 G4 G5]].
    assert (i ∈ (map_to_list (connections_ s)).*2 ↔ in_map g = true) as Hm.
    { rewrite Hin. split.
      - intros [n Hn]. destruct (si_map _ _ s Hi n i Hn) as (o' & Ho' & <-). assert (o' = o) as -> by congruence.
        rewrite G5 in Hn. by destruct (in_map g).
      - intros E. exists (o_name o). by rewrite G5, E. }
    rewrite (bool_decide_ext _ _ Hm). rewrite G4 in Hd |- *. destruct g; cbn [in_map stage_tasks stage_conn] in *.
    + by pose proof (Hd _ _ (list_elem_of_here _ _)).
    + right. destruct G3 as [[Hc Hl] _]. split; [by split|]. by exists 0.
    + by pose proof (Hd _ _ (list_elem_of_here _ _)).
    + right. destruct G3 as [Hc Hl]. split; [|by exists (o_loop o)]. split_and!; [done|done|]. right.
      eexists. split; [exact Hl|by right].
    + left. destruct G3 as [Hc (_ & _ & _ & Hl & _)]. split; [|done]. split; [done|].
      apply (elem_of_life LDestroyed); [done|]. rewrite Hl. by apply (bool_decide_unpack _).
  - assert (bool_decide (i ∈ (map_to_list (connections_ s)).*2) = false) as ->.
    { apply bool_decide_eq_false. rewrite Hin. intros [n Hn].
      destruct (si_map _ _ s Hi n i Hn) as (o' & Ho' & _). congruence. }
    apply (si_tasks _ _ s Hi). by apply lookup_ge_None.
Qed.

Lemma torn_down s :
  server_reachable s → only_destroy (queue_ s) →
  safely (destroyServer kernel_write u (loop_ s) s) (λ s1,
    connections_ s1 = ∅ ∧ sockets s1 = sockets s ∧
    safely (foldM orphan (queue_ s1) s1) (λ s2,
      connections_ s2 = ∅ ∧ sockets s2 = sockets s ∧
      ∀ i o, objects_ s2 !! i = Some o → destroyConnection (o_conn o) = Ok [SysClose (o_fd o)])).
Proof using kernel_ok user_ok.
  intros Hr Hq. pose proof (server_reachable_inv kernel_write u kernel_ok user_ok s Hr) as Hi.
  unfold destroyServer. rewrite Z.eqb_refl. cbn [obind].
  eapply safely_mono; [apply destroy_each; [exact Hq|exact (owed_at_the_end s Hi Hq)]|].
  intros s1 (Hc1 & Hs1 & Hq1 & Ho1). split; [done|]. split; [done|].
  eapply safely_mono; [by apply owed_all|]. intros s2 (Hc2 & Hs2 & He).
  split; [by rewrite Hc2|]. split; [by rewrite Hs2|]. intros i o Ho. destruct (He i o Ho) as [Hg Hd].
  apply (destroy_destroyed (kernel_write (o_fd o)) cu); [done|apply kernel_ok|done|done].
Qed.

(** C17. A server that is destroyed leaves nothing behind. In every reachable
    state in which the loops have nothing queued but [connectDestroyed], the
    destructor passes, and so do the functors that it leaves in the loops,
    when they run after it; then every connection the server ever had has been
    destroyed, the destructors of the objects pass, and each closes its
    socket. *)
Theorem server_teardown s :
  server_reachable s → only_destroy (queue_ s) →
  safely (let! s1 := destroyServer kernel_write u (loop_ s) s in foldM orphan (queue_ s1) s1)
    (λ s', connections_ s' = ∅ ∧
       ∀ i o, objects_ s' !! i = Some o → destroyConnection (o_conn o) = Ok [SysClose (o_fd o)]).
Proof using kernel_ok user_ok.
  intros Hr Hq. eapply safely_bind; [by apply torn_down|]. intros s1 (_ & _ & H).
  eapply safely_mono; [exact H|]. by intros s2 (? & _ & ?).
Qed.

(** *** A server without threads *)

(** Its only loop runs everything at once but [TListen], before it is started,
    and [connectDestroyed]. *)
Definition calm (q : list (Z * task)) : Prop := Forall (λ x, x.2 = TListen ∨ ∃ i, x.2 = TDestroy i) q.

Record alone (s : TcpServer) : Prop := mkAlone {
  al_loops : loops_ (threadPool_ s) = [];
  al_base : baseLoop_ (threadPool_ s) = loop_ s;
  al_objects i o : objects_ s !! i = Some o → o_loop o = loop_ s;
  al_calm : calm (queue_ s)
}.

Lemma calm_snoc q L i : calm q → calm (q ++ [(L, TDestroy i)]).
Proof using Type. intros H. apply Forall_app. split; [done|]. apply Forall_singleton. right. by exists i. Qed.

Lemma alone_on_conn i f s s' : alone s → on_conn i f s = Ok s' → alone s'.
Proof using Type.
  intros [Hl Hb Ho Hq]. unfold on_conn. intros (o & H1 & (c & _ & H)%ok_bind_inv)%ok_bind_inv.
  assert (objects_ s !! i = Some o) as Hi by (destruct (objects_ s !! i); by simplify_eq/=).
  set (s1 := set_objects _ s) in H.
  assert (alone s1) as H1a.
  { split; try done. intros j o'. cbn. intros [(_ & <- & _)|[_ Hj]]%list_lookup_insert_Some.
    - apply (Ho i o Hi).
    - by apply (Ho j). }
  case_bool_decide; [|by injection H as <-].
  unfold removeConnection in H. rewrite (Ho i o Hi), Z.eqb_refl in H.
  unfold removeConnectionInLoop in H. rewrite Z.eqb_refl in H. cbn [obind] in H.
  apply ok_bind_inv in H as (o1 & _ & (? & _ & [= <-])%ok_bind_inv).
  destruct H1a as [? ? ? Hq1]. split; try done. by apply calm_snoc.
Qed.

Lemma alone_task L t s s' : alone s → (t = TListen ∨ ∃ i, t = TDestroy i) →
  run_task kernel_write u L t s = Ok s' → alone s'.
Proof using Type.
  intros Ha [->|[i ->]]; cbn [run_task]; [|by apply alone_on_conn].
  intros [= <-]. destruct Ha. by split.
Qed.

Lemma alone_accept fd s s' :
  alone s → server_newConnection kernel_write u (loop_ s) fd s = Ok s' → alone s'.
Proof using Type.
  intros [Hl Hb Ho Hq]. unfold server_newConnection, getNextLoop. rewrite Hl, Hb, Z.eqb_refl. cbn [obind].
  intros ([ioLoop p] & (? & _ & [= <- <-])%ok_bind_inv & (inp & _ & (out & _ & H)%ok_bind_inv)%ok_bind_inv)%ok_bind_inv.
  unfold runInLoop in H. rewrite Z.eqb_refl in H. revert H. apply alone_on_conn. split; try done.
  cbn. intros i o [Hi|[_ Hi]]%lookup_app_Some; [by eapply Ho|].
  by apply list_lookup_singleton_Some in Hi as [_ <-].
Qed.

(** A server that never got a thread has nothing else queued. *)
Lemma no_threads_calm s0 s :
  alone s0 → rtc (server_step kernel_write u) s0 s → alone s.
Proof using Type.
  intros Ha Hs. induction Hs as [s|s s1 s2 Hstep _ IH]; [done|]. apply IH. clear IH.
  destruct Hstep as [s fd s' _ Hs|s l1 L t l2 s' Hq _ Hs|s i o op s' _ _ _ _ Hs].
  - by eapply alone_accept.
  - destruct Ha as [Hl Hb Ho Hc]. unfold calm in Hc. rewrite Hq, Forall_app, Forall_cons in Hc.
    destruct Hc as (Hc1 & Ht & Hc2). eapply (alone_task L t (set_queue (l1 ++ l2) s)); [|exact Ht|exact Hs].
    split; try done. by apply Forall_app.
  - by eapply alone_on_conn.
Qed.
End End.

(** ** The theorem at a concrete input *)

Definition after_server (m : outcome TcpServer) : TcpServer := match m with Ok s => s | Fault _ => sample_server end.
(** The connection of [sample_accepted] in its own loop: established, and then
    closed, which queues its removal in the loop of the server. *)
Definition sample_established : TcpServer :=
  after_server (run_task sample_kernels quiet_user 200 (TEstablish 0) (set_queue [] sample_accepted)).
Definition sample_closed : TcpServer :=
  after_server (on_conn 0 (λ fd, exec (sample_kernels fd) (conn_user quiet_user) (OpHere AForceClose)) sample_established).

Lemma sample_established_reachable : server_reachable sample_kernels quiet_user sample_established.
Proof.
  apply (sr_step _ _ sample_accepted); [apply sample_accepted_reachable|].
  apply (ss_task _ _ _ [] 200 (TEstablish 0) []); by vm_compute.
Qed.

Lemma server_teardown_witness :
  safely (let! s1 := destroyServer sample_kernels quiet_user (loop_ sample_established) sample_established in
          foldM (orphan sample_kernels quiet_user) (queue_ s1) s1)
    (λ s', connections_ s' = ∅ ∧
       ∀ i o, objects_ s' !! i = Some o → destroyConnection (o_conn o) = Ok [SysClose (o_fd o)]).
Proof.
  apply (server_teardown sample_kernels quiet_user sample_kernels_ok quiet_plays).
  - apply sample_established_reachable.
  - vm_compute. constructor.
Defined.

(** The removal of a closed connection holds a pointer to the server: when the
    server is destroyed before its loop gets to it, the functor runs on a
    destroyed server. *)
Lemma removal_outlives_server :
  server_reachable sample_kernels quiet_user sample_closed ∧
  (let! s1 := destroyServer sample_kernels quiet_user (loop_ sample_closed) sample_closed in
   foldM (orphan sample_kernels quiet_user) (queue_ s1) s1) = Fault NullDeref.
Proof.
  split; [|by vm_compute]. apply (sr_step _ _ sample_established); [apply sample_established_reachable|].
  eapply (ss_conn _ _ _ 0 _ (OpHere AForceClose)); [by vm_compute|done|done|by split; vm_compute|by vm_compute].
Qed.
