(* ===== verification/Connector.v ===== *)
(** * Connector: connecting with retries ([muduo/net/Connector.cc])

    The state is the object with what it has queued in its loop, the pending
    retry timers, and what became of the sockets. A socket is named by its
    number (the n-th call of [::socket]); the kernel's answers ([::connect],
    [SO_ERROR], whether both ends are the same) are parameters. *)
From S2P Require Import Prelude Channel.
From stdpp Require Import options.

Definition EINPROGRESS : Z := 115.
Definition EINTR : Z := 4.
Definition EISCONN : Z := 106.
Definition EAGAIN : Z := 11.
Definition EADDRINUSE : Z := 98.
Definition EADDRNOTAVAIL : Z := 99.
Definition ECONNREFUSED : Z := 111.
Definition ENETUNREACH : Z := 101.

(* src/muduo/net/Connector.h:40-40 Connector::States *)
Inductive States : Set := kDisconnected | kConnecting | kConnected.
#[global] Instance States_eq_dec : EqDecision States.
Proof. solve_decision. Defined.

(* src/muduo/net/Connector.h:42-42 Connector::kMaxRetryDelayMs *)
Definition kMaxRetryDelayMs : Z := 30 * 1000.
(* src/muduo/net/Connector.h:43-43 Connector::kInitRetryDelayMs *)
Definition kInitRetryDelayMs : Z := 500.

Inductive conn_functor : Set := FStart | FStop | FReset.
#[global] Instance conn_functor_eq_dec : EqDecision conn_functor.
Proof. solve_decision. Defined.

(* src/muduo/net/Connector.h:57-63 Connector *)
Record Connector := mkConnector {
  connect_ : bool;
  state_ : States;
  channel_ : option Channel;
  retryDelayMs_ : Z;
  (* the loop *)
  inPoller_ : bool;                  (* the poller knows the channel *)
  queue_ : list conn_functor;
  timers_ : list Z;                  (* delays of the pending startInLoop timers *)
  (* the sockets *)
  sockets_ : Z;                      (* opened so far *)
  closed_ : list Z;
  delivered_ : list Z;               (* handed to newConnectionCallback *)
  (* the retry delays since the last restart *)
  delays_ : list Z
}.

(* src/muduo/net/Connector.cc:14-17 Connector::Connector *)
Definition newConnector : Connector :=
  mkConnector false kDisconnected None kInitRetryDelayMs false [] [] 0 [] [] [].

Section Setters.
Context (c : Connector).
Definition set_connect (b : bool) := mkConnector b (state_ c) (channel_ c) (retryDelayMs_ c) (inPoller_ c)
  (queue_ c) (timers_ c) (sockets_ c) (closed_ c) (delivered_ c) (delays_ c).
(* src/muduo/net/Connector.h:45-45 Connector::setState *)
Definition setState (s : States) := mkConnector (connect_ c) s (channel_ c) (retryDelayMs_ c) (inPoller_ c)
  (queue_ c) (timers_ c) (sockets_ c) (closed_ c) (delivered_ c) (delays_ c).
Definition set_channel (ch : option Channel) := mkConnector (connect_ c) (state_ c) ch (retryDelayMs_ c) (inPoller_ c)
  (queue_ c) (timers_ c) (sockets_ c) (closed_ c) (delivered_ c) (delays_ c).
Definition set_inPoller (b : bool) := mkConnector (connect_ c) (state_ c) (channel_ c) (retryDelayMs_ c) b
  (queue_ c) (timers_ c) (sockets_ c) (closed_ c) (delivered_ c) (delays_ c).
Definition set_queue (q : list conn_functor) := mkConnector (connect_ c) (state_ c) (channel_ c) (retryDelayMs_ c)
  (inPoller_ c) q (timers_ c) (sockets_ c) (closed_ c) (delivered_ c) (delays_ c).
Definition set_timers (l : list Z) := mkConnector (connect_ c) (state_ c) (channel_ c) (retryDelayMs_ c)
  (inPoller_ c) (queue_ c) l (sockets_ c) (closed_ c) (delivered_ c) (delays_ c).
Definition open_socket := mkConnector (connect_ c) (state_ c) (channel_ c) (retryDelayMs_ c)
  (inPoller_ c) (queue_ c) (timers_ c) (sockets_ c + 1) (closed_ c) (delivered_ c) (delays_ c).
(** [sockets::close]. *)
Definition close_socket (fd : Z) := mkConnector (connect_ c) (state_ c) (channel_ c) (retryDelayMs_ c)
  (inPoller_ c) (queue_ c) (timers_ c) (sockets_ c) (closed_ c ++ [fd]) (delivered_ c) (delays_ c).
(** [newConnectionCallback_(sockfd)]. *)
Definition deliver_socket (fd : Z) := mkConnector (connect_ c) (state_ c) (channel_ c) (retryDelayMs_ c)
  (inPoller_ c) (queue_ c) (timers_ c) (sockets_ c) (closed_ c) (delivered_ c ++ [fd]) (delays_ c).
Definition set_retry (ms : Z) (l : list Z) := mkConnector (connect_ c) (state_ c) (channel_ c) ms
  (inPoller_ c) (queue_ c) (timers_ c) (sockets_ c) (closed_ c) (delivered_ c) l.
End Setters.

Definition queueInLoop (f : conn_functor) (c : Connector) : Connector := set_queue c (queue_ c ++ [f]).

(** The channel behind the pointer; every use is guarded. *)
Definition get_channel (c : Connector) : Channel := default (newChannel (-1)) (channel_ c).
Definition put_channel (ch : Channel) (c : Connector) : Connector := set_channel c (Some ch).
Definition loop_updateChannel (c : Connector) : outcome Connector := Ok (set_inPoller c true).
Definition loop_removeChannel (c : Connector) : outcome Connector :=
  assert! inPoller_ c ;; Ok (set_inPoller c false).
Definition conn_enableWriting := enableWriting get_channel put_channel loop_updateChannel.
Definition conn_disableAll := disableAll get_channel put_channel loop_updateChannel.
Definition conn_remove := remove get_channel put_channel loop_removeChannel.

Section Connector.
Context (sys_connect : Z → Z) (so_error : Z → Z) (self_connect : Z → bool) (has_callback : bool).

(* src/muduo/net/Connector.cc:193-212 Connector::retry *)
Definition retry (sockfd : Z) (c : Connector) : Connector :=
  let c := close_socket c sockfd in
  let c := setState c kDisconnected in
  if negb (connect_ c) then c else
  let c := set_timers c (timers_ c ++ [retryDelayMs_ c]) in
  set_retry c (Z.min (swrap 32 (retryDelayMs_ c * 2)) kMaxRetryDelayMs) (delays_ c ++ [retryDelayMs_ c]).

(* src/muduo/net/Connector.cc:116-133 Connector::connecting *)
Definition connecting (sockfd : Z) (c : Connector) : outcome Connector :=
  let c := setState c kConnecting in
  assert! bool_decide (channel_ c = None) ;;
  conn_enableWriting (set_channel c (Some (newChannel sockfd))).

(* src/muduo/net/Connector.cc:77-114 Connector::connect *)
Definition connect (c : Connector) : outcome Connector :=
  let sockfd := sockets_ c in
  let c := open_socket c in
  let savedErrno := sys_connect sockfd in
  if bool_decide (savedErrno ∈ [0; EINPROGRESS; EINTR; EISCONN]) then connecting sockfd c
  else if bool_decide (savedErrno ∈ [EAGAIN; EADDRINUSE; EADDRNOTAVAIL; ECONNREFUSED; ENETUNREACH])
  then Ok (retry sockfd c)
  else Ok (close_socket c sockfd).

(* src/muduo/net/Connector.cc:58-66 Connector::startInLoop *)
Definition startInLoop (c : Connector) : outcome Connector :=
  assert! bool_decide (state_ c = kDisconnected) ;;
  if connect_ c then connect c else Ok c.

(* src/muduo/net/Connector.cc:30-38 Connector::start *)
Definition start (here : bool) (c : Connector) : outcome Connector :=
  let c := set_connect c true in
  if here then startInLoop c else Ok (queueInLoop FStart c).

(* src/muduo/net/Connector.cc:40-46 Connector::restart *)
Definition restart (c : Connector) : outcome Connector :=
  let c := setState c kDisconnected in
  let c := set_retry c kInitRetryDelayMs [] in
  startInLoop (set_connect c true).

(* src/muduo/net/Connector.cc:48-56 Connector::stop *)
Definition stop (c : Connector) : Connector := queueInLoop FStop (set_connect c false).

(* src/muduo/net/Connector.cc:135-143 Connector::removeAndResetChannel *)
Definition removeAndResetChannel (c : Connector) : outcome (Z * Connector) :=
  let! _ := deref (channel_ c) in
  let! c := conn_disableAll c in
  let! c := conn_remove c in
  let sockfd := fd_ (get_channel c) in
  Ok (sockfd, queueInLoop FReset c).

(* src/muduo/net/Connector.cc:145-145 Connector::resetChannel *)
Definition resetChannel (c : Connector) : outcome Connector :=
  match channel_ c with
  | Some ch => let! _ := destroyChannel ch in Ok (set_channel c None)
  | None => Ok c
  end.

(* src/muduo/net/Connector.cc:68-75 Connector::stopInLoop *)
Definition stopInLoop (c : Connector) : outcome Connector :=
  if bool_decide (state_ c = kConnecting) then
    let c := setState c kDisconnected in
    let! (sockfd, c) := removeAndResetChannel c in
    Ok (close_socket c sockfd)
  else Ok c.

(* src/muduo/net/Connector.cc:147-180 Connector::handleWrite *)
Definition handleWrite (c : Connector) : outcome Connector :=
  if bool_decide (state_ c ≠ kConnecting) then
    assert! bool_decide (state_ c = kDisconnected) ;; Ok c
  else
    let! (sockfd, c) := removeAndResetChannel c in
    let err := so_error sockfd in
    if negb (err =? 0) then Ok (retry sockfd c)
    else if self_connect sockfd then Ok (retry sockfd c)
    else
      let c := setState c kConnected in
      if connect_ c then
        if has_callback then Ok (deliver_socket c sockfd) else Ok (close_socket c sockfd)
      else Ok (close_socket c sockfd).

(* src/muduo/net/Connector.cc:182-191 Connector::handleError *)
Definition handleError (c : Connector) : outcome Connector :=
  if bool_decide (state_ c = kConnecting) then
    let! (sockfd, c) := removeAndResetChannel c in
    Ok (retry sockfd c)
  else Ok c.

(* src/muduo/net/Connector.cc:19-28 Connector::~Connector *)
Definition destroyConnector (here : bool) (c : Connector) : outcome Connector :=
  match channel_ c with
  | Some _ =>
      let! c := (if here then let! c := conn_disableAll c in conn_remove c else Ok c) in
      resetChannel c
  | None => Ok c
  end.

(** ** The connector in its loop *)

Definition channel_callbacks : callbacks Connector := mkCallbacks None (Some handleWrite) None (Some handleError).

Inductive conn_op :=
| OpStart (here : bool) | OpRestart | OpStop
| OpEvent (revents t : Z)                   (* the poller reports events *)
| OpFunctor                                 (* the loop runs the next functor *)
| OpTimer.                                  (* a retry timer expires *)

Definition run_functor (f : conn_functor) (c : Connector) : outcome Connector :=
  match f with FStart => startInLoop c | FStop => stopInLoop c | FReset => resetChannel c end.

Definition exec (o : conn_op) (c : Connector) : outcome Connector :=
  match o with
  | OpStart here => start here c
  | OpRestart => restart c
  | OpStop => Ok (stop c)
  | OpEvent revents t =>
      handleEvent get_channel put_channel channel_callbacks true t (put_channel (setRevents (get_channel c) revents) c)
  | OpFunctor => match queue_ c with f :: l => run_functor f (set_queue c l) | [] => Ok c end
  | OpTimer => match timers_ c with _ :: l => startInLoop (set_timers c l) | [] => Ok c end
  end.

(** Nothing is under way that will call [startInLoop], and the last channel is
    gone. *)
Definition idle (c : Connector) : Prop := timers_ c = [] ∧ FStart ∉ queue_ c ∧ channel_ c = None.

(** How the class is meant to be used: [start] when it is disconnected and
    nothing of an earlier run is under way, [restart] when the connection it
    made is over, [stop] at any time. Events come for a channel the poller
    knows; a retry timer, at least half a second, comes after the functors
    queued when it was set. *)
Definition legal (o : conn_op) (c : Connector) : Prop :=
  match o with
  | OpStart _ => state_ c = kDisconnected ∧ idle c
  | OpRestart => state_ c = kConnected ∧ idle c
  | OpEvent _ _ => inPoller_ c = true
  | OpTimer => FReset ∉ queue_ c
  | _ => True
  end.

Inductive reachable : Connector → Prop :=
| reach_new : reachable newConnector
| reach_step c o c' : reachable c → legal o c → exec o c = Ok c' → reachable c'.

(** *** The invariant *)

(** The socket being connected. *)
Definition current (c : Connector) : list Z :=
  if bool_decide (state_ c = kConnecting) then [fd_ (get_channel c)] else [].

Definition starts (c : Connector) : nat :=
  (length (timers_ c) + length (filter (λ f, f = FStart) (queue_ c)))%nat.

(** The channel is out of the poller and waits for [resetChannel]. *)
Definition detached (c : Connector) : bool :=
  bool_decide (state_ c ≠ kConnecting) && bool_decide (is_Some (channel_ c)).

Definition backoff (i : nat) : Z := Z.min (kInitRetryDelayMs * 2 ^ Z.of_nat i) kMaxRetryDelayMs.

(** [h] says whether an event is being handled. *)
Record conn_inv (h : bool) (c : Connector) : Prop := mkConnInv {
  ci_sockets : closed_ c ++ delivered_ c ++ current c ≡ₚ seqZ 0 (sockets_ c);
  ci_count : 0 ≤ sockets_ c;
  ci_poller : inPoller_ c = bool_decide (state_ c = kConnecting);
  ci_channel : match channel_ c with
    | Some ch => tied_ ch = false ∧ eventHandling_ ch = h ∧ (state_ c ≠ kConnecting → addedToLoop_ ch = false)
    | None => state_ c ≠ kConnecting ∧ h = false
    end;
  ci_reset : filter (λ f, f = FReset) (queue_ c) = if detached c then [FReset] else [];
  ci_starts : (starts c ≤ 1)%nat ∧ (starts c = 1%nat → state_ c = kDisconnected);
  ci_pending : FStart ∈ queue_ c → channel_ c = None;
  ci_delays : delays_ c = backoff <$> seq 0 (length (delays_ c));
  ci_delay : retryDelayMs_ c = backoff (length (delays_ c))
}.

Lemma backoff_succ i : Z.min (swrap 32 (backoff i * 2)) kMaxRetryDelayMs = backoff (S i).
Proof.
  unfold backoff, kInitRetryDelayMs, kMaxRetryDelayMs. rewrite Nat2Z.inj_succ, Z.pow_succ_r by lia.
  assert (0 < 2 ^ Z.of_nat i) as Hp by (apply Z.pow_pos_nonneg; lia). generalize dependent (2 ^ Z.of_nat i).
  intros p Hp. rewrite swrap_id; [lia|lia|]. unfold in_signed. change (2 ^ (32 - 1)) with 2147483648. lia.
Qed.

Lemma seqZ_snoc n : 0 ≤ n → seqZ 0 (n + 1) = seqZ 0 n ++ [n].
Proof. intros. rewrite seqZ_app by lia. by rewrite Z.add_0_l. Qed.

(** *** What the operations do to the invariant *)

Definition dead (ch : Channel) : Channel := set_addedToLoop (set_addedToLoop (set_events ch kNoneEvent) true) false.

Lemma removeAndResetChannel_eq c ch :
  channel_ c = Some ch →
  removeAndResetChannel c =
  Ok (fd_ ch, queueInLoop FReset (set_inPoller (set_channel c (Some (dead ch))) false)).
Proof. destruct c; cbn. by intros ->. Qed.

Definition delays_ok (c : Connector) : Prop :=
  delays_ c = backoff <$> seq 0 (length (delays_ c)) ∧ retryDelayMs_ c = backoff (length (delays_ c)).

Lemma delays_next ms l c :
  delays_ok c → ms = Z.min (swrap 32 (retryDelayMs_ c * 2)) kMaxRetryDelayMs → l = delays_ c ++ [retryDelayMs_ c] →
  delays_ok (set_retry c ms l).
Proof.
  intros [H1 H2] -> ->. unfold delays_ok. cbn. rewrite length_app, H2. cbn [length].
  rewrite Nat.add_1_r. split; [|apply backoff_succ]. rewrite seq_S, fmap_app. cbn. by rewrite <- H1.
Qed.

(** The connecting phase ends: the channel is taken out of the poller, and its
    socket is closed or delivered. *)
Lemma release_inv h c ch c' :
  conn_inv h c → state_ c = kConnecting → channel_ c = Some ch →
  state_ c' ≠ kConnecting → channel_ c' = Some (dead ch) → inPoller_ c' = false →
  queue_ c' = queue_ c ++ [FReset] → sockets_ c' = sockets_ c →
  closed_ c' ++ delivered_ c' ≡ₚ fd_ ch :: closed_ c ++ delivered_ c →
  timers_ c' = timers_ c ∨ (state_ c' = kDisconnected ∧ length (timers_ c') = S (length (timers_ c))) →
  delays_ok c' → conn_inv h c'.
Proof.
  intros [H1 H2 H3 H4 H5 [H6 H7] H8 _ _] Hs Hch Hs' Hch' Hp' Hq' Hso Hcl Ht [Hd1 Hd2].
  rewrite Hch in H4. destruct H4 as (H41 & H42 & _).
  assert (starts c = 0%nat) as H0.
  { destruct (decide (starts c = 1%nat)) as [E|]; [|lia]. apply H7 in E. congruence. }
  unfold starts in H0.
  split; try done.
  - unfold current in H1 |- *. rewrite bool_decide_true in H1 by done.
    rewrite bool_decide_false by done. unfold get_channel in H1. rewrite Hch in H1. cbn in H1.
    rewrite app_nil_r, Hso, Hcl, <- H1. solve_Permutation.
  - by rewrite Hso.
  - by rewrite Hp', bool_decide_false.
  - rewrite Hch'. split_and!; [done|done|intros _; done].
  - rewrite Hq', filter_app, H5. unfold detached. rewrite !Hch', Hs, Hch.
    rewrite (bool_decide_true (state_ c' ≠ _)), (bool_decide_false (kConnecting ≠ kConnecting)) by naive_solver.
    rewrite bool_decide_true by eauto. done.
  - unfold starts. rewrite Hq', filter_app, length_app. change (filter _ [FReset]) with (@nil conn_functor).
    cbn [length]. destruct Ht as [->|[Hd Ht]]; [|split; [lia|done]].
    split; [lia|]. intros; lia.
  - rewrite Hq'. intros Hin. apply elem_of_app in Hin as [Hin|Hin%list_elem_of_singleton]; [|done].
    apply H8 in Hin. congruence.
Qed.

Lemma inv_delays h c : conn_inv h c → delays_ok c.
Proof. intros H. split; apply H. Qed.

(** A socket that never got a channel is closed, and perhaps a retry set. *)
Lemma refuse_inv c c' :
  conn_inv false c → state_ c = kDisconnected → channel_ c = None → starts c = 0%nat →
  state_ c' = kDisconnected → channel_ c' = None → inPoller_ c' = inPoller_ c → queue_ c' = queue_ c →
  sockets_ c' = sockets_ c + 1 → closed_ c' = closed_ c ++ [sockets_ c] → delivered_ c' = delivered_ c →
  (length (timers_ c') ≤ S (length (timers_ c)))%nat → delays_ok c' → conn_inv false c'.
Proof.
  intros [H1 H2 H3 H4 H5 [H6 H7] H8 _ _] Hs Hch H0 Hs' Hch' Hp' Hq' Hso Hcl Hde Ht [Hd1 Hd2]. unfold starts in H0.
  assert (detached c = false) as Hdet by (unfold detached; rewrite Hch; by rewrite andb_false_r).
  split; try done.
  - unfold current in H1 |- *. rewrite bool_decide_false in H1 by congruence. rewrite bool_decide_false by congruence.
    rewrite Hso, seqZ_snoc, Hcl, Hde, <- H1 by done. solve_Permutation.
  - lia.
  - rewrite Hp', H3, Hs, Hs'. done.
  - rewrite Hch', Hs'. by split.
  - rewrite Hq', H5, Hdet. unfold detached. rewrite Hch', andb_false_r. done.
  - unfold starts. rewrite Hq'. split; [lia|done].
Qed.

Lemma connect_ok c :
  conn_inv false c → state_ c = kDisconnected → channel_ c = None → starts c = 0%nat →
  ensures (connect c) (conn_inv false).
Proof.
  intros Hi Hs Hch H0. unfold connect. cbv zeta. case_bool_decide as E1; [|case_bool_decide as E2; cbn [ensures]].
  - destruct Hi as [H1 H2 H3 H4 H5 [H6 H7] H8 H9 H10]. unfold connecting. cbn [channel_ setState open_socket].
    rewrite Hch. rewrite bool_decide_true by done. pass_asserts. cbn. split; cbn; try done.
    + unfold current in *. rewrite bool_decide_false in H1 by congruence. cbn.
      rewrite seqZ_snoc, <- H1 by done. solve_Permutation.
    + lia.
    + rewrite H5. unfold detached. by rewrite Hch, andb_false_r.
    + unfold starts in *. cbn. split; [done|lia].
    + intros Hin. unfold starts in H0.
      assert (FStart ∈ filter (λ f, f = FStart) (queue_ c)) as Hf by (by apply list_elem_of_filter).
      destruct (filter (λ f, f = FStart) (queue_ c)); [by apply elem_of_nil in Hf|cbn in H0; lia].
  - pose proof (inv_delays _ _ Hi) as Hd. unfold retry.
    destruct (connect_ (setState _ _)) eqn:Ec; cbn [negb].
    + apply (refuse_inv c); try done; cbn; [rewrite length_app; cbn; lia|]. by apply (delays_next _ _ c).
    + apply (refuse_inv c); try done; cbn; lia.
  - apply (refuse_inv c); try done; cbn; [lia|exact (inv_delays _ _ Hi)].
Qed.

Lemma startInLoop_ok c :
  conn_inv false c → state_ c = kDisconnected → channel_ c = None → starts c = 0%nat →
  ensures (startInLoop c) (conn_inv false).
Proof.
  intros Hi Hs Hch H0. unfold startInLoop. rewrite bool_decide_true by done. pass_asserts.
  destruct (connect_ c); [by apply connect_ok|done].
Qed.

Lemma inv_connecting h c : conn_inv h c → state_ c = kConnecting → ∃ ch, channel_ c = Some ch.
Proof. intros H Hs. pose proof (ci_channel _ _ H). destruct (channel_ c); [eauto|naive_solver]. Qed.

Lemma stopInLoop_ok h c : conn_inv h c → ensures (stopInLoop c) (conn_inv h).
Proof.
  intros Hi. unfold stopInLoop. case_bool_decide as Hs; [|done].
  destruct (inv_connecting _ _ Hi Hs) as [ch Hch]. rewrite (removeAndResetChannel_eq _ ch) by done.
  cbn [obind ensures]. apply (release_inv h c ch); try done; cbn; [solve_Permutation|by left|exact (inv_delays _ _ Hi)].
Qed.

Lemma retry_release h c ch :
  conn_inv h c → state_ c = kConnecting → channel_ c = Some ch →
  conn_inv h (retry (fd_ ch) (queueInLoop FReset (set_inPoller (set_channel c (Some (dead ch))) false))).
Proof.
  intros Hi Hs Hch. pose proof (inv_delays _ _ Hi) as Hd. unfold retry.
  destruct (connect_ (setState _ _)) eqn:Ec; cbn [negb].
  - apply (release_inv h c ch); try done; cbn; [solve_Permutation|right; rewrite length_app; cbn; split; [done|lia]|].
    by apply (delays_next _ _ c).
  - apply (release_inv h c ch); try done; cbn; [solve_Permutation|by left].
Qed.

Lemma retry_state fd c : state_ (retry fd c) = kDisconnected.
Proof. unfold retry. by destruct (negb _). Qed.

Lemma handleError_ok h c :
  conn_inv h c → state_ c ≠ kConnected → ensures (handleError c) (λ c', conn_inv h c' ∧ state_ c' ≠ kConnected).
Proof.
  intros Hi Hn. unfold handleError. case_bool_decide as Hs; [|done].
  destruct (inv_connecting _ _ Hi Hs) as [ch Hch]. rewrite (removeAndResetChannel_eq _ ch) by done.
  cbn [obind ensures]. split; [by apply retry_release|]. by rewrite retry_state.
Qed.

Lemma conn_handleWrite_ok h c : conn_inv h c → state_ c ≠ kConnected → ensures (handleWrite c) (conn_inv h).
Proof.
  intros Hi Hn. unfold handleWrite. case_bool_decide as Hs.
  { rewrite bool_decide_true by (by destruct (state_ c)). by pass_asserts. }
  destruct (inv_connecting _ _ Hi Hs) as [ch Hch].
  pose proof (inv_delays _ _ Hi) as Hd.
  rewrite (removeAndResetChannel_eq _ ch) by done. cbn [obind]. cbv zeta.
  destruct (negb _); [by apply retry_release|]. destruct (self_connect _); [by apply retry_release|].
  destruct (connect_ _); [destruct has_callback|]; cbn [ensures];
    (apply (release_inv h c ch); try done; cbn; [solve_Permutation|by left]).
Qed.

Lemma if_same {A} (b : bool) (x : A) : (if b then x else x) = x.
Proof. by destruct b. Qed.

(** Only the fields the poller and [handleEvent] write change. *)
Lemma put_inv h h' c ch ch' :
  conn_inv h c → channel_ c = Some ch → fd_ ch' = fd_ ch → tied_ ch' = tied_ ch → addedToLoop_ ch' = addedToLoop_ ch →
  eventHandling_ ch' = h' → conn_inv h' (put_channel ch' c).
Proof.
  intros [H1 H2 H3 H4 H5 [H6 H7] H8 H9 H10] Hch Hf Ht Ha He. rewrite Hch in H4. destruct H4 as (H41 & H42 & H43).
  split; cbn; try done.
  - unfold current, get_channel in *. cbn. rewrite Hch in H1. cbn in H1. by rewrite Hf.
  - split_and!; [congruence|done|]. rewrite Ha. exact H43.
  - rewrite H5. unfold detached. cbn. rewrite Hch. f_equal.
  - intros Hin. apply H8 in Hin. congruence.
Qed.

Lemma event_ok t r c :
  conn_inv false c → inPoller_ c = true →
  ensures (handleEvent get_channel put_channel channel_callbacks true t (put_channel (setRevents (get_channel c) r) c))
    (conn_inv false).
Proof.
  intros Hi Hp. rewrite (ci_poller _ _ Hi) in Hp. apply bool_decide_eq_true in Hp.
  destruct (inv_connecting _ _ Hi Hp) as [ch Hch].
  assert (conn_inv true (put_channel (set_eventHandling (setRevents ch r) true) c)) as Ht by (by apply (put_inv false _ _ ch)).
  pose proof (ci_channel _ _ Hi) as Htied. rewrite Hch in Htied. destruct Htied as (Htied & _).
  unfold handleEvent, get_channel. rewrite Hch. cbn [default put_channel channel_ set_channel]. unfold id.
  change (tied_ (setRevents ch r)) with (tied_ ch). rewrite Htied. unfold handleEventWithGuard. cbv zeta.
  set (c0 := put_channel (set_eventHandling _ _) _).
  assert (c0 = put_channel (set_eventHandling (setRevents ch r) true) c) as -> by done.
  cbn [channel_callbacks closeCallback_ readCallback_ writeCallback_ errorCallback_ call fmap option_fmap option_map].
  set (c0 := put_channel _ _) in *. assert (state_ c0 ≠ kConnected) as Hs by (by cbn; rewrite Hp).
  rewrite if_same. cbn [obind].
  eapply (ensures_bind _ _ (λ c', conn_inv true c' ∧ state_ c' ≠ kConnected)).
  { destruct (_ || _); [by apply handleError_ok|done]. }
  intros c1 [Hi1 Hs1]. rewrite if_same. cbn [obind]. eapply (ensures_bind _ _ (conn_inv true)).
  { destruct (bit _ _); [by apply conn_handleWrite_ok|done]. }
  intros c2 Hi2. cbn [ensures]. pose proof (ci_channel _ _ Hi2) as Hc2. destruct (channel_ c2) as [ch2|] eqn:E2.
  - by apply (put_inv true _ _ ch2).
  - by destruct Hc2.
Qed.

Lemma idle_starts c : idle c → starts c = 0%nat.
Proof.
  intros (Ht & Hf & _). unfold starts. rewrite Ht. destruct (filter _ _) as [|f l] eqn:E; [done|].
  destruct Hf. assert (f ∈ filter (λ f, f = FStart) (queue_ c)) as Hin by (rewrite E; left).
  apply list_elem_of_filter in Hin as [-> ?]. done.
Qed.

(** Taking the first functor or a timer. *)
Lemma pop_functor h c f l :
  conn_inv h c → queue_ c = f :: l → f ≠ FReset → conn_inv h (set_queue c l).
Proof.
  intros [H1 H2 H3 H4 H5 [H6 H7] H8 H9 H10] Hq Hf. unfold starts in *. rewrite Hq in H5, H6, H7, H8.
  split; cbn; try done.
  - rewrite filter_cons, decide_False in H5 by done. exact H5.
  - unfold starts. cbn. rewrite filter_cons in H6, H7. destruct (decide (f = FStart)); cbn in H6, H7; split; try lia.
    intros. apply H7. lia.
  - intros. apply H8. by right.
Qed.

Lemma conn_exec_ok o c : conn_inv false c → legal o c → ensures (exec o c) (conn_inv false).
Proof.
  intros Hi Hl. destruct o as [here| | |r t| |]; cbn [exec legal] in *.
  - destruct Hl as [Hs Hidle]. pose proof (idle_starts c Hidle) as H0. unfold idle in Hidle.
    assert (conn_inv false (set_connect c true)) as Hi' by (destruct Hi; by split).
    unfold start. destruct here; [apply startInLoop_ok; [done|done|apply Hidle|done]|]. cbn [ensures].
    destruct Hi' as [H1 H2 H3 H4 H5 _ H8 H9 H10]. unfold starts in H0. split; try done.
    + cbn. rewrite filter_app. cbn. cbn in H5. rewrite H5, app_nil_r. done.
    + unfold starts. cbn. rewrite filter_app, length_app. change (filter _ [FStart]) with [FStart]. cbn [length].
      split; [lia|done].
    + intros _. apply Hidle.
  - destruct Hl as [Hs Hidle]. pose proof (idle_starts c Hidle) as H0. apply startInLoop_ok; try done; [|apply Hidle].
    destruct Hi as [H1 H2 H3 H4 H5 H6 H8 H9 H10]. split; cbn; try done.
    + unfold current in *. rewrite bool_decide_false in H1 by congruence. done.
    + rewrite H3, Hs. done.
    + by rewrite (proj2 (proj2 Hidle)).
    + rewrite H5. unfold detached. cbn [channel_ set_connect set_retry setState].
      by rewrite (proj2 (proj2 Hidle)), !andb_false_r.
    + unfold starts in *. cbn. split; [lia|done].
  - cbn [ensures]. destruct Hi as [H1 H2 H3 H4 H5 H6 H8 H9 H10]. unfold stop. split; try done.
    + cbn. rewrite filter_app, app_nil_r. exact H5.
    + unfold starts. cbn. rewrite filter_app, app_nil_r. exact H6.
    + intros Hin. apply H8. cbn in Hin. apply elem_of_app in Hin as [?|Hin%list_elem_of_singleton]; done.
  - by apply event_ok.
  - destruct (queue_ c) as [|f l] eqn:Hq; [done|]. destruct (decide (f = FReset)) as [->|Hf].
    + cbn [run_functor]. pose proof (ci_reset _ _ Hi) as Hr. rewrite Hq in Hr. unfold detached in Hr.
      rewrite filter_cons, decide_True in Hr by done.
      case_bool_decide as Hs; [|done]. case_bool_decide as Hsome; [|done]; destruct Hsome as [ch Hch]. cbn [andb] in Hr.
      injection Hr as Hr. pose proof (ci_channel _ _ Hi) as Hc. rewrite Hch in Hc.
      destruct Hc as (_ & He & Ha). specialize (Ha Hs).
      unfold resetChannel. cbn [channel_ set_queue]. rewrite Hch. unfold destroyChannel. rewrite He, Ha.
      cbn [negb obind]. pass_asserts. cbn [ensures].
      destruct Hi as [H1 H2 H3 H4 H5 [H6 H7] H8 H9 H10]. unfold starts in *. rewrite Hq in H6, H7.
      split; try done.
      * unfold current in *. cbn. by rewrite bool_decide_false in H1 |- * by done.
      * unfold detached. cbn. rewrite andb_false_r. exact Hr.
    + pose proof (pop_functor false c f l Hi Hq Hf) as Hi'. destruct f; cbn [run_functor]; [|by apply stopInLoop_ok|done].
      destruct (ci_starts _ _ Hi) as [H6 H7]. unfold starts in H6, H7. rewrite Hq in H6, H7.
      rewrite filter_cons, decide_True in H6, H7 by done. cbn [length] in H6, H7.
      apply startInLoop_ok; try done; cbn; [apply H7; lia| |unfold starts; cbn; lia].
      apply (ci_pending _ _ Hi). rewrite Hq. by left.
  - destruct (timers_ c) as [|d l] eqn:Ht; [done|].
    destruct (ci_starts _ _ Hi) as [H6 H7]. unfold starts in H6, H7. rewrite Ht in H6, H7. cbn [length] in H6, H7.
    assert (state_ c = kDisconnected) as Hs by (apply H7; lia).
    assert (channel_ c = None) as Hch.
    { destruct (channel_ c) eqn:Hch; [|done]. destruct Hl. pose proof (ci_reset _ _ Hi) as Hr. unfold detached in Hr.
      rewrite Hs, Hch in Hr. rewrite bool_decide_true in Hr by done. rewrite bool_decide_true in Hr by eauto.
      cbn [andb] in Hr. assert (FReset ∈ filter (λ f, f = FReset) (queue_ c)) as Hin by (rewrite Hr; left).
      by apply list_elem_of_filter in Hin as [_ ?]. }
    apply startInLoop_ok; try done; [|unfold starts; cbn; lia].
    destruct Hi as [H1 H2 H3 H4 H5 _ H8 H9 H10]. split; try done. unfold starts. cbn. split; [lia|done].
Qed.

Lemma conn_reachable_inv c : reachable c → conn_inv false c.
Proof.
  induction 1 as [|c o c' _ IH Hl He].
  - split; cbn; try done. split; [lia|done].
  - pose proof (conn_exec_ok o c IH Hl) as H. by rewrite He in H.
Qed.

(** ** What the connector guarantees *)

(** C26. No socket is lost and none is closed twice. Under the legal uses of
    the class and any answers of the kernel, every socket the connector has
    opened is exactly one of: closed, once; handed to the connection callback,
    once; or the one now being connected, which is watched by the poller. And
    no legal operation, event, functor or timer fails an assert. *)
Theorem connector_sockets c :
  reachable c →
  closed_ c ++ delivered_ c ++ current c ≡ₚ seqZ 0 (sockets_ c) ∧
  (inPoller_ c = true ↔ ∃ fd, current c = [fd]) ∧
  (∀ o, legal o c → ensures (exec o c) (λ _, True)).
Proof.
  intros Hr. pose proof (conn_reachable_inv c Hr) as Hi. split_and!; [apply Hi| |].
  - rewrite (ci_poller _ _ Hi). unfold current. case_bool_decide; naive_solver.
  - intros o Hl. eapply ensures_mono; [by apply conn_exec_ok|done].
Qed.

(** The delays between the attempts since the last [restart] are half a
    second doubled each time and capped at thirty seconds, the next one is
    ready in [retryDelayMs_], and the 32-bit arithmetic never wraps. At most
    one attempt is scheduled, and only while disconnected. *)
Theorem connector_backoff c i d :
  reachable c → delays_ c !! i = Some d →
  d = Z.min (500 * 2 ^ Z.of_nat i) 30000 ∧ 500 ≤ retryDelayMs_ c ≤ 30000 ∧
  (length (timers_ c) ≤ 1)%nat ∧ (timers_ c ≠ [] → state_ c = kDisconnected).
Proof.
  intros Hr Hd. pose proof (conn_reachable_inv c Hr) as Hi. destruct (ci_starts _ _ Hi) as [H6 H7]. unfold starts in H6, H7.
  split_and!.
  - rewrite (ci_delays _ _ Hi) in Hd. apply list_lookup_fmap_Some in Hd as (j & -> & Hj).
    by apply lookup_seq in Hj as [-> _].
  - rewrite (ci_delay _ _ Hi). unfold backoff, kInitRetryDelayMs.
    assert (0 < 2 ^ Z.of_nat (length (delays_ c))) by (apply Z.pow_pos_nonneg; lia). unfold kMaxRetryDelayMs. lia.
  - rewrite (ci_delay _ _ Hi). unfold backoff, kMaxRetryDelayMs. lia.
  - lia.
  - intros Hne. apply H7. destruct (timers_ c); [done|cbn in *; lia].
Qed.

(** What a connector that has been stopped does not do: it opens and delivers
    no socket, and what it queues comes behind what is there. *)
Record halted (c c' : Connector) : Prop := mkHalted {
  ha_connect : connect_ c' = connect_ c;
  ha_sockets : sockets_ c' = sockets_ c;
  ha_delivered : delivered_ c' = delivered_ c;
  ha_queue : queue_ c `prefix_of` queue_ c'
}.

#[global] Instance halted_preorder : PreOrder halted.
Proof using Type. split; [by split|]. intros ??? [] []. split; [congruence..|by etrans]. Qed.

Lemma halted_retry fd c : connect_ c = false → halted c (retry fd c).
Proof. intros Hc. unfold retry. cbn. by rewrite Hc. Qed.

Lemma halted_remove c fd c' : removeAndResetChannel c = Ok (fd, c') → halted c c'.
Proof.
  destruct (channel_ c) as [ch|] eqn:Hch; [|unfold removeAndResetChannel; by rewrite Hch].
  rewrite (removeAndResetChannel_eq _ ch) by done. intros [= <- <-]. split; [done..|]. by exists [FReset].
Qed.

Lemma halted_remove_retry c fd c' :
  connect_ c = false → removeAndResetChannel c = Ok (fd, c') → halted c (retry fd c').
Proof.
  intros Hc Hr%halted_remove. etrans; [exact Hr|]. apply halted_retry. rewrite (ha_connect _ _ Hr). exact Hc.
Qed.

Lemma halted_stop c c' : stopInLoop c = Ok c' → halted c c'.
Proof.
  unfold stopInLoop. case_bool_decide; [|by intros [= <-]].
  intros ([fd c1] & Hr & [= <-])%ok_bind_inv. apply halted_remove in Hr. by destruct Hr.
Qed.

Lemma halted_error c c' : connect_ c = false → handleError c = Ok c' → halted c c'.
Proof.
  intros Hc. unfold handleError. case_bool_decide; [|by intros [= <-]].
  intros ([fd c1] & Hr & [= <-])%ok_bind_inv. by apply halted_remove_retry.
Qed.

Lemma halted_write c c' : connect_ c = false → handleWrite c = Ok c' → halted c c'.
Proof.
  intros Hc. unfold handleWrite. case_bool_decide.
  { by intros (? & _ & [= <-])%ok_bind_inv. }
  intros ([fd c1] & Hr & Hk)%ok_bind_inv. cbv zeta in Hk. pose proof (halted_remove_retry _ _ _ Hc Hr) as Hret.
  destruct (negb _); [by injection Hk as <-|]. destruct (self_connect _); [by injection Hk as <-|].
  apply halted_remove in Hr. cbn [connect_ setState] in Hk. rewrite (ha_connect _ _ Hr), Hc in Hk.
  injection Hk as <-. by destruct Hr.
Qed.

Lemma halted_start c c' : connect_ c = false → startInLoop c = Ok c' → c' = c.
Proof. intros Hc. unfold startInLoop. rewrite Hc. by intros (? & _ & [= <-])%ok_bind_inv. Qed.

Lemma halted_reset c c' : resetChannel c = Ok c' → halted c c'.
Proof.
  unfold resetChannel. destruct (channel_ c); [|by intros [= <-]]. by intros (? & _ & [= <-])%ok_bind_inv.
Qed.

Lemma halted_event t c c' :
  connect_ c = false → handleEvent get_channel put_channel channel_callbacks true t c = Ok c' → halted c c'.
Proof.
  intros Hc Hk. assert (handleEventWithGuard get_channel put_channel channel_callbacks t c = Ok c') as Hk'.
  { revert Hk. unfold handleEvent. by destruct (tied_ _). }
  clear Hk. unfold handleEventWithGuard in Hk'. cbv zeta in Hk'.
  cbn [channel_callbacks closeCallback_ readCallback_ writeCallback_ errorCallback_ call fmap option_fmap option_map] in Hk'.
  set (c0 := put_channel _ c) in *. assert (halted c c0) as H0 by done.
  rewrite if_same in Hk'. cbn [obind] in Hk'. apply ok_bind_inv in Hk' as (c1 & He & Hk').
  assert (halted c0 c1) as H1.
  { destruct (_ || _) in He; [|by injection He as <-]. by apply halted_error. }
  rewrite if_same in Hk'. cbn [obind] in Hk'. apply ok_bind_inv in Hk' as (c2 & Hw & [= <-]).
  assert (halted c1 c2) as H2.
  { destruct (bit _ _) in Hw; [|by injection Hw as <-]. apply halted_write; [|done]. by rewrite (ha_connect _ _ H1). }
  trans c2; [by rewrite H0, H1, H2|done].
Qed.

(** What is taken off before an operation of the loop runs. *)
Definition taken (o : conn_op) (c : Connector) : Connector :=
  match o with
  | OpFunctor => set_queue c (tail (queue_ c))
  | OpTimer => set_timers c (tail (timers_ c))
  | _ => c
  end.

Lemma exec_halted o c c' :
  connect_ c = false → (∀ here, o ≠ OpStart here) → o ≠ OpRestart → exec o c = Ok c' → halted (taken o c) c'.
Proof.
  intros Hc Hns Hnr He. destruct o as [here| | |r t| |]; cbn [exec taken] in *.
  - by destruct (Hns here).
  - done.
  - injection He as <-. split; [by rewrite Hc|done|done|]. by exists [FStop].
  - apply halted_event in He; [by destruct He|done].
  - destruct (queue_ c) as [|f l] eqn:Hq; [injection He as <-; split; try done; cbn; by rewrite Hq|].
    destruct f; cbn [run_functor tail] in *.
    + apply halted_start in He; [by subst c'|done].
    + by apply halted_stop.
    + by apply halted_reset.
  - destruct (timers_ c) as [|d l]; [by injection He as <-|]. apply halted_start in He; [by subst c'|done].
Qed.

(** The functor [stop] queued. *)
Lemma stop_ends c c' : stopInLoop c = Ok c' → state_ c' ≠ kConnecting.
Proof.
  unfold stopInLoop. case_bool_decide as Hs; [|by intros [= <-]]. cbv zeta.
  intros ([fd c1] & Hr & [= <-])%ok_bind_inv.
  destruct (channel_ c) as [ch|] eqn:Hch; [|unfold removeAndResetChannel in Hr; cbn in Hr; by rewrite Hch in Hr].
  rewrite (removeAndResetChannel_eq _ ch) in Hr by done. by injection Hr as <- <-.
Qed.

(** After [stop] nothing more is connected. While [connect_] is false,
    whatever event, functor or retry timer comes (until [start] or [restart]
    is called again), no socket is opened and none is handed to the connection
    callback; and when the functor that [stop] queued has run, no socket is
    being connected. *)
Theorem connector_stops c o c' :
  reachable c → connect_ c = false → legal o c → (∀ here, o ≠ OpStart here) → o ≠ OpRestart →
  exec o c = Ok c' →
  connect_ c' = false ∧ sockets_ c' = sockets_ c ∧ delivered_ c' = delivered_ c ∧
  (o = OpFunctor → head (queue_ c) = Some FStop → current c' = []).
Proof.
  intros _ Hc _ Hns Hnr He. pose proof (exec_halted o c c' Hc Hns Hnr He) as [H1 H2 H3 _].
  split_and!; [rewrite H1; by destruct o|rewrite H2; by destruct o|rewrite H3; by destruct o|].
  intros -> Hq. cbn [exec] in He. destruct (queue_ c) as [|f l]; [done|]. injection Hq as ->.
  unfold current. by rewrite bool_decide_false by (by eapply stop_ends).
Qed.

(** The destructor of a connector that is still connecting takes the channel
    out of the poller and drops the socket without closing it. *)
Lemma destroy_leaks_socket c fd :
  reachable c → current c = [fd] →
  ensures (destroyConnector true c) (λ c', channel_ c' = None ∧ inPoller_ c' = false ∧
    fd ∉ closed_ c' ∧ fd ∉ delivered_ c').
Proof.
  intros Hr Hf. pose proof (conn_reachable_inv c Hr) as Hi.
  assert (state_ c = kConnecting) as Hs by (revert Hf; unfold current; by case_bool_decide).
  destruct (inv_connecting _ _ Hi Hs) as [ch Hch]. pose proof (ci_channel _ _ Hi) as Hc. rewrite Hch in Hc.
  assert (NoDup (closed_ c ++ delivered_ c ++ [fd])) as Hnd.
  { rewrite <- Hf, (ci_sockets _ _ Hi). apply NoDup_seqZ. }
  rewrite app_assoc in Hnd. apply NoDup_app in Hnd as (_ & Hnd & _).
  assert (fd ∉ closed_ c ++ delivered_ c) as Hni by (intros Hin; apply (Hnd fd Hin); left).
  assert (destroyConnector true c = let! _ := cassert (negb (eventHandling_ ch)) in
    Ok (set_channel (set_inPoller c false) None)) as ->.
  { destruct c, ch as [? ? ? ? ? ? []]; cbn in Hch; by subst. }
  destruct Hc as (_ & -> & _). cbn [negb]. pass_asserts. cbn. rewrite not_elem_of_app in Hni. naive_solver.
Qed.
End Connector.

(** ** The theorems at a concrete input *)

(** The first socket is refused at once, the second is connected. *)
Definition sample_connect (fd : Z) : Z := if fd =? 0 then ECONNREFUSED else EINPROGRESS.
Definition sample_exec := exec sample_connect (λ _, 0) (λ _, false) true.
Definition sample_run (l : list conn_op) : Connector :=
  match foldM sample_exec l newConnector with Ok c => c | Fault _ => newConnector end.

Definition sample_legal (o : conn_op) (c : Connector) : bool :=
  match o with
  | OpStart _ => bool_decide (state_ c = kDisconnected) && bool_decide (timers_ c = []) &&
      bool_decide (FStart ∉ queue_ c) && match channel_ c with None => true | _ => false end
  | OpRestart => false
  | OpEvent _ _ => inPoller_ c
  | OpTimer => bool_decide (FReset ∉ queue_ c)
  | _ => true
  end.
Lemma sample_legal_ok o c : sample_legal o c = true → legal o c.
Proof.
  destruct o; cbn; try done.
  - intros H. apply andb_true_iff in H as [H Hc]. apply andb_true_iff in H as [H Hf]. apply andb_true_iff in H as [Hs Ht].
    apply bool_decide_eq_true in Hs, Ht, Hf. unfold idle. by destruct (channel_ c).
  - by intros ?%bool_decide_eq_true.
Qed.

Fixpoint sample_check (l : list conn_op) (c : Connector) : bool :=
  match l with
  | [] => true
  | o :: l => sample_legal o c && match sample_exec o c with Ok c' => sample_check l c' | Fault _ => false end
  end.
Lemma sample_reach l c c' :
  reachable sample_connect (λ _, 0) (λ _, false) true c → sample_check l c = true → foldM sample_exec l c = Ok c' →
  reachable sample_connect (λ _, 0) (λ _, false) true c'.
Proof.
  revert c. induction l as [|o l IH]; intros c Hr; cbn; [by intros _ [= <-]|].
  intros [Hl Hc]%andb_true_iff (c1 & He & Hk)%ok_bind_inv. rewrite He in Hc.
  apply (IH c1); try done. eapply reach_step; [done|by apply sample_legal_ok|done].
Qed.

Definition sample_ops : list conn_op := [OpStart true; OpTimer; OpEvent POLLOUT 5].
Lemma sample_run_reachable l :
  sample_check l newConnector = true → foldM sample_exec l newConnector = Ok (sample_run l) →
  reachable sample_connect (λ _, 0) (λ _, false) true (sample_run l).
Proof. intros. by apply (sample_reach l newConnector); [apply reach_new|..]. Qed.

Lemma connector_sockets_witness :
  let c := sample_run sample_ops in
  (closed_ c ++ delivered_ c ++ current c ≡ₚ seqZ 0 (sockets_ c) ∧
   (inPoller_ c = true ↔ ∃ fd, current c = [fd]) ∧
   (∀ o, legal o c → ensures (exec sample_connect (λ _, 0) (λ _, false) true o c) (λ _, True))) ∧
  closed_ c = [0] ∧ delivered_ c = [1].
Proof.
  split; [|by vm_compute]. apply connector_sockets, sample_run_reachable; by vm_compute.
Defined.

Lemma connector_backoff_witness :
  let c := sample_run [OpStart true] in
  500 = Z.min (500 * 2 ^ Z.of_nat 0) 30000 ∧ 500 ≤ retryDelayMs_ c ≤ 30000 ∧
  (length (timers_ c) ≤ 1)%nat ∧ (timers_ c ≠ [] → state_ c = kDisconnected).
Proof.
  apply (connector_backoff sample_connect (λ _, 0) (λ _, false) true); [|by vm_compute].
  apply sample_run_reachable; by vm_compute.
Defined.

Lemma connector_stops_witness :
  let c := sample_run [OpStart true; OpTimer; OpStop] in
  let c' := sample_run [OpStart true; OpTimer; OpStop; OpFunctor] in
  connect_ c' = false ∧ sockets_ c' = sockets_ c ∧ delivered_ c' = delivered_ c ∧
  (OpFunctor = OpFunctor → head (queue_ c) = Some FStop → current c' = []).
Proof.
  apply (connector_stops sample_connect (λ _, 0) (λ _, false) true); [|by vm_compute..|done|done|by vm_compute].
  apply sample_run_reachable; by vm_compute.
Defined.

(** ** Uses the asserts forbid *)

(** [stop] and [start] from another thread in one batch, while connecting: the
    functors run [stopInLoop], which leaves the old channel for
    [resetChannel], then [startInLoop], whose [connecting] asserts that there
    is none. *)
Lemma stop_start_aborts :
  foldM sample_exec [OpStop; OpStart false; OpFunctor; OpFunctor] (sample_run [OpStart true; OpTimer]) =
  Fault AssertFailed.
Proof. by vm_compute. Qed.

(** [start] after [stop] while a retry timer is pending: the timer finds the
    connector connecting. *)
Lemma start_with_retry_pending_aborts :
  foldM sample_exec [OpStop; OpStart true; OpTimer] (sample_run [OpStart true]) = Fault AssertFailed.
Proof. by vm_compute. Qed.

(** [restart] inside the connection callback (a client that closes there and
    has retry enabled): the channel of the connection just made is still
    there. *)
Lemma restart_before_reset_aborts :
  sample_exec OpRestart (sample_run sample_ops) = Fault AssertFailed.
Proof. by vm_compute. Qed.
