(* ===== verification/TcpClient.v ===== *)
(** * TcpClient: one connection at a time, and again
    ([muduo/net/TcpClient.h], [TcpClient.cc])

    The client owns a [Connector] and the connection it delivered. Every
    connection object it ever made is in the list [objects_], in the order in
    which the connector delivered the sockets. A step is a step of the
    connector, with [newConnection] when it delivers a socket, an operation of
    a connection, with [removeConnection] when it calls the close callback, or
    a call of the client. The close callback is the last thing an event of a
    connection does that changes it, so the removal and [connectDestroyed],
    which [runInLoop] runs at once, come when the operation is over. *)
From S2P Require Import Prelude Format Buffer Channel TcpConnection Connector.
From stdpp Require Import options.

(** A connection object with its name and socket. *)
Record client_conn := mkClientConn { cc_name : bytes; cc_fd : Z; cc_conn : TcpConnection.TcpConnection }.

(* src/muduo/net/TcpClient.h:59-70 TcpClient *)
Record TcpClient := mkClient {
  connector_ : Connector.Connector;
  name_ : bytes;
  retry_ : bool;
  client_connect_ : bool;                 (* TcpClient::connect_ *)
  nextConnId_ : Z;
  connection_ : option nat;
  objects_ : list client_conn
}.

Section Setters.
Context (s : TcpClient).
Definition set_connector (c : Connector.Connector) := mkClient c (name_ s) (retry_ s) (client_connect_ s)
  (nextConnId_ s) (connection_ s) (objects_ s).
(* src/muduo/net/TcpClient.h:30-30 TcpClient::enableRetry *)
Definition enableRetry := mkClient (connector_ s) (name_ s) true (client_connect_ s) (nextConnId_ s) (connection_ s) (objects_ s).
Definition set_client_connect (b : bool) := mkClient (connector_ s) (name_ s) (retry_ s) b
  (nextConnId_ s) (connection_ s) (objects_ s).
Definition set_connection (o : option nat) := mkClient (connector_ s) (name_ s) (retry_ s) (client_connect_ s)
  (nextConnId_ s) o (objects_ s).
Definition set_objects (l : list client_conn) := mkClient (connector_ s) (name_ s) (retry_ s) (client_connect_ s)
  (nextConnId_ s) (connection_ s) l.
End Setters.

(* src/muduo/net/TcpClient.cc:33-45 TcpClient::TcpClient *)
Definition newClient (name : bytes) : TcpClient := mkClient newConnector name false true 1 None [].

Section Client.
(** The kernel's answers to the connector and to [::write] on each socket, the
    peer's address in text, and the user's callbacks. *)
Context (sys_connect so_error : Z → Z) (self_connect : Z → bool).
Context (kernel_write : Z → nat → bytes → write_reply) (peer : Z → bytes) (u : user).

(* src/muduo/net/TcpClient.cc:16-21 detail::invokeCallbackIfSet *)
Definition client_invokeCallbackIfSet (cb : option (TcpConnection.TcpConnection → outcome TcpConnection.TcpConnection))
    (c : TcpConnection.TcpConnection) : outcome TcpConnection.TcpConnection :=
  match cb with Some f => f c | None => Ok c end.
Definition client_user : user :=
  mkUser (Some (client_invokeCallbackIfSet (connectionCallback_ u))) (Some (client_invokeCallbackIfSet (messageCallback_ u)))
    (Some (client_invokeCallbackIfSet (writeCompleteCallback_ u))) None (Some Ok).

Definition conn_exec (o : TcpConnection.op) (fd : Z) : TcpConnection.TcpConnection → outcome TcpConnection.TcpConnection :=
  TcpConnection.exec (kernel_write fd) client_user o.
Definition connector_exec : conn_op → Connector.Connector → outcome Connector.Connector :=
  Connector.exec sys_connect so_error self_connect true.

Definition with_conn (o : client_conn) (c : TcpConnection.TcpConnection) : client_conn := mkClientConn (cc_name o) (cc_fd o) c.

(** An operation of the i-th connection. *)
Definition update_conn (i : nat) (o : TcpConnection.op) (s : TcpClient) : outcome TcpClient :=
  let! x := deref (objects_ s !! i) in
  let! c := conn_exec o (cc_fd x) (cc_conn x) in
  Ok (set_objects s (<[i := with_conn x c]> (objects_ s))).

(* src/muduo/net/TcpClient.cc:130-147 TcpClient::removeConnection *)
Definition client_removeConnection (i : nat) (s : TcpClient) : outcome TcpClient :=
  assert! bool_decide (connection_ s = Some i) ;;
  let s := set_connection s None in
  let! s := update_conn i OpDestroy s in
  if retry_ s && client_connect_ s then
    let! c := connector_exec OpRestart (connector_ s) in
    Ok (set_connector s c)
  else Ok s.

Definition closed_now (i : nat) (s s' : TcpClient) : bool :=
  match objects_ s !! i, objects_ s' !! i with
  | Some x, Some x' => bool_decide (LClose ∈ TcpConnection.log_ (cc_conn x') ∧ LClose ∉ TcpConnection.log_ (cc_conn x))
  | _, _ => false
  end.

(** The operation, and the removal when it called the close callback. *)
Definition on_client_conn (i : nat) (o : TcpConnection.op) (s : TcpClient) : outcome TcpClient :=
  let! s' := update_conn i o s in
  if closed_now i s s' then client_removeConnection i s' else Ok s'.

Definition client_conn_name (s : TcpClient) (fd id : Z) : bytes :=
  name_ s ++ str ":" ++ peer fd ++ str "#" ++ format_int id.

(* src/muduo/net/TcpClient.cc:98-128 TcpClient::newConnection *)
Definition client_newConnection (sockfd : Z) (s : TcpClient) : outcome TcpClient :=
  let connName := client_conn_name s sockfd (nextConnId_ s) in
  let! input := newBuffer kInitialSize in
  let! output := newBuffer kInitialSize in
  let i := length (objects_ s) in
  let conn := mkClientConn connName sockfd (TcpConnection.newConnection sockfd input output) in
  on_client_conn i OpEstablish
    (mkClient (connector_ s) (name_ s) (retry_ s) (client_connect_ s) (nextConnId_ s + 1) (Some i)
       (objects_ s ++ [conn])).

(** A step of the connector; it ends with the callback when it delivers. *)
Definition connector_op (o : conn_op) (s : TcpClient) : outcome TcpClient :=
  let! c := connector_exec o (connector_ s) in
  let new := drop (length (delivered_ (connector_ s))) (delivered_ c) in
  foldM client_newConnection new (set_connector s c).

(* src/muduo/net/TcpClient.cc:78-83 TcpClient::connect *)
Definition client_connect (here : bool) (s : TcpClient) : outcome TcpClient :=
  connector_op (OpStart here) (set_client_connect s true).

(* src/muduo/net/TcpClient.cc:85-91 TcpClient::disconnect *)
Definition disconnect (here : bool) (s : TcpClient) : outcome TcpClient :=
  let s := set_client_connect s false in
  match connection_ s with
  | Some i => on_client_conn i (if here then OpHere AShutdown else OpElsewhere FShutdown) s
  | None => Ok s
  end.

(* src/muduo/net/TcpClient.cc:93-96 TcpClient::stop *)
Definition client_stop (s : TcpClient) : outcome TcpClient := connector_op OpStop (set_client_connect s false).

(** In the loop thread the close callback is cleared first, so destroying the
    connection does not call back into the client. Elsewhere the callback is
    replaced by one that only destroys, in the loop; [forceClose] is queued. *)
(* src/muduo/net/TcpClient.cc:47-76 TcpClient::~TcpClient *)
Definition destroyClient (here : bool) (s : TcpClient) : outcome TcpClient :=
  let! s := connector_op OpStop s in
  match connection_ s with
  | Some i => if here then update_conn i OpDestroy s else update_conn i (OpElsewhere FForceClose) s
  | None => Ok s
  end.

(** ** The client at work *)

(** The restart in [removeConnection] needs the connector's last channel to be
    gone. *)
Definition may_restart (s : TcpClient) : Prop :=
  retry_ s && client_connect_ s = true → Connector.channel_ (connector_ s) = None.

Inductive client_step : TcpClient → TcpClient → Prop :=
| cs_connect here s s' :
    Connector.legal (OpStart here) (connector_ s) → client_connect here s = Ok s' → client_step s s'
| cs_disconnect here s s' : may_restart s → disconnect here s = Ok s' → client_step s s'
| cs_stop s s' : client_stop s = Ok s' → client_step s s'
| cs_retry s : client_step s (enableRetry s)
| cs_connector o s s' :
    match o with OpEvent _ _ | OpFunctor | OpTimer => True | _ => False end →
    Connector.legal o (connector_ s) → connector_op o s = Ok s' →
    (* a client with retry does not close in the callback of a new connection *)
    (retry_ s && client_connect_ s = true → objects_ s' = objects_ s ∨ connection_ s' ≠ None) →
    client_step s s'
| cs_conn i x o s s' :
    objects_ s !! i = Some x → o ≠ OpEstablish → o ≠ OpDestroy → TcpConnection.legal o (cc_conn x) →
    may_restart s → on_client_conn i o s = Ok s' → client_step s s'.

Inductive client_reachable : TcpClient → Prop :=
| cr_new name : client_reachable (newClient name)
| cr_step s s' : client_reachable s → client_step s s' → client_reachable s'.

(** *** What the connector delivers *)

Definition delivers (c c' : Connector.Connector) : Prop :=
  delivered_ c' = delivered_ c ∨
  ∃ fd, delivered_ c' = delivered_ c ++ [fd] ∧ Connector.state_ c = Connector.kConnecting ∧
        Connector.state_ c' = Connector.kConnected.

Lemma delivers_remove c fd c' :
  removeAndResetChannel c = Ok (fd, c') → delivered_ c' = delivered_ c ∧ Connector.state_ c' = Connector.state_ c.
Proof using Type.
  destruct (Connector.channel_ c) as [ch|] eqn:Hch; [|unfold removeAndResetChannel; by rewrite Hch].
  rewrite (removeAndResetChannel_eq _ ch) by done. by intros [= <- <-].
Qed.

Lemma delivers_retry fd c :
  delivered_ (retry fd c) = delivered_ c ∧ Connector.state_ (retry fd c) = Connector.kDisconnected.
Proof using Type. unfold retry. cbn. by destruct (connect_ c). Qed.

Lemma delivers_error c c' :
  Connector.handleError c = Ok c' → delivered_ c' = delivered_ c ∧ (c' = c ∨ Connector.state_ c' = Connector.kDisconnected).
Proof using Type.
  unfold Connector.handleError. case_bool_decide; [|intros [= <-]; split; [done|by left]].
  intros ([fd c1] & [H1 H2]%delivers_remove & [= <-])%ok_bind_inv.
  destruct (delivers_retry fd c1) as [H3 H4]. split; [congruence|by right].
Qed.

Lemma delivers_write c c' :
  Connector.handleWrite so_error self_connect true c = Ok c' → delivers c c'.
Proof using Type.
  unfold Connector.handleWrite. case_bool_decide as Hs.
  { intros (? & _ & [= <-])%ok_bind_inv. by left. }
  intros ([fd c1] & [H1 H2]%delivers_remove & Hk)%ok_bind_inv. cbv zeta in Hk.
  assert (delivers c (retry fd c1)) as Hret by (left; rewrite (proj1 (delivers_retry fd c1)); exact H1).
  destruct (negb _); [by injection Hk as <-|]. destruct (self_connect _); [by injection Hk as <-|].
  destruct (connect_ _); injection Hk as <-; [right|by left].
  exists fd. cbn. rewrite H1. split; [done|]. by split.
Qed.

Lemma delivers_event t c c' :
  handleEvent get_channel put_channel (channel_callbacks so_error self_connect true) true t c = Ok c' → delivers c c'.
Proof using Type.
  intros Hk.
  assert (handleEventWithGuard get_channel put_channel (channel_callbacks so_error self_connect true) t c = Ok c') as Hk'.
  { revert Hk. unfold handleEvent. by destruct (tied_ _). }
  clear Hk. unfold handleEventWithGuard in Hk'. cbv zeta in Hk'.
  cbn [channel_callbacks Channel.closeCallback_ Channel.readCallback_ Channel.writeCallback_ Channel.errorCallback_
       call fmap option_fmap option_map] in Hk'.
  set (c0 := put_channel _ c) in *.
  rewrite if_same in Hk'. cbn [obind] in Hk'. apply ok_bind_inv in Hk' as (c1 & He & Hk').
  assert (delivered_ c1 = delivered_ c0 ∧ (c1 = c0 ∨ Connector.state_ c1 = Connector.kDisconnected)) as [G1 G2].
  { destruct (_ || _) in He; [by apply delivers_error|]. injection He as <-. split; [done|by left]. }
  rewrite if_same in Hk'. cbn [obind] in Hk'. apply ok_bind_inv in Hk' as (c2 & Hw & [= <-]).
  assert (delivers c1 c2) as [K|(fd & K1 & K2 & K3)].
  { destruct (bit _ _) in Hw; [by apply delivers_write|]. injection Hw as <-. by left. }
  - left. change (delivered_ c0) with (delivered_ c) in G1. cbn. congruence.
  - right. exists fd. destruct G2 as [->|G2]; [|congruence]. done.
Qed.

Lemma delivers_connect c c' : connect sys_connect c = Ok c' → delivered_ c' = delivered_ c.
Proof using Type.
  unfold connect. cbv zeta. case_bool_decide.
  - unfold connecting. intros (? & _ & Hk)%ok_bind_inv. revert Hk.
    unfold conn_enableWriting, Channel.enableWriting, Channel.update, loop_updateChannel. by intros [= <-].
  - case_bool_decide; intros [= <-]; [exact (proj1 (delivers_retry _ _))|done].
Qed.

Lemma delivers_start c c' : startInLoop sys_connect c = Ok c' → delivered_ c' = delivered_ c.
Proof using Type.
  unfold startInLoop. intros (? & _ & Hk)%ok_bind_inv. destruct (connect_ c); [by apply delivers_connect|by injection Hk as <-].
Qed.

Lemma delivers_stop c c' :
  stopInLoop c = Ok c' → delivered_ c' = delivered_ c ∧ (Connector.state_ c ≠ Connector.kConnecting → c' = c).
Proof using Type.
  unfold stopInLoop. case_bool_decide; [|by intros [= <-]].
  intros ([fd c1] & [H1 H2]%delivers_remove & [= <-])%ok_bind_inv. done.
Qed.

Lemma delivers_reset c c' :
  resetChannel c = Ok c' → delivered_ c' = delivered_ c ∧ Connector.state_ c' = Connector.state_ c.
Proof using Type.
  unfold resetChannel. destruct (Connector.channel_ c); [|by intros [= <-]]. by intros (? & _ & [= <-])%ok_bind_inv.
Qed.

(** A step of the connector delivers at most one socket, and then it was
    connecting; once connected it stays so. *)
Lemma connector_exec_delivers o c c' :
  connector_exec o c = Ok c' → o ≠ OpRestart → delivers c c'.
Proof using Type.
  unfold connector_exec. destruct o as [here| | |r t| |]; cbn [Connector.exec]; intros He Hne; try done.
  - left. unfold start in He. destruct here; [|by injection He as <-]. by apply delivers_start in He.
  - injection He as <-. by left.
  - by apply delivers_event in He.
  - destruct (queue_ c) as [|f l]; [injection He as <-; by left|]. left. destruct f; cbn [run_functor] in He.
    + by apply delivers_start in He.
    + by apply delivers_stop in He as [He _].
    + by apply delivers_reset in He as [He _].
  - destruct (timers_ c); [injection He as <-; by left|]. left. by apply delivers_start in He.
Qed.

Lemma connector_stays o c c' :
  conn_inv false c → Connector.state_ c = Connector.kConnected → Connector.legal o c → o ≠ OpRestart →
  connector_exec o c = Ok c' → Connector.state_ c' = Connector.kConnected ∧ delivered_ c' = delivered_ c.
Proof using Type.
  intros Hi Hs Hl Hne He. pose proof (connector_exec_delivers o c c' He Hne) as Hd.
  assert (delivered_ c' = delivered_ c) as Hdel.
  { destruct Hd as [?|(fd & _ & Hc & _)]; [done|congruence]. }
  split; [|done]. clear Hd.
  assert (starts c = 0%nat) as H0.
  { destruct (ci_starts _ _ Hi) as [H1 H2]. destruct (starts c) as [|[|n]]; [done| |lia].
    specialize (H2 eq_refl). congruence. }
  unfold starts in H0. unfold connector_exec in He. destruct o as [here| | |r t| |]; cbn [Connector.exec Connector.legal] in *; try done.
  - destruct Hl as [Hl _]. congruence.
  - by injection He as <-.
  - rewrite (ci_poller _ _ Hi), Hs in Hl. done.
  - destruct (queue_ c) as [|f l] eqn:Hq; [by injection He as <-|]. destruct f; cbn [run_functor] in He.
    + rewrite filter_cons, decide_True in H0 by done. cbn in H0. lia.
    + apply delivers_stop in He as [_ He]. rewrite He; [done|]. cbn. congruence.
    + apply delivers_reset in He as [_ He]. cbn in He. congruence.
  - destruct (timers_ c); [by injection He as <-|]. cbn in H0. lia.
Qed.

(** *** The invariant *)

Hypothesis kernel_ok : ∀ fd i d n, kernel_write fd i d = WOk n → 0 ≤ n ≤ len d.
Hypothesis user_ok : ∀ fd, plays (kernel_write fd) client_user.

Definition conn_reachable (x : client_conn) : Prop :=
  TcpConnection.reachable (kernel_write (cc_fd x)) client_user (cc_fd x) (cc_conn x).
Definition connector_reachable (c : Connector.Connector) : Prop :=
  Connector.reachable sys_connect so_error self_connect true c.

Definition gone (c : TcpConnection.TcpConnection) : Prop := core c ∧ down [LUp; LDown; LClose; LDestroyed] c.
Definition in_use (c : TcpConnection.TcpConnection) : Prop := settled c ∧ LClose ∉ TcpConnection.log_ c.

Record conn_in (s : TcpClient) (i : nat) (x : client_conn) : Prop := mkConnIn {
  cn_reach : conn_reachable x;
  cn_name : cc_name x = client_conn_name s (cc_fd x) (1 + Z.of_nat i);
  cn_stage : if bool_decide (connection_ s = Some i) then in_use (cc_conn x) else gone (cc_conn x)
}.

Record client_inv (s : TcpClient) : Prop := mkClientInv {
  cv_connector : connector_reachable (connector_ s);
  cv_fds : delivered_ (connector_ s) = cc_fd <$> objects_ s;
  cv_next : nextConnId_ s = 1 + Z.of_nat (length (objects_ s));
  cv_conn i x : objects_ s !! i = Some x → conn_in s i x;
  cv_current i : connection_ s = Some i →
    S i = length (objects_ s) ∧ Connector.state_ (connector_ s) = Connector.kConnected
}.

(** The same, with nothing known of what the current connection does. *)
Record client_pre (s : TcpClient) (i : nat) (x : client_conn) : Prop := mkClientPre {
  cp_connector : connector_reachable (connector_ s);
  cp_fds : delivered_ (connector_ s) = cc_fd <$> objects_ s;
  cp_next : nextConnId_ s = 1 + Z.of_nat (length (objects_ s));
  cp_object : objects_ s !! i = Some x;
  cp_reach : conn_reachable x;
  cp_name : cc_name x = client_conn_name s (cc_fd x) (1 + Z.of_nat i);
  cp_others j y : j ≠ i → objects_ s !! j = Some y →
    conn_reachable y ∧ cc_name y = client_conn_name s (cc_fd y) (1 + Z.of_nat j) ∧ gone (cc_conn y);
  cp_current : connection_ s = Some i;
  cp_last : S i = length (objects_ s);
  cp_connected : Connector.state_ (connector_ s) = Connector.kConnected
}.

Lemma inv_pre s i x : client_inv s → connection_ s = Some i → objects_ s !! i = Some x → client_pre s i x.
Proof using Type.
  intros [H1 H2 H3 H4 H5] Hc Hx. destruct (H5 i Hc) as [Hl Hs]. destruct (H4 i x Hx) as [? ? _]. split; try done.
  intros j y Hne Hy. destruct (H4 j y Hy) as [? ? Hst]. rewrite bool_decide_false in Hst by congruence. done.
Qed.

Lemma map_insert_fd (l : list client_conn) (i : nat) x c : l !! i = Some x → cc_fd <$> <[i := with_conn x c]> l = cc_fd <$> l.
Proof using Type.
  intros Hx. rewrite list_fmap_insert. apply list_insert_id. by rewrite list_lookup_fmap, Hx.
Qed.

(** The current connection changes. *)
Lemma pre_update s i x c :
  client_pre s i x → conn_reachable (with_conn x c) →
  client_pre (set_objects s (<[i := with_conn x c]> (objects_ s))) i (with_conn x c).
Proof using Type.
  intros [H1 H2 H3 H4 H5 H6 H7 H8 H9 H10] Hr. split; cbn; try done.
  - by rewrite map_insert_fd.
  - by rewrite length_insert.
  - apply list_lookup_insert_eq. by eapply lookup_lt_Some.
  - intros j y Hne Hy. rewrite list_lookup_insert_ne in Hy by done. by apply H7.
  - by rewrite length_insert.
Qed.

Lemma pre_in_use s i x : client_pre s i x → in_use (cc_conn x) → client_inv s.
Proof using Type.
  intros [H1 H2 H3 H4 H5 H6 H7 H8 H9 H10] Hx. split; try done.
  - intros j y Hy. destruct (decide (j = i)) as [->|Hne].
    + rewrite H4 in Hy. injection Hy as <-. split; [done|done|]. by rewrite bool_decide_true.
    + destruct (H7 j y Hne Hy) as (? & ? & ?). split; [done|done|]. rewrite bool_decide_false by congruence. done.
  - intros j Hj. rewrite H8 in Hj. injection Hj as <-. done.
Qed.

Lemma pre_gone s i x c : client_pre s i x → gone (cc_conn x) → connector_reachable c → delivered_ c = delivered_ (connector_ s) →
  client_inv (set_connector (set_connection s None) c).
Proof using Type.
  intros [H1 H2 H3 H4 H5 H6 H7 H8 H9 H10] Hx Hc Hd. split; cbn; try done.
  - congruence.
  - intros j y Hy. destruct (decide (j = i)) as [->|Hne].
    + rewrite H4 in Hy. by injection Hy as <-.
    + destruct (H7 j y Hne Hy) as (? & ? & ?). by split.
Qed.

Lemma client_reach_exec x c o P :
  TcpConnection.reachable (kernel_write (cc_fd x)) client_user (cc_fd x) c → TcpConnection.legal o c →
  safely (conn_exec o (cc_fd x) c) P →
  safely (conn_exec o (cc_fd x) c) (λ c', conn_reachable (with_conn x c') ∧ P c').
Proof using Type.
  intros Hr Hl HP. eapply safely_mono; [apply safely_and; [exact HP|]|].
  - intros c' Hc'. exact (TcpConnection.reach_step _ _ _ _ _ _ Hr Hl Hc').
  - by intros c' [? ?].
Qed.

Lemma restart_ok c :
  connector_reachable c → Connector.state_ c = Connector.kConnected → Connector.channel_ c = None →
  safely (connector_exec OpRestart c) (λ c', connector_reachable c' ∧ delivered_ c' = delivered_ c).
Proof using Type.
  intros Hr Hs Hch. pose proof (conn_reachable_inv _ _ _ _ c Hr) as Hi.
  assert (Connector.legal OpRestart c) as Hl.
  { destruct (ci_starts _ _ Hi) as [H1 H2].
    assert (starts c = 0%nat) as H0.
    { destruct (starts c) as [|[|n]]; [done| |lia]. specialize (H2 eq_refl). congruence. }
    unfold starts in H0. split; [done|]. split_and!; [by apply length_zero_iff_nil; lia| |done].
    intros Hin. destruct (filter (λ f, f = FStart) (queue_ c)) eqn:E; [|cbn in H0; lia].
    assert (FStart ∈ filter (λ f, f = FStart) (queue_ c)) as Hf by (by apply list_elem_of_filter).
    rewrite E in Hf. by apply elem_of_nil in Hf. }
  apply safely_ensures. pose proof (conn_exec_ok sys_connect so_error self_connect true OpRestart c Hi Hl) as He.
  unfold connector_exec. destruct (Connector.exec sys_connect so_error self_connect true OpRestart c) as [c'|] eqn:E; [|done].
  cbn [ensures]. split; [by eapply Connector.reach_step|].
  cbn [Connector.exec] in E. unfold restart in E. by apply delivers_start in E.
Qed.

Lemma removal_ok s i x :
  client_pre s i x → core (cc_conn x) → down [LUp; LDown; LClose] (cc_conn x) → may_restart s →
  safely (client_removeConnection i s) client_inv.
Proof using kernel_ok user_ok.
  intros Hp Hc Hd Hm. unfold client_removeConnection. rewrite (cp_current _ _ _ Hp), bool_decide_true by done.
  pass_asserts. unfold update_conn. cbn [objects_ set_connection]. rewrite (cp_object _ _ _ Hp). cbn [deref obind].
  eapply safely_bind.
  { eapply safely_bind; [|intros c Hc'; exact Hc'].
    eapply safely_mono; [apply (client_reach_exec x (cc_conn x) OpDestroy)|].
    - apply Hp.
    - split; [destruct Hd as (-> & _); done|]. eapply life_member; [apply Hd|done|]. by apply (bool_decide_unpack _).
    - apply (destroy_closed client_user [LUp; LDown; LClose]); [done|done|by right].
    - intros c [Hr Hg]. cbn [safely]. instantiate (1 := λ s', ∃ c, s' = set_connection
        (set_objects s (<[i := with_conn x c]> (objects_ s))) None ∧ conn_reachable (with_conn x c) ∧ gone c).
      by exists c. }
  intros s' (c & -> & Hr & Hg). cbn [retry_ client_connect_ set_connection set_objects].
  pose proof (pre_update s i x c Hp Hr) as Hp'.
  destruct (retry_ s && client_connect_ s) eqn:Er.
  - eapply safely_bind; [apply restart_ok; [apply Hp|apply Hp|by apply Hm]|]. intros k [Hk Hkd]. cbn [safely].
    by apply (pre_gone _ i (with_conn x c) k Hp').
  - cbn [safely]. pose proof (pre_gone _ i (with_conn x c) (connector_ s) Hp' Hg) as Hz.
    apply Hz; [apply Hp|done].
Qed.

(** An operation of the current connection. *)
Lemma current_op_ok s i x o :
  client_pre s i x → LClose ∉ TcpConnection.log_ (cc_conn x) → TcpConnection.legal o (cc_conn x) →
  safely (conn_exec o (cc_fd x) (cc_conn x)) settled →
  (∀ s', update_conn i o s = Ok s' → closed_now i s s' = true → may_restart s) →
  safely (on_client_conn i o s) client_inv.
Proof using kernel_ok user_ok.
  intros Hp Hncl Hl Ho Hm. unfold on_client_conn.
  assert (safely (update_conn i o s) (λ s', ∃ c, s' = set_objects s (<[i := with_conn x c]> (objects_ s)) ∧
    conn_reachable (with_conn x c) ∧ settled c)) as Hup.
  { unfold update_conn. rewrite (cp_object _ _ _ Hp). cbn [deref obind].
    eapply safely_bind; [apply (client_reach_exec x (cc_conn x) o settled); [apply Hp|done|done]|].
    intros c [Hr Hc]. cbn [safely]. by exists c. }
  destruct (safely_cases _ _ Hup) as [(s' & E & (c & -> & Hr & Hc))|E]; rewrite E; cbn [obind]; [|done].
  specialize (Hm _ E). pose proof (pre_update s i x c Hp Hr) as Hp'.
  unfold closed_now in *. rewrite (cp_object _ _ _ Hp), (cp_object _ _ _ Hp') in *. cbn [cc_conn with_conn] in *.
  case_bool_decide as Hcl.
  - destruct Hcl as [Hcl _]. destruct (settled_closed c Hc Hcl) as [Hcore Hd].
    apply (removal_ok _ i (with_conn x c)); [done|done|done|]. by apply Hm.
  - cbn [safely]. apply (pre_in_use _ i (with_conn x c)); [done|]. split; [done|]. intros Hin. by apply Hcl.
Qed.

(** An operation of a connection that is over, or of the current one. *)
Lemma conn_op_ok s i x o :
  client_inv s → objects_ s !! i = Some x → o ≠ OpEstablish → o ≠ OpDestroy → TcpConnection.legal o (cc_conn x) →
  may_restart s → safely (on_client_conn i o s) client_inv.
Proof using kernel_ok user_ok.
  intros Hi Hx He Hd Hl Hm. destruct (cv_conn s Hi i x Hx) as [Hr Hn Hst].
  pose proof (TcpConnection.reachable_inv _ _ (kernel_ok (cc_fd x)) _ _ (user_ok (cc_fd x)) Hr) as Hinv.
  pose proof (exec_follows _ _ (kernel_ok (cc_fd x)) o (cc_conn x) (user_ok (cc_fd x)) Hinv Hl He Hd) as Hf.
  case_bool_decide as Hcur.
  - destruct Hst as [Hs Hncl]. apply (current_op_ok s i x); [by apply inv_pre|done|done| |done].
    eapply safely_mono; [exact Hf|]. intros c [Hk1 Hk2].
    destruct Hs as [Hcore [Hlive|(L & HdL & HL)]]; [by apply Hk1|].
    destruct (Hk2 L HdL) as [Hc' Hd']. split; [done|]. right. by exists L.
  - destruct Hst as [Hcore Hdown]. unfold on_client_conn, update_conn. rewrite Hx. cbn [deref obind].
    pose proof (client_reach_exec x (cc_conn x) o _ Hr Hl Hf) as Hex.
    destruct (safely_cases _ _ Hex) as [(c & E & Hr' & _ & Hk2)|E]; rewrite E; cbn [obind]; [|done].
    destruct (Hk2 _ Hdown) as [Hc' Hd']. unfold closed_now. cbn [objects_ set_objects].
    rewrite Hx, list_lookup_insert_eq by (by eapply lookup_lt_Some).
    rewrite bool_decide_false.
    2: { intros [_ Hncl]. apply Hncl. apply (down_log_close [LUp; LDown; LClose; LDestroyed]); [done|]. by apply (bool_decide_unpack _). }
    cbn [safely]. destruct Hi as [H1 H2 H3 H4 H5]. split; cbn; try done.
    + by rewrite map_insert_fd.
    + by rewrite length_insert.
    + intros j y Hy. destruct (decide (j = i)) as [->|Hne].
      * rewrite list_lookup_insert_eq in Hy by (by eapply lookup_lt_Some). injection Hy as <-.
        split; [done|done|]. cbn. by rewrite bool_decide_false.
      * rewrite list_lookup_insert_ne in Hy by done. destruct (H4 j y Hy) as [? ? ?]. by split.
    + intros j Hj. rewrite length_insert. by apply H5.
Qed.

(** The connector delivers a socket. *)
Lemma delivered_pre s c fd input output :
  client_inv s → connector_reachable c → delivered_ c = delivered_ (connector_ s) ++ [fd] →
  Connector.state_ (connector_ s) = Connector.kConnecting → Connector.state_ c = Connector.kConnected →
  wf input → wf output → content output = [] →
  let i := length (objects_ s) in
  let x := mkClientConn (client_conn_name s fd (nextConnId_ s)) fd (TcpConnection.newConnection fd input output) in
  client_pre (mkClient c (name_ s) (retry_ s) (client_connect_ s) (nextConnId_ s + 1) (Some i) (objects_ s ++ [x])) i x.
Proof using Type.
  intros [H1 H2 H3 H4 H5] Hc Hd Hs Hs' Hin Hout Hcont i x. split; cbn; try done.
  - by rewrite Hd, H2, fmap_app.
  - rewrite length_app. cbn. lia.
  - rewrite lookup_app_r by done. by rewrite Nat.sub_diag.
  - by apply TcpConnection.reach_new.
  - unfold client_conn_name. cbn. rewrite H3. f_equal.
  - intros j y Hne Hy. apply lookup_app_Some in Hy as [Hy|[Hge Hy]].
    + destruct (H4 j y Hy) as [? ? Hst]. rewrite bool_decide_false in Hst; [done|].
      intros Hj. destruct (H5 j Hj) as [_ Hk]. congruence.
    + apply list_lookup_singleton_Some in Hy as [Hy _]. unfold i in Hne. lia.
  - rewrite length_app. cbn. unfold i. lia.
Qed.

Lemma removal_result i s s' :
  client_removeConnection i s = Ok s' → connection_ s' = None ∧ length (objects_ s') = length (objects_ s).
Proof using Type.
  unfold client_removeConnection. intros (? & _ & Hk)%ok_bind_inv. cbv zeta in Hk.
  apply ok_bind_inv in Hk as (s1 & Hu & Hk). unfold update_conn in Hu. cbn [objects_ set_connection] in Hu.
  apply ok_bind_inv in Hu as (y & _ & Hu). apply ok_bind_inv in Hu as (c & _ & [= <-]).
  cbn [retry_ client_connect_ set_objects set_connection] in Hk. destruct (retry_ s && client_connect_ s).
  - apply ok_bind_inv in Hk as (k & _ & [= <-]). cbn. by rewrite length_insert.
  - injection Hk as <-. cbn. by rewrite length_insert.
Qed.

(** A new connection, for a client that does not close it in its callback or
    does not retry. *)
Lemma new_connection_ok s c fd :
  client_inv s → connector_reachable c → delivered_ c = delivered_ (connector_ s) ++ [fd] →
  Connector.state_ (connector_ s) = Connector.kConnecting → Connector.state_ c = Connector.kConnected →
  retry_ s && client_connect_ s = false ∨
    (∃ s', client_newConnection fd (set_connector s c) = Ok s' ∧ connection_ s' ≠ None) →
  safely (client_newConnection fd (set_connector s c)) client_inv.
Proof using kernel_ok user_ok.
  intros Hi Hc Hd Hs Hs' Hret. revert Hret. unfold client_newConnection. cbv zeta.
  pose proof (newBuffer_ok kInitialSize ltac:(by unfold kInitialSize)) as Hnb.
  apply ensures_ok in Hnb as (b & -> & Hwf & Hcont & _). cbn [obind].
  cbn [objects_ set_connector connector_ name_ retry_ client_connect_ nextConnId_].
  pose proof (delivered_pre s c fd b b Hi Hc Hd Hs Hs' Hwf Hwf Hcont) as Hp. cbv zeta in Hp.
  change (client_conn_name (set_connector s c)) with (client_conn_name s). set (x := mkClientConn _ _ _) in *.
  set (s1 := mkClient _ _ _ _ _ _ _) in *. intros Hret.
  apply (current_op_ok s1 (length (objects_ s)) x); [done|apply not_elem_of_nil|done| |].
  - apply (establish_ok _ client_user (kernel_ok fd) (cc_conn x) (user_ok fd)); [by apply new_inv|done].
  - intros s' Hu Hcl Her. exfalso. cbn [retry_ client_connect_ s1] in Her. destruct Hret as [Hret|(s2 & Hret & Hne)]; [congruence|].
    unfold on_client_conn in Hret. rewrite Hu in Hret. cbn [obind] in Hret. rewrite Hcl in Hret.
    by apply removal_result in Hret as [Hret _].
Qed.

Lemma drop_delivered (l : list Z) : drop (length l) l = [].
Proof using Type. by rewrite drop_all. Qed.

(** A step of the connector. *)
Lemma connector_op_ok s o :
  client_inv s → Connector.legal o (connector_ s) → o ≠ OpRestart →
  (Connector.state_ (connector_ s) = Connector.kConnecting →
   retry_ s && client_connect_ s = false ∨
   (∃ s', connector_op o s = Ok s' ∧ (objects_ s' = objects_ s ∨ connection_ s' ≠ None))) →
  safely (connector_op o s) client_inv.
Proof using kernel_ok user_ok.
  intros Hi Hl Hne Hret. pose proof (conn_reachable_inv _ _ _ _ _ (cv_connector s Hi)) as Hci.
  pose proof (conn_exec_ok sys_connect so_error self_connect true o _ Hci Hl) as He.
  apply ensures_ok in He as (c & E & _).
  assert (connector_reachable c) as Hc by (eapply Connector.reach_step; [apply Hi|done|exact E]).
  pose proof (connector_exec_delivers o _ c E Hne) as Hd.
  unfold connector_op in *. unfold connector_exec in *. rewrite E in *. cbn [obind] in *. cbv zeta in *.
  destruct Hd as [Hd|(fd & Hd & Hs & Hs')].
  - rewrite Hd, drop_delivered in *. cbn. destruct Hi as [H1 H2 H3 H4 H5]. split; cbn; try done.
    + congruence.
    + intros i x Hx. destruct (H4 i x Hx) as [? ? ?]. by split.
    + intros i Hcur. destruct (H5 i Hcur) as [Hlen Hst]. split; [done|].
      by apply (connector_stays o (connector_ s) c).
  - rewrite Hd, drop_app_length in *. cbn [foldM] in *.
    eapply safely_bind; [|intros s' Hs2; exact Hs2].
    apply (new_connection_ok s c fd); try done. destruct (Hret Hs) as [?|(s' & Hr & Hx)]; [by left|right].
    apply ok_bind_inv in Hr as (s2 & Hr & [= <-]). exists s2. split; [done|]. destruct Hx as [Hx|?]; [|done].
    exfalso. revert Hr Hx. clear. unfold client_newConnection. cbv zeta.
    intros (b1 & _ & (b2 & _ & Hk)%ok_bind_inv)%ok_bind_inv Hx.
    assert (length (objects_ s2) = S (length (objects_ s))) as Hlen; [|rewrite Hx in Hlen; lia].
    unfold on_client_conn in Hk. apply ok_bind_inv in Hk as (s3 & Hu & Hk).
    assert (length (objects_ s3) = S (length (objects_ s))) as H3.
    { unfold update_conn in Hu. apply ok_bind_inv in Hu as (y & _ & Hu). apply ok_bind_inv in Hu as (k & _ & [= <-]).
      cbn. rewrite length_insert, length_app. cbn. lia. }
    destruct (closed_now _ _ _); [by apply removal_result in Hk as [_ ->]|by injection Hk as <-].
Qed.

Lemma inv_flags s s' :
  client_inv s → connector_ s' = connector_ s → objects_ s' = objects_ s → nextConnId_ s' = nextConnId_ s →
  connection_ s' = connection_ s → name_ s' = name_ s → client_inv s'.
Proof using Type.
  intros [H1 H2 H3 H4 H5] Ec Eo En Ek Em. split; rewrite ?Ec, ?Eo, ?En, ?Ek; try done.
  intros i x Hx. destruct (H4 i x Hx) as [R N S]. split; [done| |by rewrite Ek].
  unfold client_conn_name in *. by rewrite Em.
Qed.

Lemma client_step_ok s s' : client_inv s → client_step s s' → client_inv s'.
Proof using kernel_ok user_ok.
  intros Hi Hs. revert Hi.
  destruct Hs as [here s s' Hl E|here s s' Hm E|s s' E|s|o s s' Ho Hl E Hret|i x o s s' Hx He Hd Hl Hm E]; intros Hi.
  - eapply safely_ok; [|exact E]. unfold client_connect. apply connector_op_ok; [by eapply inv_flags|done|done|].
    cbn. destruct Hl as [Hl _]. congruence.
  - unfold disconnect in E. cbv zeta in E. cbn [connection_ set_client_connect] in E.
    assert (client_inv (set_client_connect s false)) as Hi' by (by eapply inv_flags).
    destruct (connection_ s) as [i|] eqn:Ec; [|by injection E as <-]. eapply safely_ok; [|exact E].
    assert (is_Some (objects_ s !! i)) as [x Hx].
    { apply lookup_lt_is_Some_2. destruct (cv_current s Hi i Ec) as [? _]. lia. }
    destruct (cv_conn s Hi i x Hx) as [_ _ Hst]. rewrite bool_decide_true in Hst by done. destruct Hst as [[_ Hst] _].
    assert (TcpConnection.state_ (cc_conn x) ≠ TcpConnection.kConnecting) as Hnc.
    { destruct Hst as [([Hk|Hk] & _)|(L & (Hk & _) & _)]; congruence. }
    apply (conn_op_ok _ i x); try done; [by destruct here|by destruct here| |].
    + by destruct here; split.
    + unfold may_restart. cbn. by rewrite andb_false_r.
  - eapply safely_ok; [|exact E]. unfold client_stop. apply connector_op_ok; [by eapply inv_flags|done|done|].
    intros _. left. cbn. apply andb_false_r.
  - by eapply inv_flags.
  - eapply safely_ok; [|exact E]. apply connector_op_ok; [done|done|by destruct o|]. intros _.
    destruct (retry_ s && client_connect_ s); [right|by left]. exists s'. split; [done|by apply Hret].
  - eapply safely_ok; [|exact E]. by eapply conn_op_ok.
Qed.

Lemma client_reachable_inv s : client_reachable s → client_inv s.
Proof using kernel_ok user_ok.
  induction 1 as [name|s s' _ IH Hs]; [|by eapply client_step_ok].
  split; try done. apply Connector.reach_new.
Qed.

End Client.

(** ** The theorem at a concrete input *)

Definition sample_write (_ : Z) : nat → bytes → write_reply := sample_kernel.
Definition sample_peer (_ : Z) : bytes := str "10.0.0.1:80".
Definition sample_connector_op := connector_op sample_connect (λ _, 0) (λ _, false) sample_write sample_peer quiet_user.
Definition sample_conn_op := on_client_conn sample_connect (λ _, 0) (λ _, false) sample_write quiet_user.

Definition after_client (m : outcome TcpClient) : TcpClient := match m with Ok s => s | Fault _ => newClient [] end.

(** The first attempt is refused, the retry connects; the client with retry
    enabled loses the connection and the connector starts again. *)
Definition sample_start : outcome TcpClient :=
  client_connect sample_connect (λ _, 0) (λ _, false) sample_write sample_peer quiet_user true (enableRetry (newClient (str "C"))).
Definition sample_retried : outcome TcpClient := sample_connector_op Connector.OpTimer (after_client sample_start).
Definition sample_up_client : outcome TcpClient := sample_connector_op (Connector.OpEvent POLLOUT 5) (after_client sample_retried).
Definition sample_reset : outcome TcpClient := sample_connector_op Connector.OpFunctor (after_client sample_up_client).
Definition sample_lost : outcome TcpClient := sample_conn_op 0 (OpHere AForceClose) (after_client sample_reset).
Definition sample_client : TcpClient := after_client sample_lost.

Lemma sample_write_ok fd i d n : sample_write fd i d = WOk n → 0 ≤ n ≤ len d.
Proof. apply sample_kernel_ok. Qed.
Lemma quiet_client_plays fd : plays (sample_write fd) (client_user quiet_user).
Proof. split; [intros f [= <-] c|intros f [= <-] c|intros f [= <-] c|done|intros f [= <-] c]; by exists []. Qed.

Definition sample_reachable : TcpClient → Prop :=
  client_reachable sample_connect (λ _, 0) (λ _, false) sample_write sample_peer quiet_user.

Lemma sample_connector_step o s s' :
  sample_reachable s → sample_legal o (connector_ s) = true → sample_connector_op o s = Ok s' →
  match o with Connector.OpEvent _ _ | Connector.OpFunctor | Connector.OpTimer => true | _ => false end = true →
  length (objects_ s') = length (objects_ s) ∧ objects_ s' = objects_ s ∨ connection_ s' ≠ None →
  sample_reachable s'.
Proof.
  intros Hr Hl E Ho Hx. eapply cr_step; [exact Hr|]. apply (cs_connector _ _ _ _ _ _ o); [by destruct o|by apply sample_legal_ok|exact E|].
  intros _. destruct Hx as [[_ Hx]|Hx]; [by left|by right].
Qed.

Lemma sample_client_reachable : sample_reachable sample_client.
Proof.
  assert (sample_reachable (after_client sample_start)) as H1.
  { eapply cr_step; [eapply cr_step; [apply (cr_new _ _ _ _ _ _ (str "C"))|apply cs_retry]|].
    apply (cs_connect _ _ _ _ _ _ true); [by apply sample_legal_ok|by vm_compute]. }
  assert (sample_reachable (after_client sample_retried)) as H2.
  { apply (sample_connector_step Connector.OpTimer _ _ H1); [by vm_compute|by vm_compute|done|left; by vm_compute]. }
  assert (sample_reachable (after_client sample_up_client)) as H3.
  { apply (sample_connector_step (Connector.OpEvent POLLOUT 5) _ _ H2); [by vm_compute|by vm_compute|done|right; by vm_compute]. }
  assert (sample_reachable (after_client sample_reset)) as H4.
  { apply (sample_connector_step Connector.OpFunctor _ _ H3); [by vm_compute|by vm_compute|done|right; by vm_compute]. }
  eapply cr_step; [exact H4|].
  apply (cs_conn _ _ _ _ _ _ 0 (default (mkClientConn [] 0 (TcpConnection.newConnection 0 (mkBuffer [] 0 0) (mkBuffer [] 0 0)))
    (objects_ (after_client sample_reset) !! 0%nat)) (OpHere AForceClose)); [by vm_compute|done|done| |by vm_compute|by vm_compute].
  split; [by vm_compute|done].
Qed.


(** [connect] again after the connection of a client without retry has gone:
    the connector still counts as connected, and [startInLoop] asserts that it
    does not. *)
Lemma connect_again_aborts :
  let s := after_client (sample_conn_op 0 (OpHere AForceClose) (set_client_connect (after_client sample_reset) false)) in
  connection_ s = None ∧
  client_connect sample_connect (λ _, 0) (λ _, false) sample_write sample_peer quiet_user true s = Fault AssertFailed.
Proof. by vm_compute. Qed.
