(* ===== verification/ClientEnd.v ===== *)
(** * ClientEnd: the end of a client ([muduo/net/TcpClient.cc])

    The destructor of a client, in the thread of its loop, stops the connector
    and destroys the connection it has. What the loop still holds outlives it:
    the connector with the functors and the retry timer it has queued, and the
    connections with theirs. The callbacks that both were given have a pointer
    to the client, so none of them may be called any more. The theorem says
    that none is, that every connection can then be destroyed, and that a
    bounded number of the connector's functors later each socket the client
    ever opened has been closed exactly once. *)
From S2P Require Import Prelude Format Buffer Channel TcpConnection ConnectionEnd Connector TcpClient.
From stdpp Require Import options.

Section End.
Context (sys_connect so_error : Z → Z) (self_connect : Z → bool).
Context (kernel_write : Z → nat → bytes → write_reply) (peer : Z → bytes) (u : user).
#[local] Abbreviation connector_exec := (TcpClient.connector_exec sys_connect so_error self_connect).
#[local] Abbreviation update_conn := (TcpClient.update_conn kernel_write u).
#[local] Abbreviation client_inv := (TcpClient.client_inv sys_connect so_error self_connect kernel_write peer u).
#[local] Abbreviation conn_reachable := (TcpClient.conn_reachable kernel_write u).
#[local] Abbreviation client_reachable :=
  (TcpClient.client_reachable sys_connect so_error self_connect kernel_write peer u).

(** ** What runs when the client is gone

    An event, functor or timer of the connector, or an operation of a
    connection. The connector would hand a socket to the dead client, and a
    connection that closed itself would call its [removeConnection]. *)
Inductive orphan_op := OnConnector (o : conn_op) | OnConn (i : nat) (o : TcpConnection.op).

Definition orphan_legal (o : orphan_op) (s : TcpClient) : Prop :=
  match o with
  | OnConnector o =>
      match o with OpEvent _ _ | OpFunctor | OpTimer => True | _ => False end ∧ Connector.legal o (connector_ s)
  | OnConn i o =>
      o ≠ OpEstablish ∧ o ≠ OpDestroy ∧ ∃ x, objects_ s !! i = Some x ∧ TcpConnection.legal o (cc_conn x)
  end.

Definition orphan_exec (o : orphan_op) (s : TcpClient) : outcome TcpClient :=
  match o with
  | OnConnector o =>
      let! c := connector_exec o (connector_ s) in
      if bool_decide (delivered_ c = delivered_ (connector_ s)) then Ok (set_connector s c) else Fault NullDeref
  | OnConn i o =>
      let! s' := update_conn i o s in
      if closed_now i s s' then Fault NullDeref else Ok s'
  end.

Inductive orphan_step : TcpClient → TcpClient → Prop :=
| os_step o s s' : orphan_legal o s → orphan_exec o s = Ok s' → orphan_step s s'.

(** The loop runs the next [n] functors of the connector. *)
Definition run_functors (n : nat) : TcpClient → outcome TcpClient :=
  foldM (λ o, orphan_exec (OnConnector o)) (replicate n OpFunctor).

(** ** The connector, stopped *)

Record stopping (c : Connector.Connector) : Prop := mkStopping {
  st_inv : conn_inv false c;
  st_connect : connect_ c = false;
  st_queued : Connector.state_ c = Connector.kConnecting → FStop ∈ queue_ c
}.

(** How many functors may still run. *)
Definition functors_left (c : Connector.Connector) : nat :=
  (length (queue_ c) + if bool_decide (Connector.state_ c = Connector.kConnecting) then 1 else 0)%nat.

Lemma stop_stopping c c' :
  conn_inv false c → connector_exec OpStop c = Ok c' → stopping c' ∧ delivered_ c' = delivered_ c ∧ sockets_ c' = sockets_ c.
Proof.
  intros Hi He. pose proof (conn_exec_ok sys_connect so_error self_connect true OpStop c Hi I) as H.
  unfold TcpClient.connector_exec in He. rewrite He in H. injection He as <-. split; [|done]. split; [exact H|done|].
  intros _. cbn. apply elem_of_app. right. by apply list_elem_of_singleton.
Qed.

(** A functor: the last one that stops is behind those still queued, and does
    its work. *)
Lemma functor_stopping c c' f l :
  stopping c → queue_ c = f :: l → run_functor sys_connect f (Connector.set_queue c l) = Ok c' →
  (Connector.state_ c' = Connector.kConnecting → FStop ∈ queue_ c') ∧ (functors_left c' <= pred (functors_left c))%nat.
Proof.
  intros [Hi Hc Hq] El Hr. unfold functors_left. rewrite El in *. destruct f; cbn [run_functor] in Hr.
  - apply halted_start in Hr; [subst c'|done]. cbn. split; [|lia]. intros Hs. by apply Hq, elem_of_cons in Hs as [?|?].
  - pose proof (stop_ends _ _ Hr) as Hs. split; [done|]. rewrite (bool_decide_eq_false_2 _ Hs). unfold stopInLoop in Hr.
    cbn [Connector.state_ Connector.set_queue] in Hr. case_bool_decide as Hk; [|injection Hr as <-; cbn; lia].
    cbv zeta in Hr. destruct (inv_connecting _ _ Hi Hk) as [ch Hch].
    erewrite (removeAndResetChannel_eq _ ch) in Hr by exact Hch. injection Hr as <-. cbn. rewrite length_app. cbn. lia.
  - unfold resetChannel in Hr. assert (c' = Connector.set_queue c l ∨ c' = Connector.set_channel (Connector.set_queue c l) None) as Hc'.
    { destruct (Connector.channel_ _); [|injection Hr as <-; by left]. apply ok_bind_inv in Hr as (? & _ & [= <-]). by right. }
    destruct Hc' as [->| ->]; cbn; (split; [|lia]); intros Hs; by apply Hq, elem_of_cons in Hs as [?|?].
Qed.

Lemma stopping_exec o c :
  stopping c → match o with OpEvent _ _ | OpFunctor | OpTimer => True | _ => False end → Connector.legal o c →
  ensures (connector_exec o c) (λ c', stopping c' ∧ delivered_ c' = delivered_ c ∧ sockets_ c' = sockets_ c ∧
    (o = OpFunctor → functors_left c' <= pred (functors_left c))%nat).
Proof.
  intros Hs Ho Hl. pose proof (conn_exec_ok sys_connect so_error self_connect true o c (st_inv _ Hs) Hl) as H.
  apply ensures_ok in H as (c' & He & Hi'). unfold TcpClient.connector_exec. rewrite He. cbn [ensures].
  pose proof (exec_halted sys_connect so_error self_connect true o c c' (st_connect _ Hs) ltac:(by intros ? ->)
    ltac:(by intros ->) He) as [H1 H2 H3 H4].
  assert ((Connector.state_ c' = Connector.kConnecting → FStop ∈ queue_ c') ∧
    (o = OpFunctor → functors_left c' <= pred (functors_left c))%nat) as [Hq Hm].
  { destruct o as [| | |r t| |]; try done; cbn [taken Connector.legal Connector.exec] in *.
    - split; [|done]. intros _. eapply elem_of_prefix; [|exact H4]. apply (st_queued _ Hs).
      apply (bool_decide_eq_true_1 _). rewrite <- (ci_poller _ _ (st_inv _ Hs)). exact Hl.
    - destruct (queue_ c) as [|f l] eqn:El.
      + injection He as <-. split; [apply (st_queued _ Hs)|]. intros _. unfold functors_left.
        rewrite El, bool_decide_false; [cbn; lia|]. intros Hk%(st_queued _ Hs). rewrite El in Hk. by apply elem_of_nil in Hk.
      + destruct (functor_stopping c c' f l Hs El He) as [Hq Hm]. by split.
    - split; [|done]. destruct (timers_ c) as [|d l]; [injection He as <-; apply (st_queued _ Hs)|].
      apply halted_start in He; [subst c'|apply (st_connect _ Hs)]. apply (st_queued _ Hs). }
  split; [split; [done| |done]|].
  - rewrite H1. destruct o; done || apply (st_connect _ Hs).
  - split; [rewrite H3; by destruct o|]. split; [rewrite H2; by destruct o|done].
Qed.

(** When nothing is queued any more, nothing is left. *)
Lemma stopping_over c :
  stopping c → queue_ c = [] →
  Connector.channel_ c = None ∧ closed_ c ++ delivered_ c ≡ₚ seqZ 0 (sockets_ c).
Proof.
  intros [Hi _ Hq] El. rewrite El in Hq.
  assert (Connector.state_ c ≠ Connector.kConnecting) as Hs by (intros Hs; by apply Hq, elem_of_nil in Hs).
  pose proof (ci_sockets _ _ Hi) as Hp. pose proof (ci_reset _ _ Hi) as Hr. rewrite El in Hr. unfold detached in Hr.
  unfold current in Hp. rewrite bool_decide_false, app_nil_r in Hp by done. split; [|done].
  rewrite bool_decide_true in Hr by done. destruct (Connector.channel_ c); [|done].
  by rewrite bool_decide_true in Hr by eauto.
Qed.

(** ** The connections, destroyed *)

Hypothesis kernel_ok : ∀ fd i d n, kernel_write fd i d = WOk n → 0 ≤ n ≤ len d.
Hypothesis user_ok : ∀ fd, plays (kernel_write fd) (client_user u).

Definition over (x : client_conn) : Prop := conn_reachable x ∧ LDestroyed ∈ TcpConnection.log_ (cc_conn x).

Lemma over_end x : over x → destroyConnection (cc_conn x) = Ok [SysClose (cc_fd x)].
Proof using kernel_ok user_ok.
  intros [Hr Hd]. by apply (destroy_destroyed _ _ (user_ok (cc_fd x)) (kernel_ok (cc_fd x))).
Qed.

Lemma gone_over x : conn_reachable x → gone (cc_conn x) → over x.
Proof using Type.
  intros Hr [_ (_ & _ & _ & Hl & _)]. split; [done|]. apply (elem_of_life LDestroyed); [done|]. rewrite Hl.
  by apply (bool_decide_unpack _).
Qed.

(** What is left of the client: [n] sockets were opened. *)
Record orphaned (n : Z) (s : TcpClient) : Prop := mkOrphaned {
  or_connector : stopping (connector_ s);
  or_fds : delivered_ (connector_ s) = cc_fd <$> objects_ s;
  or_over i x : objects_ s !! i = Some x → over x;
  or_sockets : sockets_ (connector_ s) = n
}.

(** The i-th connection has been destroyed by an operation. *)
Lemma orphaned_update n s i x c :
  stopping (connector_ s) → delivered_ (connector_ s) = cc_fd <$> objects_ s → sockets_ (connector_ s) = n →
  objects_ s !! i = Some x → over (with_conn x c) →
  (∀ j y, j ≠ i → objects_ s !! j = Some y → over y) →
  orphaned n (set_objects s (<[i := with_conn x c]> (objects_ s))).
Proof using Type.
  intros H1 H2 H3 Hx Hc Ho. split; try done; cbn.
  - by rewrite map_insert_fd.
  - intros j y [(-> & <- & _)|[Hne Hy]]%list_lookup_insert_Some; [done|]. by apply (Ho j).
Qed.

Lemma client_destroyed s :
  client_reachable s →
  safely (destroyClient sys_connect so_error self_connect kernel_write peer u true s)
    (orphaned (sockets_ (connector_ s))).
Proof using kernel_ok user_ok.
  intros Hr. pose proof (client_reachable_inv sys_connect so_error self_connect kernel_write peer u kernel_ok user_ok s Hr) as [Hc Hf Hn Ho Hcur].
  pose proof (conn_reachable_inv _ _ _ _ _ Hc) as Hi.
  unfold destroyClient, connector_op.
  destruct (connector_exec OpStop (connector_ s)) as [c|] eqn:E; [|done].
  destruct (stop_stopping _ _ Hi E) as (Hs & Hd & Hk). cbn [obind]. cbv zeta. rewrite Hd, drop_delivered. cbn [foldM obind].
  cbn [connection_ set_connector].
  assert (∀ j y, connection_ s ≠ Some j → objects_ s !! j = Some y → over y) as Hover.
  { intros j y Hne Hy. destruct (Ho j y Hy) as [Hy1 _ Hy2]. rewrite bool_decide_false in Hy2 by done. by apply gone_over. }
  destruct (connection_ s) as [i|] eqn:Ei.
  - destruct (Hcur i eq_refl) as [Hlen _].
    destruct (lookup_lt_is_Some_2 (objects_ s) i) as [x Hx]; [lia|]. unfold TcpClient.update_conn. cbn [objects_ set_connector].
    rewrite Hx. cbn [deref obind]. destruct (Ho i x Hx) as [Hrx _ Hst]. rewrite Ei, bool_decide_true in Hst by done.
    destruct Hst as [Hst _].
    eapply safely_bind; [exact (destroy_settled _ _ (user_ok (cc_fd x)) (kernel_ok (cc_fd x)) _ _ Hrx Hst)|].
    intros k (Hk1 & Hk2 & _). cbn [safely]. apply (orphaned_update _ (set_connector s c)); cbn; try done.
    + by rewrite Hd.
    + intros j y Hne. apply Hover. congruence.
  - cbn [safely]. split; cbn; [done|by rewrite Hd| |done]. intros j y. by apply Hover.
Qed.

Lemma orphan_connector_ok n o s :
  orphaned n s → orphan_legal (OnConnector o) s →
  ensures (orphan_exec (OnConnector o) s) (λ s', orphaned n s' ∧ objects_ s' = objects_ s ∧
    (o = OpFunctor → functors_left (connector_ s') <= pred (functors_left (connector_ s)))%nat).
Proof using Type.
  intros [H1 H2 H3 H4] [Ho Hl]. cbn [orphan_exec]. eapply ensures_bind; [by apply stopping_exec|].
  intros c (Hs & Hd & Hk & Hm). rewrite bool_decide_true by done. cbn. split; [|done].
  split; cbn; [done|congruence|done|congruence].
Qed.

Lemma orphan_conn_ok n i o s :
  orphaned n s → orphan_legal (OnConn i o) s → safely (orphan_exec (OnConn i o) s) (orphaned n).
Proof using kernel_ok user_ok.
  intros [H1 H2 H3 H4] (He & Hd & x & Hx & Hl). cbn [orphan_exec]. unfold TcpClient.update_conn. rewrite Hx. cbn [deref obind].
  destruct (H3 i x Hx) as [Hr Hin].
  pose proof (destroyed_exec _ _ (user_ok (cc_fd x)) (kernel_ok (cc_fd x)) _ _ _ Hr Hin Hl He Hd) as Hex.
  unfold conn_exec. destruct (safely_cases _ _ Hex) as [(c & -> & Hc1 & Hc2)| ->]; [|done]. cbn [obind].
  assert (∀ e, is_life e = true → e ∈ TcpConnection.log_ c ↔ e ∈ TcpConnection.log_ (cc_conn x)) as Hlog.
  { intros e Hlife. by rewrite (elem_of_life e (TcpConnection.log_ c) Hlife), Hc2, <- elem_of_life. }
  unfold closed_now. cbn [objects_ set_objects].
  rewrite Hx, list_lookup_insert_eq by (by eapply lookup_lt_Some). cbn [cc_conn with_conn].
  rewrite bool_decide_false by (rewrite Hlog by done; by intros [? []]). cbn [safely].
  apply (orphaned_update n s i x c); [done..|split; [done|]|intros j y _; apply H3]. by apply Hlog.
Qed.

Lemma orphan_exec_ok n o s : orphaned n s → orphan_legal o s → safely (orphan_exec o s) (orphaned n).
Proof using kernel_ok user_ok.
  intros Hs Hl. destruct o as [o|i o]; [|by apply orphan_conn_ok].
  apply safely_ensures. eapply ensures_mono; [by apply (orphan_connector_ok n)|]. by intros s' [? _].
Qed.

Lemma orphans_keep n s s' : orphaned n s → rtc orphan_step s s' → orphaned n s'.
Proof using kernel_ok user_ok.
  intros Hs Hrun. induction Hrun as [s|s s1 s' Hst _ IH]; [done|]. apply IH.
  destruct Hst as [o s s1 Hl He]. exact (safely_ok _ _ _ (orphan_exec_ok n o s Hs Hl) He).
Qed.

(** The functors of the connector run out. *)
Lemma functors_run_out n k s :
  orphaned n s → (functors_left (connector_ s) ≤ k)%nat →
  ensures (run_functors k s) (λ s', orphaned n s' ∧ objects_ s' = objects_ s ∧ queue_ (connector_ s') = []).
Proof using Type.
  unfold run_functors. revert s. induction k as [|k IH]; intros s Hs Hk.
  - cbn. split_and!; [done|done|]. apply length_zero_iff_nil. unfold functors_left in Hk. lia.
  - cbn [replicate foldM]. eapply ensures_bind; [by apply (orphan_connector_ok n)|].
    intros s1 (Hs1 & Ho1 & Hm). rewrite <- Ho1. apply IH; [done|].
    specialize (Hm eq_refl). lia.
Qed.

End End.

(** ** The theorem at a concrete input *)

Definition sample_orphan : orphan_op → TcpClient → outcome TcpClient :=
  orphan_exec sample_connect (λ _, 0) (λ _, false) sample_write quiet_user.

(** The client of [TcpClient.sample_client] lost its connection and was
    connecting again; the loop tells the connector of the new one before the
    functor of the destructor runs: the socket is closed and not delivered. *)
Definition sample_dead : TcpClient :=
  after_client (destroyClient sample_connect (λ _, 0) (λ _, false) sample_write sample_peer quiet_user true sample_client).
Definition sample_late : TcpClient := after_client (sample_orphan (OnConnector (Connector.OpEvent POLLOUT 6)) sample_dead).

Lemma sample_late_run :
  closed_ (connector_ sample_late) = [0; 2] ∧ sockets_ (connector_ sample_client) = 3 ∧
  queue_ (connector_ sample_late) = [FStop; FReset].
Proof. by vm_compute. Qed.


(** In another thread the destructor only asks the loop to replace the close
    callback. An event of the connection that is dispatched before that
    functor runs calls the dead client. *)
Definition sample_away : TcpClient :=
  after_client (destroyClient sample_connect (λ _, 0) (λ _, false) sample_write sample_peer quiet_user false
    (after_client sample_reset)).
Definition sample_eof : orphan_op := OnConn 0 (TcpConnection.OpEvent POLLIN 7 (ReadOk [])).

Lemma destroyed_elsewhere_called :
  orphan_legal sample_eof sample_away ∧ sample_orphan sample_eof sample_away = Fault NullDeref.
Proof.
  split; [|by vm_compute]. split; [done|]. split; [done|].
  eexists. split; [by vm_compute|]. split_and!; by vm_compute.
Qed.
