(* ===== verification/Calendar.v ===== *)
(** * Calendar: the Gregorian calendar of [std::chrono], as [Date] and
    [TimeZone] use it

    [sys_days] is a count of days since 1970-01-01, [year_month_day] a triple;
    the standard defines the conversions by the proleptic Gregorian calendar.
    [days_from_civil] counts the days of the years and months before a date;
    [civil_from_days] is its inverse (theorems below). *)
From S2P Require Import Prelude.
From stdpp Require Import options.

(** [lia] on divisions by constants. *)
#[local] Ltac Zify.zify_post_hook ::= Z.to_euclidean_division_equations.

Definition is_leap (y : Z) : bool :=
  (y mod 4 =? 0) && (negb (y mod 100 =? 0) || (y mod 400 =? 0)).

Arguments is_leap : simpl never.

Definition month_length (y m : Z) : Z :=
  if m =? 2 then (if is_leap y then 29 else 28)
  else if (m =? 4) || (m =? 6) || (m =? 9) || (m =? 11) then 30 else 31.

(** [year_month_day::ok()]. *)
Definition ymd_ok (y m d : Z) : bool :=
  (-32767 <=? y) && (y <=? 32767) && (1 <=? m) && (m <=? 12) && (1 <=? d) && (d <=? month_length y m).

(** Leap days in the years before [y], counted from year 1. *)
Definition leaps_before (y : Z) : Z := (y - 1) / 4 - (y - 1) / 100 + (y - 1) / 400.

Fixpoint days_of_months (y : Z) (n : nat) : Z :=
  match n with O => 0 | S k => days_of_months y k + month_length y (Z.of_nat n) end.

(** Days from 1970-01-01 to [y/m/d]. *)
Definition days_from_civil (y m d : Z) : Z :=
  365 * (y - 1970) + leaps_before y - leaps_before 1970 + days_of_months y (Z.to_nat (m - 1)) + (d - 1).

(** Its inverse, by 400-year eras that start on the first of March. *)
Definition civil_from_days (z : Z) : Z * Z * Z :=
  let z := z + 719468 in
  let era := z / 146097 in
  let doe := z mod 146097 in
  let c := Z.min 3 (doe / 36524) in
  let doc := doe - c * 36524 in
  let q := doc / 1461 in
  let doq := doc mod 1461 in
  let r := Z.min 3 (doq / 365) in
  let doy := doq - r * 365 in
  let mp := (5 * doy + 2) / 153 in
  let y := era * 400 + c * 100 + q * 4 + r in
  let m := if mp <? 10 then mp + 3 else mp - 9 in
  ((if m <=? 2 then y + 1 else y), m, doy - (153 * mp + 2) / 5 + 1).

Arguments civil_from_days : simpl never.

(** ** Years that start in March *)

(** The year and the month counted from March. *)
Definition march_year (y m : Z) : Z := if m <=? 2 then y - 1 else y.
Definition march_month (m : Z) : Z := if m <=? 2 then m + 9 else m - 3.

Lemma div_step y n : 0 < n → y / n - (y - 1) / n = if y mod n =? 0 then 1 else 0.
Proof.
  intros Hn. pose proof (Z.div_mod y n ltac:(lia)) as E. pose proof (Z.mod_pos_bound y n Hn) as Hb.
  destruct (Z.eqb_spec (y mod n) 0) as [Hz|Hz].
  - assert ((y - 1) / n = y / n - 1) as ->; [|lia]. symmetry. apply (Z.div_unique _ _ _ (n - 1)); lia.
  - assert ((y - 1) / n = y / n) as ->; [|lia]. symmetry. apply (Z.div_unique _ _ _ (y mod n - 1)); lia.
Qed.

Lemma leap_day y : (if is_leap y then 1 else 0) = leaps_before (y + 1) - leaps_before y.
Proof.
  unfold is_leap, leaps_before. replace (y + 1 - 1) with y by lia.
  pose proof (div_step y 4 ltac:(lia)) as H4. pose proof (div_step y 100 ltac:(lia)) as H100.
  pose proof (div_step y 400 ltac:(lia)) as H400.
  assert (y mod 400 = 0 → y mod 100 = 0) as G1 by lia. assert (y mod 100 = 0 → y mod 4 = 0) as G2 by lia.
  destruct (Z.eqb_spec (y mod 4) 0), (Z.eqb_spec (y mod 100) 0), (Z.eqb_spec (y mod 400) 0);
    cbn [andb orb negb]; lia.
Qed.

Lemma months_march y m :
  1 ≤ m ≤ 12 →
  days_of_months y (Z.to_nat (m - 1)) =
  (153 * march_month m + 2) / 5 - 306 + (if m <=? 2 then 0 else 365 + if is_leap y then 1 else 0).
Proof.
  intros Hm.
  assert (m = 1 ∨ m = 2 ∨ m = 3 ∨ m = 4 ∨ m = 5 ∨ m = 6 ∨ m = 7 ∨ m = 8 ∨ m = 9 ∨ m = 10 ∨ m = 11 ∨ m = 12) as Hc by lia.
  unfold march_month. destruct (is_leap y) eqn:E;
  repeat (destruct Hc as [->|Hc]); try subst m;
    match goal with |- context [Z.to_nat ?e] => let v := eval vm_compute in (Z.to_nat e) in change (Z.to_nat e) with v end;
    cbn [days_of_months]; unfold month_length; rewrite ?E; reflexivity.
Qed.

Lemma days_march y m d :
  1 ≤ m ≤ 12 →
  let y' := march_year y m in
  days_from_civil y m d =
  365 * y' + y' / 4 - y' / 100 + y' / 400 + (153 * march_month m + 2) / 5 + d - 719469.
Proof.
  intros Hm y'. unfold days_from_civil. rewrite months_march by done.
  pose proof (leap_day y) as Hl. change (leaps_before 1970) with 477. subst y'. unfold march_year, leaps_before in *.
  replace (y + 1 - 1) with y in Hl by lia. generalize ((153 * march_month m + 2) / 5). intros k. destruct (Z.leb_spec m 2), (is_leap y); lia.
Qed.

(** [march_month] and the days of the months from March. *)
Lemma month_bounds y m d :
  ymd_ok y m d = true →
  1 ≤ m ≤ 12 ∧ 1 ≤ d ∧ 0 ≤ march_month m ≤ 11 ∧
  let doy := (153 * march_month m + 2) / 5 + d - 1 in
  (5 * doy + 2) / 153 = march_month m ∧ 0 ≤ doy ∧
  doy < 365 + (if is_leap (march_year y m + 1) then 1 else 0).
Proof.
  unfold ymd_ok. intros H. repeat (apply andb_true_iff in H as [H ?]).
  repeat match goal with H : (_ <=? _) = true |- _ => apply Z.leb_le in H end.
  assert (month_length y m ≤ 31) as H31.
  { unfold month_length. repeat case_match; lia. }
  assert (m = 1 ∨ m = 2 ∨ m = 3 ∨ m = 4 ∨ m = 5 ∨ m = 6 ∨ m = 7 ∨ m = 8 ∨ m = 9 ∨ m = 10 ∨ m = 11 ∨ m = 12) as Hc by lia.
  unfold march_year. destruct (is_leap y) eqn:E;
  repeat (destruct Hc as [->|Hc]); try subst m; unfold march_month, month_length in *; cbn in *;
    rewrite ?E in *; replace (y - 1 + 1) with y by lia; rewrite ?E;
    destruct (is_leap (y + 1)); split_and!; lia.
Qed.

(** An era: 400 years of 365 or 366 days. *)
Lemma era_split era c q r doy :
  0 ≤ c ≤ 3 → 0 ≤ q ≤ 24 → 0 ≤ r ≤ 3 → 0 ≤ doy →
  let y := era * 400 + c * 100 + q * 4 + r in
  doy < 365 + (if is_leap (y + 1) then 1 else 0) →
  let z := 365 * y + y / 4 - y / 100 + y / 400 + doy in
  z / 146097 = era ∧
  let doe := z mod 146097 in
  Z.min 3 (doe / 36524) = c ∧
  let doc := doe - c * 36524 in
  doc / 1461 = q ∧
  let doq := doc mod 1461 in
  Z.min 3 (doq / 365) = r ∧ doq - r * 365 = doy.
Proof.
  intros Hc Hq Hr Hd y Hl z.
  assert (y / 400 = era ∧ y / 100 = era * 4 + c ∧ y / 4 = era * 100 + c * 25 + q) as (E400 & E100 & E4) by (subst y; lia).
  assert (doy = 365 → r = 3 ∧ (q = 24 → c = 3)) as Hlast.
  { intros ->. destruct (is_leap (y + 1)) eqn:E; [|lia]. unfold is_leap in E. clear -E Hc Hq Hr.
    apply andb_true_iff in E as [E1 E2]. apply Z.eqb_eq in E1. apply orb_true_iff in E2.
    rewrite negb_true_iff, Z.eqb_neq, Z.eqb_eq in E2. subst y. split; [lia|]. intros ->. lia. }
  assert (doy ≤ 365) as Hm by (destruct (is_leap _); lia). clear Hl.
  assert (z = era * 146097 + (c * 36524 + (q * 1461 + (r * 365 + doy)))) as Ez by (subst z; rewrite E400, E100, E4; subst y; lia).
  clearbody z. clear E400 E100 E4 y.
  assert (0 ≤ r * 365 + doy < 1461) by lia.
  assert (0 ≤ q * 1461 + (r * 365 + doy) < 36524 + (if c =? 3 then 1 else 0)) as Hdoc by (destruct (Z.eqb_spec c 3); lia).
  assert (z mod 146097 = c * 36524 + (q * 1461 + (r * 365 + doy))) as Edoe.
  { symmetry. apply (Z.mod_unique _ _ era); destruct (Z.eqb_spec c 3); lia. }
  cbv zeta. rewrite Edoe. split; [symmetry; apply (Z.div_unique _ _ _ (z mod 146097)); destruct (Z.eqb_spec c 3); lia|].
  replace (c * 36524 + (q * 1461 + (r * 365 + doy)) - c * 36524) with (q * 1461 + (r * 365 + doy)) by lia.
  assert ((q * 1461 + (r * 365 + doy)) mod 1461 = r * 365 + doy) as ->.
  { symmetry. apply (Z.mod_unique _ _ q); lia. }
  split_and!; [destruct (Z.eqb_spec c 3); lia|lia|lia|lia].
Qed.

(** The two conversions are inverse on every calendar date. *)
Lemma civil_days_inverse y m d :
  ymd_ok y m d = true → civil_from_days (days_from_civil y m d) = (y, m, d).
Proof.
  intros Hok. destruct (month_bounds y m d Hok) as (Hm & Hd & Hmm & Hmp & Hdoy & Hlt).
  set (y' := march_year y m) in *. set (doy := (153 * march_month m + 2) / 5 + d - 1) in *.
  assert (days_from_civil y m d + 719468 = 365 * y' + y' / 4 - y' / 100 + y' / 400 + doy) as Hz.
  { rewrite days_march by done. subst doy y'. lia. }
  unfold civil_from_days. rewrite Hz.
  assert (∃ era c q r, y' = era * 400 + c * 100 + q * 4 + r ∧ 0 ≤ c ≤ 3 ∧ 0 ≤ q ≤ 24 ∧ 0 ≤ r ≤ 3) as (era & c & q & r & Hy & Hc & Hq & Hr).
  { exists (y' / 400), ((y' mod 400) / 100), ((y' mod 100) / 4), (y' mod 4). lia. }
  rewrite Hy in Hlt |- *. destruct (era_split era c q r doy Hc Hq Hr Hdoy Hlt) as (E1 & E2 & E3 & E4 & E5).
  rewrite E1, E2, E3, E4, E5, Hmp. clear E1 E2 E3 E4 E5.
  assert (doy - (153 * march_month m + 2) / 5 + 1 = d) as -> by (subst doy; lia).
  rewrite <- Hy. clear -Hm Hmm. subst y'. unfold march_month, march_year in *.
  destruct (Z.leb_spec m 2).
  - destruct (Z.ltb_spec (m + 9) 10); [lia|]. replace (m + 9 - 9) with m by lia.
    destruct (Z.leb_spec m 2); [|lia]. f_equal. f_equal. lia.
  - destruct (Z.ltb_spec (m - 3) 10); [|lia]. replace (m - 3 + 3) with m by lia.
    destruct (Z.leb_spec m 2); [lia|]. done.
Qed.

(** ** Every day is a calendar date *)

Lemma era_fields z :
  let era := z / 146097 in let doe := z mod 146097 in
  let c := Z.min 3 (doe / 36524) in let doc := doe - c * 36524 in
  let q := doc / 1461 in let doq := doc mod 1461 in
  let r := Z.min 3 (doq / 365) in let doy := doq - r * 365 in
  let y := era * 400 + c * 100 + q * 4 + r in
  0 ≤ doy ≤ 365 ∧ z = 365 * y + y / 4 - y / 100 + y / 400 + doy ∧
  (doy = 365 → is_leap (y + 1) = true).
Proof.
  cbv zeta. pose proof (Z.mod_pos_bound z 146097 ltac:(lia)) as Hdoe.
  pose proof (Z.div_mod z 146097 ltac:(lia)) as Ez.
  set (era := z / 146097) in *. set (doe := z mod 146097) in *. clearbody era doe.
  set (c := Z.min 3 (doe / 36524)).
  assert (0 ≤ c ≤ 3 ∧ 0 ≤ doe - c * 36524 ≤ 36524 ∧ (doe - c * 36524 = 36524 → c = 3)) as (Hc & Hdoc & Hdoc') by lia.
  assert (doe = c * 36524 + (doe - c * 36524)) as Ed by lia.
  set (doc := doe - c * 36524) in *. clearbody c doc.
  assert (0 ≤ doc / 1461 ≤ 24 ∧ 0 ≤ doc mod 1461 < 1461 ∧ doc = doc / 1461 * 1461 + doc mod 1461) as (Hq & Hdoq & Edoc) by lia.
  set (q := doc / 1461) in *. set (doq := doc mod 1461) in *. clearbody q doq.
  set (r := Z.min 3 (doq / 365)).
  assert (0 ≤ r ≤ 3 ∧ 0 ≤ doq - r * 365 ≤ 365 ∧ (doq - r * 365 = 365 → r = 3)) as (Hr & Hdoy & Hdoy') by lia.
  assert (doq = r * 365 + (doq - r * 365)) as Eq by lia.
  set (doy := doq - r * 365) in *. clearbody r doy.
  set (y := era * 400 + c * 100 + q * 4 + r).
  assert (y / 400 = era ∧ y / 100 = era * 4 + c ∧ y / 4 = era * 100 + c * 25 + q) as (E400 & E100 & E4) by (subst y; lia).
  rewrite E400, E100, E4. split_and!; [lia|lia|subst y; lia|].
  intros H365. specialize (Hdoy' H365). subst r doy.
  unfold is_leap. apply andb_true_iff. rewrite orb_true_iff, negb_true_iff, Z.eqb_neq, !Z.eqb_eq.
  assert (q = 24 → c = 3) as Hlast by lia. clear -Hlast Hc Hq. subst y. split; [lia|].
  destruct (decide (q = 24)) as [->|Hne]; [right|left].
  - rewrite (Hlast eq_refl). lia.
  - replace (era * 400 + c * 100 + q * 4 + 3 + 1) with ((q * 4 + 4) + (era * 4 + c) * 100) by lia.
    rewrite Z_mod_plus_full, Z.mod_small by lia. lia.
Qed.

(** Evaluate the comparisons of numerals. *)
Ltac eval_tests :=
  repeat match goal with
  | |- context [?a <? ?b] => let v := eval vm_compute in (a <? b) in change (a <? b) with v
  | |- context [?a =? ?b] => let v := eval vm_compute in (a =? b) in change (a =? b) with v
  | |- context [?a <=? ?b] => let v := eval vm_compute in (a <=? b) in change (a <=? b) with v
  end; cbn [orb andb].

Lemma civil_from_days_ok z :
  let '(y, m, d) := civil_from_days z in
  1 ≤ m ≤ 12 ∧ 1 ≤ d ≤ month_length y m ∧ days_from_civil y m d = z.
Proof.
  unfold civil_from_days. pose proof (era_fields (z + 719468)) as H. cbv zeta in *.
  set (y' := _ / 146097 * 400 + _ + _ + _) in *. set (doy := _ mod 1461 - _) in *.
  clearbody y' doy. destruct H as (Hd & Hz & Hl).
  set (mp := (5 * doy + 2) / 153). assert (0 ≤ mp ≤ 11) as Hmp by lia.
  assert (153 * mp ≤ 5 * doy + 2 < 153 * (mp + 1)) as Hb by (subst mp; lia). clearbody mp.
  set (m := if mp <? 10 then mp + 3 else mp - 9).
  set (d := doy - (153 * mp + 2) / 5 + 1).
  assert (1 ≤ m ≤ 12) as Hm by (subst m; destruct (Z.ltb_spec mp 10); lia).
  assert (march_month m = mp) as Hmm.
  { subst m. unfold march_month. destruct (Z.ltb_spec mp 10); [destruct (Z.leb_spec (mp + 3) 2)|destruct (Z.leb_spec (mp - 9) 2)]; lia. }
  assert (march_year (if m <=? 2 then y' + 1 else y') m = y') as Hmy.
  { unfold march_year. destruct (m <=? 2); lia. }
  split_and!; [lia|lia|subst d; lia| |].
  - assert (mp = 0 ∨ mp = 1 ∨ mp = 2 ∨ mp = 3 ∨ mp = 4 ∨ mp = 5 ∨ mp = 6 ∨ mp = 7 ∨ mp = 8 ∨ mp = 9 ∨ mp = 10 ∨ mp = 11) as Hcase by lia.
    subst d m. clear -Hcase Hb Hd Hl.
    destruct (is_leap (y' + 1)) eqn:El; [|assert (doy ≤ 364) by (destruct (decide (doy = 365)); [naive_solver|lia])];
    repeat (destruct Hcase as [->|Hcase]); try subst mp; unfold month_length; eval_tests; rewrite ?El; lia.
  - rewrite days_march by done. cbv zeta. rewrite Hmy, Hmm. subst d. lia.
Qed.

(** ** The range of [std::chrono::year] *)

Lemma days_bound y m d : 1 ≤ m ≤ 12 → 1 ≤ d ≤ month_length y m →
  365 * march_year y m + march_year y m / 4 - march_year y m / 100 + march_year y m / 400 - 719468 ≤ days_from_civil y m d
  ≤ 365 * march_year y m + march_year y m / 4 - march_year y m / 100 + march_year y m / 400 - 719468 + 367.
Proof.
  intros Hm Hd. rewrite days_march by done. cbv zeta.
  assert (d ≤ 31) by (unfold month_length in Hd; repeat case_match; lia).
  assert (0 ≤ march_month m ≤ 11) by (unfold march_month; destruct (Z.leb_spec m 2); lia). lia.
Qed.

(** Days far outside are in years far outside. *)
Lemma year_in_range y m d :
  1 ≤ m ≤ 12 → 1 ≤ d ≤ month_length y m →
  days_from_civil (-32767) 1 1 ≤ days_from_civil y m d ≤ days_from_civil 32767 12 31 → -32767 ≤ y ≤ 32767.
Proof.
  intros Hm Hd H. change (days_from_civil (-32767) 1 1) with (-12687428) in H.
  change (days_from_civil 32767 12 31) with 11248737 in H.
  destruct (Z.le_gt_cases (-32767) y) as [|Hlow]; [destruct (Z.le_gt_cases y 32767) as [|Hhigh]; [done|]|]; exfalso.
  - unfold days_from_civil in H.
    assert (0 ≤ days_of_months y (Z.to_nat (m - 1))) as Hdm.
    { generalize (Z.to_nat (m - 1)). induction n as [|n IH]; cbn [days_of_months]; [done|].
      assert (0 ≤ month_length y (Z.of_nat (S n))) by (unfold month_length; repeat case_match; lia). lia. }
    unfold leaps_before in H. lia.
  - pose proof (days_bound y m d Hm Hd) as Hb. unfold days_from_civil in H.
    assert (days_of_months y (Z.to_nat (m - 1)) + d ≤ 366) as Hdm.
    { rewrite months_march by done.
      assert (d ≤ 31) by (unfold month_length in Hd; repeat case_match; lia).
      assert (m = 12 ∨ m ≤ 11) as [->|] by lia.
      - unfold march_month. change (12 <=? 2) with false. cbn iota. destruct (is_leap y); lia.
      - unfold march_month. destruct (Z.leb_spec m 2), (is_leap y); lia. }
    unfold leaps_before in H. lia.
Qed.
