(* ===== verification/Date.v ===== *)
(** * Date: a calendar day ([muduo/base/Date.h], [Date.cc])

    A [Date] is its [sys_days], a count of days. The [int] arithmetic of
    [getJulianDayNumber] stays far below 2^31 for every year [std::chrono] can
    hold, so it is exact; its divisions truncate. *)
From S2P Require Import Prelude Format Calendar.
From stdpp Require Import options.

#[local] Ltac Zify.zify_post_hook ::= Z.to_euclidean_division_equations.

(* src/muduo/base/Date.h:12-12 Date *)
Definition Date : Type := Z.

(* src/muduo/base/Date.h:14-18 Date::YearMonthDay *)
Record YearMonthDay := mkYmd { ymd_year : Z; ymd_month : Z; ymd_day : Z }.

(* src/muduo/base/Date.h:20-20 Date::kDaysPerWeek *)
Definition kDaysPerWeek : Z := 7.
(* src/muduo/base/Date.h:21-21 Date::kJulianDayOf1970_01_01 *)
Definition kJulianDayOf1970_01_01 : Z := 2440588.
(* src/muduo/base/Date.h:22-23 Date::kInvalidDate *)
Definition kInvalidDate : Date := - kJulianDayOf1970_01_01.

(* src/muduo/base/Date.h:72-78 Date::getJulianDayNumber *)
Definition getJulianDayNumber (year month day : Z) : Z :=
  let a := Z.quot (14 - month) 12 in
  let y := year + 4800 - a in
  let m := month + 12 * a - 3 in
  day + Z.quot (153 * m + 2) 5 + y * 365 + Z.quot y 4 - Z.quot y 100 + Z.quot y 400 - 32045.

(* src/muduo/base/Date.h:80-83 Date::fromJulianDay *)
Definition fromJulianDay (julianDayNum : Z) : Date := julianDayNum - kJulianDayOf1970_01_01.
(* src/muduo/base/Date.h:84-87 Date::toJulianDay *)
Definition toJulianDay (day : Date) : Z := day + kJulianDayOf1970_01_01.

(* src/muduo/base/Date.h:25-25 Date::Date *)
Definition Date_default : Date := kInvalidDate.
(* src/muduo/base/Date.h:26-27 Date::Date(int, int, int) *)
Definition Date_ymd (year month day : Z) : Date := fromJulianDay (getJulianDayNumber year month day).
(* src/muduo/base/Date.h:28-29 Date::Date(year_month_day) *)
Definition Date_chrono (y m d : Z) : Date := if ymd_ok y m d then days_from_civil y m d else kInvalidDate.
(* src/muduo/base/Date.h:30-31 Date::Date(int) *)
Definition Date_julian (julianDayNum : Z) : Date :=
  if 0 <? julianDayNum then fromJulianDay julianDayNum else kInvalidDate.
(* src/muduo/base/Date.cc:7-8 Date::Date(const struct tm &) *)
Definition Date_tm (tm_year tm_mon tm_mday : Z) : Date := Date_ymd (tm_year + 1900) (tm_mon + 1) tm_mday.
(* src/muduo/base/Date.h:34-36 Date::swap *)
Definition swap (a b : Date) : Date * Date := (b, a).
(* src/muduo/base/Date.h:38-38 Date::valid *)
Definition valid (D : Date) : bool := negb (D =? kInvalidDate).

(* src/muduo/base/Date.h:40-48 Date::yearMonthDay *)
Definition yearMonthDay (D : Date) : YearMonthDay :=
  if negb (valid D) then mkYmd 0 0 0 else let '(y, m, d) := civil_from_days D in mkYmd y m d.
(* src/muduo/base/Date.h:49-54 Date::asChronoDate *)
Definition asChronoDate (D : Date) : Z * Z * Z := if negb (valid D) then (0, 0, 0) else civil_from_days D.
(* src/muduo/base/Date.h:56-56 Date::year *)
Definition year (D : Date) : Z := ymd_year (yearMonthDay D).
(* src/muduo/base/Date.h:57-57 Date::month *)
Definition month (D : Date) : Z := ymd_month (yearMonthDay D).
(* src/muduo/base/Date.h:58-58 Date::day *)
Definition day (D : Date) : Z := ymd_day (yearMonthDay D).
(* src/muduo/base/Date.h:64-66 Date::julianDayNumber *)
Definition julianDayNumber (D : Date) : Z := toJulianDay D.
(* src/muduo/base/Date.h:60-62 Date::weekDay *)
Definition weekDay (D : Date) : Z := Z.rem (julianDayNumber D + 1) kDaysPerWeek.

(** [%Y] of [std::chrono]: the sign, then at least four digits. *)
Definition chrono_year (y : Z) : bytes :=
  if y <? 0 then Byte.x2d :: zero_pad 4 (format_nat (- y)) else zero_pad 4 (format_nat y).
(** [%F]. *)
Definition chrono_F (y m d : Z) : bytes :=
  chrono_year y ++ [Byte.x2d] ++ format_pad 2 m ++ [Byte.x2d] ++ format_pad 2 d.

(* src/muduo/base/Date.cc:10-15 Date::toIsoString *)
Definition toIsoString (D : Date) : bytes :=
  if negb (valid D) then str "0000-00-00"
  else let '(y, m, d) := asChronoDate D in chrono_F y m d.

(** ** The Julian day number and the calendar *)

Lemma julian_march y m d :
  1 ≤ m ≤ 12 → 0 ≤ march_year y m + 4800 →
  getJulianDayNumber y m d = days_from_civil y m d + kJulianDayOf1970_01_01.
Proof.
  intros Hm Hy. rewrite days_march by done. cbv zeta. unfold getJulianDayNumber, kJulianDayOf1970_01_01.
  assert (Z.quot (14 - m) 12 = if m <=? 2 then 1 else 0) as -> by (destruct (Z.leb_spec m 2); lia).
  assert (y + 4800 - (if m <=? 2 then 1 else 0) = march_year y m + 4800) as ->
    by (unfold march_year; destruct (Z.leb_spec m 2); lia).
  assert (m + 12 * (if m <=? 2 then 1 else 0) - 3 = march_month m) as ->
    by (unfold march_month; destruct (Z.leb_spec m 2); lia).
  assert (0 ≤ march_month m) as Hmm by (unfold march_month; destruct (Z.leb_spec m 2); lia).
  revert Hy Hmm. generalize (march_year y m) (march_month m). clear. intros y' mm Hy Hmm.
  rewrite !Z.quot_div_nonneg by lia.
  assert ((y' + 4800) / 4 = y' / 4 + 1200) as -> by lia.
  assert ((y' + 4800) / 100 = y' / 100 + 48) as -> by lia.
  assert ((y' + 4800) / 400 = y' / 400 + 12) as -> by lia. lia.
Qed.

Lemma julian_range y m d :
  ymd_ok y m d = true → 0 < getJulianDayNumber y m d → 0 ≤ march_year y m + 4800.
Proof.
  intros Hok. destruct (month_bounds y m d Hok) as (Hm & Hd & Hmm & Hmp & Hdoy & Hlt).
  assert (d ≤ 400) as Hd' by (destruct (is_leap _); lia). clear Hmp Hdoy Hlt Hok.
  unfold getJulianDayNumber.
  assert (Z.quot (14 - m) 12 = if m <=? 2 then 1 else 0) as -> by (destruct (Z.leb_spec m 2); lia).
  assert (y + 4800 - (if m <=? 2 then 1 else 0) = march_year y m + 4800) as ->
    by (unfold march_year; destruct (Z.leb_spec m 2); lia).
  assert (m + 12 * (if m <=? 2 then 1 else 0) - 3 = march_month m) as ->
    by (unfold march_month; destruct (Z.leb_spec m 2); lia).
  generalize dependent (march_month m). generalize (march_year y m + 4800). intros y' mm Hmm Hj.
  destruct (Z.le_gt_cases 0 y') as [|Hneg]; [done|]. exfalso.
  assert (Z.quot (153 * mm + 2) 5 ≤ 340) by lia. assert (Z.quot y' 4 ≤ 0) by lia.
  assert (Z.quot y' 400 ≤ 0) by lia. assert (y' ≤ Z.quot y' 100) by lia. lia.
Qed.

(** Reading [YYYY-MM-DD]. *)
Definition read_iso (s : bytes) : Z * Z * Z :=
  (dec_value (slice 0 4 s), dec_value (slice 5 2 s), dec_value (slice 8 2 s)).

Lemma read_iso_fields a b c :
  len a = 4 → len b = 2 → len c = 2 →
  read_iso (a ++ [Byte.x2d] ++ b ++ [Byte.x2d] ++ c) = (dec_value a, dec_value b, dec_value c).
Proof.
  intros Ha Hb Hc. unfold read_iso. cbn [app].
  destruct a as [|a1 [|a2 [|a3 [|a4 [|a5 a]]]]]; try (unfold len in Ha; cbn in Ha; lia).
  destruct b as [|b1 [|b2 [|b3 b]]]; try (unfold len in Hb; cbn in Hb; lia).
  destruct c as [|c1 [|c2 [|c3 c]]]; try (unfold len in Hc; cbn in Hc; lia). done.
Qed.

(** A date made from a year, month and day gives them back. For every
    calendar date after the Julian epoch: the date is valid, its year, month
    and day are the ones given, the integer formula [getJulianDayNumber]
    agrees with the calendar of [std::chrono], the Julian day number makes the
    same date, the day of the week is the one that has 1970-01-01 a Thursday,
    and a date with a four-digit year prints as ISO text that reads back. *)
Theorem date_roundtrip y m d :
  ymd_ok y m d = true → 0 < getJulianDayNumber y m d →
  let D := Date_ymd y m d in
  valid D = true ∧ yearMonthDay D = mkYmd y m d ∧ Date_chrono y m d = D ∧
  julianDayNumber D = getJulianDayNumber y m d ∧ Date_julian (julianDayNumber D) = D ∧
  weekDay D = (4 + days_from_civil y m d) mod kDaysPerWeek ∧
  (0 ≤ y ≤ 9999 → read_iso (toIsoString D) = (y, m, d) ∧ len (toIsoString D) = 10).
Proof.
  intros Hok Hj D. pose proof (month_bounds y m d Hok) as (Hm & Hd & _).
  pose proof (julian_march y m d Hm (julian_range y m d Hok Hj)) as E.
  assert (D = days_from_civil y m d) as HD by (unfold D, Date_ymd, fromJulianDay; lia).
  assert (valid D = true) as Hv.
  { unfold valid, kInvalidDate. apply negb_true_iff, Z.eqb_neq. unfold kJulianDayOf1970_01_01 in *. lia. }
  assert (julianDayNumber D = getJulianDayNumber y m d) as HJ.
  { unfold julianDayNumber, toJulianDay. lia. }
  split_and!; [done| | |done| | |].
  - unfold yearMonthDay. rewrite Hv. cbn [negb]. by rewrite HD, civil_days_inverse.
  - unfold Date_chrono. by rewrite Hok.
  - rewrite HJ. unfold Date_julian. by rewrite (proj2 (Z.ltb_lt _ _) Hj).
  - unfold weekDay. rewrite HJ. rewrite Z.rem_mod_nonneg by (unfold kDaysPerWeek; lia). rewrite E.
    unfold kDaysPerWeek, kJulianDayOf1970_01_01. lia.
  - intros Hy. unfold toIsoString, asChronoDate. rewrite Hv. cbn [negb]. rewrite HD, civil_days_inverse by done.
    assert (d ≤ 31) as Hd31.
    { unfold ymd_ok in Hok. apply andb_true_iff in Hok as [_ Hl]. apply Z.leb_le in Hl. unfold month_length in Hl.
      repeat case_match; lia. }
    assert (chrono_year y = format_pad 4 y) as Hc.
    { unfold chrono_year, format_pad. by destruct (Z.ltb_spec y 0); [lia|]. }
    unfold chrono_F. rewrite Hc.
    destruct (format_pad_spec 4 y) as (L1 & V1 & _); [lia..|].
    destruct (format_pad_spec 2 m) as (L2 & V2 & _); [lia..|].
    destruct (format_pad_spec 2 d) as (L3 & V3 & _); [lia..|].
    split; [|rewrite !len_app; unfold len; rewrite L1, L2, L3; done].
    rewrite read_iso_fields; [by rewrite V1, V2, V3|unfold len; by rewrite ?L1, ?L2, ?L3..].
Qed.

Lemma date_roundtrip_witness :
  let D := Date_ymd 2024 2 29 in
  valid D = true ∧ yearMonthDay D = mkYmd 2024 2 29 ∧ Date_chrono 2024 2 29 = D ∧
  julianDayNumber D = getJulianDayNumber 2024 2 29 ∧ Date_julian (julianDayNumber D) = D ∧
  weekDay D = (4 + days_from_civil 2024 2 29) mod kDaysPerWeek ∧
  (0 ≤ 2024 ≤ 9999 → read_iso (toIsoString D) = (2024, 2, 29) ∧ len (toIsoString D) = 10).
Proof. apply (date_roundtrip 2024 2 29); [reflexivity|]. vm_compute. reflexivity. Defined.

(** The day with Julian day number zero is taken for the invalid date. *)
Lemma julian_epoch_invalid :
  ymd_ok (-4713) 11 24 = true ∧ valid (Date_ymd (-4713) 11 24) = false.
Proof. by vm_compute. Qed.
