(* ===== verification/TimeZone.v ===== *)
(** * TimeZone: broken-down times and zones ([muduo/base/TimeZone.h], [TimeZone.cc])

    Times are seconds since the epoch. The IANA database behind
    [std::chrono::time_zone] is a parameter: looking a zone up, its offset at
    an instant, and what it says about a local time. *)
From S2P Require Import Prelude Format Calendar.
From stdpp Require Import options.

#[local] Ltac Zify.zify_post_hook ::= Z.to_euclidean_division_equations.

(* src/muduo/base/TimeZone.h:11-26 DateTime *)
Record DateTime := mkDateTime { year : Z; month : Z; day : Z; hour : Z; minute : Z; second : Z }.

(* src/muduo/base/TimeZone.cc:84-86 DateTime::DateTime(const struct tm &) *)
Definition DateTime_tm (tm_year tm_mon tm_mday tm_hour tm_min tm_sec : Z) : DateTime :=
  mkDateTime (tm_year + 1900) (tm_mon + 1) tm_mday tm_hour tm_min tm_sec.

(** [{:4d}]: padded with spaces on the left. *)
Definition space_pad (w : nat) (s : bytes) : bytes := replicate (w - length s) Byte.x20 ++ s.

(* src/muduo/base/TimeZone.cc:79-82 DateTime::toIsoString *)
Definition toIsoString (t : DateTime) : bytes :=
  space_pad 4 (format_int (year t)) ++ str "-" ++ format_pad 2 (month t) ++ str "-" ++ format_pad 2 (day t) ++
  str " " ++ format_pad 2 (hour t) ++ str ":" ++ format_pad 2 (minute t) ++ str ":" ++ format_pad 2 (second t).

(** A date and time of the calendar and the clock. *)
Definition datetime_ok (t : DateTime) : Prop :=
  ymd_ok (year t) (month t) (day t) = true ∧
  0 ≤ hour t < 24 ∧ 0 ≤ minute t < 60 ∧ 0 ≤ second t < 60.

(** The result of [std::chrono::time_zone::get_info] on a local time. *)
Inductive local_result : Set := unique | nonexistent | ambiguous.
#[global] Instance local_result_eq_dec : EqDecision local_result.
Proof. solve_decision. Defined.
Record local_info := mkLocalInfo { result : local_result; first : Z; second_ : Z }.

(* src/muduo/base/TimeZone.cc:37-50 pickInfoNoThrow *)
Definition pickInfoNoThrow (info : local_info) (post_transition : bool) : option Z :=
  match result info with
  | unique => Some (first info)
  | nonexistent => Some (if post_transition then first info else second_ info)
  | ambiguous => Some (if post_transition then second_ info else first info)
  end.

(* src/muduo/base/TimeZone.cc:20-35 breakTime *)
Definition breakTime (t : Z) : DateTime :=
  let day_point := t / 86400 in
  let '(y, m, d) := civil_from_days day_point in
  let hms := t - day_point * 86400 in
  mkDateTime y m d (hms / 3600) (hms mod 3600 / 60) (hms mod 60).

Section TimeZone.
(** [sys_days{ymd}] of a date that is not in the calendar: the last days of a
    month counted on from its first; unspecified when the month itself is
    none. *)
Context (unspecified_days : Z → Z → Z → Z).
Context {zone : Type} (locate_zone : bytes → option zone).
Context (sys_offset : zone → Z → Z) (local_offset : zone → Z → local_info).
Context (read_symlink : bytes → option bytes).

Definition sys_days (y m d : Z) : Z :=
  if ymd_ok y m 1 then days_from_civil y m 1 + (d - 1) else unspecified_days y m d.

(* src/muduo/base/TimeZone.cc:205-213 TimeZone::fromUtcTime *)
Definition fromUtcTime (dt : DateTime) : Z :=
  sys_days (swrap 16 (year dt)) (wrap 8 (wrap 32 (month dt))) (wrap 8 (wrap 32 (day dt))) * 86400 +
  hour dt * 3600 + minute dt * 60 + second dt.

(* src/muduo/base/TimeZone.cc:201-203 TimeZone::toUtcTime *)
Definition toUtcTime (secondsSinceEpoch : Z) : DateTime := breakTime secondsSinceEpoch.

(* src/muduo/base/TimeZone.cc:12-16 TimeZone::Data *)
Inductive Data := Fixed (eastOfUtc : Z) | Zone (z : zone).
(** [data_]: empty for an invalid zone. *)
(* src/muduo/base/TimeZone.h:28-30 TimeZone *)
Definition TimeZone : Type := option Data.

(* src/muduo/base/TimeZone.h:45-45 TimeZone::valid *)
Definition valid (tz : TimeZone) : bool := match tz with Some _ => true | None => false end.
(* src/muduo/base/TimeZone.cc:90-95 TimeZone::TimeZone(int, string_view) *)
Definition fixedZone (eastOfUtc : Z) : TimeZone := Some (Fixed eastOfUtc).
(* src/muduo/base/TimeZone.cc:105-105 TimeZone::UTC *)
Definition UTC : TimeZone := fixedZone 0.
(* src/muduo/base/TimeZone.cc:107-107 TimeZone::China *)
Definition China : TimeZone := fixedZone (8 * 3600).

(** [locate_zone] gives nothing where the C++ function throws
    [std::runtime_error]. *)
(* src/muduo/base/TimeZone.cc:109-121 TimeZone::loadZone *)
Definition loadZone (zoneName : bytes) : TimeZone :=
  match zoneName with
  | [] => None
  | _ => Zone <$> locate_zone zoneName
  end.

(* src/muduo/base/TimeZone.cc:52-75 zoneFileToIanaName *)
Definition zoneFileToIanaName (zonefile : bytes) : bytes :=
  let kPrefix := str "/usr/share/zoneinfo/" in
  match zonefile with
  | [] => []
  | _ =>
    if bool_decide (kPrefix `prefix_of` zonefile) && (len kPrefix <? len zonefile)
    then drop (length kPrefix) zonefile
    else match read_symlink zonefile with
      | Some target =>
          if bool_decide (kPrefix `prefix_of` target) && (len kPrefix <? len target)
          then drop (length kPrefix) target else []
      | None => []
      end
  end.

(* src/muduo/base/TimeZone.cc:129-131 TimeZone::loadZoneFile *)
Definition loadZoneFile (zonefile : bytes) : TimeZone := loadZone (zoneFileToIanaName zonefile).

(** [has_result] is [result != nullptr]; the values are the local time and the
    offset from UTC. *)
(* src/muduo/base/TimeZone.cc:151-174 TimeZone::tryToLocalTime *)
Definition tryToLocalTime (tz : TimeZone) (secondsSinceEpoch : Z) (has_result : bool) : option (DateTime * Z) :=
  if negb (valid tz) || negb has_result then None else
  match tz with
  | Some (Fixed eastOfUtc) => Some (breakTime (secondsSinceEpoch + eastOfUtc), eastOfUtc)
  | Some (Zone z) =>
      let offset := sys_offset z secondsSinceEpoch in
      Some (breakTime (secondsSinceEpoch + offset), swrap 32 offset)
  | None => None
  end.

(* src/muduo/base/TimeZone.cc:176-199 TimeZone::tryFromLocalTime *)
Definition tryFromLocalTime (tz : TimeZone) (local : DateTime) (has_result postTransition : bool) : option Z :=
  if negb (valid tz) || negb has_result then None else
  let localTp := fromUtcTime local in
  match tz with
  | Some (Fixed eastOfUtc) => Some (localTp - eastOfUtc)
  | Some (Zone z) =>
      match pickInfoNoThrow (local_offset z localTp) postTransition with
      | Some offset => Some (localTp - offset)
      | None => None
      end
  | None => None
  end.

(** An exception ([std::runtime_error]) instead of a value. *)
Inductive thrown : Set := RuntimeError.

(* src/muduo/base/TimeZone.cc:133-140 TimeZone::toLocalTime *)
Definition toLocalTime (tz : TimeZone) (secondsSinceEpoch : Z) : (DateTime * Z) + thrown :=
  match tryToLocalTime tz secondsSinceEpoch true with Some r => inl r | None => inr RuntimeError end.

(* src/muduo/base/TimeZone.cc:142-149 TimeZone::fromLocalTime *)
Definition fromLocalTime (tz : TimeZone) (local : DateTime) (postTransition : bool) : Z + thrown :=
  match tryFromLocalTime tz local true postTransition with Some r => inl r | None => inr RuntimeError end.

(** The seconds at which the years of [std::chrono] begin and end. *)
Definition chrono_seconds (t : Z) : Prop :=
  days_from_civil (-32767) 1 1 ≤ t / 86400 ≤ days_from_civil 32767 12 31.

(** [zone::get_info] on local times: the local time of an instant exists, and
    its entry (or one of its two entries) has the offset of that instant. *)
Definition zone_law : Prop := ∀ z t,
  let offset := sys_offset z t in
  let info := local_offset z (t + offset) in
  match result info with
  | unique => first info = offset
  | nonexistent => False
  | ambiguous => first info = offset ∨ second_ info = offset
  end.

(** *** Lemmas *)

Lemma sys_days_ok y m d : ymd_ok y m d = true → sys_days y m d = days_from_civil y m d.
Proof using Type.
  clear locate_zone sys_offset local_offset read_symlink. intros H. unfold sys_days. assert (ymd_ok y m 1 = true) as ->.
  { unfold ymd_ok in *. repeat (apply andb_true_iff in H as [H ?]). repeat (apply andb_true_iff; split); try done.
    apply Z.leb_le. unfold month_length. repeat case_match; lia. }
  unfold days_from_civil. lia.
Qed.


Lemma break_ok t : chrono_seconds t → datetime_ok (breakTime t) ∧ fromUtcTime (breakTime t) = t.
Proof using Type.
  clear locate_zone sys_offset local_offset read_symlink. intros Ht.
  pose proof (civil_from_days_ok (t / 86400)) as H. unfold breakTime.
  destruct (civil_from_days (t / 86400)) as [[y m] d] eqn:E. destruct H as (Hm & Hd & Hz).
  assert (-32767 ≤ y ≤ 32767) as Hy.
  { apply (year_in_range y m d); [done|done|]. by rewrite Hz. }
  assert (d ≤ 31) as Hd31 by (unfold month_length in Hd; repeat case_match; lia).
  assert (ymd_ok y m d = true) as Hok.
  { unfold ymd_ok. repeat (apply andb_true_iff; split); apply Z.leb_le; lia. }
  split.
  - split; [exact Hok|]. cbn. lia.
  - unfold fromUtcTime. cbn [year month day hour minute second].
    rewrite (swrap_id 16) by (unfold in_signed; change (2 ^ (16 - 1)) with 32768; lia).
    rewrite (wrap_small 32 m), (wrap_small 32 d) by (change (2 ^ 32) with 4294967296; lia).
    rewrite (wrap_small 8 m), (wrap_small 8 d) by (change (2 ^ 8) with 256; lia).
    rewrite sys_days_ok, Hz by done. lia.
Qed.

Lemma from_utc_ok dt : datetime_ok dt → breakTime (fromUtcTime dt) = dt.
Proof using Type.
  clear locate_zone sys_offset local_offset read_symlink. destruct dt as [y m d h mi s].
  intros (Hok & Hh & Hmi & Hs). cbn in *. unfold fromUtcTime. cbn [year month day hour minute second].
  pose proof (month_bounds y m d Hok) as (Hm & Hd & _).
  assert (-32767 ≤ y ≤ 32767 ∧ d ≤ 31) as [Hy Hd31].
  { clear -Hok. unfold ymd_ok in Hok. repeat (apply andb_true_iff in Hok as [Hok ?]).
    repeat match goal with H : (_ <=? _) = true |- _ => apply Z.leb_le in H end.
    split; [lia|]. unfold month_length in *. repeat case_match; lia. }
  rewrite (swrap_id 16) by (unfold in_signed; change (2 ^ (16 - 1)) with 32768; lia).
  rewrite (wrap_small 32 m), (wrap_small 32 d) by (change (2 ^ 32) with 4294967296; lia).
  rewrite (wrap_small 8 m), (wrap_small 8 d) by (change (2 ^ 8) with 256; lia).
  rewrite sys_days_ok by done. unfold breakTime. set (n := days_from_civil y m d).
  set (x := n * 86400 + h * 3600 + mi * 60 + s). assert (x / 86400 = n) as -> by (subst x; lia).
  subst n. rewrite civil_days_inverse by done. cbv iota. f_equal; subst x; lia.
Qed.

(** C33. Breaking a time down is well typed and loses nothing. Every time in
    the range of [std::chrono] breaks into a date of the calendar and a time
    of the day, and [fromUtcTime] puts it back together; every well-formed
    [DateTime] survives the opposite trip. *)
Theorem utc_time_roundtrip t dt :
  chrono_seconds t → datetime_ok dt →
  datetime_ok (toUtcTime t) ∧ fromUtcTime (toUtcTime t) = t ∧ toUtcTime (fromUtcTime dt) = dt.
Proof using Type.
  intros Ht Hdt. destruct (break_ok t Ht) as [H1 H2]. split_and!; [done|done|by apply from_utc_ok].
Qed.

End TimeZone.

(** ** The theorems at a concrete input *)

Lemma utc_time_roundtrip_witness :
  datetime_ok (toUtcTime 1709210096) ∧ fromUtcTime (λ _ _ _, 0) (toUtcTime 1709210096) = 1709210096 ∧
  toUtcTime (fromUtcTime (λ _ _ _, 0) (mkDateTime 1969 12 31 23 59 59)) = mkDateTime 1969 12 31 23 59 59.
Proof.
  apply utc_time_roundtrip.
  - split; apply Z.leb_le; reflexivity.
  - split; [reflexivity|]. cbn. lia.
Defined.

(** A zone one hour east of Greenwich until the instant 1000, and at Greenwich
    from then on: the local times from 1000 to 4599 are ambiguous. *)
Definition sample_offset (_ : unit) (t : Z) : Z := if t <? 1000 then 3600 else 0.
Definition sample_local (_ : unit) (l : Z) : local_info :=
  if l <? 1000 then mkLocalInfo unique 3600 0
  else if l <? 4600 then mkLocalInfo ambiguous 3600 0 else mkLocalInfo unique 0 0.

Lemma sample_zone_law : zone_law sample_offset sample_local.
Proof.
  intros [] t. unfold sample_offset, sample_local. cbv zeta.
  destruct (Z.ltb_spec t 1000).
  - destruct (Z.ltb_spec (t + 3600) 1000); [done|]. destruct (Z.ltb_spec (t + 3600) 4600); [by left|lia].
  - rewrite Z.add_0_r. destruct (Z.ltb_spec t 1000); [lia|]. destruct (Z.ltb_spec t 4600); [by right|done].
Qed.

