(* ===== verification/TimestampFormat.v ===== *)
(** * TimestampFormat: times as text ([muduo/base/Timestamp.cc])

    [toFormattedString] prints the date and time of day in UTC;
    [read_formatted] reads it back. *)
From S2P Require Import Prelude Format Timestamp Calendar TimeZone.
From stdpp Require Import options.

#[local] Ltac Zify.zify_post_hook ::= Z.to_euclidean_division_equations.

(** [{:%Y%m%d %H:%M:%S}] of a time in seconds. *)
Definition format_seconds (t : Z) : bytes :=
  let dt := breakTime t in
  format_pad 4 (year dt) ++ format_pad 2 (month dt) ++ format_pad 2 (day dt) ++ str " " ++
  format_pad 2 (hour dt) ++ str ":" ++ format_pad 2 (minute dt) ++ str ":" ++ format_pad 2 (second dt).

(** [floor] to seconds, and the microseconds that remain. *)
(* src/muduo/base/Timestamp.cc:15-24 Timestamp::toFormattedString *)
Definition toFormattedString (showMicroseconds : bool) (t : Timestamp) : bytes :=
  let secTp := t / 1000000 in
  let us := t - secTp * 1000000 in
  format_seconds secTp ++ if showMicroseconds then str "." ++ format_pad 6 us else [].

(** ** Reading a time *)

Definition field_at (s : bytes) (pos n : nat) : Z := dec_value (take n (drop pos s)).
Definition read_formatted (s : bytes) : Timestamp :=
  fromUtcTime (λ _ _ _, 0) (mkDateTime (field_at s 0 4) (field_at s 4 2) (field_at s 6 2) (field_at s 9 2) (field_at s 12 2)
    (field_at s 15 2)) * 1000000 + field_at s 18 6.

Lemma field_here w n rest :
  (0 < w)%nat → 0 ≤ n < 10 ^ Z.of_nat w → field_at (format_pad w n ++ rest) 0 w = n.
Proof.
  intros Hw Hn. unfold field_at. rewrite drop_0. destruct (format_pad_spec w n Hw Hn) as (Hl & Hv & _).
  rewrite take_app_le, take_ge by lia. done.
Qed.

Lemma field_skip a s pos n : (length a ≤ pos)%nat → field_at (a ++ s) pos n = field_at s (pos - length a) n.
Proof. intros Ha. unfold field_at. by rewrite drop_app_ge. Qed.

(** A time in the years 0 to 9999 is read back as it was printed; without the
    microseconds, its second is. *)
Lemma formatted_roundtrip t :
  chrono_seconds (t / 1000000) → 0 ≤ year (toUtcTime (t / 1000000)) ≤ 9999 →
  read_formatted (toFormattedString true t) = t ∧
  toFormattedString true t = toFormattedString false t ++ str "." ++ format_pad 6 (t mod 1000000) ∧
  length (toFormattedString true t) = 24%nat.
Proof.
  set (s := t / 1000000). intros Hc Hy. unfold toUtcTime in Hy.
  pose proof (break_ok (λ _ _ _, 0) s Hc) as [(Hymd & Hh & Hmi & Hs) Hback].
  assert (1 ≤ month (breakTime s) ≤ 12 ∧ 1 ≤ day (breakTime s) ≤ 31) as [Hm Hd].
  { unfold ymd_ok, month_length in Hymd. repeat (apply andb_true_iff in Hymd as [Hymd ?]).
    repeat match goal with H : (_ <=? _) = true |- _ => apply Z.leb_le in H end. repeat case_match; lia. }
  unfold toFormattedString, read_formatted, format_seconds. fold s.
  replace (t - s * 1000000) with (t mod 1000000) by (subst s; lia).
  pose proof (Z.mod_pos_bound t 1000000 ltac:(lia)) as Hu.
  assert (t = s * 1000000 + t mod 1000000) as Ht by (subst s; lia).
  destruct (breakTime s) as [y mo d h mi sec] eqn:E. cbn [year month day hour minute second] in *.
  destruct (format_pad_spec 4 y) as (Ly & _); [lia|cbn; lia|]. destruct (format_pad_spec 2 mo) as (Lmo & _); [lia|cbn; lia|].
  destruct (format_pad_spec 2 d) as (Ld & _); [lia|cbn; lia|]. destruct (format_pad_spec 2 h) as (Lh & _); [lia|cbn; lia|].
  destruct (format_pad_spec 2 mi) as (Lmi & _); [lia|cbn; lia|]. destruct (format_pad_spec 2 sec) as (Lsec & _); [lia|cbn; lia|].
  destruct (format_pad_spec 6 (t mod 1000000)) as (Lus & _); [lia|cbn; lia|].
  split; [|split; [by rewrite app_nil_r|rewrite !length_app, Ly, Lmo, Ld, Lh, Lmi, Lsec, Lus; done]].
  repeat rewrite <- app_assoc.
  rewrite <- (app_nil_r (format_pad 6 _)).
  repeat first [rewrite field_here by (cbn; lia)
               |rewrite field_skip by (rewrite ?Ly, ?Lmo, ?Ld, ?Lh, ?Lmi, ?Lsec; cbn; lia);
                rewrite ?Ly, ?Lmo, ?Ld, ?Lh, ?Lmi, ?Lsec;
                change (length (str _)) with 1%nat; cbn [Nat.sub]].
  rewrite Hback. lia.
Qed.

