(* ===== verification/ProcessInspector.v ===== *)
(** * ProcessInspector: the inspector's pages ([muduo/net/inspect/ProcessInspector.cc],
    [SystemInspector.cc], [PerformanceInspector.cc])

    A page is a text made of the system's figures. Floating point appears only
    in the printing of quotients: [mib] is [{:.3f}] of a number of KiB divided
    by 1024, [secs] is [{:12.3f}] of a number of clock ticks divided by their
    rate. *)
From S2P Require Import Prelude Format Timestamp TimeZone TimestampFormat ProcessInfo.
From stdpp Require Import sorting.
#[local] Open Scope Z_scope.
From stdpp Require Import options.

(** ** Picking figures out of a text *)

(** [int] and its division, which truncates. *)
(* src/muduo/net/inspect/ProcessInspector.cc:12-27 uptime *)
Definition uptime (now start : Timestamp) (showMicroseconds : bool) : bytes :=
  let age := microSecondsSinceEpoch now - microSecondsSinceEpoch start in
  let seconds := swrap 32 (Z.quot age kMicroSecondsPerSecond) in
  let days := Z.quot seconds 86400 in
  let hours := Z.quot (Z.rem seconds 86400) 3600 in
  let minutes := Z.quot (Z.rem seconds 3600) 60 in
  let hms := format_int days ++ str " days " ++ format_pad 2 hours ++ str ":" ++ format_pad 2 minutes ++ str ":" ++
             format_pad 2 (Z.rem seconds 60) in
  if showMicroseconds then hms ++ str "." ++ format_pad 6 (Z.rem age kMicroSecondsPerSecond) else hms.

Fixpoint skip_blanks (s : bytes) : bytes :=
  match s with
  | b :: s' => if bool_decide (b = Byte.x20 ∨ b = Byte.x09) then skip_blanks s' else s
  | [] => []
  end.

(** The blanks end at the zero behind the string at the latest. *)
(* src/muduo/net/inspect/ProcessInspector.cc:29-46 getLong *)
Definition getLong (content key : bytes) : Z :=
  match find_sub key content with
  | None => 0
  | Some pos =>
    match from_chars 64 (skip_blanks (drop (pos + length key) content)) with
    | Some (result, _) => result
    | None => 0
    end
  end.

(* src/muduo/net/inspect/ProcessInspector.cc:48-55 nextField *)
Definition nextField (data : bytes) : bytes :=
  match find_byte Byte.x20 data with
  | Some pos => if (length data <=? pos + 1)%nat then [] else drop (pos + 1) data
  | None => []
  end.

(** Ten fields on, or nothing. *)
Fixpoint skip_fields (n : nat) (data : bytes) : option bytes :=
  match n with
  | O => Some data
  | S n => match nextField data with [] => None | data => skip_fields n data end
  end.

(** The user's and the system's time, in ticks. *)
(* src/muduo/net/inspect/ProcessInspector.cc:57-88 getCpuTime *)
Definition getCpuTime (data : bytes) : Z * Z :=
  match skip_fields 10 data with
  | None => (0, 0)
  | Some data =>
    match from_chars 64 data with
    | None => (0, 0)
    | Some (utime, _) =>
      match nextField data with
      | [] => (0, 0)
      | data => match from_chars 64 data with Some (stime, _) => (utime, stime) | None => (0, 0) end
      end
    end
  end.

(** ** The pages *)

(** [{:<w}] of a string. *)
Definition right_pad (w : nat) (s : bytes) : bytes := s ++ replicate (w - length s) Byte.x20.
Definition newline : bytes := [Byte.x0a].

Section Pages.
Context (mib secs : Z → bytes).
(** The system, the time, the answer of [::uname] (nodename, machine, sysname,
    release, version), and whether [NDEBUG] is set. *)
Context (s : system) (now : Timestamp) (uname : option (bytes * bytes * bytes * bytes * bytes)) (ndebug : bool).

(* src/muduo/base/ProcessInfo.cc:87-93 ProcessInfo::isDebugBuild *)
Definition isDebugBuild : bool := negb ndebug.

(* src/muduo/net/inspect/ProcessInspector.cc:105-144 ProcessInspector::overview *)
Definition process_overview : bytes :=
  let startedAt := startTime s in
  let procStatusText := procStatus s in
  str "Page generated at " ++ toFormattedString true now ++ str " (UTC)" ++ newline ++
  str "Started at " ++ toFormattedString true startedAt ++ str " (UTC), up for " ++ uptime now startedAt true ++ newline ++
  procname procStatusText ++ str " (" ++ exePath s ++ str ") running as " ++ username s ++ str " on " ++ hostname s ++ newline ++
  (if isDebugBuild then str "WARNING: debug build!" ++ newline else []) ++
  str "pid " ++ format_int (pid s) ++ str ", num of threads " ++ format_int (getLong procStatusText (str "Threads:")) ++
  str ", bits " ++ format_int (8 * 8) ++ newline ++
  str "Virtual memory: " ++ mib (getLong procStatusText (str "VmSize:")) ++ str " MiB, RSS memory: " ++
  mib (getLong procStatusText (str "VmRSS:")) ++ str " MiB" ++ newline ++
  str "Opened files: " ++ format_int (openedFiles s) ++ str ", limit: " ++ format_int (maxOpenFiles s) ++ newline ++
  str "User time: " ++ secs (cpuTime s).1 ++ str "s" ++ newline ++ str "Sys time:  " ++ secs (cpuTime s).2 ++ str "s" ++ newline.

(* src/muduo/net/inspect/ProcessInspector.cc:146-148 ProcessInspector::pid *)
Definition process_pid : bytes := pidString s.
(* src/muduo/net/inspect/ProcessInspector.cc:150-153 ProcessInspector::procStatus *)
Definition process_status : bytes := procStatus s.
(* src/muduo/net/inspect/ProcessInspector.cc:155-158 ProcessInspector::openedFiles *)
Definition process_openedFiles : bytes := format_int (openedFiles s).

(** One thread's line; [remove_prefix] beyond the end is undefined. *)
Definition thread_row (tid : Z) : outcome bytes :=
  let filename := str "/proc/" ++ format_int (pid s) ++ str "/task/" ++ format_int tid ++ str "/stat" in
  let '(err, stat) := readFile s filename 65536 in
  if negb (err =? 0) then Ok []
  else
    let name := procname stat in
    match rfind_byte Byte.x29 stat with
    | None => Ok []
    | Some rightParen =>
      match stat !! (rightParen + 2)%nat with
      | None => Ok []
      | Some state =>
        if (length stat <? rightParen + 4)%nat then Fault OutOfBounds
        else
          let cpu := getCpuTime (drop (rightParen + 4) stat) in
          let shown := take 16 name in
          Ok (space_pad 5 (format_int tid) ++ str " " ++ right_pad 16 shown ++ str " " ++ [state] ++ str " " ++
              secs cpu.1 ++ str " " ++ secs cpu.2 ++ newline)
      end
    end.

Fixpoint thread_rows (tids : list Z) : outcome bytes :=
  match tids with
  | [] => Ok []
  | tid :: tids => let! row := thread_row tid in let! rows := thread_rows tids in Ok (row ++ rows)
  end.

(* src/muduo/net/inspect/ProcessInspector.cc:160-193 ProcessInspector::threads *)
Definition process_threads : outcome bytes :=
  let! rows := thread_rows (threads s) in
  Ok (str "  TID NAME             S    User Time  System Time" ++ newline ++ rows).

(** The pages of one file. *)
Definition file_page (path : string) : bytes := (readFile s (str path) 65536).2.
(* src/muduo/net/inspect/SystemInspector.cc:22-26 SystemInspector::loadavg *)
Definition system_loadavg : bytes := file_page "/proc/loadavg".
(* src/muduo/net/inspect/SystemInspector.cc:28-32 SystemInspector::version *)
Definition system_version : bytes := file_page "/proc/version".
(* src/muduo/net/inspect/SystemInspector.cc:34-38 SystemInspector::cpuinfo *)
Definition system_cpuinfo : bytes := file_page "/proc/cpuinfo".
(* src/muduo/net/inspect/SystemInspector.cc:40-44 SystemInspector::meminfo *)
Definition system_meminfo : bytes := file_page "/proc/meminfo".
(* src/muduo/net/inspect/SystemInspector.cc:46-50 SystemInspector::stat *)
Definition system_stat : bytes := file_page "/proc/stat".

(** A line of the memory figures, in [{:6}]. *)
Definition mem_line (title : string) (kb : Z) : bytes :=
  str title ++ space_pad 6 (format_int (Z.quot kb 1024)) ++ str " MiB" ++ newline.

(** [long] arithmetic is in range for the kernel's figures. *)
(* src/muduo/net/inspect/SystemInspector.cc:52-104 SystemInspector::overview *)
Definition system_overview : bytes :=
  let statText := file_page "/proc/stat" in
  let bootTime := kMicroSecondsPerSecond * getLong statText (str "btime ") in
  let meminfoText := file_page "/proc/meminfo" in
  let totalKb := getLong meminfoText (str "MemTotal:") in
  let freeKb := getLong meminfoText (str "MemFree:") in
  let buffersKb := getLong meminfoText (str "Buffers:") in
  let cachedKb := getLong meminfoText (str "Cached:") in
  str "Page generated at " ++ toFormattedString true now ++ str " (UTC)" ++ newline ++
  match uname with
  | Some (nodename, machine, sysname, release, version) =>
    str "Hostname: " ++ nodename ++ newline ++ str "Machine: " ++ machine ++ newline ++
    str "OS: " ++ sysname ++ str " " ++ release ++ str " " ++ version ++ newline
  | None => []
  end ++
  str "Boot time: " ++ toFormattedString false bootTime ++ str " (UTC)" ++ newline ++
  str "Up time: " ++ uptime now bootTime false ++ newline ++
  str "Processes created: " ++ format_int (getLong statText (str "processes ")) ++ newline ++
  str "Loadavg: " ++ file_page "/proc/loadavg" ++ newline ++
  mem_line "Total Memory: " totalKb ++ mem_line "Free Memory:  " freeKb ++ mem_line "Buffers:      " buffersKb ++
  mem_line "Cached:       " cachedKb ++ mem_line "Real Used:    " (totalKb - freeKb - buffersKb - cachedKb) ++
  mem_line "Real Free:    " (freeKb + buffersKb + cachedKb).
End Pages.

(** ** The figures are the kernel's *)

Lemma skip_blanks_app blanks s :
  Forall (λ b, b = Byte.x20 ∨ b = Byte.x09) blanks → (∀ b, head s = Some b → isspace b = false) →
  skip_blanks (blanks ++ s) = s.
Proof.
  intros Hb Hs. induction Hb as [|b blanks Hb _ IH]; cbn [app skip_blanks]; [|by rewrite bool_decide_true].
  destruct s as [|b s]; [done|]. cbn. rewrite bool_decide_false; [done|].
  intros [->| ->]; by specialize (Hs _ eq_refl).
Qed.

Lemma head_app_int z rest b : head (format_int z ++ rest) = Some b → isspace b = false.
Proof.
  intros H. apply (int_head_not_space z). pose proof (format_int_nonempty z). by destruct (format_int z).
Qed.

(** The first occurrence of the key decides. *)
Lemma getLong_int before key blanks z rest :
  find_sub key (before ++ key ++ blanks ++ format_int z ++ rest) = Some (length before) →
  Forall (λ b, b = Byte.x20 ∨ b = Byte.x09) blanks → in_signed 64 z → (∀ b, head rest = Some b → is_digit b = false) →
  getLong (before ++ key ++ blanks ++ format_int z ++ rest) key = z.
Proof.
  intros Hf Hb Hz Hr. unfold getLong. rewrite Hf, app_assoc, <- length_app, drop_app_length.
  rewrite skip_blanks_app by (try apply head_app_int; done). by rewrite from_chars_int.
Qed.

Lemma nextField_app f rest : Byte.x20 ∉ f → rest ≠ [] → nextField (f ++ Byte.x20 :: rest) = rest.
Proof.
  intros Hf Hr. unfold nextField. rewrite find_byte_app by done. rewrite length_app. cbn [length].
  destruct rest as [|b rest]; [done|]. cbn [length]. rewrite (proj2 (Nat.leb_gt _ _)) by lia.
  rewrite cons_middle, app_assoc, drop_app_length'; [done|]. rewrite length_app. done.
Qed.

(** Fields with a space behind each. *)
Definition spaced (fields : list bytes) : bytes := mjoin ((λ f, f ++ [Byte.x20]) <$> fields).

Lemma skip_fields_app fields rest :
  Forall (λ f, Byte.x20 ∉ f) fields → rest ≠ [] → skip_fields (length fields) (spaced fields ++ rest) = Some rest.
Proof.
  intros Hf Hr. induction Hf as [|f fields Hf _ IH]; [done|]. cbn [length skip_fields].
  assert (spaced (f :: fields) ++ rest = f ++ Byte.x20 :: (spaced fields ++ rest)) as ->
    by (unfold spaced; cbn; by rewrite <- !app_assoc).
  assert (spaced fields ++ rest ≠ []) as Hn by (intros [_ ?]%app_eq_nil; done).
  rewrite nextField_app by done. by destruct (spaced fields ++ rest).
Qed.

Lemma int_not_in z c : is_digit c = false → c ≠ Byte.x2d → c ∉ format_int z.
Proof.
  intros Hc Hm. assert (∀ n, 0 ≤ n → c ∉ format_nat n) as Hn.
  { intros n Hn Hin. pose proof (format_nat_digits n Hn) as Hd. rewrite Forall_forall in Hd. apply Hd in Hin. congruence. }
  unfold format_int. destruct (Z.ltb_spec z 0); [|by apply Hn]. rewrite not_elem_of_cons. split; [done|]. apply Hn. lia.
Qed.

Lemma getCpuTime_fields fields utime stime rest :
  length fields = 10%nat → Forall (λ f, Byte.x20 ∉ f) fields → in_signed 64 utime → in_signed 64 stime →
  (∀ b, head rest = Some b → is_digit b = false) →
  getCpuTime (spaced fields ++ format_int utime ++ Byte.x20 :: format_int stime ++ rest) = (utime, stime).
Proof.
  intros Hl Hf Hu Hs Hr. unfold getCpuTime. rewrite <- Hl.
  rewrite skip_fields_app by (try done; intros [? _]%app_eq_nil; by apply (format_int_nonempty utime)).
  rewrite from_chars_int by (done || by intros b [= <-]).
  assert (format_int stime ++ rest ≠ []) as Hn by (intros [? _]%app_eq_nil; by apply (format_int_nonempty stime)).
  rewrite nextField_app by (try done; by apply int_not_in).
  pose proof (from_chars_int 64 stime rest Hs Hr) as E. destruct (format_int stime ++ rest); [done|]. by rewrite E.
Qed.

(** A thread's line in /proc, as the kernel writes it. *)
Definition print_stat (tid : Z) (name : bytes) (state : byte) (fields : list bytes) (utime stime : Z) (rest : bytes) : bytes :=
  format_int tid ++ str " (" ++ name ++ str ") " ++ [state] ++ str " " ++
  spaced fields ++ format_int utime ++ Byte.x20 :: format_int stime ++ rest.

Lemma thread_row_ok secs s tid name state fields utime stime rest :
  readFile s (str "/proc/" ++ format_int (pid s) ++ str "/task/" ++ format_int tid ++ str "/stat") 65536 =
    (0, print_stat tid name state fields utime stime rest) →
  length fields = 10%nat → Forall (λ f, Byte.x20 ∉ f ∧ Byte.x29 ∉ f) fields → in_signed 64 utime → in_signed 64 stime →
  (∀ b, head rest = Some b → is_digit b = false) → Byte.x29 ∉ rest → state ≠ Byte.x29 →
  thread_row secs s tid =
  Ok (space_pad 5 (format_int tid) ++ str " " ++ right_pad 16 (take 16 name) ++ str " " ++ [state] ++ str " " ++
      secs utime ++ str " " ++ secs stime ++ newline).
Proof.
  intros Hf Hl Hfs Hu Hs Hr Hp Hst. unfold thread_row. rewrite Hf. cbn [Z.eqb negb].
  set (tail := spaced fields ++ format_int utime ++ Byte.x20 :: format_int stime ++ rest).
  set (line := print_stat tid name state fields utime stime rest).
  assert (Byte.x29 ∉ tail) as Ht.
  { unfold tail. rewrite !not_elem_of_app, not_elem_of_cons, not_elem_of_app. split_and!; try done; try by apply int_not_in.
    clear -Hfs. induction Hfs as [|f fields [_ Hf] _ IH]; [by apply not_elem_of_nil|].
    unfold spaced. cbn. rewrite !not_elem_of_app. split_and!; [done|by rewrite list_elem_of_singleton|exact IH]. }
  assert (line = (format_int tid ++ [Byte.x20]) ++ Byte.x28 :: name ++ Byte.x29 :: (Byte.x20 :: state :: Byte.x20 :: tail)) as E1
    by (unfold line, print_stat, tail; by rewrite <- app_assoc).
  assert (Byte.x29 ∉ Byte.x20 :: state :: Byte.x20 :: tail) as Ht2 by (rewrite !not_elem_of_cons; done).
  assert (procname line = name) as ->.
  { rewrite E1. apply procname_between; [|done]. rewrite not_elem_of_app, list_elem_of_singleton. split; [by apply int_not_in|done]. }
  set (p := (format_int tid ++ [Byte.x20]) ++ Byte.x28 :: name).
  assert (line = p ++ Byte.x29 :: Byte.x20 :: state :: Byte.x20 :: tail) as -> by (unfold p; rewrite E1, <- (app_assoc (format_int tid ++ [Byte.x20])); done).
  rewrite rfind_byte_app by done. rewrite lookup_app_r by lia.
  replace (length p + 2 - length p)%nat with 2%nat by lia. cbn [lookup list_lookup].
  rewrite (proj2 (Nat.ltb_ge _ _)) by (rewrite length_app; cbn; lia).
  rewrite drop_app_ge by lia. replace (length p + 4 - length p)%nat with 4%nat by lia. cbn [drop]. rewrite drop_0. unfold tail.
  rewrite getCpuTime_fields by first [done|eapply Forall_impl; [exact Hfs|naive_solver]]. done.
Qed.

(** A thread and its line in /proc. *)
Record thread_info := mkInfo {
  i_tid : Z; i_name : bytes; i_state : byte; i_fields : list bytes; i_utime : Z; i_stime : Z; i_rest : bytes
}.
Record info_ok (s : system) (i : thread_info) : Prop := mkInfoOk {
  io_tid : 0 < i_tid i < 2 ^ 31;
  io_file : readFile s (str "/proc/" ++ format_int (pid s) ++ str "/task/" ++ format_int (i_tid i) ++ str "/stat") 65536 =
    (0, print_stat (i_tid i) (i_name i) (i_state i) (i_fields i) (i_utime i) (i_stime i) (i_rest i));
  io_fields : length (i_fields i) = 10%nat;
  io_clean : Forall (λ f, Byte.x20 ∉ f ∧ Byte.x29 ∉ f) (i_fields i);
  io_times : in_signed 64 (i_utime i) ∧ in_signed 64 (i_stime i);
  io_rest : (∀ b, head (i_rest i) = Some b → is_digit b = false) ∧ Byte.x29 ∉ i_rest i;
  io_state : i_state i ≠ Byte.x29
}.
Definition info_row (secs : Z → bytes) (i : thread_info) : bytes :=
  space_pad 5 (format_int (i_tid i)) ++ str " " ++ right_pad 16 (take 16 (i_name i)) ++ str " " ++ [i_state i] ++ str " " ++
  secs (i_utime i) ++ str " " ++ secs (i_stime i) ++ newline.

Lemma sorted_lt_le (l : list Z) : Sorted Z.lt l → Sorted Z.le l.
Proof. induction 1 as [|x l _ IH Hh]; constructor; [done|]. destruct Hh; constructor; lia. Qed.

(** The page of threads says what the kernel says. Whatever order the
    directory of the tasks is listed in and whatever else it holds, the page
    has one line for each thread, in the order of their ids, with its id, its
    name as it is (parentheses and spaces included) cut to 16 bytes, its state
    and its two times; and nothing is read outside the texts. *)
Theorem thread_page secs s infos others :
  Forall (info_ok s) infos → Sorted Z.lt (i_tid <$> infos) →
  list_dir s (str "/proc/self/task") ≡ₚ (format_int <$> (i_tid <$> infos)) ++ others →
  Forall (λ name, isNumericName name = false) others →
  process_threads secs s =
  Ok (str "  TID NAME             S    User Time  System Time" ++ newline ++ mjoin (info_row secs <$> infos)).
Proof.
  intros Hi Hs Hd Ho. unfold process_threads. assert (threads s = i_tid <$> infos) as ->.
  { assert (Forall (λ t, 0 < t < 2 ^ 31) (i_tid <$> infos)) as Ht by (apply Forall_fmap; eapply Forall_impl; [exact Hi|by intros i []]).
    destruct (threads_listed s _ _ Hd Ht Ho) as [Hsort Hperm].
    apply (Sorted_unique Z.le); [done|by apply sorted_lt_le|done]. }
  clear Hs Hd Ho. assert (thread_rows secs s (i_tid <$> infos) = Ok (mjoin (info_row secs <$> infos))) as ->; [|done].
  induction Hi as [|i infos [H1 H2 H3 H4 [H5 H5'] [H6 H6'] H7] _ IH]; [done|]. cbn.
  rewrite (thread_row_ok secs s (i_tid i) _ _ _ _ _ _ H2 H3 H4 H5 H5' H6 H6' H7). cbn [obind].
  change (i_tid <$> infos) with (fmap i_tid infos) in IH. by rewrite IH.
Qed.

(** A process of two threads, one named ["a) (b"]. *)
Definition sample_fields : list bytes := str <$> ["1"; "2"; "2"; "0"; "-1"; "4"; "9"; "0"; "0"; "0"].
Definition sample_infos : list thread_info :=
  [mkInfo 42 (str "a) (b") Byte.x53 sample_fields 700 80 (str " 0 0"); mkInfo 43 (str "worker") Byte.x52 sample_fields 5 0 []].
Definition sample_procs : system :=
  mkSystem 42 0 0 42 None None None None None
    (λ p, if bool_decide (p = str "/proc/self/task") then [str "43"; str ".."; str "42"] else [])
    (λ p _, if bool_decide (p = str "/proc/42/task/42/stat")
            then (0, print_stat 42 (str "a) (b") Byte.x53 sample_fields 700 80 (str " 0 0"))
            else if bool_decide (p = str "/proc/42/task/43/stat")
            then (0, print_stat 43 (str "worker") Byte.x52 sample_fields 5 0 []) else (2, [])) 0.

Lemma thread_page_witness :
  process_threads format_int sample_procs =
    Ok (str "  TID NAME             S    User Time  System Time" ++ newline ++ mjoin (info_row format_int <$> sample_infos)) ∧
  mjoin (info_row format_int <$> sample_infos) =
    str "   42 a) (b            S 700 80" ++ newline ++ str "   43 worker           R 5 0" ++ newline.
Proof.
  split; [|by vm_compute]. apply (thread_page format_int sample_procs sample_infos [str ".."]).
  - assert (∀ (c : byte) (f : bytes), forallb (λ b, bool_decide (b ≠ c)) f = true → c ∉ f) as Hn.
    { intros c f H Hin. rewrite forallb_forall in H. apply list_elem_of_In in Hin. apply H in Hin.
      apply bool_decide_eq_true in Hin. done. }
    assert (Forall (λ f, Byte.x20 ∉ f ∧ Byte.x29 ∉ f) sample_fields) as Hf by (repeat constructor; apply Hn; by vm_compute).
    repeat constructor; cbn; try done; try lia; try (by intros b [= <-]); try (by vm_compute); apply Hn; by vm_compute.
  - repeat constructor.
  - change (list_dir sample_procs (str "/proc/self/task")) with [str "43"; str ".."; str "42"].
    change ((format_int <$> (i_tid <$> sample_infos)) ++ [str ".."]) with [str "42"; str "43"; str ".."]. solve_Permutation.
  - by repeat constructor.
Defined.

(** *** Uses that surprise *)

(** The overview looks for the name's parentheses in /proc/self/status, which
    has none: the name it prints is empty. *)
Lemma overview_has_no_name s : Byte.x28 ∉ procStatus s → procname (procStatus s) = [].
Proof. intros H. unfold procname. by rewrite (proj2 (find_byte_none _ _) H). Qed.

(** A line that ends behind the state makes [remove_prefix] go beyond it: the
    test is for two bytes behind the parenthesis, four are removed. *)
Lemma short_stat_out_of_bounds secs s tid :
  readFile s (str "/proc/" ++ format_int (pid s) ++ str "/task/" ++ format_int tid ++ str "/stat") 65536 = (0, str "7 (a) S") →
  thread_row secs s tid = Fault OutOfBounds.
Proof. intros H. unfold thread_row. rewrite H. done. Qed.
