(* ===== verification/Inspector.v ===== *)
(** * Inspector: pages over HTTP ([muduo/net/inspect/Inspector.cc])

    Modules of commands, each a callback and a line of help, kept in nested
    [std::map]s. [onRequest] is the callback of an [HttpServer] (the
    [httpCallback_] of [HttpServer.v]). The map operations are critical
    sections; a command's callback runs inside one, so a callback that calls
    [add] or [remove] would wait for itself. *)
From S2P Require Import Prelude StringMap Format HttpRequest HttpResponse ProcessInfo ProcessInspector.
From stdpp Require Import sorting.
#[local] Open Scope Z_scope.
From stdpp Require Import options.

(** A [std::function]; [None] is an empty one. *)
(* src/muduo/net/inspect/Inspector.h:24-24 Inspector::Callback *)
Definition Callback : Type := option (Method → list bytes → outcome bytes).

(* src/muduo/net/inspect/Inspector.h:51-53 Inspector *)
Record Inspector := mkInspector {
  modules_ : list (bytes * list (bytes * Callback));
  helps_ : list (bytes * list (bytes * bytes))
}.

(* src/muduo/net/inspect/Inspector.cc:27-36 splitPath *)
Definition splitPath (path : bytes) : list bytes := filter (λ part, part ≠ []) (split_at Byte.x2f path).

Section Nested.
Context {V : Type}.
Implicit Types (mods : list (bytes * list (bytes * V))).

(** [mods\[m\]\[c\] = v] *)
Definition assign2 (m c : bytes) (v : V) mods := map_assign m (map_assign c v (default [] (map_find m mods))) mods.
(** [it->second.erase(c)], when [m] is found. *)
Definition erase2 (m c : bytes) mods :=
  match map_find m mods with Some l => map_assign m (map_erase c l) mods | None => mods end.
Definition find2 (m c : bytes) mods : option V := map_find m mods ≫= map_find c.
End Nested.

(* src/muduo/net/inspect/Inspector.cc:67-72 Inspector::add *)
Definition add (moduleName command : bytes) (cb : Callback) (help : bytes) (i : Inspector) : Inspector :=
  mkInspector (assign2 moduleName command cb (modules_ i)) (assign2 moduleName command help (helps_ i)).

(* src/muduo/net/inspect/Inspector.cc:74-82 Inspector::remove *)
Definition remove (moduleName command : bytes) (i : Inspector) : Inspector :=
  mkInspector (erase2 moduleName command (modules_ i)) (erase2 moduleName command (helps_ i)).

(** The line of a command in the list of commands. *)
Definition help_line (moduleName command help : bytes) : bytes :=
  let n := len moduleName + len command in
  str "/" ++ moduleName ++ str "/" ++ command ++ replicate (Z.to_nat (if 25 <=? n then 1 else 25 - n)) Byte.x20 ++
  help ++ [Byte.x0a].

Definition help_text (helps : list (bytes * list (bytes * bytes))) : bytes :=
  foldl (λ result '(moduleName, helpList),
    foldl (λ result '(command, help), result ++ help_line moduleName command help) result helpList) [] helps.

Definition not_found (resp : HttpResponse) : HttpResponse :=
  setStatusMessage (str "Not Found") (setStatusCode k404NotFound resp).
Definition page (body : bytes) (resp : HttpResponse) : HttpResponse :=
  setBody body (setContentType (str "text/plain") (setStatusMessage (str "OK") (setStatusCode k200Ok resp))).

(* src/muduo/net/inspect/Inspector.cc:86-147 Inspector::onRequest *)
Definition onRequest (req : HttpRequest) (resp : HttpResponse) (i : Inspector) : outcome HttpResponse :=
  if bool_decide (path_ req = str "/") then Ok (page (help_text (helps_ i)) resp)
  else
    let parts := splitPath (path_ req) in
    if bool_decide (parts = [str "favicon.ico"]) then Ok (not_found resp)
    else
      match parts with
      | moduleName :: command :: args =>
        match map_find moduleName (modules_ i) with
        | Some commands =>
          match map_find command commands with
          | Some (Some callback) => let! body := callback (method_ req) args in Ok (page body resp)
          | _ => Ok (not_found resp)
          end
        | None => Ok (not_found resp)
        end
      | _ => Ok (not_found resp)
      end.

(** ** The commands of its own *)

Section Commands.
Context (mib secs : Z → bytes) (s : system) (now : Z) (uname : option (bytes * bytes * bytes * bytes * bytes)) (ndebug : bool).

(** A page that looks at neither the method nor the arguments. *)
Definition fixed_page (p : outcome bytes) : Callback := Some (λ _ _, p).

(* src/muduo/net/inspect/ProcessInspector.cc:96-103 ProcessInspector::registerCommands *)
Definition register_process (i : Inspector) : Inspector :=
  let i := add (str "proc") (str "overview") (fixed_page (Ok (process_overview mib secs s now ndebug))) (str "print basic overview") i in
  let i := add (str "proc") (str "pid") (fixed_page (Ok (process_pid s))) (str "print pid") i in
  let i := add (str "proc") (str "status") (fixed_page (Ok (process_status s))) (str "print /proc/self/status") i in
  add (str "proc") (str "threads") (fixed_page (process_threads secs s)) (str "list /proc/self/task") i.

(* src/muduo/net/inspect/SystemInspector.cc:13-20 SystemInspector::registerCommands *)
Definition register_system (i : Inspector) : Inspector :=
  let i := add (str "sys") (str "overview") (fixed_page (Ok (system_overview s now uname))) (str "print system overview") i in
  let i := add (str "sys") (str "loadavg") (fixed_page (Ok (system_loadavg s))) (str "print /proc/loadavg") i in
  let i := add (str "sys") (str "version") (fixed_page (Ok (system_version s))) (str "print /proc/version") i in
  let i := add (str "sys") (str "cpuinfo") (fixed_page (Ok (system_cpuinfo s))) (str "print /proc/cpuinfo") i in
  let i := add (str "sys") (str "meminfo") (fixed_page (Ok (system_meminfo s))) (str "print /proc/meminfo") i in
  add (str "sys") (str "stat") (fixed_page (Ok (system_stat s))) (str "print /proc/stat") i.

(** Built without tcmalloc. There is one inspector in a process; [slot] says
    whether there is one already. *)
(* src/muduo/net/inspect/Inspector.cc:40-60 Inspector::Inspector *)
Definition newInspector (isMainThread slot : bool) : outcome Inspector :=
  assert! isMainThread ;;
  assert! negb slot ;;
  Ok (register_system (register_process (mkInspector [] []))).
End Commands.

(** ** The nested maps *)

Section NestedFacts.
Context {V : Type}.
Implicit Types (mods : list (bytes * list (bytes * V))).

Definition sorted2 mods : Prop := Sorted key_lt mods ∧ Forall (λ p, Sorted key_lt p.2) mods.

Lemma found_sorted m l mods : sorted2 mods → map_find m mods = Some l → Sorted key_lt l.
Proof.
  intros [Hs Hf] Hl. apply map_find_elem in Hl; [|done]. rewrite Forall_forall in Hf. by apply Hf in Hl.
Qed.

Lemma assign_inner m l mods : Sorted key_lt l → sorted2 mods → sorted2 (map_assign m l mods).
Proof.
  intros Hl [Hs Hf]. split; [by apply map_assign_sorted|]. apply Forall_forall. intros [k l'] Hin.
  apply map_find_elem in Hin; [|by apply map_assign_sorted]. rewrite map_find_assign in Hin by done.
  case_bool_decide; [by injection Hin as <-|]. apply map_find_elem in Hin; [|done].
  rewrite Forall_forall in Hf. by apply Hf in Hin.
Qed.

Lemma default_sorted m mods : sorted2 mods → Sorted key_lt (default [] (map_find m mods)).
Proof. intros H. destruct (map_find m mods) eqn:E; [by eapply found_sorted|constructor]. Qed.

Lemma assign2_sorted m c v mods : sorted2 mods → sorted2 (assign2 m c v mods).
Proof. intros H. apply assign_inner; [|done]. by apply map_assign_sorted, default_sorted. Qed.

Lemma erase2_sorted m c mods : sorted2 mods → sorted2 (erase2 m c mods).
Proof.
  intros H. unfold erase2. destruct (map_find m mods) eqn:E; [|done]. apply assign_inner; [|done].
  apply map_erase_sorted. by eapply found_sorted.
Qed.

Lemma find2_assign2 m c v mods m' c' :
  sorted2 mods → find2 m' c' (assign2 m c v mods) = if bool_decide ((m, c) = (m', c')) then Some v else find2 m' c' mods.
Proof.
  intros H. unfold find2, assign2. rewrite map_find_assign by apply H. destruct (decide (m = m')) as [->|Hm].
  - rewrite bool_decide_true by done. cbn. rewrite map_find_assign by by apply default_sorted.
    destruct (decide (c = c')) as [->|Hc]; [by rewrite !bool_decide_true|].
    rewrite !bool_decide_false by congruence. by destruct (map_find m' mods).
  - by rewrite !bool_decide_false by congruence.
Qed.

Lemma find2_erase2 m c mods m' c' :
  sorted2 mods → find2 m' c' (erase2 m c mods) = if bool_decide ((m, c) = (m', c')) then None else find2 m' c' mods.
Proof.
  intros H. unfold find2, erase2. destruct (map_find m mods) as [l|] eqn:E.
  - rewrite map_find_assign by apply H. destruct (decide (m = m')) as [->|Hm].
    + rewrite bool_decide_true by done. cbn. rewrite map_find_erase by by eapply found_sorted. rewrite E. cbn.
      destruct (decide (c = c')) as [->|Hc]; [by rewrite !bool_decide_true|]. by rewrite !bool_decide_false by congruence.
    + by rewrite !bool_decide_false by congruence.
  - case_bool_decide as Eq; [|done]. injection Eq as <- <-. by rewrite E.
Qed.

(** The entries, in the order of the iteration. *)
Definition entries mods : list (bytes * bytes * V) := mods ≫= λ '(m, l), (λ '(c, v), (m, c, v)) <$> l.

Lemma entries_elem mods m c v : sorted2 mods → (m, c, v) ∈ entries mods ↔ find2 m c mods = Some v.
Proof.
  intros H. unfold entries, find2. rewrite list_elem_of_bind. split.
  - intros ([m' l] & Hin & Hm). apply list_elem_of_fmap in Hin as ([c' v'] & [= -> -> ->] & Hin).
    apply map_find_elem in Hm; [|apply H]. rewrite Hm. cbn. apply map_find_elem; [by eapply found_sorted|done].
  - destruct (map_find m mods) as [l|] eqn:E; [|done]. cbn. intros Hc. exists (m, l). split.
    + apply list_elem_of_fmap. exists (c, v). split; [done|]. apply map_find_elem; [by eapply found_sorted|done].
    + apply map_find_elem; [apply H|done].
Qed.

Definition entry_lt (a b : bytes * bytes * V) : Prop :=
  bytes_lt a.1.1 b.1.1 = true ∨ a.1.1 = b.1.1 ∧ bytes_lt a.1.2 b.1.2 = true.

Lemma entries_sorted mods : sorted2 mods → StronglySorted entry_lt (entries mods).
Proof.
  intros [Hs Hf]. apply Sorted_StronglySorted in Hs; [|apply _].
  induction Hs as [|[m l] mods Hs IH Hall]; [constructor|]. apply Forall_cons in Hf as [Hl Hf].
  unfold entries. cbn [mbind list_bind]. change (list_bind _ _ (λ '(m, l), (λ '(c, v), (m, c, v)) <$> l) mods) with (entries mods).
  apply StronglySorted_app_2; [| |by apply IH].
  - intros [[m1 c1] v1] [[m2 c2] v2] H1 H2. left. cbn.
    apply list_elem_of_fmap in H1 as ([c' v'] & [= -> -> ->] & _).
    unfold entries in H2. apply list_elem_of_bind in H2 as ([m' l'] & H2 & Hin).
    apply list_elem_of_fmap in H2 as ([? ?] & [= -> -> ->] & _). rewrite Forall_forall in Hall. exact (Hall _ Hin).
  - cbn in Hl. clear -Hl. apply Sorted_StronglySorted in Hl; [|apply _].
    induction Hl as [|[c v] l Hl IH Hc]; cbn; constructor; [done|]. apply Forall_fmap.
    eapply Forall_impl; [exact Hc|]. intros [c' v'] Hlt. by right.
Qed.
End NestedFacts.

Lemma help_text_lines helps : help_text helps = mjoin ((λ '(m, c, h), help_line m c h) <$> entries helps).
Proof.
  unfold help_text. change (mjoin (?f <$> entries helps)) with ([] ++ mjoin (f <$> entries helps)).
  generalize (@nil byte). induction helps as [|[m l] helps IH]; intros acc; [by rewrite app_nil_r|].
  cbn [foldl]. rewrite IH. unfold entries. cbn [mbind list_bind]. rewrite fmap_app, join_app, app_assoc. f_equal.
  clear IH. revert acc. induction l as [|[c h] l IH]; intros acc; [by rewrite app_nil_r|]. cbn [foldl]. rewrite IH.
  cbn. by rewrite <- app_assoc.
Qed.

(** ** What the inspector promises *)

(** The calls that change it. *)
Inductive op := OpAdd (m c : bytes) (cb : Callback) (help : bytes) | OpRemove (m c : bytes).
Definition exec (i : Inspector) (o : op) : Inspector :=
  match o with OpAdd m c cb help => add m c cb help i | OpRemove m c => remove m c i end.

(** The specification: one finite map from a module and a command. *)
Notation spec := (gmap (bytes * bytes) (Callback * bytes)).
Definition spec_exec (sp : spec) (o : op) : spec :=
  match o with OpAdd m c cb help => <[(m, c) := (cb, help)]> sp | OpRemove m c => delete (m, c) sp end.

Definition refines (i : Inspector) (sp : spec) : Prop :=
  sorted2 (modules_ i) ∧ sorted2 (helps_ i) ∧
  ∀ m c, find2 m c (modules_ i) = fst <$> sp !! (m, c) ∧ find2 m c (helps_ i) = snd <$> sp !! (m, c).

Lemma refines_exec i sp o : refines i sp → refines (exec i o) (spec_exec sp o).
Proof.
  intros (Hm & Hh & Hf). unfold refines. destruct o as [m c cb help|m c]; cbn [exec spec_exec add remove modules_ helps_].
  - split; [by apply assign2_sorted|]. split; [by apply assign2_sorted|]. intros m' c'.
    rewrite !find2_assign2 by done. destruct (Hf m' c') as [-> ->]. case_bool_decide as E.
    + rewrite E, lookup_insert_eq. done.
    + by rewrite lookup_insert_ne.
  - split; [by apply erase2_sorted|]. split; [by apply erase2_sorted|]. intros m' c'.
    rewrite !find2_erase2 by done. destruct (Hf m' c') as [-> ->]. case_bool_decide as E.
    + rewrite E, lookup_delete_eq. done.
    + by rewrite lookup_delete_ne.
Qed.

Lemma refines_run ops i sp : refines i sp → refines (foldl exec i ops) (foldl spec_exec sp ops).
Proof. revert i sp. induction ops as [|o ops IH]; intros i sp H; [done|]. cbn. by apply IH, refines_exec. Qed.

Lemma refines_empty : refines (mkInspector [] []) ∅.
Proof. split; [by repeat constructor|]. split; [by repeat constructor|]. intros m c. by rewrite lookup_empty. Qed.

(** A path of parts. *)
Definition print_path (parts : list bytes) : bytes := mjoin ((λ p, Byte.x2f :: p) <$> parts).
Definition part_ok (p : bytes) : Prop := p ≠ [] ∧ Byte.x2f ∉ p.

Lemma split_at_end c p : c ∉ p → split_at c p = [p].
Proof.
  induction p as [|b p IH]; intros Hn; [done|]. apply not_elem_of_cons in Hn as [H1 H2]. cbn.
  rewrite bool_decide_false by congruence. by rewrite IH.
Qed.

Lemma split_at_sep c s : split_at c (c :: s) = [] :: split_at c s.
Proof. cbn. by rewrite bool_decide_true. Qed.

Lemma splitPath_print parts : Forall part_ok parts → splitPath (print_path parts) = parts.
Proof.
  intros Hp. destruct parts as [|p parts]; [done|]. unfold splitPath, print_path. rewrite fmap_cons.
  cbn [mjoin list_join app]. rewrite split_at_sep, filter_cons_False by naive_solver. fold (mjoin (M := list) (A := byte)).
  revert p Hp. induction parts as [|q parts IH]; intros p Hp; apply Forall_cons in Hp as [[Hp1 Hp2] Hp].
  - cbn [fmap list_fmap mjoin list_join]. rewrite app_nil_r, split_at_end, filter_cons_True, filter_nil by done. done.
  - rewrite fmap_cons. cbn [mjoin list_join app].
    rewrite split_at_app, filter_cons_True by done. f_equal. by apply IH.
Qed.

(** The paths, for an inspector that holds the map [sp]. *)
Lemma refined_command i sp req resp m c args f help :
  refines i sp → path_ req = print_path (m :: c :: args) → Forall part_ok (m :: c :: args) →
  (sp !! (m, c) : option (Callback * bytes)) = Some (Some f, help) →
  onRequest req resp i = let! body := f (method_ req) args in Ok (page body resp).
Proof.
  intros (Hm & Hh & Hf) Hp Hok Hs. unfold onRequest. rewrite bool_decide_false.
  2: { rewrite Hp. apply Forall_cons in Hok as [[Hn _] _]. by destruct m. }
  rewrite Hp, splitPath_print by done. rewrite bool_decide_false by done.
  destruct (Hf m c) as [Hc _].
  rewrite Hs in Hc. unfold find2 in Hc. cbn in Hc.
  destruct (map_find m (modules_ i)) as [l|]; [|done]. cbn in Hc. by rewrite Hc.
Qed.

Lemma refined_missing i sp req resp :
  refines i sp → path_ req ≠ str "/" →
  match splitPath (path_ req) with m :: c :: _ => sp !! (m, c) ≫= fst = None | _ => True end →
  onRequest req resp i = Ok (not_found resp).
Proof.
  intros (Hm & Hh & Hf) Hp Hs. unfold onRequest. rewrite bool_decide_false by done. case_bool_decide; [done|].
  destruct (splitPath (path_ req)) as [|m [|c args]]; [done|done|].
  destruct (Hf m c) as [Hc _]. unfold find2 in Hc. destruct (map_find m (modules_ i)) as [l|]; [|done]. cbn in Hc.
  rewrite Hc. destruct (sp !! (m, c)) as [[[cb|] h]|]; [done|done|done].
Qed.

(** The inspector is a map of commands. After any calls of [add] and
    [remove], the page at ["/"] lists exactly the commands the calls leave,
    each once, in the order of module and command, with its help; the path of
    a command, followed by any arguments, calls that command's callback with
    the method and these arguments and answers with its text; every other
    path, and a command whose callback is empty, is answered with 404. *)
Theorem inspector_refines ops req resp :
  let i := foldl exec (mkInspector [] []) ops in
  let sp := foldl spec_exec ∅ ops in
  (path_ req = str "/" →
     ∃ lines, onRequest req resp i = Ok (page (mjoin ((λ '(m, c, h), help_line m c h) <$> lines)) resp) ∧
       StronglySorted entry_lt lines ∧ ∀ m c h, (m, c, h) ∈ lines ↔ ∃ cb, sp !! (m, c) = Some (cb, h)) ∧
  (∀ m c args f help, path_ req = print_path (m :: c :: args) → Forall part_ok (m :: c :: args) →
     (sp !! (m, c) : option (Callback * bytes)) = Some (Some f, help) →
     onRequest req resp i = let! body := f (method_ req) args in Ok (page body resp)) ∧
  (path_ req ≠ str "/" →
     match splitPath (path_ req) with m :: c :: _ => sp !! (m, c) ≫= fst = None | _ => True end →
     onRequest req resp i = Ok (not_found resp)).
Proof.
  intros i sp. assert (refines i sp) as Hr by apply refines_run, refines_empty. split_and!.
  - intros Hp. destruct Hr as (Hm & Hh & Hf). unfold onRequest. rewrite bool_decide_true by done.
    exists (entries (helps_ i)). rewrite help_text_lines. split; [done|].
    split; [by apply entries_sorted|]. intros m c h. rewrite entries_elem by done. destruct (Hf m c) as [_ ->].
    destruct (sp !! (m, c)) as [[cb h']|]; cbn; naive_solver.
  - intros m c args f help. by apply refined_command.
  - by apply refined_missing.
Qed.

Lemma inspector_refines_witness :
  let f : Method → list bytes → outcome bytes := λ _ args, Ok (mjoin args) in
  let args_cb : Callback := Some f in
  let ops := [OpAdd (str "proc") (str "old") args_cb (str "gone"); OpAdd (str "app") (str "echo") args_cb (str "say it");
              OpAdd (str "app") (str "none") None (str "empty"); OpRemove (str "proc") (str "old")] in
  let i := foldl exec (mkInspector [] []) ops in
  let req p := mkHttpRequest kGet kHttp11 p [] 0 ∅ in
  onRequest (req (str "/app/echo/a/b")) (newResponse true) i =
    Ok (page (str "ab") (newResponse true)).
Proof.
  intros f args_cb ops i req. destruct (inspector_refines ops (req (str "/app/echo/a/b")) (newResponse true)) as (_ & H & _).
  refine (H (str "app") (str "echo") [str "a"; str "b"] f (str "say it") _ _ _); [reflexivity| |vm_compute; reflexivity].
  repeat constructor; try discriminate; apply (bool_decide_unpack _); vm_compute; exact I.
Defined.
