(* ===== verification/InspectorServer.v ===== *)
(** * InspectorServer: the inspector behind its HTTP server
    ([muduo/net/inspect/Inspector.cc], [muduo/net/http/HttpServer.cc])

    [Inspector] installs [onRequest] as the callback of an [HttpServer].
    Reads of one connection alternate with calls of [add] and [remove] from
    other threads; each is a step. The theorem speaks of the bytes on the
    connection and of the map of commands. *)
From S2P Require Import Prelude Buffer HttpRequest HttpContext HttpResponse TcpConnection Connection HttpServer Inspector.
From stdpp Require Import options.

(** What [HttpServer::onRequest] calls, for callbacks that return. *)
(* src/muduo/net/inspect/Inspector.cc:49-50 Inspector::Inspector, the HTTP callback *)
Definition inspector_callback (i : Inspector) (req : HttpRequest) (resp : HttpResponse) : HttpResponse :=
  let resp := newResponse (closeConnection resp) in
  match Inspector.onRequest req resp i with Ok r => r | Fault _ => resp end.

(** A read of the connection, or a change of the inspector by another thread. *)
Inductive visit := VRead (t : Z) (d : bytes) | VChange (o : Inspector.op).

Definition changes (vs : list visit) : list Inspector.op := omap (λ v, match v with VChange o => Some o | _ => None end) vs.
Definition reads (vs : list visit) : list (Z * bytes) := omap (λ v, match v with VRead t d => Some (t, d) | _ => None end) vs.

Section Server.
Context {S : Type} `{ConnectionLaws HttpContext S}.

Definition visit_step (v : visit) (x : S * Buffer * Inspector) : outcome (S * Buffer * Inspector) :=
  match v with
  | VRead t d => let! s := deliver (inspector_callback (snd x)) (t, d) (fst x) in Ok (s, snd x)
  | VChange o => Ok (fst x, Inspector.exec (snd x) o)
  end.

(** A response that fits into a buffer. *)
Definition short (r : HttpResponse) : Prop := len (print_response r) ≤ vector_max_size.
(** All pages of an inspector can be sent. *)
Definition fits (i : Inspector) : Prop :=
  ∀ req resp, short (inspector_callback i req resp).

(** The response to [w] if its first line came at [t]. *)
Definition reply (i : Inspector) (t : Z) (w : wire_request) : HttpResponse := answer (inspector_callback i) t w.

Lemma visit_read w t d p rest c b s i :
  wire_ok w → usable s → in_context c s → mid_request p c b → (p ++ d) ++ rest = print_request w →
  len d ≤ vector_max_size → fits i →
  safely (visit_step (VRead t d) (s, b, i)) (λ x, between (inspector_callback i) (p ++ d) rest w s (fst x) ∧ snd x = i).
Proof.
  intros Hw Hu Hx Hmid Heq Hd Hfit. cbn [visit_step fst snd].
  eapply safely_bind; [by apply (deliver_ok (inspector_callback i) Hfit w t d p rest c b s)|].
  intros s' Hs'. by split.
Qed.

(** The reads of one request, the last one apart, and changes between them. *)
Lemma visits_ok w vs t d : ∀ p c b s i,
  wire_ok w → usable s → in_context c s → mid_request p c b → reads_ok (reads vs) →
  d ≠ [] → len d ≤ vector_max_size → p ++ concat (snd <$> reads vs) ++ d = print_request w →
  (∀ vs1 vs2, vs = vs1 ++ vs2 → fits (foldl Inspector.exec i (changes vs1))) →
  safely (foldM visit_step (vs ++ [VRead t d]) (s, b, i)) (λ '(s', _, i'),
    i' = foldl Inspector.exec i (changes vs) ∧ ∃ t', answered (reply i' t' w) s s').
Proof.
  induction vs as [|v vs IH]; intros p c b s i Hw Hu Hx Hmid Hr Hd0 Hd Heq Hfit.
  - cbn [app foldM]. eapply safely_bind.
    + apply (visit_read w t d p [] c b s i); [done|done|done|done|by rewrite app_nil_r|done|exact (Hfit [] [] eq_refl)].
    + intros [[s' b'] i'] [Hb Hi]. cbn in Hi. subst i'. destruct Hb as (_ & _ & _ & Hans). by split.
  - assert (∀ vs1 vs2, vs = vs1 ++ vs2 → fits (foldl Inspector.exec i (changes (v :: vs1)))) as Hfit'.
    { intros vs1 vs2 ->. by apply (Hfit (v :: vs1) vs2). }
    destruct v as [t1 d1|o].
    + change (reads (VRead t1 d1 :: vs)) with ((t1, d1) :: reads vs) in *.
      apply Forall_cons in Hr as [[Hn1 Hl1] Hr]. cbn [fst snd fmap list_fmap concat] in *.
      change ((VRead t1 d1 :: vs) ++ [VRead t d]) with (VRead t1 d1 :: (vs ++ [VRead t d])). cbn [foldM].
      rewrite <- app_assoc, (app_assoc p) in Heq.
      assert (concat (snd <$> reads vs) ++ d ≠ []) as Hrest by (by intros [_ ?]%app_eq_nil).
      eapply safely_bind; [apply (visit_read w t1 d1 p _ c b s i Hw Hu Hx Hmid Heq Hl1 (Hfit [] _ eq_refl))|].
      intros [[s1 b1] i1] [H1 Hi1]. cbn in Hi1. subst i1. cbn [fst] in H1. unfold between in H1. rewrite bool_decide_false in H1 by done.
      destruct H1 as (Hu1 & Hh1 & c1 & Hx1 & Hmid1). cbn [fst snd] in *.
      eapply safely_mono; [apply (IH (p ++ d1) c1 b1 s1 i); try done; by left|].
      intros [[s' b'] i'] (Hi' & t' & Ha). split; [done|]. exists t'. unfold answered in *. by rewrite <- Hh1.
    + change ((VChange o :: vs) ++ [VRead t d]) with (VChange o :: (vs ++ [VRead t d])).
      cbn [foldM visit_step fst snd obind].
      eapply safely_mono; [by apply (IH p c b s (Inspector.exec i o))|].
      by intros [[s' b'] i'] ?.
Qed.

(** Whatever the answer is, it closes the connection if the request says so. *)
Lemma callback_closes i req resp : closeConnection_ (inspector_callback i req resp) = closeConnection_ resp.
Proof.
  unfold inspector_callback, Inspector.onRequest.
  case_bool_decide; [done|]. case_bool_decide; [done|].
  destruct (splitPath _) as [|m [|c args]]; [done|done|].
  destruct (StringMap.map_find m _) as [l|]; [|done].
  destruct (StringMap.map_find c l) as [[f|]|]; [|done|done].
  by destruct (f (method_ req) args).
Qed.

End Server.

(** ** The theorem at a concrete input *)

Definition hello : Callback := Some (λ _ args, Ok (if bool_decide (args = []) then str "hello" else str "hello all")).
(** While the request is being read, its command is added. *)
Definition sample_visits : list visit :=
  [VRead 1 (str "GET /app/hello/w"); VChange (OpAdd (str "app") (str "hello") hello (str "greets")); VRead 2 (str "orld HTTP/1.")].
Definition sample_get : wire_request := mkWire kGet (str "/app/hello/world") None kHttp11 [].
Definition sample_inspector : Inspector := mkInspector [(str "app", [(str "hello", hello)])] [(str "app", [(str "hello", str "greets")])].

Lemma short_missing c : short (not_found (newResponse c)).
Proof. destruct c; vm_compute; discriminate. Qed.
Lemma short_nothing c : short (page (help_text []) (newResponse c)).
Proof. destruct c; vm_compute; discriminate. Qed.
Lemma short_help c : short (page (help_text (helps_ sample_inspector)) (newResponse c)).
Proof. destruct c; vm_compute; discriminate. Qed.
Lemma short_hello c (b : bool) : short (page (if b then str "hello" else str "hello all") (newResponse c)).
Proof. destruct c, b; vm_compute; discriminate. Qed.
#[global] Opaque short.

Lemma empty_fits : fits (mkInspector [] []).
Proof.
  intros req resp. unfold inspector_callback, Inspector.onRequest. generalize (closeConnection resp). intros c.
  case_bool_decide; [exact (short_nothing c)|]. case_bool_decide; [exact (short_missing c)|].
  destruct (splitPath _) as [|m [|cmd args]]; exact (short_missing c).
Qed.

Lemma hello_found m l cmd f :
  StringMap.map_find m (modules_ sample_inspector) = Some l → StringMap.map_find cmd l = Some (Some f) → Some f = hello.
Proof.
  cbn [modules_ sample_inspector StringMap.map_find]. case_bool_decide; [|done]. intros [= <-].
  cbn [StringMap.map_find]. case_bool_decide; [|done]. intros [= E]. exact (eq_sym (f_equal Some E)).
Qed.

Lemma sample_fits : fits sample_inspector.
Proof.
  intros req resp. unfold inspector_callback, Inspector.onRequest. generalize (closeConnection resp). intros c.
  case_bool_decide; [exact (short_help c)|]. case_bool_decide; [exact (short_missing c)|].
  destruct (splitPath _) as [|m [|cmd args]]; [apply short_missing..|].
  destruct (StringMap.map_find m _) as [l|] eqn:Hm; [|apply short_missing].
  destruct (StringMap.map_find cmd l) as [[f|]|] eqn:Hc; [|apply short_missing..].
  pose proof (hello_found m l cmd f Hm Hc) as E. injection E as E. subst f. cbn [obind].
  apply short_hello.
Qed.

#[local] Instance sample_tcp_ops : ConnectionOps HttpContext (TcpConnection * option HttpContext) :=
  tcp_ops sample_kernel sample_user.
#[local] Instance sample_tcp_laws : ConnectionLaws HttpContext (TcpConnection * option HttpContext) :=
  tcp_laws sample_kernel sample_user sample_kernel_ok.

