(* ===== verification/SocketsOps.v ===== *)
(** * SocketsOps: the socket calls and the textual addresses
    ([muduo/net/SocketsOps.h], [SocketsOps.cc], [Socket.cc])

    A system call is a parameter that answers with a value or an [errno]. An
    address in memory is the bytes of the C structure, so that the casts
    between [sockaddr], [sockaddr_in] and [sockaddr_in6] are readings of the
    same bytes; [e] is the byte order of the machine. *)
From S2P Require Import Prelude Format Endian.
From stdpp Require Import options.

(** ** Errors *)

Definition EPERM : Z := 1.
Definition EINTR : Z := 4.
Definition EBADF : Z := 9.
Definition EAGAIN : Z := 11.
Definition ENOMEM : Z := 12.
Definition EFAULT : Z := 14.
Definition EINVAL : Z := 22.
Definition ENFILE : Z := 23.
Definition EMFILE : Z := 24.
Definition EPROTO : Z := 71.
Definition ENOTSOCK : Z := 88.
Definition EOPNOTSUPP : Z := 95.
Definition ECONNABORTED : Z := 103.
Definition ENOBUFS : Z := 105.

(** The answer of a system call: the value, or -1 and [errno]. *)
Inductive sys_reply := Ret (n : Z) | Err (errno : Z).
Definition reply_value (r : sys_reply) : Z := match r with Ret n => n | Err _ => -1 end.

(** ** Addresses in memory *)

Definition AF_UNSPEC : Z := 0.
Definition AF_INET : Z := 2.
Definition AF_INET6 : Z := 10.
Definition INET_ADDRSTRLEN : Z := 16.
Definition INET6_ADDRSTRLEN : Z := 46.

(** [sin_port] and [s_addr] are integers whose bytes in memory are in network
    order; [sin6_addr] is its sixteen bytes. *)
Record sockaddr_in := mkSin { sin_family : Z; sin_port : Z; s_addr : Z; sin_zero : bytes }.
Record sockaddr_in6 := mkSin6 {
  sin6_family : Z; sin6_port : Z; sin6_flowinfo : Z; sin6_addr : bytes; sin6_scope_id : Z
}.
Definition zero_sin : sockaddr_in := mkSin 0 0 0 (replicate 8 Byte.x00).
Definition zero_sin6 : sockaddr_in6 := mkSin6 0 0 0 (replicate 16 Byte.x00) 0.

Section Memory.
Context (e : endian).
Definition sin_bytes (a : sockaddr_in) : bytes :=
  object_bytes e 2 (sin_family a) ++ object_bytes e 2 (sin_port a) ++ object_bytes e 4 (s_addr a) ++ sin_zero a.
Definition sin6_bytes (a : sockaddr_in6) : bytes :=
  object_bytes e 2 (sin6_family a) ++ object_bytes e 2 (sin6_port a) ++ object_bytes e 4 (sin6_flowinfo a) ++
  sin6_addr a ++ object_bytes e 4 (sin6_scope_id a).

(** [sa_family] of the address at [l]. *)
Definition sa_family (l : bytes) : Z := object_val e (slice 0 2 l).
(* src/muduo/net/SocketsOps.cc:67-69 sockets::sockaddr_in_cast *)
Definition sockaddr_in_cast (l : bytes) : sockaddr_in :=
  mkSin (object_val e (slice 0 2 l)) (object_val e (slice 2 2 l)) (object_val e (slice 4 4 l)) (slice 8 8 l).
(* src/muduo/net/SocketsOps.cc:71-73 sockets::sockaddr_in6_cast *)
Definition sockaddr_in6_cast (l : bytes) : sockaddr_in6 :=
  mkSin6 (object_val e (slice 0 2 l)) (object_val e (slice 2 2 l)) (object_val e (slice 4 4 l))
    (slice 8 16 l) (object_val e (slice 24 4 l)).
End Memory.

(** ** Calls that must succeed *)

Section Calls.
Context (sys_socket : Z → sys_reply).
Context (sys_bind : Z → bytes → sys_reply) (sys_listen : Z → sys_reply).

(* src/muduo/net/SocketsOps.cc:75-90 sockets::createNonblockingOrDie *)
Definition createNonblockingOrDie (family : Z) : outcome Z :=
  let sockfd := reply_value (sys_socket family) in
  if sockfd <? 0 then Fault FatalLog else Ok sockfd.

(* src/muduo/net/SocketsOps.cc:92-97 sockets::bindOrDie *)
Definition bindOrDie (sockfd : Z) (addr : bytes) : outcome unit :=
  if reply_value (sys_bind sockfd addr) <? 0 then Fault FatalLog else Ok tt.

(* src/muduo/net/SocketsOps.cc:99-104 sockets::listenOrDie *)
Definition listenOrDie (sockfd : Z) : outcome unit :=
  if reply_value (sys_listen sockfd) <? 0 then Fault FatalLog else Ok tt.

(* src/muduo/net/Socket.cc:49-51 Socket::bindAddress *)
Definition bindAddress (sockfd : Z) (localaddr : bytes) : outcome unit := bindOrDie sockfd localaddr.
(* src/muduo/net/Socket.cc:53-53 Socket::listen *)
Definition listen (sockfd : Z) : outcome unit := listenOrDie sockfd.
End Calls.

(** [::accept4]'s answer; the result is the descriptor and [errno]. The logger
    runs before [errno] is looked at again, so a transient error is put back;
    every other error ends the program. *)
Definition transient_errors : list Z := [EAGAIN; ECONNABORTED; EINTR; EPROTO; EPERM; EMFILE].

(* src/muduo/net/SocketsOps.cc:106-143 sockets::accept *)
Definition accept (r : sys_reply) (errno : Z) : outcome (Z * Z) :=
  match r with
  | Ret connfd => Ok (connfd, errno)
  | Err savedErrno =>
      if bool_decide (savedErrno ∈ transient_errors) then Ok (-1, savedErrno)
      else Fault FatalLog
  end.

(* src/muduo/net/SocketsOps.cc:145-147 sockets::connect *)
Definition connect (sys_connect : Z → bytes → sys_reply) (sockfd : Z) (addr : bytes) : sys_reply :=
  sys_connect sockfd addr.
(* src/muduo/net/SocketsOps.cc:159-161 sockets::read *)
Definition read (sys_read : Z → Z → sys_reply) (sockfd count : Z) : sys_reply := sys_read sockfd count.
(* src/muduo/net/SocketsOps.cc:169-175 sockets::readv *)
Definition readv (sys_readv : Z → Z → sys_reply) (sockfd iovcnt : Z) : sys_reply :=
  if 2147483647 <? iovcnt then Err EINVAL else sys_readv sockfd (swrap 32 iovcnt).
(* src/muduo/net/SocketsOps.cc:187-189 sockets::write *)
Definition write (sys_write : Z → bytes → sys_reply) (sockfd : Z) (buffer : bytes) : sys_reply :=
  sys_write sockfd buffer.

(** [::getsockopt(SO_ERROR)]: its own failure is reported as the error. *)
(* src/muduo/net/SocketsOps.cc:302-310 sockets::getSocketError *)
Definition getSocketError (sys_getsockopt : Z → sys_reply) (sockfd : Z) : Z :=
  match sys_getsockopt sockfd with Err errno => errno | Ret optval => optval end.

(** ** Options *)

Definition SOL_SOCKET : Z := 1.
Definition IPPROTO_TCP : Z := 6.
Definition SO_REUSEADDR : Z := 2.
Definition SO_KEEPALIVE : Z := 9.
Definition SO_REUSEPORT : Z := 15.
Definition TCP_NODELAY : Z := 1.

Section Options.
(** [::setsockopt] with an [int] value. *)
Context (sys_setsockopt : Z → Z → Z → Z → sys_reply).

(* src/muduo/net/Socket.cc:100-110 Socket::setSockOptOrLog *)
Definition setSockOptOrLog (sockfd level option optval : Z) : bool :=
  match sys_setsockopt sockfd level option optval with Ret n => n =? 0 | Err _ => false end.
(* src/muduo/net/Socket.cc:66-70 Socket::setTcpNoDelay *)
Definition setTcpNoDelay (sockfd : Z) (on : bool) : bool :=
  setSockOptOrLog sockfd IPPROTO_TCP TCP_NODELAY (if on then 1 else 0).
(* src/muduo/net/Socket.cc:72-76 Socket::setReuseAddr *)
Definition setReuseAddr (sockfd : Z) (on : bool) : bool :=
  setSockOptOrLog sockfd SOL_SOCKET SO_REUSEADDR (if on then 1 else 0).
(* src/muduo/net/Socket.cc:78-92 Socket::setReusePort *)
Definition setReusePort (sockfd : Z) (on : bool) : bool :=
  setSockOptOrLog sockfd SOL_SOCKET SO_REUSEPORT (if on then 1 else 0).
(* src/muduo/net/Socket.cc:94-98 Socket::setKeepAlive *)
Definition setKeepAlive (sockfd : Z) (on : bool) : bool :=
  setSockOptOrLog sockfd SOL_SOCKET SO_KEEPALIVE (if on then 1 else 0).
End Options.

(** ** Text *)

(** What the call leaves in the buffer before the terminating NUL; its length
    is the value returned. *)
(* src/muduo/net/SocketsOps.cc:25-35 formatToBuffer *)
Definition formatToBuffer (size : Z) (text : bytes) : bytes :=
  if size =? 0 then [] else take (Z.to_nat (Z.min (len text) (size - 1))) text.

(** [std::string::c_str()] for a C function, and a [std::string] made from a
    buffer: up to the first NUL. *)
Definition c_str (s : bytes) : bytes :=
  match find_byte Byte.x00 s with Some i => take i s | None => s end.

(** ** The kernel's account of a connection *)

(** The fields of [struct tcp_info] that are shown: the first is a byte, the
    others have 32 bits. *)
Record tcp_info := mkTcpInfo {
  tcpi_retransmits : Z; tcpi_rto : Z; tcpi_ato : Z; tcpi_snd_mss : Z; tcpi_rcv_mss : Z; tcpi_lost : Z;
  tcpi_retrans : Z; tcpi_rtt : Z; tcpi_rttvar : Z; tcpi_snd_ssthresh : Z; tcpi_snd_cwnd : Z; tcpi_total_retrans : Z
}.
Definition zero_tcp_info : tcp_info := mkTcpInfo 0 0 0 0 0 0 0 0 0 0 0 0.

(** [buf[i] = b] in an array. *)
Definition store_byte (i : Z) (b : byte) (buf : bytes) : outcome bytes :=
  if (0 <=? i) && (i <? len buf) then Ok (<[Z.to_nat i := b]> buf) else Fault OutOfBounds.

Section TcpInfo.
(** [::getsockopt(TCP_INFO)]: it fills the structure or fails. *)
Context (sys_tcp_info : Z → option tcp_info).

(* src/muduo/net/Socket.cc:19-23 Socket::getTcpInfo *)
Definition getTcpInfo (sockfd : Z) : bool * tcp_info :=
  match sys_tcp_info sockfd with Some t => (true, t) | None => (false, zero_tcp_info) end.

Definition tcp_info_fields (t : tcp_info) : list (bytes * Z) := [
  (str "unrecovered=", tcpi_retransmits t); (str " rto=", tcpi_rto t); (str " ato=", tcpi_ato t);
  (str " snd_mss=", tcpi_snd_mss t); (str " rcv_mss=", tcpi_rcv_mss t); (str " lost=", tcpi_lost t);
  (str " retrans=", tcpi_retrans t); (str " rtt=", tcpi_rtt t); (str " rttvar=", tcpi_rttvar t);
  (str " sshthresh=", tcpi_snd_ssthresh t); (str " cwnd=", tcpi_snd_cwnd t);
  (str " total_retrans=", tcpi_total_retrans t)].
Definition tcp_info_text (t : tcp_info) : bytes := mjoin ((λ x, x.1 ++ format_int x.2) <$> tcp_info_fields t).

(** [length] is the caller's account of the size of [buf]. *)
(* src/muduo/net/Socket.cc:25-47 Socket::getTcpInfoString *)
Definition getTcpInfoString (sockfd : Z) (buf : bytes) (length : Z) : outcome (bool * bytes) :=
  if length <=? 0 then Ok (false, buf) else
  let (ok, tcpi) := getTcpInfo sockfd in
  if negb ok then Ok (false, buf) else
  let text := tcp_info_text tcpi in
  let! buf := write_at 0 (take (Z.to_nat (length - 1)) text) buf in
  let count := Z.min (len text) (length - 1) in
  let! buf := store_byte count Byte.x00 buf in
  Ok (true, buf).

(* src/muduo/net/TcpConnection.cc:55-57 TcpConnection::getTcpInfo *)
Definition TcpConnection_getTcpInfo (sockfd : Z) : bool * tcp_info := getTcpInfo sockfd.

(* src/muduo/net/TcpConnection.cc:59-63 TcpConnection::getTcpInfoString *)
Definition TcpConnection_getTcpInfoString (sockfd : Z) : outcome bytes :=
  let buf := replicate 1024 Byte.x00 in
  let! (_, buf) := getTcpInfoString sockfd buf (len buf) in
  Ok (c_str buf).
End TcpInfo.

Section Text.
Context (e : endian).
(** [::inet_ntop] and [::inet_pton] on the bytes of an address. *)
Context (inet_ntop : Z → bytes → option bytes) (inet_pton : Z → bytes → option bytes).

(* src/muduo/net/SocketsOps.cc:203-234 sockets::toIpPortLen *)
Definition toIpPortLen (size : Z) (addr : bytes) : bytes :=
  if size =? 0 then [] else
  if sa_family e addr =? AF_INET6 then
    let addr6 := sockaddr_in6_cast e addr in
    match inet_ntop AF_INET6 (sin6_addr addr6) with
    | None => []
    | Some ip =>
        let port := networkToHost16 e (sin6_port addr6) in
        formatToBuffer size (str "[" ++ ip ++ str "]:" ++ format_int port)
    end
  else if sa_family e addr =? AF_INET then
    let addr4 := sockaddr_in_cast e addr in
    match inet_ntop AF_INET (object_bytes e 4 (s_addr addr4)) with
    | None => []
    | Some ip =>
        let port := networkToHost16 e (sin_port addr4) in
        formatToBuffer size (ip ++ str ":" ++ format_int port)
    end
  else [].

(* src/muduo/net/SocketsOps.cc:236-262 sockets::toIpLen *)
Definition toIpLen (size : Z) (addr : bytes) : outcome bytes :=
  if size =? 0 then Ok [] else
  if sa_family e addr =? AF_INET then
    assert! INET_ADDRSTRLEN <=? size ;;
    let addr4 := sockaddr_in_cast e addr in
    Ok (default [] (inet_ntop AF_INET (object_bytes e 4 (s_addr addr4))))
  else if sa_family e addr =? AF_INET6 then
    assert! INET6_ADDRSTRLEN <=? size ;;
    let addr6 := sockaddr_in6_cast e addr in
    Ok (default [] (inet_ntop AF_INET6 (sin6_addr addr6)))
  else Ok [].

(** A text that is no address is logged and leaves the address bytes alone. *)
(* src/muduo/net/SocketsOps.cc:274-281 sockets::fromIpPort(sockaddr_in) *)
Definition fromIpPort4 (ip : bytes) (port : Z) (addr : sockaddr_in) : sockaddr_in :=
  let a := match inet_pton AF_INET (c_str ip) with Some b => object_val e b | None => s_addr addr end in
  mkSin AF_INET (hostToNetwork16 e port) a (sin_zero addr).
(* src/muduo/net/SocketsOps.cc:283-290 sockets::fromIpPort(sockaddr_in6) *)
Definition fromIpPort6 (ip : bytes) (port : Z) (addr : sockaddr_in6) : sockaddr_in6 :=
  let a := match inet_pton AF_INET6 (c_str ip) with Some b => b | None => sin6_addr addr end in
  mkSin6 AF_INET6 (hostToNetwork16 e port) (sin6_flowinfo addr) a (sin6_scope_id addr).

(** ** The two ends of a connection *)

(** [::getsockname] and [::getpeername] fill the first bytes of a
    [sockaddr_in6]; a failure is logged and leaves it zero. *)
Context (sys_getsockname sys_getpeername : Z → option bytes).

Definition fill_sin6 (r : option bytes) : sockaddr_in6 :=
  match r with
  | Some b => sockaddr_in6_cast e (take 28 b ++ drop (length (take 28 b)) (sin6_bytes e zero_sin6))
  | None => zero_sin6
  end.
(* src/muduo/net/SocketsOps.cc:312-319 sockets::getLocalAddr *)
Definition getLocalAddr (sockfd : Z) : sockaddr_in6 := fill_sin6 (sys_getsockname sockfd).
(* src/muduo/net/SocketsOps.cc:321-328 sockets::getPeerAddr *)
Definition getPeerAddr (sockfd : Z) : sockaddr_in6 := fill_sin6 (sys_getpeername sockfd).

(* src/muduo/net/SocketsOps.cc:330-346 sockets::isSelfConnect *)
Definition isSelfConnect (sockfd : Z) : bool :=
  let localaddr := getLocalAddr sockfd in
  let peeraddr := getPeerAddr sockfd in
  if sin6_family localaddr =? AF_INET then
    let laddr4 := sockaddr_in_cast e (sin6_bytes e localaddr) in
    let raddr4 := sockaddr_in_cast e (sin6_bytes e peeraddr) in
    (sin_port laddr4 =? sin_port raddr4) && (s_addr laddr4 =? s_addr raddr4)
  else if sin6_family localaddr =? AF_INET6 then
    (sin6_port localaddr =? sin6_port peeraddr) && bool_decide (sin6_addr localaddr = sin6_addr peeraddr)
  else false.
End Text.

(** ** Reading back what was written *)

Lemma slice_middle {A} (p m s : list A) o n : o = len p → n = len m → slice o n (p ++ m ++ s) = m.
Proof.
  intros -> ->. rewrite slice_app_r by lia. rewrite Z.sub_diag. pose proof (len_nonneg m).
  rewrite slice_app_l by lia. apply slice_full.
Qed.

Lemma c_str_id s : Byte.x00 ∉ s → c_str s = s.
Proof. intros H. unfold c_str. by rewrite (proj2 (find_byte_none _ _) H). Qed.

Lemma formatToBuffer_fits size text : len text < size → formatToBuffer size text = text.
Proof.
  pose proof (len_nonneg text). intros. unfold formatToBuffer. destruct (Z.eqb_spec size 0); [lia|].
  apply take_ge. unfold len in *. lia.
Qed.

(** *** The text of a [tcp_info]

    Its numbers have at most ten digits, so it is never cut in the buffer of a
    connection, and has no NUL. *)
Definition tcp_info_ok (t : tcp_info) : Prop := Forall (λ x, 0 ≤ x.2 < 2 ^ 32) (tcp_info_fields t).

Definition short (n : Z) (s : bytes) : Prop := len s ≤ n ∧ Byte.x00 ∉ s.

Lemma short_app m n a b : short m a → short n b → short (m + n) (a ++ b).
Proof. intros [? ?] [? ?]. split; [rewrite len_app; lia|]. by rewrite not_elem_of_app. Qed.

Lemma short_number n : 0 ≤ n < 2 ^ 32 → short 10 (format_int n).
Proof.
  intros Hn. unfold format_int. destruct (Z.ltb_spec n 0); [lia|].
  pose proof (format_nat_length n 10 ltac:(lia) ltac:(change (10 ^ Z.of_nat 10) with 10000000000; lia)).
  split; [unfold len; lia|]. intros Hin. pose proof (format_nat_digits n ltac:(lia)) as Hd.
  rewrite Forall_forall in Hd. by specialize (Hd _ Hin).
Qed.

Lemma short_fields l :
  Forall (λ x : bytes * Z, short 15 x.1 ∧ 0 ≤ x.2 < 2 ^ 32) l →
  short (25 * len l) (mjoin ((λ x, x.1 ++ format_int x.2) <$> l)).
Proof.
  induction 1 as [|[s n] l [Hs Hn] _ IH]; [by split; [|apply not_elem_of_nil]|].
  cbn [fmap list_fmap mjoin list_join]. replace (25 * len ((s, n) :: l)) with (15 + 10 + 25 * len l) by (unfold len; cbn; lia).
  apply short_app; [|exact IH]. apply short_app; [done|by apply short_number].
Qed.

Lemma tcp_info_short t : tcp_info_ok t → short 300 (tcp_info_text t).
Proof.
  intros H. apply (short_fields (tcp_info_fields t)). unfold tcp_info_ok, tcp_info_fields in *.
  rewrite !Forall_cons in *. cbn [fst snd] in *. destruct_and! H.
  split_and!; try done; apply (bool_decide_unpack _); vm_compute; exact I.
Qed.

(** The string is the whole text of what the kernel says, or empty. *)
Lemma tcp_info_string sys_tcp_info fd :
  (∀ t, sys_tcp_info fd = Some t → tcp_info_ok t) →
  TcpConnection_getTcpInfoString sys_tcp_info fd =
  Ok (match sys_tcp_info fd with Some t => tcp_info_text t | None => [] end).
Proof.
  intros Hok. unfold TcpConnection_getTcpInfoString, getTcpInfoString, getTcpInfo.
  change (len (replicate 1024 Byte.x00)) with 1024. change (1024 <=? 0) with false. cbv iota.
  destruct (sys_tcp_info fd) as [t|]; [|done].
  destruct (tcp_info_short t (Hok t eq_refl)) as [Hlen Hnul]. pose proof (len_nonneg (tcp_info_text t)).
  cbn [negb]. set (s := tcp_info_text t) in *.
  rewrite (take_ge s) by (unfold len in Hlen; lia). rewrite Z.min_l by lia.
  unfold write_at. rewrite Z.add_0_l. change (len (replicate 1024 Byte.x00)) with 1024.
  change (Z.to_nat 0) with 0%nat. rewrite (proj2 (Z.leb_le (len s) 1024)) by lia.
  cbn [andb Z.leb Z.compare take app obind].
  rewrite drop_replicate. unfold store_byte. rewrite (proj2 (Z.leb_le 0 _)) by lia.
  assert (Z.to_nat (len s) = length s) as -> by (unfold len; lia).
  assert (1024 - length s = S (1023 - length s))%nat as -> by (unfold len in Hlen; lia).
  change (take 0 (replicate 1024 Byte.x00)) with (@nil byte). rewrite app_nil_l.
  rewrite len_app, (proj2 (Z.ltb_lt _ _)) by (unfold len; cbn; lia).
  cbn [andb obind replicate].
  rewrite list_insert_id by (by rewrite lookup_app_r, Nat.sub_diag by done).
  unfold c_str. by rewrite find_byte_app, take_app_length.
Qed.

Definition sin_ok (a : sockaddr_in) : Prop :=
  0 ≤ sin_family a < 2 ^ 16 ∧ 0 ≤ sin_port a < 2 ^ 16 ∧ 0 ≤ s_addr a < 2 ^ 32 ∧ length (sin_zero a) = 8%nat.
Definition sin6_ok (a : sockaddr_in6) : Prop :=
  0 ≤ sin6_family a < 2 ^ 16 ∧ 0 ≤ sin6_port a < 2 ^ 16 ∧ 0 ≤ sin6_flowinfo a < 2 ^ 32 ∧
  length (sin6_addr a) = 16%nat ∧ 0 ≤ sin6_scope_id a < 2 ^ 32.

Lemma len_object e n z : len (object_bytes e n z) = Z.of_nat n.
Proof. unfold len. by rewrite length_object_bytes. Qed.

Lemma sin_roundtrip e a k : sin_ok a → sockaddr_in_cast e (sin_bytes e a ++ k) = a.
Proof.
  intros (H1 & H2 & H3 & H4). unfold sockaddr_in_cast, sin_bytes. destruct a as [f p s z]. cbn in *.
  rewrite <- !app_assoc. rewrite <- (app_nil_l (object_bytes e 2 f ++ _)) at 1. rewrite !(slice_middle [] (object_bytes e 2 f)) by (rewrite ?len_object; done).
  rewrite (slice_middle (object_bytes e 2 f)) by (rewrite ?len_object; done).
  rewrite (app_assoc (object_bytes e 2 f)), (slice_middle (_ ++ _) (object_bytes e 4 s)) by (rewrite ?len_app, ?len_object; done).
  rewrite (app_assoc (_ ++ _)), (slice_middle (_ ++ _) z) by (rewrite ?len_app, ?len_object; unfold len; rewrite ?H4; done).
  by rewrite !object_val_bytes.
Qed.

Lemma sin6_roundtrip e a k : sin6_ok a → sockaddr_in6_cast e (sin6_bytes e a ++ k) = a.
Proof.
  intros (H1 & H2 & H3 & H4 & H5). unfold sockaddr_in6_cast, sin6_bytes. destruct a as [f p w b s]. cbn in *.
  assert (len b = 16) as Hb by (unfold len; rewrite H4; done).
  rewrite <- !app_assoc. rewrite <- (app_nil_l (object_bytes e 2 f ++ _)) at 1. rewrite !(slice_middle [] (object_bytes e 2 f)) by (rewrite ?len_object; done).
  rewrite (slice_middle (object_bytes e 2 f)) by (rewrite ?len_object; done).
  rewrite (app_assoc (object_bytes e 2 f)), (slice_middle (_ ++ _) (object_bytes e 4 w)) by (rewrite ?len_app, ?len_object; done).
  rewrite (app_assoc (_ ++ _)), (slice_middle (_ ++ _) b) by (rewrite ?len_app, ?len_object, ?Hb; done).
  rewrite (app_assoc (_ ++ _)), (slice_middle (_ ++ _) (object_bytes e 4 s)) by (rewrite ?len_app, ?len_object, ?Hb; done).
  by rewrite !object_val_bytes.
Qed.

Lemma sa_family_sin e a k : sin_ok a → sa_family e (sin_bytes e a ++ k) = sin_family a.
Proof. intros H. exact (f_equal sin_family (sin_roundtrip e a k H)). Qed.
Lemma sa_family_sin6 e a k : sin6_ok a → sa_family e (sin6_bytes e a ++ k) = sin6_family a.
Proof. intros H. exact (f_equal sin6_family (sin6_roundtrip e a k H)). Qed.

(** The other way round: the 28 bytes of a [sockaddr_in6] are the structure. *)
Lemma object_bytes_val e n l : length l = n → object_bytes e n (object_val e l) = l.
Proof. intros <-. destruct e; [apply le_bytes_val|apply be_bytes_val]. Qed.

Lemma sin6_bytes_cast e l : len l = 28 → sin6_bytes e (sockaddr_in6_cast e l) = l.
Proof.
  intros Hl. unfold sin6_bytes, sockaddr_in6_cast. cbn [sin6_family sin6_port sin6_flowinfo sin6_addr sin6_scope_id].
  assert (∀ o n, 0 ≤ o → 0 ≤ n → o + n ≤ 28 → length (slice o n l) = Z.to_nat n) as Hs.
  { intros o n ???. pose proof (len_slice o n l) as Hsl. unfold len in *. lia. }
  rewrite !object_bytes_val by (apply Hs; lia).
  rewrite <- (slice_full l) at 6. rewrite Hl.
  change 28 with (2 + (2 + (4 + (16 + 4)))). by rewrite !slice_split by lia.
Qed.

Section Ends.
Context (e : endian) (sys_getsockname sys_getpeername : Z → option bytes) (fd : Z).

Lemma fill_bytes b : len b ≤ 28 → sin6_bytes e (fill_sin6 e (Some b)) = b ++ drop (length b) (sin6_bytes e zero_sin6).
Proof.
  intros Hb. unfold fill_sin6. rewrite take_ge by (unfold len in Hb; lia). apply sin6_bytes_cast.
  rewrite len_app. unfold len in *. rewrite length_drop.
  assert (length (sin6_bytes e zero_sin6) = 28%nat) as ->; [|lia].
  unfold sin6_bytes. by rewrite !length_app, !length_object_bytes.
Qed.

Lemma len_sin_bytes a : sin_ok a → len (sin_bytes e a) = 16.
Proof.
  intros (_ & _ & _ & Hz). unfold sin_bytes. rewrite !len_app, !len_object. unfold len. by rewrite Hz.
Qed.
Lemma len_sin6_bytes a : sin6_ok a → len (sin6_bytes e a) = 28.
Proof.
  intros (_ & _ & _ & Hz & _). unfold sin6_bytes. rewrite !len_app, !len_object. unfold len. by rewrite Hz.
Qed.

(** A socket is connected to itself exactly when both ends have the same
    address and port, for either family: what [isSelfConnect] computes through
    its casts. *)
Lemma self_connect_in a b :
  sin_ok a → sin_ok b → sin_family a = AF_INET →
  sys_getsockname fd = Some (sin_bytes e a) → sys_getpeername fd = Some (sin_bytes e b) →
  (isSelfConnect e sys_getsockname sys_getpeername fd = true ↔ sin_port a = sin_port b ∧ s_addr a = s_addr b).
Proof.
  intros Ha Hb Hf Hl Hp. unfold isSelfConnect, getLocalAddr, getPeerAddr. rewrite Hl, Hp.
  rewrite !fill_bytes by (rewrite len_sin_bytes by done; lia). rewrite !sin_roundtrip by done.
  assert (sin6_family (fill_sin6 e (Some (sin_bytes e a))) = AF_INET) as ->.
  { unfold fill_sin6. rewrite take_ge by (pose proof (len_sin_bytes a Ha); unfold len in *; lia).
    rewrite <- Hf. apply (sa_family_sin e a); done. }
  cbn. by rewrite andb_true_iff, !Z.eqb_eq.
Qed.

Lemma self_connect_in6 a b :
  sin6_ok a → sin6_ok b → sin6_family a = AF_INET6 →
  sys_getsockname fd = Some (sin6_bytes e a) → sys_getpeername fd = Some (sin6_bytes e b) →
  (isSelfConnect e sys_getsockname sys_getpeername fd = true ↔
   sin6_port a = sin6_port b ∧ sin6_addr a = sin6_addr b).
Proof.
  intros Ha Hb Hf Hl Hp. unfold isSelfConnect, getLocalAddr, getPeerAddr. rewrite Hl, Hp.
  assert (∀ x, sin6_ok x → fill_sin6 e (Some (sin6_bytes e x)) = x) as Hfill.
  { intros x Hx. unfold fill_sin6. rewrite take_ge by (pose proof (len_sin6_bytes x Hx); unfold len in *; lia).
    by apply sin6_roundtrip. }
  rewrite !Hfill, Hf by done. cbn. by rewrite andb_true_iff, Z.eqb_eq, bool_decide_eq_true.
Qed.
End Ends.
