(* ===== verification/InetAddress.v ===== *)
(** * InetAddress: a socket address ([muduo/net/InetAddress.h], [InetAddress.cc])

    The object is the 128 bytes of its [sockaddr_storage]; the accessors copy
    C structures in and out of them. *)
From S2P Require Import Prelude Format Endian SocketsOps.
From stdpp Require Import options.

(* src/muduo/net/InetAddress.h:70-70 InetAddress::storage_ *)
Definition InetAddress : Type := bytes.
Definition zero_storage : bytes := replicate 128 Byte.x00.

(** [std::memcpy(&storage_, d, sizeof d)]. *)
Definition memcpy (d l : bytes) : bytes := d ++ drop (length d) l.

(* src/muduo/net/InetAddress.cc:18-18 kInaddrAny *)
Definition kInaddrAny : Z := 0.
(* src/muduo/net/InetAddress.cc:19-19 kInaddrLoopback *)
Definition kInaddrLoopback : Z := 0x7f000001.
Definition in6addr_any : bytes := replicate 16 Byte.x00.
Definition in6addr_loopback : bytes := replicate 15 Byte.x00 ++ [Byte.x01].

(** An entry of the list [::getaddrinfo] returns. *)
Record addrinfo := mkAddrinfo { ai_family : Z; ai_addr : bytes }.

Section InetAddress.
Context (e : endian).
Context (inet_ntop : Z → bytes → option bytes) (inet_pton : Z → bytes → option bytes).
(** [None] for an error. *)
Context (getaddrinfo : bytes → Z → option (list addrinfo)).

(* src/muduo/net/InetAddress.h:32-32 InetAddress::family *)
Definition family (a : InetAddress) : Z := sa_family e a.
(* src/muduo/net/InetAddress.h:33-33 InetAddress::isIpv4 *)
Definition isIpv4 (a : InetAddress) : bool := family a =? AF_INET.
(* src/muduo/net/InetAddress.h:34-34 InetAddress::isIpv6 *)
Definition isIpv6 (a : InetAddress) : bool := family a =? AF_INET6.
(* src/muduo/net/InetAddress.h:40-42 InetAddress::getSockAddr *)
Definition getSockAddr (a : InetAddress) : bytes := a.

(* src/muduo/net/InetAddress.cc:207-211 InetAddress::asSockAddrIn *)
Definition asSockAddrIn (a : InetAddress) : sockaddr_in := sockaddr_in_cast e a.
(* src/muduo/net/InetAddress.cc:213-217 InetAddress::asSockAddrIn6 *)
Definition asSockAddrIn6 (a : InetAddress) : sockaddr_in6 := sockaddr_in6_cast e a.
(* src/muduo/net/InetAddress.cc:219-222 InetAddress::setSockAddrIn *)
Definition setSockAddrIn (addr : sockaddr_in) : InetAddress := memcpy (sin_bytes e addr) zero_storage.
(* src/muduo/net/InetAddress.cc:224-227 InetAddress::setSockAddrIn6Internal *)
Definition setSockAddrIn6Internal (addr6 : sockaddr_in6) : InetAddress := memcpy (sin6_bytes e addr6) zero_storage.
(* src/muduo/net/InetAddress.cc:100-103 InetAddress::setSockAddrInet6 *)
Definition setSockAddrInet6 (addr6 : sockaddr_in6) : InetAddress := setSockAddrIn6Internal addr6.
(* src/muduo/net/InetAddress.cc:69-72 InetAddress::InetAddress(sockaddr_in) *)
Definition InetAddress_in (addr : sockaddr_in) : InetAddress := setSockAddrIn addr.
(* src/muduo/net/InetAddress.cc:74-77 InetAddress::InetAddress(sockaddr_in6) *)
Definition InetAddress_in6 (addr : sockaddr_in6) : InetAddress := setSockAddrIn6Internal addr.

(* src/muduo/net/InetAddress.cc:23-41 InetAddress::InetAddress(uint16_t, bool, bool) *)
Definition InetAddress_port (portArg : Z) (loopbackOnly ipv6 : bool) : InetAddress :=
  if ipv6 then
    setSockAddrIn6Internal (mkSin6 AF_INET6 (hostToNetwork16 e portArg) 0
      (if loopbackOnly then in6addr_loopback else in6addr_any) 0)
  else
    setSockAddrIn (mkSin AF_INET (hostToNetwork16 e portArg)
      (hostToNetwork32 e (if loopbackOnly then kInaddrLoopback else kInaddrAny)) (replicate 8 Byte.x00)).

(* src/muduo/net/InetAddress.cc:43-56 InetAddress::InetAddress(string_view, uint16_t, bool) *)
Definition InetAddress_text (ip : bytes) (portArg : Z) (ipv6 : bool) : InetAddress :=
  let treatAsIpv6 := ipv6 || bool_decide (is_Some (find_byte Byte.x3a ip)) in
  if treatAsIpv6 then setSockAddrIn6Internal (fromIpPort6 e inet_pton ip portArg zero_sin6)
  else setSockAddrIn (fromIpPort4 e inet_pton ip portArg zero_sin).

(* src/muduo/net/InetAddress.cc:79-83 InetAddress::toIpPort *)
Definition toIpPort (a : InetAddress) : bytes := toIpPortLen e inet_ntop 64 (getSockAddr a).
(* src/muduo/net/InetAddress.cc:85-89 InetAddress::toIp *)
Definition toIp (a : InetAddress) : outcome bytes := toIpLen e inet_ntop 64 (getSockAddr a).

(* src/muduo/net/InetAddress.cc:91-94 InetAddress::ipv4NetEndian *)
Definition ipv4NetEndian (a : InetAddress) : outcome Z :=
  assert! isIpv4 a ;; Ok (s_addr (asSockAddrIn a)).
(* src/muduo/net/InetAddress.cc:105-113 InetAddress::portNetEndian *)
Definition portNetEndian (a : InetAddress) : Z :=
  if isIpv6 a then sin6_port (asSockAddrIn6 a)
  else if isIpv4 a then sin_port (asSockAddrIn a)
  else 0.
(* src/muduo/net/InetAddress.cc:96-98 InetAddress::port *)
Definition port (a : InetAddress) : Z := networkToHost16 e (portNetEndian a).

(* src/muduo/net/InetAddress.cc:199-205 InetAddress::setScopeId *)
Definition setScopeId (scope_id : Z) (a : InetAddress) : InetAddress :=
  if isIpv6 a then
    let addr6 := asSockAddrIn6 a in
    setSockAddrIn6Internal (mkSin6 (sin6_family addr6) (sin6_port addr6) (sin6_flowinfo addr6) (sin6_addr addr6) scope_id)
  else a.

(* src/muduo/net/InetAddress.cc:229-234 InetAddress::setAddress(in_addr) *)
Definition setAddress4 (addr : Z) (a : InetAddress) : outcome InetAddress :=
  assert! isIpv4 a ;;
  let addr4 := asSockAddrIn a in
  Ok (setSockAddrIn (mkSin (sin_family addr4) (sin_port addr4) addr (sin_zero addr4))).
(* src/muduo/net/InetAddress.cc:236-241 InetAddress::setAddress(in6_addr) *)
Definition setAddress6 (addr6 : bytes) (a : InetAddress) : outcome InetAddress :=
  assert! isIpv6 a ;;
  let dst := asSockAddrIn6 a in
  Ok (setSockAddrIn6Internal (mkSin6 (sin6_family dst) (sin6_port dst) (sin6_flowinfo dst) addr6 (sin6_scope_id dst))).

(** The loop over the answers: the first usable one is taken. *)
Fixpoint resolve_list (l : list addrinfo) (a : InetAddress) : outcome (bool * InetAddress) :=
  match l with
  | [] => Ok (false, a)
  | ai :: l' =>
      if (ai_family ai =? AF_INET) && (16 <=? len (ai_addr ai)) then
        let addr4 := sockaddr_in_cast e (ai_addr ai) in
        let savedPort := portNetEndian a in
        let! a' := setAddress4 (s_addr addr4) (setSockAddrIn (mkSin AF_INET savedPort 0 (replicate 8 Byte.x00))) in
        Ok (true, a')
      else if (ai_family ai =? AF_INET6) && (28 <=? len (ai_addr ai)) then
        let addr6 := sockaddr_in6_cast e (ai_addr ai) in
        let savedPort := portNetEndian a in
        let! a' := setAddress6 (sin6_addr addr6)
          (setSockAddrIn6Internal (mkSin6 AF_INET6 savedPort 0 (replicate 16 Byte.x00) 0)) in
        Ok (true, a')
      else resolve_list l' a
  end.

(* src/muduo/net/InetAddress.cc:142-197 InetAddress::resolve(string_view, InetAddress*, sa_family_t) *)
Definition resolve_family (hostname : bytes) (family : Z) (result : InetAddress) : outcome (bool * InetAddress) :=
  match getaddrinfo (c_str hostname) family with
  | None => Ok (false, result)
  | Some resultList => resolve_list resultList result
  end.

(* src/muduo/net/InetAddress.cc:125-133 InetAddress::resolve *)
Definition resolve (hostname : bytes) (result : InetAddress) : outcome (bool * InetAddress) :=
  let f := family result in
  let f := if negb (f =? AF_INET) && negb (f =? AF_INET6) then AF_UNSPEC else f in
  resolve_family hostname f result.
End InetAddress.

(** ** The address is what was put in *)

Section Facts.
Context (e : endian) (inet_ntop inet_pton : Z → bytes → option bytes).

(** The text of an address: [inet_ntop] prints it and [inet_pton] reads it. *)
Definition text_of (family : Z) (n : nat) (ip a : bytes) : Prop :=
  length a = n ∧ inet_ntop family a = Some ip ∧ inet_pton family ip = Some a ∧ Byte.x00 ∉ ip.

Lemma set4_fields a : sin_ok a → asSockAddrIn e (setSockAddrIn e a) = a.
Proof. apply sin_roundtrip. Qed.
Lemma set6_fields a : sin6_ok a → asSockAddrIn6 e (setSockAddrIn6Internal e a) = a.
Proof. apply sin6_roundtrip. Qed.
Lemma set4_family a : sin_ok a → family e (setSockAddrIn e a) = sin_family a.
Proof. apply sa_family_sin. Qed.
Lemma set6_family a : sin6_ok a → family e (setSockAddrIn6Internal e a) = sin6_family a.
Proof. apply sa_family_sin6. Qed.

Lemma port_range p : 0 ≤ p < 2 ^ 16 → 0 ≤ hostToNetwork16 e p < 2 ^ 16.
Proof. intros. destruct e; [apply byteSwap16_range|done]. Qed.

Lemma object_val_range n l : length l = n → 0 ≤ object_val e l < 256 ^ Z.of_nat n.
Proof. intros <-. destruct e; [apply le_val_range|apply be_val_range]. Qed.

Lemma port_text p : 0 ≤ p < 2 ^ 16 → len (format_int p) ≤ 5.
Proof.
  intros Hp. unfold format_int, len. destruct (Z.ltb_spec p 0); [lia|].
  assert (length (format_nat p) ≤ 5)%nat; [|lia].
  apply format_nat_length; [lia|]. change (2 ^ 16) with 65536 in Hp. change (10 ^ Z.of_nat 5) with 100000. lia.
Qed.

Lemma port16 p : 0 ≤ p < 2 ^ 16 → networkToHost16 e (hostToNetwork16 e p) = p.
Proof.
  intros Hp. rewrite <- (object_val_bytes e 2 (hostToNetwork16 e p)) by (by apply port_range).
  rewrite network16_val by apply length_object_bytes. rewrite network16_bytes, be_val_bytes by done.
  apply Z.mod_small. done.
Qed.

(** An IPv4 address object with the given address bytes and port. *)
Lemma address4 a p ip :
  length a = 4%nat → 0 ≤ p < 2 ^ 16 → inet_ntop AF_INET a = Some ip → len ip < INET_ADDRSTRLEN →
  let A := setSockAddrIn e (mkSin AF_INET (hostToNetwork16 e p) (object_val e a) (replicate 8 Byte.x00)) in
  isIpv4 e A = true ∧ isIpv6 e A = false ∧ port e A = p ∧ ipv4NetEndian e A = Ok (object_val e a) ∧
  toIp e inet_ntop A = Ok ip ∧ toIpPort e inet_ntop A = ip ++ str ":" ++ format_int p.
Proof.
  intros Ha Hp Ht Hlen A. set (s := mkSin _ _ _ _) in A.
  assert (sin_ok s) as Hs.
  { split_and!; [done|done|by apply port_range|by apply port_range|apply (object_val_range 4 a Ha)|apply (object_val_range 4 a Ha)|done]. }
  pose proof (set4_family s Hs) as Hf. fold A in Hf. pose proof (set4_fields s Hs) as Hx. fold A in Hx. cbn in Hf.
  assert (isIpv4 e A = true) as H4 by (unfold isIpv4; by rewrite Hf).
  assert (isIpv6 e A = false) as H6 by (unfold isIpv6; by rewrite Hf).
  unfold asSockAddrIn in Hx. unfold family in Hf.
  split_and!; [done|done| | | |].
  - unfold port, portNetEndian. rewrite H6, H4. unfold asSockAddrIn. rewrite Hx. by apply port16.
  - unfold ipv4NetEndian. rewrite H4. pass_asserts. unfold asSockAddrIn. by rewrite Hx.
  - unfold toIp, toIpLen, getSockAddr. rewrite Hf.
    change (64 =? 0) with false. change (AF_INET =? AF_INET) with true. change (INET_ADDRSTRLEN <=? 64) with true.
    cbv iota. pass_asserts. rewrite Hx. cbn [s_addr s]. by rewrite object_bytes_val, Ht.
  - unfold toIpPort, toIpPortLen, getSockAddr. rewrite Hf, Hx. cbn [s_addr sin_port s].
    rewrite object_bytes_val, Ht, port16 by done. 
    change (64 =? 0) with false. change (AF_INET =? AF_INET6) with false. change (AF_INET =? AF_INET) with true.
    change (AF_INET6 =? AF_INET6) with true. cbv iota. apply formatToBuffer_fits. rewrite !len_app. pose proof (port_text p Hp). unfold INET_ADDRSTRLEN in *.
    change (len (str ":")) with 1. lia.
Qed.

Lemma address6 a p ip w sc :
  length a = 16%nat → 0 ≤ p < 2 ^ 16 → 0 ≤ w < 2 ^ 32 → 0 ≤ sc < 2 ^ 32 →
  inet_ntop AF_INET6 a = Some ip → len ip < INET6_ADDRSTRLEN →
  let A := setSockAddrIn6Internal e (mkSin6 AF_INET6 (hostToNetwork16 e p) w a sc) in
  isIpv6 e A = true ∧ port e A = p ∧
  toIp e inet_ntop A = Ok ip ∧ toIpPort e inet_ntop A = str "[" ++ ip ++ str "]:" ++ format_int p.
Proof.
  intros Ha Hp Hw Hsc Ht Hlen A. set (s := mkSin6 _ _ _ _ _) in A.
  assert (sin6_ok s) as Hs.
  { split; [done|]. split; [by apply port_range|done]. }
  pose proof (set6_family s Hs) as Hf. fold A in Hf. pose proof (set6_fields s Hs) as Hx. fold A in Hx. cbn in Hf.
  assert (isIpv6 e A = true) as H6 by (unfold isIpv6; by rewrite Hf).
  unfold asSockAddrIn6 in Hx. unfold family in Hf.
  split_and!; [done| | |].
  - unfold port, portNetEndian. rewrite H6. unfold asSockAddrIn6. rewrite Hx. by apply port16.
  - unfold toIp, toIpLen, getSockAddr. rewrite Hf.
    change (64 =? 0) with false. change (AF_INET6 =? AF_INET) with false. change (AF_INET6 =? AF_INET6) with true.
    change (INET6_ADDRSTRLEN <=? 64) with true. cbv iota. pass_asserts. rewrite Hx. cbn [sin6_addr s]. by rewrite Ht.
  - unfold toIpPort, toIpPortLen, getSockAddr. rewrite Hf, Hx. cbn [sin6_addr sin6_port s].
    rewrite Ht, port16 by done. 
    change (64 =? 0) with false. change (AF_INET =? AF_INET6) with false. change (AF_INET =? AF_INET) with true.
    change (AF_INET6 =? AF_INET6) with true. cbv iota. apply formatToBuffer_fits. rewrite !len_app. pose proof (port_text p Hp). unfold INET6_ADDRSTRLEN in *.
    change (len (str "[")) with 1. change (len (str "]:")) with 2. lia.
Qed.

(** An address made from text is the address the text says. For every
    dotted or colon text that the system's [inet_ntop] and [inet_pton]
    exchange with the address bytes, and every port: the family, the text, the
    [ip:port] (or [[ip]:port]) text, the port and the address bytes of the
    [InetAddress] are the ones given, on either byte order; a text with a
    colon is taken for IPv6 whatever the flag. No buffer truncates anything
    and no assert fails. *)
Theorem inet_address_text ip a p :
  0 ≤ p < 2 ^ 16 →
  (text_of AF_INET 4 ip a → len ip < INET_ADDRSTRLEN → Byte.x3a ∉ ip →
   let A := InetAddress_text e inet_pton ip p false in
   isIpv4 e A = true ∧ isIpv6 e A = false ∧ port e A = p ∧ ipv4NetEndian e A = Ok (object_val e a) ∧
   toIp e inet_ntop A = Ok ip ∧ toIpPort e inet_ntop A = ip ++ str ":" ++ format_int p) ∧
  (text_of AF_INET6 16 ip a → len ip < INET6_ADDRSTRLEN → Byte.x3a ∈ ip → ∀ ipv6 scope, 0 ≤ scope < 2 ^ 32 →
   let A := setScopeId e scope (InetAddress_text e inet_pton ip p ipv6) in
   isIpv6 e A = true ∧ port e A = p ∧
   toIp e inet_ntop A = Ok ip ∧ toIpPort e inet_ntop A = str "[" ++ ip ++ str "]:" ++ format_int p).
Proof.
  intros Hp. split.
  - intros (Ha & Ht & Hn & H0) Hl Hc. unfold InetAddress_text.
    rewrite bool_decide_false by (rewrite (proj2 (find_byte_none _ _) Hc); by intros [? ?]).
    cbn [orb]. unfold fromIpPort4. rewrite c_str_id, Hn by done. cbn [sin_zero zero_sin]. by apply address4.
  - intros (Ha & Ht & Hn & H0) Hl Hc ipv6 scope Hscope. unfold InetAddress_text.
    rewrite bool_decide_true.
    2:{ destruct (find_byte Byte.x3a ip) eqn:E; [by eexists|]. by apply find_byte_none in E. }
    rewrite orb_true_r. unfold fromIpPort6. rewrite c_str_id, Hn by done. cbn [sin6_flowinfo sin6_scope_id zero_sin6].
    set (s := mkSin6 _ _ _ _ _). assert (sin6_ok s) as Hs by (split; [done|split; [by apply port_range|done]]).
    assert (setScopeId e scope (setSockAddrIn6Internal e s) =
      setSockAddrIn6Internal e (mkSin6 AF_INET6 (hostToNetwork16 e p) 0 a scope)) as ->.
    { unfold setScopeId, isIpv6. rewrite (set6_family s Hs), (set6_fields s Hs). done. }
    by apply address6.
Qed.

(** The first entry [resolve] can use. *)
Definition usable (ai : addrinfo) : bool :=
  ((ai_family ai =? AF_INET) && (16 <=? len (ai_addr ai))) || ((ai_family ai =? AF_INET6) && (28 <=? len (ai_addr ai))).
Definition first_usable (l : list addrinfo) : option addrinfo := head (filter (λ ai, usable ai = true) l).

Definition resolved (ai : addrinfo) (a : InetAddress) : InetAddress :=
  if ai_family ai =? AF_INET
  then setSockAddrIn e (mkSin AF_INET (portNetEndian e a) (object_val e (slice 4 4 (ai_addr ai))) (replicate 8 Byte.x00))
  else setSockAddrIn6Internal e (mkSin6 AF_INET6 (portNetEndian e a) 0 (slice 8 16 (ai_addr ai)) 0).

Lemma port_field_range (a : InetAddress) : len a = 128 → 0 ≤ portNetEndian e a < 2 ^ 16.
Proof.
  intros Ha. assert (length (slice 2 2 a) = 2%nat) as Hl.
  { pose proof (len_slice 2 2 a) as H. unfold len in *. lia. }
  pose proof (object_val_range 2 _ Hl) as Hr. unfold portNetEndian, asSockAddrIn6, asSockAddrIn.
  destruct (isIpv6 e a); [exact Hr|]. destruct (isIpv4 e a); [exact Hr|]. split; [lia|]. apply Z.pow_pos_nonneg; lia.
Qed.

Lemma resolve_list_spec l a :
  len a = 128 →
  resolve_list e l a = Ok (match first_usable l with Some ai => (true, resolved ai a) | None => (false, a) end).
Proof.
  intros Ha. pose proof (port_field_range a Ha) as Hp. induction l as [|ai l IH]; [done|]. cbn [resolve_list].
  unfold first_usable in *. rewrite filter_cons. unfold usable.
  destruct ((ai_family ai =? AF_INET) && (16 <=? len (ai_addr ai))) eqn:E4.
  - rewrite decide_True by done. cbn [head]. apply andb_true_iff in E4 as [Hf Hl]. apply Z.leb_le in Hl.
    unfold resolved. rewrite Hf. set (s := mkSin AF_INET (portNetEndian e a) 0 _).
    assert (sin_ok s) as Hs by (split; [done|split; [exact Hp|done]]).
    unfold setAddress4, isIpv4. rewrite (set4_family s Hs). pass_asserts.
    rewrite (set4_fields s Hs). done.
  - destruct ((ai_family ai =? AF_INET6) && (28 <=? len (ai_addr ai))) eqn:E6.
    + rewrite decide_True by done. cbn [head]. apply andb_true_iff in E6 as [Hf Hl]. apply Z.leb_le in Hl.
      apply Z.eqb_eq in Hf. unfold resolved. rewrite Hf. change (AF_INET6 =? AF_INET) with false. cbv iota.
      set (s := mkSin6 AF_INET6 (portNetEndian e a) 0 _ 0).
      assert (sin6_ok s) as Hs by (split; [done|split; [exact Hp|done]]).
      unfold setAddress6, isIpv6. rewrite (set6_family s Hs). pass_asserts.
      rewrite (set6_fields s Hs). done.
    + rewrite decide_False by done. exact IH.
Qed.
End Facts.

(** Resolving a name changes the address and nothing else. [resolve] asks
    for the family of the result object, or for any family when it has none;
    when the resolver fails or offers no usable entry it returns false and
    leaves the result as it was; otherwise the result becomes the first usable
    entry's address, in that entry's family and with the port the result had
    before. No assert fails. *)
Theorem resolve_keeps_port e getaddrinfo hostname a :
  len a = 128 →
  let wanted := if isIpv4 e a || isIpv6 e a then family e a else AF_UNSPEC in
  resolve e getaddrinfo hostname a =
    Ok (match getaddrinfo (c_str hostname) wanted with
        | Some l => match first_usable l with Some ai => (true, resolved e ai a) | None => (false, a) end
        | None => (false, a)
        end) ∧
  (∀ l ai, first_usable l = Some ai →
     portNetEndian e (resolved e ai a) = portNetEndian e a ∧ family e (resolved e ai a) = ai_family ai).
Proof.
  intros Ha wanted. split.
  - unfold resolve, resolve_family.
    assert ((if negb (family e a =? AF_INET) && negb (family e a =? AF_INET6) then AF_UNSPEC else family e a) = wanted) as ->.
    { subst wanted. unfold isIpv4, isIpv6. by destruct (_ =? AF_INET), (_ =? AF_INET6). }
    destruct (getaddrinfo _ _); [by apply resolve_list_spec|done].
  - intros l ai Hl. pose proof (port_field_range e a Ha) as Hp.
    assert (usable ai = true) as Hu.
    { unfold first_usable in Hl. apply head_Some_elem_of in Hl. by apply list_elem_of_filter in Hl as [? _]. }
    assert (∀ o n, 0 ≤ o → 0 ≤ n → o + n ≤ len (ai_addr ai) → length (slice o n (ai_addr ai)) = Z.to_nat n) as Hsl.
    { intros o n ???. pose proof (len_slice o n (ai_addr ai)) as Hx. unfold len in *. lia. }
    unfold usable in Hu. unfold resolved. destruct (Z.eqb_spec (ai_family ai) AF_INET) as [Hf|Hf].
    + rewrite Hf in Hu |- *. change (AF_INET =? AF_INET6) with false in Hu. cbn [andb orb] in Hu.
      rewrite orb_false_r in Hu. apply Z.leb_le in Hu.
      set (s := mkSin _ _ _ _). assert (sin_ok s) as Hs.
      { split; [done|]. split; [exact Hp|]. split; [apply (object_val_range e 4), Hsl; lia|done]. }
      pose proof (set4_family e s Hs) as Hfam. cbn in Hfam. split; [|exact Hfam].
      unfold portNetEndian at 1, isIpv6, isIpv4. rewrite Hfam. cbn [Z.eqb Pos.eqb AF_INET AF_INET6].
      change (AF_INET =? AF_INET6) with false. change (AF_INET =? AF_INET) with true. cbv iota.
      by rewrite (set4_fields e s Hs).
    + cbn [andb orb] in Hu. apply andb_true_iff in Hu as [Hf6 Hu]. apply Z.eqb_eq in Hf6. apply Z.leb_le in Hu.
      set (s := mkSin6 _ _ _ _ _). assert (sin6_ok s) as Hs.
      { split; [done|]. split; [exact Hp|]. split; [done|]. split; [apply Hsl; lia|done]. }
      pose proof (set6_family e s Hs) as Hfam. cbn in Hfam. split; [|congruence].
      unfold portNetEndian at 1, isIpv6. rewrite Hfam. change (AF_INET6 =? AF_INET6) with true. cbv iota.
      by rewrite (set6_fields e s Hs).
Qed.

(** ** The theorems at a concrete input *)

Definition sample_ip : bytes := str "127.0.0.1".
Definition sample_addr : bytes := [Byte.x7f; Byte.x00; Byte.x00; Byte.x01].
Definition sample_ntop (f : Z) (a : bytes) : option bytes :=
  if (f =? AF_INET) && bool_decide (a = sample_addr) then Some sample_ip else None.
Definition sample_pton (f : Z) (s : bytes) : option bytes :=
  if (f =? AF_INET) && bool_decide (s = sample_ip) then Some sample_addr else None.

Lemma inet_address_text_witness :
  let A := InetAddress_text little sample_pton sample_ip 8080 false in
  isIpv4 little A = true ∧ isIpv6 little A = false ∧ port little A = 8080 ∧
  ipv4NetEndian little A = Ok (object_val little sample_addr) ∧
  toIp little sample_ntop A = Ok sample_ip ∧
  toIpPort little sample_ntop A = sample_ip ++ str ":" ++ format_int 8080.
Proof.
  apply (inet_address_text little sample_ntop sample_pton sample_ip sample_addr 8080).
  - split; [apply Z.leb_le|apply Z.ltb_lt]; reflexivity.
  - by apply (bool_decide_unpack _).
  - reflexivity.
  - by apply (bool_decide_unpack _).
Defined.

Definition sample_resolver (_ : bytes) (_ : Z) : option (list addrinfo) :=
  Some [mkAddrinfo 1 []; mkAddrinfo AF_INET (sin_bytes big (mkSin AF_INET 0 0x0a000001 (replicate 8 Byte.x00)))].

Lemma resolve_keeps_port_witness :
  let a := InetAddress_port big 80 false false in
  resolve big sample_resolver (str "host") a =
    Ok (match sample_resolver (c_str (str "host")) (if isIpv4 big a || isIpv6 big a then family big a else AF_UNSPEC) with
        | Some l => match first_usable l with Some ai => (true, resolved big ai a) | None => (false, a) end
        | None => (false, a)
        end) ∧
  portNetEndian big (resolved big (mkAddrinfo AF_INET (sin_bytes big (mkSin AF_INET 0 0x0a000001 (replicate 8 Byte.x00)))) a) = 80.
Proof.
  pose proof (resolve_keeps_port big sample_resolver (str "host") (InetAddress_port big 80 false false)) as H.
  cbv zeta in *. destruct H as [H1 H2]; [by vm_compute|]. split; [exact H1|].
  destruct (H2 [mkAddrinfo AF_INET (sin_bytes big (mkSin AF_INET 0 0x0a000001 (replicate 8 Byte.x00)))]
    (mkAddrinfo AF_INET (sin_bytes big (mkSin AF_INET 0 0x0a000001 (replicate 8 Byte.x00)))) eq_refl) as [H3 _].
  rewrite H3. by vm_compute.
Defined.
