(* ===== verification/Acceptor.v ===== *)
(** * Acceptor: the listening socket ([muduo/net/Acceptor.h], [Acceptor.cc])

    The state is the object with the descriptors the program obtained, closed
    and handed on, and [errno]. The kernel's answers are parameters: the n-th
    answer of [::accept] and of [::open], and what a call of the logger leaves
    in [errno]. *)
From S2P Require Import Prelude Channel SocketsOps.
From stdpp Require Import options.

(* src/muduo/net/Acceptor.h:37-42 Acceptor *)
Record Acceptor := mkAcceptor {
  acceptFd_ : Z;
  acceptChannel_ : Channel;
  inPoller_ : bool;
  listening_ : bool;
  idleFd_ : Z;
  (* the program and the kernel *)
  errno_ : Z;
  accepts_ : nat;                    (* calls of ::accept so far *)
  opens_ : nat;                      (* calls of ::open so far *)
  obtained_ : list Z;                (* descriptors the kernel gave *)
  closed_ : list Z;
  delivered_ : list Z                (* handed to newConnectionCallback_ *)
}.

Section Setters.
Context (a : Acceptor).
Definition set_channel (c : Channel) := mkAcceptor (acceptFd_ a) c (inPoller_ a) (listening_ a) (idleFd_ a)
  (errno_ a) (accepts_ a) (opens_ a) (obtained_ a) (closed_ a) (delivered_ a).
Definition set_inPoller (b : bool) := mkAcceptor (acceptFd_ a) (acceptChannel_ a) b (listening_ a) (idleFd_ a)
  (errno_ a) (accepts_ a) (opens_ a) (obtained_ a) (closed_ a) (delivered_ a).
Definition set_listening := mkAcceptor (acceptFd_ a) (acceptChannel_ a) (inPoller_ a) true (idleFd_ a)
  (errno_ a) (accepts_ a) (opens_ a) (obtained_ a) (closed_ a) (delivered_ a).
Definition set_idle (fd : Z) := mkAcceptor (acceptFd_ a) (acceptChannel_ a) (inPoller_ a) (listening_ a) fd
  (errno_ a) (accepts_ a) (opens_ a) (obtained_ a) (closed_ a) (delivered_ a).
Definition set_errno (e : Z) := mkAcceptor (acceptFd_ a) (acceptChannel_ a) (inPoller_ a) (listening_ a) (idleFd_ a)
  e (accepts_ a) (opens_ a) (obtained_ a) (closed_ a) (delivered_ a).
Definition obtain (accepts opens : nat) (l : list Z) := mkAcceptor (acceptFd_ a) (acceptChannel_ a) (inPoller_ a)
  (listening_ a) (idleFd_ a) (errno_ a) accepts opens (obtained_ a ++ l) (closed_ a) (delivered_ a).
(** [::close]; of -1 it closes nothing. *)
Definition close_fd (fd : Z) := mkAcceptor (acceptFd_ a) (acceptChannel_ a) (inPoller_ a) (listening_ a) (idleFd_ a)
  (errno_ a) (accepts_ a) (opens_ a) (obtained_ a) (if fd <? 0 then closed_ a else closed_ a ++ [fd]) (delivered_ a).
Definition deliver (fd : Z) := mkAcceptor (acceptFd_ a) (acceptChannel_ a) (inPoller_ a) (listening_ a) (idleFd_ a)
  (errno_ a) (accepts_ a) (opens_ a) (obtained_ a) (closed_ a) (delivered_ a ++ [fd]).
End Setters.

Definition put_channel (c : Channel) (a : Acceptor) : Acceptor := set_channel a c.
Definition loop_updateChannel (a : Acceptor) : outcome Acceptor := Ok (set_inPoller a true).
Definition loop_removeChannel (a : Acceptor) : outcome Acceptor :=
  assert! inPoller_ a ;; Ok (set_inPoller a false).

(** The descriptors an answer brings. *)
Definition fds (r : sys_reply) : list Z := match r with Ret n => [n] | Err _ => [] end.

Section Acceptor.
Context (sys_accept : nat → sys_reply) (sys_open : nat → sys_reply) (logged : Z → Z).
Context (sys_socket : Z → sys_reply) (sys_setsockopt : Z → Z → Z → Z → sys_reply).
Context (sys_bind : Z → bytes → sys_reply) (sys_listen : Z → sys_reply).
Context (has_callback : bool).

Definition call_accept (a : Acceptor) : sys_reply * Acceptor :=
  let r := sys_accept (accepts_ a) in (r, obtain a (S (accepts_ a)) (opens_ a) (fds r)).
(** [::open("/dev/null", O_RDONLY | O_CLOEXEC)]. *)
Definition call_open (a : Acceptor) : Z * Acceptor :=
  let r := sys_open (opens_ a) in (reply_value r, obtain a (accepts_ a) (S (opens_ a)) (fds r)).
(** [muduo::logSysErr]. *)
Definition log_error (a : Acceptor) : Acceptor := set_errno a (logged (errno_ a)).

(* src/muduo/net/Acceptor.cc:14-27 Acceptor::Acceptor *)
Definition newAcceptor (family : Z) (listenAddr : bytes) (reusePort : bool) : outcome Acceptor :=
  let! sockfd := createNonblockingOrDie sys_socket family in
  let a := mkAcceptor sockfd (newChannel sockfd) false false (-1) 0 0 0 [] [] [] in
  let '(fd, a) := call_open a in
  let a := set_idle a fd in
  assert! 0 <=? idleFd_ a ;;
  let _ := setReuseAddr sys_setsockopt sockfd true in
  let _ := setReusePort sys_setsockopt sockfd reusePort in
  let! _ := bindAddress sys_bind sockfd listenAddr in
  Ok a.

(* src/muduo/net/Acceptor.cc:29-33 Acceptor::~Acceptor *)
Definition destroyAcceptor (a : Acceptor) : outcome Acceptor :=
  let! a := disableAll acceptChannel_ put_channel loop_updateChannel a in
  let! a := remove acceptChannel_ put_channel loop_removeChannel a in
  Ok (set_idle (close_fd a (idleFd_ a)) (-1)).

(** [here]: the caller is in the loop's thread. *)
(* src/muduo/net/Acceptor.cc:35-40 Acceptor::listen *)
Definition acceptor_listen (here : bool) (a : Acceptor) : outcome Acceptor :=
  let! _ := (if here then Ok tt else Fault FatalLog) in
  let a := set_listening a in
  let! _ := listen sys_listen (acceptFd_ a) in
  enableReading acceptChannel_ put_channel loop_updateChannel a.

(** [Socket::accept]: the descriptor, with [errno] in the state. *)
(* src/muduo/net/Socket.cc:55-62 Socket::accept *)
Definition socket_accept (a : Acceptor) : outcome (Z * Acceptor) :=
  let '(r, a) := call_accept a in
  let! (connfd, errno) := accept r (errno_ a) in
  Ok (connfd, set_errno a errno).

(* src/muduo/net/Acceptor.cc:42-64 Acceptor::handleRead *)
Definition handleRead (here : bool) (a : Acceptor) : outcome Acceptor :=
  let! _ := (if here then Ok tt else Fault FatalLog) in
  let! (connfd, a) := socket_accept a in
  if 0 <=? connfd then
    if has_callback then Ok (deliver a connfd) else Ok (close_fd a connfd)
  else
    let a := log_error a in
    if errno_ a =? EMFILE then
      let a := close_fd a (idleFd_ a) in
      let '(r, a) := call_accept a in
      let a := set_idle a (reply_value r) in
      let a := close_fd a (idleFd_ a) in
      let '(fd, a) := call_open a in
      Ok (set_idle a fd)
    else Ok a.

(** ** What becomes of the descriptors *)

(** The kernel's descriptors are not negative. *)
Definition kernel_fds : Prop := ∀ i n, (sys_accept i = Ret n ∨ sys_open i = Ret n) → 0 ≤ n.

Definition idle (a : Acceptor) : list Z := if idleFd_ a <? 0 then [] else [idleFd_ a].
Definition accounted (a : Acceptor) : Prop := obtained_ a ≡ₚ closed_ a ++ delivered_ a ++ idle a.

Lemma value_fds r : (∀ n, r = Ret n → 0 ≤ n) → fds r = if reply_value r <? 0 then [] else [reply_value r].
Proof.
  destruct r as [n|]; cbn; [|done]. intros H. specialize (H n eq_refl). by destruct (Z.ltb_spec n 0); [lia|].
Qed.

Lemma acceptor_read_ok a :
  kernel_fds → accounted a →
  match handleRead true a with
  | Ok a' => accounted a'
  | Fault f => f = FatalLog ∧ ∃ e, sys_accept (accepts_ a) = Err e ∧ e ∉ transient_errors
  end.
Proof.
  intros Hk Ha. unfold handleRead. cbn [obind]. unfold socket_accept, call_accept. cbn [obind accepts_].
  destruct (sys_accept (accepts_ a)) as [n|e] eqn:Er; cbn [accept].
  - cbn [obind]. assert (0 ≤ n) as Hn by (apply (Hk (accepts_ a)); by left).
    rewrite (proj2 (Z.leb_le 0 n) Hn).
    unfold accounted, idle in *. destruct has_callback; cbn; rewrite Ha.
    + solve_Permutation.
    + destruct (Z.ltb_spec n 0); [lia|]. solve_Permutation.
  - case_bool_decide as Ht; cbn [obind]; [|by eauto]. cbn [Z.leb Z.compare].
    unfold log_error. destruct (errno_ _ =? EMFILE).
    + unfold accounted, call_open, idle in *. cbn.
      rewrite !value_fds by (intros n Hn; by eapply Hk; eauto).
      rewrite app_nil_r, Ha. destruct (idleFd_ a <? 0), (reply_value (sys_accept _) <? 0), (reply_value (sys_open _) <? 0);
        solve_Permutation.
    + unfold accounted, idle in *. cbn. by rewrite app_nil_r.
Qed.

(** Readiness events, one after the other. *)
Definition run (n : nat) (a : Acceptor) : outcome Acceptor := foldM (λ _ a, handleRead true a) (replicate n tt) a.

Lemma run_accounted n a a' : kernel_fds → accounted a → run n a = Ok a' → accounted a'.
Proof.
  intros Hk. revert a. unfold run. induction n as [|n IH]; intros a Ha; cbn [replicate foldM]; [by intros [= <-]|].
  pose proof (acceptor_read_ok a Hk Ha) as H. destruct (handleRead true a) as [a1|]; cbn [obind]; [|done].
  by apply IH.
Qed.

Lemma destroy_acceptor_ok a :
  accounted a →
  ensures (destroyAcceptor a) (λ a', obtained_ a' ≡ₚ closed_ a' ++ delivered_ a' ∧ delivered_ a' = delivered_ a ∧ inPoller_ a' = false).
Proof.
  intros Ha. unfold destroyAcceptor, disableAll, update, remove, loop_removeChannel. cbn.
  change (isNoneEvent _) with true. pass_asserts. cbn. pass_asserts. cbn.
  unfold accounted, idle in Ha. rewrite Ha. split; [|done].
  destruct (idleFd_ a <? 0); cbn; [by rewrite app_nil_r|solve_Permutation].
Qed.

(** Every descriptor is accounted for. Over the whole life of an acceptor
    (construction, listening, any number of readiness events with any answers
    of the kernel, destruction), every descriptor [::accept] or [::open] gave
    is closed once, or handed to the callback once, or is the reserve in
    [idleFd_]; after the destructor there is no reserve left. *)
Theorem acceptor_descriptors family addr reusePort n a0 a1 a2 :
  kernel_fds → newAcceptor family addr reusePort = Ok a0 →
  acceptor_listen true a0 = Ok a1 → run n a1 = Ok a2 →
  obtained_ a2 ≡ₚ closed_ a2 ++ delivered_ a2 ++ idle a2 ∧
  ensures (destroyAcceptor a2) (λ a3, obtained_ a3 ≡ₚ closed_ a3 ++ delivered_ a3 ∧ inPoller_ a3 = false).
Proof.
  intros Hk Hnew Hlisten Hrun.
  assert (accounted a0) as H0.
  { unfold newAcceptor in Hnew. apply ok_bind_inv in Hnew as (sockfd & _ & Hnew). cbn in Hnew.
    apply ok_bind_inv in Hnew as (? & _ & Hnew). apply ok_bind_inv in Hnew as (? & _ & [= <-]).
    unfold accounted, idle. cbn. rewrite value_fds by (intros m Hm; by eapply Hk; eauto). done. }
  assert (accounted a1) as H1.
  { unfold acceptor_listen in Hlisten. cbn [obind] in Hlisten. apply ok_bind_inv in Hlisten as (? & _ & [= <-]). exact H0. }
  pose proof (run_accounted n a1 a2 Hk H1 Hrun) as H2. split; [exact H2|].
  eapply ensures_mono; [by apply destroy_acceptor_ok|]. by intros a3 (? & _ & ?).
Qed.

(** C31. What one readiness event does, error by error. A new connection is
    handed to the callback (or closed without one); an error [accept(2)] says
    to retry leaves everything as it was; when the process is out of
    descriptors, the reserve is given up, the waiting connection is accepted
    with it and closed at once, and the reserve is taken again; any other
    error ends the program. The logger must leave [errno] alone for this: it
    runs between the failure and the test. *)
Theorem acceptor_errors a :
  kernel_fds → (∀ e, logged e = e) →
  match sys_accept (accepts_ a), handleRead true a with
  | Ret n, Ok a' =>
      delivered_ a' = delivered_ a ++ (if has_callback then [n] else []) ∧
      closed_ a' = closed_ a ++ (if has_callback then [] else [n]) ∧ idleFd_ a' = idleFd_ a
  | Err e, Ok a' =>
      e ∈ transient_errors ∧ delivered_ a' = delivered_ a ∧
      (e ≠ EMFILE → closed_ a' = closed_ a ∧ idleFd_ a' = idleFd_ a ∧ accepts_ a' = S (accepts_ a)) ∧
      (e = EMFILE →
         closed_ a' = closed_ a ++ idle a ++ fds (sys_accept (S (accepts_ a))) ∧
         idleFd_ a' = reply_value (sys_open (opens_ a)) ∧ accepts_ a' = S (S (accepts_ a)))
  | Err e, Fault f => f = FatalLog ∧ e ∉ transient_errors
  | Ret _, Fault _ => False
  end.
Proof.
  intros Hk Hlog. unfold handleRead. cbn [obind]. unfold socket_accept, call_accept. cbn [accepts_].
  destruct (sys_accept (accepts_ a)) as [n|e] eqn:Er; cbn [accept].
  - cbn [obind]. assert (0 ≤ n) as Hn by (apply (Hk (accepts_ a)); by left).
    rewrite (proj2 (Z.leb_le 0 n) Hn). destruct has_callback; cbn; rewrite app_nil_r; [done|].
    by destruct (Z.ltb_spec n 0); [lia|].
  - case_bool_decide as Ht; cbn [obind]; [|done]. change (0 <=? -1) with false. cbv iota.
    unfold log_error. cbn [errno_ set_errno]. rewrite Hlog. destruct (Z.eqb_spec e EMFILE) as [->|Hne].
    + split_and!; [done|done|done|]. intros _. unfold call_open, idle. cbn.
      rewrite (value_fds (sys_accept _)) by (intros m Hm; by eapply Hk; eauto).
      split; [|done]. destruct (idleFd_ a <? 0), (reply_value _ <? 0); cbn; by rewrite ?app_nil_r, <- ?app_assoc.
    + split_and!; [done|done|done|congruence].
Qed.
End Acceptor.

(** ** The theorems at a concrete input *)

(** The kernel of the samples: descriptor 7 for the reserve, a connection 8,
    then no descriptors left; with the reserve given up, 7 again. *)
Definition sample_accept (i : nat) : sys_reply :=
  match i with 0%nat => Ret 8 | 1%nat => Err EMFILE | 2%nat => Ret 7 | _ => Err EAGAIN end.
Definition sample_open (_ : nat) : sys_reply := Ret 7.

Lemma sample_fds : kernel_fds sample_accept sample_open.
Proof. intros [|[|[|i]]] n [H|H]; unfold sample_accept, sample_open in H; injection H as <- || discriminate; by apply Z.leb_le. Qed.

Definition sample_new : Acceptor :=
  mkAcceptor 5 (newChannel 5) false false 7 0 0 1 [7] [] [].
Definition sample_listening : Acceptor :=
  match acceptor_listen (λ _, Ret 0) true sample_new with Ok a => a | Fault _ => sample_new end.
Definition sample_ran : Acceptor :=
  match run sample_accept sample_open (λ e, e) true 2 sample_listening with Ok a => a | Fault _ => sample_new end.

Lemma acceptor_descriptors_witness :
  (obtained_ sample_ran ≡ₚ closed_ sample_ran ++ delivered_ sample_ran ++ idle sample_ran ∧
   ensures (destroyAcceptor sample_ran)
     (λ a3, obtained_ a3 ≡ₚ closed_ a3 ++ delivered_ a3 ∧ inPoller_ a3 = false)) ∧
  delivered_ sample_ran = [8] ∧ closed_ sample_ran = [7; 7] ∧ idle sample_ran = [7].
Proof.
  split; [|by vm_compute].
  apply (acceptor_descriptors sample_accept sample_open (λ e, e) (λ _, Ret 5) (λ _ _ _ _, Ret 0) (λ _ _, Ret 0)
    (λ _, Ret 0) true AF_INET [] false 2 sample_new sample_listening sample_ran).
  - apply sample_fds.
  - by vm_compute.
  - by vm_compute.
  - by vm_compute.
Defined.

Definition sample_full : Acceptor :=
  match handleRead sample_accept sample_open (λ e, e) true true sample_listening with Ok a => a | Fault _ => sample_new end.

Lemma acceptor_errors_witness :
  match sample_accept (accepts_ sample_full), handleRead sample_accept sample_open (λ e, e) true true sample_full with
  | Ret n, Ok a' =>
      delivered_ a' = delivered_ sample_full ++ [n] ∧
      closed_ a' = closed_ sample_full ++ [] ∧ idleFd_ a' = idleFd_ sample_full
  | Err e, Ok a' =>
      e ∈ transient_errors ∧ delivered_ a' = delivered_ sample_full ∧
      (e ≠ EMFILE → closed_ a' = closed_ sample_full ∧ idleFd_ a' = idleFd_ sample_full ∧
         accepts_ a' = S (accepts_ sample_full)) ∧
      (e = EMFILE →
         closed_ a' = closed_ sample_full ++ idle sample_full ++ fds (sample_accept (S (accepts_ sample_full))) ∧
         idleFd_ a' = reply_value (sample_open (opens_ sample_full)) ∧ accepts_ a' = S (S (accepts_ sample_full)))
  | Err e, Fault f => f = FatalLog ∧ e ∉ transient_errors
  | Ret _, Fault _ => False
  end.
Proof. apply (acceptor_errors sample_accept sample_open (λ e, e) true sample_full sample_fds). done. Defined.

(** With a logger that leaves another value in [errno] (its own [write]
    failing, say), the reserve is not used and the connection keeps waiting:
    the listening socket stays readable. *)
Lemma logger_hides_emfile :
  match handleRead sample_accept sample_open (λ _, EAGAIN) true true sample_full with
  | Ok a' => closed_ a' = closed_ sample_full ∧ delivered_ a' = delivered_ sample_full
  | Fault _ => False
  end.
Proof. by vm_compute. Qed.
