(* ===== verification/ServerStack.v ===== *)
(** * ServerStack: a server with its acceptor
    ([muduo/net/TcpServer.cc], [Acceptor.cc], [TcpConnection.cc])

    The constructor of [TcpServer] gives the acceptor [newConnection] as its
    callback: a readable listening socket is an accepted descriptor, which
    becomes a connection. The state is both objects, the steps are those of
    [TcpServer] with the acceptor's readiness event in place of a connection
    out of nowhere. The theorem follows the descriptors from the kernel to
    their end. *)
From S2P Require Import Prelude Format Buffer Channel TcpConnection ConnectionEnd SocketsOps EventLoopThreadPool TcpServer ServerEnd Acceptor.
From stdpp Require Import options.

Record stack := mkStack { acceptor : Acceptor; server : TcpServer }.

Section Stack.
(** The kernel and the logger, for the acceptor; [::write] on each socket and
    the user's callbacks, for the connections. *)
Context (sys_accept sys_open : nat → sys_reply) (logged : Z → Z) (sys_listen : Z → sys_reply).
Context (kernel_write : Z → nat → bytes → write_reply) (u : user).

(** [Acceptor::handleRead] ends with its callback, in the server's loop. *)
(* src/muduo/net/TcpServer.cc:35-38 TcpServer::TcpServer, the acceptor's callback *)
Definition stack_accept (st : stack) : outcome stack :=
  let! a := Acceptor.handleRead sys_accept sys_open logged true true (acceptor st) in
  match drop (length (delivered_ (acceptor st))) (delivered_ a) with
  | fd :: _ =>
      let! s := server_newConnection kernel_write u (loop_ (server st)) fd (server st) in Ok (mkStack a s)
  | [] => Ok (mkStack a (server st))
  end.

(** A functor of one of the loops; [TListen] is [acceptor_->listen()]. *)
Definition stack_task (L : Z) (t : task) (st : stack) : outcome stack :=
  let! s := run_task kernel_write u L t (server st) in
  match t with
  | TListen => let! a := acceptor_listen sys_listen true (acceptor st) in Ok (mkStack a s)
  | _ => Ok (mkStack (acceptor st) s)
  end.

Inductive stack_step : stack → stack → Prop :=
| st_accept st st' : nextConnId_ (server st) < 2 ^ 31 - 1 → stack_accept st = Ok st' → stack_step st st'
| st_task st l1 L t l2 st' :
    queue_ (server st) = l1 ++ (L, t) :: l2 → Forall (λ x, x.1 ≠ L) l1 →
    stack_task L t (mkStack (acceptor st) (set_queue (l1 ++ l2) (server st))) = Ok st' → stack_step st st'
| st_conn st i o op s' :
    objects_ (server st) !! i = Some o → op ≠ OpEstablish → op ≠ OpDestroy → legal op (o_conn o) →
    on_conn i (λ fd, exec (kernel_write fd) (conn_user u) op) (server st) = Ok s' →
    stack_step st (mkStack (acceptor st) s').

(** A server that has been made and started: its acceptor has the reserve. *)
Definition stack_up (st : stack) : Prop :=
  server_up (server st) ∧ accounted (acceptor st) ∧ delivered_ (acceptor st) = [].

Inductive stack_reachable : stack → Prop :=
| sk_up st : stack_up st → stack_reachable st
| sk_step st st' : stack_reachable st → stack_step st st' → stack_reachable st'.

Hypothesis kernel_ok : ∀ fd i d n, kernel_write fd i d = WOk n → 0 ≤ n ≤ len d.
Hypothesis user_ok : ∀ fd, plays (kernel_write fd) (conn_user u).
Hypothesis fds_ok : kernel_fds sys_accept sys_open.

(** What holds of the two together: every accepted descriptor is the socket of
    a connection. *)
Record stack_inv (st : stack) : Prop := mkStackInv {
  ki_server : server_reachable kernel_write u (server st);
  ki_acceptor : accounted (acceptor st);
  ki_sockets : delivered_ (acceptor st) = sockets (server st)
}.

(** *** The sockets of the server *)

Lemma on_conn_sockets i f s s' : on_conn i f s = Ok s' → sockets s' = sockets s.
Proof using Type.
  unfold on_conn. intros (o & Ho & (c & _ & H)%ok_bind_inv)%ok_bind_inv.
  rewrite <- (sockets_set_conn i o c s Ho). case_bool_decide; [|by injection H as <-].
  unfold removeConnection in H. destruct (_ =? _); [|by injection H as <-].
  unfold removeConnectionInLoop in H. apply ok_bind_inv in H as (? & _ & (? & _ & (? & _ & [= <-])%ok_bind_inv)%ok_bind_inv).
  done.
Qed.

Lemma task_sockets L t s s' : run_task kernel_write u L t s = Ok s' → sockets s' = sockets s.
Proof using Type.
  destruct t as [|i|i|i]; cbn [run_task]; [by intros [= <-]|apply on_conn_sockets| |apply on_conn_sockets].
  unfold removeConnectionInLoop. by intros (? & _ & (? & _ & (? & _ & [= <-])%ok_bind_inv)%ok_bind_inv)%ok_bind_inv.
Qed.

Lemma accept_sockets fd s s' :
  server_newConnection kernel_write u (loop_ s) fd s = Ok s' → sockets s' = sockets s ++ [fd].
Proof using Type.
  unfold server_newConnection.
  intros ([ioLoop p] & _ & (inp & _ & (out & _ & H)%ok_bind_inv)%ok_bind_inv)%ok_bind_inv.
  set (s1 := mkServer _ _ _ _ _ _ _ _ _ _) in H.
  assert (sockets s1 = sockets s ++ [fd]) as <- by (unfold sockets; apply (fmap_app o_fd)).
  unfold runInLoop in H. destruct (_ =? _); [by eapply task_sockets|by injection H as <-].
Qed.

(** *** One step *)

Lemma read_delivers a a' :
  Acceptor.handleRead sys_accept sys_open logged true true a = Ok a' →
  delivered_ a' = delivered_ a ∨ ∃ fd, delivered_ a' = delivered_ a ++ [fd].
Proof using Type.
  unfold Acceptor.handleRead, socket_accept, call_accept. cbn [obind].
  intros ([connfd a1] & ([fd errno] & _ & [= <- <-])%ok_bind_inv & H)%ok_bind_inv.
  destruct (0 <=? fd); [injection H as <-; right; by exists fd|]. left.
  destruct (errno_ _ =? EMFILE); by injection H as <-.
Qed.

Lemma stack_inv_step st st' : stack_inv st → stack_step st st' → stack_inv st'.
Proof using fds_ok.
  intros [Hs Ha Hd] Hst. destruct Hst as [st st' Hn He|st l1 L t l2 st' Hq Hl He|st i o op s' Ho He Hdest Hleg Hs'].
  - unfold stack_accept in He. apply ok_bind_inv in He as (a & Hread & He).
    pose proof (acceptor_read_ok sys_accept sys_open logged true (acceptor st) fds_ok Ha) as Hacc. rewrite Hread in Hacc.
    destruct (read_delivers _ _ Hread) as [E|[fd E]].
    + rewrite E, drop_all in He. injection He as <-. split; [done|done|]. cbn. by rewrite E.
    + rewrite E, drop_app_length in He. apply ok_bind_inv in He as (s & Hnew & [= <-]). split; cbn.
      * eapply sr_step; [exact Hs|]. by eapply ss_accept.
      * done.
      * rewrite E, Hd. symmetry. by apply accept_sockets.
  - unfold stack_task in He. cbn [server acceptor] in He. apply ok_bind_inv in He as (s & Hrun & He).
    assert (server_reachable kernel_write u s) as Hr by (eapply sr_step; [exact Hs|]; by eapply ss_task).
    assert (sockets s = sockets (server st)) as Hsock by (by rewrite (task_sockets _ _ _ _ Hrun)).
    destruct t; [|injection He as <-; split; cbn; congruence..].
    apply ok_bind_inv in He as (a & Hlisten & [= <-]). unfold acceptor_listen in Hlisten. cbn [obind] in Hlisten.
    apply ok_bind_inv in Hlisten as (? & _ & [= <-]). split; cbn; [done|exact Ha|congruence].
  - split; cbn; [eapply sr_step; [exact Hs|]; by eapply ss_conn|done|].
    rewrite Hd. symmetry. by eapply on_conn_sockets.
Qed.

Lemma server_stack_inv st : stack_reachable st → stack_inv st.
Proof using fds_ok.
  induction 1 as [st (Hup & Ha & Hd)|st st' _ IH Hst]; [|by eapply stack_inv_step].
  split; [by apply sr_up|done|]. rewrite Hd. unfold sockets. by destruct Hup as (_ & _ & _ & _ & -> & _).
Qed.

(** ** The end *)

(** The destructors of connection objects. *)
Fixpoint destroy_objects (l : list conn_object) : outcome (list sys_call) :=
  match l with
  | [] => Ok []
  | o :: l => let! calls := destroyConnection (o_conn o) in let! rest := destroy_objects l in Ok (calls ++ rest)
  end.

Definition closes (l : list sys_call) : list Z := omap (λ c, match c with SysClose fd => Some fd | _ => None end) l.

Lemma destroy_objects_ok l :
  (∀ i o, l !! i = Some o → destroyConnection (o_conn o) = Ok [SysClose (o_fd o)]) →
  ∃ calls, destroy_objects l = Ok calls ∧ closes calls = o_fd <$> l.
Proof using Type.
  induction l as [|o l IH]; intros H; [by exists []|].
  destruct IH as (calls & E & Hc); [by intros i o' Hi; apply (H (S i))|].
  exists (SysClose (o_fd o) :: calls). cbn [destroy_objects]. rewrite (H 0%nat o eq_refl), E. cbn. by rewrite <- Hc.
Qed.

(** The destructor of the server and, as its member, of the acceptor; what is
    left in the loops; and the connection objects, when their last owners are
    gone. *)
Definition stack_teardown (st : stack) : outcome (Acceptor * list sys_call) :=
  let! s1 := destroyServer kernel_write u (loop_ (server st)) (server st) in
  let! a := destroyAcceptor (acceptor st) in
  let! s2 := foldM (orphan kernel_write u) (queue_ s1) s1 in
  let! calls := destroy_objects (objects_ s2) in
  Ok (a, calls).

(** C18. A server leaks no descriptor and closes none twice. Over the whole
    life of a server, whatever the kernel answers to [accept] and [open] and
    whatever its connections do: every descriptor the kernel gave has been
    closed by the acceptor once, or is the socket of one connection, or is the
    reserve. When the server is destroyed with nothing but [connectDestroyed]
    queued, no assert fails on the way and every descriptor is closed exactly
    once. *)
Theorem server_descriptors st :
  stack_reachable st →
  obtained_ (acceptor st) ≡ₚ closed_ (acceptor st) ++ sockets (server st) ++ idle (acceptor st) ∧
  (only_destroy (queue_ (server st)) →
     safely (stack_teardown st) (λ '(a, calls), obtained_ a ≡ₚ closed_ a ++ closes calls)).
Proof using kernel_ok user_ok fds_ok.
  intros Hr. destruct (server_stack_inv st Hr) as [Hs Ha Hd]. unfold accounted in Ha. split; [by rewrite <- Hd|].
  intros Hq. unfold stack_teardown.
  eapply safely_bind; [by apply (torn_down kernel_write u kernel_ok user_ok)|]. intros s1 (_ & _ & H1).
  eapply safely_bind; [apply safely_ensures, destroy_acceptor_ok; exact Ha|]. intros a (Ha1 & Hd1 & _).
  eapply safely_bind; [exact H1|]. intros s2 (_ & Hs2 & Hend).
  destruct (destroy_objects_ok (objects_ s2) Hend) as (calls & -> & Hc). cbn.
  rewrite Ha1, Hd1, Hd, Hc. unfold sockets in Hs2. by rewrite Hs2.
Qed.
End Stack.

(** ** The theorem at a concrete input *)

(** The kernel of [Acceptor]'s samples: one connection, 8; then the process is
    out of descriptors, and the reserve 7 is used. *)
Definition stack0 : stack := mkStack sample_listening sample_server.
Definition sample_step_accept := stack_accept sample_accept sample_open (λ e, e) sample_kernels quiet_user.
Definition sample_step_task := stack_task (λ _, Ret 0) sample_kernels quiet_user.
Definition after_stack (m : outcome stack) : stack := match m with Ok st => st | Fault _ => stack0 end.
Definition stack1 : stack := after_stack (sample_step_accept stack0).
Definition stack2 : stack :=
  after_stack (sample_step_task 200 (TEstablish 0) (mkStack (acceptor stack1) (set_queue [] (server stack1)))).
Definition stack3 : stack := after_stack (sample_step_accept stack2).

Lemma stack3_reachable : stack_reachable sample_accept sample_open (λ e, e) (λ _, Ret 0) sample_kernels quiet_user stack3.
Proof.
  apply (sk_step _ _ _ _ _ _ stack2); [|apply st_accept; by vm_compute].
  apply (sk_step _ _ _ _ _ _ stack1); [|by apply (st_task _ _ _ _ _ _ _ [] 200 (TEstablish 0) []); vm_compute].
  apply (sk_step _ _ _ _ _ _ stack0); [|apply st_accept; by vm_compute].
  apply sk_up. split; [|split; [apply (bool_decide_unpack _); vm_compute; exact I|by vm_compute]].
  split_and!; try done. split_and!; [done|right; by vm_compute|by vm_compute].
Qed.

Lemma server_descriptors_witness :
  (obtained_ (acceptor stack3) ≡ₚ closed_ (acceptor stack3) ++ sockets (server stack3) ++ idle (acceptor stack3) ∧
   (only_destroy (queue_ (server stack3)) →
      safely (stack_teardown sample_kernels quiet_user stack3) (λ '(a, calls), obtained_ a ≡ₚ closed_ a ++ closes calls))) ∧
  obtained_ (acceptor stack3) = [7; 8; 7; 7] ∧ sockets (server stack3) = [8] ∧ only_destroy (queue_ (server stack3)).
Proof.
  split; [|split_and!; by vm_compute].
  apply (server_descriptors sample_accept sample_open (λ e, e) (λ _, Ret 0) sample_kernels quiet_user
           sample_kernels_ok quiet_plays sample_fds). apply stack3_reachable.
Defined.
