(* ===== verification/GzipFile.v ===== *)
(** * GzipFile: the owner of a gzFile ([muduo/base/GzipFile.h])

    A [GzipFile] owns at most one handle of zlib's; moving hands it over,
    assigning and destroying close it. The state is the store of the objects
    (several of them, since moves and swaps are between objects, which may be
    the same one) and what zlib has been asked: how often to open, and which
    handles to close, in order. Using a handle that zlib does not have open is
    a fault. What zlib answers is a parameter. *)
From S2P Require Import Prelude.
From stdpp Require Import options.

(** [path.c_str()] ends at the first zero byte. *)
Fixpoint c_str (s : bytes) : bytes :=
  match s with
  | [] => []
  | b :: s' => if bool_decide (b = Byte.x00) then [] else b :: c_str s'
  end.

(* src/muduo/base/GzipFile.h:140-140 GzipFile *)
Record files := mkFiles {
  objects : gmap nat (option nat);      (* the live objects: their file_ *)
  opened : nat;                         (* gzopen has given the handles 0 .. opened-1 *)
  calls : nat;                          (* calls of gzopen *)
  closed : list nat                     (* what gzclose was called for *)
}.

Section GzipFile.
(** Whether the i-th [gzopen] succeeds; [gzread], [gzwrite], [gztell],
    [gzoffset] and [gzbuffer] on a handle. *)
Context (gzopen : nat → bytes → bytes → bool).
Context (gzread : nat → Z → Z) (gzwrite : nat → bytes → Z → Z) (gztell gzoffset : nat → Z)
  (gzbuffer : nat → Z → Z).

Definition isOpen (h : nat) (s : files) : bool := bool_decide ((h < opened s)%nat ∧ h ∉ closed s).

Definition set_file (i : nat) (f : option nat) (s : files) : files :=
  mkFiles (<[i := f]> (objects s)) (opened s) (calls s) (closed s).
(** [file_] of an object that must exist. *)
Definition file_of (i : nat) (s : files) : outcome (option nat) := deref (objects s !! i).

(* src/muduo/base/GzipFile.h:23-24 GzipFile::GzipFile *)
Definition newEmpty (i : nat) (s : files) : outcome files := Ok (set_file i None s).

(* src/muduo/base/GzipFile.h:26-27 GzipFile::GzipFile(GzipFile &&) *)
Definition moveNew (i rhs : nat) (s : files) : outcome files :=
  let! f := file_of rhs s in
  Ok (set_file i f (set_file rhs None s)).

(* src/muduo/base/GzipFile.h:43-48 GzipFile::close *)
Definition close (i : nat) (s : files) : outcome files :=
  let! f := file_of i s in
  match f with
  | Some h =>
      if isOpen h s then Ok (set_file i None (mkFiles (objects s) (opened s) (calls s) (closed s ++ [h])))
      else Fault NullDeref
  | None => Ok s
  end.

(* src/muduo/base/GzipFile.h:29-35 GzipFile::operator= *)
Definition moveAssign (i rhs : nat) (s : files) : outcome files :=
  if bool_decide (i = rhs) then Ok s
  else
    let! s1 := close i s in
    let! f := file_of rhs s1 in
    Ok (set_file i f (set_file rhs None s1)).

(* src/muduo/base/GzipFile.h:37-37 GzipFile::~GzipFile *)
Definition destroy (i : nat) (s : files) : outcome files :=
  let! s1 := close i s in
  Ok (mkFiles (delete i (objects s1)) (opened s1) (calls s1) (closed s1)).

(* src/muduo/base/GzipFile.h:39-41 GzipFile::valid, operator bool, nativeHandle *)
Definition valid (i : nat) (s : files) : outcome bool :=
  let! f := file_of i s in Ok (bool_decide (f ≠ None)).

(* src/muduo/base/GzipFile.h:50-50 GzipFile::swap *)
Definition swap (i rhs : nat) (s : files) : outcome files :=
  let! f := file_of i s in
  let! g := file_of rhs s in
  Ok (set_file rhs f (set_file i g s)).

(* src/muduo/base/GzipFile.h:132-138 GzipFile::open *)
Definition open (i : nat) (filename mode : bytes) (s : files) : outcome files :=
  let ok := gzopen (calls s) (c_str filename) mode in
  let n := opened s in
  Ok (set_file i (if ok then Some n else None)
       (mkFiles (objects s) (if ok then S n else n) (S (calls s)) (closed s))).

(* src/muduo/base/GzipFile.h:95-97 GzipFile::openForRead *)
Definition openForRead (i : nat) (filename : bytes) : files → outcome files := open i filename (str "rbe").
(* src/muduo/base/GzipFile.h:98-100 GzipFile::openForAppend *)
Definition openForAppend (i : nat) (filename : bytes) : files → outcome files := open i filename (str "abe").
(* src/muduo/base/GzipFile.h:101-104 GzipFile::openForWriteExclusive *)
Definition openForWriteExclusive (i : nat) (filename : bytes) : files → outcome files := open i filename (str "wbxe").
(* src/muduo/base/GzipFile.h:105-108 GzipFile::openForWriteTruncate *)
Definition openForWriteTruncate (i : nat) (filename : bytes) : files → outcome files := open i filename (str "wbe").

(** The same with a [std::filesystem::path], whose native string is passed. *)
(* src/muduo/base/GzipFile.h:110-114 GzipFile::openForRead of a path *)
Definition openForReadPath (i : nat) (filename : bytes) : files → outcome files := open i filename (str "rbe").
(* src/muduo/base/GzipFile.h:115-119 GzipFile::openForAppend of a path *)
Definition openForAppendPath (i : nat) (filename : bytes) : files → outcome files := open i filename (str "abe").
(* src/muduo/base/GzipFile.h:120-124 GzipFile::openForWriteExclusive of a path *)
Definition openForWriteExclusivePath (i : nat) (filename : bytes) : files → outcome files := open i filename (str "wbxe").
(* src/muduo/base/GzipFile.h:125-129 GzipFile::openForWriteTruncate of a path *)
Definition openForWriteTruncatePath (i : nat) (filename : bytes) : files → outcome files := open i filename (str "wbe").

(** The calls that pass on to zlib, [failed] when there is no file. *)
Definition with_file {A} (i : nat) (call : nat → A) (failed : A) (s : files) : outcome A :=
  let! f := file_of i s in
  match f with
  | Some h => if isOpen h s then Ok (call h) else Fault NullDeref
  | None => Ok failed
  end.

(* src/muduo/base/GzipFile.h:53-55 GzipFile::setBuffer *)
Definition setBuffer (i : nat) (size : Z) (s : files) : outcome bool :=
  with_file i (λ h, gzbuffer h size =? 0) false s.
(* src/muduo/base/GzipFile.h:58-60 GzipFile::read *)
Definition read (i : nat) (n : Z) (s : files) : outcome Z := with_file i (λ h, gzread h n) (-1) s.
(* src/muduo/base/GzipFile.h:62-64 GzipFile::read of a span *)
Definition readSpan (i : nat) (size : Z) (s : files) : outcome Z := read i (swrap 32 size) s.
(* src/muduo/base/GzipFile.h:66-70 GzipFile::write *)
Definition write (i : nat) (text : bytes) (s : files) : outcome Z :=
  with_file i (λ h, gzwrite h text (wrap 32 (len text))) (-1) s.
(* src/muduo/base/GzipFile.h:79-83 GzipFile::write of a span *)
Definition writeSpan (i : nat) (data : bytes) (s : files) : outcome Z :=
  with_file i (λ h, gzwrite h data (wrap 32 (len data))) (-1) s.
(* src/muduo/base/GzipFile.h:85-87 GzipFile::tell *)
Definition tell (i : nat) (s : files) : outcome Z := with_file i gztell (-1) s.
(* src/muduo/base/GzipFile.h:90-92 GzipFile::offset *)
Definition offset (i : nat) (s : files) : outcome Z := with_file i gzoffset (-1) s.

(** ** Programs with these objects *)

Inductive gz_op :=
| GNew (i : nat) | GMoveNew (i rhs : nat) | GMoveAssign (i rhs : nat) | GDestroy (i : nat)
| GClose (i : nat) | GSwap (i rhs : nat) | GOpen (i : nat) (filename mode : bytes)
| GRead (i : nat) (n : Z) | GWrite (i : nat) (text : bytes) | GTell (i : nat).

Definition gz_exec (o : gz_op) (s : files) : outcome files :=
  match o with
  | GNew i => newEmpty i s
  | GMoveNew i rhs => moveNew i rhs s
  | GMoveAssign i rhs => moveAssign i rhs s
  | GDestroy i => destroy i s
  | GClose i => close i s
  | GSwap i rhs => swap i rhs s
  | GOpen i filename mode => open i filename mode s
  | GRead i n => let! _ := read i n s in Ok s
  | GWrite i text => let! _ := write i text s in Ok s
  | GTell i => let! _ := tell i s in Ok s
  end.

(** The scopes: an object is made under a new name and used while it lives. *)
Definition scope (o : gz_op) (live : gset nat) : option (gset nat) :=
  match o with
  | GNew i | GOpen i _ _ => guard (i ∉ live);; Some ({[i]} ∪ live)
  | GMoveNew i rhs => guard (i ∉ live ∧ rhs ∈ live);; Some ({[i]} ∪ live)
  | GMoveAssign i rhs | GSwap i rhs => guard (i ∈ live ∧ rhs ∈ live);; Some live
  | GDestroy i => guard (i ∈ live);; Some (live ∖ {[i]})
  | GClose i | GRead i _ | GWrite i _ | GTell i => guard (i ∈ live);; Some live
  end.
Fixpoint scopes (ops : list gz_op) (live : gset nat) : option (gset nat) :=
  match ops with
  | [] => Some live
  | o :: ops' => live' ← scope o live; scopes ops' live'
  end.

Definition no_files : files := mkFiles ∅ 0 0 [].

(** The handles the objects hold, once for each object. *)
Definition owned (m : gmap nat (option nat)) : list nat := omap snd (map_to_list m).

Lemma owned_new m i f : m !! i = None → owned (<[i := f]> m) ≡ₚ option_list f ++ owned m.
Proof using Type.
  intros H. unfold owned. rewrite map_to_list_insert by done. by destruct f.
Qed.
Lemma owned_out m i f : m !! i = Some f → owned m ≡ₚ option_list f ++ owned (delete i m).
Proof using Type.
  intros H. rewrite <- (owned_new (delete i m) i f) by apply lookup_delete_eq.
  by rewrite insert_delete_id.
Qed.
Lemma owned_set m i f : owned (<[i := f]> m) ≡ₚ option_list f ++ owned (delete i m).
Proof using Type. rewrite <- insert_delete_eq. apply owned_new, lookup_delete_eq. Qed.

(** Every handle zlib gave out is held by one object or has been closed, once. *)
Definition accounted (s : files) : Prop := owned (objects s) ++ closed s ≡ₚ seq 0 (opened s).

Lemma accounted_open s i h : accounted s → objects s !! i = Some (Some h) → isOpen h s = true.
Proof using Type.
  intros Ha Hi. unfold isOpen. apply bool_decide_eq_true. unfold accounted in Ha.
  rewrite (owned_out _ i (Some h)) in Ha by done. cbn [option_list app] in Ha.
  assert (NoDup (h :: owned (delete i (objects s)) ++ closed s)) as [Hn _]%NoDup_cons.
  { rewrite Ha. apply NoDup_seq. }
  split; [|by intros ?; apply Hn, elem_of_app; right].
  assert (h ∈ seq 0 (opened s)) as Hs by (rewrite <- Ha; left). apply elem_of_seq in Hs. lia.
Qed.

Lemma use_ok {A} i (call : nat → A) failed s :
  accounted s → i ∈ dom (objects s) → ensures (with_file i call failed s) (λ _, True).
Proof using Type.
  intros Ha [f Hi]%elem_of_dom. unfold with_file, file_of. rewrite Hi. cbn [deref obind].
  destruct f as [h|]; [|done]. by rewrite (accounted_open s i h).
Qed.

Lemma close_ok i s :
  accounted s → i ∈ dom (objects s) →
  ensures (close i s) (λ s', accounted s' ∧ objects s' = <[i := None]> (objects s)).
Proof using Type.
  intros Ha [f Hi]%elem_of_dom. unfold close, file_of. rewrite Hi. cbn [deref obind].
  destruct f as [h|]; [|cbn; split; [done|by rewrite insert_id]].
  rewrite (accounted_open s i h) by done. cbn [ensures]. split; [|done].
  unfold accounted in *. cbn [set_file objects opened closed]. rewrite owned_set, <- Ha.
  rewrite (owned_out (objects s) i (Some h)) by done. cbn [option_list app].
  by rewrite app_assoc, Permutation_app_comm.
Qed.

Lemma owned_blank m i : mjoin (m !! i) = None → owned (delete i m) ≡ₚ owned m.
Proof using Type.
  destruct (m !! i) as [[h|]|] eqn:E; [done| |]; intros _.
  - by rewrite (owned_out m i None).
  - by rewrite delete_id.
Qed.

(** Handing a file over to an object that has none. *)
Lemma hand_over i rhs f s :
  accounted s → i ≠ rhs → objects s !! rhs = Some f → mjoin (objects s !! i) = None →
  accounted (set_file i f (set_file rhs None s)).
Proof using Type.
  intros Ha Hne Hr Hi. unfold accounted in *. cbn [set_file objects opened closed]. rewrite <- Ha.
  apply Permutation_app_tail. rewrite owned_set, delete_insert_ne, owned_set by done. cbn [option_list app].
  rewrite <- (owned_blank (objects s) i) by done. symmetry. apply owned_out. by rewrite lookup_delete_ne.
Qed.

Lemma swap_accounted i rhs f g s :
  accounted s → objects s !! i = Some f → objects s !! rhs = Some g →
  accounted (set_file rhs f (set_file i g s)).
Proof using Type.
  intros Ha Hi Hr. unfold accounted in *. cbn [set_file objects opened closed]. rewrite <- Ha.
  apply Permutation_app_tail. destruct (decide (i = rhs)) as [<-|Hne].
  - assert (f = g) as -> by congruence. by rewrite insert_insert_eq, insert_id.
  - rewrite owned_set, delete_insert_ne, owned_set by done.
    rewrite (owned_out (objects s) i f), (owned_out (delete i (objects s)) rhs g), (delete_delete _ rhs i);
      [solve_Permutation|by rewrite lookup_delete_ne|done].
Qed.

Lemma gz_exec_ok o s live' :
  accounted s → scope o (dom (objects s)) = Some live' →
  ensures (gz_exec o s) (λ s', accounted s' ∧ dom (objects s') = live').
Proof using Type.
  clear gzoffset gzbuffer. intros Ha. destruct o as [i|i rhs|i rhs|i|i|i rhs|i fn m|i n|i text|i]; cbn [scope gz_exec];
    (case_guard as Hl; [|done]); intros [= <-].
  - cbn. split; [|by rewrite dom_insert_L]. apply not_elem_of_dom in Hl. unfold accounted in *.
    cbn [objects opened closed set_file]. rewrite <- Ha. by rewrite owned_new.
  - destruct Hl as [Hi [f Hr]%elem_of_dom]. assert (i ≠ rhs) as Hne by (intros ->; by eapply Hi, elem_of_dom_2, Hr).
    unfold moveNew, file_of. rewrite Hr. cbn [deref obind ensures]. split.
    + apply hand_over; [done|done|done|]. by apply not_elem_of_dom in Hi as ->.
    + cbn. rewrite !dom_insert_L. apply elem_of_dom_2 in Hr. set_solver.
  - destruct Hl as [Hi Hr]. unfold moveAssign. case_bool_decide as Hne; [by split|].
    eapply ensures_bind; [by apply close_ok|]. intros s1 [H1 E1]. apply elem_of_dom in Hr as [f Hr].
    unfold file_of. rewrite E1, lookup_insert_ne, Hr by done. cbn [deref obind ensures]. split.
    + apply hand_over; [done|done|by rewrite E1, lookup_insert_ne|by rewrite E1, lookup_insert_eq].
    + cbn. rewrite !dom_insert_L, E1, dom_insert_L. apply elem_of_dom_2 in Hr. set_solver.
  - eapply ensures_bind; [by apply close_ok|]. intros s1 [H1 E1]. cbn [ensures]. split.
    + unfold accounted in *. cbn [objects opened closed]. rewrite <- H1. apply Permutation_app_tail.
      apply owned_blank. by rewrite E1, lookup_insert_eq.
    + cbn [objects]. rewrite dom_delete_L, E1, dom_insert_L. set_solver.
  - eapply ensures_mono; [by apply close_ok|]. intros s1 [H1 E1]. split; [done|].
    rewrite E1, dom_insert_L. set_solver.
  - destruct Hl as [[f Hi]%elem_of_dom [g Hr]%elem_of_dom]. unfold swap, file_of. rewrite Hi, Hr.
    cbn [deref obind ensures]. split; [by apply swap_accounted|]. cbn. rewrite !dom_insert_L.
    apply elem_of_dom_2 in Hi, Hr. set_solver.
  - cbn. split; [|by rewrite dom_insert_L]. apply not_elem_of_dom in Hl. unfold accounted in *.
    cbn [objects opened closed set_file]. rewrite owned_new by done.
    destruct (gzopen _ _ _); cbn [option_list app]; [|done].
    rewrite seq_S, <- Ha. cbn [Nat.add]. solve_Permutation.
  - eapply ensures_bind; [by apply use_ok|]. by intros.
  - eapply ensures_bind; [by apply use_ok|]. by intros.
  - eapply ensures_bind; [by apply use_ok|]. by intros.
Qed.

(** No file of zlib's is leaked, closed twice or used after it was closed.
    Whatever well-scoped program works with [GzipFile] objects (making, moving,
    assigning, also to themselves, swapping, closing, destroying and using them
    in any order) and whatever zlib answers, no operation uses a handle that
    is not open; at any time every handle zlib gave out is held by exactly one
    object or has been closed exactly once; and when no object is left, all
    have been closed. *)
Theorem gzip_ownership ops live :
  scopes ops ∅ = Some live →
  ensures (foldM gz_exec ops no_files) (λ s,
    dom (objects s) = live ∧ owned (objects s) ++ closed s ≡ₚ seq 0 (opened s) ∧
    (live = ∅ → closed s ≡ₚ seq 0 (opened s))).
Proof using Type.
  assert (∀ s, accounted s → scopes ops (dom (objects s)) = Some live →
    ensures (foldM gz_exec ops s) (λ s', accounted s' ∧ dom (objects s') = live)) as Hall.
  { induction ops as [|o ops IH]; intros s Ha; cbn [scopes foldM]; [by intros [= <-]|].
    intros (live1 & Hs & Hrest)%bind_Some. eapply ensures_bind; [by apply (gz_exec_ok o s live1)|].
    intros s1 [H1 E1]. apply IH; [done|]. by rewrite E1. }
  intros Hs. eapply ensures_mono; [apply (Hall no_files); [unfold accounted, owned; cbn; by rewrite map_to_list_empty|exact Hs]|].
  intros s [Ha Hd]. split; [done|]. split; [exact Ha|]. intros Hl. unfold accounted in Ha.
  rewrite Hl in Hd. apply dom_empty_inv_L in Hd. by rewrite Hd in Ha.
Qed.

(** An object without a file answers by itself, and zlib is not called. *)
Lemma empty_file i s :
  objects s !! i = Some None →
  read i 10 s = Ok (-1) ∧ write i (str "x") s = Ok (-1) ∧ tell i s = Ok (-1) ∧ setBuffer i 1 s = Ok false ∧
  close i s = Ok s.
Proof using Type.
  intros Hi. unfold read, write, tell, setBuffer, close, with_file, file_of. rewrite Hi. done.
Qed.
End GzipFile.

(** ** The theorem at a concrete input *)

(** Two files; the first object is assigned from the second, to itself, and
    swapped with one that was moved from; all end. *)
Definition sample_program : list gz_op :=
  [GOpen 1 (str "a.gz") (str "wbe"); GOpen 2 (str "b.gz") (str "rbe"); GWrite 1 (str "line");
   GMoveAssign 1 2; GMoveAssign 1 1; GMoveNew 3 1; GSwap 3 2; GRead 2 80; GClose 2; GTell 2; GNew 4;
   GDestroy 4; GDestroy 3; GDestroy 2; GDestroy 1].

Definition sample_gz := gz_exec (λ _ _ _, true) (λ _ n, n) (λ _ _ n, n) (λ _, 0).

Lemma gzip_ownership_witness :
  scopes sample_program ∅ = Some ∅ ∧
  ensures (foldM sample_gz sample_program no_files) (λ s,
    dom (objects s) = (∅ : gset nat) ∧ owned (objects s) ++ closed s ≡ₚ seq 0 (opened s) ∧
    ((∅ : gset nat) = ∅ → closed s ≡ₚ seq 0 (opened s))).
Proof. split; [by vm_compute|]. apply gzip_ownership. by vm_compute. Defined.

(** A piece of 4 GiB is written as a piece of no bytes. *)
Lemma write_keeps_32_bits gzwrite h s i text :
  objects s !! i = Some (Some h) → isOpen h s = true → len text = 2 ^ 32 →
  write gzwrite i text s = Ok (gzwrite h text 0).
Proof.
  intros Hi Ho Hl. unfold write, with_file, file_of. rewrite Hi. cbn [deref obind]. rewrite Ho, Hl. done.
Qed.
