(* ===== verification/ZlibStream.v ===== *)
(** * ZlibStream: compression from and into buffers
    ([muduo/net/ZlibStream.h], [ZlibStream.cc])

    Both streams drive zlib's [inflate] and [deflate] in loops and collect the
    result in a [Buffer] they make room in. zlib is not part of the sources:
    the class [ZlibOps] lists its calls, [ZlibLaws] states what its manual
    promises of them; an instance that stores bytes uncompressed shows that the
    laws can be kept. *)
From S2P Require Import Prelude Buffer BufferStream.
From stdpp Require Import options.

Definition Z_OK : Z := 0.
Definition Z_STREAM_END : Z := 1.
Definition Z_STREAM_ERROR : Z := -2.
Definition Z_DATA_ERROR : Z := -3.
Definition Z_BUF_ERROR : Z := -5.
Definition Z_NO_FLUSH : Z := 0.
Definition Z_FINISH : Z := 4.

(** A call of [deflate] or [inflate] with the flush mode, the bytes behind
    [next_in], [avail_out] and zlib's state gives a return code, the number of
    bytes taken, the bytes put behind [next_out], and the new state. *)
Definition zcall (S : Type) : Type := Z → bytes → Z → S → Z * Z * bytes * S.

Class ZlibOps (D I : Type) := {
  deflateInit : Z * D;
  deflate : zcall D;
  deflateEnd : D → Z;
  inflateInit : Z * I;
  inflate : zcall I;
  inflateEnd : I → Z
}.

(** *** The streams *)

(** Both classes have the same members; [in_] are the [avail_in] bytes behind
    [next_in]. *)
(* src/muduo/net/ZlibStream.h:43-47 ZlibInputStream, ZlibOutputStream *)
Record Stream (S : Type) := mkZ {
  output_ : Buffer; zstream_ : S; in_ : bytes; zerror_ : Z; bufferSize_ : Z; finished_ : bool
}.
Arguments mkZ {S}.
Arguments output_ {S}.
Arguments zstream_ {S}.
Arguments in_ {S}.
Arguments zerror_ {S}.
Arguments bufferSize_ {S}.
Arguments finished_ {S}.

Definition set_zerror {S} (e : Z) (s : Stream S) : Stream S :=
  mkZ (output_ s) (zstream_ s) (in_ s) e (bufferSize_ s) (finished_ s).
Definition set_in {S} (d : bytes) (s : Stream S) : Stream S :=
  mkZ (output_ s) (zstream_ s) d (zerror_ s) (bufferSize_ s) (finished_ s).
Definition set_finished {S} (s : Stream S) : Stream S :=
  mkZ (output_ s) (zstream_ s) (in_ s) (zerror_ s) (bufferSize_ s) true.

(** One call of zlib: [compress] and [decompress] differ in the call only. *)
Definition run_zlib {S} (f : zcall S) (flush : Z) (s : Stream S) : outcome (Z * Stream S) :=
  let! b := ensureWritableBytes (size_t (bufferSize_ s)) (output_ s) in
  let size := writableBytes b in
  let avail_out := wrap 32 size in
  let '(ret, used, made, z) := f flush (in_ s) avail_out (zstream_ s) in
  let! v := write_at (beginWrite b) made (buffer_ b) in
  let! b := hasWritten (size_t (size - (avail_out - len made))) (mkBuffer v (readerIndex_ b) (writerIndex_ b)) in
  let bufferSize := if (writableBytes b =? 0) && (bufferSize_ s <? 65536) then bufferSize_ s * 2 else bufferSize_ s in
  Ok (ret, mkZ b z (drop (Z.to_nat used) (in_ s)) (zerror_ s) bufferSize (finished_ s)).

(** [while (zstream_.avail_in > 0 && zerror_ == Z_OK)]: [None] is want of
    fuel. *)
Fixpoint write_loop {S} (f : zcall S) (fuel : nat) (s : Stream S) : outcome (option (Stream S)) :=
  if match in_ s with [] => true | _ => false end || negb (zerror_ s =? Z_OK) then Ok (Some s) else
  match fuel with
  | O => Ok None
  | Datatypes.S fuel => let! (e, s) := run_zlib f Z_NO_FLUSH s in write_loop f fuel (set_zerror e s)
  end.

(** [while (zerror_ == Z_OK)], with [Z_FINISH]. *)
Fixpoint finish_loop {S} (f : zcall S) (fuel : nat) (s : Stream S) : outcome (option (Stream S)) :=
  if negb (zerror_ s =? Z_OK) then Ok (Some s) else
  match fuel with
  | O => Ok None
  | Datatypes.S fuel => let! (e, s) := run_zlib f Z_FINISH s in finish_loop f fuel (set_zerror e s)
  end.

(** What a loop that had fuel enough is followed by. *)
Definition after {S R} (m : outcome (option (Stream S))) (k : Stream S → outcome R) : outcome (option R) :=
  let! r := m in match r with Some s => let! r := k s in Ok (Some r) | None => Ok None end.

Section Streams.
Context {D I : Type} `{!ZlibOps D I}.

(* src/muduo/net/ZlibStream.cc:180-192 ZlibOutputStream::compress *)
Definition compress (flush : Z) (s : Stream D) : outcome (Z * Stream D) := run_zlib deflate flush s.
(* src/muduo/net/ZlibStream.cc:102-115 ZlibInputStream::decompress *)
Definition decompress (flush : Z) (s : Stream I) : outcome (Z * Stream I) := run_zlib inflate flush s.

(* src/muduo/net/ZlibStream.cc:117-120 ZlibOutputStream::ZlibOutputStream *)
Definition newOutputStream (output : Buffer) : Stream D := let '(e, z) := deflateInit in mkZ output z [] e 1024 false.
(* src/muduo/net/ZlibStream.cc:29-32 ZlibInputStream::ZlibInputStream *)
Definition newInputStream (output : Buffer) : Stream I := let '(e, z) := inflateInit in mkZ output z [] e 1024 false.

(** [avail_in] is an [unsigned int]. *)
(* src/muduo/net/ZlibStream.cc:124-138 ZlibOutputStream::write(string_view) *)
Definition out_write (fuel : nat) (buf : bytes) (s : Stream D) : outcome (option (bool * Stream D)) :=
  if finished_ s || negb (zerror_ s =? Z_OK) then Ok (Some (false, s)) else
  after (write_loop deflate fuel (set_in (take (Z.to_nat (wrap 32 (len buf))) buf) s)) (λ s,
    Ok (zerror_ s =? Z_OK, s)).

(** The input buffer is another one than the output. *)
(* src/muduo/net/ZlibStream.cc:146-160 ZlibOutputStream::write(Buffer * ) *)
Definition out_write_buffer (fuel : nat) (input : Buffer) (s : Stream D) : outcome (option (bool * Buffer * Stream D)) :=
  if finished_ s || negb (zerror_ s =? Z_OK) then Ok (Some (false, input, s)) else
  let span := readableSpan input in
  after (write_loop deflate fuel (set_in (take (Z.to_nat (wrap 32 (len span))) span) s)) (λ s,
    let! input := retrieve (size_t (len span - len (in_ s))) input in
    Ok (zerror_ s =? Z_OK, input, s)).

(* src/muduo/net/ZlibStream.cc:162-178 ZlibOutputStream::finish *)
Definition out_finish (fuel : nat) (s : Stream D) : outcome (option (bool * Stream D)) :=
  if finished_ s then Ok (Some (true, s)) else
  if negb (zerror_ s =? Z_OK) then Ok (Some (false, s)) else
  after (finish_loop deflate fuel s) (λ s,
    let endError := deflateEnd (zstream_ s) in
    let ok := (zerror_ s =? Z_STREAM_END) && (endError =? Z_OK) in
    Ok (ok, set_finished (set_zerror (if ok then Z_STREAM_END
                                      else if negb (endError =? Z_OK) then endError else zerror_ s) s))).

(** A stream that meets its end is finished, and says [Z_OK]. *)
Definition stream_end (s : Stream I) : Stream I :=
  if zerror_ s =? Z_STREAM_END then set_finished (set_zerror Z_OK s) else s.

(* src/muduo/net/ZlibStream.cc:36-53 ZlibInputStream::write(string_view) *)
Definition in_write (fuel : nat) (buf : bytes) (s : Stream I) : outcome (option (bool * Stream I)) :=
  if finished_ s || negb (zerror_ s =? Z_OK) then Ok (Some (false, s)) else
  after (write_loop inflate fuel (set_in (take (Z.to_nat (wrap 32 (len buf))) buf) s)) (λ s,
    let s := stream_end s in Ok (zerror_ s =? Z_OK, s)).

(* src/muduo/net/ZlibStream.cc:61-81 ZlibInputStream::write(Buffer * ) *)
Definition in_write_buffer (fuel : nat) (input : Buffer) (s : Stream I) : outcome (option (bool * Buffer * Stream I)) :=
  if finished_ s || negb (zerror_ s =? Z_OK) then Ok (Some (false, input, s)) else
  let span := readableSpan input in
  after (write_loop inflate fuel (set_in (take (Z.to_nat (wrap 32 (len span))) span) s)) (λ s,
    let! input := retrieve (size_t (len span - len (in_ s))) input in
    let s := stream_end s in Ok (zerror_ s =? Z_OK, input, s)).

(* src/muduo/net/ZlibStream.cc:83-100 ZlibInputStream::finish *)
Definition in_finish (fuel : nat) (s : Stream I) : outcome (option (bool * Stream I)) :=
  if finished_ s then Ok (Some (true, s)) else
  if negb (zerror_ s =? Z_OK) && negb (zerror_ s =? Z_STREAM_END) then Ok (Some (false, s)) else
  after (finish_loop inflate fuel s) (λ s,
    let ok := (zerror_ s =? Z_STREAM_END) || (zerror_ s =? Z_BUF_ERROR) in
    let endError := inflateEnd (zstream_ s) in
    Ok (ok && (endError =? Z_OK),
        set_finished (set_zerror (if ok && (endError =? Z_OK) then Z_STREAM_END else endError) s))).

(** What [finish] returns is dropped. *)
(* src/muduo/net/ZlibStream.cc:34-34 ZlibInputStream::~ZlibInputStream *)
Definition destroyInputStream (fuel : nat) (s : Stream I) : outcome (option (Stream I)) :=
  let! r := in_finish fuel s in Ok (snd <$> r).
(* src/muduo/net/ZlibStream.cc:122-122 ZlibOutputStream::~ZlibOutputStream *)
Definition destroyOutputStream (fuel : nat) (s : Stream D) : outcome (option (Stream D)) :=
  let! r := out_finish fuel s in Ok (snd <$> r).

(** Writing pieces one after the other: what each [write] returned. *)
Fixpoint writes {S} (write : bytes → Stream S → outcome (option (bool * Stream S))) (pieces : list bytes) (s : Stream S) :
    outcome (option (list bool * Stream S)) :=
  match pieces with
  | [] => Ok (Some ([], s))
  | p :: pieces =>
    let! r := write p s in
    match r with
    | None => Ok None
    | Some (ok, s) =>
      let! r := writes write pieces s in
      Ok (match r with Some (oks, s) => Some (ok :: oks, s) | None => None end)
    end
  end.
End Streams.

(** ** What zlib promises *)

(** The manual of zlib, for a caller that always offers room for output. *)
Class ZlibLaws (D I : Type) `{!ZlibOps D I} := {
  (** [zformat z x]: [z] is a complete compressed stream of [x]. *)
  zformat : bytes → bytes → Prop;
  (** What a state has taken so far and what it has given. *)
  d_rel : D → bytes → bytes → Prop;
  i_rel : I → bytes → bytes → Prop;
  (** [deflateBound]: no output for an input of this length is longer. *)
  d_bound : Z → Z;
  d_bound_mono n m : 0 ≤ n ≤ m → d_bound n ≤ d_bound m;
  d_bound_rel d x z : d_rel d x z → len z ≤ d_bound (len x);
  zformat_nonempty z x : zformat z x → z ≠ [];
  d_bound_end z x : zformat z x → len z ≤ d_bound (len x);
  deflateInit_law : deflateInit.1 = Z_OK ∧ d_rel deflateInit.2 [] [];
  inflateInit_law : inflateInit.1 = Z_OK ∧ i_rel inflateInit.2 [] [];
  (** [deflate] makes progress, until with [Z_FINISH] the stream is complete. *)
  deflate_law flush d x z inp avail_out :
    d_rel d x z → 0 < avail_out → (flush = Z_NO_FLUSH ∧ inp ≠ [] ∨ flush = Z_FINISH) →
    let '(ret, used, made, d') := deflate flush inp avail_out d in
    0 ≤ used ≤ len inp ∧ len made ≤ avail_out ∧
    (ret = Z_OK ∧ d_rel d' (x ++ take (Z.to_nat used) inp) (z ++ made) ∧ 0 < used + len made ∨
     ret = Z_STREAM_END ∧ flush = Z_FINISH ∧ used = len inp ∧ zformat (z ++ made) (x ++ inp) ∧ deflateEnd d' = Z_OK);
  (** [inflate], given a part of a stream, makes progress; it reports the end
      with the last byte, since the checksum comes behind the data. *)
  inflate_law i z x c p inp rest avail_out :
    zformat z x → i_rel i c p → c ++ inp ++ rest = z → inp ≠ [] → 0 < avail_out →
    let '(ret, used, made, i') := inflate Z_NO_FLUSH inp avail_out i in
    0 ≤ used ≤ len inp ∧ len made ≤ avail_out ∧
    (ret = Z_OK ∧ i_rel i' (c ++ take (Z.to_nat used) inp) (p ++ made) ∧ 0 < used + len made ∧
       c ++ take (Z.to_nat used) inp ≠ z ∧ (∃ q, x = (p ++ made) ++ q) ∨
     ret = Z_STREAM_END ∧ c ++ take (Z.to_nat used) inp = z ∧ x = p ++ made)
}.

(** Room for [n] more bytes: [avail_out] must not wrap around. *)
Definition room_for (n : Z) (b : Buffer) : Prop :=
  wf b ∧ len (buffer_ b) < 2 ^ 32 ∧ writerIndex_ b + n + 131072 < 2 ^ 32.

(** A call that gives [made] appends it to the buffer. *)
Lemma run_zlib_ok {S} (f : zcall S) flush s n (P : Z → Z → bytes → S → Prop) :
  room_for n (output_ s) → 0 ≤ n → 0 < bufferSize_ s < 131072 →
  (∀ avail_out, 0 < avail_out →
     let '(ret, used, made, z) := f flush (in_ s) avail_out (zstream_ s) in
     len made ≤ avail_out ∧ len made ≤ n ∧ P ret used made z) →
  ensures (run_zlib f flush s) (λ '(ret, s'), ∃ used made,
    P ret used made (zstream_ s') ∧ in_ s' = drop (Z.to_nat used) (in_ s) ∧
    content (output_ s') = content (output_ s) ++ made ∧ room_for (n - len made) (output_ s') ∧
    0 < bufferSize_ s' < 131072 ∧ zerror_ s' = zerror_ s ∧ finished_ s' = finished_ s).
Proof.
  intros (Hb & Hlen & Hroom) Hn Hsize Hf. unfold run_zlib. wf_facts (output_ s).
  rewrite (wrap_small 64 (bufferSize_ s)) by lia.
  eapply ensures_bind.
  { apply ensures_and with (Q := λ b', len (buffer_ b') < 2 ^ 32);
      [apply ensureWritableBytes_ok; [done|lia|unfold vector_max_size; lia]|].
    destruct (ensureWritableBytes (bufferSize_ s) (output_ s)) as [b1|] eqn:E.
    - cbn. apply ensureWritable_size in E; [lia|done|lia|unfold vector_max_size; lia].
    - pose proof (ensureWritableBytes_ok (bufferSize_ s) _ Hb ltac:(lia) ltac:(unfold vector_max_size; lia)) as Hx.
      by rewrite E in Hx. }
  intros b1 ((Hb1 & Hc1 & Hw1 & Hm1) & Hlen1). wf_facts b1. cbv zeta. rewrite writable_eq in Hw1 |- * by done.
  rewrite (wrap_small 32) by lia. destruct Hm1 as [_ Hm1].
  specialize (Hf (len (buffer_ b1) - writerIndex_ b1) ltac:(lia)).
  destruct (f _ _ _ _) as [[[ret used] made] z]. destruct Hf as (Hmade & Hmn & HP). pose proof (len_nonneg made).
  unfold beginWrite. eapply ensures_bind; [apply write_at_ok; lia|]. intros v (Hv & Hdv & Hlo & _).
  replace (len (buffer_ b1) - writerIndex_ b1 - (len (buffer_ b1) - writerIndex_ b1 - len made)) with (len made) by lia.
  rewrite wrap_small by lia. set (b2 := mkBuffer v (readerIndex_ b1) (writerIndex_ b1)).
  assert (wf b2) as Hb2 by (subst b2; wf_split).
  eapply ensures_bind; [apply hasWritten_ok; [done|rewrite writable_eq by done; subst b2; cbn; lia]|].
  intros b3 (Hb3 & Hr3 & Hv3 & Hw3). cbn [ensures]. exists used, made. cbn [zstream_ in_ output_ bufferSize_ zerror_ finished_].
  subst b2. cbn in Hr3, Hv3, Hw3. split_and!; try done.
  - rewrite <- Hc1. unfold content. rewrite Hr3, Hv3, Hw3.
    replace (writerIndex_ b1 + len made - readerIndex_ b1) with ((writerIndex_ b1 - readerIndex_ b1) + len made) by lia.
    rewrite slice_split by lia. f_equal; [apply Hlo; lia|]. rewrite <- Hdv at 2. f_equal. lia.
  - split_and!; [done|rewrite Hv3, Hv; lia|rewrite Hw3; lia].
  - destruct (_ && _); lia.
  - destruct (writableBytes b3 =? 0); cbn [andb]; [|lia]. destruct (Z.ltb_spec (bufferSize_ s) 65536); lia.
Qed.

Section Roundtrip.
Context {D I : Type} `{!ZlibOps D I} `{!ZlibLaws D I}.

(** *** Compressing *)

(** A stream that has taken [x] and given [z], with at most [B] bytes to come
    altogether, into a buffer that had [b0]. *)
Definition writing (B : Z) (b0 x z : bytes) (s : Stream D) : Prop :=
  d_rel (zstream_ s) x z ∧ content (output_ s) = b0 ++ z ∧ room_for (B - len z) (output_ s) ∧
  0 < bufferSize_ s < 131072 ∧ zerror_ s = Z_OK ∧ finished_ s = false.

Lemma compress_step B b0 x z s flush :
  writing B b0 x z s → d_bound (len (x ++ in_ s)) ≤ B →
  (flush = Z_NO_FLUSH ∧ in_ s ≠ [] ∨ flush = Z_FINISH) →
  ensures (run_zlib deflate flush s) (λ '(e, s'), ∃ used made,
    0 ≤ used ≤ len (in_ s) ∧ in_ s' = drop (Z.to_nat used) (in_ s) ∧ content (output_ s') = b0 ++ z ++ made ∧
    len (z ++ made) ≤ B ∧
    (e = Z_OK ∧ writing B b0 (x ++ take (Z.to_nat used) (in_ s)) (z ++ made) s' ∧ 0 < used + len made ∨
     e = Z_STREAM_END ∧ flush = Z_FINISH ∧ used = len (in_ s) ∧ zformat (z ++ made) (x ++ in_ s) ∧
       deflateEnd (zstream_ s') = Z_OK ∧ finished_ s' = false)).
Proof.
  intros (Hd & Hc & Hroom & Hsz & He & Hf) HB Hfl. pose proof (len_nonneg (in_ s)) as Hin0.
  assert (len z ≤ B) as HzB.
  { pose proof (d_bound_rel _ _ _ Hd). pose proof (len_nonneg x).
    pose proof (d_bound_mono (len x) (len (x ++ in_ s)) ltac:(rewrite len_app; lia)). lia. }
  eapply ensures_mono; [apply (run_zlib_ok deflate flush s (B - len z) (λ ret used made d',
    0 ≤ used ≤ len (in_ s) ∧ len (z ++ made) ≤ B ∧
    (ret = Z_OK ∧ d_rel d' (x ++ take (Z.to_nat used) (in_ s)) (z ++ made) ∧ 0 < used + len made ∨
     ret = Z_STREAM_END ∧ flush = Z_FINISH ∧ used = len (in_ s) ∧ zformat (z ++ made) (x ++ in_ s) ∧ deflateEnd d' = Z_OK)))|].
  - done.
  - lia.
  - done.
  - intros avail Ha. pose proof (deflate_law flush _ _ _ (in_ s) avail Hd Ha Hfl) as Hl.
    destruct (deflate _ _ _ _) as [[[ret used] made] d']. destruct Hl as (Hu & Hm & Hr).
    assert (len (z ++ made) ≤ B) as Hzm.
    { destruct Hr as [(_ & Hd' & _)|(_ & _ & _ & Hz' & _)].
      - pose proof (d_bound_rel _ _ _ Hd'). pose proof (len_nonneg x).
        pose proof (d_bound_mono (len (x ++ take (Z.to_nat used) (in_ s))) (len (x ++ in_ s))) as Hmono.
        rewrite !len_app in Hmono. rewrite !len_app in *. unfold len in *. rewrite length_take in *. lia.
      - pose proof (d_bound_end _ _ Hz'). lia. }
    split_and!; try done; try lia. rewrite len_app in Hzm. lia.
  - intros [e s'] (used & made & (Hu & Hzm & Hr) & Hi & Hc' & Hroom' & Hs' & He' & Hf'). exists used, made.
    split; [done|]. split; [done|]. split; [by rewrite Hc', Hc, <- app_assoc|]. split; [done|].
    destruct Hr as [(-> & Hd' & Hp)|(-> & -> & -> & Hz' & Hend)].
    + left. split; [done|]. split; [|done]. unfold writing. rewrite Hc', Hc, He', Hf', He, Hf, len_app.
      replace (B - (len z + len made)) with (B - len z - len made) by lia. rewrite <- app_assoc. done.
    + right. split_and!; try done. congruence.
Qed.

Lemma out_loop B b0 x z s fuel :
  writing B b0 x z s → d_bound (len (x ++ in_ s)) ≤ B → len z ≤ B → len (in_ s) + (B - len z) ≤ Z.of_nat fuel →
  ensures (write_loop deflate fuel s) (λ r, ∃ s' z', r = Some s' ∧ writing B b0 (x ++ in_ s) z' s' ∧ len z' ≤ B ∧ in_ s' = []).
Proof.
  revert x z s. induction fuel as [|fuel IH]; intros x z s Hw HB Hz Hfuel; pose proof (len_nonneg (in_ s)) as Hin0;
    destruct (in_ s) as [|b l] eqn:E; cbn [write_loop]; rewrite E; cbn [orb].
  - exists s, z. rewrite app_nil_r. done.
  - exfalso. unfold len in *. cbn in *. lia.
  - exists s, z. rewrite app_nil_r. done.
  - assert (zerror_ s = Z_OK) as He by apply Hw. rewrite He, Z.eqb_refl. cbn [negb].
    rewrite <- E in *. eapply ensures_bind; [apply (compress_step B b0 x z s); [done|done|left; split; [done|by rewrite E]]|].
    intros [e s1] (used & made & Hu & Hi & Hc & Hzm & Hr). pose proof (len_nonneg made).
    destruct Hr as [(-> & Hw1 & Hp)|(_ & [=] & _)].
    assert (set_zerror Z_OK s1 = s1) as Hset.
    { destruct s1. unfold set_zerror. cbn. destruct Hw1 as (_ & _ & _ & _ & He1 & _). cbn in He1. by rewrite He1. }
    rewrite Hset. rewrite len_app in Hzm.
    assert ((x ++ take (Z.to_nat used) (in_ s)) ++ in_ s1 = x ++ in_ s) as Hx by (by rewrite Hi, <- app_assoc, take_drop).
    assert (len (in_ s1) = len (in_ s) - used) as Hlen by (rewrite Hi; unfold len in *; rewrite length_drop; lia).
    eapply ensures_mono; [apply (IH _ _ _ Hw1); [by rewrite Hx|rewrite len_app; lia|rewrite len_app; lia]|]. rewrite Hx. done.
Qed.

Lemma out_finish_ok B b0 x z s fuel :
  writing B b0 x z s → in_ s = [] → d_bound (len x) ≤ B → len z ≤ B → B - len z < Z.of_nat fuel →
  ensures (out_finish fuel s) (λ r, ∃ s' z', r = Some (true, s') ∧ zformat z' x ∧ content (output_ s') = b0 ++ z' ∧
    finished_ s' = true ∧ zerror_ s' = Z_STREAM_END).
Proof.
  intros Hw Hin HB Hz Hfuel. assert (zerror_ s = Z_OK) as He by apply Hw. assert (finished_ s = false) as Hf by apply Hw.
  unfold out_finish. rewrite Hf, He, Z.eqb_refl. cbn [negb]. unfold after.
  eapply (ensures_bind _ _ (λ r, ∃ s' z', r = Some s' ∧ zformat z' x ∧ content (output_ s') = b0 ++ z' ∧
    zerror_ s' = Z_STREAM_END ∧ deflateEnd (zstream_ s') = Z_OK)).
  2: { intros r (s' & z' & -> & H1 & H2 & H3 & H4). rewrite H3, H4. cbn. eexists _, z'. split; [done|]. done. }
  clear He Hf. revert z s Hw Hin Hz Hfuel. induction fuel as [|fuel IH]; intros z s Hw Hin Hz Hfuel; [lia|].
  assert (zerror_ s = Z_OK) as He by apply Hw. cbn [finish_loop]. rewrite He, Z.eqb_refl. cbn [negb].
  eapply ensures_bind; [apply (compress_step B b0 x z s); [done|by rewrite Hin, app_nil_r|by right]|].
  intros [e s1] (used & made & Hu & Hi & Hc & Hzm & Hr). rewrite Hin in *. unfold len in Hu. cbn in Hu. assert (used = 0) as -> by lia.
  rewrite len_app in Hzm. destruct Hr as [(-> & Hw1 & Hp)|(-> & _ & _ & Hz' & Hend & _)].
  - assert (set_zerror Z_OK s1 = s1) as ->.
    { destruct s1. unfold set_zerror. cbn. destruct Hw1 as (_ & _ & _ & _ & He1 & _). cbn in He1. by rewrite He1. }
    rewrite take_nil, app_nil_r in Hw1. cbn in Hi. apply (IH _ _ Hw1); [done|rewrite len_app; lia|rewrite len_app; lia].
  - rewrite app_nil_r in Hz'. destruct fuel; cbn [finish_loop set_zerror zerror_]; cbn; eexists _, _; split; try done.
Qed.

(** Pieces written to the compressor. *)
Lemma out_writes B b0 pieces fuel : ∀ x z s,
  writing B b0 x z s → in_ s = [] → len z ≤ B → d_bound (len (x ++ mjoin pieces)) ≤ B →
  len (mjoin pieces) < 2 ^ 32 → len (mjoin pieces) + B ≤ Z.of_nat fuel →
  ensures (writes (out_write fuel) pieces s) (λ r, ∃ s' z', r = Some (replicate (length pieces) true, s') ∧
    writing B b0 (x ++ mjoin pieces) z' s' ∧ len z' ≤ B ∧ in_ s' = []).
Proof.
  induction pieces as [|p pieces IH]; intros x z s Hw Hin Hz HB Hp Hfuel.
  { cbn. exists s, z. rewrite app_nil_r. done. }
  change (mjoin (p :: pieces)) with (p ++ mjoin pieces) in *. rewrite app_assoc in *.
  rewrite (len_app p) in Hfuel, Hp. pose proof (len_nonneg p). pose proof (len_nonneg (mjoin pieces)). pose proof (len_nonneg z).
  assert (zerror_ s = Z_OK) as He by apply Hw. assert (finished_ s = false) as Hf by apply Hw.
  cbn [writes]. eapply (ensures_bind _ _ (λ r, ∃ s' z', r = Some (true, s') ∧ writing B b0 (x ++ p) z' s' ∧ len z' ≤ B ∧ in_ s' = [])).
  - unfold out_write. rewrite Hf, He, Z.eqb_refl. cbn [negb orb]. unfold after.
    rewrite wrap_small by lia. rewrite take_ge by (unfold len; lia).
    eapply ensures_bind; [apply (out_loop B b0 x z (set_in p s)); cbn [set_in in_]; [done| |done|lia]|].
    + pose proof (len_nonneg x). pose proof (d_bound_mono (len (x ++ p)) (len ((x ++ p) ++ mjoin pieces))
        ltac:(rewrite !len_app; lia)). lia.
    + intros r (s' & z' & -> & Hw' & Hz' & Hi'). cbn [set_in in_] in Hw'. assert (zerror_ s' = Z_OK) as -> by apply Hw'.
      cbn. exists s', z'. done.
  - intros r (s' & z' & -> & Hw' & Hz' & Hi').
    eapply ensures_bind; [by apply (IH (x ++ p) z' s'); try done; lia|].
    intros r2 (s2 & z2 & -> & Hw2 & Hz2 & Hi2). cbn. exists s2, z2. rewrite <- app_assoc in *. done.
Qed.

(** *** Decompressing *)

(** A stream that has taken [c] of [z] and given [p] of [x]. *)
Definition reading (b0 z x c p : bytes) (s : Stream I) : Prop :=
  i_rel (zstream_ s) c p ∧ content (output_ s) = b0 ++ p ∧ room_for (len x - len p) (output_ s) ∧
  0 < bufferSize_ s < 131072 ∧ zerror_ s = Z_OK ∧ finished_ s = false ∧ (∃ q, x = p ++ q) ∧ c ≠ z.

Lemma decompress_step b0 z x c p s rest :
  zformat z x → reading b0 z x c p s → c ++ in_ s ++ rest = z → in_ s ≠ [] →
  ensures (run_zlib inflate Z_NO_FLUSH s) (λ '(e, s'), ∃ used made,
    0 ≤ used ≤ len (in_ s) ∧ in_ s' = drop (Z.to_nat used) (in_ s) ∧
    (e = Z_OK ∧ reading b0 z x (c ++ take (Z.to_nat used) (in_ s)) (p ++ made) s' ∧ 0 < used + len made ∨
     e = Z_STREAM_END ∧ c ++ take (Z.to_nat used) (in_ s) = z ∧ content (output_ s') = b0 ++ x ∧ finished_ s' = false)).
Proof.
  intros Hzx (Hi & Hc & Hroom & Hsz & He & Hf & (q & Hq) & Hcz) Hz Hne.
  assert (0 ≤ len x - len p) as Hn by (rewrite Hq, len_app; pose proof (len_nonneg q); lia).
  eapply ensures_mono; [apply (run_zlib_ok inflate Z_NO_FLUSH s (len x - len p) (λ ret used made i',
    0 ≤ used ≤ len (in_ s) ∧
    (ret = Z_OK ∧ i_rel i' (c ++ take (Z.to_nat used) (in_ s)) (p ++ made) ∧ 0 < used + len made ∧
       c ++ take (Z.to_nat used) (in_ s) ≠ z ∧ (∃ q, x = (p ++ made) ++ q) ∨
     ret = Z_STREAM_END ∧ c ++ take (Z.to_nat used) (in_ s) = z ∧ x = p ++ made)))|].
  - done.
  - done.
  - done.
  - intros avail Ha. pose proof (inflate_law _ z x c p (in_ s) rest avail Hzx Hi Hz Hne Ha) as Hl.
    destruct (inflate _ _ _ _) as [[[ret used] made] i']. destruct Hl as (Hu & Hm & Hr).
    split; [done|]. split; [|done].
    destruct Hr as [(_ & _ & _ & _ & q' & Hx)|(_ & _ & Hx)]; rewrite Hx, !len_app; [pose proof (len_nonneg q')|]; lia.
  - intros [e s'] (used & made & (Hu & Hr) & Hi' & Hc' & Hroom' & Hs' & He' & Hf'). exists used, made.
    split; [done|]. split; [done|]. destruct Hr as [(-> & Hi2 & Hp & Hcz' & Hx)|(-> & Hzz & ->)].
    + left. split; [done|]. split; [|done]. unfold reading. rewrite Hc', Hc, He', Hf', He, Hf, len_app, <- app_assoc.
      replace (len x - (len p + len made)) with (len x - len p - len made) by lia. done.
    + right. rewrite Hc', Hc, Hf', Hf, <- app_assoc. done.
Qed.

Lemma in_loop b0 z x c p s rest fuel :
  zformat z x → reading b0 z x c p s → c ++ in_ s ++ rest = z → len (in_ s) + (len x - len p) ≤ Z.of_nat fuel →
  ensures (write_loop inflate fuel s) (λ r, ∃ s', r = Some s' ∧ in_ s' = [] ∧
    ((∃ p', reading b0 z x (c ++ in_ s) p' s') ∨
     zerror_ s' = Z_STREAM_END ∧ c ++ in_ s = z ∧ content (output_ s') = b0 ++ x ∧ finished_ s' = false)).
Proof.
  intros Hzx. revert c p s. induction fuel as [|fuel IH]; intros c p s Hw Hz Hfuel; pose proof (len_nonneg (in_ s)) as Hin0;
    destruct (in_ s) as [|b l] eqn:E; cbn [write_loop]; rewrite E; cbn [orb].
  - exists s. split; [done|]. split; [done|]. left. exists p. by rewrite app_nil_r.
  - exfalso. destruct Hw as (_ & _ & _ & _ & _ & _ & (q & ->) & _). rewrite len_app in Hfuel. pose proof (len_nonneg q).
    unfold len in *. cbn in *. lia.
  - exists s. split; [done|]. split; [done|]. left. exists p. by rewrite app_nil_r.
  - assert (zerror_ s = Z_OK) as He by apply Hw. rewrite He, Z.eqb_refl. cbn [negb].
    rewrite <- E in *. eapply ensures_bind; [apply (decompress_step b0 z x c p s rest); [done|done|done|by rewrite E]|].
    intros [e s1] (used & made & Hu & Hi & Hr). pose proof (len_nonneg made).
    assert (len (in_ s1) = len (in_ s) - used) as Hlen by (rewrite Hi; unfold len in *; rewrite length_drop; lia).
    destruct Hr as [(-> & Hw1 & Hp)|(-> & Hzz & Hc & Hf)].
    + assert (set_zerror Z_OK s1 = s1) as ->.
      { destruct s1. unfold set_zerror. cbn. destruct Hw1 as (_ & _ & _ & _ & He1 & _). cbn in He1. by rewrite He1. }
      assert ((c ++ take (Z.to_nat used) (in_ s)) ++ in_ s1 = c ++ in_ s) as Hx by (by rewrite Hi, <- app_assoc, take_drop).
      eapply ensures_mono; [apply (IH _ _ _ Hw1)|].
      * rewrite app_assoc, Hx, <- app_assoc. done.
      * rewrite len_app. lia.
      * rewrite Hx. done.
    + assert (in_ s1 = [] ∧ c ++ in_ s = z) as [Hnil Hall].
      { rewrite <- Hz in Hzz. apply app_inv_head in Hzz. rewrite <- (take_drop (Z.to_nat used) (in_ s)) in Hzz at 2.
        rewrite <- app_assoc in Hzz. rewrite <- (app_nil_r (take _ _)) in Hzz at 1. apply app_inv_head in Hzz.
        symmetry in Hzz. apply app_eq_nil in Hzz as [Hd ->]. rewrite Hi, app_nil_r in *. done. }
      destruct fuel; cbn [write_loop set_zerror in_]; rewrite Hnil; cbn; eexists; split; try done; cbn; rewrite Hnil;
        split; try done; right; done.
Qed.

(** Pieces of a stream written to the decompressor. *)
Lemma in_writes b0 z x fuel pieces : ∀ c p s,
  zformat z x → reading b0 z x c p s → c ++ mjoin pieces = z → Forall (λ piece, piece ≠ []) pieces → len z < 2 ^ 32 →
  len z + len x ≤ Z.of_nat fuel →
  ensures (writes (in_write fuel) pieces s) (λ r, ∃ s', r = Some (replicate (length pieces) true, s') ∧
    content (output_ s') = b0 ++ x ∧ finished_ s' = true).
Proof.
  intros c p s Hzx. revert c p s.
  induction pieces as [|piece pieces IH]; intros c p s Hw Hz Hne Hlen Hfuel.
  { exfalso. destruct Hw as (_ & _ & _ & _ & _ & _ & _ & Hcz). by rewrite app_nil_r in Hz. }
  apply Forall_cons in Hne as [Hne Hnes]. change (mjoin (piece :: pieces)) with (piece ++ mjoin pieces) in Hz.
  assert (zerror_ s = Z_OK) as He by apply Hw. assert (finished_ s = false) as Hf by apply Hw.
  assert (len piece ≤ len z) as Hp.
  { rewrite <- Hz, !len_app. pose proof (len_nonneg c). pose proof (len_nonneg (mjoin pieces)). lia. }
  pose proof (len_nonneg piece). pose proof (len_nonneg p).
  cbn [writes]. eapply (ensures_bind _ _ (λ r, ∃ s', r = Some (true, s') ∧ ((∃ p', reading b0 z x (c ++ piece) p' s') ∨
    pieces = [] ∧ content (output_ s') = b0 ++ x ∧ finished_ s' = true))).
  - unfold in_write. rewrite Hf, He, Z.eqb_refl. cbn [negb orb]. unfold after.
    rewrite wrap_small by lia. rewrite take_ge by (unfold len; lia).
    eapply ensures_bind; [apply (in_loop b0 z x c p (set_in piece s) (mjoin pieces)); cbn [set_in in_]; [done|done|done|lia]|].
    intros r (s' & -> & Hi & Hr). cbn [set_in in_] in Hr. cbn. unfold stream_end. destruct Hr as [(p' & Hr)|(Hend & Hall & Hc & Hfin)].
    + assert (zerror_ s' = Z_OK) as E by apply Hr. rewrite E. cbn. rewrite E. cbn. exists s'. split; [done|]. left. by exists p'.
    + rewrite Hend. cbn. eexists. split; [done|]. right. split; [|done]. rewrite <- Hz in Hall.
      rewrite (app_assoc c) in Hall. rewrite <- (app_nil_r (c ++ piece)) in Hall at 1. apply app_inv_head in Hall.
      destruct pieces as [|q pieces]; [done|]. apply Forall_cons in Hnes as [Hq _]. symmetry in Hall.
      by apply app_eq_nil in Hall as [-> _].
  - intros r (s' & -> & [(p' & Hw')|(-> & Hc & Hfin)]).
    + eapply ensures_bind; [apply (IH _ _ _ Hw'); [by rewrite <- app_assoc|done..]|].
      intros r2 (s2 & -> & Hc2 & Hf2). cbn. by exists s2.
    + cbn. exists s'. done.
Qed.

(** Compressing pieces into a buffer; what the calls returned. *)
Definition deflate_all (fuel : nat) (pieces : list bytes) (output : Buffer) : outcome (option (list bool * Stream D)) :=
  let! r := writes (out_write fuel) pieces (newOutputStream output) in
  match r with
  | None => Ok None
  | Some (oks, s) =>
    let! r := out_finish fuel s in
    Ok (match r with Some (ok, s) => Some (oks ++ [ok], s) | None => None end)
  end.

End Roundtrip.

(** *** Writing from a buffer *)

(** The [Buffer] variants do what the others do, and take from the buffer what
    was used. *)
Lemma out_write_buffer_ok {D I : Type} `{!ZlibOps D I} fuel input (s : Stream D) ok s' :
  wf input → len (content input) < 2 ^ 32 → finished_ s = false → zerror_ s = Z_OK →
  out_write (I := I) fuel (content input) s = Ok (Some (ok, s')) → len (in_ s') ≤ len (content input) →
  ensures (out_write_buffer (I := I) fuel input s) (λ r, ∃ input', r = Some (ok, input', s') ∧ wf input' ∧
    content input' = drop (Z.to_nat (len (content input) - len (in_ s'))) (content input)).
Proof.
  intros Hb Hlen Hf He Hw Hle. unfold out_write, out_write_buffer in *. rewrite Hf, He, Z.eqb_refl in *. cbn [negb orb] in *.
  rewrite readableSpan_eq by done. unfold after in *. cbv zeta.
  apply ok_bind_inv in Hw as ([s1|] & -> & Hw); [|done]. cbn in Hw. injection Hw as <- <-. cbn [obind].
  pose proof (len_nonneg (in_ s1)). rewrite wrap_small by lia.
  destruct (ensures_ok _ _ (retrieve_ok (len (content input) - len (in_ s1)) input Hb ltac:(lia)))
    as (b' & -> & Hb' & Hc' & _). cbn. exists b'. done.
Qed.

(** ** An instance: bytes stored as they are *)

Module Stored.

(** A byte is stored behind a one, a zero ends the stream. *)
Definition enc (x : bytes) : bytes := x ≫= λ b, [Byte.x01; b].

(** What [deflate] has to give before it takes more. *)
Definition stored_deflate (flush : Z) (inp : bytes) (avail_out : Z) (d : bytes) : Z * Z * bytes * bytes :=
  match d, inp with
  | p :: d, _ => (Z_OK, 0, [p], d)
  | [], b :: _ => (Z_OK, 1, [], [Byte.x01; b])
  | [], [] => if flush =? Z_FINISH then (Z_STREAM_END, 0, [Byte.x00], []) else (Z_BUF_ERROR, 0, [], [])
  end.

(** Whether a byte's mark has been read. *)
Definition stored_inflate (flush : Z) (inp : bytes) (avail_out : Z) (marked : bool) : Z * Z * bytes * bool :=
  match inp with
  | [] => (Z_BUF_ERROR, 0, [], marked)
  | b :: _ =>
    if marked then (Z_OK, 1, [b], false)
    else if bool_decide (b = Byte.x00) then (Z_STREAM_END, 1, [], false)
    else if bool_decide (b = Byte.x01) then (Z_OK, 1, [], true)
    else (Z_DATA_ERROR, 0, [], false)
  end.

#[export] Instance stored_ops : ZlibOps bytes bool := {
  deflateInit := (Z_OK, []); deflate := stored_deflate; deflateEnd _ := Z_OK;
  inflateInit := (Z_OK, false); inflate := stored_inflate; inflateEnd _ := Z_OK
}.

Lemma enc_app x y : enc (x ++ y) = enc x ++ enc y.
Proof. apply bind_app. Qed.

Lemma len_enc x : len (enc x) = 2 * len x.
Proof. induction x as [|b x IH]; [done|]. change (enc (b :: x)) with ([Byte.x01; b] ++ enc x). unfold len in *. cbn in *. lia. Qed.

(** Streams are read in one way. *)
Lemma enc_split p x tl : enc p ++ tl = enc x ++ [Byte.x00] → ∃ q, x = p ++ q ∧ tl = enc q ++ [Byte.x00].
Proof.
  revert x. induction p as [|b p IH]; intros x H; [by exists x|].
  destruct x as [|b' x]; [done|]. cbn in H. injection H as -> H. destruct (IH x H) as (q & -> & ->). by exists q.
Qed.

#[export] Instance stored_laws : ZlibLaws bytes bool.
Proof.
  refine (Build_ZlibLaws _ _ _ (λ z x, z = enc x ++ [Byte.x00]) (λ d x z, z ++ d = enc x)
    (λ i c p, c = enc p ++ if i : bool then [Byte.x01] else []) (λ n, 2 * n + 1) _ _ _ _ _ _ _ _).
  - lia.
  - intros d x z H. pose proof (len_enc x) as Hl. rewrite <- H, len_app in Hl. pose proof (len_nonneg d). lia.
  - intros z x ->. by destruct (enc x).
  - intros z x ->. rewrite len_app, len_enc. unfold len. cbn. lia.
  - done.
  - done.
  - intros flush d x z inp avail Hd Ha Hfl. cbn [deflate stored_ops deflateEnd]. unfold stored_deflate.
    destruct d as [|p d]; [destruct inp as [|b inp]|].
    + destruct Hfl as [[_ Hi]| ->]; [done|]. cbn. split; [by unfold len|]. split; [by unfold len; cbn; lia|]. right.
      rewrite app_nil_r in *. by rewrite Hd.
    + split; [unfold len; cbn; lia|]. split; [unfold len; cbn; lia|]. left. split; [done|]. split; [|unfold len; cbn; lia].
      cbn. rewrite enc_app, <- Hd, !app_nil_r. done.
    + split; [pose proof (len_nonneg inp); lia|]. split; [unfold len; cbn; lia|]. left. split; [done|]. split; [|unfold len; cbn; lia].
      cbn. rewrite take_0, app_nil_r, <- app_assoc. done.
  - intros i z x c p inp rest avail -> -> Hz Hne Ha. cbn [inflate stored_ops]. unfold stored_inflate.
    destruct inp as [|b inp]; [done|]. rewrite <- app_assoc in Hz. destruct (enc_split _ _ _ Hz) as (q & -> & Hq).
    assert (∀ l : bytes, enc p ++ l = enc (p ++ q) ++ [Byte.x00] ↔ l = enc q ++ [Byte.x00]) as Hend.
    { intros l. rewrite enc_app, <- app_assoc. split; [apply app_inv_head|by intros ->]. }
    destruct i; cbn in Hq.
    + destruct q as [|b' q]; [done|]. cbn in Hq. injection Hq as -> Hq.
      split; [unfold len; cbn; lia|]. split; [unfold len; cbn; lia|]. left. split; [done|]. cbn. change (Pos.to_nat 1) with 1%nat. cbn.
      split; [by rewrite enc_app, <- !app_assoc|]. split; [unfold len; cbn; lia|].
      split; [|exists q; by rewrite <- app_assoc]. rewrite <- !app_assoc, Hend. cbn. intros [= E]. rewrite take_0 in E. symmetry in E. by apply app_eq_nil in E as [_ ?].
    + destruct q as [|b' q]; cbn in Hq.
      * injection Hq as -> Hq. rewrite bool_decide_true by done. split; [unfold len; cbn; lia|]. split; [unfold len; cbn; lia|].
        right. split; [done|]. cbn. change (Pos.to_nat 1) with 1%nat. cbn. rewrite !app_nil_r. done.
      * injection Hq as -> Hq. rewrite bool_decide_false, bool_decide_true by done.
        split; [unfold len; cbn; lia|]. split; [unfold len; cbn; lia|]. left. split; [done|]. cbn. change (Pos.to_nat 1) with 1%nat. cbn.
        rewrite !app_nil_r. split; [done|]. split; [unfold len; cbn; lia|].
        split; [|exists (b' :: q); done]. rewrite Hend. cbn. intros [=].
Defined.
End Stored.

Import Stored.

(** The text ["abc"] in two pieces, through buffers of the default size. *)
Definition sample_buffer : Buffer := mkBuffer (replicate 1032 Byte.x00) 8 8.

Lemma sample_room n : 0 ≤ n < 1000000 → room_for n sample_buffer.
Proof. intros Hn. split; [|split; [by vm_compute|cbn; lia]]. split; by vm_compute. Qed.


(** *** Uses that surprise *)

(** [avail_in] keeps 32 bits of a size: of four gigabytes nothing is
    compressed, and [write] returns [true]. *)
Lemma write_four_gigabytes {D I : Type} `{!ZlibOps D I} fuel buf (s : Stream D) :
  len buf = 2 ^ 32 → finished_ s = false → zerror_ s = Z_OK →
  out_write (I := I) fuel buf s = Ok (Some (true, set_in [] s)).
Proof.
  intros Hl Hf He. unfold out_write. rewrite Hf, He, Z.eqb_refl. cbn [negb orb]. rewrite Hl.
  change (wrap 32 (2 ^ 32)) with 0. change (take (Z.to_nat 0) buf) with (take 0 buf). rewrite take_0. unfold after.
  destruct fuel; cbn; by rewrite He.
Qed.

(** A stream that was cut short: [finish] takes [Z_BUF_ERROR], the answer to
    missing input, for success. *)
Lemma truncated_accepted :
  ∃ s1 s2 b,
    in_write (D := bytes) (I := bool) 20 [Byte.x01; Byte.x61; Byte.x01] (newInputStream (D := bytes) (I := bool) sample_buffer) = Ok (Some (true, s1)) ∧
    in_finish (D := bytes) (I := bool) 20 s1 = Ok (Some (true, s2)) ∧ content (output_ s2) = [b].
Proof. do 2 eexists. exists Byte.x61. split; [by vm_compute|]. by vm_compute. Qed.

(** A stream that ends in [write] is never given to [inflateEnd]: [finish]
    returns before it. *)
Lemma end_in_write_leaks {D I : Type} `{!ZlibOps D I} fuel (s : Stream I) :
  zerror_ s = Z_STREAM_END → in_finish (D := D) fuel (stream_end s) = Ok (Some (true, stream_end s)).
Proof. intros He. unfold stream_end, in_finish. by rewrite He. Qed.

(** Nor is one that met an error: [finish], and so the destructor, changes
    nothing. *)
Lemma error_leaks {D I : Type} `{!ZlibOps D I} fuel (s : Stream D) (i : Stream I) :
  finished_ s = false → zerror_ s ≠ Z_OK → finished_ i = false → zerror_ i ≠ Z_OK → zerror_ i ≠ Z_STREAM_END →
  out_finish (I := I) fuel s = Ok (Some (false, s)) ∧ destroyOutputStream (I := I) fuel s = Ok (Some s) ∧
  in_finish (D := D) fuel i = Ok (Some (false, i)) ∧ destroyInputStream (D := D) fuel i = Ok (Some i).
Proof.
  intros Hs He Hi He1 He2. unfold destroyOutputStream, destroyInputStream, out_finish, in_finish.
  rewrite Hs, Hi, !(proj2 (Z.eqb_neq _ _)) by done. done.
Qed.
