(* ===== verification/LogStream.v ===== *)
(** * LogStream: the fixed buffer and the stream a log line is made in
    ([muduo/base/LogStream.h])

    A [FixedBuffer] is its array and the write position; a write outside the
    array is a fault. The text [std::to_chars] and [std::format] give for a
    floating-point number is a parameter (at most 48 bytes). *)
From S2P Require Import Prelude Format.
From stdpp Require Import options.

(* src/muduo/base/LogStream.h:23-23 kSmallBuffer *)
Definition kSmallBuffer : Z := 4000.
(* src/muduo/base/LogStream.h:24-24 kLargeBuffer *)
Definition kLargeBuffer : Z := 4000 * 1000.

(* src/muduo/base/LogStream.h:72-75 FixedBuffer *)
Record FixedBuffer := mkFixed { data_ : bytes; writePos_ : Z }.

(** [SIZE], a template parameter. *)
Definition SIZE (b : FixedBuffer) : Z := len (data_ b).
(** A new buffer's array has no particular content; zeros here. *)
(* src/muduo/base/LogStream.h:28-28 FixedBuffer::FixedBuffer *)
Definition newFixed (size : Z) : FixedBuffer := mkFixed (replicate (Z.to_nat size) Byte.x00) 0.

(* src/muduo/base/LogStream.h:46-46 FixedBuffer::length *)
Definition length_ (b : FixedBuffer) : Z := swrap 32 (writePos_ b).
(* src/muduo/base/LogStream.h:49-51 FixedBuffer::avail *)
Definition avail (b : FixedBuffer) : Z := swrap 32 (size_t (SIZE b - writePos_ b)).
(* src/muduo/base/LogStream.h:52-52 FixedBuffer::add *)
Definition add (n : Z) (b : FixedBuffer) : FixedBuffer := mkFixed (data_ b) (size_t (writePos_ b + n)).
(* src/muduo/base/LogStream.h:54-54 FixedBuffer::reset *)
Definition reset (b : FixedBuffer) : FixedBuffer := mkFixed (data_ b) 0.
(* src/muduo/base/LogStream.h:55-55 FixedBuffer::bzero *)
Definition bzero (b : FixedBuffer) : FixedBuffer := mkFixed (replicate (length (data_ b)) Byte.x00) (writePos_ b).
(* src/muduo/base/LogStream.h:60-62 FixedBuffer::toStringView *)
Definition toStringView (b : FixedBuffer) : bytes := slice 0 (size_t (length_ b)) (data_ b).
(* src/muduo/base/LogStream.h:57-59 FixedBuffer::toString *)
Definition fixed_toString (b : FixedBuffer) : bytes := toStringView b.
(* src/muduo/base/LogStream.h:64-66 FixedBuffer::readableSpan *)
Definition readableSpan (b : FixedBuffer) : bytes := toStringView b.
(* src/muduo/base/LogStream.h:68-70 FixedBuffer::writableSpan *)
Definition writableSpan (b : FixedBuffer) : bytes := drop (Z.to_nat (writePos_ b)) (data_ b).

(** Write at [current()] and advance. *)
Definition put_at_current (d : bytes) (b : FixedBuffer) : outcome FixedBuffer :=
  let! data := write_at (writePos_ b) d (data_ b) in
  Ok (add (len d) (mkFixed data (writePos_ b))).

(* src/muduo/base/LogStream.h:39-43 FixedBuffer::append *)
Definition append (s : bytes) (b : FixedBuffer) : outcome FixedBuffer :=
  let n := Z.min (len s) (size_t (avail b)) in
  put_at_current (take (Z.to_nat n) s) b.

(** ** The stream *)

(* src/muduo/base/LogStream.h:81-81 LogStream::Buffer *)
Definition newLogStream : FixedBuffer := newFixed kSmallBuffer.
(* src/muduo/base/LogStream.h:169-169 LogStream::kMaxNumericSize *)
Definition kMaxNumericSize : Z := 48.

(** [{}] of a pointer: lower-case hexadecimal. *)
Definition hex_digit (d : Z) : byte := if d <? 10 then byte_of (48 + d) else byte_of (87 + d).
Fixpoint hex_fuel (fuel : nat) (n : Z) (acc : bytes) : bytes :=
  match fuel with
  | O => acc
  | S k => if n <? 16 then hex_digit n :: acc else hex_fuel k (n / 16) (hex_digit (n mod 16) :: acc)
  end.
(** Sixteen digits are enough for a 64-bit pointer. *)
Definition format_pointer (p : Z) : bytes := str "0x" ++ hex_fuel 16 p [].

(** [std::format_to_n(current(), avail(), ...)] of a text, then [add]. *)
Definition format_n (text : bytes) (b : FixedBuffer) : outcome FixedBuffer :=
  let cap := size_t (avail b) in
  let written := Z.min (len text) cap in
  put_at_current (take (Z.to_nat written) text) b.

(** [std::to_chars]: nothing is kept when it does not fit. *)
Definition to_chars (text : bytes) (b : FixedBuffer) : option (outcome FixedBuffer) :=
  if len text <=? avail b then Some (put_at_current text b) else None.

Section LogStream.
Context {float : Type} (general12 : float → bytes).

(** What is put into a stream. *)
Inductive item :=
| IBool (v : bool) | IChar (v : byte) | IInteger (v : Z) | IPointer (p : Z) | IFloat (v : float) | ILongDouble (v : float)
| ICString (s : option bytes)         (* a null [const char *] is [None] *)
| IString (s : bytes) | IBuffer (v : FixedBuffer)
| IFormat (text : bytes).             (* [format(fmt, args...)] with its text *)

(* src/muduo/base/LogStream.h:83-86 LogStream::operator<<(bool) *)
Definition put_bool (v : bool) : FixedBuffer → outcome FixedBuffer := append (if v then str "1" else str "0").
(* src/muduo/base/LogStream.h:88-92 LogStream::operator<<(char) *)
Definition put_char (v : byte) : FixedBuffer → outcome FixedBuffer := append [v].
(* src/muduo/base/LogStream.h:171-180 LogStream::formatInteger *)
Definition formatInteger (v : Z) (b : FixedBuffer) : outcome FixedBuffer :=
  if kMaxNumericSize <=? avail b then
    match to_chars (format_int v) b with Some r => r | None => Ok b end
  else Ok b.
(* src/muduo/base/LogStream.h:101-108 LogStream::operator<<(const void * ) *)
Definition put_pointer (p : Z) (b : FixedBuffer) : outcome FixedBuffer :=
  if kMaxNumericSize <=? avail b then format_n (format_pointer p) b else Ok b.
(* src/muduo/base/LogStream.h:182-203 LogStream::formatFloating *)
Definition formatFloating (long_double : bool) (v : float) (b : FixedBuffer) : outcome FixedBuffer :=
  if kMaxNumericSize <=? avail b then
    match (if long_double then None else to_chars (general12 v) b) with
    | Some r => r
    | None => format_n (general12 v) b
    end
  else Ok b.
(* src/muduo/base/LogStream.h:114-122 LogStream::operator<<(const char * ) *)
Definition put_cstring (s : option bytes) : FixedBuffer → outcome FixedBuffer :=
  match s with Some s => append s | None => append (str "(null)") end.
(* src/muduo/base/LogStream.h:138-141 LogStream::operator<<(const Buffer &) *)
Definition put_buffer (v : FixedBuffer) : FixedBuffer → outcome FixedBuffer := append (toStringView v).
(* src/muduo/base/LogStream.h:151-163 LogStream::format *)
Definition format (text : bytes) (b : FixedBuffer) : outcome FixedBuffer :=
  if avail b <=? 0 then Ok b else format_n text b.

(* src/muduo/base/LogStream.h:128-136 LogStream::operator<<(string_view) *)
Definition put_string (s : bytes) : FixedBuffer → outcome FixedBuffer := append s.

Definition put (i : item) : FixedBuffer → outcome FixedBuffer :=
  match i with
  | IBool v => put_bool v | IChar v => put_char v | IInteger v => formatInteger v | IPointer p => put_pointer p
  | IFloat v => formatFloating false v | ILongDouble v => formatFloating true v
  | ICString s => put_cstring s | IString s => put_string s | IBuffer v => put_buffer v | IFormat t => format t
  end.

(** ** What ends up in the buffer *)

Definition fixed_ok (b : FixedBuffer) : Prop := SIZE b < 2 ^ 31 ∧ 0 ≤ writePos_ b ≤ SIZE b.
Definition room (b : FixedBuffer) : Z := SIZE b - writePos_ b.

Lemma avail_room b : fixed_ok b → avail b = room b ∧ size_t (avail b) = room b.
Proof using Type.
  intros [H1 H2]. unfold avail, room.
  rewrite (wrap_small 64 (SIZE b - writePos_ b)) by lia.
  rewrite swrap_id by (unfold in_signed; change (2 ^ (32 - 1)) with 2147483648; lia).
  split; [done|]. apply wrap_small. lia.
Qed.

Lemma view_content b : fixed_ok b → toStringView b = slice 0 (writePos_ b) (data_ b).
Proof using Type.
  intros [H1 H2]. unfold toStringView, length_.
  rewrite swrap_id by (unfold in_signed; change (2 ^ (32 - 1)) with 2147483648; lia).
  by rewrite wrap_small by lia.
Qed.

Lemma put_at_current_ok d b :
  fixed_ok b → len d ≤ room b →
  ensures (put_at_current d b) (λ b', fixed_ok b' ∧ SIZE b' = SIZE b ∧ room b' = room b - len d ∧
    toStringView b' = toStringView b ++ d).
Proof using Type.
  clear general12. intros [H1 H2] Hd. unfold room in *. pose proof (len_nonneg d).
  unfold put_at_current. eapply ensures_bind; [apply write_at_ok; [lia|unfold SIZE in *; lia]|].
  intros data (Hl & Hm & Hb & _). cbn [ensures]. unfold add. cbn [data_ writePos_].
  rewrite wrap_small by lia. unfold SIZE in *. cbn [data_].
  assert (fixed_ok (mkFixed data (writePos_ b + len d))) as Hok by (split; unfold SIZE; cbn; lia).
  split_and!; [done|done|cbn; lia|].
  rewrite !view_content by done. cbn [writePos_ data_]. rewrite slice_split by lia. rewrite Z.add_0_l, Hm.
  f_equal. apply Hb; lia.
Qed.

(** Text cut to the room there is. *)
Definition clip (n : Z) (s : bytes) : bytes := take (Z.to_nat n) s.

Lemma take_clip s n : 0 ≤ n → take (Z.to_nat (Z.min (len s) n)) s = clip n s.
Proof using Type.
  clear general12. intros. unfold clip, len. destruct (Z.le_gt_cases (Z.of_nat (length s)) n).
  - rewrite !take_ge by lia. done.
  - f_equal. lia.
Qed.

Lemma len_clip s n : 0 ≤ n → len (clip n s) = Z.min (len s) n.
Proof using Type. clear general12. intros. unfold clip, len. rewrite length_take. lia. Qed.

(** What a stream keeps of an item, with [r] bytes of room left. *)
Definition kept (r : Z) (i : item) : bytes :=
  match i with
  | IBool v => clip r (if v then str "1" else str "0")
  | IChar v => clip r [v]
  | IInteger v => if kMaxNumericSize <=? r then format_int v else []
  | IPointer p => if kMaxNumericSize <=? r then format_pointer p else []
  | IFloat v | ILongDouble v => if kMaxNumericSize <=? r then general12 v else []
  | ICString s => clip r (default (str "(null)") s)
  | IString s => clip r s
  | IBuffer v => clip r (toStringView v)
  | IFormat t => clip r t
  end.

Definition item_ok (i : item) : Prop :=
  match i with
  | IInteger v => - 2 ^ 63 ≤ v < 2 ^ 64
  | IPointer p => 0 ≤ p < 2 ^ 64
  | IFloat v | ILongDouble v => len (general12 v) ≤ kMaxNumericSize
  | _ => True
  end.

Definition grows (b : FixedBuffer) (d : bytes) (m : outcome FixedBuffer) : Prop :=
  ensures m (λ b', fixed_ok b' ∧ SIZE b' = SIZE b ∧ room b' = room b - len d ∧ toStringView b' = toStringView b ++ d).

Lemma grows_nothing b : fixed_ok b → grows b [] (Ok b).
Proof using Type. intros. unfold grows. cbn. rewrite app_nil_r, Z.sub_0_r. done. Qed.

Lemma fixed_append_ok s b : fixed_ok b → grows b (clip (room b) s) (append s b).
Proof using Type.
  intros Hb. destruct (avail_room b Hb) as [Ha Hs]. assert (0 ≤ room b) by (unfold room; destruct Hb; lia).
  unfold append. rewrite Hs, take_clip by done. apply put_at_current_ok; [done|]. rewrite len_clip by done. lia.
Qed.

Lemma format_n_ok s b : fixed_ok b → grows b (clip (room b) s) (format_n s b).
Proof using Type. apply fixed_append_ok. Qed.

Lemma to_chars_ok s b :
  fixed_ok b → len s ≤ room b → ∃ m, to_chars s b = Some m ∧ grows b s m.
Proof using Type.
  intros Hb Hs. destruct (avail_room b Hb) as [Ha _]. unfold to_chars. rewrite Ha, (proj2 (Z.leb_le _ _) Hs).
  eexists. split; [done|]. by apply put_at_current_ok.
Qed.

Lemma int_text v : - 2 ^ 63 ≤ v < 2 ^ 64 → len (format_int v) ≤ kMaxNumericSize.
Proof using Type.
  clear general12. intros Hv. unfold format_int, len, kMaxNumericSize.
  assert (2 ^ 64 < 10 ^ Z.of_nat 40) as Hp by reflexivity. assert (2 ^ 63 < 2 ^ 64) by reflexivity.
  destruct (Z.ltb_spec v 0).
  - pose proof (format_nat_length (- v) 40 ltac:(lia)) as Hl. cbn [length]. lia.
  - pose proof (format_nat_length v 40 ltac:(lia)) as Hl. lia.
Qed.

Lemma hex_length fuel n acc : (length (hex_fuel fuel n acc) ≤ fuel + length acc)%nat.
Proof using Type.
  clear general12. revert n acc. induction fuel as [|k IH]; intros n acc; cbn; [lia|].
  destruct (n <? 16); cbn; [lia|]. specialize (IH (n / 16) (hex_digit (n mod 16) :: acc)). cbn in IH. lia.
Qed.

Lemma clip_all n s : len s ≤ n → clip n s = s.
Proof using Type. clear general12. intros. unfold clip, len in *. apply take_ge. lia. Qed.

Lemma put_ok i b : fixed_ok b → item_ok i → grows b (kept (room b) i) (put i b).
Proof using Type.
  intros Hb Hi. destruct (avail_room b Hb) as [Ha Hs].
  assert (0 ≤ room b) as Hr by (unfold room; destruct Hb; lia).
  destruct i as [v|v|v|p|v|v|s|s|v|t]; cbn [put kept item_ok] in *; try by apply fixed_append_ok.
  - unfold formatInteger. rewrite Ha. destruct (Z.leb_spec kMaxNumericSize (room b)); [|by apply grows_nothing].
    destruct (to_chars_ok (format_int v) b Hb) as (m & -> & Hm); [|done]. pose proof (int_text v Hi). lia.
  - unfold put_pointer. rewrite Ha. destruct (Z.leb_spec kMaxNumericSize (room b)); [|by apply grows_nothing].
    pose proof (format_n_ok (format_pointer p) b Hb) as Hn. rewrite clip_all in Hn; [done|].
    unfold format_pointer, len in *. rewrite length_app. pose proof (hex_length 16 p []). cbn [length str] in *.
    change (length (str "0x")) with 2%nat. unfold kMaxNumericSize in *. lia.
  - unfold formatFloating. rewrite Ha. destruct (Z.leb_spec kMaxNumericSize (room b)); [|by apply grows_nothing].
    destruct (to_chars_ok (general12 v) b Hb) as (m & -> & Hm); [lia|done].
  - unfold formatFloating. rewrite Ha. destruct (Z.leb_spec kMaxNumericSize (room b)); [|by apply grows_nothing].
    pose proof (format_n_ok (general12 v) b Hb) as Hn. by rewrite clip_all in Hn by lia.
  - destruct s; by apply fixed_append_ok.
  - unfold format. rewrite Ha. destruct (Z.leb_spec (room b) 0); [|by apply fixed_append_ok].
    assert (room b = 0) as -> by lia. by apply grows_nothing.
Qed.

(** The items one after the other, each with the room the earlier ones left. *)
Fixpoint kept_all (r : Z) (l : list item) : bytes :=
  match l with
  | [] => []
  | i :: l => kept r i ++ kept_all (r - len (kept r i)) l
  end.

(** The text of an item when there is room enough. *)
Definition text (i : item) : bytes := kept (kMaxNumericSize + 2 ^ 64) i.

(** Items put one after the other. *)
Lemma stream_puts l b :
  fixed_ok b → Forall item_ok l →
  ensures (foldM put l b) (λ b',
    fixed_ok b' ∧ SIZE b' = SIZE b ∧
    toStringView b' = toStringView b ++ kept_all (room b) l ∧
    (len (mjoin (text <$> l)) + kMaxNumericSize ≤ room b →
       toStringView b' = toStringView b ++ mjoin (text <$> l))).
Proof using Type.
  intros Hb Hl.
  assert (ensures (foldM put l b) (λ b', fixed_ok b' ∧ SIZE b' = SIZE b ∧
    toStringView b' = toStringView b ++ kept_all (room b) l)) as Hgen.
  { revert b Hb. induction Hl as [|i l Hi _ IH]; intros b Hb; cbn [foldM kept_all].
    { cbn. by rewrite app_nil_r. }
    eapply ensures_bind; [by apply put_ok|]. intros b1 (Hb1 & Hs1 & Hr1 & Hv1).
    eapply ensures_mono; [by apply IH|]. intros b2 (Hb2 & Hs2 & Hv2). rewrite Hr1 in Hv2.
    split_and!; [done|congruence|]. by rewrite Hv2, Hv1, app_assoc. }
  assert (len (mjoin (text <$> l)) + kMaxNumericSize ≤ room b → kept_all (room b) l = mjoin (text <$> l)) as Hfull.
  { assert (room b ≤ 2 ^ 64) as Hmax by (unfold room; destruct Hb as [Hb1 Hb2]; lia). clear -Hl Hmax.
    revert Hmax. generalize (room b). induction Hl as [|i l Hi _ IH]; intros r Hmax Hlen; [done|]. cbn in Hlen |- *.
    rewrite len_app in Hlen. pose proof (len_nonneg (mjoin (text <$> l))) as Hn. change (mjoin (text <$> l)) with (mjoin (fmap text l)) in *.
    assert (kept r i = text i) as E.
    { pose proof (len_nonneg (text i)) as Hti. unfold kMaxNumericSize in *.
      assert (∀ s : bytes, clip (48 + 2 ^ 64) s = text i → clip r s = text i) as Hclip.
      { intros s Hs. assert (len s ≤ 48 + 2 ^ 64 → clip r s = text i) as Hc.
        { intros Hls. rewrite clip_all in Hs by done. rewrite clip_all; [done|]. subst s. lia. }
        destruct (Z.le_gt_cases (len s) (48 + 2 ^ 64)); [by apply Hc|].
        exfalso. assert (len (text i) = 48 + 2 ^ 64) as Hbig by (rewrite <- Hs, len_clip by lia; lia). lia. }
      assert (∀ s : bytes, (if kMaxNumericSize <=? 48 + 2 ^ 64 then s else []) = text i →
        (if kMaxNumericSize <=? r then s else []) = text i) as Hnum.
      { intros s. unfold kMaxNumericSize. destruct (Z.leb_spec 48 (48 + 2 ^ 64)); [|lia].
        destruct (Z.leb_spec 48 r); [done|lia]. }
      unfold text at 1. destruct i as [v|v|v|p|v|v|s|s|v|t]; cbn [kept]; (apply Hclip || apply Hnum); reflexivity. }
    rewrite E. f_equal. apply IH; [pose proof (len_nonneg (text i)); lia|]. lia. }
  eapply ensures_mono; [exact Hgen|]. intros b' (H1 & H2 & H3). split_and!; [done|done|done|].
  intros Hroom. by rewrite H3, Hfull.
Qed.

(** A stream never writes outside its buffer and loses text only for want
    of room. Putting any items one after the other into a stream with any
    buffer below two gigabytes succeeds without touching memory outside the
    array, keeps what was there, and appends of each item what fits: a text is
    cut at the end of the buffer, a number is written whole or, with less than
    48 bytes left, not at all. When the texts together leave 48 bytes to
    spare, every one of them is there in full. *)
Theorem log_stream_appends l b :
  fixed_ok b → Forall item_ok l →
  ensures (foldM put l b) (λ b',
    fixed_ok b' ∧ SIZE b' = SIZE b ∧
    toStringView b' = toStringView b ++ kept_all (room b) l ∧
    (len (mjoin (text <$> l)) + kMaxNumericSize ≤ room b →
       toStringView b' = toStringView b ++ mjoin (text <$> l))).
Proof using Type. apply stream_puts. Qed.
End LogStream.

Lemma log_stream_appends_witness :
  let l := [IString (str "n="); IInteger (-42); IChar Byte.x0a] in
  let general12 := λ _ : unit, str "1.5" in
  ensures (foldM (put general12) l newLogStream) (λ b',
    fixed_ok b' ∧ SIZE b' = SIZE newLogStream ∧
    toStringView b' = toStringView newLogStream ++ kept_all general12 (room newLogStream) l ∧
    (len (mjoin (text general12 <$> l)) + kMaxNumericSize ≤ room newLogStream →
       toStringView b' = toStringView newLogStream ++ mjoin (text general12 <$> l))).
Proof.
  apply (log_stream_appends (λ _ : unit, str "1.5")).
  - split; [by apply Z.ltb_lt; vm_compute|]. split; apply Z.leb_le; by vm_compute.
  - repeat constructor; cbn; lia.
Defined.
