(* ===== verification/PerformanceInspector.v ===== *)
(** * PerformanceInspector: the pages about memory and time
    ([muduo/net/inspect/PerformanceInspector.cc])

    With tcmalloc the pages ask its [MallocExtension] and its profiler, which
    are parameters; built without it ([None]) most of them only say so. The
    theorem is about the page that is more than an answer passed on: the
    histogram is made in the small buffer of a [LogStream], and always fits. *)
From S2P Require Import Prelude Format Timestamp ProcessInfo HttpRequest Inspector LogStream.
From stdpp Require Import options.

(** What [MallocExtension] answers: the two samples, the array of a given size
    that [GetStats] fills, the figures of [MallocMemoryStats], and the text of
    the release rate, a [double]. *)
Definition kMallocHistogramSize : nat := 64.
Record malloc_extension := mkMalloc {
  GetHeapSample : bytes;
  GetHeapGrowthStacks : bytes;
  GetStats : Z → bytes;
  MallocMemoryStats : Z * Z * list Z;
  GetMemoryReleaseRate : bytes
}.

(** What a page does besides answering. *)
Inductive perf_call :=
| ProfilerStart (file : bytes) | SleepUsec (usec : Z) | ProfilerStop | Unlink (file : bytes) | ReleaseFreeMemory.

Definition not_enabled : bytes := str "tcmalloc is not enabled" ++ [Byte.x0a].

Section Pages.
Context (tcmalloc : option malloc_extension) (s : system) (now : Timestamp) (profiler_starts : bytes → bool).

(* src/muduo/net/inspect/PerformanceInspector.cc:32-40 PerformanceInspector::heap *)
Definition perf_heap : bytes := match tcmalloc with Some m => GetHeapSample m | None => not_enabled end.

(* src/muduo/net/inspect/PerformanceInspector.cc:42-51 PerformanceInspector::growth *)
Definition perf_growth : bytes := match tcmalloc with Some m => GetHeapGrowthStacks m | None => not_enabled end.

(* src/muduo/net/inspect/PerformanceInspector.cc:53-71 PerformanceInspector::profile *)
Definition perf_profile : bytes * list perf_call :=
  match tcmalloc with
  | Some _ =>
      let filename := str "/tmp/" ++ procname_self s ++ str "." ++ pidString s ++ str "." ++ toString now ++ str ".profile" in
      if profiler_starts filename then
        ((readFile s filename (1024 * 1024)).2,
         [ProfilerStart filename; SleepUsec (30 * 1000 * 1000); ProfilerStop; Unlink filename])
      else ([], [ProfilerStart filename])
  | None => (not_enabled, [])
  end.

(* src/muduo/net/inspect/PerformanceInspector.cc:73-76 PerformanceInspector::cmdline *)
Definition perf_cmdline : bytes := [].

(** The page is made from the array as a C string. *)
(* src/muduo/net/inspect/PerformanceInspector.cc:78-87 PerformanceInspector::memstats *)
Definition perf_memstats : bytes :=
  match tcmalloc with Some m => c_string (GetStats m (64 * 1024)) | None => not_enabled end.

(** The stream has no floating-point operand. *)
#[local] Abbreviation item := (LogStream.item (float := unit)).
#[local] Abbreviation put := (LogStream.put (λ _ : unit, [])).

Definition histogram_items (blocks total : Z) (histogram : list Z) : list item :=
  [ICString (Some (str "blocks ")); IInteger blocks; ICString (Some (Byte.x0a :: str "total ")); IInteger total;
   ICString (Some [Byte.x0a])] ++
  mjoin (imap (λ i v, [IInteger (Z.of_nat i); ICString (Some (str " ")); IInteger v; ICString (Some [Byte.x0a])])
    histogram).

(* src/muduo/net/inspect/PerformanceInspector.cc:89-107 PerformanceInspector::memhistogram *)
Definition perf_memhistogram : outcome bytes :=
  match tcmalloc with
  | Some m =>
      let '(blocks, total, histogram) := MallocMemoryStats m in
      let! b := foldM put (histogram_items blocks total histogram) newLogStream in
      Ok (fixed_toString b)
  | None => Ok not_enabled
  end.

(* src/muduo/net/inspect/PerformanceInspector.cc:109-120 PerformanceInspector::releaseFreeMemory *)
Definition perf_releaseFreeMemory : bytes * list perf_call :=
  match tcmalloc with
  | Some m => (str "memory release rate: " ++ GetMemoryReleaseRate m ++ [Byte.x0a] ++ str "All free memory released." ++ [Byte.x0a],
               [ReleaseFreeMemory])
  | None => (not_enabled, [])
  end.

(* src/muduo/net/inspect/PerformanceInspector.cc:122-125 PerformanceInspector::symbol *)
Definition perf_symbol : bytes := str "not implemented" ++ [Byte.x0a].

(** [symbol] is not among the commands. *)
(* src/muduo/net/inspect/PerformanceInspector.cc:18-30 PerformanceInspector::registerCommands *)
Definition register_performance (i : Inspector) : Inspector :=
  let i := Inspector.add (str "pprof") (str "heap") (fixed_page (Ok perf_heap)) (str "get heap information") i in
  let i := Inspector.add (str "pprof") (str "growth") (fixed_page (Ok perf_growth)) (str "get heap growth information") i in
  let i := Inspector.add (str "pprof") (str "profile") (fixed_page (Ok perf_profile.1))
             (str "get cpu profiling information. blocks thread for 30 seconds.") i in
  let i := Inspector.add (str "pprof") (str "cmdline") (fixed_page (Ok perf_cmdline)) (str "get command line") i in
  let i := Inspector.add (str "pprof") (str "memstats") (fixed_page (Ok perf_memstats)) (str "get memory stats") i in
  let i := Inspector.add (str "pprof") (str "memhistogram") (fixed_page perf_memhistogram) (str "get memory histogram") i in
  Inspector.add (str "pprof") (str "releasefreememory") (fixed_page (Ok perf_releaseFreeMemory.1)) (str "release free memory") i.

(** ** The histogram *)

Definition histogram_line (i : nat) (v : Z) : bytes := format_int (Z.of_nat i) ++ str " " ++ format_int v ++ [Byte.x0a].
Definition histogram_text (blocks total : Z) (histogram : list Z) : bytes :=
  str "blocks " ++ format_int blocks ++ (Byte.x0a :: str "total ") ++ format_int total ++ [Byte.x0a] ++
  mjoin (imap histogram_line histogram).

Definition number (v : Z) : Prop := - 2 ^ 63 ≤ v < 2 ^ 64.

Lemma number_text v : number v → 0 ≤ len (format_int v) ≤ 20.
Proof using Type.
  intros Hv. split; [apply len_nonneg|]. unfold format_int, len. unfold number in Hv.
  assert (2 ^ 64 < 10 ^ Z.of_nat 20) as H20 by reflexivity. assert (2 ^ 63 < 10 ^ Z.of_nat 19) as H19 by reflexivity.
  destruct (Z.ltb_spec v 0).
  - pose proof (format_nat_length (- v) 19 ltac:(lia)). cbn [length]. lia.
  - pose proof (format_nat_length v 20 ltac:(lia)). lia.
Qed.

(** The texts of the items, in full. *)
#[local] Abbreviation text := (LogStream.text (λ _ : unit, [])).

Lemma text_number v : text (IInteger v) = format_int v.
Proof using Type. done. Qed.
Lemma text_literal (l : bytes) : len l ≤ 48 → text (ICString (Some l)) = l.
Proof using Type. intros. apply clip_all. unfold kMaxNumericSize. lia. Qed.

Lemma lines_text k histogram :
  mjoin (text <$> mjoin (imap (λ i v, [IInteger (Z.of_nat (k + i)); ICString (Some (str " ")); IInteger v; ICString (Some [Byte.x0a])])
    histogram)) = mjoin (imap (λ i, histogram_line (k + i)) histogram).
Proof using Type.
  revert k. induction histogram as [|v l IH]; intros k; [done|]. cbn [imap mjoin list_join]. rewrite fmap_app, join_app.
  f_equal. specialize (IH (S k)). etrans; [|etrans; [exact IH|]].
  - do 3 f_equal. apply imap_ext. intros i x _. cbn. by rewrite Nat.add_succ_r.
  - f_equal. apply imap_ext. intros i x _. cbn. by rewrite Nat.add_succ_r.
Qed.

Lemma items_text blocks total histogram :
  mjoin (text <$> histogram_items blocks total histogram) = histogram_text blocks total histogram.
Proof using Type.
  unfold histogram_items, histogram_text. rewrite fmap_app, join_app. rewrite (lines_text 0).
  cbn [fmap list_fmap mjoin list_join]. rewrite !text_number, !text_literal, app_nil_r by (by vm_compute).
  by rewrite <- !app_assoc.
Qed.

Lemma lines_short k histogram :
  Forall number histogram → Z.of_nat k + len histogram ≤ 2 ^ 32 →
  len (mjoin (imap (λ i, histogram_line (k + i)) histogram)) ≤ 42 * len histogram.
Proof using Type.
  intros Hh. revert k. induction Hh as [|v l Hv _ IH]; intros k Hk; [done|]. cbn [imap mjoin list_join].
  assert (len (v :: l) = 1 + len l) as El by (unfold len; cbn; lia). rewrite El in *. pose proof (len_nonneg l).
  rewrite len_app. specialize (IH (S k) ltac:(lia)).
  assert (imap (λ i, histogram_line (S k + i)) l = imap (λ i, histogram_line (k + S i)) l) as E.
  { apply imap_ext. intros i x _. cbn. by rewrite Nat.add_succ_r. }
  rewrite E in IH. replace (42 * (1 + len l)) with (42 + 42 * len l) by lia.
  apply Z.add_le_mono; [|exact IH].
  unfold histogram_line. rewrite !len_app. pose proof (number_text v Hv).
  pose proof (number_text (Z.of_nat (k + 0)) ltac:(unfold number; lia)).
  change (len (str " ")) with 1. change (len [Byte.x0a]) with 1. lia.
Qed.

Lemma items_ok blocks total histogram :
  number blocks → number total → Forall number histogram → len histogram ≤ 2 ^ 32 →
  Forall (item_ok (λ _ : unit, [])) (histogram_items blocks total histogram).
Proof using Type.
  intros Hb Ht Hh Hl. unfold histogram_items. rewrite !Forall_app. split; [by rewrite !Forall_cons, Forall_nil|].
  apply Forall_join, Forall_forall. intros x (i & v & -> & Hi)%elem_of_lookup_imap_1.
  pose proof (lookup_lt_Some _ _ _ Hi). unfold len in Hl.
  pose proof (Forall_lookup_1 _ _ _ _ Hh Hi) as Hv. rewrite !Forall_cons, Forall_nil.
  split_and!; try done; cbn; lia.
Qed.

(** The page of the histogram is complete, whatever the figures. *)
Lemma memhistogram_complete m :
  tcmalloc = Some m →
  (let '(blocks, total, histogram) := MallocMemoryStats m in
   number blocks ∧ number total ∧ Forall number histogram ∧ length histogram = kMallocHistogramSize →
   perf_memhistogram = Ok (histogram_text blocks total histogram)).
Proof using Type.
  intros Hm. destruct (MallocMemoryStats m) as [[blocks total] histogram] eqn:Em. intros (Hb & Ht & Hh & Hl).
  unfold perf_memhistogram. rewrite Hm, Em.
  assert (len histogram = 64) as Hlen by (unfold len; rewrite Hl; done).
  pose proof (stream_puts (λ _ : unit, []) (histogram_items blocks total histogram) newLogStream) as Hp.
  assert (fixed_ok newLogStream) as Hok.
  { split; [by apply Z.ltb_lt; vm_compute|]. split; apply Z.leb_le; by vm_compute. }
  specialize (Hp Hok ltac:(apply items_ok; [done..|lia])). apply ensures_ok in Hp as (b & E & _ & _ & _ & Hfull).
  rewrite E. cbn [obind]. unfold fixed_toString. rewrite Hfull, items_text; [done|]. rewrite items_text.
  change (room newLogStream) with 4000. unfold kMaxNumericSize, histogram_text. rewrite !len_app.
  pose proof (number_text blocks Hb). pose proof (number_text total Ht).
  pose proof (lines_short 0 histogram Hh ltac:(lia)) as Hls. rewrite Hlen in Hls.
  change (len (str "blocks ")) with 7. change (len (Byte.x0a :: str "total ")) with 7. change (len [Byte.x0a]) with 1.
  change (imap (λ i, histogram_line (0 + i)) histogram) with (imap histogram_line histogram) in Hls. lia.
Qed.

(** The commands are found under their names, behind those registered before. *)
Lemma pprof_pages i m c :
  sorted2 (modules_ i) →
  find2 m c (modules_ (register_performance i)) =
  if bool_decide (m = str "pprof") then
    if bool_decide (c = str "releasefreememory") then Some (fixed_page (Ok perf_releaseFreeMemory.1)) else
    if bool_decide (c = str "memhistogram") then Some (fixed_page perf_memhistogram) else
    if bool_decide (c = str "memstats") then Some (fixed_page (Ok perf_memstats)) else
    if bool_decide (c = str "cmdline") then Some (fixed_page (Ok perf_cmdline)) else
    if bool_decide (c = str "profile") then Some (fixed_page (Ok perf_profile.1)) else
    if bool_decide (c = str "growth") then Some (fixed_page (Ok perf_growth)) else
    if bool_decide (c = str "heap") then Some (fixed_page (Ok perf_heap)) else
    find2 m c (modules_ i)
  else find2 m c (modules_ i).
Proof using Type.
  intros Hs. unfold register_performance, Inspector.add. cbn [modules_].
  rewrite !find2_assign2 by (repeat apply assign2_sorted; exact Hs).
  destruct (decide (m = str "pprof")) as [->|Hm].
  - rewrite (bool_decide_true (str "pprof" = _)) by done.
    assert (∀ (a : bytes) A (x y : A), (if bool_decide ((str "pprof", a) = (str "pprof", c)) then x else y) =
      if bool_decide (c = a) then x else y) as Hc.
    { intros a A x y. by rewrite (bool_decide_ext _ (c = a)) by naive_solver. }
    by rewrite !Hc.
  - rewrite (bool_decide_false (m = _)) by done. by rewrite !bool_decide_false by congruence.
Qed.
End Pages.
