(* ===== verification/FormatSI.v ===== *)
(** * FormatSI: numbers with unit prefixes ([muduo/base/LogStream.cc])

    [formatSI] and [formatIEC] choose a unit and a number of decimals so that
    three digits are shown, divide in [double] and print with [std::format]. *)
From S2P Require Import Prelude Format Double LogStream.
From stdpp Require Import options.
#[local] Open Scope Z_scope.

(** [{:.pf}]: the exact value, rounded to [p] decimals. *)
Definition decimals (p : nat) (x : Z) : Z := rne (x * 10 ^ Z.of_nat p) scale.
Definition print_decimals (p : nat) (q : Z) : bytes :=
  format_nat (q / 10 ^ Z.of_nat p) ++
  match p with O => [] | _ => [Byte.x2e] ++ zero_pad p (format_nat (q mod 10 ^ Z.of_nat p)) end.
Definition fixed (p : nat) (x : Z) : bytes := print_decimals p (decimals p x).

(** [append("{:.pf}s", d / u)]. *)
Definition scaled (p : nat) (d u : Z) (suffix : string) : bytes := fixed p (fdiv d u) ++ str suffix.

(* src/muduo/base/LogStream.cc:12-49 appendSIImpl *)
Definition appendSIImpl (n : Z) : bytes :=
  let d := of_int n in
  if n <? 1000 then format_int n
  else if n <? 9995 then scaled 2 d (of_int (10 ^ 3)) "k"
  else if n <? 99950 then scaled 1 d (of_int (10 ^ 3)) "k"
  else if n <? 999500 then scaled 0 d (of_int (10 ^ 3)) "k"
  else if n <? 9995000 then scaled 2 d (of_int (10 ^ 6)) "M"
  else if n <? 99950000 then scaled 1 d (of_int (10 ^ 6)) "M"
  else if n <? 999500000 then scaled 0 d (of_int (10 ^ 6)) "M"
  else if n <? 9995000000 then scaled 2 d (of_int (10 ^ 9)) "G"
  else if n <? 99950000000 then scaled 1 d (of_int (10 ^ 9)) "G"
  else if n <? 999500000000 then scaled 0 d (of_int (10 ^ 9)) "G"
  else if n <? 9995000000000 then scaled 2 d (of_int (10 ^ 12)) "T"
  else if n <? 99950000000000 then scaled 1 d (of_int (10 ^ 12)) "T"
  else if n <? 999500000000000 then scaled 0 d (of_int (10 ^ 12)) "T"
  else if n <? 9995000000000000 then scaled 2 d (of_int (10 ^ 15)) "P"
  else if n <? 99950000000000000 then scaled 1 d (of_int (10 ^ 15)) "P"
  else if n <? 999500000000000000 then scaled 0 d (of_int (10 ^ 15)) "P"
  else scaled 2 d (of_int (10 ^ 18)) "E".

(** [9.995], [99.95] and [1023.5]. *)
Definition c9_995 : Z := dbl 9995 1000.
Definition c99_95 : Z := dbl 9995 100.
Definition c1023_5 : Z := dbl 10235 10.

(* src/muduo/base/LogStream.cc:51-97 appendIECImpl *)
Definition appendIECImpl (n : Z) : bytes :=
  let d := of_int n in
  let Ki := of_int 1024 in
  let Mi := fmul Ki (of_int 1024) in
  let Gi := fmul Mi (of_int 1024) in
  let Ti := fmul Gi (of_int 1024) in
  let Pi := fmul Ti (of_int 1024) in
  let Ei := fmul Pi (of_int 1024) in
  if d <? Ki then format_int n
  else if d <? fmul Ki c9_995 then scaled 2 d Ki "Ki"
  else if d <? fmul Ki c99_95 then scaled 1 d Ki "Ki"
  else if d <? fmul Ki c1023_5 then scaled 0 d Ki "Ki"
  else if d <? fmul Mi c9_995 then scaled 2 d Mi "Mi"
  else if d <? fmul Mi c99_95 then scaled 1 d Mi "Mi"
  else if d <? fmul Mi c1023_5 then scaled 0 d Mi "Mi"
  else if d <? fmul Gi c9_995 then scaled 2 d Gi "Gi"
  else if d <? fmul Gi c99_95 then scaled 1 d Gi "Gi"
  else if d <? fmul Gi c1023_5 then scaled 0 d Gi "Gi"
  else if d <? fmul Ti c9_995 then scaled 2 d Ti "Ti"
  else if d <? fmul Ti c99_95 then scaled 1 d Ti "Ti"
  else if d <? fmul Ti c1023_5 then scaled 0 d Ti "Ti"
  else if d <? fmul Pi c9_995 then scaled 2 d Pi "Pi"
  else if d <? fmul Pi c99_95 then scaled 1 d Pi "Pi"
  else if d <? fmul Pi c1023_5 then scaled 0 d Pi "Pi"
  else if d <? fmul Ei c9_995 then scaled 2 d Ei "Ei"
  else scaled 1 d Ei "Ei".

(* src/muduo/base/LogStream.cc:117-126 formatSI *)
Definition formatSI (n : Z) : bytes := appendSIImpl n.
(* src/muduo/base/LogStream.cc:128-137 formatIEC *)
Definition formatIEC (n : Z) : bytes := appendIECImpl n.
(* src/muduo/base/LogStream.cc:101-107 appendSI *)
Definition appendSI (b : FixedBuffer) (n : Z) : outcome FixedBuffer := format (appendSIImpl n) b.
(* src/muduo/base/LogStream.cc:109-115 appendIEC *)
Definition appendIEC (b : FixedBuffer) (n : Z) : outcome FixedBuffer := format (appendIECImpl n) b.

(** The examples of the program's tests. *)
Example si_samples :
  formatSI <$> [0; 999; 1000; 9994; 9995; 10049; 10050; 999999; 1000000; 2 ^ 63 - 1] =
  str <$> ["0"; "999"; "1.00k"; "9.99k"; "10.0k"; "10.0k"; "10.1k"; "1.00M"; "1.00M"; "9.22E"]%string.
Proof. vm_compute. reflexivity. Qed.
Example iec_samples :
  formatIEC <$> [1023; 1024; 10234; 10235; 1048063; 1048064; 1024 * 1024 - 1; 1024 * 1024] =
  str <$> ["1023"; "1.00Ki"; "9.99Ki"; "10.0Ki"; "1023Ki"; "1.00Mi"; "1.00Mi"; "1.00Mi"]%string.
Proof. vm_compute. reflexivity. Qed.

(** ** The digits shown *)

Definition digits_of (p : nat) (u n : Z) : Z := decimals p (fdiv (of_int n) (of_int u)).

Lemma of_int_mono n n' : 0 ≤ n ≤ n' → of_int n ≤ of_int n'.
Proof. intros H. apply dbl_mono; lia. Qed.
Lemma of_int_nonneg n : 0 ≤ n → 0 ≤ of_int n.
Proof. intros H. change 0 with (of_int 0) at 1. by apply of_int_mono. Qed.

Lemma decimals_mono p x x' : x ≤ x' → decimals p x ≤ decimals p x'.
Proof.
  intros H. pose proof scale_pos. apply rne_mono; [done|done|]. apply Z.mul_le_mono_nonneg_r; [lia|].
  apply Z.mul_le_mono_nonneg_r; lia.
Qed.

Lemma fdiv_mono x x' y : 0 ≤ x → x ≤ x' → 0 < y → fdiv x y ≤ fdiv x' y.
Proof.
  intros H1 H2 H3. unfold fdiv. rewrite (proj2 (Z.ltb_lt 0 y) H3). apply dbl_mono; [done|done|done|].
  apply Z.mul_le_mono_nonneg_r; lia.
Qed.

Lemma digits_mono p u n n' : 0 ≤ n ≤ n' → 0 < of_int u → digits_of p u n ≤ digits_of p u n'.
Proof.
  intros Hn Hu. apply decimals_mono, fdiv_mono; [apply of_int_nonneg; lia|by apply of_int_mono|done].
Qed.

(** The text is within half a unit of its last place, and the rounding of the
    doubles, of the number. *)
Definition close (p : nat) (u n q : Z) : Prop :=
  2 * Z.abs (q * u - 10 ^ Z.of_nat p * n) * 2 ^ 50 ≤ u * 2 ^ 50 + 10 ^ Z.of_nat p * n.

Lemma digits_close p u n :
  0 < u → u ≤ 2 * n → n < 2 ^ 63 → of_int u = u * scale → close p u n (digits_of p u n).
Proof.
  intros Hu Hn Hmax Hexact. unfold close, digits_of. set (d := of_int n). set (x := fdiv d (of_int u)).
  set (P := 10 ^ Z.of_nat p). assert (0 < P) as HP by (unfold P; lia). pose proof scale_pos as HS.
  assert (2 ^ 55 ≤ scale) as H53 by done.
  assert (Z.abs (d - n * scale) * 2 ^ 53 ≤ n * scale) as H1.
  { unfold d, of_int. pose proof (dbl_error n 1) as E. rewrite Z.mul_1_r in E. assert (1 * scale ≤ n * scale) by (apply Z.mul_le_mono_nonneg_r; lia). apply E; lia. }
  assert (n * scale ≤ d * 2) as Hd by lia.
  assert (Z.abs (x * u - d) * 2 ^ 53 ≤ d) as H2.
  { unfold x, fdiv. rewrite Hexact. rewrite (proj2 (Z.ltb_lt 0 (u * scale))) by lia.
    pose proof (dbl_error d (u * scale)) as E.
    assert (Z.abs (dbl d (u * scale) * (u * scale) - d * scale) * 2 ^ 53 ≤ d * scale) as E'.
    { apply E; [lia|lia|]. replace (u * scale * 2 ^ 53) with (u * 2 ^ 53 * scale) by lia.
      apply Z.mul_le_mono_nonneg_r; [lia|]. assert (2 * n * 2 ^ 54 ≤ n * scale); [|lia].
      replace (2 * n * 2 ^ 54) with (n * 2 ^ 55) by lia. apply Z.mul_le_mono_nonneg_l; lia. }
    replace (dbl d (u * scale) * (u * scale) - d * scale) with ((dbl d (u * scale) * u - d) * scale) in E' by lia.
    rewrite Z.abs_mul, (Z.abs_eq scale) in E' by lia. apply Z.mul_le_mono_pos_r with scale; [done|]. lia. }
  pose proof (rne_spec (x * P) scale HS) as [H3 _]. fold (decimals p x) in H3. set (q := decimals p x) in *.
  change (rne (x * P) scale) with q in H3.
  assert (Z.abs (q * u - P * n) * scale ≤ Z.abs (x * P - q * scale) * u + P * Z.abs (x * u - d) + P * Z.abs (d - n * scale)) as Htri.
  { rewrite <- (Z.abs_eq scale) at 1 by lia. rewrite <- (Z.abs_eq u) at 2 by lia. rewrite <- (Z.abs_eq P) at 3 4 by lia.
    rewrite <- !Z.abs_mul.
    replace ((q * u - P * n) * scale) with (- ((x * P - q * scale) * u) + (P * (x * u - d)) + P * (d - n * scale)) by lia. lia. }
  assert (Z.abs (x * P - q * scale) * u * 2 ≤ scale * u) as A1 by (pose proof (Z.mul_le_mono_nonneg_r _ _ u ltac:(lia) H3); lia).
  assert (P * Z.abs (x * u - d) * 2 ^ 53 ≤ P * d) as A2 by (pose proof (Z.mul_le_mono_nonneg_l _ _ P ltac:(lia) H2); lia).
  assert (P * Z.abs (d - n * scale) * 2 ^ 53 ≤ P * (n * scale)) as A3 by (pose proof (Z.mul_le_mono_nonneg_l _ _ P ltac:(lia) H1); lia).
  assert (P * d ≤ P * (n * scale) + P * Z.abs (d - n * scale)) as A4 by (rewrite <- Z.mul_add_distr_l; apply Z.mul_le_mono_nonneg_l; lia).
  apply Z.mul_le_mono_pos_r with scale; [done|].
  assert (0 ≤ P * (n * scale)) as A5 by (apply Z.mul_nonneg_nonneg; lia).
  clear -Htri A1 A2 A3 A4 A5. revert Htri A1 A2 A3 A4 A5.
  generalize (Z.abs (q * u - P * n)), (Z.abs (x * P - q * scale)), (Z.abs (x * u - d)), (Z.abs (d - n * scale)).
  intros e1 e2 e3 e4. lia.
Qed.

(** A text that shows [n] in one of the [units], with three digits ([max] is
    the greatest number of them). *)
Definition shows (units : list (string * Z)) (max n : Z) (text : bytes) : Prop :=
  ∃ p suffix u q, (suffix, u) ∈ units ∧ (p ≤ 2)%nat ∧ text = print_decimals p q ++ str suffix ∧
    100 ≤ q ≤ max ∧ (p ≠ O → q ≤ 999) ∧ close p u n q.

Definition SI_units : list (string * Z) :=
  [("k", 10 ^ 3); ("M", 10 ^ 6); ("G", 10 ^ 9); ("T", 10 ^ 12); ("P", 10 ^ 15); ("E", 10 ^ 18)]%string.
Definition IEC_units : list (string * Z) :=
  [("Ki", 2 ^ 10); ("Mi", 2 ^ 20); ("Gi", 2 ^ 30); ("Ti", 2 ^ 40); ("Pi", 2 ^ 50); ("Ei", 2 ^ 60)]%string.

(** What is computed at both ends of a branch. *)
Definition branch_ok (units : list (string * Z)) (max : Z) (p : nat) (suffix : string) (u lo hi : Z) : bool :=
  bool_decide ((suffix, u) ∈ units) && (p <=? 2)%nat && (0 <? u) && (u <=? 2 * lo) && (hi <? 2 ^ 63) &&
  (of_int u =? u * scale) && (100 <=? digits_of p u lo) && (digits_of p u hi <=? match p with O => max | _ => 999 end) &&
  (999 <=? max).

Lemma branch_shows units max p suffix u lo hi n :
  branch_ok units max p suffix u lo hi = true → lo ≤ n ≤ hi →
  shows units max n (scaled p (of_int n) (of_int u) suffix).
Proof.
  unfold branch_ok. rewrite !andb_true_iff, bool_decide_eq_true, Nat.leb_le, !Z.leb_le, !Z.ltb_lt, Z.eqb_eq.
  intros ((((((((H1 & H2) & H3) & H4) & H5) & H6) & H7) & H8) & H9) Hn.
  assert (0 < of_int u) as Hu by (pose proof scale_pos; lia). exists p, suffix, u, (digits_of p u n).
  pose proof (digits_mono p u lo n ltac:(lia) Hu) as Hlo. pose proof (digits_mono p u n hi ltac:(lia) Hu) as Hhi.
  split_and!; [done|done|done|lia|destruct p; lia|destruct p; [done|lia]|]. apply digits_close; [done|lia|lia|done].
Qed.

(** The comparisons of doubles are comparisons of integers. *)
Lemma of_int_below c N n : of_int N < c → c ≤ of_int (N + 1) → 0 ≤ N → 0 ≤ n → (of_int n <? c) = (n <=? N).
Proof.
  intros H1 H2 HN Hn. apply eq_true_iff_eq. rewrite Z.ltb_lt, Z.leb_le. split; intros H.
  - destruct (Z.le_gt_cases n N) as [|Hlt]; [done|]. pose proof (of_int_mono (N + 1) n ltac:(lia)). lia.
  - pose proof (of_int_mono n N ltac:(lia)). lia.
Qed.

Lemma print_decimals_length p q :
  (p ≤ 2)%nat → 0 ≤ q → q < 10 ^ 4 → (p ≠ O → q ≤ 999) →
  (length (print_decimals p q) ≤ match p with O => if (q <=? 999)%Z then 3 else 4 | _ => 4 end)%nat.
Proof.
  intros Hp H1 H2 H3. unfold print_decimals. rewrite length_app. destruct p as [|[|[|p]]]; [| | |lia].
  - rewrite Z.div_1_r. cbn [length]. destruct (Z.leb_spec q 999).
    + pose proof (format_nat_length q 3). lia.
    + pose proof (format_nat_length q 4). lia.
  - change (10 ^ Z.of_nat 1) with 10. rewrite length_app. pose proof (Z.mod_pos_bound q 10). specialize (H3 ltac:(done)).
    pose proof (format_nat_length (q / 10) 2). pose proof (format_nat_length (q `mod` 10) 1).
    rewrite zero_pad_length by lia. cbn [length]. assert (q / 10 < 100) by (apply Z.div_lt_upper_bound; lia).
    pose proof (Z.div_pos q 10). lia.
  - change (10 ^ Z.of_nat 2) with 100. rewrite length_app. pose proof (Z.mod_pos_bound q 100). specialize (H3 ltac:(done)).
    pose proof (format_nat_length (q / 100) 1). pose proof (format_nat_length (q `mod` 100) 2).
    rewrite zero_pad_length by lia. cbn [length]. assert (q / 100 < 10) by (apply Z.div_lt_upper_bound; lia).
    pose proof (Z.div_pos q 100). lia.
Qed.

(** Takes the next branch of the choice; [lo] and [hi] are the numbers it is
    taken for. *)
Ltac si_branch n lo hi :=
  match goal with |- context [n <? ?c] => destruct (Z.ltb_spec n c) end;
  [apply (branch_shows _ _ _ _ _ lo hi); [vm_compute; reflexivity|lia]|].

(** Where the limits, which are exact, and the rounding of [double], whose
    neighbours are 16 and 128 apart, do not agree. *)
Definition to_100_0P (n : Z) : Prop := 99949999999999992 ≤ n < 99950000000000000.
Definition to_1000P (n : Z) : Prop := 999499999999999936 ≤ n < 999500000000000000.

Lemma si_shows n : 1000 ≤ n < 2 ^ 63 → ¬ to_100_0P n → ¬ to_1000P n → shows SI_units 999 n (formatSI n).
Proof.
  intros Hn H1 H2. unfold to_100_0P, to_1000P in *. unfold formatSI, appendSIImpl. destruct (Z.ltb_spec n 1000); [lia|].
  si_branch n 1000 9994. si_branch n 9995 99949. si_branch n 99950 999499.
  si_branch n 999500 9994999. si_branch n 9995000 99949999. si_branch n 99950000 999499999.
  si_branch n 999500000 9994999999. si_branch n 9995000000 99949999999. si_branch n 99950000000 999499999999.
  si_branch n 999500000000 9994999999999. si_branch n 9995000000000 99949999999999. si_branch n 99950000000000 999499999999999.
  si_branch n 999500000000000 9994999999999999. si_branch n 9995000000000000 99949999999999991.
  si_branch n 99950000000000000 999499999999999935.
  apply (branch_shows _ _ _ _ _ 999500000000000000 (2 ^ 63 - 1)); [vm_compute; reflexivity|lia].
Qed.

Lemma si_exceptions n : (to_100_0P n → formatSI n = str "100.0P") ∧ (to_1000P n → formatSI n = str "1000P").
Proof.
  unfold to_100_0P, to_1000P, formatSI, appendSIImpl.
  assert (∀ p u lo hi q, 0 ≤ lo ≤ n ∧ n ≤ hi → digits_of p u lo = q → digits_of p u hi = q → 0 < of_int u →
    decimals p (fdiv (of_int n) (of_int u)) = q) as Hsame.
  { intros p u lo hi q Hn H1 H2 Hu. pose proof (digits_mono p u lo n ltac:(lia) Hu).
    pose proof (digits_mono p u n hi ltac:(lia) Hu). unfold digits_of in *. lia. }
  split; intros Hn; repeat (match goal with |- context [n <? ?c] => destruct (Z.ltb_spec n c) end; try lia).
  - unfold scaled, fixed. rewrite (Hsame 1%nat (10 ^ 15) 99949999999999992 99949999999999999 1000);
      [reflexivity|lia|vm_compute; reflexivity|vm_compute; reflexivity|done].
  - unfold scaled, fixed. rewrite (Hsame 0%nat (10 ^ 15) 999499999999999936 999499999999999999 1000);
      [reflexivity|lia|vm_compute; reflexivity|vm_compute; reflexivity|done].
Qed.

(** The same with binary units, whose limits are compared as doubles: [hi] is
    the last number the limit lets through. *)
Ltac iec_branch n lo hi :=
  match goal with |- context [of_int n <? ?c] =>
    rewrite (of_int_below c hi n) by (first [lia|apply Z.ltb_lt; vm_compute; reflexivity|apply Z.leb_le; vm_compute; reflexivity]) end;
  destruct (Z.leb_spec n hi);
  [apply (branch_shows _ _ _ _ _ lo hi); [vm_compute; reflexivity|lia]|].

(** The units are exact. *)
Lemma iec_units_exact :
  fmul (of_int 1024) (of_int 1024) = of_int (2 ^ 20) ∧ fmul (of_int (2 ^ 20)) (of_int 1024) = of_int (2 ^ 30) ∧
  fmul (of_int (2 ^ 30)) (of_int 1024) = of_int (2 ^ 40) ∧ fmul (of_int (2 ^ 40)) (of_int 1024) = of_int (2 ^ 50) ∧
  fmul (of_int (2 ^ 50)) (of_int 1024) = of_int (2 ^ 60).
Proof. vm_compute. done. Qed.

Lemma iec_small n : 0 ≤ n → (of_int n <? of_int 1024) = (n <? 1024).
Proof.
  intros Hn. rewrite (of_int_below _ 1023 n) by (first [lia|apply Z.ltb_lt; vm_compute; reflexivity|apply Z.leb_le; vm_compute; reflexivity]).
  destruct (Z.leb_spec n 1023), (Z.ltb_spec n 1024); lia.
Qed.

Lemma iec_shows n : 1024 ≤ n < 2 ^ 63 → shows IEC_units 1023 n (formatIEC n).
Proof.
  intros Hn. unfold formatIEC, appendIECImpl. cbv zeta. rewrite iec_small by lia. destruct (Z.ltb_spec n 1024); [lia|].
  destruct iec_units_exact as (-> & -> & -> & -> & ->). change 1024 with (2 ^ 10).
  iec_branch n 1024 10234. iec_branch n 10235 102348. iec_branch n 102349 1048063.
  iec_branch n 1048064 10480517. iec_branch n 10480518 104805171. iec_branch n 104805172 1073217535.
  iec_branch n 1073217536 10732049530. iec_branch n 10732049531 107320495308. iec_branch n 107320495309 1098974756863.
  iec_branch n 1098974756864 10989618719621. iec_branch n 10989618719622 109896187196211.
  iec_branch n 109896187196212 1125350151028735.
  iec_branch n 1125350151028736 11253369568892025. iec_branch n 11253369568892026 112533695688920264.
  iec_branch n 112533695688920265 1152358554653425599.
  destruct (Z.ltb_spec (of_int n) (fmul (of_int (2 ^ 60)) c9_995)) as [|Hge].
  - apply (branch_shows _ _ _ _ _ 1152358554653425600 (2 ^ 63 - 1)); [vm_compute; reflexivity|lia].
  - pose proof (of_int_mono n (2 ^ 63 - 1) ltac:(lia)).
    assert (of_int (2 ^ 63 - 1) < fmul (of_int (2 ^ 60)) c9_995) by (apply Z.ltb_lt; vm_compute; reflexivity). lia.
Qed.

Lemma shows_length units max n text k :
  shows units max n text → Forall (λ '(s, _), (length (str s) ≤ k)%nat) units → max < 10 ^ 4 → (length text ≤ 4 + k)%nat.
Proof.
  intros (p & suffix & u & q & Hin & Hp & -> & Hq & H9 & _) Hk Hmax. rewrite length_app.
  rewrite Forall_forall in Hk. specialize (Hk _ Hin). cbn beta iota in Hk.
  pose proof (print_decimals_length p q Hp ltac:(lia) ltac:(lia) H9) as Hl.
  destruct p; [|lia]. destruct (q <=? 999); lia.
Qed.

(** C36. Sizes for people. [formatSI] prints numbers below 1000 as they are and
    shows every other one in a unit from k to E with three digits, within half
    a unit of the last of them (and the error of the doubles, a part in 2^50)
    of the number; [formatIEC] does so from Ki to Ei, with four digits between
    1000 and 1023. So the texts have at most five and six characters. The only
    exceptions are eight numbers and sixty-four numbers where the division
    rounds up to the next power of ten. *)
Theorem sizes_text n :
  0 ≤ n < 2 ^ 63 →
  (n < 1000 → formatSI n = format_int n) ∧
  (1000 ≤ n → ¬ to_100_0P n → ¬ to_1000P n → shows SI_units 999 n (formatSI n) ∧ (length (formatSI n) ≤ 5)%nat) ∧
  (to_100_0P n → formatSI n = str "100.0P") ∧ (to_1000P n → formatSI n = str "1000P") ∧
  (n < 1024 → formatIEC n = format_int n) ∧
  (1024 ≤ n → shows IEC_units 1023 n (formatIEC n) ∧ (length (formatIEC n) ≤ 6)%nat).
Proof.
  intros Hn. split_and!.
  - intros H. unfold formatSI, appendSIImpl. by rewrite (proj2 (Z.ltb_lt n 1000) H).
  - intros H H1 H2. pose proof (si_shows n ltac:(lia) H1 H2) as Hs. split; [done|].
    eapply (shows_length _ _ _ _ 1); [exact Hs|repeat constructor|done].
  - apply si_exceptions.
  - apply si_exceptions.
  - intros H. unfold formatIEC, appendIECImpl. cbv zeta. rewrite iec_small by lia. by rewrite (proj2 (Z.ltb_lt n 1024) H).
  - intros H. pose proof (iec_shows n ltac:(lia)) as Hs. split; [done|].
    eapply (shows_length _ _ _ _ 2); [exact Hs|repeat constructor|done].
Qed.

Lemma sizes_text_witness :
  shows SI_units 999 1234567 (formatSI 1234567) ∧ (length (formatSI 1234567) ≤ 5)%nat ∧
  formatSI 99949999999999993 = str "100.0P" ∧ (length (formatIEC 1048575) ≤ 6)%nat.
Proof.
  split; [apply (sizes_text 1234567); unfold to_100_0P, to_1000P; lia|].
  split; [apply (sizes_text 1234567); unfold to_100_0P, to_1000P; lia|].
  split; [apply (sizes_text 99949999999999993); unfold to_100_0P; lia|]. apply (sizes_text 1048575); lia.
Defined.
