(* ===== verification/Logging.v ===== *)
(** * Logging: a line of the log ([muduo/base/Logging.h], [Logging.cc],
    [CurrentThread.cc])

    A line is put together in a [LogStream] from text that each thread caches:
    the date and time of the last second it logged in, its id, the base name
    of the last file and the suffix of the last source line. A C string is its
    address; [cstr] is what static memory holds there, so comparing addresses
    is what the code does. [::gettid], [strerror_r] and the time are arguments. *)
From S2P Require Import Prelude Format Calendar TimeZone LogStream.
From stdpp Require Import options.

(* src/muduo/base/Logging.h:19-27 Logger::LogLevel *)
Inductive LogLevel : Set := TRACE | DEBUG | INFO | WARN | ERROR | FATAL | NUM_LOG_LEVELS.
Definition level_num (l : LogLevel) : Z :=
  match l with TRACE => 0 | DEBUG => 1 | INFO => 2 | WARN => 3 | ERROR => 4 | FATAL => 5 | NUM_LOG_LEVELS => 6 end.

(* src/muduo/base/Logging.cc:99-103 kLogLevelName *)
Definition kLogLevelName : list bytes :=
  [str "TRACE "; str "DEBUG "; str "INFO  "; str "WARN  "; str "ERROR "; str "FATAL "].

(* src/muduo/base/Logging.cc:88-97 initLogLevel *)
Definition initLogLevel (getenv : bytes → option bytes) : LogLevel :=
  match getenv (str "MUDUO_LOG_TRACE") with
  | Some _ => TRACE
  | None => match getenv (str "MUDUO_LOG_DEBUG") with Some _ => DEBUG | None => INFO end
  end.

(** A thread's caches, its [thread_local] variables. *)
(* src/muduo/base/Logging.cc:20-22 t_errnobuf, t_time, t_lastSecond *)
Record LogThread := mkLogThread {
  t_cachedTid : Z;
  t_tidString : bytes;          (* its first t_tidStringLength bytes *)
  t_lastSecond : Z;
  t_time : bytes;               (* its first 17 bytes *)
  base_file : Z; base_name : Z;
  suffix_basename : Z; suffix_line : Z; suffix : bytes
}.
Definition new_thread : LogThread := mkLogThread 0 (replicate 6 Byte.x00) 0 (replicate 17 Byte.x00) 0 0 0 0 [].

(** *** Digits *)

(** [kDigitPairs.at(value)]; the constructor is [noexcept]. *)
(* src/muduo/base/Logging.cc:35-39 write2Digits *)
Definition write2Digits (value : Z) : outcome bytes :=
  if size_t value <? 100 then Ok [digit (value / 10); digit (value mod 10)] else Fault Terminated.

(* src/muduo/base/Logging.cc:41-49 write4Digits *)
Definition write4Digits (value : Z) : outcome bytes :=
  let value := if value <? 0 then 0 else if 9999 <? value then 9999 else value in
  let! hi := write2Digits (Z.quot value 100) in
  let! lo := write2Digits (Z.rem value 100) in
  Ok (hi ++ lo).

(** *** The thread's id *)

(** The digits always fit, so the fallback text is never used. *)
(* src/muduo/base/CurrentThread.cc:50-87 CurrentThread::cacheTid *)
Definition cacheTid (gettid : Z) (th : LogThread) : LogThread :=
  if t_cachedTid th =? 0 then
    let digits := format_int gettid in
    let padding := Z.max 0 (5 - len digits) in
    let pos := Z.min padding 31 in
    let copyLen := Z.min (len digits) (31 - pos - 1) in
    let s := replicate (Z.to_nat pos) Byte.x20 ++ take (Z.to_nat copyLen) digits in
    let s := if len s <? 31 then s ++ [Byte.x20] else s in
    mkLogThread gettid s (t_lastSecond th) (t_time th) (base_file th) (base_name th)
      (suffix_basename th) (suffix_line th) (suffix th)
  else th.

(* src/muduo/base/CurrentThread.h:20-25 CurrentThread::tid *)
Definition tid (gettid : Z) (th : LogThread) : LogThread := if t_cachedTid th =? 0 then cacheTid gettid th else th.

(** In the child of a [fork] ([pthread_atfork]); the name becomes "main". *)
(* src/muduo/base/CurrentThread.cc:24-28 afterFork *)
Definition afterFork (gettid : Z) (th : LogThread) : LogThread :=
  cacheTid gettid (mkLogThread 0 (t_tidString th) (t_lastSecond th) (t_time th) (base_file th) (base_name th)
                     (suffix_basename th) (suffix_line th) (suffix th)).

(** *** Base names *)

(** The offset behind the last slash ([strrchr]). *)
Fixpoint base_offset (s : bytes) (i acc : nat) : nat :=
  match s with
  | [] => acc
  | b :: s => base_offset s (S i) (if bool_decide (b = Byte.x2f) then S i else acc)
  end.

Section Logging.
(** Static memory, and the address of the literal ["unknown"]. *)
Context (cstr : Z → bytes) (unknown : Z).
(** [strerror_r], null when it has no text. *)
Context (strerror_r : Z → option bytes).
Context {zone : Type} (sys_offset : zone → Z → Z).
Context {float : Type} (general12 : float → bytes).

(* src/muduo/base/Logging.cc:51-72 cachedBasename *)
Definition cachedBasename (file : Z) (th : LogThread) : Z * LogThread :=
  if file =? 0 then (unknown, th)
  else if (file =? base_file th) && negb (base_name th =? 0) then (base_name th, th)
  else
    let base := file + Z.of_nat (base_offset (cstr file) 0 0) in
    (base, mkLogThread (t_cachedTid th) (t_tidString th) (t_lastSecond th) (t_time th) file base
             (suffix_basename th) (suffix_line th) (suffix th)).

(* src/muduo/base/Logging.cc:74-86 errnoFallback *)
Definition errnoFallback (savedErrno : Z) : bytes := str "errno " ++ format_int savedErrno.

(* src/muduo/base/Logging.cc:120-128 strerror_tl *)
Definition strerror_tl (savedErrno : Z) : bytes := default (errnoFallback savedErrno) (strerror_r savedErrno).

(** The date and time of a second, as the constructor writes it. *)
(* src/muduo/base/Logging.cc:146-160 Logger::Impl::Impl, the time *)
Definition time_digits (tz : TimeZone (zone := zone)) (seconds : Z) : outcome bytes :=
  let! dt := (if valid tz then match toLocalTime sys_offset tz seconds with
                               | inl r => Ok (fst r)
                               | inr RuntimeError => Fault Terminated
                               end
              else Ok (toUtcTime seconds)) in
  let! y := write4Digits (year dt) in
  let! mo := write2Digits (month dt) in
  let! d := write2Digits (day dt) in
  let! h := write2Digits (hour dt) in
  let! mi := write2Digits (minute dt) in
  let! s := write2Digits (second dt) in
  Ok (y ++ mo ++ d ++ str " " ++ h ++ str ":" ++ mi ++ str ":" ++ s).

Definition cached_time (tz : TimeZone (zone := zone)) (seconds : Z) (th : LogThread) : outcome LogThread :=
  if negb (seconds =? t_lastSecond th) then
    let! text := time_digits tz seconds in
    Ok (mkLogThread (t_cachedTid th) (t_tidString th) seconds text (base_file th) (base_name th)
          (suffix_basename th) (suffix_line th) (suffix th))
  else Ok th.

(** The microseconds: indices of an [int]; a negative one is out of range. *)
(* src/muduo/base/Logging.cc:164-183 Logger::Impl::Impl, the microseconds *)
Definition micro_digits (tz : TimeZone (zone := zone)) (us : Z) : outcome bytes :=
  let! hi := write2Digits (Z.quot us 10000) in
  let! mid := write2Digits (Z.rem (Z.quot us 100) 100) in
  let! lo := write2Digits (Z.rem us 100) in
  Ok (str "." ++ hi ++ mid ++ lo ++ if valid tz then str " " else str "Z ").

(* src/muduo/base/Logging.h:110-114 Logger::Impl *)
Record Impl := mkImpl { time_ : Z; stream_ : FixedBuffer; level_ : LogLevel; line_ : Z; basename_ : Z }.

(** What is put into the stream before the message. *)
Definition prefix_items (savedErrno : Z) (func date micros tids levels : bytes) : list (item (float := float)) :=
  [IString date; IString micros; IString tids; ICString (Some levels)] ++
  (match func with [] => [] | _ => [IString func; IChar Byte.x20] end) ++
  (if savedErrno =? 0 then []
   else [ICString (Some (strerror_tl savedErrno)); ICString (Some (str " (errno=")); IInteger savedErrno;
         ICString (Some (str ") "))]).

(* src/muduo/base/Logging.cc:135-196 Logger::Impl::Impl *)
Definition newImpl (tz : TimeZone (zone := zone)) (gettid microsSinceEpoch : Z) (level : LogLevel) (savedErrno : Z)
    (func : bytes) (basename line : Z) (th : LogThread) : outcome (Impl * LogThread) :=
  let '(base, th) := cachedBasename basename th in
  let seconds := Z.quot microsSinceEpoch 1000000 in
  let us := Z.rem microsSinceEpoch 1000000 in
  let! th := cached_time tz seconds th in
  let! micros := micro_digits tz us in
  let th := tid gettid th in
  let! levels := match kLogLevelName !! Z.to_nat (level_num level) with Some s => Ok s | None => Fault Terminated end in
  let! s := foldM (put general12) (prefix_items savedErrno func (t_time th) micros (t_tidString th) levels)
              newLogStream in
  Ok (mkImpl microsSinceEpoch s level line base, th).

(** The suffix is made in an array of 256 bytes. *)
(* src/muduo/base/Logging.cc:206-252 Logger::Impl::finish, the suffix *)
Definition suffix_of (name : bytes) (line : Z) : bytes :=
  let cap := 256 in
  let add (d s : bytes) := s ++ take (Z.to_nat (cap - len s)) d in
  let s := add (str " - ") [] in
  let s := add name s in
  let s := add (str ":") s in
  let s := if (len s <? cap) && (len (format_nat (wrap 32 line)) <=? cap - len s)
           then s ++ format_nat (wrap 32 line) else add (str "?") s in
  add [Byte.x0a] s.
Definition make_suffix (basename line : Z) : bytes := suffix_of (cstr (if basename =? 0 then unknown else basename)) line.

(* src/muduo/base/Logging.cc:198-255 Logger::Impl::finish *)
Definition finish (i : Impl) (th : LogThread) : outcome (Impl * LogThread) :=
  let th := if negb (suffix_basename th =? basename_ i) || negb (suffix_line th =? line_ i)
            then mkLogThread (t_cachedTid th) (t_tidString th) (t_lastSecond th) (t_time th) (base_file th) (base_name th)
                   (basename_ i) (line_ i) (make_suffix (basename_ i) (line_ i))
            else th in
  let! s := append (suffix th) (stream_ i) in
  Ok (mkImpl (time_ i) s (level_ i) (line_ i) (basename_ i), th).

(** What a logger leaves: the bytes given to [g_output], and whether the
    program then aborts. *)
(* src/muduo/base/Logging.cc:279-288 Logger::~Logger *)
Definition destroyLogger (i : Impl) (th : LogThread) : outcome (bytes * bool * LogThread) :=
  let! (i, th) := finish i th in
  Ok (toStringView (stream_ i), match level_ i with FATAL => true | _ => false end, th).

(** A logger's life: constructed, a message put into its stream, destroyed. The
    legacy constructors pass the base name that their [SourceFile] found. *)
(* src/muduo/base/Logging.cc:262-276 Logger::Logger(SourceFile, int, ...) *)
Definition source_line (tz : TimeZone (zone := zone)) (gettid micros : Z) (level : LogLevel) (savedErrno : Z) (func : bytes)
    (base line : Z) (message : list item) (th : LogThread) : outcome (bytes * bool * LogThread) :=
  let! (i, th) := newImpl tz gettid micros level savedErrno func base line th in
  let! s := foldM (put general12) message (stream_ i) in
  destroyLogger (mkImpl (time_ i) s (level_ i) (line_ i) (basename_ i)) th.

(** The delegating constructor of [Impl] looks the base name up first. *)
(* src/muduo/base/Logging.cc:257-259 Logger::Logger *)
Definition log_line (tz : TimeZone (zone := zone)) (gettid micros : Z) (level : LogLevel) (savedErrno : Z) (func : bytes)
    (file line : Z) (message : list item) (th : LogThread) : outcome (bytes * bool * LogThread) :=
  let '(base, th) := cachedBasename file th in
  source_line tz gettid micros level savedErrno func base line message th.

(** ** Which lines are made *)

(** What the front ends take: the threshold [g_logLevel], and a line's
    arguments. A line not made is [None]. *)
(* src/muduo/base/Logging.h:151-153 shouldLog *)
Definition shouldLog (g_logLevel level : LogLevel) : bool :=
  (level_num WARN <=? level_num level) || (level_num g_logLevel <=? level_num level).

Definition made (r : outcome (bytes * bool * LogThread)) : outcome (option (bytes * bool) * LogThread) :=
  let! (out, abort, th) := r in Ok (Some (out, abort), th).

(** [LogLine] and its [operator<<]. *)
(* src/muduo/base/Logging.h:155-184 LogLine *)
Definition LogLine (g_logLevel : LogLevel) (tz : TimeZone (zone := zone)) (gettid micros : Z) (level : LogLevel)
    (savedErrno : Z) (func : bytes) (file line : Z) (message : list item) (th : LogThread) :
    outcome (option (bytes * bool) * LogThread) :=
  if shouldLog g_logLevel level then made (log_line tz gettid micros level savedErrno func file line message th)
  else Ok (None, th).

(** What a caller of [logFmt] sees: the line given to the output, and how the
    call ends after it. *)
Inductive logfmt_end : Set := Returned | Aborted | Dangling.

(** [auto &stream = Logger(...).stream();] binds a reference into a temporary
    that is destroyed at the end of that declaration: the line goes out, and a
    fatal one aborts, before the message is put into what is no longer a
    stream. The message therefore is not an argument here. *)
(* src/muduo/base/Logging.h:124-149 logFmt, logFmtErr *)
Definition logFmt (g_logLevel : LogLevel) (tz : TimeZone (zone := zone)) (gettid micros : Z) (level : LogLevel)
    (savedErrno : Z) (file line : Z) (th : LogThread) : outcome (option bytes * logfmt_end * LogThread) :=
  if level_num g_logLevel <=? level_num level then
    let! (out, abort, th) := log_line tz gettid micros level savedErrno [] file line [] th in
    Ok (Some out, (if (abort : bool) then Aborted else Dangling), th)
  else Ok (None, Returned, th).

(* src/muduo/base/Logging.h:280-287 CheckNotNull *)
Definition CheckNotNull (tz : TimeZone (zone := zone)) (gettid micros : Z) (file line : Z) (names : bytes) (ptr : Z)
    (th : LogThread) : outcome (option (bytes * bool) * LogThread) :=
  if ptr =? 0 then made (log_line tz gettid micros FATAL 0 [] file line [ICString (Some names)] th) else Ok (None, th).

(** ** What a line says *)

Lemma size_t_small v : 0 ≤ v < 100 → size_t v = v.
Proof using Type. intros. apply wrap_small. lia. Qed.

Lemma two_digits v : 0 ≤ v < 100 → write2Digits v = Ok (format_pad 2 v).
Proof using Type.
  intros Hv. unfold write2Digits. rewrite size_t_small, (proj2 (Z.ltb_lt _ _)) by lia. f_equal.
  assert (forallb (λ v, bool_decide ([digit (v / 10); digit (v mod 10)] = format_pad 2 v)) (seqZ 0 100) = true) as H
    by (by vm_compute).
  rewrite forallb_forall in H. apply (bool_decide_eq_true _), H. apply list_elem_of_In, elem_of_seqZ. lia.
Qed.

Definition clamp_year (y : Z) : Z := Z.max 0 (Z.min y 9999).

Lemma four_digits y : write4Digits y = Ok (format_pad 2 (clamp_year y / 100) ++ format_pad 2 (clamp_year y mod 100)).
Proof using Type.
  unfold write4Digits. set (v := if y <? 0 then 0 else if 9999 <? y then 9999 else y).
  assert (v = clamp_year y) as ->.
  { unfold v, clamp_year. destruct (Z.ltb_spec y 0), (Z.ltb_spec 9999 y); lia. }
  assert (0 ≤ clamp_year y ≤ 9999) as Hy by (unfold clamp_year; lia).
  cbv zeta. rewrite Z.quot_div_nonneg, Z.rem_mod_nonneg by lia.
  pose proof (Z.mod_pos_bound (clamp_year y) 100 ltac:(lia)).
  assert (0 ≤ clamp_year y / 100 < 100) by (split; [apply Z.div_pos; lia|apply Z.div_lt_upper_bound; lia]).
  rewrite !two_digits by lia. done.
Qed.

(** The zone's broken-down time of an instant. *)
Definition local_datetime (tz : TimeZone (zone := zone)) (t : Z) : DateTime :=
  breakTime (match tz with
             | Some (Fixed east) => t + east
             | Some (Zone z) => t + sys_offset z t
             | None => t
             end).

(** [%Y%m%d %H:%M:%S], with the year in four digits. *)
Definition date_text (dt : DateTime) : bytes :=
  format_pad 2 (clamp_year (year dt) / 100) ++ format_pad 2 (clamp_year (year dt) mod 100) ++
  format_pad 2 (month dt) ++ format_pad 2 (day dt) ++ str " " ++
  format_pad 2 (hour dt) ++ str ":" ++ format_pad 2 (minute dt) ++ str ":" ++ format_pad 2 (second dt).

Definition micro_text (tz : TimeZone (zone := zone)) (us : Z) : bytes :=
  str "." ++ format_pad 2 (us / 10000) ++ format_pad 2 (us / 100 mod 100) ++ format_pad 2 (us mod 100) ++
  if valid tz then str " " else str "Z ".

Definition in_range (tz : TimeZone (zone := zone)) (t : Z) : Prop :=
  chrono_seconds (match tz with Some (Fixed east) => t + east | Some (Zone z) => t + sys_offset z t | None => t end).

Lemma time_text tz t : in_range tz t → time_digits tz t = Ok (date_text (local_datetime tz t)).
Proof using Type.
  intros Ht. assert (datetime_ok (local_datetime tz t)) as (Hymd & Hh & Hm & Hs).
  { unfold in_range in Ht. unfold local_datetime. by apply (break_ok (λ _ _ _, 0)). }
  unfold time_digits.
  assert ((if valid tz then match toLocalTime sys_offset tz t with inl r => Ok (fst r) | inr RuntimeError => Fault Terminated end
           else Ok (toUtcTime t)) = Ok (local_datetime tz t)) as -> by (by destruct tz as [[]|]).
  cbn [obind]. rewrite four_digits. cbn [obind].
  unfold ymd_ok in Hymd. repeat (apply andb_true_iff in Hymd as [Hymd ?]).
  repeat match goal with H : (_ <=? _) = true |- _ => apply Z.leb_le in H end.
  assert (month_length (year (local_datetime tz t)) (month (local_datetime tz t)) ≤ 31) as Hml
    by (unfold month_length; repeat case_match; lia).
  rewrite !two_digits by lia. cbn [obind]. unfold date_text. by rewrite <- app_assoc.
Qed.

Lemma micro_ok tz us : 0 ≤ us < 1000000 → micro_digits tz us = Ok (micro_text tz us).
Proof using Type.
  intros Hu. unfold micro_digits. rewrite !Z.quot_div_nonneg, !Z.rem_mod_nonneg by (try apply Z.div_pos; lia).
  pose proof (Z.mod_pos_bound us 100 ltac:(lia)). pose proof (Z.mod_pos_bound (us / 100) 100 ltac:(lia)).
  assert (0 ≤ us / 10000 < 100) by (split; [apply Z.div_pos; lia|apply Z.div_lt_upper_bound; lia]).
  by rewrite !two_digits by lia.
Qed.

(** *** The caches *)

Hypothesis cstr_tail : ∀ p k, (k ≤ length (cstr p))%nat → cstr (p + Z.of_nat k) = drop k (cstr p).
Hypothesis unknown_ok : 0 < unknown ∧ cstr unknown = str "unknown".

Lemma base_offset_spec s i acc :
  (base_offset s i acc = acc ∧ Byte.x2f ∉ s) ∨
  ∃ j, base_offset s i acc = (i + S j)%nat ∧ (j < length s)%nat ∧ Byte.x2f ∉ drop (S j) s.
Proof using Type.
  clear cstr_tail unknown_ok. revert i acc. induction s as [|b s IH]; intros i acc; cbn [base_offset].
  { left. split; [done|apply not_elem_of_nil]. }
  destruct (IH (S i) (if bool_decide (b = Byte.x2f) then S i else acc)) as [[E Hn]|(j & E & Hj & Hn)].
  - rewrite E. case_bool_decide as Hb.
    + right. exists 0%nat. split; [lia|]. split; [cbn; lia|]. cbn. by rewrite drop_0.
    + left. split; [done|]. rewrite not_elem_of_cons. split; [congruence|done].
  - right. exists (S j). split; [rewrite E; lia|]. split; [cbn; lia|]. done.
Qed.

Lemma base_offset_ok s :
  (base_offset s 0 0 ≤ length s)%nat ∧ Byte.x2f ∉ drop (base_offset s 0 0) s.
Proof using Type.
  clear cstr_tail unknown_ok. destruct (base_offset_spec s 0 0) as [[-> Hn]|(j & -> & Hj & Hn)].
  - split; [lia|by rewrite drop_0].
  - split; [lia|exact Hn].
Qed.

Lemma base_offset_none s : Byte.x2f ∉ s → base_offset s 0 0 = 0%nat.
Proof using Type.
  clear cstr_tail unknown_ok. intros Hn. destruct (base_offset_spec s 0 0) as [[-> _]|(j & _ & Hj & _)]; [done|].
  enough (∀ i, base_offset s i 0 = 0%nat) as H by apply H. clear Hj j. induction s as [|b s IH]; intros i; [done|].
  rewrite not_elem_of_cons in Hn. destruct Hn as [Hb Hn]. cbn. rewrite bool_decide_false by congruence. by apply IH.
Qed.

Definition base_of (file : Z) : Z := file + Z.of_nat (base_offset (cstr file) 0 0).

(** The file's name without its directories. *)
Definition file_name (file : Z) : bytes :=
  if file =? 0 then str "unknown" else drop (base_offset (cstr file) 0 0) (cstr file).

Definition tid_text (g : Z) : bytes := replicate (5 - length (format_int g)) Byte.x20 ++ format_int g ++ [Byte.x20].

(** A thread's caches hold what they should for the zone in use. *)
Record cache_ok (tz : TimeZone (zone := zone)) (g : Z) (th : LogThread) : Prop := mkCacheOk {
  co_tid : t_cachedTid th = 0 ∨ t_tidString th = tid_text g;
  co_time : t_lastSecond th = 0 ∨ t_time th = date_text (local_datetime tz (t_lastSecond th));
  co_base : base_name th = 0 ∨ base_name th = base_of (base_file th);
  co_suffix : suffix_basename th = 0 ∨ suffix th = make_suffix (suffix_basename th) (suffix_line th)
}.

Lemma base_once file : 0 ≤ file → let b := if file =? 0 then unknown else base_of file in
  0 < b ∧ cstr b = file_name file ∧ base_of b = b.
Proof using cstr_tail unknown_ok.
  intros Hf. destruct unknown_ok as [Hu Hus]. unfold file_name, base_of. destruct (Z.eqb_spec file 0) as [->|Hne].
  - split; [done|]. split; [done|]. rewrite Hus. change (base_offset (str "unknown") 0 0) with 0%nat. lia.
  - destruct (base_offset_ok (cstr file)) as [Hle Hn]. split; [lia|]. rewrite cstr_tail by done. split; [done|].
    rewrite (base_offset_none (drop _ _)) by done. lia.
Qed.

Lemma cached_base tz g file th :
  0 ≤ file → cache_ok tz g th →
  ∃ th', cachedBasename file th = ((if file =? 0 then unknown else base_of file), th') ∧ cache_ok tz g th'.
Proof using Type.
  clear cstr_tail unknown_ok. intros Hf [H1 H2 H3 H4]. unfold cachedBasename. destruct (Z.eqb_spec file 0); [by exists th|].
  destruct (Z.eqb_spec file (base_file th)) as [->|Hne]; cbn [andb].
  - destruct (Z.eqb_spec (base_name th) 0) as [E|E]; cbn [negb].
    + eexists. split; [done|]. split; try done. by right.
    + exists th. split; [|done]. destruct H3; [done|]. by f_equal.
  - eexists. split; [done|]. split; try done. by right.
Qed.

Lemma cached_time_ok tz g seconds th :
  seconds ≠ 0 → in_range tz seconds → cache_ok tz g th →
  ∃ th', cached_time tz seconds th = Ok th' ∧ cache_ok tz g th' ∧ t_time th' = date_text (local_datetime tz seconds).
Proof using Type.
  clear cstr_tail unknown_ok. intros Hs Hr [H1 H2 H3 H4]. unfold cached_time. destruct (Z.eqb_spec seconds (t_lastSecond th)) as [->|Hne]; cbn [negb].
  - exists th. destruct H2 as [?|H2]; [done|]. split; [done|]. split; [|done]. split; try done. by right.
  - rewrite time_text by done. cbn [obind]. eexists. split; [done|]. split; [|done]. split; try done. by right.
Qed.

Lemma tid_ok tz g th :
  0 < g < 2 ^ 31 → cache_ok tz g th → cache_ok tz g (tid g th) ∧ t_tidString (tid g th) = tid_text g ∧ t_time (tid g th) = t_time th.
Proof using Type.
  clear cstr_tail unknown_ok. intros Hg [H1 H2 H3 H4]. unfold tid, cacheTid. destruct (Z.eqb_spec (t_cachedTid th) 0) as [E|E].
  2: { destruct H1; [done|]. split; [|done]. split; try done. by right. }
  assert (length (format_int g) ≤ 10)%nat as Hl.
  { unfold format_int. destruct (Z.ltb_spec g 0); [lia|]. apply format_nat_length; [lia|]. cbn. lia. }
  assert (1 ≤ length (format_int g))%nat as Hl1.
  { unfold format_int. destruct (Z.ltb_spec g 0); [lia|]. unfold format_nat. cbn [dec_fuel].
    destruct (g <? 10); [cbn; lia|]. rewrite dec_fuel_acc, length_app. cbn. lia. }
  assert ((let s := replicate (Z.to_nat (Z.min (Z.max 0 (5 - len (format_int g))) 31)) Byte.x20 ++
      take (Z.to_nat (Z.min (len (format_int g)) (31 - Z.min (Z.max 0 (5 - len (format_int g))) 31 - 1))) (format_int g) in
    if len s <? 31 then s ++ [Byte.x20] else s) = tid_text g) as Ht.
  { unfold len. rewrite (take_ge (format_int g)) by lia.
    replace (Z.to_nat (Z.min (Z.max 0 (5 - Z.of_nat (length (format_int g)))) 31)) with (5 - length (format_int g))%nat by lia.
    cbv zeta. rewrite length_app, length_replicate. rewrite (proj2 (Z.ltb_lt _ _)) by lia. unfold tid_text. by rewrite <- app_assoc. }
  cbv zeta in Ht. cbn [t_tidString t_time]. split; [|split; [exact Ht|done]]. split; try done. right. exact Ht.
Qed.

(** In the child of a fork, the caches are right for the child's thread. *)
Lemma fork_ok tz g g' th : 0 < g' < 2 ^ 31 → cache_ok tz g th → cache_ok tz g' (afterFork g' th).
Proof using Type.
  clear cstr_tail unknown_ok. intros Hg [H1 H2 H3 H4]. unfold afterFork. set (th0 := mkLogThread _ _ _ _ _ _ _ _ _).
  assert (cache_ok tz g' th0) as H0 by (by split; [left|..]). by apply (tid_ok tz g' th0 Hg) in H0 as [? _].
Qed.

Lemma suffix_ok tz g i th :
  0 < basename_ i → cache_ok tz g th →
  ∃ th', cache_ok tz g th' ∧ finish i th =
    (let! s := append (suffix_of (cstr (basename_ i)) (line_ i)) (stream_ i) in
     Ok (mkImpl (time_ i) s (level_ i) (line_ i) (basename_ i), th')).
Proof using Type.
  clear cstr_tail unknown_ok. intros Hb [H1 H2 H3 H4]. unfold finish.
  assert (make_suffix (basename_ i) (line_ i) = suffix_of (cstr (basename_ i)) (line_ i)) as Hm.
  { unfold make_suffix. destruct (Z.eqb_spec (basename_ i) 0); [lia|done]. }
  destruct (Z.eqb_spec (suffix_basename th) (basename_ i)) as [E1|E1]; cbn [negb orb].
  - destruct (Z.eqb_spec (suffix_line th) (line_ i)) as [E2|E2]; cbn [negb].
    + exists th. split; [done|]. destruct H4 as [H4|H4]; [lia|]. by rewrite H4, E1, E2, Hm.
    + eexists. split; [|cbn; rewrite Hm; done]. split; try done. by right.
  - eexists. split; [|cbn; rewrite Hm; done]. split; try done. by right.
Qed.

(** The text of a line's beginning. *)
Definition line_prefix (tz : TimeZone (zone := zone)) (g micros : Z) (level : bytes) (savedErrno : Z) (func : bytes) : list item :=
  prefix_items savedErrno func (date_text (local_datetime tz (micros / 1000000))) (micro_text tz (micros mod 1000000))
    (tid_text g) level.

Lemma new_stream_ok : fixed_ok newLogStream ∧ room newLogStream = kSmallBuffer ∧ toStringView newLogStream = [].
Proof using Type. clear. split; [|by vm_compute]. split; [by apply Z.ltb_lt; vm_compute|]. split; apply Z.leb_le; by vm_compute. Qed.

Lemma prefix_ok savedErrno func date micros tids levels :
  in_signed 32 savedErrno → Forall (item_ok general12) (prefix_items savedErrno func date micros tids levels).
Proof using Type.
  clear cstr_tail unknown_ok. intros He. unfold in_signed in He. change (2 ^ (32 - 1)) with 2147483648 in He.
  unfold prefix_items. rewrite !Forall_app. split; [repeat constructor|]. split.
  - destruct func; repeat constructor.
  - destruct (savedErrno =? 0); [done|]. repeat constructor; cbn; lia.
Qed.

(** A line, from the constructor to the destructor. *)
Lemma source_made tz g micros level lvl savedErrno func base line message th :
  cache_ok tz g th → 0 < g < 2 ^ 31 → 1000000 ≤ micros → in_range tz (micros / 1000000) →
  kLogLevelName !! Z.to_nat (level_num level) = Some lvl → in_signed 32 savedErrno → 0 < base → base_of base = base →
  Forall (item_ok general12) message →
  let parts := line_prefix tz g micros lvl savedErrno func ++ message ++ [IString (suffix_of (cstr base) line)] in
  ensures (source_line tz g micros level savedErrno func base line message th) (λ '(out, abort, th'),
    cache_ok tz g th' ∧ (abort = true ↔ level = FATAL) ∧
    out = kept_all general12 kSmallBuffer parts ∧
    (len (mjoin (text general12 <$> parts)) + kMaxNumericSize ≤ kSmallBuffer →
       out = mjoin (text general12 <$> parts))).
Proof using cstr_tail unknown_ok.
  intros Hc Hg Hm Hr Hl He Hb0 Hbb Hmsg parts.
  destruct new_stream_ok as (Hs0 & Hr0 & Hv0).
  assert (Forall (item_ok general12) parts) as Hok.
  { unfold parts. rewrite !Forall_app. split; [by apply prefix_ok|]. split; [done|]. by constructor. }
  destruct (ensures_ok _ _ (stream_puts general12 parts newLogStream Hs0 Hok)) as (b & Hb & _ & _ & Hview & Hfull).
  rewrite Hr0, Hv0, app_nil_l in Hview, Hfull.
  unfold parts in Hb. rewrite foldM_app in Hb. apply ok_bind_inv in Hb as (b1 & Hb1 & Hb).
  rewrite foldM_app in Hb. apply ok_bind_inv in Hb as (b2 & Hb2 & Hb3). apply ok_bind_inv in Hb3 as (b3 & Hb3 & [= ->]).
  destruct (cached_base tz g base th ltac:(lia) Hc) as (th2 & E2 & Hc2).
  rewrite (proj2 (Z.eqb_neq base 0)), Hbb in E2 by lia.
  unfold source_line, newImpl. rewrite E2. rewrite Z.quot_div_nonneg, Z.rem_mod_nonneg by lia.
  assert (1 ≤ micros / 1000000) by (apply Z.div_le_lower_bound; lia).
  destruct (cached_time_ok tz g (micros / 1000000) th2 ltac:(lia) Hr Hc2) as (th3 & -> & Hc3 & Ht3). cbn [obind].
  rewrite micro_ok by (apply Z.mod_pos_bound; lia). cbn [obind].
  destruct (tid_ok tz g th3 Hg Hc3) as (Hc4 & Hid & Ht4). rewrite Hl. cbn [obind]. rewrite Hid, Ht4, Ht3.
  unfold line_prefix in Hb1. rewrite Hb1. cbn [obind stream_]. rewrite Hb2. cbn [obind time_ level_ line_ basename_].
  unfold destroyLogger.
  destruct (suffix_ok tz g (mkImpl micros b2 level line base) (tid g th3) Hb0 Hc4) as (th5 & Hc5 & ->).
  cbn [basename_ line_ stream_ time_ level_]. cbn in Hb3. unfold put_string in Hb3. rewrite Hb3. cbn [obind ensures stream_ level_].
  split; [done|]. split; [by destruct level|]. split; [done|exact Hfull].
Qed.

Lemma line_made tz g micros level lvl savedErrno func file line message th :
  cache_ok tz g th → 0 < g < 2 ^ 31 → 1000000 ≤ micros → in_range tz (micros / 1000000) →
  kLogLevelName !! Z.to_nat (level_num level) = Some lvl → in_signed 32 savedErrno → 0 ≤ file →
  Forall (item_ok general12) message →
  let parts := line_prefix tz g micros lvl savedErrno func ++ message ++ [IString (suffix_of (file_name file) line)] in
  ensures (log_line tz g micros level savedErrno func file line message th) (λ '(out, abort, th'),
    cache_ok tz g th' ∧ (abort = true ↔ level = FATAL) ∧
    out = kept_all general12 kSmallBuffer parts ∧
    (len (mjoin (text general12 <$> parts)) + kMaxNumericSize ≤ kSmallBuffer →
       out = mjoin (text general12 <$> parts))).
Proof using cstr_tail unknown_ok.
  intros Hc Hg Hm Hr Hl He Hf Hmsg. pose proof (base_once file Hf) as (Hb0 & Hbn & Hbb).
  destruct (cached_base tz g file th Hf Hc) as (th1 & E1 & Hc1).
  unfold log_line. rewrite E1, <- Hbn. by apply source_made.
Qed.


(** [logFmt] never writes the message it is given: every line it makes is the
    prefix and the suffix, and its caller then aborts or writes into a
    destroyed stream. *)
Lemma logfmt_loses_message g_logLevel tz g micros level lvl savedErrno file line th :
  cache_ok tz g th → 0 < g < 2 ^ 31 → 1000000 ≤ micros → in_range tz (micros / 1000000) →
  kLogLevelName !! Z.to_nat (level_num level) = Some lvl → in_signed 32 savedErrno → 0 ≤ file →
  level_num g_logLevel ≤ level_num level →
  ensures (logFmt g_logLevel tz g micros level savedErrno file line th) (λ '(out, e, _),
    out = Some (kept_all general12 kSmallBuffer
                  (line_prefix tz g micros lvl savedErrno [] ++ [IString (suffix_of (file_name file) line)])) ∧
    e = match level with FATAL => Aborted | _ => Dangling end).
Proof using cstr_tail unknown_ok.
  intros Hc Hg Hm Hr Hl He Hf Hlv. unfold logFmt. rewrite (proj2 (Z.leb_le _ _) Hlv).
  eapply ensures_bind; [by apply (line_made tz g micros level lvl savedErrno [] file line [] th)|].
  intros [[out abort] th'] (_ & Ha & Ho & _). cbn [ensures app] in *. split; [by rewrite Ho|].
  destruct abort; destruct level; try done; destruct Ha as [Ha1 Ha2]; try (by specialize (Ha1 eq_refl)); by specialize (Ha2 eq_refl).
Qed.
End Logging.

(** A program in one file, [src/a.cc], and its static memory. *)
Module Sample.
Definition cstr (p : Z) : bytes :=
  if 500 <=? p then drop (Z.to_nat (p - 500)) (str "unknown")
  else if 100 <=? p then drop (Z.to_nat (p - 100)) (str "src/a.cc") else [].

Lemma cstr_tail p k : (k ≤ length (cstr p))%nat → cstr (p + Z.of_nat k) = drop k (cstr p).
Proof.
  unfold cstr. intros Hk. destruct (Z.leb_spec 500 p), (Z.leb_spec 500 (p + Z.of_nat k)); try lia.
  - rewrite drop_drop. f_equal. lia.
  - destruct (Z.leb_spec 100 p); cbn in Hk; [rewrite length_drop in Hk; cbn in Hk; lia|lia].
  - destruct (Z.leb_spec 100 p), (Z.leb_spec 100 (p + Z.of_nat k)); try (cbn in Hk; lia).
    + rewrite drop_drop. f_equal. lia.
    + by destruct k.
Qed.

Definition line (tz : TimeZone (zone := unit)) (micros : Z) (level : LogLevel) (n : Z) (message : list item) (th : LogThread) :=
  log_line cstr 500 (λ _, None) (λ (_ : unit) _, 0) (λ _ : unit, []) tz 42 micros level 0 [] 100 n message th.
End Sample.


(** *** Uses that surprise *)

(** The output and the caches of a line. *)
Definition line_out (m : outcome (bytes * bool * LogThread)) : bytes := match m with Ok (out, _, _) => out | Fault _ => [] end.
Definition line_thread (m : outcome (bytes * bool * LogThread)) : LogThread := match m with Ok (_, _, th) => th | Fault _ => new_thread end.

(** The cached time does not know its zone: after [setTimeZone] the lines of
    the same second still have the other zone's time. *)
Lemma time_zone_stale :
  let th := line_thread (Sample.line UTC 1700000000000000 INFO 1 [] new_thread) in
  line_out (Sample.line China 1700000000000001 INFO 1 [] th) =
    str "20231114 22:13:20.000001    42 INFO   - a.cc:1" ++ [Byte.x0a] ∧
  line_out (Sample.line China 1700000000000001 INFO 1 [] new_thread) =
    str "20231115 06:13:20.000001    42 INFO   - a.cc:1" ++ [Byte.x0a].
Proof. split; by vm_compute. Qed.

(** With a threshold above [WARN] the two front ends differ: a [LogLine] of
    level [WARN] is made, [logFmt] of the same level makes none. *)
Lemma thresholds_differ : shouldLog FATAL WARN = true ∧ (level_num FATAL <=? level_num WARN) = false.
Proof. done. Qed.

(** A file name of 253 bytes or more fills the suffix's array, and the line
    loses its number and its line feed. *)
Lemma suffix_without_newline name line :
  253 ≤ len name → suffix_of name line = str " - " ++ take 253 name.
Proof.
  intros Hn. unfold suffix_of. change (take (Z.to_nat (256 - len [])) (str " - ")) with (str " - "). cbn [app].
  change (Z.to_nat (256 - len (str " - "))) with 253%nat.
  assert (len (str " - " ++ take 253 name) = 256) as Hl.
  { rewrite len_app. unfold len in *. rewrite length_take. change (length (str " - ")) with 3%nat. lia. }
  rewrite Hl. change (take (Z.to_nat (256 - 256)) (str ":")) with (@nil byte). rewrite app_nil_r, Hl.
  change (take (Z.to_nat (256 - 256)) (str "?")) with (@nil byte). rewrite Z.ltb_irrefl. cbn [andb].
  rewrite app_nil_r, Hl. by rewrite app_nil_r.
Qed.
