(* ===== verification/LogFront.v ===== *)
(** * LogFront: the ways into the log ([muduo/base/Logging.h], [Logging.cc])

    The global settings, the legacy loggers with their [SourceFile], and the
    front ends: functions that give a stream, functions that take a format,
    and macros. The lemmas say which of them come to the same line. *)
From S2P Require Import Prelude Format Calendar TimeZone LogStream Logging Glue.
From stdpp Require Import options.

(** ** Digits *)

(* src/muduo/base/Logging.cc:24-33 makeDigitPairs, kDigitPairs *)
Definition kDigitPairs : list bytes := (λ i, [byte_of (48 + i / 10); byte_of (48 + i mod 10)]) <$> seqZ 0 100.

(** [write2Digits] reads the table. *)
Lemma write2Digits_table v :
  0 ≤ v < 2 ^ 64 → write2Digits v = match kDigitPairs !! Z.to_nat v with Some p => Ok p | None => Fault Terminated end.
Proof.
  intros Hv. unfold write2Digits, kDigitPairs. rewrite wrap_small by lia. rewrite list_lookup_fmap.
  destruct (Z.ltb_spec v 100).
  - by rewrite lookup_seqZ_lt by lia; rewrite Z2Nat.id by lia.
  - by rewrite lookup_seqZ_ge by lia.
Qed.

(** ** Settings *)

Section Settings.
Context {zone : Type} (cpp23_print : bool) (stdout : Z).

(** What output and flushing do: writes to streams, and flushes ([None]). *)
Definition log_effect : Type := option (Z * bytes).

(* src/muduo/base/Logging.cc:110-118 g_output, g_flush, g_logTimeZone, g_logLevel *)
Record LogSettings := mkSettings {
  g_output : bytes → list log_effect;
  g_flush : list log_effect;
  g_logTimeZone : TimeZone (zone := zone);
  g_logLevel : LogLevel
}.

(** The length that is passed is that of the text. *)
(* src/muduo/base/Logging.cc:104-106 defaultOutput *)
Definition defaultOutput (msg : bytes) : list log_effect := Some <$> Glue.print cpp23_print stdout msg.
(* src/muduo/base/Logging.cc:108-108 defaultFlush *)
Definition defaultFlush : list log_effect := [None].

Definition newSettings (getenv : bytes → option bytes) (UTC : TimeZone (zone := zone)) : LogSettings :=
  mkSettings defaultOutput defaultFlush UTC (initLogLevel getenv).

(* src/muduo/base/Logging.cc:290-290 Logger::logLevel *)
Definition logLevel (s : LogSettings) : LogLevel := g_logLevel s.
(* src/muduo/base/Logging.cc:292-292 Logger::setLogLevel *)
Definition setLogLevel (level : LogLevel) (s : LogSettings) := mkSettings (g_output s) (g_flush s) (g_logTimeZone s) level.
(* src/muduo/base/Logging.cc:294-294 Logger::setOutput *)
Definition setOutput (out : bytes → list log_effect) (s : LogSettings) := mkSettings out (g_flush s) (g_logTimeZone s) (g_logLevel s).
(* src/muduo/base/Logging.cc:296-296 Logger::setFlush *)
Definition setFlush (flush : list log_effect) (s : LogSettings) := mkSettings (g_output s) flush (g_logTimeZone s) (g_logLevel s).
(* src/muduo/base/Logging.cc:298-298 Logger::setTimeZone *)
Definition setTimeZone (tz : TimeZone (zone := zone)) (s : LogSettings) := mkSettings (g_output s) (g_flush s) tz (g_logLevel s).

(** What the destructor of a logger does with its line: a fatal one is flushed
    before the program aborts. *)
Definition emit (s : LogSettings) (line : bytes * bool) : list log_effect :=
  g_output s line.1 ++ if line.2 then g_flush s else [].

(** By default a line is one write to the standard output. *)
Lemma default_emit getenv UTC out abort :
  stdout ≠ 0 → out ≠ [] →
  emit (newSettings getenv UTC) (out, abort) = Some (stdout, out) :: (if abort then [None] else []).
Proof using Type.
  intros Hs Ho. unfold emit. cbn [g_output g_flush newSettings fst snd]. unfold defaultOutput, defaultFlush, Glue.print.
  assert (writeFile stdout out = [(stdout, out)]) as ->; [|by destruct cpp23_print].
  unfold writeFile. rewrite (proj2 (Z.eqb_neq _ _) Hs). destruct (Z.eqb_spec (len out) 0) as [E|]; [|done].
  destruct out; [done|]. unfold len in E. cbn in E. lia.
Qed.
End Settings.

Section Front.
Context (cstr : Z → bytes) (unknown : Z).
Context (strerror_r : Z → option bytes).
Context {zone : Type} (sys_offset : zone → Z → Z).
Context {float : Type} (general12 : float → bytes).
#[local] Abbreviation source_line := (Logging.source_line cstr unknown strerror_r sys_offset general12).
#[local] Abbreviation log_line := (Logging.log_line cstr unknown strerror_r sys_offset general12).
#[local] Abbreviation LogLine := (Logging.LogLine cstr unknown strerror_r sys_offset general12).
#[local] Abbreviation logFmt := (Logging.logFmt cstr unknown strerror_r sys_offset general12).
#[local] Abbreviation item := (LogStream.item (float := float)).

(** ** SourceFile *)

(* src/muduo/base/Logging.h:69-70 Logger::SourceFile *)
Record SourceFile := mkSource { data_ : Z; size_ : Z }.

(** A literal of [n] bytes at [arr]; the last of them is the NUL. *)
(* src/muduo/base/Logging.h:40-50 Logger::SourceFile::SourceFile(const char (&)[N]) *)
Definition source_of_array (arr n : Z) : SourceFile :=
  let full := take (Z.to_nat (n - 1)) (cstr arr) in
  let pos := base_offset full 0 0 in
  if (pos =? 0)%nat then mkSource arr (n - 1)
  else mkSource (arr + Z.of_nat pos) (swrap 32 (size_t (len full - Z.of_nat pos))).

(* src/muduo/base/Logging.h:52-67 Logger::SourceFile::SourceFile(const char * ) *)
Definition source_of_name (filename : Z) : SourceFile :=
  if filename =? 0 then mkSource unknown 7
  else
    let full := cstr filename in
    let pos := base_offset full 0 0 in
    if (pos =? 0)%nat then mkSource filename (swrap 32 (len full))
    else mkSource (filename + Z.of_nat pos) (swrap 32 (size_t (len full - Z.of_nat pos))).

(** ** The legacy loggers *)

Section Lines.
Context (g : LogLevel) (tz : TimeZone (zone := zone)) (gettid micros : Z).

(* src/muduo/base/Logging.cc:262-264 Logger::Logger(SourceFile, int) *)
Definition logger_info (file : SourceFile) (line : Z) (message : list item) :=
  source_line tz gettid micros INFO 0 [] (data_ file) (wrap 32 line) message.
(* src/muduo/base/Logging.cc:266-267 Logger::Logger(SourceFile, int, LogLevel) *)
Definition logger_level (file : SourceFile) (line : Z) (level : LogLevel) (message : list item) :=
  source_line tz gettid micros level 0 [] (data_ file) (wrap 32 line) message.
(* src/muduo/base/Logging.cc:269-272 Logger::Logger(SourceFile, int, LogLevel, const char * ) *)
Definition logger_func (file : SourceFile) (line : Z) (level : LogLevel) (func : option bytes) (message : list item) :=
  source_line tz gettid micros level 0 (default [] func) (data_ file) (wrap 32 line) message.
(* src/muduo/base/Logging.cc:274-276 Logger::Logger(SourceFile, int, bool) *)
Definition logger_abort (file : SourceFile) (line : Z) (toAbort : bool) (errno : Z) (message : list item) :=
  source_line tz gettid micros (if toAbort then FATAL else ERROR) errno [] (data_ file) (wrap 32 line) message.

(* src/muduo/base/Logging.h:290-296 CheckNotNull(SourceFile, int, const char *, T * ) *)
Definition CheckNotNull_source (file : SourceFile) (line : Z) (names : bytes) (ptr : Z) (th : LogThread) :
    outcome (option (bytes * bool) * LogThread) :=
  if ptr =? 0 then made (logger_level file line FATAL [ICString (Some names)] th) else Ok (None, th).
(* src/muduo/base/Logging.h:298-301 CheckNotNull(const char *, int, const char *, T * ) *)
Definition CheckNotNull_name (file line : Z) (names : bytes) (ptr : Z) (th : LogThread) :=
  CheckNotNull_source (source_of_name file) line names ptr th.

(** ** Functions that give a stream *)

Definition front : Type := bytes → Z → Z → list item → LogThread → outcome (option (bytes * bool) * LogThread).

(** The arguments: the function, file and line of the caller, the message. *)
(* src/muduo/base/Logging.h:186-189 logTrace *)
Definition logTrace : front := λ func file line message th, LogLine g tz gettid micros TRACE 0 func file line message th.
(* src/muduo/base/Logging.h:191-194 logDebug *)
Definition logDebug : front := λ func file line message th, LogLine g tz gettid micros DEBUG 0 func file line message th.
(* src/muduo/base/Logging.h:196-199 logInfo *)
Definition logInfo : front := λ func file line message th, LogLine g tz gettid micros INFO 0 [] file line message th.
(* src/muduo/base/Logging.h:201-204 logWarn *)
Definition logWarn : front := λ func file line message th, LogLine g tz gettid micros WARN 0 [] file line message th.
(* src/muduo/base/Logging.h:206-209 logError *)
Definition logError : front := λ func file line message th, LogLine g tz gettid micros ERROR 0 [] file line message th.
(* src/muduo/base/Logging.h:211-214 logFatal *)
Definition logFatal : front := λ func file line message th, LogLine g tz gettid micros FATAL 0 [] file line message th.
(* src/muduo/base/Logging.h:216-219 logSysErr *)
Definition logSysErr (errno : Z) : front :=
  λ func file line message th, LogLine g tz gettid micros ERROR errno [] file line message th.
(* src/muduo/base/Logging.h:221-224 logSysFatal *)
Definition logSysFatal (errno : Z) : front :=
  λ func file line message th, LogLine g tz gettid micros FATAL errno [] file line message th.

(** ** Macros *)

Definition macro (level : LogLevel) (f : front) : front :=
  λ func file line message th, if negb (shouldLog g level) then Ok (None, th) else f func file line message th.
(* src/muduo/base/Logging.h:305-309 LOG_TRACE *)
Definition LOG_TRACE : front := macro TRACE logTrace.
(* src/muduo/base/Logging.h:311-315 LOG_DEBUG *)
Definition LOG_DEBUG : front := macro DEBUG logDebug.
(* src/muduo/base/Logging.h:317-321 LOG_INFO *)
Definition LOG_INFO : front := macro INFO logInfo.
(* src/muduo/base/Logging.h:323-327 LOG_WARN *)
Definition LOG_WARN : front := macro WARN logWarn.
(* src/muduo/base/Logging.h:329-333 LOG_ERROR *)
Definition LOG_ERROR : front := macro ERROR logError.
(* src/muduo/base/Logging.h:335-339 LOG_FATAL *)
Definition LOG_FATAL : front := macro FATAL logFatal.
(* src/muduo/base/Logging.h:341-345 LOG_SYSERR *)
Definition LOG_SYSERR (errno : Z) : front := macro ERROR (logSysErr errno).
(* src/muduo/base/Logging.h:347-351 LOG_SYSFATAL *)
Definition LOG_SYSFATAL (errno : Z) : front := macro FATAL (logSysFatal errno).

(** ** Functions that take a format

    [source_location::current()] stands in their own bodies: [here] is the
    header, the line is the one it stands in. Only those below [WARN] test
    the threshold before [logFmt] does. *)
Context (here : Z).
Definition fmt_front : Type := LogThread → outcome (option bytes * logfmt_end * LogThread).
Definition guarded (level : LogLevel) (f : fmt_front) : fmt_front :=
  λ th, if level_num g <=? level_num level then f th else Ok (None, Returned, th).

(* src/muduo/base/Logging.h:226-232 logTrace(format_string) *)
Definition logTrace_fmt : fmt_front := guarded TRACE (logFmt g tz gettid micros TRACE 0 here 229).
(* src/muduo/base/Logging.h:234-240 logDebug(format_string) *)
Definition logDebug_fmt : fmt_front := guarded DEBUG (logFmt g tz gettid micros DEBUG 0 here 237).
(* src/muduo/base/Logging.h:242-248 logInfo(format_string) *)
Definition logInfo_fmt : fmt_front := guarded INFO (logFmt g tz gettid micros INFO 0 here 245).
(* src/muduo/base/Logging.h:250-254 logWarn(format_string) *)
Definition logWarn_fmt : fmt_front := logFmt g tz gettid micros WARN 0 here 252.
(* src/muduo/base/Logging.h:256-260 logError(format_string) *)
Definition logError_fmt : fmt_front := logFmt g tz gettid micros ERROR 0 here 258.
(* src/muduo/base/Logging.h:262-266 logFatal(format_string) *)
Definition logFatal_fmt : fmt_front := logFmt g tz gettid micros FATAL 0 here 264.
(* src/muduo/base/Logging.h:268-272 logSysErr(format_string) *)
Definition logSysErr_fmt (errno : Z) : fmt_front := logFmt g tz gettid micros ERROR errno here 270.
(* src/muduo/base/Logging.h:274-278 logSysFatal(format_string) *)
Definition logSysFatal_fmt (errno : Z) : fmt_front := logFmt g tz gettid micros FATAL errno here 276.

(** The second test of the threshold finds what the first found. *)
Lemma guarded_same level e n : guarded level (logFmt g tz gettid micros level e here n) = logFmt g tz gettid micros level e here n.
Proof using Type.
  unfold guarded, Logging.logFmt. destruct (level_num g <=? level_num level) eqn:E; done.
Qed.

Lemma macro_same level (f : front) func file line message th e fn :
  f func file line message th = LogLine g tz gettid micros level e fn file line message th →
  macro level f func file line message th = f func file line message th.
Proof using Type.
  intros H. unfold macro. rewrite H. unfold Logging.LogLine. by destruct (shouldLog g level).
Qed.

(** A macro is the function it is named after. *)
Lemma macros_same func file line message th errno :
  LOG_TRACE func file line message th = logTrace func file line message th ∧
  LOG_DEBUG func file line message th = logDebug func file line message th ∧
  LOG_INFO func file line message th = logInfo func file line message th ∧
  LOG_WARN func file line message th = logWarn func file line message th ∧
  LOG_ERROR func file line message th = logError func file line message th ∧
  LOG_FATAL func file line message th = logFatal func file line message th ∧
  LOG_SYSERR errno func file line message th = logSysErr errno func file line message th ∧
  LOG_SYSFATAL errno func file line message th = logSysFatal errno func file line message th.
Proof using Type.
  split_and!;
    [exact (macro_same TRACE logTrace func file line message th 0 func eq_refl)
    |exact (macro_same DEBUG logDebug func file line message th 0 func eq_refl)
    |exact (macro_same INFO logInfo func file line message th 0 [] eq_refl)
    |exact (macro_same WARN logWarn func file line message th 0 [] eq_refl)
    |exact (macro_same ERROR logError func file line message th 0 [] eq_refl)
    |exact (macro_same FATAL logFatal func file line message th 0 [] eq_refl)
    |exact (macro_same ERROR (logSysErr errno) func file line message th errno [] eq_refl)
    |exact (macro_same FATAL (logSysFatal errno) func file line message th errno [] eq_refl)].
Qed.

(** ** The same line *)

Hypothesis cstr_tail : ∀ p k, (k ≤ length (cstr p))%nat → cstr (p + Z.of_nat k) = drop k (cstr p).
Hypothesis unknown_ok : 0 < unknown ∧ cstr unknown = str "unknown".

(** A [SourceFile] points to the name without its directories. *)
Lemma source_name file :
  0 ≤ file → len (cstr file) < 2 ^ 31 →
  0 < data_ (source_of_name file) ∧ cstr (data_ (source_of_name file)) = file_name cstr file ∧
  size_ (source_of_name file) = len (file_name cstr file) ∧
  base_of cstr (data_ (source_of_name file)) = data_ (source_of_name file).
Proof using cstr_tail unknown_ok.
  intros Hf Hl. pose proof (base_once cstr unknown cstr_tail unknown_ok file Hf) as (H1 & H2 & H3).
  unfold source_of_name. unfold file_name, base_of in *.
  destruct (Z.eqb_spec file 0) as [->|Hne]; [by split_and!|].
  destruct (base_offset_ok (cstr file)) as [Hle _].
  destruct (Nat.eqb_spec (base_offset (cstr file) 0 0) 0) as [E|E]; cbn [data_ size_].
  - rewrite E, Z.add_0_r in *. split_and!; try done. rewrite drop_0. apply swrap_id; [lia|].
    pose proof (len_nonneg (cstr file)). unfold in_signed. change (2 ^ (32 - 1)) with (2 ^ 31). lia.
  - split_and!; try done.
    assert (len (drop (base_offset (cstr file) 0 0) (cstr file)) = len (cstr file) - Z.of_nat (base_offset (cstr file) 0 0)) as ->.
    { unfold len. rewrite length_drop. lia. }
    unfold len in *. rewrite wrap_small by lia. apply swrap_id; [lia|]. unfold in_signed. change (2 ^ (32 - 1)) with (2 ^ 31). lia.
Qed.

(** A legacy logger makes the line that the logger of a [source_location] in
    the same place makes. *)
Lemma legacy_line_same level lvl func file line message th th' :
  cache_ok cstr unknown sys_offset tz gettid th → cache_ok cstr unknown sys_offset tz gettid th' →
  0 < gettid < 2 ^ 31 → 1000000 ≤ micros → in_range sys_offset tz (micros / 1000000) →
  kLogLevelName !! Z.to_nat (level_num level) = Some lvl → 0 ≤ file → len (cstr file) < 2 ^ 31 →
  Forall (item_ok general12) message →
  ensures (logger_func (source_of_name file) line level func message th) (λ '(out, abort, _),
    ensures (log_line tz gettid micros level 0 (default [] func) file (wrap 32 line) message th') (λ '(out', abort', _),
      out = out' ∧ abort = abort')).
Proof using cstr_tail unknown_ok.
  intros Hc Hc' Hg Hm Hr Hl Hf Hlen Hmsg. destruct (source_name file Hf Hlen) as (H1 & H2 & _ & H4).
  unfold logger_func. eapply ensures_mono.
  { apply (source_made cstr unknown strerror_r sys_offset general12 cstr_tail unknown_ok tz gettid micros level lvl 0
      (default [] func) (data_ (source_of_name file)) (wrap 32 line) message th); try done. }
  intros [[out abort] t] (_ & Ha & Ho & _). eapply ensures_mono.
  { apply (line_made cstr unknown strerror_r sys_offset general12 cstr_tail unknown_ok tz gettid micros level lvl 0
      (default [] func) file (wrap 32 line) message th'); try done. }
  intros [[out' abort'] t'] (_ & Ha' & Ho' & _). cbn beta in *. rewrite H2 in Ho. split; [congruence|].
  destruct abort, abort'; try done; [symmetry; by apply Ha', Ha|by apply Ha, Ha'].
Qed.
End Lines.
End Front.

(** A format function that logs says it did so in the header. *)
Lemma format_forms_name_header :
  let th := match logInfo_fmt Sample.cstr 500 (λ _, None) (λ (_ : unit) _, 0) (λ _ : unit, []) INFO UTC 42 1700000000123456
                  100 new_thread with Ok (Some out, _, _) => out | _ => [] end in
  th = str "20231114 22:13:20.123456    42 INFO   - a.cc:245" ++ [Byte.x0a].
Proof. by vm_compute. Qed.
