(* ===== verification/FileUtil.v ===== *)
(** * FileUtil: appending to a file and reading a small one
    ([muduo/base/FileUtil.h], [FileUtil.cc])

    The kernel's answers to [::write] are a script: any finite list of answers
    (short counts, interruptions, errors), after which it takes everything it
    is given. [::read] is a function of the position in the file and the count
    asked for. *)
From S2P Require Import Prelude SocketsOps.
From stdpp Require Import options.

(** What the file and the kernel look like to an open [AppendFile]. *)
(* src/muduo/base/FileUtil.h:144-145 AppendFile *)
Record AppendFile := mkAppend { fd_ : Z; writtenBytes_ : Z }.

(** A script of [::write] and the bytes the file has got. *)
Record disk := mkDisk { script_ : list sys_reply; got_ : bytes }.

(* src/muduo/base/FileUtil.cc:53-54 AppendFile::AppendFile *)
Definition openAppend (sys_open : sys_reply) : AppendFile := mkAppend (reply_value sys_open) 0.

(** The descriptors that a destructor closes. *)
(* src/muduo/base/FileUtil.cc:56-60 AppendFile::~AppendFile *)
Definition destroyAppend (f : AppendFile) : list Z := if 0 <=? fd_ f then [fd_ f] else [].

(* src/muduo/base/FileUtil.cc:32-34 writeBytes *)
Definition writeBytes (chunk : bytes) (d : disk) : sys_reply * disk :=
  match script_ d with
  | [] => (Ret (len chunk), mkDisk [] (got_ d ++ chunk))
  | Ret n :: s => (Ret n, mkDisk s (got_ d ++ take (Z.to_nat n) chunk))
  | Err e :: s => (Err e, mkDisk s (got_ d))
  end.

(** The loop; every round uses up one answer of the script, and the round
    after the last one takes the rest. [true]: everything was written. *)
Fixpoint write_loop (fuel : nat) (chunk : bytes) (d : disk) : bool * disk :=
  match chunk with
  | [] => (true, d)
  | _ =>
    match fuel with
    | O => (false, d)
    | S fuel =>
      let '(r, d) := writeBytes chunk d in
      match r with
      | Ret n => if 0 <? n then write_loop fuel (drop (Z.to_nat n) chunk) d else (false, d)
      | Err e => if e =? EINTR then write_loop fuel chunk d else (false, d)
      end
    end
  end.

(* src/muduo/base/FileUtil.cc:62-82 AppendFile::appendBytes *)
Definition appendBytes (bs : bytes) (f : AppendFile) (d : disk) : AppendFile * disk :=
  if (match bs with [] => true | _ => false end) || (fd_ f <? 0) then (f, d) else
  let '(ok, d) := write_loop (S (length (script_ d))) bs d in
  if ok then (mkAppend (fd_ f) (writtenBytes_ f + len bs), d) else (f, d).

(* src/muduo/base/FileUtil.cc:98-100 AppendFile::append *)
Definition file_append (logline : bytes) : AppendFile → disk → AppendFile * disk := appendBytes logline.
(* src/muduo/base/FileUtil.cc:106-108 AppendFile::flush *)
Definition file_flush (f : AppendFile) : AppendFile := f.
(* src/muduo/base/FileUtil.h:138-138 AppendFile::writtenBytes *)
Definition writtenBytes (f : AppendFile) : Z := writtenBytes_ f.

(** An append leaves the descriptor, so the destructor closes the one that
    was opened, and nothing when none was. *)
Lemma append_closes r bs d :
  destroyAppend (file_append bs (openAppend r) d).1 = match r with Ret fd => if 0 <=? fd then [fd] else [] | Err _ => [] end.
Proof.
  unfold file_append, appendBytes, destroyAppend, openAppend. cbn [fd_].
  destruct (_ || _); [by destruct r|]. destruct (write_loop _ bs d) as [[] d']; by destruct r.
Qed.

(** ** Appending *)

(** [::write] returns at most what it was given, and at least one byte of
    something. *)
Definition answer_ok (n : Z) (r : sys_reply) : Prop := match r with Ret k => 0 ≤ k ≤ n | Err _ => True end.

(** An answer the loop gives up at. *)
Definition gives_up (r : sys_reply) : bool :=
  match r with Ret n => n <=? 0 | Err e => negb (e =? EINTR) end.

Lemma write_loop_spec fuel chunk d :
  (length (script_ d) < fuel)%nat →
  ∃ ok d' used, write_loop fuel chunk d = (ok, d') ∧ script_ d = used ++ script_ d' ∧
  (ok = true → got_ d' = got_ d ++ chunk ∧ Forall (λ r, gives_up r = false) used) ∧
  (ok = false → ∃ k r used', used = used' ++ [r] ∧ gives_up r = true ∧ Forall (λ r, gives_up r = false) used' ∧
     got_ d' = got_ d ++ take k chunk).
Proof.
  revert fuel chunk. destruct d as [s g]. cbn [script_ got_]. revert g.
  induction s as [|r s IH]; intros g fuel chunk Hf; destruct fuel as [|fuel]; try (cbn in Hf; lia);
    (destruct chunk as [|b chunk]; [exists true; eexists _, []; cbn; rewrite app_nil_r; split_and!; naive_solver|]);
    cbn [write_loop writeBytes script_ got_].
  - assert (0 <? len (b :: chunk) = true) as -> by (apply Z.ltb_lt; unfold len; cbn; lia).
    rewrite drop_ge by (unfold len; lia). assert (∀ n, write_loop n [] (mkDisk [] (g ++ b :: chunk)) = (true, mkDisk [] (g ++ b :: chunk))) as ->
      by (by intros []).
    exists true, (mkDisk [] (g ++ b :: chunk)), []. split_and!; done.
  - cbn in Hf. destruct r as [n|e].
    + destruct (Z.ltb_spec 0 n) as [Hn|Hn].
      * destruct (IH (g ++ take (Z.to_nat n) (b :: chunk)) fuel (drop (Z.to_nat n) (b :: chunk)) ltac:(lia))
          as (ok & d' & used & E & Hs & Ht & Hff).
        exists ok, d', (Ret n :: used). cbn [script_] in *. rewrite E, Hs. split_and!; [done|done| |].
        -- intros Hok. destruct (Ht Hok) as [H1 H2]. rewrite H1, <- app_assoc, take_drop. split; [done|].
           constructor; [|done]. cbn. by apply Z.leb_gt.
        -- intros Hok. destruct (Hff Hok) as (k & r & used' & -> & H2 & H3 & H4).
           exists (Z.to_nat n + k)%nat, r, (Ret n :: used'). split_and!; [done|done| |].
           ++ constructor; [|done]. cbn. by apply Z.leb_gt.
           ++ by rewrite H4, <- app_assoc, take_take_drop.
      * exists false, (mkDisk s (g ++ take (Z.to_nat n) (b :: chunk))), [Ret n]. split_and!; [done|done|done|]. intros _.
        exists (Z.to_nat n), (Ret n), []. split_and!; [done|by apply Z.leb_le|by constructor|done].
    + destruct (Z.eqb_spec e EINTR) as [->|He].
      * destruct (IH g fuel (b :: chunk) ltac:(lia)) as (ok & d' & used & E & Hs & Ht & Hff).
        exists ok, d', (Err EINTR :: used). cbn [script_] in *. rewrite E, Hs. split_and!; [done|done| |].
        -- intros Hok. destruct (Ht Hok) as [H1 H2]. split; [done|]. by constructor.
        -- intros Hok. destruct (Hff Hok) as (k & r & used' & -> & H2 & H3 & H4).
           exists k, r, (Err EINTR :: used'). split_and!; [done|done| |done]. by constructor.
      * exists false, (mkDisk s g), [Err e]. split_and!; [done|done|done|]. intros _.
        exists 0%nat, (Err e), []. split_and!; [done| |by constructor|by rewrite app_nil_r].
        cbn. by rewrite (proj2 (Z.eqb_neq _ _) He).
Qed.

(** ** Reading *)

(* src/muduo/base/FileUtil.h:43-43 ReadSmallFile::kBufferSize *)
Definition kBufferSize : Z := 64 * 1024.
Definition EISDIR : Z := 21.

(* src/muduo/base/FileUtil.h:64-66 ReadSmallFile *)
Record ReadSmallFile := mkRead { rfd_ : Z; err_ : Z }.

(* src/muduo/base/FileUtil.cc:123-129 ReadSmallFile::ReadSmallFile *)
Definition openRead (sys_open : sys_reply) : ReadSmallFile :=
  let fd := reply_value sys_open in
  mkRead fd (match sys_open with Err e => if fd <? 0 then e else 0 | Ret _ => 0 end).

(* src/muduo/base/FileUtil.cc:139-143 ReadSmallFile::~ReadSmallFile *)
Definition destroyRead (f : ReadSmallFile) : list Z := if 0 <=? rfd_ f then [rfd_ f] else [].

(** [::read] and [::pread]: the bytes, or [errno]. *)
Inductive read_reply := RData (d : bytes) | RErr (errno : Z).

(** [struct stat], as far as it is looked at. *)
Record stat := mkStat { is_reg : bool; is_dir : bool; st_size : Z; st_mtime : Z; st_ctime : Z }.

(** The out-parameters: [None] for one that was not asked for or not set. *)
Record read_file := mkReadFile {
  content : bytes; fileSize : option Z; modifyTime : option Z; createTime : option Z
}.

Section Read.
Context (sys_read : Z → Z → read_reply) (sys_fstat : stat + Z).

(** The loop reads at least a byte a round or stops. *)
Fixpoint read_loop (fuel : nat) (maxSize : Z) (content : bytes) (err : Z) : option (Z * bytes) :=
  if negb (len content <? maxSize) then Some (err, content) else
  match fuel with
  | O => None
  | S fuel =>
      let toRead := Z.min (maxSize - len content) kBufferSize in
      match sys_read (len content) toRead with
      | RData [] => Some (err, content)
      | RData d => read_loop fuel maxSize (content ++ d) err
      | RErr e => Some (e, content)
      end
  end.

(** [fileSize], [modifyTime] and [createTime] say whether the pointers are
    there; [std::string::reserve] refuses sizes of 2^63 and more. *)
(* src/muduo/base/FileUtil.h:150-197 ReadSmallFile::readToString *)
Definition readToString (f : ReadSmallFile) (fuel : nat) (maxSize : Z) (old : option bytes)
    (want_size want_modify want_create : bool) : outcome (option (Z * read_file)) :=
  match old with
  | Some _ =>
    if 0 <=? rfd_ f then
      let! st := (if want_size then
          match sys_fstat with
          | inl s =>
              let! _ := (if is_reg s && (2 ^ 63 <=? size_t (Z.min maxSize (st_size s))) then Fault LengthError else Ok tt) in
              Ok (if is_reg s then err_ f else if is_dir s then EISDIR else err_ f,
                  (if is_reg s then Some (st_size s) else None,
                   (if want_modify then Some (st_mtime s) else None, if want_create then Some (st_ctime s) else None)))
          | inr e => Ok (e, (None, (None, None)))
          end
        else Ok (err_ f, (None, (None, None)))) in
      let '(err, (size, (mt, ct))) := st in
      Ok (match read_loop fuel (size_t maxSize) [] err with
          | Some (err, c) => Some (err, mkReadFile c size mt ct)
          | None => None
          end)
    else Ok (Some (err_ f, mkReadFile [] None None None))
  | None => Ok (Some (err_ f, mkReadFile [] None None None))
  end.

(** Without out-parameters, as all callers inside the library use it. *)
(* src/muduo/base/FileUtil.h:69-75 readFile *)
Definition readFile (sys_open : sys_reply) (fuel : nat) (maxSize : Z) (old : option bytes) : outcome (option (Z * read_file)) :=
  readToString (openRead sys_open) fuel maxSize old false false false.

(* src/muduo/base/FileUtil.cc:145-160 ReadSmallFile::readToBuffer *)
Definition readToBuffer (f : ReadSmallFile) : Z * option Z * option bytes :=
  if 0 <=? rfd_ f then
    match sys_read 0 (kBufferSize - 1) with
    | RData d => (err_ f, Some (swrap 32 (len d)), Some (d ++ [Byte.x00]))
    | RErr e => (e, None, None)
    end
  else (err_ f, None, None).

(** A regular file with contents [file]: a read returns some of the bytes at
    the position, at most as many as asked for, and nothing only at the end. *)
Definition reads (file : bytes) : Prop := ∀ pos count,
  0 ≤ pos → 0 < count → ∃ n, sys_read pos count = RData (slice pos n file) ∧ 0 ≤ n ≤ count ∧
  (n = 0 → len file ≤ pos) ∧ pos + n ≤ Z.max pos (len file).

Lemma read_loop_file file fuel maxSize pos err :
  reads file → 0 ≤ pos ≤ len file → pos ≤ maxSize → maxSize - pos < Z.of_nat fuel →
  read_loop fuel maxSize (slice 0 pos file) err = Some (err, slice 0 maxSize file).
Proof using Type.
  intros Hf. revert pos. induction fuel as [|fuel IH]; intros pos Hpos Hm Hfuel; [lia|]. cbn [read_loop].
  rewrite len_slice by lia. destruct (Z.ltb_spec pos maxSize) as [Hlt|Hge]; cbn [negb].
  - destruct (Hf pos (Z.min (maxSize - pos) kBufferSize)) as (n & -> & Hn & H0 & Hend); [lia|unfold kBufferSize; lia|].
    destruct (Z.eq_dec n 0) as [->|Hne].
    + specialize (H0 eq_refl). rewrite slice_nil. f_equal. f_equal.
      assert (pos = len file) as -> by lia. rewrite slice_full. symmetry. unfold slice. cbn [drop Z.to_nat].
      apply take_ge. unfold len in *. lia.
    + assert (pos + n ≤ len file) as Hle by (destruct (Z.le_gt_cases (len file) pos); lia).
      assert (slice 0 pos file ++ slice pos n file = slice 0 (pos + n) file) as E
        by (rewrite slice_split by lia; done).
      destruct (slice pos n file) as [|b d] eqn:Ed.
      { apply (f_equal len) in Ed. rewrite len_slice in Ed by lia. change (len (@nil Byte.byte)) with 0 in Ed. lia. }
      rewrite E. apply IH; lia.
  - assert (pos = maxSize) as -> by lia. done.
Qed.
End Read.

(** A file that opens is read up to the limit; one that does not gives [open]'s
    [errno] and leaves the string alone. *)
Lemma readFile_spec sys_read sys_fstat sys_open maxSize old :
  0 ≤ maxSize < 2 ^ 31 →
  match sys_open with
  | Ret fd => ∀ file, reads sys_read file → 0 ≤ fd →
      readFile sys_read sys_fstat sys_open (S (Z.to_nat maxSize)) maxSize (Some old) =
      Ok (Some (0, mkReadFile (slice 0 maxSize file) None None None))
  | Err e => readFile sys_read sys_fstat sys_open (S (Z.to_nat maxSize)) maxSize (Some old) =
      Ok (Some (e, mkReadFile [] None None None))
  end.
Proof.
  intros Hm. destruct sys_open as [fd|e]; [|done]. intros file Hf Hfd. unfold readFile, readToString, openRead.
  cbn [rfd_ err_ reply_value obind]. rewrite (proj2 (Z.leb_le _ _) Hfd). cbn [obind].
  assert (2 ^ 31 < 2 ^ 64) by done. rewrite (wrap_small 64 maxSize) by lia. pose proof (len_nonneg file).
  pose proof (read_loop_file sys_read file (S (Z.to_nat maxSize)) maxSize 0 0 Hf) as E. rewrite slice_nil in E.
  by rewrite E by lia.
Qed.

(** Reading a small file gives the file. For a regular file whose reads
    return any number of bytes at a time, [readToString] returns after at most
    [maxSize] rounds without an error and without an exception, and its
    string is the file up to [maxSize]; the size and times are the ones
    [fstat] reports. *)
Theorem read_small_file sys_read st file f maxSize old want_modify want_create :
  reads sys_read file → is_reg st = true → 0 ≤ rfd_ f → err_ f = 0 → 0 ≤ maxSize < 2 ^ 31 → 0 ≤ st_size st →
  readToString sys_read (inl st) f (S (Z.to_nat maxSize)) maxSize (Some old) true want_modify want_create =
  Ok (Some (0, mkReadFile (slice 0 maxSize file) (Some (st_size st))
    (if want_modify then Some (st_mtime st) else None) (if want_create then Some (st_ctime st) else None))).
Proof.
  intros Hf Hreg Hfd Herr Hm Hs. unfold readToString. rewrite (proj2 (Z.leb_le _ _) Hfd), Hreg, Herr.
  assert (2 ^ 31 < 2 ^ 63 ∧ 2 ^ 63 < 2 ^ 64) as [? ?] by done.
  rewrite (wrap_small 64 (Z.min maxSize (st_size st))) by lia.
  destruct (Z.leb_spec (2 ^ 63) (Z.min maxSize (st_size st))); [lia|]. cbn [andb obind].
  rewrite (wrap_small 64 maxSize) by lia. pose proof (len_nonneg file).
  pose proof (read_loop_file sys_read file (S (Z.to_nat maxSize)) maxSize 0 0 Hf) as E. rewrite slice_nil in E.
  rewrite E by lia. done.
Qed.

Definition sample_read (pos count : Z) : read_reply := RData (slice pos (Z.min 2 (Z.min count (Z.max 0 (5 - pos)))) (str "hello")).

Lemma read_small_file_witness :
  readToString sample_read (inl (mkStat true false 5 100 99)) (mkRead 3 0) (S (Z.to_nat 4)) 4 (Some []) true true false =
  Ok (Some (0, mkReadFile (slice 0 4 (str "hello")) (Some 5) (Some 100) None)).
Proof.
  apply (read_small_file sample_read (mkStat true false 5 100 99) (str "hello") (mkRead 3 0) 4 [] true false);
    [|reflexivity|cbn; lia|reflexivity|lia|cbn; lia].
  intros pos count Hp Hc. exists (Z.min 2 (Z.min count (Z.max 0 (5 - pos)))). split; [done|].
  change (len (str "hello")) with 5. lia.
Defined.
