(* ===== verification/LogFile.v ===== *)
(** * LogFile: rolling log files ([muduo/base/LogFile.h], [LogFile.cc])

    Times are counts of nanoseconds of [system_clock]; the clock is a
    parameter, read once per call of [now()]. The state keeps, besides the
    object, what each file object has written: a new [AppendFile] replaces the
    one in [file_], whose file then is complete. A call is one step: it holds
    the mutex, or (in [AsyncLogging]) runs in the only thread that uses the
    object. *)
From S2P Require Import Prelude Format Calendar Date TimeZone SocketsOps FileUtil.
From stdpp Require Import options.

(* src/muduo/base/LogFile.h:57-57 LogFile::kRollPerSeconds_ *)
Definition kRollPerSeconds_ : Z := 60 * 60 * 24.

(** Nanoseconds in a second and in a day. *)
Definition second_ns : Z := 1000000000.
Definition day_ns : Z := kRollPerSeconds_ * second_ns.

(** An [AppendFile] with the name it was opened under and what it wrote. *)
Record log_output := mkOutput { o_name : bytes; o_file : AppendFile; o_disk : disk }.

(* src/muduo/base/LogFile.h:44-55 LogFile *)
Record LogFile := mkLogFile {
  basename_ : bytes;
  rollSize_ : Z;
  flushInterval_ : Z;
  checkEveryN_ : Z;
  count_ : Z;
  startOfPeriod_ : Z;
  lastRoll_ : Z;
  lastFlush_ : Z;
  file_ : option log_output;
  (* the clock and the files completed so far *)
  ticks_ : nat;
  done_ : list log_output
}.

Section LogFile.
Context (clock : nat → Z) (hostname : bytes) (pid : Z).
(** The answers to the n-th [::open] and the script of writes it comes with. *)
Context (sys_open : nat → sys_reply) (sys_script : nat → list sys_reply).

(** [{:%Y%m%d-%H%M%S}] of whole seconds. *)
Definition stamp (seconds : Z) : bytes :=
  let t := breakTime seconds in
  chrono_year (TimeZone.year t) ++ format_pad 2 (TimeZone.month t) ++ format_pad 2 (TimeZone.day t) ++ str "-" ++
  format_pad 2 (hour t) ++ format_pad 2 (minute t) ++ format_pad 2 (second t).

(** The name at a time. *)
(* src/muduo/base/LogFile.cc:94-104 LogFile::getLogFileName *)
Definition getLogFileName (basename : bytes) (now : Z) : bytes :=
  let nowSec := now / second_ns in
  basename ++ str "." ++ stamp nowSec ++ str "." ++ hostname ++ str "." ++ format_int pid ++ str ".log".

(** The clock is read twice; the second reading counts. *)
(* src/muduo/base/LogFile.cc:76-92 LogFile::rollFile *)
Definition rollFile (f : LogFile) : bool * LogFile :=
  let now := clock (S (ticks_ f)) in
  let filename := getLogFileName (basename_ f) now in
  let startTp := now / day_ns * day_ns in
  if lastRoll_ f <? now then
    let i := length (done_ f ++ match file_ f with Some o => [o] | None => [] end) in
    (true, mkLogFile (basename_ f) (rollSize_ f) (flushInterval_ f) (checkEveryN_ f) (count_ f)
       startTp now now (Some (mkOutput filename (openAppend (sys_open i)) (mkDisk (sys_script i) [])))
       (S (S (ticks_ f))) (done_ f ++ match file_ f with Some o => [o] | None => [] end))
  else
    (false, mkLogFile (basename_ f) (rollSize_ f) (flushInterval_ f) (checkEveryN_ f) (count_ f)
       (startOfPeriod_ f) (lastRoll_ f) (lastFlush_ f) (file_ f) (S (S (ticks_ f))) (done_ f)).

(* src/muduo/base/LogFile.cc:14-21 LogFile::LogFile *)
Definition newLogFile (basename : bytes) (rollSize flushInterval checkEveryN : Z) : outcome LogFile :=
  assert! bool_decide (Byte.x2f ∉ basename) ;;
  Ok (rollFile (mkLogFile basename rollSize flushInterval checkEveryN 0 0 0 0 None 0 [])).2.

Definition set_count (n : Z) (f : LogFile) : LogFile :=
  mkLogFile (basename_ f) (rollSize_ f) (flushInterval_ f) (checkEveryN_ f) n (startOfPeriod_ f) (lastRoll_ f)
    (lastFlush_ f) (file_ f) (ticks_ f) (done_ f).
Definition set_output (o : log_output) (f : LogFile) : LogFile :=
  mkLogFile (basename_ f) (rollSize_ f) (flushInterval_ f) (checkEveryN_ f) (count_ f) (startOfPeriod_ f) (lastRoll_ f)
    (lastFlush_ f) (Some o) (ticks_ f) (done_ f).
Definition set_flush (t : Z) (f : LogFile) : LogFile :=
  mkLogFile (basename_ f) (rollSize_ f) (flushInterval_ f) (checkEveryN_ f) (count_ f) (startOfPeriod_ f) (lastRoll_ f)
    t (file_ f) (ticks_ f) (done_ f).
Definition tick (f : LogFile) : LogFile :=
  mkLogFile (basename_ f) (rollSize_ f) (flushInterval_ f) (checkEveryN_ f) (count_ f) (startOfPeriod_ f) (lastRoll_ f)
    (lastFlush_ f) (file_ f) (S (ticks_ f)) (done_ f).

(* src/muduo/base/LogFile.cc:43-49 LogFile::flush *)
Definition flush (f : LogFile) : outcome LogFile :=
  let! o := deref (file_ f) in
  Ok (set_output (mkOutput (o_name o) (file_flush (o_file o)) (o_disk o)) f).

(* src/muduo/base/LogFile.cc:51-74 LogFile::append_unlocked *)
Definition append_unlocked (logline : bytes) (f : LogFile) : outcome LogFile :=
  let! o := deref (file_ f) in
  let '(file, disk) := file_append logline (o_file o) (o_disk o) in
  let f := set_output (mkOutput (o_name o) file disk) f in
  if rollSize_ f <? writtenBytes file then Ok (rollFile f).2
  else
    let f := set_count (count_ f + 1) f in
    if checkEveryN_ f <=? count_ f then
      let f := set_count 0 f in
      let now := clock (ticks_ f) in
      let f := tick f in
      let thisPeriodTp := now / day_ns * day_ns in
      if negb (thisPeriodTp =? startOfPeriod_ f) then Ok (rollFile f).2
      else if flushInterval_ f * second_ns <? now - lastFlush_ f then flush (set_flush now f)
      else Ok f
    else Ok f.

(* src/muduo/base/LogFile.cc:25-31 LogFile::append *)
Definition logfile_append (logline : bytes) (f : LogFile) : outcome LogFile := append_unlocked logline f.

(** ** What is in the files *)

Definition outputs (f : LogFile) : list log_output := done_ f ++ match file_ f with Some o => [o] | None => [] end.
Definition logged (f : LogFile) : bytes := mjoin ((λ o, got_ (o_disk o)) <$> outputs f).

(** The machine of the theorem: the clock moves forward from after 1970, files
    can be opened, and writes may be short or interrupted but do not fail. *)
Definition machine_ok : Prop :=
  (∀ i, 0 < clock i < clock (S i)) ∧ (∀ i, 0 ≤ reply_value (sys_open i)) ∧
  (∀ i, Forall (λ r, gives_up r = false) (sys_script i)).

Record logfile_inv (f : LogFile) : Prop := mkLogInv {
  li_file : ∃ o, file_ f = Some o ∧ 0 ≤ fd_ (o_file o) ∧ writtenBytes_ (o_file o) = len (got_ (o_disk o)) ∧
    Forall (λ r, gives_up r = false) (script_ (o_disk o)) ∧
    o_name o = getLogFileName (basename_ f) (lastRoll_ f) ∧ len (got_ (o_disk o)) ≤ Z.max 0 (rollSize_ f);
  li_period : startOfPeriod_ f = lastRoll_ f / day_ns * day_ns;
  li_clock : lastRoll_ f < clock (ticks_ f);
  li_count : 0 ≤ count_ f < Z.max 1 (checkEveryN_ f)
}.

Lemma clock_mono i j : machine_ok → (i ≤ j)%nat → clock i ≤ clock j.
Proof using Type. intros (Hc & _) Hij. induction Hij as [|j _ IH]; [lia|]. specialize (Hc j). lia. Qed.

Lemma roll_ok f :
  machine_ok → lastRoll_ f < clock (ticks_ f) → 0 ≤ count_ f < Z.max 1 (checkEveryN_ f) →
  logfile_inv (rollFile f).2 ∧ logged (rollFile f).2 = logged f ∧ basename_ (rollFile f).2 = basename_ f ∧
  rollSize_ (rollFile f).2 = rollSize_ f ∧ done_ (rollFile f).2 = outputs f.
Proof using Type.
  intros Hm Hl Hc. pose proof Hm as (Hck & Ho & Hs). unfold rollFile.
  pose proof (Hck (ticks_ f)) as H1. pose proof (Hck (S (ticks_ f))) as H2.
  rewrite (proj2 (Z.ltb_lt (lastRoll_ f) (clock (S (ticks_ f))))) by lia. cbn [snd].
  split_and!; [|unfold logged, outputs; cbn [done_ file_]|done|done|done].
  - split; cbn; [|done|lia|done]. eexists. split; [done|]. cbn.
    split_and!; [apply Ho|done|apply Hs|done|change (len (@nil Byte.byte)) with 0; lia].
  - rewrite (fmap_app _ (_ ++ _)), join_app. cbn. by rewrite !app_nil_r.
Qed.

Lemma append_good file bs d :
  0 ≤ fd_ file → writtenBytes_ file = len (got_ d) → Forall (λ r, gives_up r = false) (script_ d) →
  ∃ d', file_append bs file d = (mkAppend (fd_ file) (len (got_ d ++ bs)), d') ∧ got_ d' = got_ d ++ bs ∧
    Forall (λ r, gives_up r = false) (script_ d').
Proof using Type.
  intros Hfd Hw Hs. unfold file_append, appendBytes. rewrite (proj2 (Z.ltb_ge _ _) Hfd). rewrite orb_false_r.
  destruct bs as [|b bs].
  { exists d. rewrite app_nil_r, <- Hw. by destruct file. }
  destruct (write_loop_spec (S (length (script_ d))) (b :: bs) d ltac:(lia)) as (ok & d' & used & -> & Hu & Ht & Hf).
  rewrite Hu in Hs. apply Forall_app in Hs as [Hs1 Hs2]. destruct ok.
  - destruct (Ht eq_refl) as [Hg _]. exists d'. rewrite len_app, Hw. done.
  - destruct (Hf eq_refl) as (k & r & used' & -> & Hr & _). apply Forall_app in Hs1 as [_ Hs1].
    apply Forall_cons in Hs1 as [Hs1 _]. congruence.
Qed.

(** When an append ends a file: it got too big, or the day has changed at one
    of the checks every [checkEveryN_] lines. *)
Definition rolls (line : bytes) (f : LogFile) : bool :=
  (rollSize_ f <? len (default [] (got_ ∘ o_disk <$> file_ f) ++ line)) ||
  ((checkEveryN_ f <=? count_ f + 1) && negb (clock (ticks_ f) / day_ns =? lastRoll_ f / day_ns)).

Lemma append_step line f :
  machine_ok → logfile_inv f →
  ensures (logfile_append line f) (λ f', logfile_inv f' ∧ logged f' = logged f ++ line ∧
    basename_ f' = basename_ f ∧ rollSize_ f' = rollSize_ f ∧
    ∃ o, len (got_ (o_disk o)) ≤ Z.max 0 (rollSize_ f) + len line ∧
      o_name o = getLogFileName (basename_ f) (lastRoll_ f) ∧
      done_ f' = done_ f ++ if rolls line f then [o] else []).
Proof using Type.
  intros Hm [(o & Ho & Hfd & Hw & Hs & Hn & Hsz) Hp Hck Hc].
  unfold logfile_append, append_unlocked. rewrite Ho. cbn [deref obind].
  destruct (append_good (o_file o) line (o_disk o) Hfd Hw Hs) as (d' & -> & Hg & Hs').
  set (o' := mkOutput _ _ _). set (f1 := set_output o' f).
  assert (logged f1 = logged f ++ line) as Hlog.
  { unfold logged, outputs, f1. cbn. rewrite Ho. rewrite !fmap_app, !join_app. cbn. rewrite Hg, !app_nil_r, app_assoc. done. }
  assert (outputs f1 = done_ f ++ [o']) as Hout by done. pose proof (len_nonneg line) as Hline.
  assert (rolls line f = (rollSize_ f <? len (got_ (o_disk o) ++ line)) ||
    ((checkEveryN_ f <=? count_ f + 1) && negb (clock (ticks_ f) / day_ns =? lastRoll_ f / day_ns))) as Hroll
    by (unfold rolls; by rewrite Ho).
  change (writtenBytes (mkAppend (fd_ (o_file o)) (len (got_ (o_disk o) ++ line)))) with (len (got_ (o_disk o) ++ line)).
  change (rollSize_ f1) with (rollSize_ f). destruct (Z.ltb_spec (rollSize_ f) (len (got_ (o_disk o) ++ line))) as [Hbig|Hsmall].
  - cbn [orb] in Hroll.
    destruct (roll_ok f1 Hm Hck Hc) as (Hi & Hl & Hb & Hr & Hd). cbn [ensures].
    split_and!; [done|congruence|done|done|]. exists o'. rewrite Hd, Hout, Hroll.
    split_and!; [|exact Hn|done]. change (o_disk o') with d'. rewrite Hg, len_app. lia.
  - cbn [orb] in Hroll.
    assert (len (got_ d') ≤ Z.max 0 (rollSize_ f) + len line) as Hsz' by (rewrite Hg; lia).
    set (f2 := set_count (count_ f1 + 1) f1).
    assert (logfile_inv (set_count 0 f1)) as Hinv0.
    { split; cbn; [|done|done|lia]. exists o'. cbn. split_and!; [done|done|by rewrite Hg|done|done|]. rewrite Hg. lia. }
    destruct (Z.leb_spec (checkEveryN_ f2) (count_ f2)) as [Hck2|Hck2].
    + change (set_count 0 f2) with (set_count 0 f1). cbn [ticks_ set_count f1 set_output tick].
      change (checkEveryN_ f2) with (checkEveryN_ f) in Hck2. change (count_ f2) with (count_ f + 1) in Hck2.
      rewrite (proj2 (Z.leb_le _ _) Hck2) in Hroll. cbn [andb] in Hroll.
      set (f3 := tick _). set (now := clock (ticks_ f)) in *.
      pose proof (proj1 Hm (ticks_ f)) as Hk.
      assert (lastRoll_ f3 < clock (ticks_ f3)) as Hck3 by (cbn; lia).
      assert (logfile_inv f3) as Hinv3.
      { destruct Hinv0 as [H1 H2 H3 H4]. by split. }
      change (startOfPeriod_ f3) with (startOfPeriod_ f). change (lastFlush_ f3) with (lastFlush_ f).
      assert ((now / day_ns * day_ns =? startOfPeriod_ f) = (now / day_ns =? lastRoll_ f / day_ns)) as ->.
      { rewrite Hp. unfold day_ns, kRollPerSeconds_, second_ns.
        destruct (Z.eqb_spec (now / (60 * 60 * 24 * 1000000000)) (lastRoll_ f / (60 * 60 * 24 * 1000000000))) as [->|Hne];
          [apply Z.eqb_refl|apply Z.eqb_neq; lia]. }
      destruct (now / day_ns =? lastRoll_ f / day_ns); cbn [negb] in *.
      * destruct (_ <? _).
        -- unfold flush. cbn [file_ set_flush f3 tick set_count f1 set_output deref obind ensures].
           split_and!; [|exact Hlog|done|done|].
           ++ destruct Hinv3 as [H1 H2 H3 H4]. split; cbn; try done.
           ++ exists o'. rewrite Hroll, app_nil_r. done.
        -- cbn [ensures]. split_and!; [done|exact Hlog|done|done|]. exists o'. rewrite Hroll, app_nil_r. done.
      * destruct (roll_ok f3 Hm Hck3) as (Hi & Hl & Hb & Hr & Hd); [apply Hinv3|]. cbn [ensures].
        split_and!; [done|rewrite Hl; exact Hlog|done|done|]. exists o'. rewrite Hd, Hroll. done.
    + change (checkEveryN_ f2) with (checkEveryN_ f) in Hck2. change (count_ f2) with (count_ f + 1) in Hck2.
      rewrite (proj2 (Z.leb_gt _ _) Hck2) in Hroll. cbn [andb] in Hroll.
      cbn [ensures]. split_and!; [|exact Hlog|done|done|].
      * destruct Hinv0 as [H1 H2 H3 H4]. split; cbn; try done. lia.
      * exists o'. rewrite Hroll, app_nil_r. done.
Qed.

Lemma appends_ok lines f L :
  machine_ok → logfile_inv f → Forall (λ l, len l ≤ L) lines →
  Forall (λ o, len (got_ (o_disk o)) ≤ Z.max 0 (rollSize_ f) + L) (done_ f) →
  ensures (foldM logfile_append lines f) (λ f', logfile_inv f' ∧ logged f' = logged f ++ mjoin lines ∧
    basename_ f' = basename_ f ∧ rollSize_ f' = rollSize_ f ∧
    Forall (λ o, len (got_ (o_disk o)) ≤ Z.max 0 (rollSize_ f) + L) (done_ f')).
Proof using Type.
  intros Hm Hi Hl. revert f Hi. induction Hl as [|l lines Hl _ IH]; intros f Hi Hd; cbn [foldM].
  { cbn. rewrite app_nil_r. done. }
  eapply ensures_bind; [by apply append_step|]. intros f1 (Hi1 & Hl1 & Hb1 & Hr1 & o & Ho & _ & Hd1).
  eapply ensures_mono; [apply IH; [done|]|].
  - rewrite Hd1, Hr1. apply Forall_app. split; [done|]. destruct (rolls l f); [|done]. constructor; [lia|done].
  - intros f2 (Hi2 & Hl2 & Hb2 & Hr2 & Hd2). rewrite Hr1 in Hd2, Hr2. cbn [mjoin list_join].
    split_and!; [done| |congruence|done|done]. by rewrite Hl2, Hl1, app_assoc.
Qed.

(** A log loses nothing and its files stay small. On a machine whose
    clock moves forward and whose writes, however short or often interrupted,
    do not fail: the constructor opens a file, every [append] returns, and the
    files in the order they were opened hold exactly the lines in their order.
    The current file is named after the time of the last roll, [writtenBytes]
    is its size and is at most the roll size; a completed file exceeds the
    roll size by less than its last line. *)
Theorem log_file_keeps_lines basename rollSize flushInterval checkEveryN lines L :
  machine_ok → Byte.x2f ∉ basename → 0 < checkEveryN → Forall (λ l, len l ≤ L) lines →
  ensures (let! f := newLogFile basename rollSize flushInterval checkEveryN in foldM logfile_append lines f) (λ f,
    logged f = mjoin lines ∧
    (∃ o, file_ f = Some o ∧ o_name o = getLogFileName basename (lastRoll_ f) ∧
       writtenBytes_ (o_file o) = len (got_ (o_disk o)) ∧ len (got_ (o_disk o)) ≤ Z.max 0 rollSize) ∧
    Forall (λ o, len (got_ (o_disk o)) ≤ Z.max 0 rollSize + L) (done_ f)).
Proof using Type.
  intros Hm Hb Hn Hl. unfold newLogFile. rewrite bool_decide_true by done. pass_asserts.
  set (f0 := mkLogFile _ _ _ _ _ _ _ _ _ _ _).
  destruct (roll_ok f0 Hm) as (Hi & Hlog & Hb0 & Hr0 & Hd0); [apply (proj1 Hm 0%nat)|cbn; lia|].
  eapply ensures_mono; [apply (appends_ok lines _ L Hm Hi Hl); by rewrite Hd0; cbn|].
  intros f (Hi' & Hl' & Hb' & Hr' & Hd'). rewrite Hr0 in *. split_and!.
  - rewrite Hl', Hlog. done.
  - destruct (li_file _ Hi') as (o & Ho & _ & Hw & _ & Hname & Hsz). rewrite Hb', Hb0 in Hname. rewrite Hr' in Hsz. by exists o.
  - done.
Qed.

End LogFile.

(** ** The theorem at a concrete input *)

Definition sample_clock (i : nat) : Z := 1700000000000000000 + Z.of_nat i * 1000.
Definition sample_log_open (_ : nat) : sys_reply := Ret 3.
Definition sample_log_script (_ : nat) : list sys_reply := [Ret 2; Err EINTR].
Lemma sample_machine : machine_ok sample_clock sample_log_open sample_log_script.
Proof.
  split_and!; [intros i; unfold sample_clock; lia|intros i; cbn; lia|].
  intros i. by apply (bool_decide_unpack _).
Qed.

Lemma log_file_keeps_lines_witness :
  ensures (let! f := newLogFile sample_clock (str "host") 42 sample_log_open sample_log_script (str "app") 5 3 1024 in
           foldM (logfile_append sample_clock (str "host") 42 sample_log_open sample_log_script)
             [str "one"; str "two"; str "three"] f) (λ f,
    logged f = mjoin [str "one"; str "two"; str "three"] ∧
    (∃ o, file_ f = Some o ∧ o_name o = getLogFileName (str "host") 42 (str "app") (lastRoll_ f) ∧
       writtenBytes_ (o_file o) = len (got_ (o_disk o)) ∧ len (got_ (o_disk o)) ≤ Z.max 0 5) ∧
    Forall (λ o, len (got_ (o_disk o)) ≤ Z.max 0 5 + 5) (done_ f)).
Proof.
  apply (log_file_keeps_lines sample_clock (str "host") 42 sample_log_open sample_log_script (str "app") 5 3 1024
    [str "one"; str "two"; str "three"] 5).
  - apply sample_machine.
  - by apply (bool_decide_unpack _).
  - lia.
  - by apply (bool_decide_unpack _).
Defined.

(** Two rolls within a second open the same file again: the second object
    counts from zero although the file is not empty. *)
Lemma same_second_same_file :
  match (let! f := newLogFile sample_clock (str "host") 42 sample_log_open sample_log_script (str "app") 5 3 1024 in
         foldM (logfile_append sample_clock (str "host") 42 sample_log_open sample_log_script)
           [str "one"; str "two"] f) with
  | Ok f => (o_name <$> outputs f) = [str "app.20231114-221320.host.42.log"; str "app.20231114-221320.host.42.log"] ∧
            (writtenBytes_ ∘ o_file <$> outputs f) = [6; 0]
  | Fault _ => False
  end.
Proof. by vm_compute. Qed.
