(* ===== verification/AsyncLogging.v ===== *)
(** * AsyncLogging: log lines from many threads to one file
    ([muduo/base/AsyncLogging.h], [AsyncLogging.cc])

    Producers append to sharded buffers under the shard's mutex; the logging
    thread collects the buffers, one shard after the other, and writes them.
    The state is what all threads share together with the locals of the
    logging thread; a step is one critical section of a producer, or one of
    the logging thread's. Every collected buffer carries the number of its
    shard, and the state remembers what has been appended to each shard, what
    was written, and what was dropped: these are for the theorems, no
    operation looks at them. *)
From S2P Require Import Prelude Format LogStream.
From stdpp Require Import options.

(** ** The shards *)

(** [std::bit_ceil]. *)
Definition bit_ceil (n : Z) : Z := if n <=? 1 then 1 else 2 ^ Z.log2_up n.

(* src/muduo/base/AsyncLogging.cc:19-24 computeDefaultShardCount *)
Definition computeDefaultShardCount (hw : Z) : Z :=
  let half := if hw =? 0 then 4 else hw / 2 in
  let bounded := Z.min 8 (Z.max 2 half) in
  bit_ceil bounded.

(* src/muduo/base/AsyncLogging.cc:26-32 normalizeShardCount *)
Definition normalizeShardCount (hw requested : Z) : Z :=
  if requested =? 0 then computeDefaultShardCount hw
  else bit_ceil (Z.max 2 requested).

(** The index is computed once per thread, in a [thread_local] that all
    [AsyncLogging] objects share. *)
(* src/muduo/base/AsyncLogging.cc:80-84 AsyncLogging::shardIndex *)
Definition shardIndex (tid shardMask : Z) (cached : option Z) : Z :=
  match cached with Some i => i | None => Z.land (size_t tid) shardMask end.

(** A buffer on its way to the file, with the shard it comes from. *)
Definition tagged : Type := nat * FixedBuffer.

(* src/muduo/base/AsyncLogging.h:50-55 AsyncLogging::Shard *)
Record Shard := mkShard {
  currentBuffer : FixedBuffer;
  nextBuffer : option FixedBuffer;
  buffers : list FixedBuffer
}.

(** Where the logging thread is. *)
Inductive pc :=
| CLoop                            (* testing stop_requested() *)
| CAcquire                         (* in try_acquire_for *)
| CCollect (final : bool) (i : nat)
| CWrite (final : bool)
| CDone.

(* src/muduo/base/AsyncLogging.h:56-68 AsyncLogging *)
Record AsyncLogging := mkAsync {
  started_ : bool;
  stop_ : bool;                    (* stop_requested() *)
  shards_ : list Shard;
  wakeup_ : Z;                     (* the semaphore's counter *)
  globalPool_ : list FixedBuffer;
  (* the logging thread: None before start() *)
  thread_ : option pc;
  buffersToWrite : list tagged;
  spareBuffers : list FixedBuffer;
  (* history *)
  output_ : list bytes;            (* the calls of LogFile::append *)
  appended_ : list bytes;          (* by shard *)
  history_ : list (nat * bytes * bool);   (* collected buffers: written, or dropped *)
  mark_ : list bytes               (* appended_ when stop() was called *)
}.

Section Setters.
Context (a : AsyncLogging).
Definition set_shards (l : list Shard) := mkAsync (started_ a) (stop_ a) l (wakeup_ a) (globalPool_ a) (thread_ a)
  (buffersToWrite a) (spareBuffers a) (output_ a) (appended_ a) (history_ a) (mark_ a).
Definition set_pool (l : list FixedBuffer) := mkAsync (started_ a) (stop_ a) (shards_ a) (wakeup_ a) l (thread_ a)
  (buffersToWrite a) (spareBuffers a) (output_ a) (appended_ a) (history_ a) (mark_ a).
Definition set_wakeup (n : Z) := mkAsync (started_ a) (stop_ a) (shards_ a) n (globalPool_ a) (thread_ a)
  (buffersToWrite a) (spareBuffers a) (output_ a) (appended_ a) (history_ a) (mark_ a).
Definition set_thread (p : pc) := mkAsync (started_ a) (stop_ a) (shards_ a) (wakeup_ a) (globalPool_ a) (Some p)
  (buffersToWrite a) (spareBuffers a) (output_ a) (appended_ a) (history_ a) (mark_ a).
Definition set_locals (w : list tagged) (s : list FixedBuffer) := mkAsync (started_ a) (stop_ a) (shards_ a) (wakeup_ a)
  (globalPool_ a) (thread_ a) w s (output_ a) (appended_ a) (history_ a) (mark_ a).
Definition remember (i : nat) (d : bytes) := mkAsync (started_ a) (stop_ a) (shards_ a) (wakeup_ a) (globalPool_ a)
  (thread_ a) (buffersToWrite a) (spareBuffers a) (output_ a) (alter (λ x, x ++ d) i (appended_ a)) (history_ a) (mark_ a).
Definition record_output (out : list bytes) (h : list (nat * bytes * bool)) := mkAsync (started_ a) (stop_ a) (shards_ a)
  (wakeup_ a) (globalPool_ a) (thread_ a) (buffersToWrite a) (spareBuffers a) (output_ a ++ out) (appended_ a)
  (history_ a ++ h) (mark_ a).
Definition set_started (b : bool) := mkAsync b (stop_ a) (shards_ a) (wakeup_ a) (globalPool_ a) (thread_ a)
  (buffersToWrite a) (spareBuffers a) (output_ a) (appended_ a) (history_ a) (mark_ a).
Definition set_stop := mkAsync (started_ a) true (shards_ a) (wakeup_ a) (globalPool_ a) (thread_ a)
  (buffersToWrite a) (spareBuffers a) (output_ a) (appended_ a) (history_ a) (appended_ a).
End Setters.

(* src/muduo/base/AsyncLogging.h:68-68 AsyncLogging::kGlobalPoolMax *)
Definition kGlobalPoolMax : Z := 64.

(** The size of a buffer is [kLargeBuffer]. *)
Section AsyncLogging.
Context (bufferSize : Z).
(** The line reporting dropped buffers, made of the time and the count. *)
Context (drop_report : nat → Z → bytes).

(* src/muduo/base/AsyncLogging.cc:36-50 AsyncLogging::AsyncLogging *)
Definition newAsyncLogging (hw shardCount : Z) : AsyncLogging :=
  let n := Z.to_nat (normalizeShardCount hw shardCount) in
  mkAsync false false (replicate n (mkShard (newFixed bufferSize) (Some (newFixed bufferSize)) [])) 0
    (replicate 16 (newFixed bufferSize)) None [] [] [] (replicate n []) [] (replicate n []).

(* src/muduo/base/AsyncLogging.cc:52-61 AsyncLogging::acquireBuffer *)
Definition acquireBuffer (pool : list FixedBuffer) : FixedBuffer * list FixedBuffer :=
  match last pool with
  | Some buf => (reset buf, removelast pool)
  | None => (newFixed bufferSize, pool)
  end.

(* src/muduo/base/AsyncLogging.cc:63-72 AsyncLogging::recycleBuffer *)
Definition recycleBuffer (buffer : FixedBuffer) (pool : list FixedBuffer) : list FixedBuffer :=
  if len pool <? kGlobalPoolMax then pool ++ [reset buffer] else pool.

(** [true]: the semaphore is released after the lock. *)
(* src/muduo/base/AsyncLogging.cc:92-115 AsyncLogging::append *)
Definition async_append (i : nat) (logline : bytes) (a : AsyncLogging) : outcome (bool * AsyncLogging) :=
  match shards_ a !! i with
  | None => Fault Terminated                       (* shards_.at throws std::out_of_range *)
  | Some shard =>
    if swrap 32 (len logline) <=? avail (currentBuffer shard) then
      let! cur := append logline (currentBuffer shard) in
      let kept := drop (length (toStringView (currentBuffer shard))) (toStringView cur) in
      Ok (false, remember (set_shards a (<[i := mkShard cur (nextBuffer shard) (buffers shard)]> (shards_ a))) i kept)
    else
      let bufs := buffers shard ++ [currentBuffer shard] in
      let '(cur, next, pool) :=
        match nextBuffer shard with
        | Some b => (b, None, globalPool_ a)
        | None => let '(b, pool) := acquireBuffer (globalPool_ a) in (b, None, pool)
        end in
      let! cur' := append logline cur in
      let kept := drop (length (toStringView cur)) (toStringView cur') in
      Ok (true, remember (set_pool (set_shards a (<[i := mkShard cur' next bufs]> (shards_ a))) pool) i kept)
  end.

(** [wakeup_.release()]. *)
Definition release (a : AsyncLogging) : AsyncLogging := set_wakeup a (wakeup_ a + 1).

(* src/muduo/base/AsyncLogging.cc:117-126 AsyncLogging::start *)
Definition async_start (a : AsyncLogging) : AsyncLogging :=
  if started_ a then a
  else
    mkAsync true false (shards_ a) (wakeup_ a) (globalPool_ a) (Some CLoop) [] (replicate 16 (newFixed bufferSize))
      (output_ a) (appended_ a) (history_ a) (mark_ a).

(** The part before [join()]; the stop callback releases the semaphore. *)
(* src/muduo/base/AsyncLogging.cc:128-138 AsyncLogging::stop *)
Definition async_stop (a : AsyncLogging) : AsyncLogging :=
  if negb (started_ a) then a else release (set_stop (set_started a false)).

(** A buffer from the spares, or from the pool. *)
Definition take_spare (spare pool : list FixedBuffer) : FixedBuffer * list FixedBuffer * list FixedBuffer :=
  match last spare with
  | Some b => (reset b, removelast spare, pool)
  | None => let '(b, pool) := acquireBuffer pool in (b, spare, pool)
  end.

(** What [collect] does with one shard, under its mutex. *)
(* src/muduo/base/AsyncLogging.cc:152-188 AsyncLogging::threadFunc, collect *)
Definition collect (i : nat) (a : AsyncLogging) : AsyncLogging :=
  match shards_ a !! i with
  | None => a
  | Some shard =>
    let '(cur, next, bufs, spare, pool) :=
      if 0 <? length_ (currentBuffer shard) then
        let bufs := buffers shard ++ [currentBuffer shard] in
        match nextBuffer shard with
        | Some b => (b, None, bufs, spareBuffers a, globalPool_ a)
        | None => let '(b, spare, pool) := take_spare (spareBuffers a) (globalPool_ a) in (b, None, bufs, spare, pool)
        end
      else (currentBuffer shard, nextBuffer shard, buffers shard, spareBuffers a, globalPool_ a) in
    let '(next, spare, pool) :=
      match next with
      | Some b => (Some b, spare, pool)
      | None => let '(b, spare, pool) := take_spare spare pool in (Some b, spare, pool)
      end in
    set_locals (set_pool (set_shards a (<[i := mkShard cur next []]> (shards_ a))) pool)
      (buffersToWrite a ++ ((λ b, (i, b)) <$> bufs)) spare
  end.

Definition views (l : list tagged) : list (nat * bytes) := (λ x, (x.1, toStringView x.2)) <$> l.
Definition flagged (b : bool) (l : list (nat * bytes)) : list (nat * bytes * bool) := (λ x, (x, b)) <$> l.

(** The drop report is cut to 255 bytes. *)
(* src/muduo/base/AsyncLogging.cc:203-219 AsyncLogging::threadFunc, dropping *)
Definition drop_buffers (now : Z) (w : list tagged) : list bytes * list tagged * list tagged :=
  if 25 <? len w then ([take 255 (drop_report (length w - 2) now)], take 2 w, drop 2 w) else ([], w, []).

(* src/muduo/base/AsyncLogging.cc:221-236 AsyncLogging::threadFunc, writing *)
Definition write_buffers (now : Z) (a : AsyncLogging) : AsyncLogging :=
  let '(report, w, d) := drop_buffers now (buffersToWrite a) in
  let a := record_output a (report ++ (toStringView ∘ snd <$> w)) (flagged true (views w) ++ flagged false (views d)) in
  let spare := if len (spareBuffers a) <? 32
    then spareBuffers a ++ take (Z.to_nat (Z.min (32 - len (spareBuffers a)) (len w))) (snd <$> w)
    else spareBuffers a in
  set_locals a [] spare.

(* src/muduo/base/AsyncLogging.cc:239-250 AsyncLogging::threadFunc, at the end *)
Definition finish (a : AsyncLogging) : AsyncLogging :=
  let w := buffersToWrite a in
  let a := record_output a (toStringView ∘ snd <$> w) (flagged true (views w)) in
  let pool := foldl (λ pool b, recycleBuffer b pool) (globalPool_ a) (spareBuffers a) in
  let pool := foldl (λ pool b, recycleBuffer b pool) pool (snd <$> w) in
  set_locals (set_pool a pool) [] [].

(** One step of the logging thread; [token] says whether [try_acquire_for]
    got the semaphore or timed out. *)
(* src/muduo/base/AsyncLogging.cc:140-251 AsyncLogging::threadFunc *)
Definition thread_step (token : bool) (now : Z) (a : AsyncLogging) : AsyncLogging :=
  match thread_ a with
  | Some CLoop => set_thread a (if stop_ a then CCollect true 0 else CAcquire)
  | Some CAcquire =>
      let a := if token && (0 <? wakeup_ a) then set_wakeup a (wakeup_ a - 1) else a in
      set_thread a (CCollect false 0)
  | Some (CCollect final i) =>
      if (i <? length (shards_ a))%nat then set_thread (collect i a) (CCollect final (S i))
      else if final then set_thread a (CWrite true)
      else match buffersToWrite a with [] => set_thread a CLoop | _ => set_thread a (CWrite false) end
  | Some (CWrite false) => set_thread (write_buffers now a) CLoop
  | Some (CWrite true) => set_thread (finish a) CDone
  | Some CDone | None => a
  end.

(** ** All threads together *)

Inductive async_step : AsyncLogging → AsyncLogging → Prop :=
| as_append i line a woken a' :
    len line < 2 ^ 31 → (i < length (shards_ a))%nat → async_append i line a = Ok (woken, a') → async_step a a'
| as_release a : async_step a (release a)
| as_start a :
    started_ a = false → (thread_ a = None ∨ thread_ a = Some CDone) →   (* stop() has joined the thread *)
    async_step a (async_start a)
| as_stop a : started_ a = true → async_step a (async_stop a)
| as_thread token now a : async_step a (thread_step token now a).

Inductive async_reachable : AsyncLogging → Prop :=
| ar_new hw n : 0 ≤ hw → 0 ≤ n → async_reachable (newAsyncLogging hw n)
| ar_step a a' : async_reachable a → async_step a a' → async_reachable a'.

(** *** The invariant *)

Definition buffer_ok (b : FixedBuffer) : Prop := fixed_ok b ∧ SIZE b = bufferSize.

Definition of_shard (i : nat) (l : list (nat * bytes)) : bytes := mjoin (snd <$> filter (λ x, x.1 = i) l).
Definition pending (s : Shard) : bytes := mjoin (toStringView <$> buffers s) ++ toStringView (currentBuffer s).

(** What has left shard [i]. *)
Definition collected (a : AsyncLogging) (i : nat) : bytes :=
  of_shard i (history_ a).*1 ++ of_shard i (views (buffersToWrite a)).

(** The last round has been to shard [i]. *)
Definition swept (a : AsyncLogging) (i : nat) : Prop :=
  match thread_ a with
  | Some (CCollect true j) => (i < j)%nat
  | Some (CWrite true) | Some CDone => True
  | _ => False
  end.
Definition final_phase (a : AsyncLogging) : Prop :=
  match thread_ a with Some (CCollect true _) | Some (CWrite true) | Some CDone => True | _ => False end.
Definition between_rounds (a : AsyncLogging) : Prop :=
  match thread_ a with None | Some CLoop | Some CAcquire | Some CDone => True | _ => False end.

Record shard_ok (s : Shard) : Prop := mkShardOk {
  so_current : buffer_ok (currentBuffer s);
  so_next b : nextBuffer s = Some b → buffer_ok b ∧ writePos_ b = 0;
  so_buffers : Forall buffer_ok (buffers s)
}.

Record async_inv (a : AsyncLogging) : Prop := mkAsyncInv {
  ai_length : length (appended_ a) = length (shards_ a);
  ai_shard i s : shards_ a !! i = Some s → shard_ok s ∧ appended_ a !! i = Some (collected a i ++ pending s);
  ai_mark i m : mark_ a !! i = Some m → ∃ d, appended_ a !! i = Some d ∧ m `prefix_of` d ∧
    (swept a i → m `prefix_of` collected a i);
  ai_write : Forall buffer_ok (snd <$> buffersToWrite a);
  ai_spare : Forall buffer_ok (spareBuffers a) ∧ len (spareBuffers a) ≤ 32;
  ai_pool : Forall buffer_ok (globalPool_ a) ∧ len (globalPool_ a) ≤ kGlobalPoolMax;
  ai_phase : final_phase a → started_ a = false;
  ai_stop : stop_ a = true → started_ a = false;
  ai_between : between_rounds a → buffersToWrite a = [];
  ai_output : Forall (λ h, h.2 = true) (history_ a) → output_ a = (snd ∘ fst) <$> history_ a
}.

Hypothesis size_ok : 0 ≤ bufferSize < 2 ^ 31.

Lemma fresh_ok : buffer_ok (newFixed bufferSize).
Proof using size_ok.
  unfold buffer_ok, fixed_ok, SIZE, newFixed, len. cbn. rewrite length_replicate. lia.
Qed.

Lemma fixed_reset_ok b : buffer_ok b → buffer_ok (reset b) ∧ writePos_ (reset b) = 0.
Proof using Type. clear size_ok. intros [[H1 H2] H3]. unfold buffer_ok, fixed_ok, SIZE, reset in *. cbn. split; [|done]. split; [lia|done]. Qed.

Lemma view_empty b : buffer_ok b → writePos_ b = 0 → toStringView b = [].
Proof using Type. clear size_ok. intros [H1 _] H0. rewrite view_content, H0 by done. done. Qed.

Lemma view_len b : buffer_ok b → len (toStringView b) = writePos_ b.
Proof using Type. clear size_ok. intros [[H1 H2] _]. rewrite view_content by done. apply len_slice; unfold SIZE in *; lia. Qed.

Lemma last_split {A} (l : list A) : match last l with Some x => l = removelast l ++ [x] | None => l = [] end.
Proof using Type.
  destruct l as [|x l] using rev_ind; [done|]. rewrite last_snoc. by rewrite removelast_last.
Qed.

Lemma acquire_ok pool :
  Forall buffer_ok pool → len pool ≤ kGlobalPoolMax →
  let '(b, pool') := acquireBuffer pool in
  buffer_ok b ∧ writePos_ b = 0 ∧ Forall buffer_ok pool' ∧ len pool' ≤ kGlobalPoolMax.
Proof using size_ok.
  intros Hp Hl. unfold acquireBuffer. pose proof (last_split pool) as Hs. destruct (last pool) as [b|].
  - rewrite Hs in Hp, Hl. apply Forall_app in Hp as [Hp Hb]. apply Forall_cons in Hb as [Hb _].
    destruct (fixed_reset_ok b Hb). rewrite len_app in Hl. pose proof (len_nonneg [b]). split_and!; [done..|lia].
  - split_and!; [apply fresh_ok|done|done|done].
Qed.

Lemma take_spare_ok spare pool :
  Forall buffer_ok spare → len spare ≤ 32 → Forall buffer_ok pool → len pool ≤ kGlobalPoolMax →
  let '(b, spare', pool') := take_spare spare pool in
  buffer_ok b ∧ writePos_ b = 0 ∧ (Forall buffer_ok spare' ∧ len spare' ≤ 32) ∧
  (Forall buffer_ok pool' ∧ len pool' ≤ kGlobalPoolMax).
Proof using size_ok.
  intros Hs Hsl Hp Hl. unfold take_spare. pose proof (last_split spare) as Hx. destruct (last spare) as [b|].
  - rewrite Hx in Hs, Hsl. apply Forall_app in Hs as [Hs Hb]. apply Forall_cons in Hb as [Hb _].
    destruct (fixed_reset_ok b Hb). rewrite len_app in Hsl. pose proof (len_nonneg [b]). split_and!; [done..|lia|done|done].
  - pose proof (acquire_ok pool Hp Hl) as H. destruct (acquireBuffer pool) as [b pool'].
    destruct H as (H1 & H2 & H3 & H4). split_and!; done.
Qed.

Lemma recycle_ok l pool :
  Forall buffer_ok l → Forall buffer_ok pool → len pool ≤ kGlobalPoolMax →
  Forall buffer_ok (foldl (λ pool b, recycleBuffer b pool) pool l) ∧
  len (foldl (λ pool b, recycleBuffer b pool) pool l) ≤ kGlobalPoolMax.
Proof using Type.
  clear size_ok. intros Hl. revert pool. induction Hl as [|b l Hb _ IH]; intros pool Hp Hn; cbn [foldl]; [done|].
  apply IH; unfold recycleBuffer.
  - destruct (_ <? _); [|done]. apply Forall_app. split; [done|]. constructor; [|done]. by apply fixed_reset_ok.
  - destruct (Z.ltb_spec (len pool) kGlobalPoolMax); [|done]. rewrite len_app. change (len [reset b]) with 1. lia.
Qed.

Lemma of_shard_app i l k : of_shard i (l ++ k) = of_shard i l ++ of_shard i k.
Proof using Type. unfold of_shard. by rewrite filter_app, fmap_app, join_app. Qed.

Lemma views_app w d : views (w ++ d) = views w ++ views d.
Proof using Type. apply fmap_app. Qed.

Lemma of_shard_same i bufs : of_shard i (views ((λ b, (i, b)) <$> bufs)) = mjoin (toStringView <$> bufs).
Proof using Type.
  clear size_ok. unfold of_shard, views. induction bufs as [|b bufs IH]; [done|]. cbn [fmap list_fmap].
  rewrite filter_cons, decide_True by done. cbn. f_equal. exact IH.
Qed.

Lemma of_shard_other i j bufs : i ≠ j → of_shard j (views ((λ b, (i, b)) <$> bufs)) = [].
Proof using Type.
  clear size_ok. intros Hne. unfold of_shard, views. induction bufs as [|b bufs IH]; [done|]. cbn [fmap list_fmap].
  rewrite filter_cons, decide_False by done. exact IH.
Qed.

(** *** The steps keep it *)

Lemma append_buffer line b :
  buffer_ok b → ensures (append line b) (λ b', buffer_ok b' ∧ toStringView b' = toStringView b ++ clip (room b) line).
Proof using Type.
  clear size_ok. intros [Hb Hs]. eapply ensures_mono; [by apply fixed_append_ok|].
  intros b' (H1 & H2 & _ & H3). unfold buffer_ok. split; [split; congruence|done].
Qed.

(** A shard changes, and perhaps the pool; nothing else does. *)
Lemma inv_append a i s s' pool kept :
  async_inv a → shards_ a !! i = Some s → shard_ok s' → pending s' = pending s ++ kept →
  Forall buffer_ok pool → len pool ≤ kGlobalPoolMax →
  async_inv (remember (set_pool (set_shards a (<[i := s']> (shards_ a))) pool) i kept).
Proof using Type.
  clear size_ok. intros [H1 H2 H3 H4 H5 H6 H7 H10 H8 H9] Hi Hs' Hp Hpool Hn.
  assert (i < length (shards_ a))%nat as Hlt by (by eapply lookup_lt_Some).
  split; try done.
  - cbn. by rewrite length_alter, length_insert.
  - intros j t Hj. cbn in Hj. change (collected _ j) with (collected a j). cbn [appended_ remember].
    destruct (decide (j = i)) as [->|Hne].
    + rewrite list_lookup_insert_eq in Hj by done. injection Hj as <-. split; [done|].
      change (appended_ (set_pool (set_shards a (<[i:=s']> (shards_ a))) pool)) with (appended_ a).
      destruct (H2 i s Hi) as [_ Ha]. rewrite list_lookup_alter_eq, Ha. cbn. by rewrite Hp, app_assoc.
    + rewrite list_lookup_insert_ne in Hj by done. destruct (H2 j t Hj) as [Ht Ha]. split; [done|].
      cbn. by rewrite list_lookup_alter_ne.
  - intros j m Hm. destruct (H3 j m Hm) as (d & Hd & Hpre & Hsw). cbn [appended_ remember set_pool set_shards].
    destruct (decide (j = i)) as [->|Hne].
    + rewrite list_lookup_alter_eq, Hd. eexists. split; [done|]. split; [by apply prefix_app_r|exact Hsw].
    + rewrite list_lookup_alter_ne, Hd by done. eexists. by split.
Qed.

Lemma async_append_ok i line a :
  async_inv a → len line < 2 ^ 31 → (i < length (shards_ a))%nat →
  ensures (async_append i line a) (λ r, async_inv r.2).
Proof using size_ok.
  intros Hi Hline Hlt. destruct (lookup_lt_is_Some_2 _ _ Hlt) as [s Hs].
  destruct (ai_shard a Hi i s Hs) as [[Hc Hn Hb] _]. unfold async_append. rewrite Hs.
  destruct (_ <=? _).
  - eapply ensures_bind; [by apply append_buffer|]. intros cur (Hcur & Hv). cbn [ensures snd].
    rewrite Hv, drop_app_length.
    apply (inv_append a i s (mkShard cur (nextBuffer s) (buffers s)) (globalPool_ a)); [done|done| | |apply Hi|apply Hi].
    + by split.
    + unfold pending. cbn [buffers currentBuffer]. by rewrite Hv, app_assoc.
  - assert (∃ b pool, (match nextBuffer s with Some b => (b, None, globalPool_ a)
        | None => let '(b, pool) := acquireBuffer (globalPool_ a) in (b, @None FixedBuffer, pool) end) = (b, None, pool) ∧
        buffer_ok b ∧ writePos_ b = 0 ∧ Forall buffer_ok pool ∧ len pool ≤ kGlobalPoolMax) as (b & pool & -> & Hb1 & Hb2 & Hb3 & Hb4).
    { destruct (nextBuffer s) as [b|] eqn:En.
      - exists b, (globalPool_ a). destruct (Hn b eq_refl). split_and!; try done; apply Hi.
      - pose proof (acquire_ok (globalPool_ a)) as Hacq. destruct (acquireBuffer (globalPool_ a)) as [b pool].
        exists b, pool. split; [done|]. apply Hacq; apply Hi. }
    eapply ensures_bind; [by apply append_buffer|]. intros cur (Hcur & Hv). cbn [ensures snd].
    pose proof (view_empty b Hb1 Hb2) as He. rewrite Hv, He. cbn [app length]. rewrite drop_0.
    apply (inv_append a i s); try done.
    + split; cbn; [done|done|]. apply Forall_app. split; [done|by constructor].
    + unfold pending. cbn. rewrite Hv, He, fmap_app, join_app. cbn. by rewrite app_nil_r.
Qed.

Lemma collect_shard i a s :
  async_inv a → shards_ a !! i = Some s →
  ∃ s' pool spare bufs,
    collect i a = set_locals (set_pool (set_shards a (<[i := s']> (shards_ a))) pool)
      (buffersToWrite a ++ ((λ b, (i, b)) <$> bufs)) spare ∧
    shard_ok s' ∧ pending s' = [] ∧ mjoin (toStringView <$> bufs) = pending s ∧ Forall buffer_ok bufs ∧
    (Forall buffer_ok spare ∧ len spare ≤ 32) ∧ (Forall buffer_ok pool ∧ len pool ≤ kGlobalPoolMax).
Proof using size_ok.
  intros Hi Hs. destruct (ai_shard a Hi i s Hs) as [[Hc Hn Hb] _].
  destruct (ai_spare a Hi) as [Hsp1 Hsp2]. destruct (ai_pool a Hi) as [Hp1 Hp2].
  assert (length_ (currentBuffer s) = writePos_ (currentBuffer s)) as Hlen.
  { destruct Hc as [[? ?] ?]. unfold length_. apply swrap_id; [lia|]. unfold in_signed. change (2 ^ (32 - 1)) with (2 ^ 31). lia. }
  assert (∃ cur next bufs spare pool,
    (if 0 <? length_ (currentBuffer s) then
        match nextBuffer s with
        | Some b => (b, None, buffers s ++ [currentBuffer s], spareBuffers a, globalPool_ a)
        | None => let '(b, spare, pool) := take_spare (spareBuffers a) (globalPool_ a) in
            (b, None, buffers s ++ [currentBuffer s], spare, pool)
        end
      else (currentBuffer s, nextBuffer s, buffers s, spareBuffers a, globalPool_ a)) = (cur, next, bufs, spare, pool) ∧
    buffer_ok cur ∧ writePos_ cur = 0 ∧ (∀ b, next = Some b → buffer_ok b ∧ writePos_ b = 0) ∧
    mjoin (toStringView <$> bufs) = pending s ∧ Forall buffer_ok bufs ∧
    (Forall buffer_ok spare ∧ len spare ≤ 32) ∧ (Forall buffer_ok pool ∧ len pool ≤ kGlobalPoolMax))
    as (cur & next & bufs & spare & pool & E & Hcur & Hpos & Hnext & Hbufs & Hbok & [Hs1 Hs2] & [Hq1 Hq2]).
  { rewrite Hlen. destruct (Z.ltb_spec 0 (writePos_ (currentBuffer s))) as [Hpos|Hpos].
    - assert (mjoin (toStringView <$> buffers s ++ [currentBuffer s]) = pending s) as Hpend.
      { unfold pending. rewrite fmap_app, join_app. cbn. by rewrite app_nil_r. }
      assert (Forall buffer_ok (buffers s ++ [currentBuffer s])) as Hall by (apply Forall_app; split; [done|by constructor]).
      destruct (nextBuffer s) as [b|] eqn:En.
      + destruct (Hn b eq_refl). do 5 eexists. split; [done|]. split_and!; done.
      + pose proof (take_spare_ok (spareBuffers a) (globalPool_ a) Hsp1 Hsp2 Hp1 Hp2) as Ht.
        destruct (take_spare _ _) as [[b spare] pool]. destruct Ht as (? & ? & [? ?] & [? ?]).
        do 5 eexists. split; [done|]. split_and!; done.
    - assert (writePos_ (currentBuffer s) = 0) as H0 by (destruct Hc as [[? ?] ?]; lia).
      do 5 eexists. split; [done|]. split_and!; try done. unfold pending.
      rewrite (view_empty (currentBuffer s)) by done. by rewrite app_nil_r. }
  unfold collect. rewrite Hs, E.
  assert (∃ b spare' pool', match next with Some b => (Some b, spare, pool)
      | None => let '(b, spare, pool) := take_spare spare pool in (Some b, spare, pool) end = (Some b, spare', pool') ∧
      buffer_ok b ∧ writePos_ b = 0 ∧
      (Forall buffer_ok spare' ∧ len spare' ≤ 32) ∧ (Forall buffer_ok pool' ∧ len pool' ≤ kGlobalPoolMax))
    as (b & spare' & pool' & -> & Hb1 & Hb2 & Hs' & Hq').
  { destruct next as [b|].
    - destruct (Hnext b eq_refl). by exists b, spare, pool.
    - pose proof (take_spare_ok spare pool Hs1 Hs2 Hq1 Hq2) as Ht.
      destruct (take_spare spare pool) as [[b spare'] pool']. exists b, spare', pool'. split; [done|exact Ht]. }
  exists (mkShard cur (Some b) []), pool', spare', bufs. split; [done|]. split_and!; try done.
  - split; cbn; [done| |done]. by intros ? [= <-].
  - unfold pending. cbn. by apply view_empty.
  - apply Hs'.
  - apply Hs'.
  - apply Hq'.
  - apply Hq'.
Qed.

Lemma collected_app a i shards pool spare bufs j :
  (∀ k, of_shard k (views ((λ b, (i, b)) <$> bufs)) = if decide (i = k) then mjoin (toStringView <$> bufs) else []) →
  collected (set_locals (set_pool (set_shards a shards) pool) (buffersToWrite a ++ ((λ b, (i, b)) <$> bufs)) spare) j =
    collected a j ++ if decide (i = j) then mjoin (toStringView <$> bufs) else [].
Proof using Type.
  intros H. unfold collected. cbn [history_ buffersToWrite set_locals set_pool set_shards].
  by rewrite views_app, of_shard_app, <- app_assoc, H.
Qed.

Lemma collect_ok final i a :
  async_inv a → thread_ a = Some (CCollect final i) → (i < length (shards_ a))%nat →
  async_inv (set_thread (collect i a) (CCollect final (S i))).
Proof using size_ok.
  intros Hi Ht Hlt. destruct (lookup_lt_is_Some_2 _ _ Hlt) as [s Hs].
  destruct (collect_shard i a s Hi Hs) as (s' & pool & spare & bufs & -> & Hs' & Hp & Hbufs & Hbok & Hsp & Hpool).
  pose proof Hi as [H1 H2 H3 H4 H5 H6 H7 H10 H8 H9].
  set (a' := set_thread _ _).
  assert (∀ j, collected a' j = collected a j ++ if decide (i = j) then pending s else []) as Hcol.
  { intros j. rewrite <- Hbufs. apply (collected_app a i (<[i:=s']> (shards_ a)) pool spare bufs j). intros k.
    destruct (decide (i = k)) as [<-|Hne]; [by rewrite of_shard_same|by apply of_shard_other]. }
  split; try done.
  - cbn. by rewrite length_insert.
  - intros j t Hj. cbn in Hj. change (appended_ a') with (appended_ a). rewrite Hcol. destruct (decide (i = j)) as [<-|Hne].
    + rewrite list_lookup_insert_eq in Hj by done. injection Hj as <-. split; [done|].
      rewrite Hp, app_nil_r. apply H2, Hs.
    + rewrite list_lookup_insert_ne in Hj by done. rewrite app_nil_r. by apply H2.
  - intros j m Hm. destruct (H3 j m Hm) as (d & Hd & Hpre & Hsw). exists d. split; [exact Hd|]. split; [done|].
    rewrite Hcol. unfold swept. cbn [thread_ a' set_thread]. destruct final; [|done]. intros Hj.
    destruct (decide (i = j)) as [<-|Hne].
    + destruct (H2 i s Hs) as [_ Ha]. rewrite Hd in Ha. injection Ha as <-. done.
    + rewrite app_nil_r. apply Hsw. unfold swept. rewrite Ht. lia.
  - cbn. rewrite fmap_app. apply Forall_app. split; [done|].
    assert (snd <$> ((λ b, (i, b)) <$> bufs) = bufs) as ->; [|done].
    clear. induction bufs; cbn; f_equal; done.
  - unfold final_phase in *. rewrite Ht in H7. exact H7.
Qed.

Lemma inv_thread a p :
  async_inv a → (∀ i, swept (set_thread a p) i → swept a i) → (final_phase (set_thread a p) → started_ a = false) →
  (between_rounds (set_thread a p) → buffersToWrite a = []) → async_inv (set_thread a p).
Proof using Type.
  clear size_ok. intros [H1 H2 H3 H4 H5 H6 H7 H10 H8 H9] Hsw Hph Hbt. split; try done.
  intros i m Hm. destruct (H3 i m Hm) as (d & Hd & Hpre & Hs). exists d. split_and!; [done|done|]. intros Hx. by apply Hs, Hsw.
Qed.

Lemma history_fst b l : (flagged b l).*1 = l.
Proof using Type. unfold flagged. rewrite <- list_fmap_compose. apply list_fmap_id. Qed.

Lemma views_take_drop n w : views (take n w) ++ views (drop n w) = views w.
Proof using Type. unfold views. by rewrite <- fmap_app, take_drop. Qed.

Lemma views_output w : toStringView ∘ snd <$> w = (snd ∘ fst) <$> flagged true (views w).
Proof using Type. unfold flagged, views. by rewrite <- !list_fmap_compose. Qed.

(** Recording buffers moves them from the list to the history. *)
Lemma inv_record a out w d spare :
  async_inv a → views w ++ views d = views (buffersToWrite a) →
  Forall buffer_ok spare ∧ len spare ≤ 32 →
  (d = [] → out = toStringView ∘ snd <$> w) →
  async_inv (set_locals (record_output a out (flagged true (views w) ++ flagged false (views d))) [] spare).
Proof using Type.
  clear size_ok. intros [H1 H2 H3 H4 H5 H6 H7 H10 H8 H9] Hw Hsp Hout. set (a' := set_locals _ _ _).
  assert (∀ i, collected a' i = collected a i) as Hcol.
  { intros i. unfold collected, a'. cbn [history_ buffersToWrite set_locals record_output].
    rewrite fmap_app, of_shard_app, fmap_app, !history_fst, Hw. cbn. unfold of_shard at 3. cbn. by rewrite app_nil_r. }
  split; try done.
  - intros i s Hs. rewrite Hcol. by apply H2.
  - intros i m Hm. rewrite Hcol. by apply H3.
  - intros Hf. cbn [history_ output_ a' set_locals record_output] in *. apply Forall_app in Hf as [Hf1 Hf2].
    apply Forall_app in Hf2 as [_ Hf3]. destruct d as [|x d].
    + rewrite (H9 Hf1), (Hout eq_refl), views_output, fmap_app. cbn. by rewrite app_nil_r.
    + cbn in Hf3. apply Forall_cons in Hf3 as [? _]. done.
Qed.

Lemma write_ok now a :
  async_inv a → thread_ a = Some (CWrite false) → async_inv (set_thread (write_buffers now a) CLoop).
Proof using Type.
  clear size_ok. intros Hi Ht. pose proof (ai_spare a Hi) as [Hs1 Hs2]. pose proof (ai_write a Hi) as Hw.
  unfold write_buffers. destruct (drop_buffers now (buffersToWrite a)) as [[report w] d] eqn:E.
  assert (views w ++ views d = views (buffersToWrite a) ∧ Forall buffer_ok (snd <$> w) ∧
    (d = [] → report ++ (toStringView ∘ snd <$> w) = toStringView ∘ snd <$> w)) as (Hv & Hwok & Hout).
  { unfold drop_buffers in E. destruct (Z.ltb_spec 25 (len (buffersToWrite a))) as [Hbig|_]; injection E as <- <- <-.
    - split; [apply views_take_drop|]. split; [rewrite fmap_take; by apply Forall_take|].
      intros Hd. apply (f_equal len) in Hd. unfold len in *. rewrite length_drop in Hd. cbn in Hd. lia.
    - cbn. by rewrite app_nil_r. }
  apply inv_thread; [|done|done|done]. apply inv_record; [done|done| |done].
  cbn [spareBuffers record_output]. destruct (Z.ltb_spec (len (spareBuffers a)) 32); [|done].
  split; [apply Forall_app; split; [done|by apply Forall_take]|].
  rewrite len_app. unfold len in *. rewrite length_take, length_fmap. lia.
Qed.

Lemma finish_ok a :
  async_inv a → thread_ a = Some (CWrite true) → async_inv (set_thread (finish a) CDone).
Proof using Type.
  clear size_ok. intros Hi Ht. unfold finish.
  pose proof (ai_spare a Hi) as [Hs1 Hs2]. pose proof (ai_write a Hi) as Hw. pose proof (ai_pool a Hi) as [Hp1 Hp2].
  destruct (recycle_ok (spareBuffers a) (globalPool_ a) Hs1 Hp1 Hp2) as [Hq1 Hq2].
  destruct (recycle_ok (snd <$> buffersToWrite a) _ Hw Hq1 Hq2) as [Hr1 Hr2].
  assert (async_inv (set_locals (record_output a (toStringView ∘ snd <$> buffersToWrite a)
    (flagged true (views (buffersToWrite a)) ++ flagged false (views []))) [] [])) as H.
  { apply inv_record; [done|by rewrite app_nil_r|split; [constructor|done]|done]. }
  cbn [flagged views fmap list_fmap] in H. rewrite app_nil_r in H.
  apply inv_thread; [| |intros _; apply (ai_phase a Hi); unfold final_phase; by rewrite Ht|done].
  - destruct H as [H1 H2 H3 H4 H5 H6 H7 H10 H8 H9]. split; try done.
  - intros i _. unfold swept. cbn. by rewrite Ht.
Qed.

Lemma thread_step_ok token now a : async_inv a → async_inv (thread_step token now a).
Proof using size_ok.
  intros Hi. unfold thread_step.
  destruct (thread_ a) as [[| |final i|[]|]|] eqn:Ht; [| | |by apply finish_ok|by apply write_ok|done|done].
  - destruct (stop_ a) eqn:Hstop; apply inv_thread; try done.
    + unfold swept. cbn. lia.
    + intros _. by apply (ai_stop a Hi).
    + intros _. apply (ai_between a Hi). unfold between_rounds. by rewrite Ht.
  - apply inv_thread; [|done|done|done]. destruct (token && _); [|done].
    destruct Hi as [H1 H2 H3 H4 H5 H6 H7 H10 H8 H9]. by split.
  - destruct (Nat.ltb_spec i (length (shards_ a))) as [Hlt|Hge]; [by apply collect_ok|].
    assert (∀ j m, mark_ a !! j = Some m → (j < i)%nat) as Hall.
    { intros j m Hm. destruct (ai_mark a Hi j m Hm) as (d & Hd & _). apply lookup_lt_Some in Hd.
      rewrite (ai_length a Hi) in Hd. lia. }
    destruct final; [|destruct (buffersToWrite a) eqn:Ew].
    + pose proof Hi as [H1 H2 H3 H4 H5 H6 H7 H10 H8 H9]. split; try done.
      * intros j m Hm. destruct (H3 j m Hm) as (d & Hd & Hpre & Hsw). exists d. split_and!; [done|done|]. intros _.
        apply Hsw. unfold swept. rewrite Ht. by eapply Hall.
      * intros _. apply H7. unfold final_phase. by rewrite Ht.
    + by apply inv_thread.
    + by apply inv_thread.
Qed.

Lemma inv_release a : async_inv a → async_inv (release a).
Proof using Type. clear size_ok. intros [H1 H2 H3 H4 H5 H6 H7 H10 H8 H9]. by split. Qed.

Lemma inv_new hw n : async_inv (newAsyncLogging hw n).
Proof using size_ok.
  unfold newAsyncLogging. set (k := Z.to_nat _).
  assert (Forall buffer_ok (replicate 16 (newFixed bufferSize))) as H16 by (apply Forall_replicate, fresh_ok).
  assert (∀ m l, (replicate k ([] : bytes)) !! m = Some l → l = []) as Hrep by (by intros m l [? _]%lookup_replicate).
  pose proof (view_empty (newFixed bufferSize) fresh_ok eq_refl) as Hv.
  split; cbn [shards_ appended_ mark_ buffersToWrite spareBuffers globalPool_ started_ stop_ history_ output_]; try done.
  - by rewrite !length_replicate.
  - intros i s [-> Hi]%lookup_replicate. split.
    + split; cbn; [apply fresh_ok| |done]. intros b [= <-]. split; [apply fresh_ok|done].
    + rewrite lookup_replicate_2 by done. cbn. unfold pending. cbn [buffers currentBuffer]. by rewrite Hv.
  - intros i m Hm. pose proof (Hrep _ _ Hm) as ->. exists []. split_and!; [done|done|]. intros _. apply prefix_nil.
Qed.

Lemma inv_start a :
  async_inv a → started_ a = false → thread_ a = None ∨ thread_ a = Some CDone → async_inv (async_start a).
Proof using size_ok.
  intros [H1 H2 H3 H4 H5 H6 H7 H10 H8 H9] Hs Ht. unfold async_start. rewrite Hs.
  assert (buffersToWrite a = []) as Hw by (apply H8; unfold between_rounds; by destruct Ht as [-> | ->]).
  assert (∀ i, collected (mkAsync true false (shards_ a) (wakeup_ a) (globalPool_ a) (Some CLoop) []
    (replicate 16 (newFixed bufferSize)) (output_ a) (appended_ a) (history_ a) (mark_ a)) i = collected a i) as Hc
    by (intros i; unfold collected; by rewrite Hw).
  split; try done.
  - intros i s Hi. rewrite Hc. by apply H2.
  - intros i m Hm. destruct (H3 i m Hm) as (d & ? & ? & _). by exists d.
  - split; [apply Forall_replicate, fresh_ok|done].
Qed.

Lemma inv_stop a : async_inv a → started_ a = true → async_inv (async_stop a).
Proof using Type.
  clear size_ok. intros [H1 H2 H3 H4 H5 H6 H7 H10 H8 H9] Hs. unfold async_stop. rewrite Hs. cbn [negb].
  split; try done. intros i m Hm. cbn in Hm. exists m. split_and!; [done|done|]. intros Hsw. exfalso.
  assert (final_phase a) as Hf.
  { unfold swept, final_phase in *. cbn in Hsw. destruct (thread_ a) as [[| |[] ?|[]|]|]; done. }
  specialize (H7 Hf). congruence.
Qed.

Lemma async_step_inv a a' : async_inv a → async_step a a' → async_inv a'.
Proof using size_ok.
  intros Hi Hstep. revert Hi. destruct Hstep as [i line b woken b' Hl Hlt E|b|b Hs Ht|b Hs|token now b]; intros Hi.
  - pose proof (async_append_ok i line b Hi Hl Hlt) as H. by rewrite E in H.
  - by apply inv_release.
  - by apply inv_start.
  - by apply inv_stop.
  - by apply thread_step_ok.
Qed.

Lemma async_reachable_inv a : async_reachable a → async_inv a.
Proof using size_ok.
  induction 1 as [hw n _ _|a a' _ IH Hstep]; [apply inv_new|by eapply async_step_inv].
Qed.

(** The logging of any number of threads keeps every line. In every
    reachable state, what has been appended to a shard is, in this order and
    without a gap, what the logging thread has already handled from it, what
    it holds in its hands and what is still in the shard's buffers. If no
    round had to drop buffers, the file got exactly the contents of the
    handled buffers, one after the other. When the thread ends, everything
    appended before [stop()] has been handled. An append of a line shorter
    than 2 GiB always succeeds, and the pool and the spare buffers stay within
    their limits. *)
Theorem async_logging_keeps a :
  async_reachable a →
  (∀ i d, appended_ a !! i = Some d → ∃ s, shards_ a !! i = Some s ∧
     d = of_shard i (history_ a).*1 ++ of_shard i (views (buffersToWrite a)) ++ pending s) ∧
  (Forall (λ h, h.2 = true) (history_ a) → output_ a = (snd ∘ fst) <$> history_ a) ∧
  (thread_ a = Some CDone → ∀ i m, mark_ a !! i = Some m → m `prefix_of` of_shard i (history_ a).*1) ∧
  (∀ i line, (i < length (shards_ a))%nat → len line < 2 ^ 31 → ∃ r, async_append i line a = Ok r) ∧
  len (globalPool_ a) ≤ 64 ∧ len (spareBuffers a) ≤ 32.
Proof using size_ok.
  intros Hr. pose proof (async_reachable_inv a Hr) as Hi. pose proof Hi as [H1 H2 H3 H4 [H5 H5'] [H6 H6'] H7 H10 H8 H9].
  split_and!; try done.
  - intros i d Hd. assert (i < length (shards_ a))%nat as Hlt by (rewrite <- H1; by eapply lookup_lt_Some).
    destruct (lookup_lt_is_Some_2 _ _ Hlt) as [s Hs]. exists s. split; [done|].
    destruct (H2 i s Hs) as [_ Ha]. rewrite Hd in Ha. injection Ha as ->. unfold collected. by rewrite app_assoc.
  - intros Ht i m Hm. destruct (H3 i m Hm) as (d & _ & _ & Hsw). unfold swept in Hsw. rewrite Ht in Hsw.
    specialize (Hsw I). unfold collected in Hsw. rewrite H8 in Hsw by (unfold between_rounds; by rewrite Ht).
    change (of_shard i (views [])) with (@nil byte) in Hsw. by rewrite app_nil_r in Hsw.
  - intros i line Hlt Hl. pose proof (async_append_ok i line a Hi Hl Hlt) as H.
    destruct (async_append i line a); [by eexists|done].
Qed.

(** *** Stopping *)

(** Appends and wake-ups of the producers, and [n] steps of the thread. *)
Inductive async_run : nat → AsyncLogging → AsyncLogging → Prop :=
| run_nil a : async_run 0 a a
| run_append n i line a woken a' a'' :
    async_append i line a = Ok (woken, a') → async_run n a' a'' → async_run n a a''
| run_release n a a'' : async_run n (release a) a'' → async_run n a a''
| run_thread n token now a a'' : async_run n (thread_step token now a) a'' → async_run (S n) a a''.

(** The steps left until the thread is done, once it has been told to stop. *)
Definition steps_left (n : nat) (p : option pc) : nat :=
  match p with
  | None | Some CDone => 0
  | Some (CWrite true) => 1
  | Some (CCollect true i) => 2 + (n - i)
  | Some CLoop => 3 + n
  | Some (CWrite false) => 4 + n
  | Some (CCollect false i) => 5 + n + (n - i)
  | Some CAcquire => 6 + n + n
  end.
Definition left (a : AsyncLogging) : nat := steps_left (length (shards_ a)) (thread_ a).

Lemma append_left i line a woken a' :
  async_append i line a = Ok (woken, a') →
  length (shards_ a') = length (shards_ a) ∧ thread_ a' = thread_ a ∧ stop_ a' = stop_ a.
Proof using Type.
  unfold async_append. destruct (shards_ a !! i) as [s|]; [|done].
  destruct (_ <=? _); [|destruct (match nextBuffer s with Some _ => _ | None => _ end) as [[cur next] pool]];
    destruct (append line _); cbn; intros [= <- <-]; cbn; by rewrite length_insert.
Qed.

Lemma collect_left i a :
  length (shards_ (collect i a)) = length (shards_ a) ∧ stop_ (collect i a) = stop_ a.
Proof using Type.
  unfold collect. destruct (shards_ a !! i) as [s|]; [|done].
  repeat match goal with |- context [let '(_, _) := ?x in _] => destruct x end. cbn. by rewrite length_insert.
Qed.

Lemma thread_step_left token now a :
  stop_ a = true →
  stop_ (thread_step token now a) = true ∧ length (shards_ (thread_step token now a)) = length (shards_ a) ∧
  (thread_ a ≠ None → thread_ (thread_step token now a) ≠ None) ∧
  (left (thread_step token now a) ≤ pred (left a))%nat.
Proof using Type.
  intros Hs. unfold thread_step, left. destruct (thread_ a) as [[| |final i|[]|]|] eqn:Ht.
  - rewrite Hs. cbn. split_and!; [done..|lia].
  - destruct (token && _); cbn; split_and!; try done; lia.
  - destruct (Nat.ltb_spec i (length (shards_ a))) as [Hlt|Hge].
    + destruct (collect_left i a) as [Hl Hst]. cbn [set_thread stop_ shards_ thread_]. rewrite Hl, Hst.
      split_and!; try done. destruct final; cbn; lia.
    + destruct final; [|destruct (buffersToWrite a)]; cbn; split_and!; try done; lia.
  - cbn. split_and!; try done.
  - unfold write_buffers. destruct (drop_buffers now (buffersToWrite a)) as [[report w] d]. cbn. split_and!; try done; lia.
  - rewrite Ht. by split_and!.
  - rewrite Ht. by split_and!.
Qed.

Lemma async_run_left n a a' :
  async_run n a a' → stop_ a = true → thread_ a ≠ None → thread_ a' ≠ None ∧ (left a' ≤ left a - n)%nat.
Proof using Type.
  induction 1 as [a|n i line a woken a' a'' E _ IH|n a a'' _ IH|n token now a a'' _ IH]; intros Hs Ht.
  - split; [done|lia].
  - destruct (append_left _ _ _ _ _ E) as (Hl & Hth & Hst). unfold left in *. rewrite Hl, Hth, Hst in IH. by apply IH.
  - by apply IH.
  - destruct (thread_step_left token now a Hs) as (Hst & _ & Hth & Hle).
    destruct (IH Hst (Hth Ht)) as [? ?]. split; [done|lia].
Qed.

(** C38. [stop()] returns: once it has asked the logging thread to stop,
    wherever the thread is and whatever the producers append meanwhile, the
    thread has ended after at most six steps and two more for every shard, so
    [join()] does not wait forever. *)
Theorem async_stop_joins a n a' :
  started_ a = true → thread_ a ≠ None → async_run n (async_stop a) a' →
  (6 + 2 * length (shards_ a) ≤ n)%nat → thread_ a' = Some CDone.
Proof using Type.
  intros Hs Ht Hrun Hn. unfold async_stop in Hrun. rewrite Hs in Hrun. cbn [negb] in Hrun.
  destruct (async_run_left _ _ _ Hrun eq_refl Ht) as [Hnn Hle].
  assert (left (release (set_stop (set_started a false))) ≤ 6 + 2 * length (shards_ a))%nat as Hmax.
  { unfold left. cbn. destruct (thread_ a) as [[| |[] ?|[]|]|]; cbn; lia. }
  assert (left a' = 0)%nat as H0 by lia. unfold left in H0. by destruct (thread_ a') as [[| |[] ?|[]|]|].
Qed.
End AsyncLogging.

(** *** Shard numbers *)

Lemma bit_ceil_pow2 n : ∃ k, 0 ≤ k ∧ bit_ceil n = 2 ^ k ∧ n ≤ bit_ceil n.
Proof.
  unfold bit_ceil. destruct (Z.leb_spec n 1); [by exists 0|].
  exists (Z.log2_up n). split_and!; [apply Z.log2_up_nonneg|done|]. by apply Z.log2_up_spec.
Qed.

(** A thread that logs for the first time gets the number of a shard. *)
Lemma shard_index_in_range hw requested tid :
  let n := normalizeShardCount hw requested in 0 ≤ shardIndex tid (n - 1) None < n.
Proof.
  cbn zeta. assert (∃ k, 0 ≤ k ∧ normalizeShardCount hw requested = 2 ^ k) as (k & Hk & ->).
  { unfold normalizeShardCount, computeDefaultShardCount. cbn zeta.
    case_match; [destruct (bit_ceil_pow2 (Z.min 8 (Z.max 2 (if hw =? 0 then 4 else hw / 2)))) as (k & ? & ? & _)
      |destruct (bit_ceil_pow2 (Z.max 2 requested)) as (k & ? & ? & _)]; by exists k. }
  unfold shardIndex. replace (2 ^ k - 1) with (Z.ones k) by (rewrite Z.ones_equiv; lia).
  rewrite Z.land_ones by done. apply Z.mod_pos_bound. by apply Z.pow_pos_nonneg.
Qed.

(** The number is remembered per thread, not per object: a thread that first
    logged for an object with eight shards can fail in one that has two. *)
Lemma shard_cache_shared :
  let cached := shardIndex 7 (normalizeShardCount 16 0 - 1) None in
  async_append 64 (Z.to_nat (shardIndex 7 (normalizeShardCount 16 2 - 1) (Some cached))) [] (newAsyncLogging 64 16 2) =
    Fault Terminated.
Proof. vm_compute. reflexivity. Qed.

(** Two producers that switch buffers before the logging thread wakes up
    raise the counter to two, and its largest value is one
    ([std::binary_semaphore]). *)
Lemma wakeup_overflow :
  match (let! r := async_append 1 0 [Byte.x61; Byte.x62] (newAsyncLogging 1 0 2) in
         let! r' := async_append 1 1 [Byte.x61; Byte.x62] (release r.2) in Ok (r.1, r'.1, release r'.2)) with
  | Ok (w, w', a) => w = true ∧ w' = true ∧ wakeup_ a = 2
  | _ => False
  end.
Proof. vm_compute. done. Qed.

(** *** Concrete runs *)

Definition no_report (n : nat) (now : Z) : bytes := [].
Definition appended_to (i : nat) (line : bytes) (a : AsyncLogging) : AsyncLogging :=
  match async_append 8 i line a with Ok r => r.2 | Fault _ => a end.
Definition thread_steps (n : nat) (a : AsyncLogging) : AsyncLogging := Nat.iter n (thread_step 8 no_report false 0) a.

(** Two shards with buffers of eight bytes; the second line needs a new
    buffer. *)
Definition sample_async : AsyncLogging :=
  thread_steps 5 (async_stop (appended_to 1 (str "xy") (release (appended_to 0 (str "ghi")
    (appended_to 0 (str "abcdef") (async_start 8 (newAsyncLogging 8 0 2))))))).

Lemma appended_reachable i line a :
  async_reachable 8 no_report a → len line < 2 ^ 31 → (i < length (shards_ a))%nat →
  async_reachable 8 no_report (appended_to i line a).
Proof.
  intros Ha Hl Hi. unfold appended_to. destruct (async_append 8 i line a) as [[w a']|] eqn:E; [|done].
  eapply ar_step; [exact Ha|]. by eapply as_append.
Qed.

Lemma steps_reachable n a : async_reachable 8 no_report a → async_reachable 8 no_report (thread_steps n a).
Proof. intros Ha. induction n as [|n IH]; [done|]. cbn. eapply ar_step; [exact IH|]. apply as_thread. Qed.

Lemma sample_async_reachable : async_reachable 8 no_report sample_async.
Proof.
  apply steps_reachable. eapply ar_step; [|by apply as_stop].
  apply appended_reachable; [|by vm_compute|vm_compute; lia]. eapply ar_step; [|apply as_release].
  apply appended_reachable; [|by vm_compute|vm_compute; lia]. apply appended_reachable; [|by vm_compute|vm_compute; lia].
  eapply ar_step; [|apply as_start; [done|by left]]. apply ar_new; lia.
Qed.

Lemma async_logging_keeps_witness :
  thread_ sample_async = Some CDone ∧ output_ sample_async = [str "abcdef"; str "ghi"; str "xy"] ∧
  output_ sample_async = (snd ∘ fst) <$> history_ sample_async ∧
  str "abcdefghi" `prefix_of` of_shard 0 (history_ sample_async).*1.
Proof.
  destruct (async_logging_keeps 8 no_report ltac:(lia) sample_async sample_async_reachable) as (_ & Hout & Hmark & _).
  split; [by vm_compute|]. split; [by vm_compute|]. split.
  - apply Hout. vm_compute. repeat constructor.
  - apply (Hmark ltac:(by vm_compute) 0%nat). by vm_compute.
Defined.

Lemma steps_run n a : async_run 8 no_report n a (thread_steps n a).
Proof.
  revert a. induction n as [|n IH]; intros a; [apply run_nil|]. unfold thread_steps. rewrite Nat.iter_succ_r.
  eapply run_thread, IH.
Qed.

Lemma async_stop_joins_witness :
  let a := async_start 8 (newAsyncLogging 8 0 2) in
  started_ a = true ∧ thread_ (thread_steps 10 (async_stop a)) = Some CDone.
Proof.
  split; [done|].
  apply (async_stop_joins 8 no_report (async_start 8 (newAsyncLogging 8 0 2)) 10); [done|done| |vm_compute; lia].
  apply steps_run.
Defined.
