(* ===== verification/LogStack.v ===== *)
(** * LogStack: asynchronous logging down to the files
    ([muduo/base/AsyncLogging.cc], [LogFile.cc], [FileUtil.cc])

    [AsyncLogging.v] records the calls of [LogFile::append] its thread makes;
    here they are made, on the [LogFile] the thread owns, which writes through
    [AppendFile] to a kernel with short and interrupted writes. The theorem is
    about whole lines: none is torn, lost or out of its thread's order. One
    run of the thread is modelled: from [start()] to the end of the thread. *)
From S2P Require Import Prelude SocketsOps LogStream FileUtil LogFile AsyncLogging.
From stdpp Require Import options.
#[local] Open Scope Z_scope.

(** ** Lines and chunks *)

Abbreviation glue := (@mjoin list _ byte).
Abbreviation all_of := (@mjoin list _ bytes).

(** The items of a shard. *)
Definition items_of {A} (i : nat) (l : list (nat * A)) : list A := snd <$> filter (λ x, x.1 = i) l.

Lemma items_app {A} i (l k : list (nat * A)) : items_of i (l ++ k) = items_of i l ++ items_of i k.
Proof. unfold items_of. by rewrite filter_app, fmap_app. Qed.

Lemma items_tag {A} i j (l : list A) : items_of i ((λ x, (j, x)) <$> l) = if decide (j = i) then l else [].
Proof.
  unfold items_of. induction l as [|x l IH]; [by destruct (decide _)|]. cbn [fmap list_fmap].
  rewrite filter_cons. cbn [fst]. destruct (decide (j = i)); [cbn; by f_equal|done].
Qed.

Lemma of_shard_items i l : of_shard i l = glue (items_of i l).
Proof. done. Qed.

Lemma glue_all_of groups : glue (all_of groups) = glue (glue <$> groups).
Proof.
  induction groups as [|g groups IH]; [done|]. change (all_of (g :: groups)) with (g ++ all_of groups).
  rewrite join_app, IH. done.
Qed.

(** Chunks of whole lines, in any order among the shards, are lines in an
    order that keeps every shard's. *)
Lemma merge_groups (h : list (nat * bytes)) : ∀ Q : nat → list bytes → Prop,
  (∀ i, ∃ groups, items_of i h = glue <$> groups ∧ Q i (all_of groups)) →
  ∃ merged : list (nat * bytes), glue merged.*2 = glue h.*2 ∧ ∀ i, Q i (items_of i merged).
Proof.
  induction h as [|[j c] h IH]; intros Q HG.
  { exists []. split; [done|]. intros i. destruct (HG i) as (g & Hg & HQ). symmetry in Hg. by apply fmap_nil_inv in Hg as ->. }
  destruct (HG j) as (groups & Hj & HQ). unfold items_of in Hj. rewrite filter_cons, decide_True in Hj by done. cbn in Hj.
  destruct groups as [|g gs]; [done|]. cbn in Hj. injection Hj as Hc Hrest.
  destruct (IH (λ i l, if decide (j = i) then Q i (g ++ l) else Q i l)) as (merged & Hm & Hi).
  { intros i. destruct (decide (j = i)) as [<-|Hne]; [by exists gs|]. destruct (HG i) as (gi & Hgi & HQi). exists gi.
    split; [|done]. unfold items_of in Hgi. rewrite filter_cons, decide_False in Hgi by done. exact Hgi. }
  exists (((λ l, (j, l)) <$> g) ++ merged). split.
  - rewrite fmap_app, join_app, Hm. cbn. f_equal. rewrite <- list_fmap_compose. cbn. rewrite Hc. f_equal. apply list_fmap_id.
  - intros i. specialize (Hi i). rewrite items_app, items_tag. by destruct (decide (j = i)) as [<-|Hne].
Qed.

(** ** The stack *)

Section Stack.
Context (bufferSize : Z) (drop_report : nat → Z → bytes).
Context (clock : nat → Z) (hostname : bytes) (pid : Z) (sys_open : nat → sys_reply) (sys_script : nat → list sys_reply).
Context (basename : bytes) (rollSize flushInterval checkEveryN : Z).

Record stack := mkStack {
  logger : AsyncLogging;
  file : option LogFile;                (* the thread's [output] *)
  lines : list (nat * bytes);           (* appended, by shard *)
  lines_at_stop : list (nat * bytes)
}.

Definition newStack (hw shardCount : Z) : stack := mkStack (newAsyncLogging bufferSize hw shardCount) None [] [].

Definition stack_append (i : nat) (line : bytes) (s : stack) : outcome stack :=
  let! (woken, a) := async_append bufferSize i line (logger s) in
  Ok (mkStack a (file s) (lines s ++ [(i, line)]) (lines_at_stop s)).

(** [start()], with the first line of the thread, [LogFile output(...)]. *)
(* src/muduo/base/AsyncLogging.cc:117-126 AsyncLogging::start *)
Definition stack_start (s : stack) : outcome stack :=
  let! f := newLogFile clock hostname pid sys_open sys_script basename rollSize flushInterval checkEveryN in
  Ok (mkStack (async_start bufferSize (logger s)) (Some f) (lines s) (lines_at_stop s)).

Definition stack_stop (s : stack) : stack := mkStack (async_stop (logger s)) (file s) (lines s) (lines s).

Definition writes (a : AsyncLogging) : bool := match thread_ a with Some (CWrite _) => true | _ => false end.

(** A step of the thread, with its calls of [output.append] and
    [output.flush]. *)
(* src/muduo/base/AsyncLogging.cc:140-251 AsyncLogging::threadFunc *)
Definition stack_thread (token : bool) (now : Z) (s : stack) : outcome stack :=
  let a := thread_step bufferSize drop_report token now (logger s) in
  if writes (logger s) then
    let! f := deref (file s) in
    let! f := foldM (logfile_append clock hostname pid sys_open sys_script) (drop (length (output_ (logger s))) (output_ a)) f in
    let! f := flush f in
    Ok (mkStack a (Some f) (lines s) (lines_at_stop s))
  else Ok (mkStack a (file s) (lines s) (lines_at_stop s)).

Inductive stack_step : stack → stack → Prop :=
| st_append i line s s' :
    0 < len line ≤ bufferSize → (i < length (shards_ (logger s)))%nat → stack_append i line s = Ok s' → stack_step s s'
| st_release s : stack_step s (mkStack (release (logger s)) (file s) (lines s) (lines_at_stop s))
| st_start s s' : started_ (logger s) = false → thread_ (logger s) = None → stack_start s = Ok s' → stack_step s s'
| st_stop s : started_ (logger s) = true → stack_step s (stack_stop s)
| st_thread token now s s' : stack_thread token now s = Ok s' → stack_step s s'.

Inductive stack_reachable : stack → Prop :=
| sr_new hw n : 0 ≤ hw → 0 ≤ n → stack_reachable (newStack hw n)
| sr_step s s' : stack_reachable s → stack_step s s' → stack_reachable s'.

Hypothesis size_ok : 0 ≤ bufferSize < 2 ^ 31.

(** The chunks of a shard: written, in the thread's hands, waiting, and the
    buffer in use. *)
Definition chunks (a : AsyncLogging) (i : nat) (s : Shard) : list bytes :=
  items_of i (history_ a).*1 ++ items_of i (views (buffersToWrite a)) ++
  (toStringView <$> buffers s) ++ [toStringView (currentBuffer s)].

Definition whole (a : AsyncLogging) (l : list (nat * bytes)) : Prop :=
  ∀ i s, shards_ a !! i = Some s → ∃ groups, all_of groups = items_of i l ∧ chunks a i s = glue <$> groups.

(** *** Appending *)

Lemma append_whole i line a l woken a' :
  async_inv bufferSize a → whole a l → 0 < len line ≤ bufferSize →
  async_append bufferSize i line a = Ok (woken, a') → whole a' (l ++ [(i, line)]).
Proof using size_ok.
  intros Hi Hw Hl E. unfold async_append in E. destruct (shards_ a !! i) as [s|] eqn:Es; [|done].
  destruct (ai_shard _ _ Hi i s Es) as [[Hc Hn Hb] _].
  assert (∀ a1 s', history_ a1 = history_ a → buffersToWrite a1 = buffersToWrite a → shards_ a1 = <[i := s']> (shards_ a) →
    (∃ groups, all_of groups = items_of i l ++ [line] ∧ chunks a i s' = glue <$> groups) → whole a1 (l ++ [(i, line)])) as Hgo.
  { intros a1 s' H1 H2 H3 Hg j t Hj. unfold chunks. rewrite H1, H2. rewrite H3 in Hj.
    change [(i, line)] with ((λ x, (i, x)) <$> [line]). rewrite items_app, items_tag.
    destruct (decide (i = j)) as [<-|Hne].
    - rewrite list_lookup_insert_eq in Hj by (by eapply lookup_lt_Some). injection Hj as <-. exact Hg.
    - rewrite list_lookup_insert_ne in Hj by done. rewrite app_nil_r. by apply Hw. }
  destruct (Hw i s Es) as (groups & Hg & Hch). assert (swrap 32 (len line) = len line) as Hsw.
  { apply swrap_id; [lia|]. unfold in_signed. change (2 ^ (32 - 1)) with (2 ^ 31). lia. }
  rewrite Hsw in E. assert (∀ b, buffer_ok bufferSize b → len line ≤ room b → ∃ b', append line b = Ok b' ∧
    toStringView b' = toStringView b ++ line) as Happ.
  { intros b Hbok Hroom. pose proof (append_buffer bufferSize line b Hbok) as H. apply ensures_ok in H as (b' & -> & _ & Hv).
    exists b'. split; [done|]. rewrite Hv. unfold clip. rewrite take_ge; [done|]. unfold len in *. lia. }
  destruct (Z.leb_spec (len line) (avail (currentBuffer s))) as [Hfit|_].
  - rewrite (proj1 (avail_room _ (proj1 Hc))) in Hfit. destruct (Happ _ Hc Hfit) as (cur & Ea & Hv). rewrite Ea in E.
    cbn [obind] in E. injection E as <- <-. apply (Hgo _ (mkShard cur (nextBuffer s) (buffers s))); [done|done|done|].
    unfold chunks in Hch |- *. cbn [buffers currentBuffer]. rewrite Hv.
    destruct groups as [|g groups _] using rev_ind; [by apply (f_equal length) in Hch; rewrite !length_app in Hch; cbn in Hch; lia|].
    rewrite !app_assoc, fmap_app in Hch. cbn in Hch. apply app_inj_tail in Hch as [Hch Hlast].
    exists (groups ++ [g ++ [line]]). split.
    + rewrite <- Hg, !join_app. cbn. by rewrite !app_nil_r, app_assoc.
    + rewrite !app_assoc, Hch, Hlast, fmap_app. cbn. rewrite join_app. cbn. by rewrite app_nil_r.
  - assert (∃ b pool, (match nextBuffer s with Some b => (b, None, globalPool_ a)
        | None => let '(b, pool) := acquireBuffer bufferSize (globalPool_ a) in (b, @None FixedBuffer, pool) end) = (b, None, pool) ∧
        buffer_ok bufferSize b ∧ writePos_ b = 0) as (b & pool & Eb & Hb1 & Hb2).
    { destruct (nextBuffer s) as [b|] eqn:En.
      - exists b, (globalPool_ a). by destruct (Hn b eq_refl).
      - pose proof (acquire_ok bufferSize size_ok (globalPool_ a)) as Hacq. destruct (acquireBuffer _ (globalPool_ a)) as [b pool].
        exists b, pool. split; [done|]. destruct Hacq as (? & ? & _); [apply Hi|apply Hi|done]. }
    rewrite Eb in E. destruct (Happ b Hb1) as (cur & Ea & Hv).
    { unfold room. rewrite Hb2. destruct Hb1 as [_ ->]. lia. }
    rewrite Ea in E. cbn [obind] in E. injection E as <- <-. rewrite (view_empty bufferSize b Hb1 Hb2), app_nil_l in Hv.
    apply (Hgo _ (mkShard cur None (buffers s ++ [currentBuffer s]))); [done|done|done|].
    exists (groups ++ [[line]]). rewrite join_app, Hg. split; [done|].
    unfold chunks in Hch |- *. cbn [buffers currentBuffer]. rewrite fmap_app, Hv. rewrite fmap_app, <- Hch. cbn.
    by rewrite app_nil_r, <- !app_assoc.
Qed.

(** *** The thread *)

Lemma collect_whole final i a l :
  async_inv bufferSize a → whole a l → (i < length (shards_ a))%nat →
  whole (set_thread (collect bufferSize i a) (CCollect final (S i))) l.
Proof using size_ok.
  intros Hi Hw Hlt. destruct (lookup_lt_is_Some_2 _ _ Hlt) as [s Hs].
  destruct (collect_shard bufferSize size_ok i a s Hi Hs) as (s' & pool & spare & bufs & E & Hs' & Hp & _).
  assert (toStringView (currentBuffer s') = [] ∧ glue (toStringView <$> buffers s') = []) as [Hcur Hbufs]
    by (by apply app_eq_nil in Hp as [? ?]).
  assert (buffers s' = [] ∧ (bufs = buffers s ++ [currentBuffer s] ∨ bufs = buffers s ∧ currentBuffer s' = currentBuffer s))
    as [Hnil Hmoved].
  { unfold collect in E. rewrite Hs in E. assert (∀ A B (x y : A) (b c : B), (x, b) = (y, c) → b = c) as Hinj by congruence.
    assert (∀ A (j : nat) (x y : list A), ((λ b, (j, b)) <$> x) = ((λ b, (j, b)) <$> y) → x = y) as Htag.
    { intros A j x y H. apply (f_equal (fmap snd)) in H. by rewrite <- !list_fmap_compose, !list_fmap_id in H. }
    destruct (0 <? length_ (currentBuffer s)), (nextBuffer s) as [nb|] eqn:En;
      repeat match type of E with context [take_spare ?b ?x ?y] => destruct (take_spare b x y) as [[? ?] ?] end;
      injection E as E1 E2 E3; repeat match goal with H : context [take_spare] |- _ => clear H end;
      apply (f_equal (.!! i)) in E1; rewrite !list_lookup_insert_eq in E1 by done; injection E1 as <-;
      apply app_inv_head, Htag in E3 as <-; auto. }
  rewrite E. intros j t Hj. cbn in Hj. destruct (decide (i = j)) as [<-|Hne].
  - rewrite list_lookup_insert_eq in Hj by done. injection Hj as <-. destruct (Hw i s Hs) as (groups & Hg & Hch).
    unfold chunks in Hch |- *. cbn [history_ buffersToWrite set_thread set_locals set_pool set_shards].
    rewrite views_app, items_app, Hnil, Hcur.
    assert (views ((λ b, (i, b)) <$> bufs) = (λ d, (i, d)) <$> (toStringView <$> bufs)) as ->
      by (unfold views; by rewrite <- !list_fmap_compose).
    rewrite items_tag, decide_True by done. destruct Hmoved as [->|[-> Hsame]].
    + exists (groups ++ [[]]). rewrite join_app, app_nil_r. split; [done|]. rewrite !fmap_app, <- Hch. cbn.
      by rewrite <- !app_assoc.
    + exists groups. split; [done|]. rewrite <- Hch, <- Hsame, Hcur. cbn. by rewrite <- !app_assoc.
  - rewrite list_lookup_insert_ne in Hj by done. destruct (Hw j t Hj) as (groups & Hg & Hch). exists groups. split; [done|].
    rewrite <- Hch. unfold chunks. cbn [history_ buffersToWrite set_thread set_locals set_pool set_shards].
    rewrite views_app, items_app.
    assert (views ((λ b, (i, b)) <$> bufs) = (λ d, (i, d)) <$> (toStringView <$> bufs)) as ->
      by (unfold views; by rewrite <- !list_fmap_compose).
    by rewrite items_tag, decide_False, app_nil_r by done.
Qed.

Lemma record_whole a out w d spare pool p l :
  whole a l → views w ++ views d = views (buffersToWrite a) →
  whole (set_thread (set_locals (set_pool (record_output a out (flagged true (views w) ++ flagged false (views d))) pool) [] spare) p) l.
Proof using Type.
  clear size_ok. intros Hw Hv i s Hs. destruct (Hw i s Hs) as (groups & Hg & Hch). exists groups. split; [done|]. rewrite <- Hch.
  unfold chunks. cbn [history_ buffersToWrite set_thread set_locals set_pool record_output].
  rewrite !fmap_app, !history_fst, Hv, items_app. cbn. by rewrite <- app_assoc.
Qed.

Lemma thread_whole token now a l :
  async_inv bufferSize a → whole a l → whole (thread_step bufferSize drop_report token now a) l.
Proof using size_ok.
  intros Hi Hw. unfold thread_step. destruct (thread_ a) as [[| |final i|[]|]|] eqn:Ht; [| | | | |done|done].
  - exact Hw.
  - by destruct (token && _).
  - destruct (Nat.ltb_spec i (length (shards_ a))) as [Hlt|Hge]; [by apply collect_whole|].
    destruct final; [exact Hw|]. by destruct (buffersToWrite a).
  - unfold finish. set (pool := foldl _ _ _).
    apply (record_whole a (toStringView ∘ snd <$> buffersToWrite a) (buffersToWrite a) [] [] pool CDone l) in Hw; [|by rewrite app_nil_r].
    cbn [flagged views fmap list_fmap] in Hw. rewrite app_nil_r in Hw. exact Hw.
  - unfold write_buffers. destruct (drop_buffers _ now (buffersToWrite a)) as [[report w] d] eqn:E.
    assert (views w ++ views d = views (buffersToWrite a)) as Hv.
    { unfold drop_buffers in E. destruct (25 <? _); injection E as <- <- <-; [apply views_take_drop|by rewrite app_nil_r]. }
    exact (record_whole a (report ++ (toStringView ∘ snd <$> w)) w d _ (globalPool_ a) CLoop l Hw Hv).
Qed.

Lemma thread_output token now a :
  ∃ new, output_ (thread_step bufferSize drop_report token now a) = output_ a ++ new ∧ (writes a = false → new = []).
Proof using Type.
  unfold thread_step, writes. destruct (thread_ a) as [[| |final i|[]|]|] eqn:Ht.
  1, 6, 7: by exists []; rewrite app_nil_r.
  - exists []. rewrite app_nil_r. by destruct (token && _).
  - exists []. rewrite app_nil_r. split; [|done]. destruct (_ <? _)%nat.
    + unfold collect. destruct (shards_ a !! i); [|done]. repeat case_match; simplify_eq; done.
    + destruct final; [done|]. by destruct (buffersToWrite a).
  - exists (toStringView ∘ snd <$> buffersToWrite a). done.
  - unfold write_buffers. destruct (drop_buffers _ _ _) as [[report w] d]. exists (report ++ (toStringView ∘ snd <$> w)). done.
Qed.

Lemma thread_started token now a :
  thread_ a ≠ None → thread_ (thread_step bufferSize drop_report token now a) ≠ None.
Proof using Type.
  intros H. unfold thread_step. destruct (thread_ a) as [[| |final i|[]|]|] eqn:Ht; try done; try (by rewrite Ht).
  destruct (_ <? _)%nat; [done|]. destruct final; [done|]. by destruct (buffersToWrite a).
Qed.

(** *** The invariant of the stack *)

Hypothesis machine : machine_ok clock sys_open sys_script.
Hypothesis basename_ok : Byte.x2f ∉ basename.
Hypothesis check_ok : 0 < checkEveryN.

Abbreviation log_inv := (logfile_inv clock hostname pid).

Lemma appends_keep ls : ∀ f, log_inv f →
  ensures (foldM (logfile_append clock hostname pid sys_open sys_script) ls f)
    (λ f', log_inv f' ∧ logged f' = logged f ++ glue ls).
Proof using machine.
  clear basename_ok check_ok size_ok. induction ls as [|l ls IH]; intros f Hf; cbn [foldM].
  { cbn. by rewrite app_nil_r. }
  eapply ensures_bind; [by apply append_step|]. intros f1 (Hf1 & Hl1 & _).
  eapply ensures_mono; [by apply IH|]. intros f2 [Hf2 Hl2]. split; [done|]. rewrite Hl2, Hl1. cbn. by rewrite app_assoc.
Qed.

Lemma flush_keep f : log_inv f → flush f = Ok f.
Proof using Type.
  clear machine basename_ok check_ok size_ok. intros [(o & Ho & _) _ _ _]. unfold flush. rewrite Ho. cbn.
  destruct f, o. cbn in *. by rewrite Ho.
Qed.

Lemma new_file : ensures (newLogFile clock hostname pid sys_open sys_script basename rollSize flushInterval checkEveryN)
  (λ f, log_inv f ∧ logged f = []).
Proof using machine basename_ok check_ok.
  unfold newLogFile. rewrite bool_decide_true by done. pass_asserts. set (f0 := mkLogFile _ _ _ _ _ _ _ _ _ _ _).
  destruct (roll_ok clock hostname pid sys_open sys_script f0 machine) as (Hi & Hlog & _);
    [apply (proj1 machine 0%nat)|cbn; lia|]. cbn [ensures]. by rewrite Hlog.
Qed.

Record stack_inv (s : stack) : Prop := mkStackInv {
  si_async : async_inv bufferSize (logger s);
  si_whole : whole (logger s) (lines s);
  si_file : thread_ (logger s) = None ∧ output_ (logger s) = [] ∧ file s = None ∨
    thread_ (logger s) ≠ None ∧ ∃ f, file s = Some f ∧ log_inv f ∧ logged f = glue (output_ (logger s));
  si_lines : Forall (λ x, 0 < len x.2) (lines s);
  si_stop : ∀ i, items_of i (lines_at_stop s) `prefix_of` items_of i (lines s);
  si_mark : ∀ i m, mark_ (logger s) !! i = Some m → m = glue (items_of i (lines_at_stop s))
}.

Lemma appended_lines a l i d :
  async_inv bufferSize a → whole a l → appended_ a !! i = Some d → d = glue (items_of i l).
Proof using Type.
  clear machine basename_ok check_ok size_ok. intros Hi Hw Hd.
  assert (i < length (shards_ a))%nat as Hlt by (rewrite <- (ai_length _ _ Hi); by eapply lookup_lt_Some).
  destruct (lookup_lt_is_Some_2 _ _ Hlt) as [s Hs]. destruct (ai_shard _ _ Hi i s Hs) as [_ Ha]. rewrite Hd in Ha.
  injection Ha as ->. destruct (Hw i s Hs) as (groups & <- & Hch).
  assert (collected a i ++ pending s = glue (chunks a i s)) as ->.
  { unfold collected, pending, chunks. rewrite !join_app, !of_shard_items, <- !app_assoc. cbn. by rewrite app_nil_r. }
  rewrite Hch. symmetry. apply glue_all_of.
Qed.

(** What the thread's step does to the file. *)
Lemma stack_thread_ok token now s :
  stack_inv s → ∃ s', stack_thread token now s = Ok s' ∧
    logger s' = thread_step bufferSize drop_report token now (logger s) ∧ lines s' = lines s ∧
    lines_at_stop s' = lines_at_stop s ∧
    (thread_ (logger s') = None ∧ output_ (logger s') = [] ∧ file s' = None ∨
     thread_ (logger s') ≠ None ∧ ∃ f, file s' = Some f ∧ log_inv f ∧ logged f = glue (output_ (logger s'))).
Proof using machine.
  clear basename_ok check_ok size_ok.
  intros [H1 H2 H3 H4 H5 H6]. unfold stack_thread. destruct (thread_output token now (logger s)) as (new & Hout & Hnew).
  destruct H3 as [(Ht & Ho & Hf)|(Ht & f & Hf & Hi & Hl)].
  - assert (writes (logger s) = false) as Hw by (unfold writes; by rewrite Ht). rewrite Hw. eexists. split; [done|].
    split_and!; [done|done|done|]. left. cbn. split_and!; [|by rewrite Hout, Ho, Hnew|done].
    unfold thread_step. by rewrite Ht.
  - pose proof (thread_started token now (logger s) Ht) as Ht'. destruct (writes (logger s)).
    + rewrite Hf, Hout, drop_app_length. cbn [deref obind].
      destruct (ensures_ok _ _ (appends_keep new f Hi)) as (f' & -> & Hi' & Hl'). cbn [obind].
      rewrite flush_keep by done. cbn [obind]. eexists. split; [done|]. split_and!; [done|done|done|]. right. cbn.
      split; [done|]. exists f'. split_and!; [done|done|]. by rewrite Hl', Hl, Hout, join_app.
    + eexists. split; [done|]. split_and!; [done|done|done|]. right. cbn. split; [done|]. exists f.
      by rewrite Hout, Hnew, app_nil_r.
Qed.

Lemma thread_mark token now a : mark_ (thread_step bufferSize drop_report token now a) = mark_ a.
Proof using Type.
  unfold thread_step. destruct (thread_ a) as [[| |final i|[]|]|]; try done.
  - by destruct (token && _).
  - destruct (_ <? _)%nat.
    + unfold collect. destruct (shards_ a !! i); [|done]. repeat case_match; simplify_eq; done.
    + destruct final; [done|]. by destruct (buffersToWrite a).
  - unfold write_buffers. by destruct (drop_buffers _ _ _) as [[report w] d].
Qed.

Lemma append_same i line a woken a' :
  async_append bufferSize i line a = Ok (woken, a') →
  thread_ a' = thread_ a ∧ output_ a' = output_ a ∧ mark_ a' = mark_ a.
Proof using Type.
  unfold async_append. destruct (shards_ a !! i); [|done]. intros E.
  destruct (_ <=? _); [|repeat case_match]; apply ok_bind_inv in E as (cur & _ & E); by injection E as <- <-.
Qed.

Lemma stack_step_inv s s' : stack_inv s → stack_step s s' → stack_inv s'.
Proof using All.
  intros Hi Hstep. revert Hi. destruct Hstep as [i line s s' Hl Hlt E|s|s s' Hs Ht E|s Hs|token now s s' E]; intros Hi;
    pose proof Hi as [H1 H2 H3 H4 H5 H6].
  - unfold stack_append in E. apply ok_bind_inv in E as ([woken a] & Ea & [= <-]).
    destruct (append_same _ _ _ _ _ Ea) as (E1 & E2 & E3).
    pose proof (async_append_ok bufferSize size_ok i line (logger s) H1 ltac:(lia) Hlt) as Hok. rewrite Ea in Hok.
    split; cbn [logger file lines lines_at_stop].
    + exact Hok.
    + exact (append_whole i line (logger s) (lines s) woken a H1 H2 Hl Ea).
    + by rewrite E1, E2.
    + apply Forall_app. split; [done|]. constructor; [|done]. apply Hl.
    + intros j. rewrite items_app. by apply prefix_app_r.
    + by rewrite E3.
  - split; try done. by apply inv_release.
  - unfold stack_start in E. destruct (ensures_ok _ _ new_file) as (f & Ef & Hf & Hl). rewrite Ef in E. injection E as <-.
    pose proof (inv_start bufferSize size_ok (logger s) H1 Hs (or_introl Ht)) as Ha.
    destruct H3 as [(_ & Ho & _)|(Hn & _)]; [|done].
    assert (buffersToWrite (logger s) = []) as Hw by (apply (ai_between _ _ H1); unfold between_rounds; by rewrite Ht).
    split; cbn [logger file lines lines_at_stop]; [exact Ha| | |done|done|].
    + intros i t Hi'. unfold async_start in Hi' |- *. rewrite Hs in Hi' |- *. cbn in Hi'. destruct (H2 i t Hi') as (g & Hg & Hch).
      exists g. split; [done|]. rewrite <- Hch. unfold chunks. cbn. by rewrite Hw.
    + right. unfold async_start. rewrite Hs. cbn. split; [done|]. exists f. by rewrite Hl, Ho.
    + unfold async_start. rewrite Hs. exact H6.
  - unfold stack_stop. pose proof (inv_stop bufferSize (logger s) H1 Hs) as Ha.
    split; cbn [logger file lines lines_at_stop]; [exact Ha| | |done|done|].
    + unfold async_stop. rewrite Hs. exact H2.
    + unfold async_stop. rewrite Hs. exact H3.
    + intros i m. unfold async_stop. rewrite Hs. cbn. by apply appended_lines.
  - destruct (stack_thread_ok token now s Hi) as (s1 & E1 & Ea & El & Em & Hf). rewrite E in E1. injection E1 as <-.
    split; rewrite ?Ea, ?El, ?Em; [|by apply thread_whole|by rewrite <- Ea|done|done|by rewrite thread_mark].
    by apply thread_step_ok.
Qed.

Lemma stack_reachable_inv s : stack_reachable s → stack_inv s.
Proof using All.
  induction 1 as [hw n _ _|s s' _ IH Hstep]; [|by eapply stack_step_inv].
  pose proof (inv_new bufferSize size_ok hw n) as Ha. split; cbn [newStack logger file lines lines_at_stop]; try done.
  - intros i t [-> Hi]%lookup_replicate. exists [[]]. split; [done|].
    unfold chunks. cbn [history_ buffersToWrite newAsyncLogging currentBuffer buffers].
    pose proof (view_empty bufferSize (newFixed bufferSize) (fresh_ok bufferSize size_ok) eq_refl) as ->. done.
  - by left.
  - by intros i m [-> _]%lookup_replicate.
Qed.

(** Lines are not empty, so a list of lines is known by its bytes. *)
Lemma prefix_lines (l k t : list bytes) :
  Forall (λ x, 0 < len x) t → l `prefix_of` t → k `prefix_of` t → glue k `prefix_of` glue l → k `prefix_of` l.
Proof using Type.
  clear machine basename_ok check_ok size_ok. intros Ht Hl Hk Hb.
  destruct (prefix_weak_total _ _ _ Hl Hk) as [[x Hx]|]; [|done]. subst k. rewrite join_app in Hb. apply prefix_length in Hb.
  destruct x as [|y x]; [by rewrite app_nil_r|]. destruct Hk as [z ->]. rewrite !Forall_app in Ht.
  destruct Ht as [[_ Ht] _]. apply Forall_cons in Ht as [Hy _]. rewrite length_app in Hb. cbn in Hb. rewrite length_app in Hb.
  unfold len in Hy. lia.
Qed.

(** C35. A log holds the lines. Whatever the threads append, whenever the thread
    wakes up, however short or interrupted the writes are, and whenever files
    are rolled: no step of the logging thread fails, and the files in their
    order hold exactly what was handed to [LogFile::append]. If no round had
    to drop buffers, that is a sequence of whole lines, in which the lines of
    every shard are in the order they were appended in, from the first on and
    without a gap; and when the thread has ended, it has all lines that were
    appended before [stop()]. *)
Theorem log_stack_keeps_lines s :
  stack_reachable s →
  (∀ token now, ∃ s', stack_thread token now s = Ok s') ∧
  (∀ f, file s = Some f → logged f = glue (output_ (logger s)) ∧
    (Forall (λ h, h.2 = true) (history_ (logger s)) →
     ∃ merged : list (nat * bytes), logged f = glue merged.*2 ∧
       (∀ i, (i < length (shards_ (logger s)))%nat → items_of i merged `prefix_of` items_of i (lines s)) ∧
       (thread_ (logger s) = Some CDone → ∀ i, (i < length (shards_ (logger s)))%nat → is_Some (mark_ (logger s) !! i) →
          items_of i (lines_at_stop s) `prefix_of` items_of i merged))).
Proof using All.
  intros Hr. pose proof (stack_reachable_inv s Hr) as Hi. pose proof Hi as [H1 H2 H3 H4 H5 H6]. split.
  { intros token now. destruct (stack_thread_ok token now s Hi) as (s' & E & _). by exists s'. }
  intros f Hf. destruct H3 as [(_ & _ & ?)|(_ & f' & Hf' & _ & Hl)]; [congruence|]. rewrite Hf in Hf'. injection Hf' as <-.
  split; [done|]. intros Hd. pose proof (ai_output _ _ H1 Hd) as Ho. set (a := logger s) in *.
  destruct (merge_groups (history_ a).*1 (λ i l, (i < length (shards_ a))%nat →
    l `prefix_of` items_of i (lines s) ∧ glue l = glue (items_of i (history_ a).*1))) as (merged & Hm & Hmi).
  { intros i. destruct (decide (i < length (shards_ a))%nat) as [Hlt|Hge].
    - destruct (lookup_lt_is_Some_2 _ _ Hlt) as [t Ht]. destruct (H2 i t Ht) as (groups & Hg & Hch).
      unfold chunks in Hch. symmetry in Hch. apply fmap_app_inv in Hch as (g & gr & E1 & E2 & ->).
      exists g. split; [done|]. intros _. rewrite <- Hg, join_app. split; [by apply prefix_app_r|].
      rewrite E1. apply glue_all_of.
    - exists ((λ x, [x]) <$> items_of i (history_ a).*1). split; [|done]. rewrite <- list_fmap_compose.
      rewrite <- (list_fmap_id (items_of i (history_ a).*1)) at 1. apply list_fmap_ext. intros k x _. cbn. by rewrite app_nil_r. }
  exists merged. split; [|split].
  - rewrite Hl, Ho, Hm. f_equal. apply list_fmap_compose.
  - intros i Hlt. by apply Hmi.
  - intros Ht i Hlt [m Hmk]. destruct (Hmi i Hlt) as [Hp Hb]. apply (prefix_lines _ _ (items_of i (lines s))); [|done|apply H5|].
    + unfold items_of. apply Forall_fmap, Forall_forall. intros x Hx. apply list_elem_of_filter in Hx as [_ Hx].
      rewrite Forall_forall in H4. by apply H4.
    + pose proof (H6 i m Hmk) as Em. rewrite <- Em, Hb. destruct (ai_mark _ _ H1 i m Hmk) as (d & _ & _ & Hsw).
      unfold swept in Hsw. fold a in Hsw. rewrite Ht in Hsw. specialize (Hsw I). unfold collected in Hsw.
      rewrite (ai_between _ _ H1) in Hsw by (unfold between_rounds; fold a; by rewrite Ht).
      change (of_shard i (views [])) with (@nil byte) in Hsw. by rewrite app_nil_r in Hsw.
Qed.
End Stack.

(** ** The theorem at a concrete input *)

Inductive sample_op := SAppend (i : nat) (line : bytes) | SStart | SStop | SThread.

(** Buffers of eight bytes; a thread that always gets the semaphore. *)
Definition sample_exec (s : stack) (o : sample_op) : stack :=
  match o with
  | SAppend i line => if stack_append 8 i line s is Ok s' then s' else s
  | SStart => if stack_start 8 sample_clock (str "host") 42 sample_log_open sample_log_script (str "app") 5 3 1024 s is Ok s' then s' else s
  | SStop => stack_stop s
  | SThread => if stack_thread 8 no_report sample_clock (str "host") 42 sample_log_open sample_log_script true 0 s is Ok s' then s' else s
  end.
Definition sample_legal (s : stack) (o : sample_op) : bool :=
  match o with
  | SAppend i line => (0 <? len line) && (len line <=? 8) && (i <? length (shards_ (logger s)))%nat
  | SStart => negb (started_ (logger s)) && (if thread_ (logger s) is None then true else false)
  | SStop => started_ (logger s)
  | SThread => true
  end.
Fixpoint sample_run (s : stack) (l : list sample_op) : bool * stack :=
  match l with
  | [] => (true, s)
  | o :: l => if sample_legal s o then sample_run (sample_exec s o) l else (false, s)
  end.

Abbreviation sample_reachable :=
  (stack_reachable 8 no_report sample_clock (str "host") 42 sample_log_open sample_log_script (str "app") 5 3 1024).

Lemma sample_stack_run_reachable l : ∀ s, sample_reachable s → (sample_run s l).1 = true → sample_reachable (sample_run s l).2.
Proof.
  induction l as [|o l IH]; intros s Hs H; [done|]. cbn [sample_run] in *. destruct (sample_legal s o) eqn:Hl; [|done].
  apply IH; [|done]. destruct o as [i line| | |]; cbn [sample_exec sample_legal] in *.
  - apply andb_true_iff in Hl as [[Hl1%Z.ltb_lt Hl2%Z.leb_le]%andb_true_iff Hl3%Nat.ltb_lt].
    destruct (stack_append 8 i line s) eqn:E; [|done]. eapply sr_step; [exact Hs|]. by eapply st_append.
  - apply andb_true_iff in Hl as [Hl1%negb_true_iff Hl2]. destruct (thread_ (logger s)) eqn:Et; [done|].
    destruct (stack_start _ _ _ _ _ _ _ _ _ _ s) eqn:E; [|done]. eapply sr_step; [exact Hs|]. by eapply st_start.
  - eapply sr_step; [exact Hs|]. by apply st_stop.
  - destruct (stack_thread _ _ _ _ _ _ _ _ _ s) eqn:E; [|done]. eapply sr_step; [exact Hs|]. by eapply st_thread.
Qed.

Definition sample_script : list sample_op :=
  [SAppend 0 (str "abc"); SStart; SAppend 0 (str "def"); SAppend 1 (str "xy"); SAppend 0 (str "ghi")] ++
  replicate 8 SThread ++ [SAppend 1 (str "z"); SStop; SAppend 1 (str "late")] ++ replicate 12 SThread.
Definition sample_log : stack := (sample_run (newStack 8 0 2) sample_script).2.

Lemma log_stack_keeps_lines_witness :
  thread_ (logger sample_log) = Some CDone ∧ ∃ f merged, file sample_log = Some f ∧ logged f = glue merged.*2 ∧
    items_of 0 (lines_at_stop sample_log) `prefix_of` items_of 0 merged.
Proof.
  assert (thread_ (logger sample_log) = Some CDone) as Ht by (vm_compute; reflexivity). split; [exact Ht|].
  assert (sample_reachable sample_log) as Hr.
  { apply sample_stack_run_reachable; [by apply sr_new|]. vm_compute. reflexivity. }
  destruct (file sample_log) as [f|] eqn:Ef; [|vm_compute in Ef; discriminate].
  destruct (log_stack_keeps_lines 8 no_report sample_clock (str "host") 42 sample_log_open sample_log_script (str "app") 5 3 1024
    ltac:(lia) sample_machine ltac:(by apply (bool_decide_unpack _)) ltac:(lia) sample_log Hr) as [_ H].
  destruct (H f Ef) as [_ H2]. destruct H2 as (merged & Hm & _ & Hstop); [vm_compute; repeat constructor|].
  exists f, merged. split; [reflexivity|]. split; [exact Hm|]. apply (Hstop Ht 0%nat); vm_compute; [lia|by eexists].
Defined.

(** The files of that run. *)
Example sample_files : (λ o, got_ (o_disk o)) <$> default [] (outputs <$> file sample_log) =
  [str "abcdef"; str "ghixyzlate"; []].
Proof. vm_compute. reflexivity. Qed.
