(* ===== verification/BlockingQueue.v ===== *)
(** * BlockingQueue and BoundedBlockingQueue
    ([muduo/base/BlockingQueue.h], [BoundedBlockingQueue.h])

    The queues as monitors. A state holds the queue and, of the threads inside
    its operations, how many are at each point: about to enter a critical
    section, asleep on a condition variable, or past the critical section with
    a [notify_one] left to do. An operation is one critical section; a waiting
    thread that is woken, by a notification, a stop request or spuriously,
    enters again and tests the predicate again, as [wait] with a predicate
    does. What was put and what was taken is kept for the theorems. *)
From S2P Require Import Prelude.
From stdpp Require Import options.

Module BlockingQueue.
Section BlockingQueue.
Context {T : Type}.

(* src/muduo/base/BlockingQueue.h:96-98 BlockingQueue *)
Record BlockingQueue := mkQueue {
  queue_ : list T;
  takers_ : nat;       (* in take(), about to test the predicate *)
  waiting_ : nat;      (* asleep on notEmpty_ *)
  notifying_ : nat;    (* about to call notEmpty_.notify_one() *)
  put_ : list T;       (* history *)
  taken_ : list T
}.

Definition newQueue : BlockingQueue := mkQueue [] 0 0 0 [] [].

(* src/muduo/base/BlockingQueue.h:22-46 BlockingQueue::put, emplace *)
Definition put (x : T) (q : BlockingQueue) : BlockingQueue :=
  mkQueue (queue_ q ++ [x]) (takers_ q) (waiting_ q) (S (notifying_ q)) (put_ q ++ [x]) (taken_ q).

(** [take()] begins. *)
Definition enter (q : BlockingQueue) : BlockingQueue :=
  mkQueue (queue_ q) (S (takers_ q)) (waiting_ q) (notifying_ q) (put_ q) (taken_ q).

(** One test of the predicate under the mutex; [stopped] says whether a stop
    is requested, which [take()] never sees. *)
(* src/muduo/base/BlockingQueue.h:48-66 BlockingQueue::take *)
Definition take_locked (stopped : bool) (q : BlockingQueue) : option T * BlockingQueue :=
  match queue_ q with
  | x :: rest => (Some x, mkQueue rest (pred (takers_ q)) (waiting_ q) (notifying_ q) (put_ q) (taken_ q ++ [x]))
  | [] =>
    if stopped then (None, mkQueue [] (pred (takers_ q)) (waiting_ q) (notifying_ q) (put_ q) (taken_ q))
    else (None, mkQueue [] (pred (takers_ q)) (S (waiting_ q)) (notifying_ q) (put_ q) (taken_ q))
  end.

(* src/muduo/base/BlockingQueue.h:68-76 BlockingQueue::try_take *)
Definition try_take (q : BlockingQueue) : option T * BlockingQueue :=
  match queue_ q with
  | x :: rest => (Some x, mkQueue rest (takers_ q) (waiting_ q) (notifying_ q) (put_ q) (taken_ q ++ [x]))
  | [] => (None, q)
  end.

(* src/muduo/base/BlockingQueue.h:78-83 BlockingQueue::drain *)
Definition drain (q : BlockingQueue) : list T * BlockingQueue :=
  (queue_ q, mkQueue [] (takers_ q) (waiting_ q) (notifying_ q) (put_ q) (taken_ q ++ queue_ q)).

(* src/muduo/base/BlockingQueue.h:85-88 BlockingQueue::size *)
Definition size (q : BlockingQueue) : nat := length (queue_ q).

(* src/muduo/base/BlockingQueue.h:90-93 BlockingQueue::empty *)
Definition empty (q : BlockingQueue) : bool := match queue_ q with [] => true | _ => false end.

(** [wake] takes one thread off the condition variable, if there is one. *)
Definition wake (q : BlockingQueue) : BlockingQueue :=
  match waiting_ q with
  | O => q
  | S n => mkQueue (queue_ q) (S (takers_ q)) n (notifying_ q) (put_ q) (taken_ q)
  end.
Definition notify_one (q : BlockingQueue) : BlockingQueue :=
  wake (mkQueue (queue_ q) (takers_ q) (waiting_ q) (pred (notifying_ q)) (put_ q) (taken_ q)).

Inductive step : BlockingQueue → BlockingQueue → Prop :=
| step_put x q : step q (put x q)
| step_enter q : step q (enter q)
| step_take stopped q : (0 < takers_ q)%nat → step q (take_locked stopped q).2
| step_try_take q : step q (try_take q).2
| step_drain q : step q (drain q).2
| step_notify q : (0 < notifying_ q)%nat → step q (notify_one q)
| step_wake q : step q (wake q).

Inductive reachable : BlockingQueue → Prop :=
| reach_new : reachable newQueue
| reach_step q q' : reachable q → step q q' → reachable q'.

(** Elements leave in the order they came, and as long as a thread sleeps
    there are enough others awake, or notifications on their way, for the
    elements in the queue: no wake-up is lost. *)
Lemma queue_keeps q :
  reachable q →
  put_ q = taken_ q ++ queue_ q ∧
  ((0 < waiting_ q)%nat → (length (queue_ q) ≤ notifying_ q + takers_ q)%nat).
Proof.
  induction 1 as [|q q' _ [IH1 IH2] Hstep]; [split; [done|cbn; lia]|]. revert IH1 IH2.
  destruct Hstep as [x q|q|stopped q Ht|q|q|q Hn|q]; intros IH1 IH2.
  - split; cbn; [by rewrite IH1, app_assoc|]. rewrite length_app. cbn. lia.
  - split; cbn; [done|lia].
  - unfold take_locked. destruct (queue_ q) as [|x rest] eqn:Eq; [destruct stopped|]; split; cbn; try done; try lia.
    + by rewrite IH1, <- app_assoc.
    + cbn in IH2. lia.
  - unfold try_take. destruct (queue_ q) as [|x rest] eqn:Eq; cbn; [rewrite Eq; by split|].
    split; [by rewrite IH1, <- app_assoc|]. cbn in IH2. lia.
  - split; cbn; [by rewrite app_nil_r|lia].
  - unfold notify_one, wake. cbn. destruct (waiting_ q); cbn; (split; [done|]); lia.
  - unfold wake. destruct (waiting_ q) eqn:Ew; [rewrite Ew; by split|]. cbn. split; [done|lia].
Qed.
End BlockingQueue.
End BlockingQueue.

Module BoundedBlockingQueue.
Section BoundedBlockingQueue.
Context {T : Type}.

(* src/muduo/base/BoundedBlockingQueue.h:109-112 BoundedBlockingQueue *)
Record BoundedBlockingQueue := mkQueue {
  queue_ : list T;
  maxSize_ : nat;
  takers_ : nat;            (* in take(), about to test the predicate *)
  waiting_takers_ : nat;    (* asleep on notEmpty_ *)
  notifying_empty_ : nat;   (* about to call notEmpty_.notify_one() *)
  putters_ : list T;        (* in put(), about to test the predicate, with their elements *)
  waiting_putters_ : list T; (* asleep on notFull_ *)
  notifying_full_ : nat;    (* about to call notFull_.notify_one() *)
  put_ : list T;            (* history *)
  taken_ : list T
}.

(* src/muduo/base/BoundedBlockingQueue.h:21-26 BoundedBlockingQueue::BoundedBlockingQueue *)
Definition newQueue (maxSize : Z) : option BoundedBlockingQueue :=
  if maxSize <=? 0 then None                         (* throws std::invalid_argument *)
  else Some (mkQueue [] (Z.to_nat maxSize) 0 0 0 [] [] 0 [] []).

(** [put()] begins. *)
Definition enter_put (x : T) (q : BoundedBlockingQueue) : BoundedBlockingQueue :=
  mkQueue (queue_ q) (maxSize_ q) (takers_ q) (waiting_takers_ q) (notifying_empty_ q) (putters_ q ++ [x])
    (waiting_putters_ q) (notifying_full_ q) (put_ q) (taken_ q).

(** The [i]-th of the threads in [put()] tests the predicate. *)
(* src/muduo/base/BoundedBlockingQueue.h:28-52 BoundedBlockingQueue::put, emplace *)
Definition put_locked (i : nat) (q : BoundedBlockingQueue) : BoundedBlockingQueue :=
  match putters_ q !! i with
  | None => q
  | Some x =>
    if (length (queue_ q) <? maxSize_ q)%nat then
      mkQueue (queue_ q ++ [x]) (maxSize_ q) (takers_ q) (waiting_takers_ q) (S (notifying_empty_ q))
        (delete i (putters_ q)) (waiting_putters_ q) (notifying_full_ q) (put_ q ++ [x]) (taken_ q)
    else
      mkQueue (queue_ q) (maxSize_ q) (takers_ q) (waiting_takers_ q) (notifying_empty_ q)
        (delete i (putters_ q)) (waiting_putters_ q ++ [x]) (notifying_full_ q) (put_ q) (taken_ q)
  end.

(** [take()] begins. *)
Definition enter_take (q : BoundedBlockingQueue) : BoundedBlockingQueue :=
  mkQueue (queue_ q) (maxSize_ q) (S (takers_ q)) (waiting_takers_ q) (notifying_empty_ q) (putters_ q)
    (waiting_putters_ q) (notifying_full_ q) (put_ q) (taken_ q).

(** The element taken from the front, with a notification left to do. *)
Definition pop (takers : nat) (x : T) (rest : list T) (q : BoundedBlockingQueue) : BoundedBlockingQueue :=
  mkQueue rest (maxSize_ q) takers (waiting_takers_ q) (notifying_empty_ q) (putters_ q)
    (waiting_putters_ q) (S (notifying_full_ q)) (put_ q) (taken_ q ++ [x]).

(* src/muduo/base/BoundedBlockingQueue.h:54-75 BoundedBlockingQueue::take *)
Definition take_locked (stopped : bool) (q : BoundedBlockingQueue) : option T * BoundedBlockingQueue :=
  match queue_ q with
  | x :: rest => (Some x, pop (pred (takers_ q)) x rest q)
  | [] =>
    (None, mkQueue [] (maxSize_ q) (pred (takers_ q)) (if stopped then waiting_takers_ q else S (waiting_takers_ q))
       (notifying_empty_ q) (putters_ q) (waiting_putters_ q) (notifying_full_ q) (put_ q) (taken_ q))
  end.

(** It notifies before it unlocks; the thread it wakes needs the mutex, so the
    notification may as well come after. *)
(* src/muduo/base/BoundedBlockingQueue.h:77-86 BoundedBlockingQueue::try_take *)
Definition try_take (q : BoundedBlockingQueue) : option T * BoundedBlockingQueue :=
  match queue_ q with
  | x :: rest => (Some x, pop (takers_ q) x rest q)
  | [] => (None, q)
  end.

(* src/muduo/base/BoundedBlockingQueue.h:88-91 BoundedBlockingQueue::empty *)
Definition empty (q : BoundedBlockingQueue) : bool := match queue_ q with [] => true | _ => false end.

(* src/muduo/base/BoundedBlockingQueue.h:93-96 BoundedBlockingQueue::full *)
Definition full (q : BoundedBlockingQueue) : bool := (length (queue_ q) =? maxSize_ q)%nat.

(* src/muduo/base/BoundedBlockingQueue.h:98-101 BoundedBlockingQueue::size *)
Definition size (q : BoundedBlockingQueue) : nat := length (queue_ q).

(* src/muduo/base/BoundedBlockingQueue.h:103-105 BoundedBlockingQueue::capacity *)
Definition capacity (q : BoundedBlockingQueue) : nat := maxSize_ q.

(** Threads come off the condition variables. *)
Definition wake_taker (q : BoundedBlockingQueue) : BoundedBlockingQueue :=
  match waiting_takers_ q with
  | O => q
  | S n => mkQueue (queue_ q) (maxSize_ q) (S (takers_ q)) n (notifying_empty_ q) (putters_ q)
             (waiting_putters_ q) (notifying_full_ q) (put_ q) (taken_ q)
  end.
Definition wake_putter (i : nat) (q : BoundedBlockingQueue) : BoundedBlockingQueue :=
  match waiting_putters_ q !! i with
  | None => q
  | Some x => mkQueue (queue_ q) (maxSize_ q) (takers_ q) (waiting_takers_ q) (notifying_empty_ q) (putters_ q ++ [x])
                (delete i (waiting_putters_ q)) (notifying_full_ q) (put_ q) (taken_ q)
  end.
Definition notify_empty (q : BoundedBlockingQueue) : BoundedBlockingQueue :=
  wake_taker (mkQueue (queue_ q) (maxSize_ q) (takers_ q) (waiting_takers_ q) (pred (notifying_empty_ q)) (putters_ q)
    (waiting_putters_ q) (notifying_full_ q) (put_ q) (taken_ q)).
Definition notify_full (i : nat) (q : BoundedBlockingQueue) : BoundedBlockingQueue :=
  wake_putter i (mkQueue (queue_ q) (maxSize_ q) (takers_ q) (waiting_takers_ q) (notifying_empty_ q) (putters_ q)
    (waiting_putters_ q) (pred (notifying_full_ q)) (put_ q) (taken_ q)).

(** [notify_one] wakes some waiting thread when there is one. *)
Inductive step : BoundedBlockingQueue → BoundedBlockingQueue → Prop :=
| step_enter_put x q : step q (enter_put x q)
| step_put i q : (i < length (putters_ q))%nat → step q (put_locked i q)
| step_enter_take q : step q (enter_take q)
| step_take stopped q : (0 < takers_ q)%nat → step q (take_locked stopped q).2
| step_try_take q : step q (try_take q).2
| step_notify_empty q : (0 < notifying_empty_ q)%nat → step q (notify_empty q)
| step_notify_full i q :
    (0 < notifying_full_ q)%nat → (i < length (waiting_putters_ q))%nat ∨ waiting_putters_ q = [] →
    step q (notify_full i q)
| step_wake_taker q : step q (wake_taker q)
| step_wake_putter i q : step q (wake_putter i q).

Inductive reachable (maxSize : Z) : BoundedBlockingQueue → Prop :=
| reach_new q : newQueue maxSize = Some q → reachable maxSize q
| reach_step q q' : reachable maxSize q → step q q' → reachable maxSize q'.

Record inv (n : nat) (q : BoundedBlockingQueue) : Prop := mkInv {
  i_max : maxSize_ q = n;
  i_fifo : put_ q = taken_ q ++ queue_ q;
  i_bound : (length (queue_ q) ≤ n)%nat;
  i_takers : (0 < waiting_takers_ q)%nat → (length (queue_ q) ≤ notifying_empty_ q + takers_ q)%nat;
  i_putters : waiting_putters_ q ≠ [] → (n ≤ length (queue_ q) + notifying_full_ q + length (putters_ q))%nat
}.

Lemma length_delete_lookup {A} (l : list A) i x : l !! i = Some x → length l = S (length (delete i l)).
Proof. intros H. apply delete_Permutation in H. by rewrite H at 1. Qed.

Lemma pop_ok n k x rest q :
  inv n q → queue_ q = x :: rest → (takers_ q ≤ S k)%nat → inv n (pop k x rest q).
Proof.
  intros [H1 H2 H3 H4 H5] Hq Hk. rewrite Hq in *. cbn in H3, H4, H5. split; cbn; try done; try lia.
  - by rewrite H2, <- app_assoc.
  - intros Hw. specialize (H5 Hw). lia.
Qed.

Lemma put_locked_ok n i q : inv n q → inv n (put_locked i q).
Proof.
  intros Hi. unfold put_locked. destruct (putters_ q !! i) as [x|] eqn:Ex; [|done].
  pose proof (length_delete_lookup _ _ _ Ex) as Hl. destruct Hi as [H1 H2 H3 H4 H5].
  destruct (Nat.ltb_spec (length (queue_ q)) (maxSize_ q)); split; cbn; try rewrite length_app; cbn; try done; try lia.
  - by rewrite H2, app_assoc.
  - intros Hw. specialize (H5 Hw). lia.
Qed.

Lemma wake_taker_ok n q : inv n q → inv n (wake_taker q).
Proof.
  intros [H1 H2 H3 H4 H5]. unfold wake_taker. destruct (waiting_takers_ q) eqn:E; [|split; cbn; try done; lia].
  split; try done. rewrite E. lia.
Qed.

Lemma wake_putter_ok n i q : inv n q → inv n (wake_putter i q).
Proof.
  intros [H1 H2 H3 H4 H5]. unfold wake_putter. destruct (waiting_putters_ q !! i) as [x|] eqn:E; [|by split].
  split; cbn; try done. rewrite length_app. cbn. intros _. enough (waiting_putters_ q ≠ []) as Hw by (specialize (H5 Hw); lia).
  intros Hnil. by rewrite Hnil in E.
Qed.

Lemma bounded_step_ok n q q' : inv n q → step q q' → inv n q'.
Proof.
  intros Hi Hs. revert Hi. destruct Hs as [x q|i q Hx|q|stopped q Ht|q|q Hn|i q Hn Hw|q|i q]; intros Hi.
  - destruct Hi as [H1 H2 H3 H4 H5]. split; cbn; try done. rewrite length_app. intros Hw. specialize (H5 Hw). lia.
  - by apply put_locked_ok.
  - destruct Hi as [H1 H2 H3 H4 H5]. split; cbn; try done. lia.
  - unfold take_locked. destruct (queue_ q) as [|x rest] eqn:Eq; [|by apply pop_ok; [| |lia]].
    destruct Hi as [H1 H2 H3 H4 H5]. rewrite Eq in *. split; cbn in *; try done; lia.
  - unfold try_take. destruct (queue_ q) as [|x rest] eqn:Eq; [done|]. by apply pop_ok; [| |lia].
  - destruct Hi as [H1 H2 H3 H4 H5]. unfold notify_empty, wake_taker. cbn.
    destruct (waiting_takers_ q) eqn:E; split; cbn; try done; lia.
  - destruct Hi as [H1 H2 H3 H4 H5]. unfold notify_full, wake_putter. cbn. destruct Hw as [Hw|Hw].
    + destruct (lookup_lt_is_Some_2 _ _ Hw) as [x E]. rewrite E. split; cbn; try done. rewrite length_app. cbn. intros _.
      enough (waiting_putters_ q ≠ []) as Hw' by (specialize (H5 Hw'); lia). intros Hnil. by rewrite Hnil in E.
    + rewrite Hw. by split.
  - by apply wake_taker_ok.
  - by apply wake_putter_ok.
Qed.

Lemma bounded_reachable_inv maxSize q : reachable maxSize q → inv (Z.to_nat maxSize) q ∧ 0 < maxSize.
Proof.
  induction 1 as [q Hq|q q' _ [IH Hm] Hs]; [|split; [by eapply bounded_step_ok|done]].
  unfold newQueue in Hq. destruct (Z.leb_spec maxSize 0); [done|]. injection Hq as <-.
  split; [|done]. split; cbn; try done; lia.
Qed.

(** A bounded queue under any number of threads. Elements leave in the
    order they came and none is lost; the queue never holds more than its
    capacity, which is positive. Sleepers are not forgotten: while a thread
    sleeps in [take], the elements in the queue are all spoken for by threads
    awake or notifications on their way, and while one sleeps in [put], so are
    the free places. So when nobody is awake and no notification is due,
    whoever sleeps has reason to, takers and putters do not sleep at the same
    time, and the queue is not dead-locked. *)
Theorem bounded_queue_keeps maxSize q :
  reachable maxSize q →
  put_ q = taken_ q ++ queue_ q ∧
  Z.of_nat (length (queue_ q)) ≤ maxSize ∧
  ((0 < waiting_takers_ q)%nat → (length (queue_ q) ≤ notifying_empty_ q + takers_ q)%nat) ∧
  (waiting_putters_ q ≠ [] → (capacity q - length (queue_ q) ≤ notifying_full_ q + length (putters_ q))%nat) ∧
  (takers_ q = 0%nat → putters_ q = [] → notifying_empty_ q = 0%nat → notifying_full_ q = 0%nat →
   ((0 < waiting_takers_ q)%nat → empty q = true ∧ waiting_putters_ q = []) ∧
   (waiting_putters_ q ≠ [] → full q = true ∧ waiting_takers_ q = 0%nat)).
Proof.
  intros Hr. destruct (bounded_reachable_inv maxSize q Hr) as [[H1 H2 H3 H4 H5] Hm]. split_and!; try done; try lia.
  - unfold capacity. intros Hw. specialize (H5 Hw). lia.
  - intros Ht Hp He Hf. assert (waiting_putters_ q ≠ [] → length (queue_ q) = maxSize_ q) as Hfull.
    { intros Hw. specialize (H5 Hw). rewrite Hp in H5. cbn in H5. lia. }
    split.
    + intros Hw. specialize (H4 Hw). unfold empty. destruct (queue_ q) as [|x l]; [|cbn in H4; lia]. split; [done|].
      destruct (waiting_putters_ q); [done|]. specialize (Hfull ltac:(done)). cbn in Hfull. lia.
    + intros Hw. specialize (Hfull Hw). unfold full. split; [by apply Nat.eqb_eq|].
      destruct (waiting_takers_ q); [done|]. specialize (H4 ltac:(lia)). lia.
Qed.
End BoundedBlockingQueue.

(** A queue of one place: a taker sleeps, two putters come, the first wakes
    the taker and the second sleeps until it has taken. *)
Definition sample_queue : BoundedBlockingQueue (T := Z) :=
  (take_locked false (notify_empty (put_locked 0 (put_locked 0 (enter_put 8 (enter_put 7
    (take_locked false (enter_take (mkQueue [] 1 0 0 0 [] [] 0 [] []))).2)))))).2.

Lemma sample_queue_reachable : reachable 1 sample_queue.
Proof.
  eapply reach_step; [|apply step_take; cbn; lia]. eapply reach_step; [|apply step_notify_empty; cbn; lia].
  eapply reach_step; [|apply step_put; cbn; lia]. eapply reach_step; [|apply step_put; cbn; lia].
  eapply reach_step; [|apply step_enter_put]. eapply reach_step; [|apply step_enter_put].
  eapply reach_step; [|apply step_take; cbn; lia]. eapply reach_step; [|apply step_enter_take].
  by apply reach_new.
Qed.

Lemma bounded_queue_keeps_witness :
  taken_ sample_queue = [7] ∧ waiting_putters_ sample_queue = [8] ∧
  put_ sample_queue = taken_ sample_queue ++ queue_ sample_queue ∧ Z.of_nat (length (queue_ sample_queue)) ≤ 1 ∧
  (capacity sample_queue - length (queue_ sample_queue) ≤
   notifying_full_ sample_queue + length (putters_ sample_queue))%nat.
Proof.
  destruct (bounded_queue_keeps 1 sample_queue sample_queue_reachable) as (H1 & H2 & _ & H4 & _).
  split; [done|]. split; [done|]. split; [exact H1|]. split; [exact H2|]. by apply H4.
Defined.
End BoundedBlockingQueue.
