(* ===== verification/ThreadPool.v ===== *)
(** * ThreadPool ([muduo/base/ThreadPool.h], [ThreadPool.cc])

    Every worker has a queue and a semaphore; tasks are dealt out in turn, a
    worker takes from the front of its own queue and steals from the back of
    another's. The state is what the threads share, with the position of each
    worker thread, of each call of [enqueueTask] in flight and of [stop()]; a
    step is one critical section or one access to an atomic or a semaphore.
    The semaphores are counters. What happened to every task is kept for the
    theorems. *)
From S2P Require Import Prelude.
From stdpp Require Import options.

(** A task, or an empty function object. *)
Definition task : Type := Z.
Definition Task : Type := option task.

(* src/muduo/base/ThreadPool.h:83-87 ThreadPool::WorkerState *)
Record WorkerState := mkWorker { queue : list task; signal : Z }.

(** Where a worker thread is. *)
Inductive worker_pc :=
| WInit                    (* before threadInitCallback_ *)
| WTest                    (* while (isRunning()) *)
| WPop                     (* popSharded: its own queue *)
| WLoad                    (* queuedTasks_ == 0 ? *)
| WSteal (i : nat)         (* the i-th victim *)
| WRun (t : task)
| WWait                    (* signal.acquire() *)
| WFinished.

(** Where a call of [enqueueTask] is. *)
Inductive producer_pc :=
| PEnter (t : task)        (* if (!isRunning()) *)
| PAdd (t : task)          (* waitingProducers_.fetch_add *)
| PAcquire (t : task)      (* queueSlots_->acquire() *)
| PSub (t : task)          (* waitingProducers_.fetch_sub *)
| PCheck (t : task)        (* if (!isRunning()) *)
| PPush (t : task)         (* enqueueSharded *)
| PCount (i : nat) (wake : bool)   (* queuedTasks_.fetch_add *)
| PRelease (i : nat).      (* worker->signal.release() *)

#[global] Instance producer_pc_eq_dec : EqDecision producer_pc.
Proof. solve_decision. Defined.

(** Where [stop()] is. *)
Inductive stop_pc := SIdle | SProducers | SSlots (waiting : Z) | SSignal (i : nat) | SJoin.

(** What became of the tasks, and how often [threadInitCallback_] was called. *)
Record History := mkHistory {
  given : list task;       (* to run() and submit() *)
  accepted : list task;    (* put in a queue *)
  begun : list task;       (* taken from a queue and run *)
  ran_inline : list task;  (* run by the caller *)
  refused : list task;     (* not run, not queued *)
  discarded : list task;   (* still queued when stop() cleared the queues *)
  inits : nat
}.
Definition h_given t h := mkHistory (given h ++ [t]) (accepted h) (begun h) (ran_inline h) (refused h) (discarded h) (inits h).
Definition h_accept t h := mkHistory (given h) (accepted h ++ [t]) (begun h) (ran_inline h) (refused h) (discarded h) (inits h).
Definition h_begin t h := mkHistory (given h) (accepted h) (begun h ++ [t]) (ran_inline h) (refused h) (discarded h) (inits h).
Definition h_inline t h := mkHistory (given h) (accepted h) (begun h) (ran_inline h ++ [t]) (refused h) (discarded h) (inits h).
Definition h_refuse t h := mkHistory (given h) (accepted h) (begun h) (ran_inline h) (refused h ++ [t]) (discarded h) (inits h).
Definition h_discard l h := mkHistory (given h) (accepted h) (begun h) (ran_inline h) (refused h) (discarded h ++ l) (inits h).
Definition h_init n h := mkHistory (given h) (accepted h) (begun h) (ran_inline h) (refused h) (discarded h) (inits h + n).

(* src/muduo/base/ThreadPool.h:98-108 ThreadPool *)
Record ThreadPool := mkPool {
  running_ : bool;
  started_ : bool;
  maxQueueSize_ : Z;
  workers_ : list WorkerState;
  threads_ : list worker_pc;
  nextWorker_ : Z;
  queuedTasks_ : Z;
  waitingProducers_ : Z;
  queueSlots_ : option Z;
  producers : list producer_pc;
  stopping : stop_pc;
  history : History
}.

Section Setters.
Context (a : ThreadPool).
Definition set_workers (w : list WorkerState) := mkPool (running_ a) (started_ a) (maxQueueSize_ a) w (threads_ a)
  (nextWorker_ a) (queuedTasks_ a) (waitingProducers_ a) (queueSlots_ a) (producers a) (stopping a) (history a).
Definition set_threads (p : list worker_pc) := mkPool (running_ a) (started_ a) (maxQueueSize_ a) (workers_ a) p
  (nextWorker_ a) (queuedTasks_ a) (waitingProducers_ a) (queueSlots_ a) (producers a) (stopping a) (history a).
Definition set_counters (next queued waiting : Z) (slots : option Z) := mkPool (running_ a) (started_ a) (maxQueueSize_ a)
  (workers_ a) (threads_ a) next queued waiting slots (producers a) (stopping a) (history a).
Definition set_producers (p : list producer_pc) := mkPool (running_ a) (started_ a) (maxQueueSize_ a) (workers_ a)
  (threads_ a) (nextWorker_ a) (queuedTasks_ a) (waitingProducers_ a) (queueSlots_ a) p (stopping a) (history a).
Definition set_stopping (r : bool) (s : stop_pc) := mkPool r (started_ a) (maxQueueSize_ a) (workers_ a) (threads_ a)
  (nextWorker_ a) (queuedTasks_ a) (waitingProducers_ a) (queueSlots_ a) (producers a) s (history a).
Definition set_max (n : Z) := mkPool (running_ a) (started_ a) n (workers_ a) (threads_ a) (nextWorker_ a)
  (queuedTasks_ a) (waitingProducers_ a) (queueSlots_ a) (producers a) (stopping a) (history a).
Definition remember (f : History → History) := mkPool (running_ a) (started_ a) (maxQueueSize_ a)
  (workers_ a) (threads_ a) (nextWorker_ a) (queuedTasks_ a) (waitingProducers_ a) (queueSlots_ a) (producers a)
  (stopping a) (f (history a)).
End Setters.

Section ThreadPool.
(** Whether a [threadInitCallback_] is set. *)
Context (has_init : bool).

(* src/muduo/base/ThreadPool.cc:11-11 ThreadPool::ThreadPool *)
Definition newPool : ThreadPool :=
  mkPool false false 0 [] [] 0 0 0 None [] SIdle (mkHistory [] [] [] [] [] [] 0).

(* src/muduo/base/ThreadPool.cc:19-55 ThreadPool::start *)
Definition pool_start (numThreads : nat) (a : ThreadPool) : ThreadPool :=
  if running_ a then a
  else
    mkPool true true (maxQueueSize_ a) (replicate numThreads (mkWorker [] 0)) (replicate numThreads WInit) 0 0 0
      (if 0 <? maxQueueSize_ a then Some (maxQueueSize_ a) else None) (producers a) SIdle
      (h_init (if (numThreads =? 0)%nat && has_init then 1 else 0) (history a)).

(** The beginning of [stop()]; the rest follows in [stop_step]. *)
(* src/muduo/base/ThreadPool.cc:57-62 ThreadPool::stop *)
Definition pool_stop (a : ThreadPool) : ThreadPool :=
  if running_ a then set_stopping a false SProducers else a.

(* src/muduo/base/ThreadPool.cc:70-70 ThreadPool::stop *)
Definition signal_worker (i : nat) (a : ThreadPool) : ThreadPool :=
  set_workers a (alter (λ w, mkWorker (queue w) (signal w + 1)) i (workers_ a)).

(** [thread->join()] waits for the threads; the workers then go with the tasks
    they still hold. *)
(* src/muduo/base/ThreadPool.cc:63-79 ThreadPool::stop *)
Definition stop_step (a : ThreadPool) : ThreadPool :=
  match stopping a with
  | SIdle => a
  | SProducers =>
      match queueSlots_ a with
      | Some slots => set_stopping (set_counters a (nextWorker_ a) (queuedTasks_ a) 0 (Some slots)) false
                        (SSlots (waitingProducers_ a))
      | None => set_stopping a false (SSignal 0)
      end
  | SSlots waiting =>
      set_stopping (if 0 <? waiting
                    then set_counters a (nextWorker_ a) (queuedTasks_ a) (waitingProducers_ a)
                           ((λ s, s + waiting) <$> queueSlots_ a)
                    else a) false (SSignal 0)
  | SSignal i =>
      if (i <? length (workers_ a))%nat then set_stopping (signal_worker i a) false (SSignal (S i))
      else set_stopping a false SJoin
  | SJoin =>
      if forallb (λ p, match p with WFinished => true | _ => false end) (threads_ a) then
        set_stopping
          (set_counters (set_threads (set_workers (remember a (h_discard (mjoin (queue <$> workers_ a)))) []) [])
             (nextWorker_ a) 0 (waitingProducers_ a) None) false SIdle
      else a
  end.

(* src/muduo/base/ThreadPool.cc:81-86 ThreadPool::setMaxQueueSize *)
Definition setMaxQueueSize (maxSize : Z) (a : ThreadPool) : ThreadPool :=
  if running_ a then a else set_max a (if 0 <? maxSize then maxSize else 0).

(* src/muduo/base/ThreadPool.cc:88-90 ThreadPool::queueSize *)
Definition queueSize (a : ThreadPool) : Z := queuedTasks_ a.

(** A task run by the caller, and a task nobody runs. *)
Definition call_inline (t : task) (a : ThreadPool) : ThreadPool := remember a (h_inline t).
Definition drop_task (t : task) (a : ThreadPool) : ThreadPool := remember a (h_refuse t).
Definition enqueue_begins (t : task) (a : ThreadPool) : ThreadPool := set_producers a (producers a ++ [PEnter t]).

(* src/muduo/base/ThreadPool.cc:92-107 ThreadPool::run *)
Definition run (f : Task) (a : ThreadPool) : ThreadPool :=
  match f with
  | None => a
  | Some t =>
    let a := remember a (h_given t) in
    if negb (running_ a) then if negb (started_ a) then call_inline t a else drop_task t a
    else match threads_ a with [] => call_inline t a | _ => enqueue_begins t a end
  end.

(** The task is the wrapper that fulfils the promise. *)
(* src/muduo/base/ThreadPool.h:54-80 ThreadPool::submit *)
Definition submit (t : task) (a : ThreadPool) : ThreadPool :=
  let a := remember a (h_given t) in
  match threads_ a with
  | [] => call_inline t a
  | _ => if negb (running_ a) then call_inline t a else enqueue_begins t a
  end.

(** The under-the-lock part: the index, whether the worker has to be woken,
    and the queue with the task. *)
(* src/muduo/base/ThreadPool.cc:126-139 ThreadPool::enqueueSharded *)
Definition enqueueSharded (t : task) (a : ThreadPool) : option (nat * bool) * ThreadPool :=
  match workers_ a with
  | [] => (None, drop_task t a)
  | _ =>
    let index := Z.to_nat (nextWorker_ a mod len (workers_ a)) in
    let a := set_counters a (size_t (nextWorker_ a + 1)) (queuedTasks_ a) (waitingProducers_ a) (queueSlots_ a) in
    match workers_ a !! index with
    | None => (None, a)
    | Some w =>
      (Some (index, match queue w with [] => true | _ => false end),
       remember (set_workers a (<[index := mkWorker (queue w ++ [t]) (signal w)]> (workers_ a))) (h_accept t))
    end
  end.

Definition release_slot (a : ThreadPool) : ThreadPool :=
  set_counters a (nextWorker_ a) (queuedTasks_ a) (waitingProducers_ a) ((λ s, s + 1) <$> queueSlots_ a).

(** One step of a call of [enqueueTask]: where the call is afterwards, [None]
    when it has returned. A call that blocks makes no step. *)
(* src/muduo/base/ThreadPool.cc:109-144 ThreadPool::enqueueTask, enqueueSharded *)
Definition producer_step (p : producer_pc) (a : ThreadPool) : option (option producer_pc * ThreadPool) :=
  match p with
  | PEnter t =>
      Some (if running_ a then (Some (match queueSlots_ a with Some _ => PAdd t | None => PPush t end), a)
            else (None, drop_task t a))
  | PAdd t => Some (Some (PAcquire t),
      set_counters a (nextWorker_ a) (queuedTasks_ a) (swrap 32 (waitingProducers_ a + 1)) (queueSlots_ a))
  | PAcquire t =>
      match queueSlots_ a with
      | Some s => if 0 <? s
                  then Some (Some (PSub t), set_counters a (nextWorker_ a) (queuedTasks_ a) (waitingProducers_ a) (Some (s - 1)))
                  else None
      | None => None
      end
  | PSub t => Some (Some (PCheck t),
      set_counters a (nextWorker_ a) (queuedTasks_ a) (swrap 32 (waitingProducers_ a - 1)) (queueSlots_ a))
  | PCheck t => Some (if running_ a then (Some (PPush t), a) else (None, drop_task t (release_slot a)))
  | PPush t =>
      let '(r, a) := enqueueSharded t a in
      Some (match r with Some (i, wake) => Some (PCount i wake) | None => None end, a)
  | PCount i wake => Some (if wake then Some (PRelease i) else None,
      set_counters a (nextWorker_ a) (size_t (queuedTasks_ a + 1)) (waitingProducers_ a) (queueSlots_ a))
  | PRelease i => Some (None, signal_worker i a)
  end.

(** The task leaves the queue, and its place is free. *)
Definition popped (i : nat) (w : WorkerState) (t : task) (a : ThreadPool) : ThreadPool :=
  remember (release_slot (set_counters (set_workers a (<[i := w]> (workers_ a)))
    (nextWorker_ a) (size_t (queuedTasks_ a - 1)) (waitingProducers_ a) (queueSlots_ a))) (h_begin t).

(* src/muduo/base/ThreadPool.cc:151-164 ThreadPool::popSharded, popOwn *)
Definition popOwn (i : nat) (a : ThreadPool) : option (task * ThreadPool) :=
  match workers_ a !! i with
  | Some w => match queue w with
              | t :: rest => Some (t, popped i (mkWorker rest (signal w)) t a)
              | [] => None
              end
  | None => None
  end.

(** [owns]: the lock was free. *)
(* src/muduo/base/ThreadPool.cc:174-191 ThreadPool::popSharded, stealing *)
Definition steal (owns : bool) (i : nat) (a : ThreadPool) : option (task * ThreadPool) :=
  match workers_ a !! i with
  | Some w => if owns then
                match last (queue w) with
                | Some t => Some (t, popped i (mkWorker (removelast (queue w)) (signal w)) t a)
                | None => None
                end
              else None
  | None => None
  end.

(** One step of the [i]-th worker thread; a thread that blocks makes none. *)
(* src/muduo/base/ThreadPool.cc:146-216 ThreadPool::popSharded, runInThread *)
Definition worker_step (i : nat) (owns : bool) (p : worker_pc) (a : ThreadPool) : option (worker_pc * ThreadPool) :=
  match p with
  | WInit => Some (WTest, remember a (h_init (if has_init then 1 else 0)))
  | WTest => Some (if running_ a then WPop else WFinished, a)
  | WPop => Some (match popOwn i a with Some (t, a') => (WRun t, a') | None => (WLoad, a) end)
  | WLoad => Some (if queuedTasks_ a =? 0 then WWait else WSteal 1, a)
  | WSteal k =>
      Some (if (k <? length (workers_ a))%nat then
              match steal owns ((i + k) mod length (workers_ a)) a with
              | Some (t, a') => (WRun t, a')
              | None => (WSteal (S k), a)
              end
            else (WWait, a))
  | WRun _ => Some (WTest, a)
  | WWait =>
      match workers_ a !! i with
      | Some w => if 0 <? signal w
                  then Some (WTest, set_workers a (<[i := mkWorker (queue w) (signal w - 1)]> (workers_ a)))
                  else None
      | None => None
      end
  | WFinished => None
  end.

(** ** All threads together *)

Definition update {A} (i : nat) (r : option A) (l : list A) : list A :=
  match r with Some x => <[i := x]> l | None => delete i l end.

(** A pool is started again, and the queues are cleared, only when no call is
    in flight; the lemmas at the end of the file say what happens otherwise. *)
Inductive step : ThreadPool → ThreadPool → Prop :=
| step_start n a : producers a = [] → stopping a = SIdle → step a (pool_start n a)
| step_stop a : step a (pool_stop a)
| step_stopping a : (stopping a = SJoin → producers a = []) → step a (stop_step a)
| step_max n a : step a (setMaxQueueSize n a)
| step_run f a : step a (run f a)
| step_submit t a : step a (submit t a)
| step_producer i p r a a' :
    producers a !! i = Some p → producer_step p a = Some (r, a') →
    step a (set_producers a' (update i r (producers a)))
| step_worker i owns p p' a a' :
    threads_ a !! i = Some p → worker_step i owns p a = Some (p', a') →
    step a (set_threads a' (<[i := p']> (threads_ a))).

Inductive reachable : ThreadPool → Prop :=
| reach_new : reachable newPool
| reach_step a a' : reachable a → step a a' → reachable a'.

(** The tasks in the queues, and the task a call of [enqueueTask] still has. *)
Definition queued (ws : list WorkerState) : list task := mjoin (queue <$> ws).
Definition holds (p : producer_pc) : list task :=
  match p with
  | PEnter t | PAdd t | PAcquire t | PSub t | PCheck t | PPush t => [t]
  | PCount _ _ | PRelease _ => []
  end.
Definition in_flight (a : ThreadPool) : list task := mjoin (holds <$> producers a).

(** The calls that have acquired a slot and not used it. *)
Definition has_slot (p : producer_pc) : list unit := match p with PSub _ | PCheck _ | PPush _ => [tt] | _ => [] end.
Definition slots_held (l : list producer_pc) : Z := len (mjoin (has_slot <$> l)).

#[local] Arguments queued : simpl never.
#[local] Arguments slots_held : simpl never.

(** The thread has found its own queue empty since it last took a task or a
    signal. *)
Definition past (p : worker_pc) : bool := match p with WLoad | WSteal _ | WWait => true | _ => false end.
Definition waker (i : nat) (l : list producer_pc) : Prop := PCount i true ∈ l ∨ PRelease i ∈ l.

Record pool_inv (a : ThreadPool) : Prop := mkPoolInv {
  pi_length : length (threads_ a) = length (workers_ a);
  pi_given : given (history a) ≡ₚ
    ran_inline (history a) ++ refused (history a) ++ accepted (history a) ++ in_flight a;
  pi_accepted : accepted (history a) ≡ₚ begun (history a) ++ queued (workers_ a) ++ discarded (history a);
  pi_slots : running_ a = true → stopping a = SIdle ∧
    match queueSlots_ a with
    | Some s => 0 ≤ s ∧ s + len (queued (workers_ a)) + slots_held (producers a) = maxQueueSize_ a
    | None => maxQueueSize_ a = 0
    end;
  pi_max : 0 ≤ maxQueueSize_ a;
  pi_busy : running_ a = true → workers_ a = [] → producers a = [];
  pi_signal i w : workers_ a !! i = Some w → 0 ≤ signal w;
  pi_stopped : running_ a = false → stopping a = SIdle → workers_ a = [];
  pi_wake i w p : workers_ a !! i = Some w → threads_ a !! i = Some p → queue w ≠ [] → past p = true →
    0 < signal w ∨ waker i (producers a)
}.

(** *** Replacing one element of a list *)

Lemma join_update {A B} (f : A → list B) (l : list A) i x r :
  l !! i = Some x →
  mjoin (f <$> update i r l) ++ f x ≡ₚ mjoin (f <$> l) ++ match r with Some y => f y | None => [] end.
Proof using Type.
  intros Hx. rewrite <- (take_drop_middle l i x Hx) at 2. pose proof (lookup_lt_Some _ _ _ Hx) as Hlt.
  unfold update. destruct r as [y|].
  - rewrite insert_take_drop by done. rewrite !fmap_app, !join_app. cbn. solve_Permutation.
  - rewrite delete_take_drop, !fmap_app, !join_app. cbn. rewrite app_nil_r. solve_Permutation.
Qed.

Lemma update_elem {A} (l : list A) i x y r : l !! i = Some x → y ∈ l → y ≠ x → y ∈ update i r l.
Proof using Type.
  intros Hx Hy Hne. unfold update. destruct r as [z|].
  - apply list_elem_of_lookup in Hy as [k Hk]. apply list_elem_of_lookup. exists k.
    rewrite list_lookup_insert_ne; [done|]. intros ->. congruence.
  - rewrite (delete_Permutation _ _ _ Hx) in Hy. apply elem_of_cons in Hy as [?|?]; done.
Qed.

Lemma update_new {A} (l : list A) i x y : l !! i = Some x → y ∈ update i (Some y) l.
Proof using Type.
  intros Hx. apply list_elem_of_lookup. exists i. apply list_lookup_insert_eq. by eapply lookup_lt_Some.
Qed.

Lemma queued_insert ws i w w' :
  ws !! i = Some w → queued (<[i := w']> ws) ++ queue w ≡ₚ queued ws ++ queue w'.
Proof using Type. intros Hw. exact (join_update queue ws i w (Some w') Hw). Qed.

Lemma queue_alter (f : WorkerState → WorkerState) (i : nat) (ws : list WorkerState) :
  (∀ w, queue (f w) = queue w) → queue <$> alter f i ws = queue <$> ws.
Proof using Type.
  intros Hf. revert i. induction ws as [|w ws IH]; intros [|i]; cbn; try done; f_equal; [apply Hf|apply IH].
Qed.

(** *** The steps keep the invariant *)

Lemma waker_update l i p r j : l !! i = Some p → waker j l → p ≠ PCount j true → p ≠ PRelease j → waker j (update i r l).
Proof using Type. intros Hp [H|H] H1 H2; [left|right]; by eapply update_elem. Qed.

(** Only the calls in flight change: what the step has to show. *)
Lemma inv_flight a a' i p r :
  pool_inv a → producers a !! i = Some p →
  workers_ a' = workers_ a → threads_ a' = threads_ a → running_ a' = running_ a → stopping a' = stopping a →
  maxQueueSize_ a' = maxQueueSize_ a →
  accepted (history a') = accepted (history a) → begun (history a') = begun (history a) →
  discarded (history a') = discarded (history a) → given (history a') = given (history a) →
  ran_inline (history a') = ran_inline (history a) →
  holds p ++ refused (history a) ≡ₚ match r with Some x => holds x | None => [] end ++ refused (history a') →
  (running_ a = true →
   match queueSlots_ a, queueSlots_ a' with
   | Some s, Some s' => 0 ≤ s' ∧ s' + len (match r with Some x => has_slot x | None => [] end) = s + len (has_slot p)
   | None, None => True
   | _, _ => False
   end) →
  (∀ j, p = PCount j true → r = Some (PRelease j)) → (∀ j, p ≠ PRelease j) →
  pool_inv (set_producers a' (update i r (producers a))).
Proof using Type.
  intros [H1 H2 H3 H4 H5 Hb Hsig H6 H7] Hp Ew Et Er Es Em Ea Eb Ed Eg Ei Hr Hslots Hw1 Hw2.
  pose proof (join_update holds (producers a) i p r Hp) as Hf.
  pose proof (join_update has_slot (producers a) i p r Hp) as Hs.
  apply Permutation_length in Hs. rewrite !length_app in Hs.
  split; unfold in_flight in *; cbn; rewrite ?Ew, ?Et, ?Er, ?Es, ?Em, ?Ea, ?Eb, ?Ed, ?Eg, ?Ei; try done.
  - rewrite H2. apply (Permutation_app_inv_r (holds p)).
    transitivity (ran_inline (history a) ++ (holds p ++ refused (history a)) ++ accepted (history a) ++ mjoin (holds <$> producers a));
      [solve_Permutation|]. rewrite Hr.
    transitivity (ran_inline (history a) ++ refused (history a') ++ accepted (history a) ++
      (mjoin (holds <$> producers a) ++ match r with Some x => holds x | None => [] end)); [solve_Permutation|].
    rewrite <- Hf. solve_Permutation.
  - intros Hrun. destruct (H4 Hrun) as [Hst Hq]. specialize (Hslots Hrun). split; [done|].
    destruct (queueSlots_ a), (queueSlots_ a'); try done. unfold slots_held, len in *. lia.
  - intros Hrun Hw. rewrite (Hb Hrun Hw) in Hp. done.
  - intros j w q Hj Ht Hq Hpast. destruct (H7 j w q Hj Ht Hq Hpast) as [?|Hwk]; [by left|]. right.
    destruct (decide (p = PCount j true)) as [->|Hne].
    + rewrite (Hw1 j eq_refl). right. by eapply update_new.
    + by eapply waker_update.
Qed.

(** One worker's queue changes. *)
Lemma lookup_insert_case {A} (l : list A) i j x y :
  <[i := x]> l !! j = Some y → (i = j ∧ y = x ∧ (i < length l)%nat) ∨ (i ≠ j ∧ l !! j = Some y).
Proof using Type.
  intros H. destruct (decide (i = j)) as [<-|Hne].
  - left. pose proof (lookup_lt_Some _ _ _ H) as Hlt. rewrite length_insert in Hlt.
    rewrite list_lookup_insert_eq in H by done. injection H as <-. done.
  - right. rewrite list_lookup_insert_ne in H by done. done.
Qed.

Lemma insert_not_nil {A} (l : list A) i x : <[i := x]> l = [] → l = [].
Proof using Type. intros H. apply (f_equal length) in H. rewrite length_insert in H. by destruct l. Qed.

Lemma inv_popped a i w w' t :
  pool_inv a → workers_ a !! i = Some w → queue w ≡ₚ t :: queue w' → signal w' = signal w → pool_inv (popped i w' t a).
Proof using Type.
  intros [H1 H2 H3 H4 H5 Hb Hsig H6 H7] Hw Hq Hs. pose proof (queued_insert _ _ _ w' Hw) as Hperm.
  assert (queued (workers_ a) ≡ₚ t :: queued (<[i := w']> (workers_ a))) as Hperm'.
  { apply (Permutation_app_inv_r (queue w')). rewrite <- Hperm, Hq. solve_Permutation. }
  split; cbn; try done.
  - by rewrite length_insert.
  - rewrite H3, Hperm'. solve_Permutation.
  - intros Hrun. destruct (H4 Hrun) as [Hst Hsl]. split; [done|]. apply Permutation_length in Hperm'.
    destruct (queueSlots_ a); cbn; [|done]. unfold len in *. cbn [length] in Hperm'. rewrite Hperm' in Hsl. lia.
  - intros Hrun Hnil. apply (Hb Hrun). by eapply insert_not_nil.
  - intros j x [(<- & -> & _)|[_ Hj]]%lookup_insert_case; [rewrite Hs|]; by eapply Hsig.
  - intros Hrun Hst. rewrite (H6 Hrun Hst) in Hw. done.
  - intros j x p [(<- & -> & _)|[_ Hj]]%lookup_insert_case Ht Hne Hpast; [|by eapply H7].
    rewrite Hs. eapply H7; [done..| |done]. intros Hnil. rewrite Hnil in Hq. by apply Permutation_nil_cons in Hq.
Qed.

Lemma pool_inv_thread a i p p' :
  pool_inv a → threads_ a !! i = Some p →
  (∀ w, workers_ a !! i = Some w → past p' = true → past p = true ∨ queue w = []) →
  pool_inv (set_threads a (<[i := p']> (threads_ a))).
Proof using Type.
  intros [H1 H2 H3 H4 H5 Hb Hsig H6 H7] Hp Hpast. split; cbn; try done.
  - by rewrite length_insert.
  - intros j x q Hj [(<- & -> & _)|[_ Ht]]%lookup_insert_case Hne Hq; [|by eapply H7].
    destruct (Hpast x Hj Hq) as [?|?]; [by eapply H7|done].
Qed.

Lemma inv_acquire a i w :
  pool_inv a → workers_ a !! i = Some w → 0 < signal w → (∀ p, threads_ a !! i = Some p → past p = false) →
  pool_inv (set_workers a (<[i := mkWorker (queue w) (signal w - 1)]> (workers_ a))).
Proof using Type.
  intros [H1 H2 H3 H4 H5 Hb Hsig H6 H7] Hw Hpos Hp.
  pose proof (queued_insert _ _ _ (mkWorker (queue w) (signal w - 1)) Hw) as Hperm.
  apply Permutation_app_inv_r in Hperm.
  split; cbn; try done.
  - by rewrite length_insert.
  - by rewrite H3, Hperm.
  - intros Hrun. destruct (H4 Hrun) as [Hst Hsl]. split; [done|]. unfold len in *. by rewrite (Permutation_length Hperm).
  - intros Hrun Hnil. apply (Hb Hrun). by eapply insert_not_nil.
  - intros j x [(<- & -> & _)|[_ Hj]]%lookup_insert_case; [cbn; lia|by eapply Hsig].
  - intros Hrun Hst. rewrite (H6 Hrun Hst) in Hw. done.
  - intros j x q [(<- & -> & _)|[_ Hj]]%lookup_insert_case Ht Hne Hpast; [|by eapply H7].
    by rewrite (Hp q Ht) in Hpast.
Qed.

Lemma inv_init n a : pool_inv a → pool_inv (remember a (h_init n)).
Proof using Type. intros [H1 H2 H3 H4 H5 Hb Hsig H6 H7]. by split. Qed.

Lemma last_perm {A} (l : list A) x : last l = Some x → l ≡ₚ x :: removelast l.
Proof using Type.
  destruct l as [|y l] using rev_ind; [done|]. rewrite last_snoc, removelast_last. intros [= ->]. solve_Permutation.
Qed.

Lemma popped_keeps i w t a : threads_ (popped i w t a) = threads_ a.
Proof using Type. done. Qed.

(** Taking a task puts the thread at running it. *)
Lemma inv_run a i j p w w' t :
  pool_inv a → threads_ a !! i = Some p → workers_ a !! j = Some w → queue w ≡ₚ t :: queue w' → signal w' = signal w →
  pool_inv (set_threads (popped j w' t a) (<[i := WRun t]> (threads_ a))).
Proof using Type.
  intros Hi Hp Hw Hq Hs. pose proof (inv_popped a j w w' t Hi Hw Hq Hs) as Hi'.
  by apply (pool_inv_thread (popped j w' t a) i p (WRun t)).
Qed.

Lemma worker_step_ok a i owns p p' a' :
  pool_inv a → threads_ a !! i = Some p → worker_step i owns p a = Some (p', a') →
  pool_inv (set_threads a' (<[i := p']> (threads_ a))).
Proof using Type.
  intros Hi Hp. destruct p as [| | | |k|t| |]; cbn [worker_step]; try done.
  - intros [= <- <-]. apply (pool_inv_thread (remember a (h_init _)) i WInit WTest); [by apply inv_init|done|done].
  - intros [= <- <-]. eapply pool_inv_thread; [done..|]. by destruct (running_ a).
  - unfold popOwn. destruct (workers_ a !! i) as [w|] eqn:Ew; [destruct (queue w) as [|t rest] eqn:Eq|]; intros [= <- <-].
    + eapply pool_inv_thread; [done..|]. intros x Hx _. right. congruence.
    + eapply inv_run; [done..|by rewrite Eq|done].
    + eapply pool_inv_thread; [done..|]. intros x Hx _. congruence.
  - intros [= <- <-]. eapply pool_inv_thread; [done..|]. by left.
  - destruct (k <? length (workers_ a))%nat; [|intros [= <- <-]; eapply pool_inv_thread; [done..|]; by left].
    unfold steal. set (j := ((i + k) mod length (workers_ a))%nat). destruct (workers_ a !! j) as [w|] eqn:Ew; [destruct owns; [destruct (last (queue w)) as [t|] eqn:El|]|];
      intros [= <- <-]; try (eapply pool_inv_thread; [done..|by left]).
    eapply inv_run; [done..| |done]. by apply last_perm.
  - intros [= <- <-]. by eapply pool_inv_thread.
  - destruct (workers_ a !! i) as [w|] eqn:Ew; [|done]. destruct (Z.ltb_spec 0 (signal w)) as [Hpos|]; [|done].
    intros [= <- <-]. pose proof (pool_inv_thread a i WWait WTest Hi Hp) as Ht.
    refine (inv_acquire (set_threads a (<[i := WTest]> (threads_ a))) i w _ Ew Hpos _); [by apply Ht|].
    cbn. intros q [(_ & -> & _)|[? _]]%lookup_insert_case; done.
Qed.

(** A signal is released. *)
Lemma inv_signal a a' i l :
  pool_inv a → a' = set_producers (signal_worker i a) l →
  in_flight (set_producers a l) ≡ₚ in_flight a → slots_held l = slots_held (producers a) →
  (producers a = [] → l = []) →
  (∀ j, waker j (producers a) → j = i ∨ waker j l) → pool_inv a'.
Proof using Type.
  intros [H1 H2 H3 H4 H5 Hb Hsig H6 H7] -> Hf Hs Hnil Hw.
  set (f := λ w, mkWorker (queue w) (signal w + 1)).
  assert (queue <$> alter f i (workers_ a) = queue <$> workers_ a) as Hq by (by apply queue_alter).
  assert (queued (alter f i (workers_ a)) = queued (workers_ a)) as Hq' by (unfold queued; by rewrite Hq).
  assert (∀ j x, alter f i (workers_ a) !! j = Some x → ∃ y, workers_ a !! j = Some y ∧ queue x = queue y ∧
    signal x = signal y + if decide (i = j) then 1 else 0) as Hal.
  { intros j x. destruct (decide (i = j)) as [<-|Hne].
    - rewrite list_lookup_alter_eq. destruct (workers_ a !! i) as [y|] eqn:Ey; cbn; [|done]. intros [= <-]. by exists y.
    - rewrite list_lookup_alter_ne by done. intros Hj. exists x. split; [done|]. split; [done|]. lia. }
  split; cbn; unfold f in *; rewrite ?Hq'; try done.
  - by rewrite length_alter.
  - change (in_flight _) with (in_flight (set_producers a l)). by rewrite Hf.
  - by rewrite Hs.
  - intros Hrun Ha. apply Hnil, (Hb Hrun). apply (f_equal length) in Ha. rewrite length_alter in Ha. by destruct (workers_ a).
  - intros j x (y & Hy & _ & ->)%Hal. specialize (Hsig j y Hy). destruct (decide _); lia.
  - intros Hrun Hst. by rewrite (H6 Hrun Hst).
  - intros j x p (y & Hy & Hqe & ->)%Hal Ht Hne Hpast. rewrite Hqe in Hne. pose proof (Hsig j y Hy).
    destruct (decide (i = j)) as [<-|Hij]; [left; lia|].
    destruct (H7 j y p Hy Ht Hne Hpast) as [?|Hwk]; [left; lia|]. right. by destruct (Hw j Hwk) as [->|?].
Qed.

Lemma pool_inv_push a k t r a' :
  pool_inv a → producers a !! k = Some (PPush t) → enqueueSharded t a = (r, a') →
  pool_inv (set_producers a' (update k (match r with Some (i, wake) => Some (PCount i wake) | None => None end) (producers a))).
Proof using Type.
  intros Hi Hp. unfold enqueueSharded. destruct (workers_ a) as [|w0 ws0] eqn:Ew.
  { intros [= <- <-]. eapply inv_flight; try done; cbn; [solve_Permutation|].
    intros Hrun. by rewrite (pi_busy a Hi Hrun Ew) in Hp. }
  rewrite <- Ew. set (i := Z.to_nat (nextWorker_ a mod len (workers_ a))).
  assert (is_Some (workers_ a !! i)) as [w Hw].
  { apply lookup_lt_is_Some_2. unfold i. assert (0 < len (workers_ a)) as H0 by (rewrite Ew; unfold len; cbn; lia).
    pose proof (Z.mod_pos_bound (nextWorker_ a) (len (workers_ a)) H0). unfold len in *. lia. }
  cbv zeta. cbn [workers_ set_counters]. rewrite Hw. intros [= <- <-]. clear Ew w0 ws0.
  destruct Hi as [H1 H2 H3 H4 H5 Hb Hsig H6 H7].
  set (w' := mkWorker (queue w ++ [t]) (signal w)). set (wake := match queue w with [] => true | _ => false end).
  pose proof (queued_insert _ _ _ w' Hw) as Hperm. cbn [queue w'] in Hperm.
  assert (queued (<[i := w']> (workers_ a)) ≡ₚ t :: queued (workers_ a)) as Hperm'.
  { apply (Permutation_app_inv_r (queue w)). rewrite Hperm. solve_Permutation. }
  pose proof (join_update holds (producers a) k _ (Some (PCount i wake)) Hp) as Hf.
  pose proof (join_update has_slot (producers a) k _ (Some (PCount i wake)) Hp) as Hs.
  apply Permutation_length in Hs. rewrite !length_app in Hs. cbn [has_slot holds length] in Hf, Hs.
  split; cbn; fold w'; try done.
  - by rewrite length_insert.
  - rewrite H2. unfold in_flight in *. cbn [producers set_producers update] in *. rewrite app_nil_r in Hf. rewrite <- Hf. solve_Permutation.
  - rewrite H3, Hperm'. solve_Permutation.
  - intros Hrun. destruct (H4 Hrun) as [Hst Hsl]. split; [done|]. apply Permutation_length in Hperm'.
    destruct (queueSlots_ a); cbn; [|done]. unfold slots_held, len in *. cbn [length update] in *. rewrite Hperm'. lia.
  - intros Hrun Hnil%insert_not_nil. by rewrite (Hb Hrun Hnil) in Hp.
  - intros j x [(<- & -> & _)|[_ Hj]]%lookup_insert_case; [by apply (Hsig i w)|by eapply Hsig].
  - intros Hrun Hst. rewrite (H6 Hrun Hst) in Hw. done.
  - intros j x p [(<- & -> & _)|[_ Hj]]%lookup_insert_case Ht Hne Hpast.
    + destruct (queue w) as [|y q] eqn:Eq.
      * right. left. by eapply (update_new _ k).
      * destruct (H7 i w p Hw Ht) as [?|Hwk]; [by rewrite Eq|done|by left|right].
        by apply (waker_update _ _ _ (Some (PCount i wake)) _ Hp).
    + destruct (H7 j x p Hj Ht Hne Hpast) as [?|Hwk]; [by left|right].
      by apply (waker_update _ _ _ (Some (PCount i wake)) _ Hp).
Qed.

Lemma producer_step_ok a i p r a' :
  pool_inv a → producers a !! i = Some p → producer_step p a = Some (r, a') →
  pool_inv (set_producers a' (update i r (producers a))).
Proof using Type.
  intros Hi Hp. destruct p as [t|t|t|t|t|t|j wake|j]; cbn [producer_step].
  - destruct (running_ a) eqn:Er; intros [= <- <-]; eapply inv_flight; try done; cbn; rewrite ?Er; try done.
    + by destruct (queueSlots_ a).
    + intros _. pose proof (pi_slots a Hi Er) as [_ Hs]. destruct (queueSlots_ a) as [s|]; [|done]. unfold len. cbn. lia.
    + solve_Permutation.
  - intros [= <- <-]. eapply inv_flight; try done. cbn. intros Hrun. pose proof (pi_slots a Hi Hrun) as [_ Hs].
    destruct (queueSlots_ a); [|done]. unfold len. cbn. lia.
  - destruct (queueSlots_ a) as [s|] eqn:Es; [|done]. destruct (Z.ltb_spec 0 s); [|done].
    intros [= <- <-]. eapply inv_flight; try done. cbn. intros _. rewrite Es. unfold len. cbn. lia.
  - intros [= <- <-]. eapply inv_flight; try done. cbn. intros Hrun. pose proof (pi_slots a Hi Hrun) as [_ Hs].
    destruct (queueSlots_ a); [|done]. unfold len. cbn. lia.
  - destruct (running_ a) eqn:Er; intros [= <- <-]; eapply inv_flight; try done; cbn; rewrite ?Er; try done.
    + intros _. pose proof (pi_slots a Hi Er) as [_ Hs]. destruct (queueSlots_ a); [|done]. unfold len. cbn. lia.
    + solve_Permutation.
  - destruct (enqueueSharded t a) as [q b] eqn:E. intros [= <- <-]. by eapply pool_inv_push.
  - intros [= <- <-]. eapply inv_flight; try done; cbn.
    + by destruct wake.
    + intros Hrun. pose proof (pi_slots a Hi Hrun) as [_ Hs]. destruct (queueSlots_ a); [|done]. unfold len. destruct wake; cbn; lia.
    + by intros k [= -> ->].
  - intros [= <- <-]. eapply (inv_signal a _ j (delete i (producers a))); [done|done| | | |].
    + pose proof (join_update holds (producers a) i _ None Hp) as Hf. cbn in Hf. rewrite !app_nil_r in Hf. exact Hf.
    + pose proof (join_update has_slot (producers a) i _ None Hp) as Hs. cbn in Hs. rewrite !app_nil_r in Hs.
      unfold slots_held, len. by rewrite (Permutation_length Hs).
    + intros Hn. by rewrite Hn in Hp.
    + intros k Hk. destruct (decide (k = j)) as [->|Hne]; [by left|right].
      apply (waker_update _ _ _ None _ Hp Hk); [done|]. intros [= ->]. done.
Qed.

Lemma queued_new n : queued (replicate n (mkWorker [] 0)) = [].
Proof using Type. unfold queued. by induction n as [|n IH]. Qed.

Lemma pool_start_ok n a : pool_inv a → producers a = [] → stopping a = SIdle → pool_inv (pool_start n a).
Proof using Type.
  intros Hi Hp Hst. unfold pool_start. destruct (running_ a) eqn:Er; [done|].
  destruct Hi as [H1 H2 H3 H4 H5 Hb Hsig H6 H7]. unfold in_flight in *. rewrite Hp in *.
  pose proof (queued_new n) as Hq. rewrite (H6 Er Hst) in H3.
  split; unfold in_flight; cbn; rewrite ?Hq; try done.
  - by rewrite !length_replicate.
  - intros _. split; [done|]. destruct (Z.ltb_spec 0 (maxQueueSize_ a)); [|lia]. unfold slots_held, len. cbn. lia.
  - by intros j w [-> _]%lookup_replicate.
  - by intros j w p [-> _]%lookup_replicate.
Qed.

(** Only [running_], the position of [stop()] and the counters change. *)
Lemma inv_stopping a s next q waiting slots :
  pool_inv a → s ≠ SIdle → pool_inv (set_stopping (set_counters a next q waiting slots) false s).
Proof using Type. intros [H1 H2 H3 H4 H5 Hb Hsig H6 H7] Hs. by split. Qed.

Lemma inv_stopping_only a s : pool_inv a → s ≠ SIdle → pool_inv (set_stopping a false s).
Proof using Type. intros [H1 H2 H3 H4 H5 Hb Hsig H6 H7] Hs. by split. Qed.

Lemma stop_step_ok a : pool_inv a → (stopping a = SJoin → producers a = []) → pool_inv (stop_step a).
Proof using Type.
  intros Hi Hp. unfold stop_step. destruct (stopping a) as [| |waiting|i|] eqn:Es; [done| | | |].
  - destruct (queueSlots_ a); [by apply inv_stopping|by apply inv_stopping_only].
  - destruct (0 <? waiting); [by apply inv_stopping|by apply inv_stopping_only].
  - destruct (i <? length (workers_ a))%nat; [|by apply inv_stopping_only].
    apply inv_stopping_only; [|done]. apply (inv_signal a _ i (producers a)); try done. by right.
  - specialize (Hp eq_refl). destruct (forallb _ _); [|done]. destruct Hi as [H1 H2 H3 H4 H5 Hb Hsig H6 H7].
    split; cbn; try done. rewrite H3. unfold queued at 2. cbn. solve_Permutation.
Qed.

Lemma inv_given a t f :
  pool_inv a → (f = h_inline t ∨ f = h_refuse t) → pool_inv (remember (remember a (h_given t)) f).
Proof using Type.
  intros [H1 H2 H3 H4 H5 Hb Hsig H6 H7] [-> | ->]; split; unfold in_flight in *; cbn; try done; rewrite H2; solve_Permutation.
Qed.

Lemma inv_enqueue a t :
  pool_inv a → threads_ a ≠ [] → running_ a = true → pool_inv (enqueue_begins t (remember a (h_given t))).
Proof using Type.
  intros [H1 H2 H3 H4 H5 Hb Hsig H6 H7] Ht Hr. split; unfold in_flight in *; cbn; try done.
  - rewrite fmap_app, join_app, H2. cbn. solve_Permutation.
  - intros Hrun. destruct (H4 Hrun) as [? Hs]. split; [done|]. unfold slots_held in *.
    rewrite fmap_app, join_app. cbn. by rewrite app_nil_r.
  - intros _ Hw. rewrite Hw in H1. by destruct (threads_ a).
  - intros i w p Hw Hp Hq Hpast. destruct (H7 i w p Hw Hp Hq Hpast) as [?|[?|?]]; [by left|right; left|right; right];
      apply elem_of_app; by left.
Qed.

Lemma run_ok f a : pool_inv a → pool_inv (run f a).
Proof using Type.
  intros Hi. destruct f as [t|]; [|done]. unfold run, call_inline, drop_task. cbn.
  destruct (running_ a) eqn:Er; cbn.
  - destruct (threads_ a) eqn:Et; [apply inv_given; [done|by left]|]. apply inv_enqueue; [done| |done]. by rewrite Et.
  - destruct (started_ a); cbn; apply inv_given; try done; [by right|by left].
Qed.

Lemma submit_ok t a : pool_inv a → pool_inv (submit t a).
Proof using Type.
  intros Hi. unfold submit, call_inline. cbn. destruct (threads_ a) eqn:Et; [apply inv_given; [done|by left]|].
  destruct (running_ a) eqn:Er; cbn; [|apply inv_given; [done|by left]]. apply inv_enqueue; [done| |done]. by rewrite Et.
Qed.

Lemma set_max_ok n a : pool_inv a → pool_inv (setMaxQueueSize n a).
Proof using Type.
  intros Hi. unfold setMaxQueueSize. destruct (running_ a) eqn:Er; [done|].
  destruct Hi as [H1 H2 H3 H4 H5 Hb Hsig H6 H7]. split; cbn; try done; try congruence.
  destruct (Z.ltb_spec 0 n); lia.
Qed.

Lemma pool_step_ok a a' : pool_inv a → step a a' → pool_inv a'.
Proof using Type.
  intros Hi Hs. revert Hi.
  destruct Hs as [n a Hp Hst|a|a Hp|n a|f a|t a|i p r a a' Hp E|i owns p p' a a' Hp E]; intros Hi.
  - by apply pool_start_ok.
  - unfold pool_stop. destruct (running_ a); [by apply inv_stopping_only|done].
  - by apply stop_step_ok.
  - by apply set_max_ok.
  - by apply run_ok.
  - by apply submit_ok.
  - by eapply producer_step_ok.
  - by eapply worker_step_ok.
Qed.

Lemma pool_reachable_inv a : reachable a → pool_inv a.
Proof using Type.
  induction 1 as [|a a' _ IH Hs]; [|by eapply pool_step_ok]. by split.
Qed.

(** C39. A thread pool loses no task and forgets no worker, whatever its
    threads, its users and [stop()] do. Every task given to it has been run by
    the caller, refused, put in a queue, or is on its way there in a call; and
    every task put in a queue has been taken by one worker, once, is still in
    a queue, or was there when [stop()] cleared the queues. While the pool
    runs with a limit, the queues hold no more tasks than it allows. A worker
    does not sleep on its tasks: when its queue is not empty and its thread
    waits on its semaphore with the counter at zero, a call that is going to
    release it is on its way; so when all workers sleep like this and no call
    is in flight, no task is queued. *)
Theorem thread_pool_keeps a :
  reachable a →
  given (history a) ≡ₚ ran_inline (history a) ++ refused (history a) ++ accepted (history a) ++ in_flight a ∧
  accepted (history a) ≡ₚ begun (history a) ++ queued (workers_ a) ++ discarded (history a) ∧
  (running_ a = true → 0 < maxQueueSize_ a → len (queued (workers_ a)) ≤ maxQueueSize_ a) ∧
  (∀ i w, workers_ a !! i = Some w → threads_ a !! i = Some WWait → signal w = 0 → queue w ≠ [] →
     waker i (producers a)) ∧
  (producers a = [] → Forall (λ p, p = WWait) (threads_ a) → Forall (λ w, signal w = 0) (workers_ a) →
     queued (workers_ a) = []).
Proof using Type.
  intros Hr. destruct (pool_reachable_inv a Hr) as [H1 H2 H3 H4 H5 Hb Hsig H6 H7].
  assert (∀ i w, workers_ a !! i = Some w → threads_ a !! i = Some WWait → signal w = 0 → queue w ≠ [] →
     waker i (producers a)) as Hwake.
  { intros i w Hw Ht Hs Hq. destruct (H7 i w WWait Hw Ht Hq eq_refl) as [?|?]; [lia|done]. }
  split_and!; try done.
  - intros Hrun Hmax. destruct (H4 Hrun) as [_ Hs]. destruct (queueSlots_ a); [|lia].
    unfold slots_held, len in *. lia.
  - intros Hp Ht Hs. apply Permutation_nil_r. unfold queued.
    enough (queue <$> workers_ a = replicate (length (workers_ a)) []) as ->.
    { clear. induction (length (workers_ a)) as [|n IH]; [done|exact IH]. }
    apply list_eq_Forall2, Forall2_fmap_l, Forall2_replicate_r; [done|]. apply Forall_lookup. intros i w Hw.
    destruct (lookup_lt_is_Some_2 (threads_ a) i) as [p Hp']; [rewrite H1; by eapply lookup_lt_Some|].
    rewrite Forall_lookup in Ht. rewrite Forall_lookup in Hs. rewrite (Ht i p Hp') in Hp'.
    destruct (queue w) as [|x l] eqn:Eq; [done|].
    destruct (Hwake i w Hw Hp' (Hs i w Hw)) as [Hx|Hx]; [by rewrite Eq| |]; rewrite Hp in Hx; by apply not_elem_of_nil in Hx.
Qed.
End ThreadPool.

(** ** Concrete runs *)

Definition producer_at (i : nat) (a : ThreadPool) : ThreadPool :=
  match producers a !! i with
  | Some p => match producer_step p a with Some (r, a') => set_producers a' (update i r (producers a)) | None => a end
  | None => a
  end.
Definition worker_at (i : nat) (a : ThreadPool) : ThreadPool :=
  match threads_ a !! i with
  | Some p => match worker_step false i true p a with
              | Some (p', a') => set_threads a' (<[i := p']> (threads_ a))
              | None => a
              end
  | None => a
  end.

Lemma producer_at_reachable i a : reachable false a → reachable false (producer_at i a).
Proof.
  intros Ha. unfold producer_at. destruct (producers a !! i) as [p|] eqn:Ep; [|done].
  destruct (producer_step p a) as [[r a']|] eqn:E; [|done]. eapply reach_step; [done|]. by eapply step_producer.
Qed.

Lemma worker_at_reachable i a : reachable false a → reachable false (worker_at i a).
Proof.
  intros Ha. unfold worker_at. destruct (threads_ a !! i) as [p|] eqn:Ep; [|done].
  destruct (worker_step false i true p a) as [[r a']|] eqn:E; [|done]. eapply reach_step; [done|]. by eapply step_worker.
Qed.

Lemma iter_reachable f n a :
  (∀ a, reachable false a → reachable false (f a)) → reachable false a → reachable false (Nat.iter n f a).
Proof. intros Hf Ha. induction n as [|n IH]; [done|]. by apply Hf. Qed.

(** Two workers and room for two tasks: the first task is run, the second
    waits in the queue of the second worker, the third call waits for room. *)
Definition sample_pool : ThreadPool :=
  Nat.iter 2 (producer_at 0) (run (Some 30) (Nat.iter 7 (producer_at 0) (run (Some 20)
    (Nat.iter 2 (worker_at 0) (Nat.iter 8 (producer_at 0) (run (Some 10)
      (Nat.iter 1 (worker_at 0) (pool_start false 2 (setMaxQueueSize 2 newPool))))))))).

Lemma sample_pool_reachable : reachable false sample_pool.
Proof.
  apply iter_reachable; [apply producer_at_reachable|]. eapply reach_step; [|apply step_run].
  apply iter_reachable; [apply producer_at_reachable|]. eapply reach_step; [|apply step_run].
  apply iter_reachable; [apply worker_at_reachable|]. apply iter_reachable; [apply producer_at_reachable|].
  eapply reach_step; [|apply step_run]. apply iter_reachable; [apply worker_at_reachable|].
  eapply reach_step; [|by apply step_start]. eapply reach_step; [apply reach_new|]. apply step_max.
Qed.

Lemma thread_pool_keeps_witness :
  begun (history sample_pool) = [10] ∧ queued (workers_ sample_pool) = [20] ∧ in_flight sample_pool = [30] ∧
  given (history sample_pool) ≡ₚ ran_inline (history sample_pool) ++ refused (history sample_pool) ++
    accepted (history sample_pool) ++ in_flight sample_pool ∧
  accepted (history sample_pool) ≡ₚ begun (history sample_pool) ++ queued (workers_ sample_pool) ++
    discarded (history sample_pool) ∧
  len (queued (workers_ sample_pool)) ≤ maxQueueSize_ sample_pool.
Proof.
  destruct (thread_pool_keeps false sample_pool sample_pool_reachable) as (H1 & H2 & H3 & _).
  split; [by vm_compute|]. split; [by vm_compute|]. split; [by vm_compute|]. split; [exact H1|]. split; [exact H2|].
  apply H3; by vm_compute.
Defined.

(** A worker takes its task without acquiring the semaphore that announced it;
    the next task finds the queue empty again and releases it a second time,
    above the maximum of a binary semaphore. *)
Lemma signal_overflow :
  let a := Nat.iter 3 (producer_at 0) (run (Some 20) (Nat.iter 3 (worker_at 0) (Nat.iter 4 (producer_at 0)
    (run (Some 10) (pool_start false 1 newPool))))) in
  reachable false a ∧ map signal (workers_ (producer_at 0 a)) = [2].
Proof.
  split; [|by vm_compute]. apply iter_reachable; [apply producer_at_reachable|]. eapply reach_step; [|apply step_run].
  apply iter_reachable; [apply worker_at_reachable|]. apply iter_reachable; [apply producer_at_reachable|].
  eapply reach_step; [|apply step_run]. eapply reach_step; [apply reach_new|]. by apply step_start.
Qed.

(** A call that counts itself as waiting after [stop()] has looked at
    [waitingProducers_]: it waits for a slot while every worker has ended, and
    nobody is left to release one. *)
Lemma producer_forgotten :
  let a := Nat.iter 3 (worker_at 0) (Nat.iter 2 (producer_at 0) (Nat.iter 4 stop_step (pool_stop
    (producer_at 0 (run (Some 20) (Nat.iter 8 (producer_at 0) (run (Some 10)
      (pool_start false 1 (setMaxQueueSize 1 newPool))))))))) in
  reachable false a ∧ producers a = [PAcquire 20] ∧ producer_at 0 a = a ∧ threads_ a = [WFinished] ∧
  stopping a = SJoin ∧ running_ a = false.
Proof.
  split; [|by vm_compute].
  apply iter_reachable; [apply worker_at_reachable|]. apply iter_reachable; [apply producer_at_reachable|].
  do 4 (eapply reach_step; [|apply step_stopping; by vm_compute]). eapply reach_step; [|apply step_stop].
  apply producer_at_reachable. eapply reach_step; [|apply step_run]. apply iter_reachable; [apply producer_at_reachable|].
  eapply reach_step; [|apply step_run]. eapply reach_step; [|by apply step_start].
  eapply reach_step; [apply reach_new|]. apply step_max.
Qed.
