(* ===== verification/ThreadPoolStop.v ===== *)
(** * ThreadPoolStop: stopping a pool ([muduo/base/ThreadPool.cc])

    [stop()] clears the flag, gives every worker a signal and joins the
    threads. The theorem: whatever calls are in flight, the workers then end
    within a number of steps that the state determines, so that [join()] of
    each thread returns. *)
From S2P Require Import Prelude ThreadPool.
From stdpp Require Import options.

#[global] Instance stop_pc_eq_dec : EqDecision stop_pc.
Proof. solve_decision. Defined.
#[global] Instance worker_pc_eq_dec : EqDecision worker_pc.
Proof. solve_decision. Defined.

Section Stop.
Context (has_init : bool).
#[local] Abbreviation step := (ThreadPool.step has_init).
#[local] Abbreviation reachable := (ThreadPool.reachable has_init).

(** The steps a worker takes at most once the flag is cleared, among [n]
    workers, and those of [stop()] before it joins. *)
Definition worker_rest (n : nat) (p : worker_pc) : nat :=
  match p with
  | WFinished => 0 | WTest => 1 | WInit | WRun _ | WWait => 2
  | WSteal k => 3 + (n - k) | WLoad => 4 + n | WPop => 5 + n
  end.
Definition stop_rest (n : nat) (s : stop_pc) : nat :=
  match s with SIdle | SJoin => 0 | SSignal i => 1 + (n - i) | SSlots _ => 2 + n | SProducers => 3 + n end.
Definition rest (a : ThreadPool) : nat :=
  stop_rest (length (workers_ a)) (stopping a) + sum_list (worker_rest (length (workers_ a)) <$> threads_ a).

(** The flag is cleared and [stop()] has not returned. *)
Definition in_stop (a : ThreadPool) : Prop := running_ a = false ∧ stopping a ≠ SIdle.
Definition all_finished (a : ThreadPool) : Prop := Forall (λ p, p = WFinished) (threads_ a).
#[local] Instance all_finished_dec a : Decision (all_finished a).
Proof. unfold all_finished. apply _. Defined.

(** [stop()] up to the joins, and the workers. *)
Inductive own_step (a : ThreadPool) : ThreadPool → Prop :=
| own_stop : stopping a ≠ SJoin → own_step a (stop_step a)
| own_worker i owns p p' a' :
    threads_ a !! i = Some p → worker_step has_init i owns p a = Some (p', a') →
    own_step a (set_threads a' (<[i := p']> (threads_ a))).

(** *** The number of steps *)

Lemma sum_insert (f : worker_pc → nat) (l : list worker_pc) i p q :
  l !! i = Some p → (sum_list (f <$> <[i := q]> l) + f p = sum_list (f <$> l) + f q)%nat.
Proof using Type.
  revert i. induction l as [|x l IH]; intros [|i]; cbn; try done.
  - intros [= ->]. lia.
  - intros Hi. specialize (IH i Hi). change (f x + sum_list (f <$> <[i := q]> l) + f p = f x + sum_list (f <$> l) + f q)%nat. lia.
Qed.

Lemma popOwn_frame i a t a' :
  popOwn i a = Some (t, a') → length (workers_ a') = length (workers_ a) ∧ stopping a' = stopping a ∧ running_ a' = running_ a.
Proof using Type.
  unfold popOwn. destruct (workers_ a !! i) as [w|]; [|done]. destruct (queue w) as [|t' q]; [done|].
  intros [= <- <-]. cbn. by rewrite length_insert.
Qed.
Lemma steal_frame owns i a t a' :
  steal owns i a = Some (t, a') → length (workers_ a') = length (workers_ a) ∧ stopping a' = stopping a ∧ running_ a' = running_ a.
Proof using Type.
  unfold steal. destruct (workers_ a !! i) as [w|]; [|done]. destruct owns; [|done]. destruct (last (queue w)) as [t'|]; [|done].
  intros [= <- <-]. cbn. by rewrite length_insert.
Qed.

(** One step of a worker, with the flag cleared. *)
Lemma worker_step_rest i owns p p' a a' :
  running_ a = false → worker_step has_init i owns p a = Some (p', a') →
  length (workers_ a') = length (workers_ a) ∧ stopping a' = stopping a ∧ running_ a' = false ∧
  (worker_rest (length (workers_ a)) p' < worker_rest (length (workers_ a)) p)%nat.
Proof using Type.
  intros Hr. destruct p as [| | | |k|t| |]; cbn [worker_step]; rewrite ?Hr.
  - intros [= <- <-]. cbn; split_and!; first [done|lia].
  - intros [= <- <-]. cbn; split_and!; first [done|lia].
  - destruct (popOwn i a) as [[t a1]|] eqn:E; intros [= <- <-].
    + destruct (popOwn_frame _ _ _ _ E) as (? & ? & ?). cbn. split_and!; first [done|congruence|lia].
    + cbn. split_and!; first [done|congruence|lia].
  - destruct (queuedTasks_ a =? 0); intros [= <- <-]; cbn; split_and!; first [done|congruence|lia].
  - destruct (Nat.ltb_spec k (length (workers_ a))).
    + destruct (steal owns _ a) as [[t a1]|] eqn:E; intros [= <- <-].
      * destruct (steal_frame _ _ _ _ _ E) as (? & ? & ?). cbn. split_and!; first [done|congruence|lia].
      * cbn. split_and!; first [done|congruence|lia].
    + intros [= <- <-]. cbn. split_and!; first [done|congruence|lia].
  - intros [= <- <-]. cbn. split_and!; first [done|congruence|lia].
  - destruct (workers_ a !! i) as [w|]; [|done]. destruct (0 <? signal w); [|done]. intros [= <- <-].
    cbn. rewrite length_insert. split_and!; first [done|congruence|lia].
  - done.
Qed.

Lemma stop_step_rest a :
  in_stop a → stopping a ≠ SJoin →
  in_stop (stop_step a) ∧ threads_ (stop_step a) = threads_ a ∧ length (workers_ (stop_step a)) = length (workers_ a) ∧
  (stop_rest (length (workers_ a)) (stopping (stop_step a)) < stop_rest (length (workers_ a)) (stopping a))%nat.
Proof using Type.
  intros [Hr Hs] Hj. unfold stop_step, in_stop. destruct (stopping a) as [| |waiting|i|] eqn:E; try done.
  - destruct (queueSlots_ a) as [slots|]; cbn; split_and!; try done; lia.
  - destruct (0 <? waiting); cbn; split_and!; try done; lia.
  - destruct (Nat.ltb_spec i (length (workers_ a))); cbn; rewrite ?length_alter; split_and!; try done; lia.
Qed.

Lemma own_step_rest a a' : in_stop a → own_step a a' → in_stop a' ∧ (rest a' < rest a)%nat.
Proof using Type.
  intros Hin Hs. destruct Hs as [Hj|i owns p p' a' Hp Hw].
  - destruct (stop_step_rest a Hin Hj) as (H1 & H2 & H3 & H4). split; [done|]. unfold rest. rewrite H2, H3. lia.
  - destruct Hin as [Hr Hs]. destruct (worker_step_rest i owns p p' a a' Hr Hw) as (H1 & H2 & H3 & H4).
    split; [split; cbn; congruence|]. unfold rest. cbn. rewrite H1, H2.
    pose proof (sum_insert (worker_rest (length (workers_ a))) (threads_ a) i p p' Hp). lia.
Qed.
(** *** The signals *)

(** A worker that has got its signal from [stop()] still has it, or has left
    its wait. *)
Definition signalled (a : ThreadPool) : Prop :=
  ∀ i p w, threads_ a !! i = Some p → workers_ a !! i = Some w →
    stopping a = SJoin ∨ (∃ k, stopping a = SSignal k ∧ (i < k)%nat) →
    p = WTest ∨ p = WFinished ∨ 0 < signal w.

(** No signal is taken away. *)
Definition signals_stay (a a' : ThreadPool) : Prop :=
  ∀ i w', workers_ a' !! i = Some w' → ∃ w, workers_ a !! i = Some w ∧ signal w ≤ signal w'.

Lemma signals_refl a a' : workers_ a' = workers_ a → signals_stay a a'.
Proof using Type. intros E i w. rewrite E. intros Hw. exists w. split; [done|lia]. Qed.

Lemma signals_insert a a' i w q :
  workers_ a !! i = Some w → workers_ a' = <[i := mkWorker q (signal w)]> (workers_ a) → signals_stay a a'.
Proof using Type.
  intros Hw E j w'. rewrite E. intros [(-> & <- & _)|[_ Hj]]%list_lookup_insert_Some.
  - exists w. split; [done|cbn; lia].
  - exists w'. split; [done|lia].
Qed.

Lemma signals_release a i : signals_stay a (signal_worker i a).
Proof using Type.
  intros j w'. cbn. rewrite list_lookup_alter. case_decide as Hd; intros H.
  - subst j. destruct (workers_ a !! i) as [w|]; [|done]. injection H as <-. exists w. split; [done|cbn; lia].
  - exists w'. split; [done|lia].
Qed.

Lemma signalled_mono a a' :
  signalled a → threads_ a' = threads_ a → stopping a' = stopping a → signals_stay a a' → signalled a'.
Proof using Type.
  intros H Et Es Hs i p w' Hp Hw Hstop. destruct (Hs i w' Hw) as (w & Hw0 & Hle). rewrite Et in Hp. rewrite Es in Hstop.
  destruct (H i p w Hp Hw0 Hstop) as [?|[?|?]]; [by left|by right; left|right; right; lia].
Qed.

Lemma producer_frame p a r a' :
  producer_step p a = Some (r, a') →
  threads_ a' = threads_ a ∧ stopping a' = stopping a ∧ running_ a' = running_ a ∧
  length (workers_ a') = length (workers_ a) ∧ signals_stay a a'.
Proof using Type.
  destruct p as [t|t|t|t|t|t|i wake|i]; cbn [producer_step].
  - destruct (running_ a) eqn:Er; intros [= <- <-]; (split_and!; [done..|by apply signals_refl]).
  - intros [= <- <-]. split_and!; [done..|by apply signals_refl].
  - destruct (queueSlots_ a) as [s|]; [|done]. destruct (0 <? s); [|done]. intros [= <- <-].
    split_and!; [done..|by apply signals_refl].
  - intros [= <- <-]. split_and!; [done..|by apply signals_refl].
  - destruct (running_ a) eqn:Er; intros [= <- <-]; (split_and!; [done..|by apply signals_refl]).
  - unfold enqueueSharded. destruct (workers_ a) as [|w0 ws] eqn:E.
    { intros [= <- <-]. split_and!; [done|done|done|by cbn; rewrite E|by apply signals_refl]. }
    cbn [workers_ set_counters]. rewrite E. destruct ((w0 :: ws) !! _) as [w|] eqn:Hw.
    + intros [= <- <-]. cbn. split_and!; [done|done|done|by rewrite length_insert|].
      rewrite <- E in Hw. eapply signals_insert; [exact Hw|]. cbn. by rewrite E.
    + intros [= <- <-]. split_and!; [done|done|done|by cbn; rewrite E|by apply signals_refl].
  - intros [= <- <-]. split_and!; [done..|by apply signals_refl].
  - intros [= <- <-]. split_and!; [done|done|done|by cbn; rewrite length_alter|apply signals_release].
Qed.

Lemma worker_signals i owns p p' a a' :
  worker_step has_init i owns p a = Some (p', a') →
  threads_ a' = threads_ a ∧ stopping a' = stopping a ∧
  (signals_stay a a' ∨ p = WWait ∧ p' = WTest ∧ ∀ j, j ≠ i → workers_ a' !! j = workers_ a !! j).
Proof using Type.
  assert (∀ k t a1, popOwn k a = Some (t, a1) → threads_ a1 = threads_ a ∧ stopping a1 = stopping a ∧ signals_stay a a1) as Hpop.
  { intros k t a1. unfold popOwn. destruct (workers_ a !! k) as [w|] eqn:Hw; [|done]. destruct (queue w); [done|].
    intros [= <- <-]. split; [done|]. split; [done|]. by eapply signals_insert. }
  assert (∀ k t a1, steal owns k a = Some (t, a1) → threads_ a1 = threads_ a ∧ stopping a1 = stopping a ∧ signals_stay a a1) as Hsteal.
  { intros k t a1. unfold steal. destruct (workers_ a !! k) as [w|] eqn:Hw; [|done]. destruct owns; [|done].
    destruct (last (queue w)); [|done]. intros [= <- <-]. split; [done|]. split; [done|]. by eapply signals_insert. }
  destruct p as [| | | |k|t| |]; cbn [worker_step].
  - intros [= <- <-]. split_and!; [done|done|left; by apply signals_refl].
  - intros [= <- <-]. split_and!; [done|done|left; by apply signals_refl].
  - destruct (popOwn i a) as [[t a1]|] eqn:E; intros [= <- <-].
    + destruct (Hpop _ _ _ E) as (? & ? & ?). by split_and!; [..|left].
    + split_and!; [done|done|left; by apply signals_refl].
  - intros [= <- <-]. split_and!; [done|done|left; by apply signals_refl].
  - destruct (k <? _)%nat; [destruct (steal owns _ a) as [[t a1]|] eqn:E|]; intros [= <- <-].
    + destruct (Hsteal _ _ _ E) as (? & ? & ?). by split_and!; [..|left].
    + split_and!; [done|done|left; by apply signals_refl].
    + split_and!; [done|done|left; by apply signals_refl].
  - intros [= <- <-]. split_and!; [done|done|left; by apply signals_refl].
  - destruct (workers_ a !! i) as [w|]; [|done]. destruct (0 <? signal w); [|done]. intros [= <- <-].
    split_and!; [done|done|right]. split_and!; [done|done|]. intros j Hj. cbn. by rewrite list_lookup_insert_ne.
  - done.
Qed.

Lemma stop_step_signalled a :
  (∀ i w, workers_ a !! i = Some w → 0 ≤ signal w) → signalled a → signalled (stop_step a).
Proof using Type.
  intros Hpos H. unfold stop_step. destruct (stopping a) as [| |waiting|k|] eqn:E; [done| | | |].
  - destruct (queueSlots_ a); intros i p w _ _ [Hs|(j & Hs & Hj)]; try done; cbn in Hs; injection Hs as <-; lia.
  - destruct (0 <? waiting); intros i p w _ _ [Hs|(j & Hs & Hj)]; try done; cbn in Hs; injection Hs as <-; lia.
  - destruct (Nat.ltb_spec k (length (workers_ a))) as [Hk|Hk]; intros i p w' Hp Hw Hstop; cbn in Hp, Hw.
    + destruct Hstop as [?|(j & [= <-] & Hj)]; [done|]. rewrite list_lookup_alter in Hw. case_decide as Hd.
      * subst i. destruct (workers_ a !! k) as [w|] eqn:Hwk; [|done]. injection Hw as <-. cbn.
        specialize (Hpos _ _ Hwk). right; right; lia.
      * apply (H i p w' Hp Hw). right. exists k. split; [done|lia].
    + apply (H i p w' Hp Hw). right. exists k. split; [done|]. apply lookup_lt_Some in Hw. lia.
  - destruct (forallb _ _); [|done]. intros i p w _ Hw. by cbn in Hw.
Qed.

Lemma worker_signalled a i owns p p' a' :
  (running_ a = true → stopping a = SIdle) → threads_ a !! i = Some p → worker_step has_init i owns p a = Some (p', a') →
  signalled a → signalled (set_threads a' (<[i := p']> (threads_ a))).
Proof using Type.
  intros Hrun Hp Hs H. destruct (worker_signals i owns p p' a a' Hs) as (Et & Es & Hsig).
  intros j q w' Hq Hw Hstop. cbn in Hq, Hw, Hstop. rewrite Es in Hstop.
  assert (running_ a = false) as Hr.
  { destruct (running_ a); [|done]. rewrite (Hrun eq_refl) in Hstop. by destruct Hstop as [?|(? & ? & _)]. }
  destruct (decide (j = i)) as [->|Hne].
  - rewrite list_lookup_insert_eq in Hq by (by eapply lookup_lt_Some). injection Hq as <-.
    destruct Hsig as [Hstay|(_ & -> & _)]; [|by left].
    destruct (Hstay i w' Hw) as (w & Hw0 & Hle).
    destruct (H i p w Hp Hw0 Hstop) as [->|[->|Hpos]]; [|by cbn in Hs|right; right; lia].
    cbn in Hs. rewrite Hr in Hs. injection Hs as <- _. by right; left.
  - rewrite list_lookup_insert_ne in Hq by done. destruct Hsig as [Hstay|(_ & _ & Hsame)].
    + destruct (Hstay j w' Hw) as (w & Hw0 & Hle).
      destruct (H j q w Hq Hw0 Hstop) as [?|[?|?]]; [by left|by right; left|right; right; lia].
    + rewrite Hsame in Hw by done. by apply (H j q w').
Qed.

Lemma step_signalled a a' : pool_inv a → step a a' → signalled a → signalled a'.
Proof using Type.
  intros Hi Hs H. destruct Hs as [n a Hpr Hst|a|a Hj|n a|f a|t a|j p r a a' Hp He|i owns p p' a a' Hp He].
  - unfold pool_start. destruct (running_ a); [done|]. intros i p w _ _ [Hx|(k & Hx & _)]; done.
  - unfold pool_stop. destruct (running_ a); [|done]. intros i p w _ _ [Hx|(k & Hx & _)]; done.
  - apply stop_step_signalled; [|done]. apply (pi_signal _ Hi).
  - unfold setMaxQueueSize. by destruct (running_ a).
  - unfold run. destruct f as [t|]; [|done]. cbn. destruct (negb (running_ a)); [by destruct (negb (started_ a))|].
    by destruct (threads_ a) eqn:E.
  - unfold submit. cbn. destruct (threads_ a) eqn:E; [done|]. by destruct (negb (running_ a)).
  - destruct (producer_frame _ _ _ _ He) as (Et & Es & _ & _ & Hsig). by eapply signalled_mono.
  - eapply worker_signalled; [|done..]. intros Hr. by apply (pi_slots _ Hi).
Qed.

Lemma pool_signalled a : reachable a → signalled a.
Proof using Type.
  induction 1 as [|a a' Hr IH Hs]; [by intros i p w Hp|]. eapply step_signalled; [|done..].
  by apply (pool_reachable_inv has_init).
Qed.

(** *** Progress *)

Lemma stop_progress a :
  reachable a → in_stop a → (stopping a = SJoin ∧ all_finished a) ∨ ∃ a', own_step a a'.
Proof using Type.
  intros Hr [Hrun Hst]. destruct (decide (stopping a = SJoin)) as [Hj|Hj]; [|right; eexists; by apply own_stop].
  destruct (decide (all_finished a)) as [Hf|Hf]; [by left|]. right.
  assert (∃ i p, threads_ a !! i = Some p ∧ p ≠ WFinished) as (i & p & Hp & Hne).
  { apply (not_Forall_Exists _ _), Exists_exists in Hf as (p & Hp & Hne). apply list_elem_of_lookup in Hp as [i Hp]. eauto. }
  assert (∃ q a', worker_step has_init i true p a = Some (q, a')) as (q & a' & Hw).
  { destruct p as [| | | |k|t| |]; cbn [worker_step]; try by eauto.
    - destruct (popOwn i a) as [[t a1]|]; eauto.
    - destruct (k <? _)%nat; [|by eauto]. destruct (steal true _ a) as [[t a1]|]; eauto.
    - pose proof (pool_reachable_inv has_init a Hr) as Hi. pose proof (pool_signalled a Hr) as Hs.
      destruct (lookup_lt_is_Some_2 (workers_ a) i) as [w Hwi].
      { rewrite <- (pi_length _ Hi). by eapply lookup_lt_Some. }
      rewrite Hwi. destruct (Hs i WWait w Hp Hwi (or_introl Hj)) as [?|[?|Hpos]]; [done|done|].
      rewrite (proj2 (Z.ltb_lt _ _) Hpos). eauto. }
  eexists. by eapply own_worker.
Qed.

(** What the other threads do meanwhile does not prolong it. *)
Lemma other_step_rest a a' :
  in_stop a → step a a' → own_step a a' ∨ (in_stop a' ∧ rest a' = rest a) ∨ (stopping a = SJoin ∧ all_finished a).
Proof using Type.
  intros [Hrun Hst] Hs. destruct Hs as [n a Hpr Hst'|a|a Hj|n a|f a|t a|j p r a a' Hp He|i owns p p' a a' Hp He].
  - done.
  - right; left. unfold pool_stop. rewrite Hrun. done.
  - destruct (decide (stopping a = SJoin)) as [Hj'|Hj']; [|left; by apply own_stop].
    destruct (decide (all_finished a)) as [Hf|Hf]; [by right; right|]. right; left.
    unfold stop_step. rewrite Hj'. assert (forallb (λ p, match p with WFinished => true | _ => false end) (threads_ a) = false) as ->.
    { apply not_true_iff_false. intros Hb. apply Hf, Forall_forall. intros p Hp. rewrite forallb_forall in Hb.
      apply list_elem_of_In in Hp. specialize (Hb p Hp). by destruct p. }
    done.
  - right; left. unfold setMaxQueueSize. rewrite Hrun. done.
  - right; left. unfold run. destruct f as [t|]; [|done]. cbn. rewrite Hrun. cbn. by destruct (negb (started_ a)).
  - right; left. unfold submit. cbn. rewrite Hrun. by destruct (threads_ a) eqn:E.
  - right; left. destruct (producer_frame _ _ _ _ He) as (Et & Es & Er & El & _).
    split; [split; cbn; congruence|]. unfold rest. cbn. by rewrite Et, Es, El.
  - left. by eapply own_worker.
Qed.

End Stop.

(** [stop()] on the pool of two workers with a task running, one in a queue and
    a call that waits for room. *)
Definition stop_example : ThreadPool := pool_stop sample_pool.

Lemma stop_example_reachable : reachable false stop_example.
Proof.
  apply reach_step with sample_pool; [exact sample_pool_reachable|]. unfold stop_example. apply (step_stop false).
Qed.
Lemma stop_example_running : running_ stop_example = false.
Proof. vm_compute. reflexivity. Qed.
Lemma stop_example_stopping : stopping stop_example = SProducers.
Proof. vm_compute. reflexivity. Qed.
Lemma stop_example_rest : (rest stop_example, queued (workers_ stop_example)) = (9%nat, [20]).
Proof. vm_compute. reflexivity. Qed.
Lemma stop_example_in_stop : in_stop stop_example.
Proof.
  split; [exact stop_example_running|]. rewrite stop_example_stopping. discriminate.
Qed.

